(* ===== verification/_CoqProject ===== *)
-Q . S2P
Prelude.v
GoLib.v
GoHeap.v
GoState.v
Common.v
HashShard.v
HashSegment.v
HashIndex.v
HashCompaction.v
HashSteps.v
HashRecovery.v
HashTheorems.v
HashConcurrent.v
LsmMemtable.v
LsmWal.v
LsmBloom.v
LsmSSTable.v
LsmLevels.v
LsmCompaction.v
LsmEngine.v
LsmTheorems.v
LsmIterator.v
BtVarint.v
BtPage.v
BtPageTyped.v
BtNode.v
BtWal.v
BtPager.v
BtRecency.v
BtCache.v
BtPages.v
BtSplit.v
BtMerge.v
BtTree.v
BtLeaf.v
BtTreeInv.v
BtInsert.v
BtRefine.v
BtRecovery.v
BtDurable.v
BtIterator.v
BtScan.v
BtLatch.v
BtFindings.v
BenchKeys.v
Bench.v
BenchTable.v
