(* ===== verification/Prelude.v ===== *)
(** * Verified storage engines

    A model of the three storage engines of the repository, of the parts they are built
    from, and of the harness that measures them, with the theorems that make them correct.
    All engines implement one interface, [common.StorageEngine] ([src/common/types.go]):
    Put, Get, Delete, Sync over keys and values that are byte strings.  [Common] states that
    interface as the class [StorageEngine] and what an engine promises as the class
    [StoresMap]: its states represent finite maps, and every call answers as the map does.
    [session_refines] lifts the promise to whole client sessions; the hash index and the LSM
    engine discharge it, and the harness is proved against it.  The B-tree reports deletes
    of missing keys and refuses empty ones, so it has a specification of its own,
    [tree_spec].

    ** The parts and where they are modelled

    - [Prelude], [GoLib], [GoHeap], [GoState]: Go as the engines use it.  Results are values
      of [res] (a value, an error, a panic); integers are [Z] with the wrap-around of their
      width written out ([u16], [u32], [u64], [i32]); byte slices are [list Z]; files are
      byte lists with [ReadAt], [WriteAt] and [io.ReadFull]; [encoding/binary], CRC-32, FNV,
      [sort.Search], [container/heap] and [container/list] are defined and proved to do what
      the engines rely on; [GoState] has the state-and-error monad of imperative methods.
    - [Common]: [src/common/types.go], [errors.go], [testutil/limiter.go].
    - The hash index, [src/hashindex].  [HashShard] ([shard.go]): the index in 256 shards.
      [HashSegment] ([segment.go]): reference-counted segment handles and the record format.
      [HashIndex] ([hashindex.go]): the engine state (an index, the segments, the files by
      inode, the active segment, flags and counters) and its operations.  [HashCompaction]
      ([compaction.go]) and [HashRecovery] ([recovery.go]): the compaction and the scan that
      rebuilds the index.  [HashSteps]: the compaction as the steps between which other
      goroutines run.  [HashTheorems] and [HashConcurrent]: the theorems of the engine.
    - The LSM engine, [src/lsm].  [LsmMemtable], [LsmWal], [LsmBloom], [LsmSSTable] (reader
      and builder), [LsmLevels], [LsmCompaction], [LsmEngine] ([lsm.go], [adapter.go]),
      [LsmIterator]: one file per source file, the builder beside the reader;
      [LsmTheorems]: the theorems of the engine.
    - The B-tree, [src/btree].  [BtVarint], [BtPage], [BtNode], [BtWal]: the varint codec, the
      slotted pages as 4096 bytes, the operations on one node, the physical log.  [BtPager]
      ([pager.go]): page objects in a store, shared through the cache by reference, so that
      an object that was evicted while it is still held loses its writes as in the code.
      [BtSplit], [BtMerge], [BtTree], [BtIterator], [BtLatch]: [split.go], [merge.go],
      [btree.go], [iterator.go], [latch.go] over that pager.  The theorems are in [BtPageTyped]
      and [BtNode] (one page), [BtRecency], [BtCache] and [BtPages] (the pager), [BtLeaf],
      [BtTreeInv], [BtInsert], [BtRefine] (the engine), [BtRecovery] and [BtDurable] (crashes),
      [BtScan] (scans), [BtLatch] (latches); [BtFindings] has the runs outside of their scope.
    - The harness, [src/common/benchmark].  [BenchKeys] ([keygen.go], [metrics.go]), [Bench]
      ([framework.go], [compare.go]), a client of any [StorageEngine], and [BenchTable], the
      reports and tables of [compare.go].

    A stateful type of the code is a [Record], a method is a function from the state and
    the arguments to the new state and the result, with the guards and early returns of
    the code in their order; loops are [Fixpoint]s.  A lock that is held for a whole call
    makes the call atomic, so a run is a sequence of calls and of rounds of the background
    workers; the runs a theorem speaks about are given by an inductive relation ([reach] in
    [HashTheorems], [lsm_reach] in [LsmTheorems]).  Where the code gives its locks up in
    between, the parts are steps of their own: the compaction of the hash index
    ([interleave] in [HashConcurrent]) and the latches of the B-tree ([step] in [BtLatch]).

    ** What the theorems show

    - The engines refine the abstract map, errors included: [hash_session_refines_map],
      [hash_reachable_gets], [lsm_session_refines_map], [btree_session_refines_map].
    - Scans return the entries of a range in order: [btree_scan_range], [lsm_scan_memtables].
    - Background work and restarts keep the contents: [hash_compaction_preserves],
      [hash_concurrent_compaction] (clients call while it runs), [hash_restart_preserves],
      [lsm_crash_recovery], [lsm_restart_preserves], [btree_crash_recovery] (the page log is
      replayed), [btree_sync_durable];
      [hash_torn_recovery] for a torn record at the end of a segment, [hash_recovery_total]
      for any bytes on the disk.
    - The on-disk formats are inverted by their readers: [segment_append_read],
      [sstable_roundtrip], [wal_roundtrip], [wal_torn_tail], [btree_wal_roundtrip],
      [varint_roundtrip], [bloom_no_false_negatives].
    - The components meet their specifications: [sharded_index_refines_map],
      [memtable_refines_map], [merge_correct], [levels_invariant], [overlapping_complete],
      [leaf_page_refines_map], [node_routing], [page_operations_typed],
      [pager_refines_pages], [hash_close_errors], [limiter_alloc_free].
    - Latches: [latches_exclusive], [latches_live] (no deadlock, no call waits for ever) and
      [concurrent_calls_alone] (the concurrent calls are the sequential ones when alone).
    - The harness measures what it says: [bench_run_counts], [workload_mix_exact],
      [bench_keys_ordered], [bench_keys_in_range], [latency_stats_ranks]; [row_right] says when
      the tables of a comparison can be read.

    Several of these hold under conditions that the code does not enforce; where a
    condition cannot be dropped, an [Example] next to the theorem runs the code to a wrong
    answer: in [HashTheorems] a second compaction, a restart after one, writes behind a torn
    record; in [HashConcurrent] calls inside the two windows of a compaction; in
    [LsmTheorems] a second flush of a key, a flushed delete, a crash after a flush,
    conflicting entries in a merge, an entry larger than a block; in [LsmIterator] scans
    over tables, tombstones, bounds and empty keys; in [BtFindings] splits of internal pages,
    rebalancing, large entries, tiny caches, a crash after a root split, torn records in an
    empty log, restarts and open scans; in [BenchKeys], [Bench] and [BenchTable] skewed draws,
    short keys, the first rounds of a mix, and tables whose cells are out of place.

    ** Bounds, fuel and parameters

    Loops that are not structural take fuel, and their callers give enough of it, as the
    theorems show by proving the result: the length of a file for scans over records (a
    record is not empty; [hash_recovery_total] proves it for every file), the number of cells
    of a page for the binary search and for [InsertCell], ten rounds for a varint, twenty for
    the digits of a 64-bit key number, the total size of the input files for a merge, the
    size of the heap for skipping duplicates in a scan, and for a descent
    through the B-tree the number of pages ([depth_fuel]), since no path visits a page twice.

    The engine theorems of the B-tree are about entries of at most 96 bytes ([max_entry]: the
    two halves of a full leaf then fit), at most 41 pages ([max_pages]: their root has at most
    40 leaves, and is never full), a cache of at least three pages (a split holds three) and
    deletes that leave a leaf with enough cells.  [BtFindings] leaves each of these bounds.
    [btree_crash_recovery] adds that each page in the log is on the disk with its type or is a
    new leaf ([recoverable]), which fails after a split of the root until the next sync.

    The pager is proved correct with respect to what a recovery leaves behind (the class
    [Leftovers] of [BtCache]): page numbers that no page has, and cached pages that are not on
    the recency list and are never evicted.  Its invariant [pager_ok] includes that the log
    covers the pages ([log_inv]): the image of a page is the last one in the log, and without
    one it is on the disk.

    What the model does not compute is a parameter with its documented behaviour as a
    hypothesis: the clock of the hash index ([time_at], increasing), the order in which
    [range] visits a map ([range_map] and the class [RangeOrder], a permutation), the size
    of a Bloom filter ([new_bloom]: a float computation; at least one bit and one hash),
    [sort.Slice] ([sort_by_min]: a sorted permutation), the random draws and the measured
    latencies of the harness.

    ** What is not modelled

    Writes and [fsync] do not fail: a torn write is a file content to recover from.  A crash
    of the B-tree happens between two calls, and the files then hold what was written.  A
    page access of the B-tree is one step, and the file-level locks of the pager are left out.
    The float ratios of the harness are fractions of integers, and its reports are the cells
    before formatting; its progress messages are left out, as are the temporary directories of
    [src/common/testutil] and the command-line programs of [src/cmd], which only call the
    engines and print.  Methods that only close or remove a file handle, or return a field,
    have no definition. *)
From stdpp Require Import base gmap list strings numbers sorting.

Open Scope Z_scope.

(** ** Errors and results of Go functions *)

(** The error values the code returns: the sentinels of [src/common/errors.go],
    of [io] and of the three engines, and [Errorf] for [fmt.Errorf]/[errors.New]
    values, which the code only reports. *)
Inductive error :=
| ErrKeyNotFound
| ErrDiskFull
| ErrClosed
| ErrKeyEmpty
| EOF
| ErrUnexpectedEOF
| ErrPageFull
| ErrCellNotFound
| Errorf (msg : string).

#[global] Instance error_eq_dec : EqDecision error.
Proof. solve_decision. Defined.

(** A Go call that yields a value, an error, or a run-time panic. *)
Inductive res (A : Type) :=
| Ok (a : A)
| Err (e : error)
| Panic.
Arguments Ok {A} a.
Arguments Err {A} e.
Arguments Panic {A}.

#[global] Instance res_ret : MRet res := λ A a, Ok a.
#[global] Instance res_bind : MBind res := λ A B f c,
  match c with
  | Ok a => f a
  | Err e => Err e
  | Panic => Panic
  end.
#[global] Instance res_fmap : FMap res := λ A B f c,
  match c with
  | Ok a => Ok (f a)
  | Err e => Err e
  | Panic => Panic
  end.

#[global] Instance res_eq_dec {A} `{EqDecision A} : EqDecision (res A).
Proof. solve_decision. Defined.

(** ** Byte slices *)

(** A byte is a [Z]; every byte the code computes is reduced modulo 256. *)
Abbreviation bytes := (list Z).

Definition len {A} (l : list A) : Z := Z.of_nat (length l).

(** [b[lo:hi]], [b[lo:]] and [b[:hi]]; callers check the bounds as the code does. *)
Definition slice {A} (lo hi : Z) (b : list A) : list A :=
  take (Z.to_nat (hi - lo)) (drop (Z.to_nat lo) b).
Definition slice_from {A} (lo : Z) (b : list A) : list A := drop (Z.to_nat lo) b.
Definition slice_to {A} (hi : Z) (b : list A) : list A := take (Z.to_nat hi) b.

(** [copy(dst[off:], src)]: overwrites as much of [dst] as both slices hold. *)
Definition copy_at {A} (off : Z) (src dst : list A) : list A :=
  let o := Z.to_nat off in
  let n := Nat.min (length src) (length dst - o) in
  take o dst ++ take n src ++ drop (o + n) dst.

(** [make([]byte, n)]. *)
Definition make_bytes (n : Z) : bytes := replicate (Z.to_nat n) 0.

(** ** encoding/binary *)

Fixpoint le_put (n : nat) (z : Z) : bytes :=
  match n with
  | O => []
  | S n => z mod 256 :: le_put n (z / 256)
  end.

Fixpoint le_get (b : bytes) : Z :=
  match b with
  | [] => 0
  | x :: b => x + 256 * le_get b
  end.

Definition be_put (n : nat) (z : Z) : bytes := reverse (le_put n z).
Definition be_get (b : bytes) : Z := le_get (reverse b).

(** [binary.LittleEndian.Uint32(b)] and [Uint64(b)], [binary.BigEndian.Uint16(b)]
    and [Uint32(b)]: they read the first bytes of the slice. *)
Definition le_u32 (b : bytes) : Z := le_get (take 4 b).
Definition le_u64 (b : bytes) : Z := le_get (take 8 b).
Definition be_u16 (b : bytes) : Z := be_get (take 2 b).
Definition be_u32 (b : bytes) : Z := be_get (take 4 b).

(** Conversions to the fixed-width unsigned integers. *)
Definition u8 (z : Z) : Z := z mod 2 ^ 8.
Definition u16 (z : Z) : Z := z mod 2 ^ 16.
Definition u32 (z : Z) : Z := z mod 2 ^ 32.
Definition u64 (z : Z) : Z := z mod 2 ^ 64.

(** [int32(z)]: two's complement. *)
Definition i32 (z : Z) : Z := (z + 2 ^ 31) mod 2 ^ 32 - 2 ^ 31.

(** ** Files *)

(** [f.ReadAt(buf, off)] with [len(buf) = n]: the bytes read and [io.EOF] when
    fewer than [n] remain. *)
Definition ReadAt (f : bytes) (n off : Z) : bytes * option error :=
  let got := take (Z.to_nat n) (drop (Z.to_nat off) f) in
  (got, if len got <? n then Some EOF else None).

(** [f.WriteAt(b, off)]: the content afterwards; a gap is filled with zeros. *)
Definition WriteAt (f b : bytes) (off : Z) : bytes :=
  take (Z.to_nat off) f ++ make_bytes (off - len f) ++ b ++ drop (Z.to_nat (off + len b)) f.

(** ** Lexicographic comparison of byte strings *)

(** [bytes.Compare] and the built-in order on Go strings. *)
Fixpoint bytes_compare (a b : bytes) : comparison :=
  match a, b with
  | [], [] => Eq
  | [], _ :: _ => Lt
  | _ :: _, [] => Gt
  | x :: a, y :: b =>
      match x ?= y with
      | Eq => bytes_compare a b
      | c => c
      end
  end.

Definition bytes_lt (a b : bytes) : Prop := bytes_compare a b = Lt.
Definition bytes_le (a b : bytes) : Prop := bytes_compare a b ≠ Gt.
Definition bytes_ltb (a b : bytes) : bool :=
  match bytes_compare a b with Lt => true | _ => false end.
Definition bytes_leb (a b : bytes) : bool :=
  match bytes_compare a b with Gt => false | _ => true end.
Definition bytes_eqb (a b : bytes) : bool := bool_decide (a = b).

#[global] Instance bytes_lt_dec : RelDecision bytes_lt.
Proof. intros a b. unfold bytes_lt. apply _. Defined.
#[global] Instance bytes_le_dec : RelDecision bytes_le.
Proof. intros a b. unfold bytes_le. apply _. Defined.

(** ** Automation *)

Create HintDb go discriminated.
Create Rewrite HintDb golen.

#[export] Hint Rewrite @length_app @length_take @length_drop @length_reverse
  @length_replicate @length_fmap @length_insert @length_nil @length_cons : golen.

(** Reduce the lengths in the goal and the context, then call [lia]. *)
Ltac len_solve :=
  unfold len in *; autorewrite with golen in *; simpl in *; lia.

(** Case on the boolean comparisons in the goal, as propositions. *)
Ltac case_cmp :=
  match goal with
  | |- context [?a <? ?b] => destruct (Z.ltb_spec a b)
  | |- context [?a <=? ?b] => destruct (Z.leb_spec a b)
  | |- context [?a =? ?b] => destruct (Z.eqb_spec a b)
  end.

(** The same for a hypothesis. *)
Ltac case_cmp_in H :=
  match type of H with
  | context [?a <? ?b] => destruct (Z.ltb_spec a b)
  | context [?a <=? ?b] => destruct (Z.leb_spec a b)
  | context [?a =? ?b] => destruct (Z.eqb_spec a b)
  end.

(** ** Lemmas: lengths and slices *)

Section slices.
Context {A : Type}.
Implicit Types (l k : list A) (x : A).

Lemma len_nonneg l : 0 ≤ len l.
Proof. unfold len. lia. Qed.

Lemma len_app l k : len (l ++ k) = len l + len k.
Proof. len_solve. Qed.

Lemma len_cons x l : len (x :: l) = 1 + len l.
Proof. len_solve. Qed.

Lemma len_nil : len (@nil A) = 0.
Proof. done. Qed.

Lemma len_take n l : len (take (Z.to_nat n) l) = Z.min (Z.max 0 n) (len l).
Proof. len_solve. Qed.

Lemma drop_app_at (n : nat) l k : n = length l → drop n (l ++ k) = k.
Proof. intros ->. apply drop_app_length. Qed.

Lemma take_app_at (n : nat) l k : n = length l → take n (l ++ k) = l.
Proof. intros ->. apply take_app_length. Qed.

Lemma elem_of_concat x (ls : list (list A)) : x ∈ concat ls ↔ ∃ l, x ∈ l ∧ l ∈ ls.
Proof.
  induction ls as [|l ls IH]; simpl; [set_solver|]. rewrite elem_of_app, IH. set_solver.
Qed.

(** Reading the middle of a concatenation. *)
Lemma slice_mid lo hi l k r :
  lo = len l → hi = len l + len k → slice lo hi (l ++ k ++ r) = k.
Proof.
  intros -> ->. unfold slice, len.
  rewrite drop_app_at by lia. apply take_app_at. lia.
Qed.

Lemma slice_pre hi l r : hi = len l → slice 0 hi (l ++ r) = l.
Proof. intros ->. apply (slice_mid 0 (len l) [] l r); len_solve. Qed.

Lemma slice_post lo hi l r : lo = len l → hi = len l + len r → slice lo hi (l ++ r) = r.
Proof. intros Hl Hh. rewrite <-(app_nil_r r) at 1. by apply slice_mid. Qed.

Lemma slice_from_app lo l k : lo = len l → slice_from lo (l ++ k) = k.
Proof. intros ->. apply drop_app_at. unfold len. lia. Qed.

Lemma slice_to_app hi l k : hi = len l → slice_to hi (l ++ k) = l.
Proof. intros ->. apply take_app_at. unfold len. lia. Qed.

Lemma length_copy_at off (src dst : list A) :
  length (copy_at off src dst) = length dst.
Proof. unfold copy_at. len_solve. Qed.

Lemma copy_at_app off l k dst r :
  off = len l → length k = length dst →
  copy_at off k (l ++ dst ++ r) = l ++ k ++ r.
Proof.
  intros -> Hk. unfold copy_at, len. rewrite Nat2Z.id, take_app_length.
  f_equal. rewrite !length_app. rewrite take_ge by lia. f_equal.
  rewrite app_assoc. apply drop_app_at. rewrite length_app. lia.
Qed.
End slices.

#[export] Hint Rewrite @length_copy_at @len_app @len_cons @len_nil : golen.
#[export] Hint Resolve len_nonneg : go.

(** ** Lemmas: filters *)

Lemma filter_ext {A} (P Q : A → Prop) `{!∀ x, Decision (P x), !∀ x, Decision (Q x)} (l : list A) :
  (∀ x, x ∈ l → P x ↔ Q x) → filter P l = filter Q l.
Proof.
  induction l as [|x l IH]; intros Hpq; [done|]. rewrite !filter_cons.
  rewrite IH by (intros y Hy; apply Hpq; by right). pose proof (Hpq x ltac:(by left)) as Hx.
  do 2 case_decide; tauto.
Qed.

Lemma filter_all {A} (P : A → Prop) `{!∀ x, Decision (P x)} (l : list A) : Forall P l → filter P l = l.
Proof. induction 1 as [|x l Hx _ IH]; [done|]. by rewrite filter_cons_True, IH. Qed.

(** ** Lemmas: encoding/binary *)

Lemma length_le_put n z : length (le_put n z) = n.
Proof. revert z. induction n as [|n IH]; intros z; simpl; [done|]. by rewrite IH. Qed.

Lemma length_be_put n z : length (be_put n z) = n.
Proof. unfold be_put. by rewrite length_reverse, length_le_put. Qed.

Lemma length_make_bytes n : length (make_bytes n) = Z.to_nat n.
Proof. apply length_replicate. Qed.

Lemma len_make_bytes n : len (make_bytes n) = Z.max 0 n.
Proof. unfold len. rewrite length_make_bytes. lia. Qed.

#[export] Hint Rewrite @length_le_put @length_be_put length_make_bytes : golen.

Lemma le_get_put n z : le_get (le_put n z) = z mod 256 ^ Z.of_nat n.
Proof.
  revert z. induction n as [|n IH]; intros z; cbn [le_put le_get].
  { by rewrite Z.mod_1_r. }
  rewrite IH, Nat2Z.inj_succ, Z.pow_succ_r by lia.
  rewrite Z.rem_mul_r by lia. lia.
Qed.

Lemma be_get_put n z : be_get (be_put n z) = z mod 256 ^ Z.of_nat n.
Proof. unfold be_get, be_put. rewrite reverse_involutive. apply le_get_put. Qed.

(** Every byte is in range, as in any Go byte slice. *)
Definition is_byte (z : Z) : Prop := 0 ≤ z < 256.

Lemma le_put_bytes n z : Forall is_byte (le_put n z).
Proof.
  revert z. induction n as [|n IH]; intros z; constructor; [|done].
  apply Z.mod_pos_bound. lia.
Qed.

Lemma be_put_bytes n z : Forall is_byte (be_put n z).
Proof. apply Forall_reverse, le_put_bytes. Qed.

Lemma le_get_bounds b : Forall is_byte b → 0 ≤ le_get b < 256 ^ len b.
Proof.
  induction 1 as [|x b [Hx0 Hx] Hb IH]; cbn [le_get]; [done|].
  rewrite len_cons, Z.pow_add_r by auto using len_nonneg with lia.
  rewrite Z.pow_1_r. nia.
Qed.

Lemma be_get_bounds b : Forall is_byte b → 0 ≤ be_get b < 256 ^ len b.
Proof.
  intros Hb. unfold be_get.
  replace (len b) with (len (reverse b)) by (unfold len; by rewrite length_reverse).
  by apply le_get_bounds, Forall_reverse.
Qed.

Lemma le_u32_put z r : 0 ≤ z < 2 ^ 32 → le_u32 (le_put 4 z ++ r) = z.
Proof.
  intros Hz. unfold le_u32. rewrite take_app_at by by rewrite length_le_put.
  rewrite le_get_put. apply Z.mod_small. lia.
Qed.

Lemma le_u64_put z r : 0 ≤ z < 2 ^ 64 → le_u64 (le_put 8 z ++ r) = z.
Proof.
  intros Hz. unfold le_u64. rewrite take_app_at by by rewrite length_le_put.
  rewrite le_get_put. apply Z.mod_small. lia.
Qed.

Lemma be_u16_put z r : 0 ≤ z < 2 ^ 16 → be_u16 (be_put 2 z ++ r) = z.
Proof.
  intros Hz. unfold be_u16. rewrite take_app_at by by rewrite length_be_put.
  rewrite be_get_put. apply Z.mod_small. lia.
Qed.

Lemma be_u32_put z r : 0 ≤ z < 2 ^ 32 → be_u32 (be_put 4 z ++ r) = z.
Proof.
  intros Hz. unfold be_u32. rewrite take_app_at by by rewrite length_be_put.
  rewrite be_get_put. apply Z.mod_small. lia.
Qed.

Lemma le_u32_enc z : 0 ≤ z < 2 ^ 32 → le_u32 (le_put 4 z) = z.
Proof. intros Hz. rewrite <-(app_nil_r (le_put 4 z)). by apply le_u32_put. Qed.

Lemma le_u64_enc z : 0 ≤ z < 2 ^ 64 → le_u64 (le_put 8 z) = z.
Proof. intros Hz. rewrite <-(app_nil_r (le_put 8 z)). by apply le_u64_put. Qed.

Lemma be_u16_enc z : 0 ≤ z < 2 ^ 16 → be_u16 (be_put 2 z) = z.
Proof. intros Hz. rewrite <-(app_nil_r (be_put 2 z)). by apply be_u16_put. Qed.

Lemma be_u32_enc z : 0 ≤ z < 2 ^ 32 → be_u32 (be_put 4 z) = z.
Proof. intros Hz. rewrite <-(app_nil_r (be_put 4 z)). by apply be_u32_put. Qed.

Lemma u32_small z : 0 ≤ z < 2 ^ 32 → u32 z = z.
Proof. apply Z.mod_small. Qed.
Lemma u64_small z : 0 ≤ z < 2 ^ 64 → u64 z = z.
Proof. apply Z.mod_small. Qed.
Lemma u16_small z : 0 ≤ z < 2 ^ 16 → u16 z = z.
Proof. apply Z.mod_small. Qed.
Lemma u32_range z : 0 ≤ u32 z < 2 ^ 32.
Proof. apply Z.mod_pos_bound. lia. Qed.

Lemma u64_range z : 0 ≤ u64 z < 2 ^ 64.
Proof. apply Z.mod_pos_bound. lia. Qed.
Lemma u16_range z : 0 ≤ u16 z < 2 ^ 16.
Proof. apply Z.mod_pos_bound. lia. Qed.

Lemma i32_small z : - 2 ^ 31 ≤ z < 2 ^ 31 → i32 z = z.
Proof. intros Hz. unfold i32. rewrite Z.mod_small; lia. Qed.

(** ** Lemmas: files *)

Lemma ReadAt_mid pre b post n off :
  off = len pre → n = len b → ReadAt (pre ++ b ++ post) n off = (b, None).
Proof.
  intros -> ->. unfold ReadAt. rewrite drop_app_at by (unfold len; lia).
  rewrite take_app_at by (unfold len; lia).
  by rewrite Z.ltb_irrefl.
Qed.

Lemma ReadAt_short f n off : len f < off + n → 0 ≤ off → 0 < n → (ReadAt f n off).2 = Some EOF.
Proof.
  intros H Ho Hn. unfold ReadAt. simpl. case_cmp; [done|].
  exfalso. len_solve.
Qed.

Lemma WriteAt_end f off b : off = len f → WriteAt f b off = f ++ b.
Proof.
  intros ->. unfold WriteAt. rewrite Z.sub_diag. simpl. rewrite take_ge by (unfold len; lia).
  rewrite drop_ge by (unfold len; lia). by rewrite app_nil_r.
Qed.

(** ** Lemmas: the order on keys *)

Lemma bytes_compare_refl a : bytes_compare a a = Eq.
Proof. induction a as [|x a IH]; simpl; [done|]. by rewrite Z.compare_refl. Qed.

Lemma bytes_compare_eq a b : bytes_compare a b = Eq ↔ a = b.
Proof.
  split; [|intros ->; apply bytes_compare_refl].
  revert b. induction a as [|x a IH]; intros [|y b]; simpl; try done.
  destruct (Z.compare_spec x y) as [->| |]; try done.
  intros H. f_equal. by apply IH.
Qed.

Lemma bytes_compare_antisym a b : bytes_compare b a = CompOpp (bytes_compare a b).
Proof.
  revert b. induction a as [|x a IH]; intros [|y b]; simpl; try done.
  rewrite (Z.compare_antisym x y). destruct (x ?= y); simpl; auto.
Qed.

Lemma bytes_lt_trans a b c : bytes_lt a b → bytes_lt b c → bytes_lt a c.
Proof.
  unfold bytes_lt. revert b c.
  induction a as [|x a IH]; intros [|y b] [|z c]; simpl; try done.
  intros Hab Hbc. destruct (Z.compare_spec x z) as [->|Hxz|Hxz].
  - destruct (Z.compare_spec z y), (Z.compare_spec y z); try done; try lia. by eapply IH.
  - done.
  - destruct (Z.compare_spec x y), (Z.compare_spec y z); try done; lia.
Qed.

#[global] Instance bytes_lt_strict : StrictOrder bytes_lt.
Proof.
  split; [|exact bytes_lt_trans].
  intros a. unfold complement, bytes_lt. by rewrite bytes_compare_refl.
Qed.

#[global] Instance bytes_lt_trichotomy : TrichotomyT bytes_lt.
Proof.
  intros a b. unfold bytes_lt.
  destruct (bytes_compare a b) eqn:E.
  - left. right. by apply bytes_compare_eq.
  - left. by left.
  - right. by rewrite bytes_compare_antisym, E.
Qed.

Lemma bytes_ltb_lt a b : bytes_ltb a b = true ↔ bytes_lt a b.
Proof. unfold bytes_ltb, bytes_lt. by destruct (bytes_compare a b). Qed.

Lemma bytes_leb_le a b : bytes_leb a b = true ↔ bytes_le a b.
Proof. unfold bytes_leb, bytes_le. by destruct (bytes_compare a b). Qed.

Lemma bytes_eqb_eq a b : bytes_eqb a b = true ↔ a = b.
Proof. apply bool_decide_eq_true. Qed.

Lemma bytes_le_lteq a b : bytes_le a b ↔ bytes_lt a b ∨ a = b.
Proof.
  unfold bytes_le, bytes_lt. rewrite <-bytes_compare_eq.
  destruct (bytes_compare a b); naive_solver.
Qed.

Lemma bytes_nlt_le a b : ¬ bytes_lt a b ↔ bytes_le b a.
Proof.
  unfold bytes_le, bytes_lt. rewrite (bytes_compare_antisym a b).
  destruct (bytes_compare a b); naive_solver.
Qed.

Lemma bytes_ltb_nlt a b : bytes_ltb a b = false ↔ bytes_le b a.
Proof. rewrite <-bytes_nlt_le, <-bytes_ltb_lt. by rewrite not_true_iff_false. Qed.

Lemma bytes_leb_nle a b : bytes_leb a b = false ↔ bytes_lt b a.
Proof.
  rewrite <-not_true_iff_false, bytes_leb_le.
  destruct (decide (bytes_lt b a)) as [H|H]; rewrite <-bytes_nlt_le; tauto.
Qed.

Lemma bytes_lt_le a b : bytes_lt a b → bytes_le a b.
Proof. intros. apply bytes_le_lteq. by left. Qed.

Lemma bytes_le_refl a : bytes_le a a.
Proof. apply bytes_le_lteq. by right. Qed.

Lemma bytes_le_lt_trans a b c : bytes_le a b → bytes_lt b c → bytes_lt a c.
Proof. rewrite bytes_le_lteq. intros [?| ->]; [|done]. by etrans. Qed.

Lemma bytes_lt_le_trans a b c : bytes_lt a b → bytes_le b c → bytes_lt a c.
Proof. rewrite bytes_le_lteq. intros ? [?| <-]; [|done]. by etrans. Qed.

Lemma bytes_le_trans a b c : bytes_le a b → bytes_le b c → bytes_le a c.
Proof.
  rewrite (bytes_le_lteq b c). intros ? [?| <-]; [|done].
  apply bytes_lt_le. by eapply bytes_le_lt_trans.
Qed.

Lemma bytes_lt_irrefl a : ¬ bytes_lt a a.
Proof. apply (irreflexivity bytes_lt). Qed.

Lemma bytes_lt_ne a b : bytes_lt a b → a ≠ b.
Proof. intros H ->. by apply (bytes_lt_irrefl b). Qed.

Lemma bytes_lt_asym a b : bytes_lt a b → ¬ bytes_lt b a.
Proof. intros H1 H2. apply (bytes_lt_irrefl a). by eapply bytes_lt_trans. Qed.

#[export] Hint Resolve bytes_lt_le bytes_le_refl bytes_lt_trans bytes_le_trans
  bytes_le_lt_trans bytes_lt_le_trans : go.
