(* ===== verification/GoLib.v ===== *)
(** The parts of the Go standard library the engines call: [hash/crc32],
    [hash/fnv] and [sort.Search], with the facts the engines rely on. *)
From S2P Require Import Prelude.
From stdpp Require Import base gmap list strings numbers sorting.

Open Scope Z_scope.

(** ** hash/crc32 (IEEE polynomial, reflected) *)

Definition crc_poly : Z := 0xEDB88320.

Definition crc_bit (c : Z) : Z :=
  if Z.odd c then Z.lxor (Z.shiftr c 1) crc_poly else Z.shiftr c 1.

Definition crc_byte (c b : Z) : Z := Nat.iter 8 crc_bit (Z.lxor c b).

(** [crc32.ChecksumIEEE(data)]; [h.Write] on a [crc32.NewIEEE()] digest followed
    by [h.Sum32()] is the checksum of the concatenation of what was written.  The
    result is a [uint32]; [crc_in_range] shows that on bytes the conversion does
    not change the value. *)
Definition ChecksumIEEE (data : bytes) : Z :=
  u32 (Z.lxor (fold_left crc_byte data 0xFFFFFFFF) 0xFFFFFFFF).

(** ** hash/fnv *)

Definition fnv32a (data : bytes) : Z :=
  fold_left (λ h b, u32 (Z.lxor h b * 16777619)) data 2166136261.

Definition fnv64a (data : bytes) : Z :=
  fold_left (λ h b, u64 (Z.lxor h b * 1099511628211)) data 14695981039346656037.

Definition fnv64 (data : bytes) : Z :=
  fold_left (λ h b, Z.lxor (u64 (h * 1099511628211)) b) data 14695981039346656037.

(** ** sort.Search *)

Fixpoint search_loop (fuel : nat) (f : Z → bool) (i j : Z) : Z :=
  match fuel with
  | O => i
  | S fuel =>
      if i <? j then
        let h := (i + j) / 2 in
        if f h then search_loop fuel f i h else search_loop fuel f (h + 1) j
      else i
  end.

(** The interval shrinks by at least one per round, so [n] rounds are enough. *)
Definition sort_Search (n : Z) (f : Z → bool) : Z := search_loop (Z.to_nat n) f 0 n.

(** ** Reference values *)

Example crc32_check : ChecksumIEEE [49;50;51;52;53;54;55;56;57] = 0xCBF43926.
Proof. vm_compute. reflexivity. Qed.

Example fnv32a_check : fnv32a [97] = 0xe40c292c.
Proof. vm_compute. reflexivity. Qed.

Example fnv64a_check : fnv64a [97] = 0xaf63dc4c8601ec8c.
Proof. vm_compute. reflexivity. Qed.

Example fnv64_check : fnv64 [97] = 0xaf63bd4c8601b7be.
Proof. vm_compute. reflexivity. Qed.

(** ** The checksum fits in 32 bits *)

Lemma lxor_bits_bound n a b :
  0 ≤ n → 0 ≤ a < 2 ^ n → 0 ≤ b < 2 ^ n → 0 ≤ Z.lxor a b < 2 ^ n.
Proof.
  intros Hn Ha Hb.
  assert (H0 : 0 ≤ Z.lxor a b) by (apply Z.lxor_nonneg; lia).
  split; [done|].
  destruct (Z.eq_dec (Z.lxor a b) 0) as [->|Hne]; [lia|].
  apply Z.log2_lt_pow2; [lia|].
  eapply Z.le_lt_trans; [apply Z.log2_lxor; lia|].
  apply Z.max_lub_lt.
  - destruct (Z.eq_dec a 0) as [->|]; [|apply Z.log2_lt_pow2; lia].
    destruct (Z.eq_dec n 0) as [->|]; [|simpl; lia].
    assert (b = 0) as -> by lia. done.
  - destruct (Z.eq_dec b 0) as [->|]; [|apply Z.log2_lt_pow2; lia].
    destruct (Z.eq_dec n 0) as [->|]; [|simpl; lia].
    assert (a = 0) as -> by lia. done.
Qed.

Lemma crc_bit_range c : 0 ≤ c < 2 ^ 32 → 0 ≤ crc_bit c < 2 ^ 32.
Proof.
  intros Hc. assert (Hs : 0 ≤ Z.shiftr c 1 < 2 ^ 32).
  { rewrite Z.shiftr_div_pow2 by lia. split; [apply Z.div_pos; lia|].
    apply Z.div_lt_upper_bound; lia. }
  unfold crc_bit. destruct (Z.odd c); [|done].
  apply lxor_bits_bound; unfold crc_poly; lia.
Qed.

Lemma crc_byte_range c b : 0 ≤ c < 2 ^ 32 → is_byte b → 0 ≤ crc_byte c b < 2 ^ 32.
Proof.
  intros Hc Hb. unfold crc_byte. apply Nat.iter_invariant.
  - intros. by apply crc_bit_range.
  - apply lxor_bits_bound; unfold is_byte in *; lia.
Qed.

Lemma crc_in_range data :
  Forall is_byte data →
  0 ≤ Z.lxor (fold_left crc_byte data 0xFFFFFFFF) 0xFFFFFFFF < 2 ^ 32.
Proof.
  intros Hd. apply lxor_bits_bound; [lia| |lia].
  cut (∀ c, 0 ≤ c < 2 ^ 32 → 0 ≤ fold_left crc_byte data c < 2 ^ 32);
    [intros H; apply H; lia|].
  induction Hd as [|b data Hb Hd IH]; intros c Hc; simpl; [done|].
  by apply IH, crc_byte_range.
Qed.

Lemma ChecksumIEEE_range data : 0 ≤ ChecksumIEEE data < 2 ^ 32.
Proof. apply u32_range. Qed.

Lemma fnv32a_range data : 0 ≤ fnv32a data < 2 ^ 32.
Proof.
  unfold fnv32a. rewrite <-fold_left_rev_right.
  destruct (rev data) as [|b l]; simpl; [lia|]. apply u32_range.
Qed.

(** ** sort.Search finds the least index of a monotone predicate *)

Section search.
Context (f : Z → bool) (n : Z).
Context (Hmono : ∀ i j, 0 ≤ i ≤ j → j < n → f i = true → f j = true).

Lemma search_loop_spec fuel i j :
  0 ≤ i ≤ j → j ≤ n → (Z.to_nat (j - i) ≤ fuel)%nat →
  (∀ k, 0 ≤ k < i → f k = false) → (∀ k, j ≤ k < n → f k = true) →
  let r := search_loop fuel f i j in
  i ≤ r ≤ j ∧ (∀ k, 0 ≤ k < r → f k = false) ∧ (∀ k, r ≤ k < n → f k = true).
Proof.
  revert i j. induction fuel as [|fuel IH]; intros i j Hij Hj Hf Hlo Hhi; simpl.
  { split; [lia|]. split; [done|]. intros k Hk. apply Hhi. lia. }
  destruct (Z.ltb_spec i j) as [Hlt|Hge].
  2:{ split; [lia|]. split; [done|]. intros k Hk. apply Hhi. lia. }
  assert (Hh : i ≤ (i + j) / 2 < j).
  { split; [apply Z.div_le_lower_bound|apply Z.div_lt_upper_bound]; lia. }
  set (h := (i + j) / 2) in *. destruct (f h) eqn:E.
  - destruct (IH i h) as (? & ? & ?); try lia; try done; [|split; [lia|done]].
    intros k Hk. apply (Hmono h k); [lia|lia|done].
  - destruct (IH (h + 1) j) as (? & ? & ?); try lia; try done; [|split; [lia|done]].
    intros k Hk. destruct (f k) eqn:Ek; [|done].
    rewrite (Hmono k h) in E; [done|lia|lia|done].
Qed.

Lemma sort_Search_spec :
  0 ≤ n →
  let r := sort_Search n f in
  0 ≤ r ≤ n ∧ (∀ k, 0 ≤ k < r → f k = false) ∧ (∀ k, r ≤ k < n → f k = true).
Proof. intros Hn. apply search_loop_spec; try lia; intros; lia. Qed.
End search.


(** ** Inserting into a slice by position *)

(** [s = append(s, zero); copy(s[i+1:], s[i:]); s[i] = x]. *)
Definition slice_insert {A} (zero : A) (i : Z) (x : A) (s : list A) : list A :=
  let s := s ++ [zero] in
  let s := copy_at (i + 1) (slice_from i s) s in
  <[Z.to_nat i := x]> s.

Lemma copy_at_full {A} off (src dst : list A) :
  (length dst - Z.to_nat off ≤ length src)%nat →
  copy_at off src dst = take (Z.to_nat off) dst ++ take (length dst - Z.to_nat off) src.
Proof.
  intros Hl. unfold copy_at. rewrite Nat.min_r by done. f_equal.
  rewrite (drop_ge dst) by lia. apply app_nil_r.
Qed.

Lemma slice_insert_eq {A} (zero : A) i x s :
  0 ≤ i ≤ len s → slice_insert zero i x s = slice_to i s ++ x :: slice_from i s.
Proof.
  intros Hi. unfold slice_insert, slice_from, slice_to. set (n := Z.to_nat i).
  assert (Hn : (n ≤ length s)%nat) by (unfold len in Hi; lia).
  rewrite <-(take_drop n s) at 1 2 3. set (a := take n s). set (b := drop n s).
  assert (Ha : length a = n) by (unfold a; rewrite length_take; lia).
  rewrite <-app_assoc, (drop_app_at n a) by done.
  rewrite copy_at_full by (rewrite !length_app; simpl; lia).
  replace (Z.to_nat (i + 1)) with (n + 1)%nat by lia. rewrite !length_app. simpl.
  replace (length a + (length b + 1) - (n + 1))%nat with (length b) by lia.
  rewrite take_app_length, take_app, take_ge, <-app_assoc by lia.
  replace (n + 1 - length a)%nat with 1%nat by lia.
  rewrite insert_app_r_alt, Ha, Nat.sub_diag by lia. clearbody b.
  rewrite (take_app_at n) by done. by destruct b.
Qed.

(** ** Binary search in a list *)

(** [sort.Search(len(l), func(i int) bool { return P(l[i]) })]. *)
Definition search_by {A} (P : A → bool) (l : list A) : Z :=
  sort_Search (len l) (λ i, match l !! Z.to_nat i with Some x => P x | None => false end).

(** When [P] holds from some element on, the search splits the list there. *)
Lemma search_by_split {A} (P : A → bool) (l : list A) :
  (∀ i j x y, (i ≤ j)%nat → l !! i = Some x → l !! j = Some y → P x = true → P y = true) →
  ∃ a b, l = a ++ b ∧ search_by P l = len a ∧
    Forall (λ x, P x = false) a ∧ Forall (λ x, P x = true) b.
Proof.
  intros Hmono. unfold search_by. set (f := λ i : Z, _).
  assert (Hf : ∀ n x, l !! n = Some x → f (Z.of_nat n) = P x).
  { intros n x Hx. unfold f. by rewrite Nat2Z.id, Hx. }
  destruct (sort_Search_spec f (len l)) as (Hr & Hlo & Hhi).
  { intros i j Hij Hj Hi.
    destruct (lookup_lt_is_Some_2 l (Z.to_nat i)) as [x Hx]; [unfold len in *; lia|].
    destruct (lookup_lt_is_Some_2 l (Z.to_nat j)) as [y Hy]; [unfold len in *; lia|].
    unfold f in *. rewrite Hx in Hi. rewrite Hy.
    apply (Hmono (Z.to_nat i) (Z.to_nat j) x y); [lia|done..]. }
  { apply len_nonneg. }
  set (r := sort_Search (len l) f) in *. clearbody r.
  exists (slice_to r l), (slice_from r l). unfold slice_to, slice_from.
  split; [by rewrite take_drop|]. split; [rewrite len_take; lia|].
  split; apply Forall_forall; intros x Hx; apply list_elem_of_lookup in Hx as [n Hn].
  - apply lookup_take_Some in Hn as [Hn Hlt]. rewrite <-(Hf n x Hn). apply Hlo. lia.
  - rewrite lookup_drop in Hn. rewrite <-(Hf _ x Hn). apply Hhi.
    apply lookup_lt_Some in Hn. unfold len. lia.
Qed.

(** ** Lists sorted by key *)

Section sorted_search.
Context {A : Type} (key : A → bytes).

Definition key_lt (x y : A) : Prop := bytes_lt (key x) (key y).

(** [sort.Search(len(l), func(i int) bool { return l[i].Key >= k })]. *)
Definition search_key (l : list A) (k : bytes) : Z :=
  search_by (λ x, bytes_leb k (key x)) l.

Lemma sorted_lookup_lt l i j x y :
  StronglySorted key_lt l → (i < j)%nat → l !! i = Some x → l !! j = Some y → key_lt x y.
Proof.
  intros Hs Hij Hx Hy. revert i j Hij Hx Hy.
  induction Hs as [|z l Hs IH Hz]; intros i j Hij Hx Hy; [done|].
  destruct j as [|j]; [lia|]. simpl in Hy. destruct i as [|i]; simpl in Hx.
  - simplify_eq. rewrite Forall_forall in Hz. apply Hz. by eapply list_elem_of_lookup_2.
  - eapply (IH i j); [lia|done|done].
Qed.

(** The entry with key [k], if the search position holds it. *)
Definition found_at (l : list A) (k : bytes) : option A :=
  match l !! Z.to_nat (search_key l k) with
  | Some x => if bytes_eqb (key x) k then Some x else None
  | None => None
  end.

Lemma found_at_key l k x : found_at l k = Some x → key x = k.
Proof.
  unfold found_at. destruct (l !! _) as [y|]; [|done].
  destruct (bytes_eqb (key y) k) eqn:E; [|done]. intros [= ->]. by apply bytes_eqb_eq.
Qed.

(** The map a list of entries with distinct keys stands for. *)
Definition entries_map (l : list A) : gmap bytes A := list_to_map ((λ x, (key x, x)) <$> l).

Lemma sorted_lookup_le l i j x y :
  StronglySorted key_lt l → (i ≤ j)%nat → l !! i = Some x → l !! j = Some y →
  bytes_le (key x) (key y).
Proof.
  intros Hs Hij Hx Hy. destruct (decide (i = j)) as [->|Hne].
  - simplify_eq. apply bytes_le_refl.
  - apply bytes_lt_le. apply (sorted_lookup_lt l i j x y); [done|lia|done|done].
Qed.

Lemma sorted_split l k :
  StronglySorted key_lt l →
  ∃ a b, l = a ++ b ∧ search_key l k = len a ∧
    Forall (λ x, bytes_lt (key x) k) a ∧ Forall (λ x, bytes_le k (key x)) b.
Proof.
  intros Hs. destruct (search_by_split (λ x, bytes_leb k (key x)) l) as (a & b & Hl & Hr & Ha & Hb).
  { intros i j x y Hij Hx Hy Hk. apply bytes_leb_le in Hk. apply bytes_leb_le.
    eapply bytes_le_trans; [exact Hk|]. by eapply sorted_lookup_le. }
  exists a, b. split; [done|]. split; [done|]. split; eapply Forall_impl; try done; simpl.
  - intros x. apply bytes_leb_nle.
  - intros x. apply bytes_leb_le.
Qed.

(** The same for the first element whose key is greater than [k]. *)
Lemma sorted_split_gt l k :
  StronglySorted key_lt l →
  ∃ a b, l = a ++ b ∧ search_by (λ x, bytes_ltb k (key x)) l = len a ∧
    Forall (λ x, bytes_le (key x) k) a ∧ Forall (λ x, bytes_lt k (key x)) b.
Proof.
  intros Hs. destruct (search_by_split (λ x, bytes_ltb k (key x)) l) as (a & b & Hl & Hr & Ha & Hb).
  { intros i j x y Hij Hx Hy Hk. apply bytes_ltb_lt in Hk. apply bytes_ltb_lt.
    eapply bytes_lt_le_trans; [exact Hk|]. by eapply sorted_lookup_le. }
  exists a, b. split; [done|]. split; [done|]. split; eapply Forall_impl; try done; simpl.
  - intros x. apply bytes_ltb_nlt.
  - intros x. apply bytes_ltb_lt.
Qed.

Lemma sorted_tail x l : StronglySorted key_lt (x :: l) → StronglySorted key_lt l.
Proof. by inversion 1. Qed.

Lemma sorted_app_inv a b :
  StronglySorted key_lt (a ++ b) → StronglySorted key_lt a ∧ StronglySorted key_lt b ∧
  ∀ x y, x ∈ a → y ∈ b → key_lt x y.
Proof.
  induction a as [|z a IH]; simpl; intros Hs.
  { split; [constructor|]. split; [done|]. set_solver. }
  inversion_clear Hs as [|? ? Hs' Hz]. destruct (IH Hs') as (Ha & Hb & Hab).
  apply Forall_app in Hz as [Hza Hzb]. split; [by constructor|]. split; [done|].
  intros x y [->|Hx]%elem_of_cons Hy; [|auto]. rewrite Forall_forall in Hzb. auto.
Qed.

Lemma sorted_app a b :
  StronglySorted key_lt a → StronglySorted key_lt b →
  (∀ x y, x ∈ a → y ∈ b → key_lt x y) → StronglySorted key_lt (a ++ b).
Proof. intros Ha Hb Hab. by apply StronglySorted_app_2. Qed.

Lemma entries_map_None l k : Forall (λ x, key x ≠ k) l → entries_map l !! k = None.
Proof.
  intros Hl. apply not_elem_of_list_to_map_1. rewrite <-list_fmap_compose.
  intros (x & -> & Hx)%list_elem_of_fmap. rewrite Forall_forall in Hl. by apply (Hl x).
Qed.

Lemma entries_map_app a b : entries_map (a ++ b) = entries_map a ∪ entries_map b.
Proof. unfold entries_map. by rewrite fmap_app, list_to_map_app. Qed.

Lemma entries_map_cons x l : entries_map (x :: l) = <[key x := x]> (entries_map l).
Proof. done. Qed.

(** Searching a sorted list is looking up its map. *)
Lemma found_at_map l k : StronglySorted key_lt l → found_at l k = entries_map l !! k.
Proof.
  intros Hs. destruct (sorted_split l k Hs) as (a & b & -> & Hi & Ha & Hb).
  unfold found_at. rewrite Hi. unfold len. rewrite Nat2Z.id, lookup_app_r, Nat.sub_diag by lia.
  rewrite entries_map_app, lookup_union_r.
  2:{ apply entries_map_None. eapply Forall_impl; [exact Ha|]. intros x. apply bytes_lt_ne. }
  destruct b as [|x b]; simpl; [done|].
  destruct (bytes_eqb (key x) k) eqn:E.
  - apply bytes_eqb_eq in E. rewrite entries_map_cons, E. by rewrite lookup_insert_eq.
  - symmetry. apply entries_map_None. apply Forall_cons in Hb as [Hx _].
    apply sorted_app_inv in Hs as (_ & Hs & _). inversion_clear Hs as [|? ? _ Hz].
    assert (Hlt : bytes_lt k (key x)).
    { apply bytes_le_lteq in Hx as [?|Heq]; [done|]. subst k.
      unfold bytes_eqb in E. by rewrite bool_decide_eq_false in E. }
    constructor; [by apply not_eq_sym, bytes_lt_ne|].
    eapply Forall_impl; [exact Hz|]. intros y Hy. apply not_eq_sym, bytes_lt_ne.
    by eapply bytes_lt_trans.
Qed.

(** Replacing or inserting at the search position keeps the order and updates the map. *)
Definition upsert (zero x : A) (l : list A) : list A :=
  match found_at l (key x) with
  | Some _ => <[Z.to_nat (search_key l (key x)) := x]> l
  | None => slice_insert zero (search_key l (key x)) x l
  end.

Lemma upsert_split zero x l :
  StronglySorted key_lt l →
  ∃ a b, upsert zero x l = a ++ x :: b ∧
    (∀ z, z ∈ a → key_lt z x) ∧ (∀ z, z ∈ b → key_lt x z) ∧
    ((found_at l (key x) = None ∧ l = a ++ b) ∨
     ∃ y, found_at l (key x) = Some y ∧ key y = key x ∧ l = a ++ y :: b).
Proof.
  intros Hs. destruct (sorted_split l (key x) Hs) as (a & b & Hl & Hi & Ha & Hb).
  pose proof Hs as Hs'. rewrite Hl in Hs'. apply sorted_app_inv in Hs' as (_ & Hsb & _).
  unfold upsert. destruct (found_at l (key x)) as [y|] eqn:E.
  - assert (∃ b', b = y :: b' ∧ key y = key x) as (b' & -> & Hy).
    { unfold found_at in E. rewrite Hi, Hl in E. unfold len in E.
      rewrite Nat2Z.id, lookup_app_r, Nat.sub_diag in E by lia. destruct b as [|z b]; [done|].
      simpl in E. destruct (bytes_eqb (key z) (key x)) eqn:Eb; [|done]. simplify_eq.
      apply bytes_eqb_eq in Eb. eauto. }
    exists a, b'. split; [|split; [|split; [|right; eauto]]].
    + rewrite Hi, Hl. unfold len. rewrite Nat2Z.id, insert_app_r_alt, Nat.sub_diag by lia. done.
    + rewrite Forall_forall in Ha. exact Ha.
    + inversion_clear Hsb as [|? ? _ Hz]. rewrite Forall_forall in Hz. intros z Hzb.
      unfold key_lt in *. rewrite <-Hy. auto.
  - exists a, b. split; [|split; [|split; [|left; auto]]].
    + rewrite slice_insert_eq by (rewrite Hi, Hl, len_app; pose proof (len_nonneg a);
        pose proof (len_nonneg b); lia).
      by rewrite Hi, Hl, slice_to_app, slice_from_app.
    + rewrite Forall_forall in Ha. exact Ha.
    + rewrite found_at_map in E by done. intros z Hz. rewrite Forall_forall in Hb.
      specialize (Hb z Hz). apply bytes_le_lteq in Hb as [?|Heq]; [done|].
      exfalso. apply (not_elem_of_list_to_map_2 _ _ E). rewrite <-list_fmap_compose.
      apply list_elem_of_fmap. exists z. split; [done|]. rewrite Hl. set_solver.
Qed.

Lemma upsert_sorted zero x l : StronglySorted key_lt l → StronglySorted key_lt (upsert zero x l).
Proof.
  intros Hs. destruct (upsert_split zero x l Hs) as (a & b & -> & Ha & Hb & Hl).
  assert (StronglySorted key_lt a ∧ StronglySorted key_lt b) as [Hsa Hsb].
  { destruct Hl as [[_ ->]|(y & _ & _ & ->)]; apply sorted_app_inv in Hs as (? & Hs & _);
      [done|]. by apply sorted_tail in Hs. }
  apply sorted_app; [done| |].
  - constructor; [done|]. by apply Forall_forall.
  - intros u w Hu [->|Hw]%elem_of_cons; [auto|]. unfold key_lt in *. etrans; [by apply Ha|auto].
Qed.

Lemma upsert_map zero x l :
  StronglySorted key_lt l → entries_map (upsert zero x l) = <[key x := x]> (entries_map l).
Proof.
  intros Hs. destruct (upsert_split zero x l Hs) as (a & b & -> & Ha & _ & Hl).
  assert (Hna : entries_map a !! key x = None).
  { apply entries_map_None, Forall_forall. intros z Hz. by apply bytes_lt_ne, Ha. }
  rewrite entries_map_app, entries_map_cons, <-insert_union_r by done.
  destruct Hl as [[_ ->]|(y & _ & Hy & ->)]; rewrite entries_map_app; [done|].
  rewrite entries_map_cons, Hy, <-insert_union_r, insert_insert_eq by done. done.
Qed.
End sorted_search.

(** ** io.ReadFull *)

(** [io.ReadFull(r, buf)] with [len(buf) = n] on a reader whose remaining bytes are [r]:
    the bytes read, the bytes left and the error. *)
Definition ReadFull (n : Z) (r : bytes) : res (bytes * bytes) :=
  if n <=? 0 then Ok ([], r)
  else
    match r with
    | [] => Err EOF
    | _ =>
        if len r <? n then Err ErrUnexpectedEOF
        else Ok (slice_to n r, slice_from n r)
    end.

Lemma ReadFull_app b r : ReadFull (len b) (b ++ r) = Ok (b, r).
Proof.
  unfold ReadFull. destruct b as [|x b]; [done|].
  destruct (Z.leb_spec (len (x :: b)) 0); [len_solve|]. simpl.
  destruct (Z.ltb_spec (len (x :: b ++ r)) (len (x :: b))); [len_solve|].
  change (x :: b ++ r) with ((x :: b) ++ r). by rewrite slice_to_app, slice_from_app.
Qed.

Lemma ReadFull_short n r : 0 < n → len r < n → r ≠ [] → ReadFull n r = Err ErrUnexpectedEOF.
Proof.
  intros Hn Hr Hne. unfold ReadFull. destruct (Z.leb_spec n 0); [lia|].
  destruct r; [done|]. by rewrite (proj2 (Z.ltb_lt _ _) Hr).
Qed.

Lemma ReadFull_short_err n r : 0 < n → len r < n → ∃ e, ReadFull n r = Err e.
Proof.
  intros Hn Hr. destruct r as [|x r]; [|rewrite ReadFull_short by done; eauto].
  unfold ReadFull. destruct (Z.leb_spec n 0); [lia|]. eauto.
Qed.
