(* ===== verification/GoHeap.v ===== *)
(** [container/heap] of the Go standard library on a slice, as the merge of the LSM engine
    uses it: [Init], [Push] and [Pop], and that they implement a priority queue. *)
From S2P Require Import Prelude.
From stdpp Require Import base list numbers.

Section heap.
Context {A : Type} (less : A → A → bool).

Definition heap_less (h : list A) (i j : nat) : bool :=
  match h !! i, h !! j with
  | Some a, Some b => less a b
  | _, _ => false
  end.

Definition heap_swap (h : list A) (i j : nat) : list A :=
  match h !! i, h !! j with
  | Some a, Some b => <[i := b]> (<[j := a]> h)
  | _, _ => h
  end.

Definition parent (j : nat) : nat := Nat.div2 (j - 1).

(** [up]: the index decreases in every round. *)
Fixpoint heap_up (fuel : nat) (h : list A) (j : nat) : list A :=
  match fuel with
  | O => h
  | S fuel =>
      let i := parent j in
      if (i =? j)%nat || negb (heap_less h j i) then h else heap_up fuel (heap_swap h i j) i
  end.

(** [down]: the index increases in every round, up to [n]. *)
Fixpoint heap_down (fuel : nat) (h : list A) (i n : nat) : list A :=
  match fuel with
  | O => h
  | S fuel =>
      let j1 := (2 * i + 1)%nat in
      if (n <=? j1)%nat then h
      else
        let j2 := (j1 + 1)%nat in
        let j := if (j2 <? n)%nat && heap_less h j2 j1 then j2 else j1 in
        if negb (heap_less h j i) then h else heap_down fuel (heap_swap h i j) j n
  end.

(** [Init]: heapify from the last inner node down to the root. *)
Definition heap_Init (h : list A) : list A :=
  let n := length h in
  foldl (λ h i, heap_down n h i n) h (reverse (seq 0 (n / 2))).

Definition heap_Push (h : list A) (x : A) : list A :=
  heap_up (S (length h)) (h ++ [x]) (length h).

(** [Pop]: swap the root with the last element, restore the heap, cut the last off. *)
Definition heap_Pop (h : list A) : option (A * list A) :=
  match h with
  | [] => None
  | _ =>
      let n := (length h - 1)%nat in
      let h := heap_swap h 0 n in
      let h := heap_down n h 0 n in
      match h !! n with
      | Some x => Some (x, take n h)
      | None => None
      end
  end.

(** ** Heap order *)

Definition le (a b : A) : Prop := less b a = false.

Context (le_trans : ∀ a b c, le a b → le b c → le a c).
Context (le_total : ∀ a b, le a b ∨ le b a).

Lemma le_refl a : le a a.
Proof using le_total. destruct (le_total a a); done. Qed.

Lemma less_le a b : less a b = true → le a b.
Proof using le_total. intros H. destruct (le_total a b) as [|H2]; [done|]. unfold le in H2. congruence. Qed.

Lemma parent_spec j : (0 < j)%nat → j = (2 * parent j + 1)%nat ∨ j = (2 * parent j + 2)%nat.
Proof using Type.
  intros Hj. unfold parent. pose proof (Nat.div2_odd (j - 1)) as H.
  destruct (Nat.odd (j - 1)); simpl in H; lia.
Qed.

(** [h[i] ≤ h[j]]. *)
Definition hle (h : list A) (i j : nat) : Prop :=
  ∀ a b, h !! i = Some a → h !! j = Some b → le a b.

Definition heap_ok (h : list A) : Prop := ∀ j, (0 < j < length h)%nat → hle h (parent j) j.

Lemma length_heap_swap h i j : length (heap_swap h i j) = length h.
Proof using Type. unfold heap_swap. destruct (h !! i), (h !! j); by rewrite ?length_insert. Qed.

Lemma heap_swap_lookup h i j k :
  (i < length h)%nat → (j < length h)%nat →
  heap_swap h i j !! k = if decide (k = i) then h !! j else if decide (k = j) then h !! i else h !! k.
Proof using Type.
  intros Hi Hj. unfold heap_swap.
  destruct (lookup_lt_is_Some_2 h i Hi) as [a Ha]. destruct (lookup_lt_is_Some_2 h j Hj) as [b Hb].
  rewrite Ha, Hb. destruct (decide (k = i)) as [->|Hki].
  - rewrite list_lookup_insert_eq; [done|]. by rewrite length_insert.
  - rewrite list_lookup_insert_ne by done. destruct (decide (k = j)) as [->|Hkj].
    + by rewrite list_lookup_insert_eq.
    + by rewrite list_lookup_insert_ne.
Qed.

Lemma heap_swap_perm h i j : heap_swap h i j ≡ₚ h.
Proof using Type.
  unfold heap_swap. destruct (h !! i) as [a|] eqn:Ha; [|done]. destruct (h !! j) as [b|] eqn:Hb; [|done].
  destruct (decide (i = j)) as [->|Hne].
  { simplify_eq. by rewrite list_insert_insert_eq, list_insert_id. }
  pose proof (lookup_lt_Some _ _ _ Ha) as Hi. pose proof (lookup_lt_Some _ _ _ Hb) as Hj.
  assert (H1 : ∀ (l : list A) k x y, l !! k = Some y → y :: <[k := x]> l ≡ₚ x :: l).
  { clear. intros l k x y Hk. rewrite (insert_take_drop l k x) by by eapply lookup_lt_Some.
    rewrite <-(take_drop_middle l k y Hk) at 3. rewrite <-!Permutation_middle. apply Permutation_swap. }
  apply (Permutation_cons_inv (a := a)).
  rewrite (H1 (<[j:=a]> h) i b a) by by rewrite list_lookup_insert_ne.
  rewrite (H1 h j a b Hb). done.
Qed.

Lemma heap_less_spec h i j :
  (i < length h)%nat → (j < length h)%nat →
  (heap_less h i j = false → hle h j i) ∧ (heap_less h i j = true → hle h i j).
Proof using le_total.
  intros Hi Hj. unfold heap_less, hle.
  destruct (lookup_lt_is_Some_2 h i Hi) as [a Ha]. destruct (lookup_lt_is_Some_2 h j Hj) as [b Hb].
  rewrite Ha, Hb. split; intros H a' b' Ha' Hb'; simplify_eq; [done|]. by apply less_le.
Qed.

Lemma hle_refl h i : hle h i i.
Proof using le_total. intros a b Ha Hb. simplify_eq. apply le_refl. Qed.

Lemma hle_trans h i j k : (j < length h)%nat → hle h i j → hle h j k → hle h i k.
Proof using le_trans.
  intros Hj H1 H2 a c Ha Hc. destruct (lookup_lt_is_Some_2 h j Hj) as [b Hb]. eauto.
Qed.

(** Order facts move along a swap. *)
Lemma hle_swap h i j x y :
  (i < length h)%nat → (j < length h)%nat →
  hle (heap_swap h i j) x y ↔
  hle h (if decide (x = i) then j else if decide (x = j) then i else x)
        (if decide (y = i) then j else if decide (y = j) then i else y).
Proof using Type.
  intros Hi Hj. unfold hle. rewrite !heap_swap_lookup by done.
  by repeat case_decide.
Qed.

(** ** Restoring the order *)

Lemma heap_up_perm fuel h j : heap_up fuel h j ≡ₚ h.
Proof using Type.
  revert h j. induction fuel as [|fuel IH]; intros h j; simpl; [done|].
  destruct (_ || _); [done|]. rewrite IH. apply heap_swap_perm.
Qed.

Lemma heap_up_ok fuel : ∀ h j,
  (j < length h)%nat → (j < fuel)%nat →
  (∀ i, (0 < i < length h)%nat → i ≠ j → hle h (parent i) i) →
  (∀ c, (0 < c < length h)%nat → parent c = j → (0 < j)%nat → hle h (parent j) c) →
  heap_ok (heap_up fuel h j).
Proof using le_trans le_total.
  induction fuel as [|fuel IH]; intros h j Hj Hf H1 H2; [lia|]. cbn [heap_up].
  destruct (decide (j = 0)%nat) as [->|Hj0].
  { change (parent 0) with 0%nat. simpl. intros i Hi. apply H1; lia. }
  pose proof (parent_spec j) as Hp. set (i := parent j) in *.
  destruct (Nat.eqb_spec i j); [lia|]. cbn [orb].
  assert (Hi : (i < length h)%nat) by lia.
  destruct (heap_less_spec h j i Hj Hi) as [Hf' Ht].
  destruct (heap_less h j i) eqn:E; cbn [negb].
  2:{ intros k Hk. destruct (decide (k = j)) as [->|]; [by apply Hf'|]. by apply H1. }
  specialize (Ht eq_refl). clear Hf' E.
  apply IH; rewrite ?length_heap_swap; [lia|lia|..].
  - intros k Hk Hki. apply hle_swap; [done|done|].
    rewrite (decide_False (P := k = i)) by done. pose proof (parent_spec k) as Hpk.
    destruct (decide (k = j)) as [->|Hkj].
    + fold i. by rewrite decide_True.
    + destruct (decide (parent k = i)) as [Hpi|Hpi].
      * eapply hle_trans; [exact Hi|exact Ht|]. rewrite <-Hpi. by apply H1.
      * destruct (decide (parent k = j)) as [Hpj|Hpj].
        -- by apply H2; [| |lia].
        -- by apply H1.
  - intros c Hc Hpc H0. apply hle_swap; [done|done|]. pose proof (parent_spec i) as Hpi.
    pose proof (parent_spec c) as Hpcs.
    rewrite decide_False by lia. rewrite decide_False by lia. rewrite decide_False by lia.
    assert (Hgi : hle h (parent i) i) by (apply H1; lia).
    destruct (decide (c = j)) as [->|Hcj]; [done|].
    eapply hle_trans; [exact Hi|exact Hgi|]. rewrite <-Hpc. by apply H1.
Qed.

Lemma heap_Push_spec h x : heap_ok h → heap_ok (heap_Push h x) ∧ heap_Push h x ≡ₚ x :: h.
Proof using le_trans le_total.
  intros Hok. unfold heap_Push. split.
  - apply heap_up_ok; [rewrite length_app; simpl; lia|lia|..].
    + rewrite length_app. simpl. intros i Hi Hne. pose proof (parent_spec i).
      intros a b Ha Hb. rewrite lookup_app_l in Ha, Hb by lia. apply (Hok i); [lia|done|done].
    + rewrite length_app. simpl. intros c Hc Hp H0. pose proof (parent_spec c). lia.
  - rewrite heap_up_perm. rewrite <-Permutation_cons_append. done.
Qed.

Lemma heap_down_perm fuel h i n : heap_down fuel h i n ≡ₚ h.
Proof using Type.
  revert h i. induction fuel as [|fuel IH]; intros h i; cbn [heap_down]; [done|].
  destruct (n <=? _)%nat; [done|].
  destruct (negb _); [done|]. rewrite IH. apply heap_swap_perm.
Qed.

Lemma heap_down_length fuel h i n : length (heap_down fuel h i n) = length h.
Proof using Type. by rewrite heap_down_perm. Qed.

(** [down] leaves positions outside the heap alone. *)
Lemma heap_down_lookup fuel : ∀ h i n k,
  (n ≤ length h)%nat → (n ≤ k)%nat → (i < n)%nat → heap_down fuel h i n !! k = h !! k.
Proof using Type.
  induction fuel as [|fuel IH]; intros h i n k Hn Hk Hi; cbn [heap_down]; [done|].
  destruct (Nat.leb_spec n (2 * i + 1)); [done|].
  set (j := if (2 * i + 1 + 1 <? n)%nat && heap_less h (2 * i + 1 + 1) (2 * i + 1)
              then (2 * i + 1 + 1)%nat else (2 * i + 1)%nat).
  assert (Hj : (j < n)%nat).
  { subst j. destruct (Nat.ltb_spec (2 * i + 1 + 1) n); simpl; [|lia]. destruct (heap_less h _ _); lia. }
  destruct (negb _); [done|]. rewrite IH by (rewrite ?length_heap_swap; lia).
  rewrite heap_swap_lookup by lia. by rewrite !decide_False by lia.
Qed.

(** The smaller child. *)
Lemma heap_child h i n :
  (n ≤ length h)%nat → (2 * i + 1 < n)%nat →
  let j1 := (2 * i + 1)%nat in
  let j := if (j1 + 1 <? n)%nat && heap_less h (j1 + 1) j1 then (j1 + 1)%nat else j1 in
  (j < n)%nat ∧ (0 < j)%nat ∧ parent j = i ∧
  ∀ c, (0 < c < n)%nat → parent c = i → hle h j c.
Proof using le_total.
  intros Hn Hi j1 j. subst j1 j. pose proof (parent_spec (2 * i + 1)) as Hp1.
  pose proof (parent_spec (2 * i + 1 + 1)) as Hp2.
  destruct (Nat.ltb_spec (2 * i + 1 + 1) n) as [Hlt|Hge]; cbn [andb].
  - destruct (heap_less_spec h (2 * i + 1 + 1) (2 * i + 1)) as [Hf Ht]; [lia|lia|].
    destruct (heap_less h (2 * i + 1 + 1) (2 * i + 1)) eqn:E; (split; [lia|split; [lia|split; [lia|]]]);
      intros c Hc Hpc; pose proof (parent_spec c) as Hps.
    + destruct (decide (c = 2 * i + 1)%nat) as [->|]; [by apply Ht|].
      replace c with (2 * i + 1 + 1)%nat by lia. apply hle_refl.
    + destruct (decide (c = 2 * i + 1)%nat) as [->|]; [apply hle_refl|].
      replace c with (2 * i + 1 + 1)%nat by lia. by apply Hf.
  - split; [lia|]. split; [lia|]. split; [lia|]. intros c Hc Hpc. pose proof (parent_spec c) as Hps.
    replace c with (2 * i + 1)%nat by lia. apply hle_refl.
Qed.

Lemma heap_down_ok fuel : ∀ h i n,
  (n ≤ length h)%nat → (i < n)%nat → (n - i ≤ fuel)%nat →
  (∀ k, (0 < k < n)%nat → parent k ≠ i → hle h (parent k) k) →
  (∀ c, (0 < c < n)%nat → parent c = i → (0 < i)%nat → hle h (parent i) c) →
  ∀ k, (0 < k < n)%nat → hle (heap_down fuel h i n) (parent k) k.
Proof using le_trans le_total.
  induction fuel as [|fuel IH]; intros h i n Hn Hi Hf H1 H2; [lia|]. cbn [heap_down].
  destruct (Nat.leb_spec n (2 * i + 1)) as [Hleaf|Hin].
  { intros k Hk. apply H1; [done|]. pose proof (parent_spec k). lia. }
  destruct (heap_child h i n Hn Hin) as (Hjn & Hj0 & Hpj & Hmin). 
  set (j := if (2 * i + 1 + 1 <? n)%nat && heap_less h (2 * i + 1 + 1) (2 * i + 1)
              then (2 * i + 1 + 1)%nat else (2 * i + 1)%nat) in *.
  clearbody j. pose proof (parent_spec j Hj0) as Hjs. rewrite Hpj in Hjs.
  destruct (heap_less_spec h j i) as [Hfl Htr]; [lia|lia|].
  destruct (heap_less h j i) eqn:E; cbn [negb].
  2:{ intros k Hk. destruct (decide (parent k = i)) as [Hpk|Hpk]; [|by apply H1].
      rewrite Hpk. eapply hle_trans; [|by apply Hfl|by apply Hmin]. lia. }
  specialize (Htr eq_refl). apply IH; rewrite ?length_heap_swap; [lia|lia|lia|..].
  - intros k Hk Hpk. apply hle_swap; [lia|lia|]. pose proof (parent_spec k) as Hks.
    rewrite (decide_False (P := parent k = j)) by done.
    destruct (decide (parent k = i)) as [Hpi|Hpi].
    + rewrite (decide_False (P := k = i)) by lia. destruct (decide (k = j)) as [->|Hkj]; [done|].
      by apply Hmin.
    + destruct (decide (k = i)) as [->|Hki].
      * apply H2; [lia|done|lia].
      * rewrite (decide_False (P := k = j)) by (intros ->; done). by apply H1.
  - intros c Hc Hpc _. apply hle_swap; [lia|lia|]. pose proof (parent_spec c) as Hcs.
    rewrite Hpj. rewrite (decide_True (P := i = i)) by done.
    rewrite (decide_False (P := c = i)) by lia. rewrite (decide_False (P := c = j)) by lia.
    rewrite <-Hpc. apply H1; [done|]. lia.
Qed.

(** The root is a minimum. *)
Lemma heap_root_min h k : heap_ok h → (k < length h)%nat → hle h 0 k.
Proof using le_trans le_total.
  intros Hok. induction (lt_wf k) as [k _ IH]. intros Hk.
  destruct (decide (k = 0)%nat) as [->|Hk0]; [apply hle_refl|].
  pose proof (parent_spec k) as Hp. eapply (hle_trans _ _ (parent k)); [lia|apply IH; lia|].
  apply Hok. lia.
Qed.

(** [Pop] takes out a minimum and leaves a heap. *)
Lemma heap_Pop_spec x h :
  heap_ok (x :: h) →
  ∃ h', heap_Pop (x :: h) = Some (x, h') ∧ h' ≡ₚ h ∧ heap_ok h' ∧ ∀ y, y ∈ h → le x y.
Proof using le_trans le_total.
  intros Hok. unfold heap_Pop. simpl length. rewrite Nat.sub_succ, Nat.sub_0_r.
  set (n := length h). set (h1 := heap_swap (x :: h) 0 n).
  assert (Hl1 : length h1 = S n) by (unfold h1; by rewrite length_heap_swap).
  assert (Hlook : ∀ k, h1 !! k = if decide (k = 0)%nat then (x :: h) !! n
                               else if decide (k = n) then Some x else (x :: h) !! k).
  { intros k. unfold h1. rewrite heap_swap_lookup by (simpl; lia). done. }
  set (h2 := heap_down n h1 0 n).
  assert (Hl2 : length h2 = S n) by (unfold h2; by rewrite heap_down_length).
  assert (Hx : h2 !! n = Some x).
  { destruct (decide (n = 0)%nat) as [E|Hn0].
    - unfold h2. rewrite E. simpl. rewrite Hlook. rewrite E. done.
    - unfold h2. rewrite heap_down_lookup by lia. rewrite Hlook, decide_False, decide_True by done. done. }
  rewrite Hx. exists (take n h2). split; [done|].
  assert (Hp : take n h2 ≡ₚ h).
  { apply (Permutation_cons_inv (a := x)). rewrite Permutation_cons_append.
    rewrite <-(take_S_r h2 n x Hx). rewrite take_ge by lia.
    unfold h2. rewrite heap_down_perm. unfold h1. apply heap_swap_perm. }
  split; [done|]. split.
  - intros k Hk. rewrite length_take in Hk.
    assert (Hd : hle h2 (parent k) k).
    { unfold h2. apply heap_down_ok; try lia.
      intros j Hj Hpj. pose proof (parent_spec j) as Hjs. intros a b Ha Hb. rewrite Hlook in Ha, Hb.
      rewrite decide_False in Ha by lia. rewrite decide_False in Ha by lia.
      rewrite decide_False in Hb by lia. rewrite decide_False in Hb by lia.
      apply (Hok j); [simpl; lia|done|done]. }
    pose proof (parent_spec k) as Hks. intros a b Ha Hb. rewrite lookup_take_lt in Ha, Hb by lia. by apply Hd.
  - intros y Hy. apply list_elem_of_lookup in Hy as [k Hk].
    apply (heap_root_min (x :: h) (S k) Hok); [|done|done]. simpl.
    apply lookup_lt_Some in Hk. lia.
Qed.
End heap.
