(* ===== verification/GoState.v ===== *)
(** Imperative Go code as state passing: a state-and-error monad for methods that change
    their receiver, and the doubly linked lists of [container/list]. *)
From stdpp Require Import base gmap list strings numbers sorting.
From S2P Require Import Prelude.

Open Scope Z_scope.

(** ** Methods *)

(** A method on a receiver of type [S] with results [A]: the receiver afterwards and the
    value, error or panic.  An error keeps the changes made before it. *)
Definition M (S A : Type) : Type := S → S * res A.

#[global] Instance M_ret S : MRet (M S) := λ A a s, (s, Ok a).
#[global] Instance M_bind S : MBind (M S) := λ A B f m s,
  match m s with
  | (s, Ok a) => f a s
  | (s, Err e) => (s, Err e)
  | (s, Panic) => (s, Panic)
  end.

(** Read a field, change the receiver, return an error, and use the result of a pure call. *)
Definition gets {S A} (f : S → A) : M S A := λ s, (s, Ok (f s)).
Definition modify {S} (f : S → S) : M S () := λ s, (f s, Ok tt).
Definition throw {S A} (e : error) : M S A := λ s, (s, Err e).
Definition lift {S A} (r : res A) : M S A := λ s, (s, r).

(** Call a method and look at its error: the caller decides what to do with it. *)
Definition try_ {S A} (m : M S A) : M S (res A) := λ s,
  match m s with
  | (s, Panic) => (s, Panic)
  | (s, r) => (s, Ok r)
  end.

(** [for _, x := range l], left at the first error. *)
Fixpoint for_each {S A} (f : A → M S ()) (l : list A) : M S () :=
  match l with
  | [] => mret tt
  | x :: l => f x ≫= λ _, for_each f l
  end.

(** A method of a field of the receiver. *)
Definition zoom {S T A} (get : S → T) (put : T → S → S) (m : M T A) : M S A := λ s,
  let '(t, r) := m (get s) in (put t s, r).

Lemma M_bind_Ok {S A B} (m : M S A) (f : A → M S B) s s' a :
  m s = (s', Ok a) → (m ≫= f) s = f a s'.
Proof. intros E. unfold mbind, M_bind. by rewrite E. Qed.

Lemma M_bind_Err {S A B} (m : M S A) (f : A → M S B) s s' e :
  m s = (s', Err e) → (m ≫= f) s = (s', Err e).
Proof. intros E. unfold mbind, M_bind. by rewrite E. Qed.

Lemma M_bind_Panic {S A B} (m : M S A) (f : A → M S B) s s' :
  m s = (s', Panic) → (m ≫= f) s = (s', Panic).
Proof. intros E. unfold mbind, M_bind. by rewrite E. Qed.

Lemma gets_bind {S A B} (g : S → A) (f : A → M S B) s : (gets g ≫= f) s = f (g s) s.
Proof. done. Qed.

Lemma modify_bind {S B} (g : S → S) (f : () → M S B) s : (modify g ≫= f) s = f tt (g s).
Proof. done. Qed.

Lemma try_bind {S A B} (m : M S A) (f : res A → M S B) s s' r :
  m s = (s', r) → r ≠ Panic → (try_ m ≫= f) s = f r s'.
Proof. intros E Hr. unfold mbind, M_bind, try_. rewrite E. by destruct r. Qed.

(** Loops that keep an invariant and never fail. *)
Lemma for_each_inv {S A} (f : A → M S ()) (I : list A → S → Prop) l :
  (∀ x l s, I (x :: l) s → ∃ s', f x s = (s', Ok tt) ∧ I l s') →
  ∀ s, I l s → ∃ s', for_each f l s = (s', Ok tt) ∧ I [] s'.
Proof.
  intros Hstep. induction l as [|x l IH]; intros s Hs; [by exists s|].
  destruct (Hstep x l s Hs) as (s1 & E & H1). destruct (IH s1 H1) as (s2 & E2 & H2).
  exists s2. split; [|done]. simpl. by rewrite (M_bind_Ok _ _ _ _ _ E).
Qed.

(** The step of a method whose call is known. *)
Ltac go_step E := rewrite (M_bind_Ok _ _ _ _ _ E); cbn beta.
Ltac go_gets := rewrite gets_bind; cbn beta.
Ltac go_modify := rewrite modify_bind; cbn beta.

(** ** container/list *)

(** Elements carry an identity, so that a pointer to one survives moves. *)
Record golist (A : Type) := MkList {
  gl_elems : list (nat * A);
  gl_next : nat;
}.
Arguments MkList {A}.
Arguments gl_elems {A}.
Arguments gl_next {A}.

Definition list_New {A} : golist A := MkList [] 0.
Definition list_Len {A} (l : golist A) : Z := len (gl_elems l).
Definition list_Back {A} (l : golist A) : option (nat * A) := last (gl_elems l).

Definition list_PushFront {A} (x : A) (l : golist A) : nat * golist A :=
  (gl_next l, MkList ((gl_next l, x) :: gl_elems l) (S (gl_next l))).

Definition list_Remove {A} (e : nat) (l : golist A) : golist A :=
  MkList (filter (λ x, x.1 ≠ e) (gl_elems l)) (gl_next l).

Definition list_MoveToFront {A} (e : nat) (l : golist A) : golist A :=
  match list_find (λ x, x.1 = e) (gl_elems l) with
  | Some (_, x) => MkList (x :: gl_elems (list_Remove e l)) (gl_next l)
  | None => l
  end.
