(* ===== verification/Common.v ===== *)
(** The contract shared by the engines ([src/common/types.go]) and the disk and memory
    budget of the test utilities ([src/common/testutil/limiter.go]). *)
From S2P Require Import Prelude.
From stdpp Require Import base gmap list strings numbers.

Open Scope Z_scope.

(** ** The operations of an engine *)

(** [common.StorageEngine], over the states [S] of an open engine. *)
Class StorageEngine (S : Type) := {
  se_Put : S → bytes → bytes → S * res unit;
  se_Get : S → bytes → S * res bytes;
  se_Delete : S → bytes → S * res unit;
  se_Sync : S → res unit;
}.

(** [common.Stats]; an amplification factor is a fraction (numerator, denominator). *)
Record Stats := MkStats {
  NumKeys : Z;
  NumSegments : Z;
  ActiveSegSize : Z;
  TotalDiskSize : Z;
  WriteCount : Z;
  ReadCount : Z;
  CompactCount : Z;
  WriteAmp : Z * Z;
  SpaceAmp : Z * Z;
}.

(** ** The abstract store *)

(** What the engines promise is a map from keys to values.  They differ in how a stored
    value reads back ([None] for a value the engine treats as absent) and in whether an
    empty key is refused. *)
Record policy := MkPolicy {
  pol_norm : bytes → option bytes;
  pol_rejects_empty : bool;
}.

Definition store_write (norm : bytes → option bytes) (k v : bytes) (m : gmap bytes bytes)
    : gmap bytes bytes :=
  match norm v with Some v => <[k := v]> m | None => delete k m end.

Definition refused (P : policy) (k : bytes) : bool := pol_rejects_empty P && bytes_eqb k [].

Definition store_Put (P : policy) (m : gmap bytes bytes) (k v : bytes) : gmap bytes bytes * res unit :=
  if refused P k then (m, Err ErrKeyEmpty) else (store_write (pol_norm P) k v m, Ok tt).

Definition store_Delete (P : policy) (m : gmap bytes bytes) (k : bytes) : gmap bytes bytes * res unit :=
  if refused P k then (m, Err ErrKeyEmpty) else (delete k m, Ok tt).

Definition store_Get (m : gmap bytes bytes) (k : bytes) : res bytes :=
  match m !! k with Some v => Ok v | None => Err ErrKeyNotFound end.

(** A client's call and the engine's answer. *)
Inductive call :=
| CPut (k v : bytes)
| CGet (k : bytes)
| CDelete (k : bytes)
| CSync.

Inductive answer :=
| ADone (r : res unit)
| AValue (r : res bytes).

Definition se_call {S} `{StorageEngine S} (s : S) (c : call) : S * answer :=
  match c with
  | CPut k v => let '(s, r) := se_Put s k v in (s, ADone r)
  | CGet k => let '(s, r) := se_Get s k in (s, AValue r)
  | CDelete k => let '(s, r) := se_Delete s k in (s, ADone r)
  | CSync => (s, ADone (se_Sync s))
  end.

Definition store_call (P : policy) (m : gmap bytes bytes) (c : call)
    : gmap bytes bytes * answer :=
  match c with
  | CPut k v => let '(m, r) := store_Put P m k v in (m, ADone r)
  | CGet k => (m, AValue (store_Get m k))
  | CDelete k => let '(m, r) := store_Delete P m k in (m, ADone r)
  | CSync => (m, ADone (Ok tt))
  end.

(** A client session: the answers to a list of calls. *)
Fixpoint session {S} (step : S → call → S * answer) (s : S) (cs : list call) : S * list answer :=
  match cs with
  | [] => (s, [])
  | c :: cs =>
      let '(s, a) := step s c in
      let '(s, l) := session step s cs in (s, a :: l)
  end.

(** The promise of an engine: [R s m] says that the state [s] stores [m], and [fits]
    which keys and values are within the engine's size limits. *)
Class StoresMap (S : Type) `{StorageEngine S} (P : policy)
    (fits : bytes → bytes → Prop) (R : S → gmap bytes bytes → Prop) : Prop := {
  stores_Put s m k v : R s m → fits k v →
    (se_Put s k v).2 = (store_Put P m k v).2 ∧ R (se_Put s k v).1 (store_Put P m k v).1;
  stores_Get s m k : R s m → (se_Get s k).2 = store_Get m k ∧ R (se_Get s k).1 m;
  stores_Delete s m k : R s m → fits k [] →
    (se_Delete s k).2 = (store_Delete P m k).2 ∧ R (se_Delete s k).1 (store_Delete P m k).1;
  stores_Sync s m : R s m → se_Sync s = Ok tt;
}.

Definition call_fits (fits : bytes → bytes → Prop) (c : call) : Prop :=
  match c with
  | CPut k v => fits k v
  | CDelete k => fits k []
  | _ => True
  end.

Section client.
Context {S : Type} `{!StorageEngine S} {P : policy}.
Context {fits : bytes → bytes → Prop} {R : S → gmap bytes bytes → Prop}.
Context `{!StoresMap S P fits R}.

Lemma se_call_store s m c :
  R s m → call_fits fits c →
  (se_call s c).2 = (store_call P m c).2 ∧ R (se_call s c).1 (store_call P m c).1.
Proof using All.
  intros HR Hf. destruct c as [k v|k|k|]; simpl in *.
  - destruct (stores_Put s m k v HR Hf) as [E HR'].
    destruct (se_Put s k v), (store_Put P m k v). simpl in *. by subst.
  - destruct (stores_Get s m k HR) as [E HR']. destruct (se_Get s k). simpl in *. by subst.
  - destruct (stores_Delete s m k HR Hf) as [E HR'].
    destruct (se_Delete s k), (store_Delete P m k). simpl in *. by subst.
  - by rewrite (stores_Sync s m HR).
Qed.

(** Whatever the client calls, the answers are those of the abstract map. *)
Lemma session_refines s m cs :
  R s m → Forall (call_fits fits) cs →
  (session se_call s cs).2 = (session (store_call P) m cs).2 ∧
  R (session se_call s cs).1 (session (store_call P) m cs).1.
Proof using All.
  intros HR Hf. revert s m HR. induction Hf as [|c cs Hc Hcs IH]; intros s m HR; simpl; [done|].
  destruct (se_call_store s m c HR Hc) as [E HR'].
  destruct (se_call s c) as [s1 a1], (store_call P m c) as [m1 b1]. simpl in *. subst b1.
  destruct (IH s1 m1 HR') as [E2 HR2].
  destruct (session se_call s1 cs) as [s2 l2], (session (store_call P) m1 cs) as [m2 l2'].
  simpl in *. by subst.
Qed.
End client.

(** ** The resource limiter *)

Record ResourceLimiter := MkLimiter {
  maxDiskBytes : Z;
  maxMemoryBytes : Z;
  diskUsed : Z;
  memUsed : Z;
}.

(** [int64] arithmetic of the atomic counters. *)
Definition i64 (z : Z) : Z := (z + 2 ^ 63) mod 2 ^ 64 - 2 ^ 63.

Definition NewResourceLimiter (maxDisk maxMemory : Z) : ResourceLimiter :=
  MkLimiter maxDisk maxMemory 0 0.

Definition AllocDisk (r : ResourceLimiter) (n : Z) : ResourceLimiter * res unit :=
  let newUsed := i64 (diskUsed r + n) in
  let r := MkLimiter (maxDiskBytes r) (maxMemoryBytes r) newUsed (memUsed r) in
  if maxDiskBytes r <? newUsed then
    (MkLimiter (maxDiskBytes r) (maxMemoryBytes r) (i64 (diskUsed r + - n)) (memUsed r),
     Err ErrDiskFull)
  else (r, Ok tt).

Definition FreeDisk (r : ResourceLimiter) (n : Z) : ResourceLimiter :=
  MkLimiter (maxDiskBytes r) (maxMemoryBytes r) (i64 (diskUsed r + - n)) (memUsed r).

Definition DiskUsed (r : ResourceLimiter) : Z := diskUsed r.

Definition AllocMemory (r : ResourceLimiter) (n : Z) : ResourceLimiter * res unit :=
  let newUsed := i64 (memUsed r + n) in
  let r := MkLimiter (maxDiskBytes r) (maxMemoryBytes r) (diskUsed r) newUsed in
  if maxMemoryBytes r <? newUsed then
    (MkLimiter (maxDiskBytes r) (maxMemoryBytes r) (diskUsed r) (i64 (memUsed r + - n)),
     Err ErrDiskFull)
  else (r, Ok tt).

Definition FreeMemory (r : ResourceLimiter) (n : Z) : ResourceLimiter :=
  MkLimiter (maxDiskBytes r) (maxMemoryBytes r) (diskUsed r) (i64 (memUsed r + - n)).

Lemma i64_small z : - 2 ^ 63 ≤ z < 2 ^ 63 → i64 z = z.
Proof. intros Hz. unfold i64. rewrite Z.mod_small; lia. Qed.

(** A limiter within its disk and memory budgets, whose limits leave headroom for one
    more request below the [int64] bound. *)
Record limiter_ok (r : ResourceLimiter) : Prop := {
  lim_disk : 0 ≤ diskUsed r ≤ maxDiskBytes r;
  lim_disk_max : maxDiskBytes r < 2 ^ 62;
  lim_mem : 0 ≤ memUsed r ≤ maxMemoryBytes r;
  lim_mem_max : maxMemoryBytes r < 2 ^ 62;
}.

(** C36: a request of the limiter is granted exactly when it fits in the budget; a refused
    request reports ErrDiskFull and leaves the limiter as it was, a granted one is undone
    by the matching free, and the budget is never exceeded.  Disk and memory are
    independent. *)
Theorem limiter_alloc_free r n (Hr : limiter_ok r) (Hn : 0 ≤ n < 2 ^ 62) :
  (if decide (diskUsed r + n ≤ maxDiskBytes r)
   then ∃ r', AllocDisk r n = (r', Ok tt) ∧ DiskUsed r' = DiskUsed r + n ∧
          memUsed r' = memUsed r ∧ limiter_ok r' ∧ FreeDisk r' n = r
   else AllocDisk r n = (r, Err ErrDiskFull)) ∧
  (if decide (memUsed r + n ≤ maxMemoryBytes r)
   then ∃ r', AllocMemory r n = (r', Ok tt) ∧ memUsed r' = memUsed r + n ∧
          DiskUsed r' = DiskUsed r ∧ limiter_ok r' ∧ FreeMemory r' n = r
   else AllocMemory r n = (r, Err ErrDiskFull)).
Proof.
  destruct Hr as [H1 H2 H3 H4]. destruct r as [md mm du mu]. simpl in *.
  unfold AllocDisk, AllocMemory, FreeDisk, FreeMemory, DiskUsed. simpl.
  rewrite !i64_small by lia. split.
  - case_decide; destruct (Z.ltb_spec md (du + n)); try lia.
    + eexists. split; [done|]. simpl. split_and!; [done..|by split; simpl; lia|].
      f_equal. rewrite ?i64_small; lia.
    + do 2 f_equal. rewrite ?i64_small; lia.
  - case_decide; destruct (Z.ltb_spec mm (mu + n)); try lia.
    + eexists. split; [done|]. simpl. split_and!; [done..|by split; simpl; lia|].
      f_equal. rewrite ?i64_small; lia.
    + do 2 f_equal. rewrite ?i64_small; lia.
Qed.

Lemma limiter_alloc_free_witness :
  limiter_ok (NewResourceLimiter 100 50) ∧
  AllocMemory (NewResourceLimiter 100 50) 60 = (NewResourceLimiter 100 50, Err ErrDiskFull).
Proof.
  assert (limiter_ok (NewResourceLimiter 100 50)) as Hok by (split; simpl; lia).
  split; [done|]. destruct (limiter_alloc_free (NewResourceLimiter 100 50) 60 Hok) as [_ H]; [lia|].
  exact H.
Defined.
