(* ===== verification/HashShard.v ===== *)
(** The sharded in-memory index of the hash engine ([src/hashindex/shard.go]):
    256 maps selected by the FNV-1a hash of the key, and a key counter.  The
    theorems show that it behaves as one map whose size is the counter. *)
From S2P Require Import Prelude GoLib.
From stdpp Require Import base gmap list strings numbers sorting.

Open Scope Z_scope.

Definition numShards : nat := 256.
Definition shardMask : Z := 255.

(** A key's location in a segment. *)
Record indexEntry := IndexEntry {
  ie_segmentID : Z;
  ie_offset : Z;
  ie_size : Z;
  ie_timestamp : Z;
}.

(** One partition of the index (its lock is not represented: each operation
    runs under it). *)
Abbreviation shard := (gmap bytes indexEntry).

Record shardedIndex := ShardedIndex {
  si_shards : list shard;
  si_count : Z;
}.

Definition newShardedIndex : shardedIndex := ShardedIndex (replicate numShards ∅) 0.

(** The index of the shard [getShard] returns. *)
Definition getShard (key : bytes) : nat := Z.to_nat (Z.land (fnv32a key) shardMask).

Definition shard_at (si : shardedIndex) (i : nat) : shard := default ∅ (si_shards si !! i).

Definition si_Get (si : shardedIndex) (key : bytes) : option indexEntry :=
  shard_at si (getShard key) !! key.

Definition si_Put (si : shardedIndex) (key : bytes) (entry : indexEntry) : shardedIndex :=
  let i := getShard key in
  let sh := shard_at si i in
  let existed := bool_decide (is_Some (sh !! key)) in
  ShardedIndex (<[i := <[key := entry]> sh]> (si_shards si))
    (if existed then si_count si else si_count si + 1).

Definition si_Delete (si : shardedIndex) (key : bytes) : shardedIndex * bool :=
  let i := getShard key in
  let sh := shard_at si i in
  let existed := bool_decide (is_Some (sh !! key)) in
  (ShardedIndex (<[i := delete key sh]> (si_shards si))
     (if existed then si_count si - 1 else si_count si),
   existed).

Definition si_Count (si : shardedIndex) : Z := si_count si.

(** [UpdateBatch]: the operations are first distributed to the shards...  The order
    in which [range] visits a Go map is unspecified: [range_map] is any enumeration
    of the map. *)
Record batchOp := BatchOp {
  bo_updates : gmap bytes indexEntry;
  bo_deletions : list bytes;
}.

Definition add_update (ops : list batchOp) (kv : bytes * indexEntry) : list batchOp :=
  alter (λ o, BatchOp (<[kv.1 := kv.2]> (bo_updates o)) (bo_deletions o))
    (getShard kv.1) ops.

Definition add_deletion (ops : list batchOp) (k : bytes) : list batchOp :=
  alter (λ o, BatchOp (bo_updates o) (bo_deletions o ++ [k])) (getShard k) ops.

Definition batch_ops (range_map : gmap bytes indexEntry → list (bytes * indexEntry))
    (updates : gmap bytes indexEntry) (deletions : list bytes) : list batchOp :=
  let ops0 := replicate numShards (BatchOp ∅ []) in
  foldl add_deletion (foldl add_update ops0 (range_map updates)) deletions.
Arguments batch_ops : simpl never.

(** ... then each shard applies its updates and its deletions, counting the
    change of its size (the goroutine body; shards are disjoint, so running the
    goroutines one after another gives the same shards and the same sum). *)
Definition apply_update (acc : shard * Z) (kv : bytes * indexEntry) : shard * Z :=
  (<[kv.1 := kv.2]> acc.1,
   if bool_decide (is_Some (acc.1 !! kv.1)) then acc.2 else acc.2 + 1).

Definition apply_deletion (acc : shard * Z) (k : bytes) : shard * Z :=
  (delete k acc.1,
   if bool_decide (is_Some (acc.1 !! k)) then acc.2 - 1 else acc.2).

Definition apply_batch (range_map : gmap bytes indexEntry → list (bytes * indexEntry))
    (sh : shard) (o : batchOp) : shard * Z :=
  foldl apply_deletion
    (foldl apply_update (sh, 0) (range_map (bo_updates o))) (bo_deletions o).

Definition si_UpdateBatch (range_map : gmap bytes indexEntry → list (bytes * indexEntry))
    (si : shardedIndex) (updates : gmap bytes indexEntry) (deletions : list bytes)
    : shardedIndex :=
  let rs := zip_with (apply_batch range_map) (si_shards si)
              (batch_ops range_map updates deletions) in
  ShardedIndex rs.*1 (si_count si + foldr Z.add 0 rs.*2).

(** ** The map a sharded index stands for *)

Definition shards_size (l : list shard) : Z :=
  foldr (λ sh acc, Z.of_nat (size sh) + acc) 0 l.

(** A well-formed index: 256 shards, every key in its own shard, and the
    counter equal to the total number of keys. *)
Record si_wf (si : shardedIndex) : Prop := {
  si_wf_len : length (si_shards si) = numShards;
  si_wf_home : ∀ i sh k, si_shards si !! i = Some sh → is_Some (sh !! k) → i = getShard k;
  si_wf_count : si_count si = shards_size (si_shards si);
}.

Definition si_map (si : shardedIndex) : gmap bytes indexEntry := ⋃ (si_shards si).

Lemma getShard_lt k : (getShard k < numShards)%nat.
Proof.
  unfold getShard, shardMask, numShards. rewrite (Z.land_ones _ 8) by lia.
  pose proof (Z.mod_pos_bound (fnv32a k) (2 ^ 8)). lia.
Qed.

(** *** Unions of shards *)

Definition keys_disjoint (l : list shard) : Prop :=
  ∀ i j sh1 sh2 k, l !! i = Some sh1 → l !! j = Some sh2 →
    is_Some (sh1 !! k) → is_Some (sh2 !! k) → i = j.

Lemma keys_disjoint_cons sh l :
  keys_disjoint (sh :: l) → keys_disjoint l ∧ sh ##ₘ ⋃ l.
Proof.
  intros H. split.
  - intros i j sh1 sh2 k Hi Hj H1 H2.
    specialize (H (S i) (S j) sh1 sh2 k Hi Hj H1 H2). lia.
  - apply map_disjoint_spec. intros k x y Hx Hy.
    assert (∃ j sh2, l !! j = Some sh2 ∧ is_Some (sh2 !! k)) as (j & sh2 & Hj & H2).
    { clear -Hy. induction l as [|s l IH]; simpl in *; [by rewrite lookup_empty in Hy|].
      apply lookup_union_Some_raw in Hy as [Hy|[_ Hy]].
      - exists 0%nat, s. eauto.
      - destruct (IH Hy) as (j & s2 & ? & ?). by exists (S j), s2. }
    by specialize (H 0%nat (S j) sh sh2 k eq_refl Hj (mk_is_Some _ _ Hx) H2).
Qed.

Lemma lookup_union_shards l i sh k :
  keys_disjoint l → l !! i = Some sh → is_Some (sh !! k) → (⋃ l) !! k = sh !! k.
Proof.
  revert i. induction l as [|s l IH]; intros i Hd Hi Hs; [done|].
  destruct (keys_disjoint_cons _ _ Hd) as [Hd' Hdis]. simpl.
  destruct i as [|i]; simpl in Hi.
  - simplify_eq. destruct Hs as [v Hv]. rewrite Hv. by apply lookup_union_Some_l.
  - rewrite lookup_union_r; [by eapply IH|].
    destruct (s !! k) eqn:E; [|done].
    specialize (Hd 0%nat (S i) s sh k eq_refl Hi (mk_is_Some _ _ E) Hs). lia.
Qed.

Lemma lookup_union_shards_None (l : list shard) k :
  (∀ i sh, l !! i = Some sh → sh !! k = None) → (⋃ l) !! k = None.
Proof.
  intros H. induction l as [|s l IH]; simpl; [apply lookup_empty|].
  apply lookup_union_None. split; [by apply (H 0%nat)|].
  apply IH. intros i sh Hi. by apply (H (S i)).
Qed.

Lemma size_union_shards (l : list shard) :
  keys_disjoint l →
  Z.of_nat (size (⋃ l)) = shards_size l.
Proof.
  induction l as [|s l IH]; intros Hd; [done|].
  destruct (keys_disjoint_cons _ _ Hd) as [Hd' Hdis].
  simpl. rewrite map_size_disj_union by done. rewrite <-IH by done. lia.
Qed.

Definition homed (l : list shard) : Prop :=
  ∀ i sh k, l !! i = Some sh → is_Some (sh !! k) → i = getShard k.

Lemma homed_disjoint l : homed l → keys_disjoint l.
Proof.
  intros H i j sh1 sh2 k Hi Hj H1 H2.
  rewrite (H _ _ _ Hi H1). symmetry. by eapply H.
Qed.

Lemma lookup_homed l k sh :
  homed l → l !! getShard k = Some sh → (⋃ l) !! k = sh !! k.
Proof.
  intros Hh Hl. destruct (sh !! k) as [v|] eqn:E.
  - rewrite <-E. eapply lookup_union_shards; eauto using homed_disjoint.
  - apply lookup_union_shards_None. intros i s Hi.
    destruct (s !! k) eqn:E2; [|done].
    assert (i = getShard k) as -> by (eapply Hh; eauto). congruence.
Qed.

Section wf.
Context (si : shardedIndex) (Hwf : si_wf si).

Lemma shard_lookup k : ∃ sh, si_shards si !! getShard k = Some sh ∧ shard_at si (getShard k) = sh.
Proof using Hwf.
  destruct (lookup_lt_is_Some_2 (si_shards si) (getShard k)) as [sh Hsh].
  { rewrite (si_wf_len _ Hwf). apply getShard_lt. }
  exists sh. split; [done|]. unfold shard_at. by rewrite Hsh.
Qed.

Lemma si_Get_map k : si_Get si k = si_map si !! k.
Proof using Hwf.
  destruct (shard_lookup k) as (sh & Hsh & Hat). unfold si_Get. rewrite Hat.
  symmetry. apply lookup_homed; [|done]. exact (si_wf_home _ Hwf).
Qed.

Lemma si_Count_size : si_Count si = Z.of_nat (size (si_map si)).
Proof using Hwf.
  unfold si_Count, si_map. rewrite (si_wf_count _ Hwf), size_union_shards; [done|].
  apply homed_disjoint. exact (si_wf_home _ Hwf).
Qed.
End wf.

Lemma newShardedIndex_wf : si_wf newShardedIndex.
Proof.
  split; [done| |by vm_compute].
  intros i sh k Hi Hk. apply lookup_replicate in Hi as [-> _].
  rewrite lookup_empty in Hk. by destruct Hk.
Qed.

Lemma newShardedIndex_map : si_map newShardedIndex = ∅.
Proof.
  apply map_eq. intros k. rewrite lookup_empty. apply lookup_union_shards_None.
  intros i sh Hi. apply lookup_replicate in Hi as [-> _]. apply lookup_empty.
Qed.

(** Replacing one shard by a map over keys of that shard. *)
Lemma sum_insert (l : list shard) i sh sh' :
  l !! i = Some sh →
  shards_size (<[i := sh']> l) =
  shards_size l + Z.of_nat (size sh') - Z.of_nat (size sh).
Proof.
  revert i. induction l as [|s l IH]; intros i Hi; [done|].
  destruct i as [|i]; simpl in *; simplify_eq; [lia|].
  rewrite (IH _ Hi). lia.
Qed.

Lemma si_replace_wf si key sh' c :
  si_wf si →
  (∀ k, is_Some (sh' !! k) → is_Some (shard_at si (getShard key) !! k) ∨ k = key) →
  c = si_count si + Z.of_nat (size sh') - Z.of_nat (size (shard_at si (getShard key))) →
  si_wf (ShardedIndex (<[getShard key := sh']> (si_shards si)) c).
Proof.
  intros Hwf Hk ->. destruct (shard_lookup si Hwf key) as (sh & Hsh & Hat).
  rewrite Hat in *. split; simpl.
  - rewrite length_insert. apply (si_wf_len _ Hwf).
  - intros i s k Hi Hs. apply list_lookup_insert_Some in Hi as [(<- & <- & _)|[Hne Hi]].
    + destruct (Hk _ Hs) as [Hs' | ->]; [|done]. by eapply si_wf_home.
    + by eapply si_wf_home.
  - rewrite (si_wf_count _ Hwf). rewrite (sum_insert _ _ sh) by done. lia.
Qed.

Lemma si_replace_map si key sh' c k :
  si_wf si → si_wf (ShardedIndex (<[getShard key := sh']> (si_shards si)) c) →
  si_map (ShardedIndex (<[getShard key := sh']> (si_shards si)) c) !! k =
  if decide (getShard k = getShard key) then sh' !! k else si_map si !! k.
Proof.
  intros Hwf Hwf'. rewrite <-!si_Get_map by done. unfold si_Get, shard_at. simpl.
  case_decide as E.
  - rewrite E, list_lookup_insert_eq; [done|].
    rewrite (si_wf_len _ Hwf). apply getShard_lt.
  - by rewrite list_lookup_insert_ne.
Qed.

(** *** Put and Delete *)

Lemma si_Put_wf si k e : si_wf si → si_wf (si_Put si k e).
Proof.
  intros Hwf. unfold si_Put. apply si_replace_wf; [done| |].
  - intros k' [v Hv]. apply lookup_insert_Some in Hv as [[-> _]|[_ Hv]]; eauto.
  - case_bool_decide as E.
    + rewrite map_size_insert_Some by done. lia.
    + rewrite map_size_insert_None by (by apply eq_None_not_Some). lia.
Qed.

Lemma si_Put_map si k e : si_wf si → si_map (si_Put si k e) = <[k := e]> (si_map si).
Proof.
  intros Hwf. pose proof (si_Put_wf si k e Hwf) as Hwf'.
  apply map_eq. intros k'. unfold si_Put in *.
  rewrite si_replace_map by done. rewrite <-(si_Get_map si) by done.
  case_decide as E; [|by rewrite !lookup_insert_ne by (intros ->; done);
    rewrite <-(si_Get_map si)].
  destruct (decide (k = k')) as [->|Hne].
  - by rewrite !lookup_insert_eq.
  - rewrite !lookup_insert_ne by done. rewrite <-(si_Get_map si) by done.
    unfold si_Get. by rewrite E.
Qed.

Lemma si_Delete_wf si k : si_wf si → si_wf (si_Delete si k).1.
Proof.
  intros Hwf. unfold si_Delete. simpl. apply si_replace_wf; [done| |].
  - intros k' [v Hv]. apply lookup_delete_Some in Hv as [_ Hv]. eauto.
  - case_bool_decide as E.
    + rewrite map_size_delete_Some by done.
      pose proof (map_size_ne_0_lookup_2 _ _ E). lia.
    + rewrite map_size_delete_None by (by apply eq_None_not_Some). lia.
Qed.

Lemma si_Delete_map si k : si_wf si → si_map (si_Delete si k).1 = delete k (si_map si).
Proof.
  intros Hwf. pose proof (si_Delete_wf si k Hwf) as Hwf'.
  apply map_eq. intros k'. unfold si_Delete in *. simpl in *.
  rewrite si_replace_map by done.
  case_decide as E; [|by rewrite !lookup_delete_ne by (intros ->; done)].
  destruct (decide (k = k')) as [->|Hne].
  - by rewrite !lookup_delete_eq.
  - rewrite !lookup_delete_ne by done. rewrite <-(si_Get_map si) by done.
    unfold si_Get. by rewrite E.
Qed.

(** *** UpdateBatch *)

Lemma apply_updates_spec l sh d :
  NoDup l.*1 →
  foldl apply_update (sh, d) l =
    (list_to_map l ∪ sh,
     d + Z.of_nat (size (list_to_map l ∪ sh)) - Z.of_nat (size sh)).
Proof.
  revert sh d. induction l as [|[k v] l IH]; intros sh d Hnd; simpl.
  { rewrite map_empty_union. f_equal. lia. }
  apply NoDup_cons in Hnd as [Hk Hnd]. unfold apply_update at 2. simpl.
  rewrite IH by done. apply not_elem_of_list_to_map in Hk.
  rewrite <-insert_union_r by done. rewrite insert_union_l. f_equal.
  case_bool_decide as E.
  - rewrite (map_size_insert_Some k v sh) by done. lia.
  - rewrite (map_size_insert_None k v sh) by (by apply eq_None_not_Some). lia.
Qed.

Definition delete_all (ks : list bytes) (sh : shard) : shard := foldl (λ s k, delete k s) sh ks.

Lemma delete_all_lookup ks sh k :
  delete_all ks sh !! k = if decide (k ∈ ks) then None else sh !! k.
Proof.
  revert sh. induction ks as [|x ks IH]; intros sh; simpl.
  { done. }
  unfold delete_all in *. simpl. rewrite IH. repeat case_decide; try set_solver.
  - assert (k = x) as -> by set_solver. apply lookup_delete_eq.
  - apply lookup_delete_ne. set_solver.
Qed.

Lemma apply_deletions_spec ks sh d :
  foldl apply_deletion (sh, d) ks =
    (delete_all ks sh, d + Z.of_nat (size (delete_all ks sh)) - Z.of_nat (size sh)).
Proof.
  revert sh d. induction ks as [|k ks IH]; intros sh d; simpl; [f_equal; lia|].
  unfold apply_deletion at 2. simpl. rewrite IH. f_equal.
  case_bool_decide as E.
  - rewrite (map_size_delete_Some k sh) by done.
    pose proof (map_size_ne_0_lookup_2 _ _ E). lia.
  - rewrite (map_size_delete_None k sh) by (by apply eq_None_not_Some). lia.
Qed.

(** What a shard receives: the operations on its own keys. *)
Definition ops_for (i : nat) (ops : list batchOp) (u : gmap bytes indexEntry)
    (d : list bytes) : Prop :=
  ∃ o, ops !! i = Some o ∧
    (∀ k, bo_updates o !! k = if decide (getShard k = i) then u !! k else None) ∧
    (∀ k, k ∈ bo_deletions o ↔ k ∈ d ∧ getShard k = i).

Lemma distribute_updates i ops u d l :
  NoDup l.*1 → (∀ k v, (k, v) ∈ l → u !! k = None) →
  ops_for i ops u d → ops_for i (foldl add_update ops l) (list_to_map l ∪ u) d.
Proof.
  revert ops u. induction l as [|[k v] l IH]; intros ops u Hnd Hu Ho; simpl.
  { by rewrite map_empty_union. }
  apply NoDup_cons in Hnd as [Hk Hnd]. apply not_elem_of_list_to_map in Hk as Hk'.
  rewrite <-insert_union_l, insert_union_r by done. apply IH; [done| |].
  { intros k' v' Hin. rewrite lookup_insert_ne.
    - eapply Hu. by right.
    - intros <-. apply Hk. by apply (list_elem_of_fmap_2 fst _ (k, v')). }
  destruct Ho as (o & Ho & H1 & H2). unfold ops_for, add_update. simpl.
  destruct (decide (getShard k = i)) as [<-|Hne].
  - eexists. rewrite list_lookup_alter_eq, Ho. split; [done|]. simpl. split; [|done].
    intros k'. destruct (decide (k = k')) as [->|].
    + rewrite !lookup_insert_eq. by rewrite decide_True.
    + rewrite !lookup_insert_ne by done. apply H1.
  - exists o. rewrite list_lookup_alter_ne by done. split; [done|]. split; [|done].
    intros k'. rewrite H1. case_decide; [|done]. rewrite lookup_insert_ne; [done|].
    intros ->. done.
Qed.

Lemma distribute_deletions i ops u d ks :
  ops_for i ops u d → ops_for i (foldl add_deletion ops ks) u (d ++ ks).
Proof.
  revert ops d. induction ks as [|k ks IH]; intros ops d Ho; simpl.
  { by rewrite app_nil_r. }
  replace (d ++ k :: ks) with ((d ++ [k]) ++ ks) by by rewrite <-app_assoc.
  apply IH. destruct Ho as (o & Ho & H1 & H2). unfold ops_for, add_deletion.
  destruct (decide (getShard k = i)) as [<-|Hne].
  - eexists. rewrite list_lookup_alter_eq, Ho. split; [done|]. simpl. split; [done|].
    intros k'. specialize (H2 k'). set_solver.
  - exists o. rewrite list_lookup_alter_ne by done. split; [done|]. split; [done|].
    intros k'. specialize (H2 k'). set_solver.
Qed.

Section batch.
Context (range_map : gmap bytes indexEntry → list (bytes * indexEntry)).
Context (range_perm : ∀ m, range_map m ≡ₚ map_to_list m).

Lemma range_NoDup m : NoDup (range_map m).*1.
Proof using range_perm. rewrite range_perm. apply NoDup_fst_map_to_list. Qed.

Lemma range_to_map m : list_to_map (range_map m) = m.
Proof using range_perm.
  rewrite <-(list_to_map_to_list m) at 2.
  apply list_to_map_proper; [apply range_NoDup|apply range_perm].
Qed.

Lemma apply_batch_spec sh o :
  apply_batch range_map sh o =
    (delete_all (bo_deletions o) (bo_updates o ∪ sh),
     Z.of_nat (size (delete_all (bo_deletions o) (bo_updates o ∪ sh))) - Z.of_nat (size sh)).
Proof using range_perm.
  unfold apply_batch. rewrite apply_updates_spec by apply range_NoDup.
  rewrite range_to_map, apply_deletions_spec. f_equal. lia.
Qed.

Lemma batch_ops_spec i u d : (i < numShards)%nat → ops_for i (batch_ops range_map u d) u d.
Proof using range_perm.
  intros Hi. unfold batch_ops. apply (distribute_deletions i _ u []).
  rewrite <-(range_to_map u) at 2. rewrite <-(map_union_empty (list_to_map _)).
  apply distribute_updates; [apply range_NoDup|by intros; apply lookup_empty|].
  exists (BatchOp ∅ []). split; [by apply lookup_replicate_2|]. simpl. split; [|set_solver].
  intros k. rewrite !lookup_empty. by case_decide.
Qed.

Lemma length_batch_ops u d : length (batch_ops range_map u d) = numShards.
Proof.
  unfold batch_ops.
  assert (∀ ks ops, length (foldl add_deletion ops ks) = length ops) as Hd.
  { induction ks as [|k ks IH]; intros ops; simpl; [done|].
    rewrite IH. apply length_alter. }
  assert (∀ l ops, length (foldl add_update ops l) = length ops) as Hu.
  { induction l as [|k l IH]; intros ops; simpl; [done|]. rewrite IH. apply length_alter. }
  rewrite Hd, Hu. apply length_replicate.
Qed.
End batch.

Section batch_refinement.
Context (range_map : gmap bytes indexEntry → list (bytes * indexEntry)).
Context (range_perm : ∀ m, range_map m ≡ₚ map_to_list m).
Context (si : shardedIndex) (Hwf : si_wf si).
Context (u : gmap bytes indexEntry) (d : list bytes).

Let si' := si_UpdateBatch range_map si u d.

Lemma batch_shard i sh' :
  si_shards si' !! i = Some sh' →
  ∃ sh, si_shards si !! i = Some sh ∧
    ∀ k, sh' !! k = if decide (k ∈ d ∧ getShard k = i) then None
                    else (if decide (getShard k = i) then u !! k else None) ∪ sh !! k.
Proof using range_perm Hwf.
  intros Hi. subst si'. unfold si_UpdateBatch in Hi. simpl in Hi.
  apply list_lookup_fmap_Some in Hi as ([sh2 z] & -> & Hi). simpl.
  apply lookup_zip_with_Some in Hi as (sh & o & Heq & Hsh & Ho).
  rewrite apply_batch_spec in Heq by done. simplify_eq.
  exists sh. split; [done|]. intros k.
  destruct (batch_ops_spec range_map range_perm i u d) as (o' & Ho' & H1 & H2).
  { rewrite <-(si_wf_len _ Hwf). by eapply lookup_lt_Some. }
  simplify_eq. rewrite delete_all_lookup, lookup_union, H1.
  specialize (H2 k). repeat case_decide; naive_solver.
Qed.

Lemma batch_homed : homed (si_shards si').
Proof using range_perm Hwf.
  intros i sh' k Hi [v Hk]. destruct (batch_shard i sh' Hi) as (sh & Hsh & Heq).
  rewrite Heq in Hk. case_decide; [done|].
  case_decide as E; [done|]. rewrite (left_id_L None (∪)) in Hk.
  eapply si_wf_home; eauto.
Qed.

Lemma batch_len : length (si_shards si') = numShards.
Proof using Hwf.
  subst si'. unfold si_UpdateBatch. simpl.
  rewrite length_fmap, length_zip_with. rewrite (length_batch_ops range_map), (si_wf_len _ Hwf). lia.
Qed.

Lemma batch_sum (l : list shard) (ops : list batchOp) :
  length l = length ops →
  shards_size (zip_with (apply_batch range_map) l ops).*1 =
  shards_size l + foldr Z.add 0 (zip_with (apply_batch range_map) l ops).*2.
Proof using range_perm.
  revert ops. induction l as [|sh l IH]; intros [|o ops] Hl; csimpl in *; try done.
  rewrite IH by lia. rewrite apply_batch_spec by done. csimpl. lia.
Qed.

Lemma si_UpdateBatch_wf : si_wf si'.
Proof using range_perm Hwf.
  split; [apply batch_len|apply batch_homed|].
  subst si'. unfold si_UpdateBatch. simpl.
  rewrite batch_sum, (si_wf_count _ Hwf); [done|].
  by rewrite (length_batch_ops range_map), (si_wf_len _ Hwf).
Qed.

Lemma si_UpdateBatch_lookup k :
  si_map si' !! k = if decide (k ∈ d) then None else (u ∪ si_map si) !! k.
Proof using range_perm Hwf.
  destruct (lookup_lt_is_Some_2 (si_shards si') (getShard k)) as [sh' Hsh'].
  { rewrite batch_len. apply getShard_lt. }
  unfold si_map at 1. rewrite (lookup_homed _ k sh' batch_homed Hsh').
  destruct (batch_shard _ _ Hsh') as (sh & Hsh & ->).
  rewrite lookup_union.
  rewrite <-(lookup_homed _ k sh (si_wf_home _ Hwf) Hsh : si_map si !! k = _).
  rewrite (decide_True (P := getShard k = getShard k)) by done.
  repeat case_decide; naive_solver.
Qed.
End batch_refinement.

(** ** The index refines a map, for every sequence of operations *)

Inductive index_op :=
| OpPut (k : bytes) (e : indexEntry)
| OpDelete (k : bytes)
| OpUpdateBatch (u : gmap bytes indexEntry) (d : list bytes).

Definition si_step range_map (si : shardedIndex) (o : index_op) : shardedIndex :=
  match o with
  | OpPut k e => si_Put si k e
  | OpDelete k => (si_Delete si k).1
  | OpUpdateBatch u d => si_UpdateBatch range_map si u d
  end.

(** The specification: one map. *)
Definition map_step (m : gmap bytes indexEntry) (o : index_op) : gmap bytes indexEntry :=
  match o with
  | OpPut k e => <[k := e]> m
  | OpDelete k => delete k m
  | OpUpdateBatch u d => filter (λ kv, kv.1 ∉ d) (u ∪ m)
  end.

Lemma si_step_refines range_map si o :
  (∀ m, range_map m ≡ₚ map_to_list m) → si_wf si →
  si_wf (si_step range_map si o) ∧
  si_map (si_step range_map si o) = map_step (si_map si) o.
Proof.
  intros Hr Hwf. destruct o as [k e|k|u d]; simpl.
  - split; [by apply si_Put_wf|by apply si_Put_map].
  - split; [by apply si_Delete_wf|by apply si_Delete_map].
  - split; [by apply si_UpdateBatch_wf|]. apply map_eq. intros k.
    rewrite si_UpdateBatch_lookup by done. rewrite map_lookup_filter.
    destruct (decide (k ∈ d)); destruct ((u ∪ si_map si) !! k); simpl; try done;
      (rewrite option_guard_True by done) || (rewrite option_guard_False by naive_solver); done.
Qed.

(** C25: from an empty index, after any sequence of [Put], [Delete] and
    [UpdateBatch], every [Get] answers as one flat map would, and [Count] is the
    number of keys of that map, whatever order Go's map iteration takes. *)
Theorem sharded_index_refines_map
    (range_map : gmap bytes indexEntry → list (bytes * indexEntry))
    (ops : list index_op) (k : bytes) :
  (∀ m, range_map m ≡ₚ map_to_list m) →
  let si := foldl (si_step range_map) newShardedIndex ops in
  let m := foldl map_step ∅ ops in
  si_Get si k = m !! k ∧ si_Count si = Z.of_nat (size m).
Proof.
  intros Hr.
  assert (∀ ops si, si_wf si →
    si_wf (foldl (si_step range_map) si ops) ∧
    si_map (foldl (si_step range_map) si ops) = foldl map_step (si_map si) ops) as H.
  { clear ops. induction ops as [|o ops IH]; intros si Hwf; [done|]. simpl.
    destruct (si_step_refines range_map si o Hr Hwf) as [Hwf' <-]. by apply IH. }
  destruct (H ops _ newShardedIndex_wf) as [Hwf Hm].
  rewrite newShardedIndex_map in Hm. simpl.
  rewrite si_Get_map, si_Count_size, Hm by done. done.
Qed.

Lemma sharded_index_refines_map_witness :
  let e := IndexEntry 1 0 25 7 in
  let ops := [OpPut [1] e; OpPut [2] e; OpUpdateBatch {[ [2] := IndexEntry 9 0 25 8 ]} [[1]]] in
  si_Get (foldl (si_step map_to_list) newShardedIndex ops) [2] = Some (IndexEntry 9 0 25 8) ∧
  si_Count (foldl (si_step map_to_list) newShardedIndex ops) = 1.
Proof.
  intros e ops.
  destruct (sharded_index_refines_map map_to_list ops [2] (λ m, reflexivity _)) as [H1 H2].
  split; [rewrite H1|rewrite H2]; reflexivity.
Defined.
