(* ===== verification/HashSegment.v ===== *)
(** Segments of the hash engine ([src/hashindex/segment.go]): append-only files of
    checksummed records with reference-counted handles. *)
From S2P Require Import Prelude GoLib.
From stdpp Require Import base gmap list strings numbers sorting.

Open Scope Z_scope.

(** [headerSize = 4 + 8 + 4 + 4]: crc, timestamp, key size, value size. *)
Definition headerSize : Z := 4 + 8 + 4 + 4.

(** The handle of a segment.  [seg_open] says that the [file] pointer is not nil;
    the bytes of the file are passed beside the handle, because they outlive it. *)
Record segment := Segment {
  seg_id : Z;
  seg_open : bool;
  seg_size : Z;
  seg_closed : bool;
  seg_refCount : Z;
}.

Definition newSegment (id : Z) : segment := Segment id true 0 false 1.

Definition segment_closeFile (s : segment) : segment :=
  if seg_closed s then s
  else Segment (seg_id s) false (seg_size s) true (seg_refCount s).

Definition segment_acquire (s : segment) : segment * bool :=
  if seg_closed s then (s, false)
  else (Segment (seg_id s) (seg_open s) (seg_size s) (seg_closed s) (seg_refCount s + 1), true).

Definition segment_release (s : segment) : segment :=
  let s := Segment (seg_id s) (seg_open s) (seg_size s) (seg_closed s) (seg_refCount s - 1) in
  if seg_refCount s <=? 0 then segment_closeFile s else s.

Definition segment_close (s : segment) : segment := segment_release s.

Definition segment_Size (s : segment) : Z := seg_size s.

(** The bytes the checksum covers: timestamp, sizes, key and value. *)
Definition crc_data (timestamp keySize valueSize : Z) (data : bytes) : bytes :=
  le_put 8 timestamp ++ le_put 4 keySize ++ le_put 4 valueSize ++ data.

(** The bytes [append] writes for one record. *)
Definition encode_record (timestamp : Z) (key value : bytes) : bytes :=
  let keySize := u32 (len key) in
  let valueSize := u32 (len value) in
  let crc := ChecksumIEEE (crc_data (u64 timestamp) keySize valueSize (key ++ value)) in
  le_put 4 crc ++ le_put 8 (u64 timestamp) ++ le_put 4 keySize ++ le_put 4 valueSize
    ++ key ++ value.

(** [append]: [f] is the content of the file, opened with [O_APPEND]; the result is
    the handle, the file and (offset, record size). *)
Definition segment_append (timestamp : Z) (s : segment) (f : bytes) (key value : bytes)
    : segment * bytes * res (Z * Z) :=
  if seg_closed s then (s, f, Err (Errorf "segment closed"))
  else if negb (seg_open s) then (s, f, Err (Errorf "segment file closed"))
  else
    let recordSize := headerSize + len key + len value in
    let offset := seg_size s in
    let f := f ++ encode_record timestamp key value in
    (Segment (seg_id s) (seg_open s) (seg_size s + recordSize) (seg_closed s) (seg_refCount s),
     f, Ok (offset, i32 recordSize)).

(** The header of a record: crc, timestamp, key size, value size. *)
Definition parse_header (header : bytes) : Z * Z * Z * Z :=
  (le_u32 (slice 0 4 header), le_u64 (slice 4 12 header),
   le_u32 (slice 12 16 header), le_u32 (slice 16 20 header)).

(** [read]: the value of the record at [offset].  The handle is acquired before and
    released after the read. *)
Definition read_value (f : bytes) (offset : Z) : res bytes :=
  let '(header, err) := ReadAt f headerSize offset in
  match err with
  | Some e => Err e
  | None =>
      let '(crcStored, timestamp, keySize, valueSize) := parse_header header in
      let '(data, err) := ReadAt f (u32 (keySize + valueSize)) (offset + headerSize) in
      match err with
      | Some e => Err e
      | None =>
          let crcCalculated := ChecksumIEEE (crc_data timestamp keySize valueSize data) in
          if negb (crcCalculated =? crcStored) then Err (Errorf "CRC mismatch")
          else if len data <? keySize then Panic
          else Ok (slice_from keySize data)
      end
  end.

Definition segment_read (s : segment) (f : bytes) (offset : Z) : segment * res bytes :=
  let '(s, ok) := segment_acquire s in
  if negb ok then (s, Err (Errorf "segment closed"))
  else if negb (seg_open s) then (segment_release s, Err (Errorf "segment file closed"))
  else (segment_release s, read_value f offset).

(** [readRecord]: key, value and the offset of the next record. *)
Definition read_record (f : bytes) (offset : Z) : res (bytes * bytes * Z) :=
  let '(header, err) := ReadAt f headerSize offset in
  match err with
  | Some e =>
      if bool_decide (e = EOF) && (len header =? 0) then Err EOF else Err e
  | None =>
      let '(crcStored, timestamp, keySize, valueSize) := parse_header header in
      let '(data, err) := ReadAt f (u32 (keySize + valueSize)) (offset + headerSize) in
      match err with
      | Some e => Err e
      | None =>
          let crcCalculated := ChecksumIEEE (crc_data timestamp keySize valueSize data) in
          if negb (crcCalculated =? crcStored) then Err (Errorf "CRC mismatch")
          else if len data <? keySize then Panic
          else Ok (slice_to keySize data, slice_from keySize data,
                   offset + headerSize + keySize + valueSize)
      end
  end.

Definition segment_readRecord (s : segment) (f : bytes) (offset : Z)
    : segment * res (bytes * bytes * Z) :=
  let '(s, ok) := segment_acquire s in
  if negb ok then (s, Err (Errorf "segment closed"))
  else if negb (seg_open s) then (segment_release s, Err (Errorf "segment file closed"))
  else (segment_release s, read_record f offset).

Definition segment_sync (s : segment) : res unit :=
  if negb (seg_open s) then Err (Errorf "segment file closed") else Ok tt.

(** ** Records in a file *)

(** The sizes for which a record can be written and read back: its total size is
    an [int32]. *)
Definition record_ok (key value : bytes) : Prop := headerSize + len key + len value < 2 ^ 31.

Lemma len_encode_record ts k v : len (encode_record ts k v) = headerSize + len k + len v.
Proof. unfold encode_record, headerSize. len_solve. Qed.

Lemma len_crc_data ts ks vs d : len (crc_data ts ks vs d) = 16 + len d.
Proof. unfold crc_data. len_solve. Qed.

(** A usable handle: not closed, file open, at least one reference held. *)
Definition seg_live (s : segment) : Prop :=
  seg_closed s = false ∧ seg_open s = true ∧ 1 ≤ seg_refCount s.

Lemma acquire_release s :
  seg_live s → ∃ s', segment_acquire s = (s', true) ∧ seg_open s' = true ∧ segment_release s' = s.
Proof.
  intros (Hc & Ho & Hr). unfold segment_acquire. rewrite Hc. eexists. split; [done|].
  split; [done|]. unfold segment_release. simpl.
  destruct (Z.leb_spec (seg_refCount s + 1 - 1) 0); [lia|].
  destruct s; simpl in *; subst. f_equal. lia.
Qed.

Section record_at.
Context (pre post : bytes) (ts : Z) (k v : bytes) (Hok : record_ok k v).

Let f := pre ++ encode_record ts k v ++ post.
Let header :=
  le_put 4 (ChecksumIEEE (crc_data (u64 ts) (len k) (len v) (k ++ v)))
    ++ le_put 8 (u64 ts) ++ le_put 4 (len k) ++ le_put 4 (len v).

Lemma record_sizes : 0 ≤ len k < 2 ^ 31 ∧ 0 ≤ len v < 2 ^ 31 ∧ len k + len v < 2 ^ 31.
Proof using Hok.
  unfold record_ok, headerSize in Hok.
  pose proof (len_nonneg k). pose proof (len_nonneg v). lia.
Qed.

Lemma record_split : encode_record ts k v = header ++ k ++ v.
Proof using Hok.
  destruct record_sizes as (? & ? & ?). unfold encode_record, header.
  rewrite !u32_small by lia. by rewrite <-!app_assoc.
Qed.

Lemma header_parses :
  parse_header header =
    (ChecksumIEEE (crc_data (u64 ts) (len k) (len v) (k ++ v)), u64 ts, len k, len v).
Proof using Hok.
  destruct record_sizes as (? & ? & ?). unfold parse_header, header.
  pose proof (ChecksumIEEE_range (crc_data (u64 ts) (len k) (len v) (k ++ v))) as Hcrc.
  revert Hcrc. generalize (ChecksumIEEE (crc_data (u64 ts) (len k) (len v) (k ++ v))).
  intros crc Hcrc.
  rewrite (slice_pre 4 (le_put 4 crc)) by len_solve.
  rewrite (slice_mid 4 12 (le_put 4 crc) (le_put 8 _)) by len_solve.
  rewrite (app_assoc (le_put 4 crc)), (slice_mid 12 16 _ (le_put 4 (len k))) by len_solve.
  rewrite (app_assoc _ (le_put 4 (len k))), (slice_post 16 20) by len_solve.
  rewrite !le_u32_enc, le_u64_enc; auto using u64_range; lia.
Qed.

Lemma read_header_at : ReadAt f headerSize (len pre) = (header, None).
Proof using Hok.
  unfold f. rewrite record_split, <-app_assoc. apply ReadAt_mid; [done|].
  unfold header, headerSize. len_solve.
Qed.

Lemma read_data_at :
  ReadAt f (u32 (len k + len v)) (len pre + headerSize) = (k ++ v, None).
Proof using Hok.
  destruct record_sizes as (? & ? & ?). rewrite u32_small by lia.
  unfold f. rewrite record_split, <-(app_assoc header), (app_assoc pre).
  apply ReadAt_mid; unfold header, headerSize; len_solve.
Qed.

Lemma read_value_at : read_value f (len pre) = Ok v.
Proof using Hok.
  unfold read_value. rewrite read_header_at, header_parses, read_data_at, Z.eqb_refl.
  simpl. destruct (Z.ltb_spec (len (k ++ v)) (len k)); [len_solve|].
  f_equal. by apply slice_from_app.
Qed.

Lemma read_record_at :
  read_record f (len pre) = Ok (k, v, len pre + len (encode_record ts k v)).
Proof using Hok.
  unfold read_record. rewrite read_header_at, header_parses, read_data_at, Z.eqb_refl.
  simpl. destruct (Z.ltb_spec (len (k ++ v)) (len k)); [len_solve|].
  rewrite slice_to_app, slice_from_app, len_encode_record by done.
  f_equal. f_equal. lia.
Qed.
End record_at.

(** ** A file is a sequence of records *)

(** A record as written: timestamp, key, value. *)
Abbreviation rec := (Z * bytes * bytes)%type.
Definition rec_key (r : rec) : bytes := r.1.2.
Definition rec_value (r : rec) : bytes := r.2.
Definition rec_bytes (r : rec) : bytes := encode_record r.1.1 (rec_key r) (rec_value r).
Definition rec_ok (r : rec) : Prop := record_ok (rec_key r) (rec_value r).
Definition file_of (rs : list rec) : bytes := concat (rec_bytes <$> rs).

Lemma file_of_app a b : file_of (a ++ b) = file_of a ++ file_of b.
Proof. unfold file_of. by rewrite fmap_app, concat_app. Qed.

Lemma file_of_cons r b : file_of (r :: b) = rec_bytes r ++ file_of b.
Proof. done. Qed.

Lemma len_rec_bytes r : len (rec_bytes r) = headerSize + len (rec_key r) + len (rec_value r).
Proof. apply len_encode_record. Qed.

Lemma len_rec_bytes_ge r : headerSize ≤ len (rec_bytes r).
Proof.
  rewrite len_rec_bytes. pose proof (len_nonneg (rec_key r)).
  pose proof (len_nonneg (rec_value r)). lia.
Qed.

Lemma read_record_mid pre r post :
  rec_ok r →
  read_record (pre ++ rec_bytes r ++ post) (len pre) =
    Ok (rec_key r, rec_value r, len pre + len (rec_bytes r)).
Proof. intros Hok. by apply read_record_at. Qed.

Lemma read_value_mid pre r post :
  rec_ok r → read_value (pre ++ rec_bytes r ++ post) (len pre) = Ok (rec_value r).
Proof. intros Hok. by apply read_value_at. Qed.

(** ** Appending keeps what was readable *)

Lemma ReadAt_app f g n off b : ReadAt f n off = (b, None) → ReadAt (f ++ g) n off = (b, None).
Proof.
  unfold ReadAt. destruct (Z.ltb_spec (len (take (Z.to_nat n) (drop (Z.to_nat off) f))) n);
    [done|]. intros [= <-].
  destruct (decide (Z.to_nat off ≤ length f)%nat) as [Ho|Ho].
  - rewrite drop_app_le by done. rewrite take_app_le by len_solve.
    by destruct (Z.ltb_spec (len (take (Z.to_nat n) (drop (Z.to_nat off) f))) n); [lia|].
  - rewrite (drop_ge f) in * by lia. rewrite take_nil in *.
    assert (Z.to_nat n = 0%nat) as -> by len_solve. rewrite !take_0. simpl.
    case_cmp; [len_solve|done].
Qed.

Lemma read_value_app f g off v : read_value f off = Ok v → read_value (f ++ g) off = Ok v.
Proof.
  unfold read_value. destruct (ReadAt f headerSize off) as [h [e|]] eqn:E1; [done|].
  rewrite (ReadAt_app _ g _ _ _ E1). destruct (parse_header h) as [[[c t] ks] vs].
  destruct (ReadAt f (u32 (ks + vs)) (off + headerSize)) as [d [e|]] eqn:E2; [done|].
  by rewrite (ReadAt_app _ g _ _ _ E2).
Qed.

(** ** A torn record *)

(** A strict prefix of a record is read as [io.EOF], never as a corruption. *)
Lemma torn_record_is_eof pre r n :
  rec_ok r → (n < length (rec_bytes r))%nat →
  read_record (pre ++ take n (rec_bytes r)) (len pre) = Err EOF.
Proof.
  intros Hok Hn. destruct r as [[ts k] v].
  change (rec_bytes (ts, k, v)) with (encode_record ts k v) in *.
  unfold rec_ok in Hok. simpl in Hok. pose proof (len_encode_record ts k v) as Hlen.
  unfold read_record. destruct (decide (n < 20)%nat) as [Hs|Hs].
  - pose proof (ReadAt_short (pre ++ take n (encode_record ts k v)) headerSize (len pre)) as H.
    destruct (ReadAt _ _ _) as [h e]. simpl in H. rewrite H.
    + simpl. by destruct (len h =? 0).
    + unfold headerSize. len_solve.
    + apply len_nonneg.
    + done.
  - rewrite record_split in * by done. set (hd := _ ++ _ ++ _ ++ _) in *.
    assert (Hhd : length hd = 20%nat) by (subst hd; len_solve).
    rewrite take_app_ge by lia.
    rewrite (ReadAt_mid pre hd) by (unfold headerSize; len_solve).
    rewrite (header_parses ts k v Hok : parse_header hd = _).
    destruct (record_sizes k v Hok) as (? & ? & ?). rewrite u32_small by lia.
    pose proof (ReadAt_short (pre ++ hd ++ take (n - length hd) (k ++ v))
                  (len k + len v) (len pre + headerSize)) as H2.
    destruct (ReadAt _ (len k + len v) _) as [d e]. simpl in H2. rewrite H2; [done|..].
    + unfold headerSize. len_solve.
    + unfold headerSize. pose proof (len_nonneg pre). lia.
    + len_solve.
Qed.

(** C23: appending a record whose total size is an [int32] returns its offset (the old
    file length) and size; reading at that offset gives back the value, and the record
    reader gives back key, value and the new end of the file; everything readable before
    stays readable.  The handle keeps its reference count. *)
Theorem segment_append_read ts s f k v
    (Hs : seg_live s) (Hsz : seg_size s = len f) (Hok : record_ok k v) :
  let '(s', f', r) := segment_append ts s f k v in
  r = Ok (len f, headerSize + len k + len v) ∧
  segment_read s' f' (len f) = (s', Ok v) ∧
  segment_readRecord s' f' (len f) = (s', Ok (k, v, len f')) ∧
  seg_size s' = len f' ∧ seg_live s' ∧
  (∀ off v0, read_value f off = Ok v0 → read_value f' off = Ok v0).
Proof.
  destruct Hs as (Hc & Ho & Hr). unfold segment_append. rewrite Hc, Ho. simpl.
  set (s' := Segment _ _ _ _ _). set (f' := f ++ _).
  assert (Hl : seg_live s') by done.
  assert (Hf' : f' = f ++ rec_bytes (ts, k, v) ++ []) by (by rewrite app_nil_r).
  destruct (record_sizes k v Hok) as (? & ? & ?). unfold record_ok in Hok.
  destruct (acquire_release s' Hl) as (s1 & Ha & Ho1 & Hrel).
  split; [rewrite Hsz, i32_small by (unfold headerSize in *; lia); done|].
  unfold segment_read, segment_readRecord. rewrite Ha, Ho1, Hrel. simpl. rewrite Hf'.
  split; [by rewrite read_value_mid|]. split.
  - rewrite read_record_mid by done. do 3 f_equal. by rewrite app_nil_r, len_app.
  - split; [|split; [done|]].
    + rewrite app_nil_r, len_app, len_rec_bytes, <-Hsz. done.
    + intros off v0. apply read_value_app.
Qed.

Lemma segment_append_read_witness :
  seg_live (newSegment 4) ∧
  let '(s', f', r) := segment_append 77 (newSegment 4) [] [1; 2] [3] in
  r = Ok (0, 23) ∧ segment_read s' f' 0 = (s', Ok [3]).
Proof.
  split; [done|].
  pose proof (segment_append_read 77 (newSegment 4) [] [1; 2] [3]) as H.
  destruct (segment_append 77 (newSegment 4) [] [1; 2] [3]) as [[s' f'] r].
  destruct H as (Hr & Hv & _); [done|done|done|]. split; [exact Hr|exact Hv].
Defined.
