(* ===== verification/HashIndex.v ===== *)
(** The hash engine ([src/hashindex/hashindex.go]): its state, and every operation that
    reads or changes it. *)
From S2P Require Import Prelude GoLib Common HashShard HashSegment.
From stdpp Require Import base gmap list strings numbers sorting.

Open Scope Z_scope.

Record Config := MkConfig {
  cfg_DataDir : string;
  cfg_SegmentSizeBytes : Z;
  cfg_MaxSegments : Z;
  cfg_SyncOnWrite : bool;
}.

Definition DefaultConfig (dataDir : string) : Config :=
  MkConfig dataDir (4 * 1024 * 1024) 4 false.

Record Counters := MkCounters {
  writeCount : Z;
  readCount : Z;
  compactCount : Z;
  bytesWritten : Z;
  bytesWrittenToDisk : Z;
  bytesRead : Z;
}.

(** The state of an open engine.  Segment pointers are segment ids: [h_segs] is the
    heap of segment handles, [h_active] and [h_segments] hold pointers into it.
    [h_inodes] holds the bytes of the files and [h_dir] the ids whose file name
    [<id>.seg] is in the data directory ([os.Remove] unlinks the name only).
    [h_compactChan] says whether the one-place compaction channel is full, and
    [h_clock] counts the calls to [time.Now]. *)
Record HashIndex := MkHashIndex {
  h_config : Config;
  h_index : shardedIndex;
  h_active : option Z;
  h_segments : list Z;
  h_segs : gmap Z segment;
  h_inodes : gmap Z bytes;
  h_dir : gset Z;
  h_compactChan : bool;
  h_stats : Counters;
  h_closed : bool;
  h_clock : nat;
}.

Definition set_index (i : shardedIndex) (h : HashIndex) : HashIndex :=
  MkHashIndex (h_config h) i (h_active h) (h_segments h) (h_segs h) (h_inodes h) (h_dir h)
    (h_compactChan h) (h_stats h) (h_closed h) (h_clock h).
Definition set_active (a : option Z) (h : HashIndex) : HashIndex :=
  MkHashIndex (h_config h) (h_index h) a (h_segments h) (h_segs h) (h_inodes h) (h_dir h)
    (h_compactChan h) (h_stats h) (h_closed h) (h_clock h).
Definition set_segments (l : list Z) (h : HashIndex) : HashIndex :=
  MkHashIndex (h_config h) (h_index h) (h_active h) l (h_segs h) (h_inodes h) (h_dir h)
    (h_compactChan h) (h_stats h) (h_closed h) (h_clock h).
Definition set_segs (m : gmap Z segment) (h : HashIndex) : HashIndex :=
  MkHashIndex (h_config h) (h_index h) (h_active h) (h_segments h) m (h_inodes h) (h_dir h)
    (h_compactChan h) (h_stats h) (h_closed h) (h_clock h).
Definition set_inodes (m : gmap Z bytes) (h : HashIndex) : HashIndex :=
  MkHashIndex (h_config h) (h_index h) (h_active h) (h_segments h) (h_segs h) m (h_dir h)
    (h_compactChan h) (h_stats h) (h_closed h) (h_clock h).
Definition set_dir (d : gset Z) (h : HashIndex) : HashIndex :=
  MkHashIndex (h_config h) (h_index h) (h_active h) (h_segments h) (h_segs h) (h_inodes h) d
    (h_compactChan h) (h_stats h) (h_closed h) (h_clock h).
Definition set_compactChan (b : bool) (h : HashIndex) : HashIndex :=
  MkHashIndex (h_config h) (h_index h) (h_active h) (h_segments h) (h_segs h) (h_inodes h)
    (h_dir h) b (h_stats h) (h_closed h) (h_clock h).
Definition set_stats (c : Counters) (h : HashIndex) : HashIndex :=
  MkHashIndex (h_config h) (h_index h) (h_active h) (h_segments h) (h_segs h) (h_inodes h)
    (h_dir h) (h_compactChan h) c (h_closed h) (h_clock h).
Definition set_closed (b : bool) (h : HashIndex) : HashIndex :=
  MkHashIndex (h_config h) (h_index h) (h_active h) (h_segments h) (h_segs h) (h_inodes h)
    (h_dir h) (h_compactChan h) (h_stats h) b (h_clock h).
Definition set_clock (n : nat) (h : HashIndex) : HashIndex :=
  MkHashIndex (h_config h) (h_index h) (h_active h) (h_segments h) (h_segs h) (h_inodes h)
    (h_dir h) (h_compactChan h) (h_stats h) (h_closed h) n.

(** A handle operation on the segment a pointer designates. *)
Definition update_seg (p : Z) (g : segment → segment) (h : HashIndex) : HashIndex :=
  set_segs (alter g p (h_segs h)) h.

(** The size a pointer's segment reports; [None] is a nil pointer. *)
Definition seg_Size_at (h : HashIndex) (p : option Z) : option Z :=
  p ≫= λ p, segment_Size <$> h_segs h !! p.

Section engine.
(** [time_at n] is what the [n]-th call to [time.Now] returns, in nanoseconds. *)
Context (time_at : nat → Z).

(** [time.Now().UnixNano()] and [time.Now().Unix()]. *)
Definition unix_nano (h : HashIndex) : Z * HashIndex :=
  (time_at (h_clock h), set_clock (S (h_clock h)) h).
Definition unix (h : HashIndex) : Z * HashIndex :=
  (time_at (h_clock h) / 10 ^ 9, set_clock (S (h_clock h)) h).

Definition createSegment (h : HashIndex) : Z * HashIndex :=
  let '(segmentID, h) := unix_nano h in
  let h := set_inodes (<[segmentID := default [] (h_inodes h !! segmentID)]> (h_inodes h)) h in
  let h := set_dir ({[segmentID]} ∪ h_dir h) h in
  (segmentID, set_segs (<[segmentID := newSegment segmentID]> (h_segs h)) h).

(** [seg.append(key, value)] through the pointer [p]. *)
Definition append_to (h : HashIndex) (p : Z) (key value : bytes) : HashIndex * res (Z * Z) :=
  match h_segs h !! p, h_inodes h !! p with
  | Some s, Some f =>
      let '(now, h) := unix h in
      let '(s, f, r) := segment_append now s f key value in
      (set_inodes (<[p := f]> (h_inodes h)) (set_segs (<[p := s]> (h_segs h)) h), r)
  | _, _ => (h, Panic)
  end.

(** The bookkeeping after a successful append: index entry, counters.  The [sync]
    that [SyncOnWrite] asks for discards its result and leaves the contents alone. *)
Definition record_write (h : HashIndex) (p : Z) (key value : bytes) (offset recordSize : Z)
    : HashIndex :=
  let '(now, h) := unix h in
  let h := set_index (si_Put (h_index h) key (IndexEntry p offset recordSize now)) h in
  let c := h_stats h in
  set_stats (MkCounters (writeCount c + 1) (readCount c) (compactCount c)
               (bytesWritten c + (len key + len value)) (bytesWrittenToDisk c + recordSize)
               (bytesRead c)) h.

Definition rotateSegment (h : HashIndex) : HashIndex * res unit :=
  match h_active h with
  | None => (h, Err (Errorf "no active segment"))
  | Some p =>
      match h_segs h !! p with
      | None => (h, Panic)
      | Some s =>
          match segment_sync s with
          | Err e => (h, Err e)
          | Panic => (h, Panic)
          | Ok _ =>
              let h := set_segments (h_segments h ++ [p]) h in
              let '(newSeg, h) := createSegment h in
              (set_active (Some newSeg) h, Ok tt)
          end
      end
  end.

(** The total size of the key and value bytes the index refers to. *)
Definition getLogicalSize (h : HashIndex) : Z :=
  foldr Z.add 0
    ((λ sh : shard, foldr Z.add 0
        ((λ ke : bytes * indexEntry, ie_size ke.2 - headerSize) <$> map_to_list sh))
       <$> si_shards (h_index h)).

Definition disk_size (h : HashIndex) (l : list Z) : Z :=
  foldr Z.add 0 ((λ p, default 0 (seg_Size_at h (Some p))) <$> l).

(** The compaction trigger at the end of [putWithRotation]; the [float64] test
    [disk/logical > 3.0] is the integer comparison of the products. *)
Definition shouldCompact (h : HashIndex) : bool :=
  let n := len (h_segments h) in
  if cfg_MaxSegments (h_config h) <=? n then true
  else if 2 <=? n then
    let logicalSize := getLogicalSize h in
    let diskSize := disk_size h (h_segments h) + default 0 (seg_Size_at h (h_active h)) in
    (0 <? logicalSize) && (3 * logicalSize <? diskSize)
  else false.

(** The active segment, when it exists and has room. *)
Definition active_with_room (h : HashIndex) : option Z :=
  p ← h_active h;
  s ← h_segs h !! p;
  if segment_Size s <? cfg_SegmentSizeBytes (h_config h) then Some p else None.

Definition putWithRotation (h : HashIndex) (key value : bytes) : HashIndex * res unit :=
  match active_with_room h with
  | Some p =>
      match append_to h p key value with
      | (h, Ok (offset, recordSize)) => (record_write h p key value offset recordSize, Ok tt)
      | (h, Err e) => (h, Err e)
      | (h, Panic) => (h, Panic)
      end
  | None =>
      match rotateSegment h with
      | (h, Err e) => (h, Err e)
      | (h, Panic) => (h, Panic)
      | (h, Ok _) =>
          match h_active h with
          | None => (h, Panic)
          | Some p =>
              match append_to h p key value with
              | (h, Err e) => (h, Err e)
              | (h, Panic) => (h, Panic)
              | (h, Ok (offset, recordSize)) =>
                  let h := record_write h p key value offset recordSize in
                  (if shouldCompact h then set_compactChan true h else h, Ok tt)
              end
          end
      end
  end.

Definition Put (h : HashIndex) (key value : bytes) : HashIndex * res unit :=
  if len key =? 0 then (h, Err ErrKeyEmpty)
  else if h_closed h then (h, Err ErrClosed)
  else
    match active_with_room h with
    | Some p =>
        match append_to h p key value with
        | (h, Ok (offset, recordSize)) => (record_write h p key value offset recordSize, Ok tt)
        | (h, Err _) => putWithRotation h key value
        | (h, Panic) => (h, Panic)
        end
    | None => putWithRotation h key value
    end.

Definition Delete (h : HashIndex) (key : bytes) : HashIndex * res unit := Put h key [].

(** The segment [Get] reads from: the active one or a member of the list. *)
Definition find_segment (h : HashIndex) (active segmentID : Z) : option Z :=
  if segmentID =? active then Some active
  else snd <$> list_find (λ p, p = segmentID) (h_segments h).

Definition Get (h : HashIndex) (key : bytes) : HashIndex * res bytes :=
  if h_closed h then (h, Err ErrClosed)
  else
    match si_Get (h_index h) key with
    | None => (h, Err ErrKeyNotFound)
    | Some entry =>
        match h_active h with
        | None => (h, Panic)
        | Some active =>
            match find_segment h active (ie_segmentID entry) with
            | None => (h, Err (Errorf "segment not found"))
            | Some p =>
                match h_segs h !! p, h_inodes h !! p with
                | Some s, Some f =>
                    let '(s, r) := segment_read s f (ie_offset entry) in
                    let h := set_segs (<[p := s]> (h_segs h)) h in
                    match r with
                    | Err e => (h, Err e)
                    | Panic => (h, Panic)
                    | Ok value =>
                        if len value =? 0 then (h, Err ErrKeyNotFound)
                        else
                          let c := h_stats h in
                          (set_stats (MkCounters (writeCount c) (readCount c + 1)
                             (compactCount c) (bytesWritten c) (bytesWrittenToDisk c)
                             (bytesRead c + len value)) h, Ok value)
                    end
                | _, _ => (h, Panic)
                end
            end
        end
    end.

Definition Close (h : HashIndex) : HashIndex * res unit :=
  if h_closed h then (h, Ok tt)
  else
    let h := set_closed true h in
    let h := match h_active h with Some p => update_seg p segment_close h | None => h end in
    (foldl (λ h p, update_seg p segment_close h) h (h_segments h), Ok tt).

Definition Sync (h : HashIndex) : res unit :=
  if h_closed h then Err ErrClosed
  else
    match h_active h with
    | Some p => match h_segs h !! p with Some s => segment_sync s | None => Panic end
    | None => Ok tt
    end.

(** [Stats]; each amplification is reported as the fraction whose [float64] quotient
    the code computes. *)
Definition HashIndex_Stats (h : HashIndex) : Stats :=
  let activeSegSize := default 0 (seg_Size_at h (h_active h)) in
  let totalDiskSize := activeSegSize + disk_size h (h_segments h) in
  let c := h_stats h in
  let logicalSize := getLogicalSize h in
  MkStats (si_Count (h_index h)) (len (h_segments h) + 1) activeSegSize totalDiskSize
    (writeCount c) (readCount c) (compactCount c)
    (if 0 <? bytesWritten c then (bytesWrittenToDisk c, bytesWritten c) else (1, 1))
    (if 0 <? logicalSize then (totalDiskSize, logicalSize) else (1, 1)).

Definition Compact (h : HashIndex) : HashIndex * res unit :=
  if h_closed h then (h, Err ErrClosed)
  else if h_compactChan h then (h, Err (Errorf "compaction already in progress"))
  else (set_compactChan true h, Ok tt).
End engine.

(** ** The logical log of the engine *)

(** Where a record is: segment, offset, size. *)
Abbreviation loc := (Z * Z * Z)%type.
Definition entry_loc (e : indexEntry) : loc := (ie_segmentID e, ie_offset e, ie_size e).

(** The records of one segment with their locations, oldest first. *)
Fixpoint entries_from (p off : Z) (rs : list rec) : list (bytes * (loc * bytes)) :=
  match rs with
  | [] => []
  | r :: rs =>
      (rec_key r, ((p, off, len (rec_bytes r)), rec_value r))
        :: entries_from p (off + len (rec_bytes r)) rs
  end.

(** The records of a list of segments; [G] gives the records of each segment. *)
Definition log_of (G : gmap Z (list rec)) (ps : list Z) : list (bytes * (loc * bytes)) :=
  ps ≫= λ p, entries_from p 0 (default [] (G !! p)).

(** The last entry for each key. *)
Definition latest {V} (l : list (bytes * V)) : gmap bytes V :=
  foldl (λ m kv, <[kv.1 := kv.2]> m) ∅ l.

Definition live (h : HashIndex) : list Z := h_segments h ++ option_list (h_active h).
Definition hlog (G : gmap Z (list rec)) (h : HashIndex) : list (bytes * (loc * bytes)) :=
  log_of G (live h).

(** A live segment: its handle is usable and its file holds its records. *)
Definition segment_holds (h : HashIndex) (p : Z) (rs : list rec) : Prop :=
  p ∈ h_dir h ∧ h_inodes h !! p = Some (file_of rs) ∧ Forall rec_ok rs ∧
  ∃ s, h_segs h !! p = Some s ∧ seg_live s ∧ seg_size s = len (file_of rs).

(** The invariant of an open engine. *)
Record hinv (time_at : nat → Z) (G : gmap Z (list rec)) (h : HashIndex) : Prop := {
  inv_open : h_closed h = false;
  inv_index : si_wf (h_index h);
  inv_active : is_Some (h_active h);
  inv_nodup : NoDup (live h);
  inv_live : ∀ p, p ∈ live h → ∃ rs, G !! p = Some rs ∧ segment_holds h p rs;
  inv_fresh_seg : ∀ p, is_Some (h_segs h !! p) → p < time_at (h_clock h);
  inv_fresh_inode : ∀ p, is_Some (h_inodes h !! p) → p < time_at (h_clock h);
}.

(** The engine stores [m]: a key is bound when its index entry locates a record
    with a non-empty value. *)
Definition visible (v : bytes) : option bytes := if decide (v = []) then None else Some v.

Definition represents (G : gmap Z (list rec)) (h : HashIndex) (m : gmap bytes bytes) : Prop :=
  ∀ k, match si_map (h_index h) !! k with
       | None => m !! k = None
       | Some e => ∃ v, (k, (entry_loc e, v)) ∈ hlog G h ∧ m !! k = visible v
       end.

(** The index entry of a key locates its value in a list of segments. *)
Definition located (G : gmap Z (list rec)) (ps : list Z) (h : HashIndex) (k : bytes) (o : option bytes) : Prop :=
  match si_map (h_index h) !! k with
  | None => o = None
  | Some e => ∃ v, (k, (entry_loc e, v)) ∈ log_of G ps ∧ o = visible v
  end.

(** The index locates the newest record of each key, the segments being listed
    from oldest to newest. *)
Definition ordered (G : gmap Z (list rec)) (h : HashIndex) : Prop :=
  ∀ k, entry_loc <$> si_map (h_index h) !! k = fst <$> latest (hlog G h) !! k.

(** The directory holds exactly the live segments, listed by increasing id. *)
Definition chrono (h : HashIndex) : Prop :=
  StronglySorted Z.lt (live h) ∧ h_dir h = list_to_set (live h).

(** *** Lemmas on logs *)

Lemma entries_from_app p off a b :
  entries_from p off (a ++ b) =
  entries_from p off a ++ entries_from p (off + len (file_of a)) b.
Proof.
  revert off. induction a as [|r a IH]; intros off; simpl.
  { f_equal. unfold file_of, len. simpl. lia. }
  rewrite IH. rewrite file_of_cons, len_app. do 3 f_equal. lia.
Qed.

Lemma entries_from_elem p off rs k q o sz v :
  (k, ((q, o, sz), v)) ∈ entries_from p off rs →
  q = p ∧ ∃ pre r post, rs = pre ++ r :: post ∧ rec_key r = k ∧ rec_value r = v ∧
    o = off + len (file_of pre) ∧ sz = len (rec_bytes r).
Proof.
  revert off. induction rs as [|r rs IH]; intros off Hin; simpl in *; [set_solver|].
  apply elem_of_cons in Hin as [Heq|Hin].
  - simplify_eq. split; [done|]. exists [], r, rs. unfold file_of, len. simpl. repeat split; lia.
  - destruct (IH _ Hin) as (-> & pre & r' & post & -> & ? & ? & ? & ?). split; [done|].
    exists (r :: pre), r', post. rewrite file_of_cons, len_app. repeat split; try done. lia.
Qed.

Lemma latest_snoc {V} (l : list (bytes * V)) kv : latest (l ++ [kv]) = <[kv.1 := kv.2]> (latest l).
Proof. unfold latest. by rewrite foldl_app. Qed.

Lemma latest_app_lookup {V} (a b : list (bytes * V)) k :
  latest (a ++ b) !! k = match latest b !! k with Some x => Some x | None => latest a !! k end.
Proof.
  induction b as [|[k' x] b IH] using rev_ind.
  { rewrite app_nil_r. done. }
  rewrite app_assoc, !latest_snoc. simpl. destruct (decide (k' = k)) as [->|].
  - by rewrite !lookup_insert_eq.
  - by rewrite !lookup_insert_ne.
Qed.

Lemma latest_nil_lookup {V} k : latest ([] : list (bytes * V)) !! k = None.
Proof. apply lookup_empty. Qed.

Lemma latest_elem {V} (l : list (bytes * V)) k x : latest l !! k = Some x → (k, x) ∈ l.
Proof.
  induction l as [|[k' y] l IH] using rev_ind; [by rewrite latest_nil_lookup|].
  rewrite latest_snoc. simpl. intros [[-> ->]|[_ H]]%lookup_insert_Some; [set_solver|].
  apply elem_of_app. left. by apply IH.
Qed.

Lemma latest_None {V} (l : list (bytes * V)) k : latest l !! k = None ↔ k ∉ l.*1.
Proof.
  induction l as [|[k' y] l IH] using rev_ind; [rewrite latest_nil_lookup; set_solver|].
  rewrite latest_snoc, fmap_app. simpl. rewrite lookup_insert_None, IH. set_solver.
Qed.

Lemma log_of_app G a b : log_of G (a ++ b) = log_of G a ++ log_of G b.
Proof. apply bind_app. Qed.

Lemma log_of_singleton G p : log_of G [p] = entries_from p 0 (default [] (G !! p)).
Proof. unfold log_of. simpl. apply app_nil_r. Qed.

Lemma log_of_elem G ps k q o sz v :
  (k, ((q, o, sz), v)) ∈ log_of G ps →
  q ∈ ps ∧ ∃ pre r post, G !! q = Some (pre ++ r :: post) ∧ rec_key r = k ∧
    rec_value r = v ∧ o = len (file_of pre) ∧ sz = len (rec_bytes r).
Proof.
  unfold log_of. intros (p & Hes & Hp)%list_elem_of_bind.
  apply entries_from_elem in Hes as (-> & pre & r & post & Heq & ? & ? & ? & ?).
  split; [done|]. exists pre, r, post. split; [|auto with lia].
  destruct (G !! p) as [rs|]; simpl in Heq; [by subst|]. by destruct pre.
Qed.

Lemma log_of_ext G G' ps : (∀ p, p ∈ ps → G !! p = G' !! p) → log_of G ps = log_of G' ps.
Proof.
  intros H. induction ps as [|p ps IH]; [done|].
  change (p :: ps) with ([p] ++ ps). rewrite !log_of_app, !log_of_singleton.
  rewrite (H p), IH; [done|set_solver|set_solver].
Qed.

(** ** The invariant is kept, operation by operation *)

Section frame.
Implicit Types (h : HashIndex) (G : gmap Z (list rec)) (m : gmap bytes bytes).

Lemma live_active h p : h_active h = Some p → live h = h_segments h ++ [p].
Proof. intros Ha. unfold live. by rewrite Ha. Qed.

(** Changing only the counters, the channel or the clock. *)
Lemma hinv_frame time_at G h h' :
  hinv time_at G h →
  h_closed h' = h_closed h → h_index h' = h_index h → h_active h' = h_active h →
  h_segments h' = h_segments h → h_segs h' = h_segs h → h_inodes h' = h_inodes h →
  h_dir h' = h_dir h → time_at (h_clock h) ≤ time_at (h_clock h') →
  hinv time_at G h' ∧ hlog G h' = hlog G h.
Proof.
  intros [H1 H2 H3 H4 H5 H6 H7] E1 E2 E3 E4 E5 E6 E7 Ht.
  assert (live h' = live h) as El by (unfold live; by rewrite E3, E4).
  split; [|unfold hlog; by rewrite El].
  split; rewrite ?E1, ?E2, ?E3, ?El, ?E5, ?E6; try done.
  - intros p Hp. destruct (H5 p Hp) as (rs & HG & Hd). exists rs. split; [done|].
    unfold segment_holds in *. by rewrite E5, E6, E7.
  - intros p Hp. specialize (H6 p Hp). lia.
  - intros p Hp. specialize (H7 p Hp). lia.
Qed.

Lemma find_segment_live h a q :
  h_active h = Some a → q ∈ live h → find_segment h a q = Some q.
Proof.
  intros Ha Hq. rewrite (live_active h a Ha) in Hq. unfold find_segment.
  destruct (Z.eqb_spec q a) as [->|Hne]; [done|].
  apply elem_of_app in Hq as [Hq|Hq]; [|set_solver].
  assert (is_Some (list_find (λ p, p = q) (h_segments h))) as [[j x] Hf].
  { eapply list_find_elem_of; [exact Hq|done]. }
  rewrite Hf. apply list_find_Some in Hf as (_ & -> & _). done.
Qed.

Lemma set_stats_id h : set_stats (h_stats h) h = h.
Proof. by destruct h. Qed.

Lemma set_segs_id h : set_segs (h_segs h) h = h.
Proof. by destruct h. Qed.

Lemma Get_located time_at G h k o :
  hinv time_at G h → located G (live h) h k o →
  (Get h k).2 = from_option Ok (Err ErrKeyNotFound) o ∧ ∃ c, (Get h k).1 = set_stats c h.
Proof.
  intros Hinv Hrep. unfold located in Hrep. unfold Get.
  rewrite (inv_open _ _ _ Hinv), (si_Get_map _ (inv_index _ _ _ Hinv)).
  destruct (si_map (h_index h) !! k) as [e|].
  2:{ subst o. split; [done|]. exists (h_stats h). by rewrite set_stats_id. }
  destruct Hrep as (v & Hin & Hm). destruct (inv_active _ _ _ Hinv) as [a Ha].
  apply log_of_elem in Hin as (Hq & pre & r & post & HG & Hk & Hv & Ho & Hsz).
  rewrite Ha, (find_segment_live h a _ Ha Hq).
  destruct (inv_live _ _ _ Hinv _ Hq) as (rs & HG' & _ & Hino & Hok & s & Hs & Hl & _).
  rewrite HG in HG'. simplify_eq. rewrite Hs, Hino, Ho.
  assert (Hrd : read_value (file_of (pre ++ r :: post)) (len (file_of pre)) = Ok (rec_value r)).
  { rewrite file_of_app, file_of_cons. apply read_value_mid.
    apply Forall_app in Hok as [_ Hok]. by apply Forall_cons in Hok as [Hok _]. }
  destruct (acquire_release s Hl) as (s' & Hacq & Hop & Hrel).
  unfold segment_read. rewrite Hacq, Hop, Hrd, Hrel. simpl.
  rewrite (insert_id _ _ _ Hs), set_segs_id. unfold visible.
  destruct (rec_value r) as [|b v] eqn:Ev; simpl.
  - split; [done|]. exists (h_stats h). by rewrite set_stats_id.
  - destruct (Z.eqb_spec (len (b :: v)) 0) as [H0|_]; [len_solve|]. simpl. eauto.
Qed.

Lemma Get_spec time_at G h m k :
  hinv time_at G h → represents G h m →
  (Get h k).2 = store_Get m k ∧ ∃ c, (Get h k).1 = set_stats c h.
Proof.
  intros Hinv Hrep. unfold store_Get.
  destruct (Get_located time_at G h k (m !! k) Hinv (Hrep k)) as [-> Hc]. split; [|done]. by destruct (m !! k).
Qed.

(** The specification of a write. *)
Definition write_map (k v : bytes) m : gmap bytes bytes := store_write visible k v m.

Lemma write_map_lookup k v m k' :
  write_map k v m !! k' = if decide (k = k') then visible v else m !! k'.
Proof.
  unfold write_map, store_write. destruct (visible v) as [v'|]; case_decide as E; subst;
    rewrite ?lookup_insert_eq, ?lookup_delete_eq, ?lookup_insert_ne, ?lookup_delete_ne by done;
    done.
Qed.

(** One record appended to the active segment and entered in the index. *)
Lemma write_log G h G' h' k v e :
  si_wf (h_index h) → h_index h' = si_Put (h_index h) k e →
  hlog G' h' = hlog G h ++ [(k, (entry_loc e, v))] →
  (∀ m, represents G h m → represents G' h' (write_map k v m)) ∧
  (ordered G h → ordered G' h').
Proof.
  intros Hwf Hi Hlog. split.
  - intros m Hrep k'. rewrite Hi, si_Put_map, write_map_lookup by done.
    specialize (Hrep k'). case_decide as E; subst.
    + rewrite lookup_insert_eq. exists v. rewrite Hlog. split; [set_solver|done].
    + rewrite lookup_insert_ne by done. destruct (si_map (h_index h) !! k') as [e'|]; [|done].
      destruct Hrep as (v' & Hin & Hm). exists v'. rewrite Hlog. split; [set_solver|done].
  - intros Hord k'. rewrite Hi, si_Put_map, Hlog, latest_snoc by done. simpl.
    destruct (decide (k = k')) as [->|Hne].
    + by rewrite !lookup_insert_eq.
    + rewrite !lookup_insert_ne by done. apply Hord.
Qed.

Lemma hlog_append G h p rs r :
  h_active h = Some p → NoDup (live h) → G !! p = Some rs →
  hlog (<[p := rs ++ [r]]> G) h =
    hlog G h ++ [(rec_key r, ((p, len (file_of rs), len (rec_bytes r)), rec_value r))].
Proof.
  intros Ha Hnd HG. unfold hlog. rewrite (live_active h p Ha) in *.
  apply NoDup_app in Hnd as (_ & Hp & _).
  rewrite !log_of_app, !log_of_singleton, lookup_insert_eq, HG. simpl.
  rewrite entries_from_app, app_assoc. f_equal. f_equal.
  apply log_of_ext. intros q Hq. apply lookup_insert_ne. intros ->.
  apply (Hp q Hq). set_solver.
Qed.
End frame.

Section writes.
Context (time_at : nat → Z).
Context (time_mono : ∀ n, time_at n < time_at (S n)).

Implicit Types (h : HashIndex) (G : gmap Z (list rec)) (m : gmap bytes bytes).

(** What a write does to the log, the index and the segments: one record at the end, one
    entry for it, perhaps a rotation; sealed segments and segments that are not in use stay. *)
Record wrote_record G h k v G' h' (e : indexEntry) : Prop := {
  wr_index : h_index h' = si_Put (h_index h) k e;
  wr_log : hlog G' h' = hlog G h ++ [(k, (entry_loc e, v))];
  wr_active : h_active h' = Some (ie_segmentID e);
  wr_segments : ∃ l, h_segments h' = h_segments h ++ l;
  wr_sealed q : q ∈ h_segments h → G' !! q = G !! q;
  wr_aside q rs : q ∉ live h → segment_holds h q rs →
    (q ∉ live h') ∧ G' !! q = G !! q ∧ segment_holds h' q rs;
}.

(** The state after one write through the active segment. *)
Definition wrote G h k v h' : Prop :=
  ∃ G' e, hinv time_at G' h' ∧ wrote_record G h k v G' h' e ∧ (chrono h → chrono h').

Lemma wrote_represents G h k v h' :
  hinv time_at G h → wrote G h k v h' →
  ∃ G', hinv time_at G' h' ∧
    (∀ m, represents G h m → represents G' h' (write_map k v m)) ∧
    (ordered G h → ordered G' h') ∧ (chrono h → chrono h').
Proof using Type.
  intros Hinv (G' & e & Hi & Hw & Hc). exists G'. split; [done|].
  destruct (write_log G h G' h' k v e (inv_index _ _ _ Hinv) (wr_index _ _ _ _ _ _ _ Hw) (wr_log _ _ _ _ _ _ _ Hw)).
  auto.
Qed.

Lemma append_live G h p k v :
  hinv time_at G h → h_active h = Some p → record_ok k v →
  ∃ h1 off sz, append_to time_at h p k v = (h1, Ok (off, sz)) ∧
    wrote G h k v (record_write time_at h1 p k v off sz).
Proof using time_mono.
  intros Hinv Ha Hok.
  assert (Hp : p ∈ live h) by (rewrite (live_active h p Ha); set_solver).
  destruct (inv_live _ _ _ Hinv p Hp) as (rs & HG & Hdir & Hino & Hrs & s & Hs & Hl & Hsz).
  destruct Hl as (Hc & Ho & Hr).
  unfold append_to. rewrite Hs, Hino. unfold segment_append. rewrite Hc, Ho. simpl.
  do 3 eexists. split; [reflexivity|].
  set (r := (time_at (h_clock h) / 10 ^ 9, k, v) : rec).
  assert (Hf : file_of rs ++ encode_record (time_at (h_clock h) / 10 ^ 9) k v =
    file_of (rs ++ [r])) by (rewrite file_of_app, file_of_cons; simpl; by rewrite app_nil_r).
  assert (Hi : i32 (headerSize + len k + len v) = len (rec_bytes r)).
  { rewrite len_rec_bytes. change (rec_key r) with k. change (rec_value r) with v.
    unfold record_ok in Hok. pose proof (len_nonneg k). pose proof (len_nonneg v).
    apply i32_small. unfold headerSize in *. lia. }
  exists (<[p := rs ++ [r]]> G). eexists.
  match goal with |- hinv _ _ ?h' ∧ _ => set (h2 := h') end.
  assert (El : live h2 = live h) by done.
  split.
  - split; unfold h2; simpl.
    + apply (inv_open _ _ _ Hinv).
    + apply si_Put_wf, (inv_index _ _ _ Hinv).
    + apply (inv_active _ _ _ Hinv).
    + apply (inv_nodup _ _ _ Hinv).
    + fold h2. rewrite El. intros q Hq. unfold segment_holds, h2. simpl.
      destruct (decide (q = p)) as [->|Hne].
      * exists (rs ++ [r]). rewrite !lookup_insert_eq, Hf. split; [done|].
        split; [done|]. split; [done|]. split.
        { apply Forall_app. split; [done|]. by repeat constructor. }
        eexists. split; [reflexivity|]. split; [done|]. simpl.
        rewrite file_of_app, len_app, Hsz, file_of_cons, app_nil_r, len_rec_bytes.
        change (rec_key r) with k. change (rec_value r) with v. lia.
      * destruct (inv_live _ _ _ Hinv q Hq) as (rs' & HG' & Hrest). exists rs'.
        rewrite !lookup_insert_ne by done. done.
    + intros q Hq. apply lookup_insert_is_Some in Hq.
      assert (is_Some (h_segs h !! q)) as Hq' by (destruct Hq as [<-|[_ Hq]]; eauto).
      apply (inv_fresh_seg _ _ _ Hinv) in Hq'. pose proof (time_mono (h_clock h)).
      pose proof (time_mono (S (h_clock h))). lia.
    + intros q Hq. apply lookup_insert_is_Some in Hq.
      assert (is_Some (h_inodes h !! q)) as Hq' by (destruct Hq as [<-|[_ Hq]]; eauto).
      apply (inv_fresh_inode _ _ _ Hinv) in Hq'. pose proof (time_mono (h_clock h)).
      pose proof (time_mono (S (h_clock h))). lia.
  - split; [|done]. split.
    + reflexivity.
    + unfold entry_loc. simpl. rewrite Hi, Hsz.
      change (hlog (<[p:=rs ++ [r]]> G) h2) with (hlog (<[p:=rs ++ [r]]> G) h).
      rewrite (hlog_append G h p rs r Ha (inv_nodup _ _ _ Hinv) HG). done.
    + done.
    + exists []. by rewrite app_nil_r.
    + intros q Hq. apply lookup_insert_ne. intros <-. pose proof (inv_nodup _ _ _ Hinv) as Hnd.
      rewrite (live_active h p Ha) in Hnd. apply NoDup_app in Hnd as (_ & Hnd & _). apply (Hnd p Hq). set_solver.
    + intros q rs' Hq Hh. split; [done|]. assert (p ≠ q) by (intros ->; done). split; [by apply lookup_insert_ne|].
      unfold segment_holds, h2. simpl. by rewrite !lookup_insert_ne.
Qed.

Lemma createSegment_spec G h :
  hinv time_at G h →
  let '(p, h') := createSegment time_at h in
  (p ∉ live h) ∧ segment_holds h' p [] ∧
  (∀ q rs, segment_holds h q rs → q ≠ p ∧ segment_holds h' q rs) ∧
  (∀ q, is_Some (h_segs h' !! q) → q < time_at (h_clock h')) ∧
  (∀ q, is_Some (h_inodes h' !! q) → q < time_at (h_clock h')) ∧
  h_closed h' = h_closed h ∧ h_index h' = h_index h ∧
  h_active h' = h_active h ∧ h_segments h' = h_segments h ∧ h_config h' = h_config h.
Proof using time_mono.
  intros Hinv. unfold createSegment. simpl. set (p := time_at (h_clock h)).
  assert (Hns : h_segs h !! p = None).
  { apply eq_None_not_Some. intros H%(inv_fresh_seg _ _ _ Hinv). subst p. lia. }
  assert (Hni : h_inodes h !! p = None).
  { apply eq_None_not_Some. intros H%(inv_fresh_inode _ _ _ Hinv). subst p. lia. }
  assert (Hp : p ∉ live h).
  { intros (rs & _ & _ & Hino & _)%(inv_live _ _ _ Hinv). congruence. }
  split; [done|]. split.
  { unfold segment_holds. simpl. rewrite Hni, !lookup_insert_eq.
    split; [set_solver|]. split; [done|]. split; [constructor|].
    exists (newSegment p). repeat split; done. }
  split.
  { intros q rs (Hd & Hi & Hok & s & Hs & Hl). split; [congruence|]. unfold segment_holds. simpl.
    rewrite !lookup_insert_ne by (intros ->; congruence).
    split; [set_solver|]. split; [done|]. split; [done|]. eauto. }
  split; [|split; [|done]]; intros q Hq; apply lookup_insert_is_Some in Hq.
  - destruct Hq as [<-|[_ Hq]]; [apply time_mono|].
    apply (inv_fresh_seg _ _ _ Hinv) in Hq. pose proof (time_mono (h_clock h)). lia.
  - destruct Hq as [<-|[_ Hq]]; [apply time_mono|].
    apply (inv_fresh_inode _ _ _ Hinv) in Hq. pose proof (time_mono (h_clock h)). lia.
Qed.

Lemma rotate_spec G h :
  hinv time_at G h →
  ∃ h' p, rotateSegment time_at h = (h', Ok tt) ∧ h_active h' = Some p ∧
    hinv time_at (<[p := []]> G) h' ∧ hlog (<[p := []]> G) h' = hlog G h ∧
    h_index h' = h_index h ∧ h_config h' = h_config h ∧ (chrono h → chrono h') ∧
    (p ∉ live h) ∧ h_segments h' = live h ∧
    (∀ q rs, q ∉ live h → segment_holds h q rs → (q ∉ live h') ∧ q ≠ p ∧ segment_holds h' q rs).
Proof using time_mono.
  intros Hinv. destruct (inv_active _ _ _ Hinv) as [a Ha].
  assert (Hin : a ∈ live h) by (rewrite (live_active h a Ha); set_solver).
  destruct (inv_live _ _ _ Hinv a Hin) as (rs & HG & _ & _ & _ & s & Hs & (Hc & Ho & Hr) & _).
  unfold rotateSegment. rewrite Ha, Hs. unfold segment_sync. rewrite Ho. simpl.
  pose proof (createSegment_spec G h Hinv) as Hcs.
  destruct (createSegment time_at h) as [p h1] eqn:E1.
  unfold createSegment in E1 |- *. simpl in E1 |- *. injection E1 as Ep Eh1. subst p.
  destruct Hcs as (Hp & Hnew & Hold & Hfs & Hfi & _).
  do 2 eexists. split; [reflexivity|]. split; [reflexivity|].
  match goal with |- hinv _ _ ?h' ∧ _ => set (h2 := h') end.
  set (p := time_at (h_clock h)) in *.
  assert (El : live h2 = live h ++ [p]) by (rewrite (live_active h a Ha); done).
  assert (Hholds : ∀ q r, segment_holds h1 q r → segment_holds h2 q r)
    by (intros q r; subst h1 h2; done).
  assert (Hkeep : ∀ q r, segment_holds h q r → q ≠ p ∧ segment_holds h2 q r).
  { intros q r Hq. destruct (Hold q r Hq). split; [done|]. by apply Hholds. }
  clear Hold. subst h1. split; [|split; [|split; [done|split; [done|split; [|split; [done|split]]]]]].
  - split; [| | | | |done|done].
    + apply (inv_open _ _ _ Hinv).
    + apply (inv_index _ _ _ Hinv).
    + done.
    + rewrite El. apply NoDup_app. split; [apply (inv_nodup _ _ _ Hinv)|].
      split; [set_solver|apply NoDup_singleton].
    + intros q Hq. rewrite El in Hq. apply elem_of_app in Hq as [Hq|Hq].
      * destruct (inv_live _ _ _ Hinv q Hq) as (rs' & HG' & Hh). exists rs'.
        rewrite lookup_insert_ne by (intros ->; done). split; [done|]. by apply Hkeep.
      * apply list_elem_of_singleton in Hq as ->. exists []. rewrite lookup_insert_eq. eauto.
  - unfold hlog. rewrite El, log_of_app, log_of_singleton, lookup_insert_eq. simpl.
    rewrite app_nil_r. apply log_of_ext. intros q Hq. apply lookup_insert_ne.
    intros ->. done.
  - intros [Hs1 Hd]. split; rewrite El.
    + apply StronglySorted_app_2; [|done|repeat constructor].
      intros q q' Hq Hq'. apply list_elem_of_singleton in Hq' as ->.
      destruct (inv_live _ _ _ Hinv q Hq) as (rs' & _ & _ & Hi & _).
      apply (inv_fresh_inode _ _ _ Hinv). eauto.
    + unfold h2. simpl. rewrite Hd. set_solver.
  - by rewrite (live_active h a Ha).
  - intros q r Hq Hh. destruct (Hkeep q r Hh). split; [|done]. rewrite El. set_solver.
Qed.
End writes.

Section operations.
Context (time_at : nat → Z).
Context (time_mono : ∀ n, time_at n < time_at (S n)).

Implicit Types (h : HashIndex) (G : gmap Z (list rec)) (m : gmap bytes bytes).

Lemma hinv_compactChan G h b : hinv time_at G h → hinv time_at G (set_compactChan b h).
Proof using Type. intros H. by eapply hinv_frame. Qed.

Lemma wrote_compactChan G h k v h' b :
  wrote time_at G h k v h' → wrote time_at G h k v (set_compactChan b h').
Proof using Type.
  intros (G' & e & Hi & [W1 W2 W3 W4 W5 W6] & Hc). exists G', e. split; [by apply hinv_compactChan|].
  split; [by split|exact Hc].
Qed.

Lemma active_with_room_Some h p : active_with_room h = Some p → h_active h = Some p.
Proof using Type.
  unfold active_with_room. destruct (h_active h) as [q|]; [|done]. simpl.
  destruct (h_segs h !! q); [|done]. simpl. case_cmp; congruence.
Qed.

Lemma putWithRotation_spec G h k v :
  hinv time_at G h → record_ok k v →
  ∃ h', putWithRotation time_at h k v = (h', Ok tt) ∧ wrote time_at G h k v h'.
Proof using time_mono.
  intros Hinv Hok. unfold putWithRotation.
  destruct (active_with_room h) as [p|] eqn:Ea.
  { apply active_with_room_Some in Ea.
    destruct (append_live time_at time_mono G h p k v Hinv Ea Hok) as (h1 & o & sz & -> & Hw).
    eauto. }
  destruct (rotate_spec time_at time_mono G h Hinv)
    as (h1 & p & -> & Hp & Hinv1 & Hlog & Hidx & _ & Hchr & Hpl & Hsegs & Haside).
  rewrite Hp.
  destruct (append_live time_at time_mono _ h1 p k v Hinv1 Hp Hok) as (h2 & o & sz & -> & Hw).
  assert (wrote time_at G h k v (record_write time_at h2 p k v o sz)) as Hw'.
  { destruct Hw as (G' & e & Hi & [W1 W2 W3 [l W4] W5 W6] & Hc). exists G', e. split; [done|].
    split; [|auto]. rewrite Hsegs in W4, W5. split; [by rewrite W1, Hidx|by rewrite W2, Hlog|done| | |].
    - exists (option_list (h_active h) ++ l). rewrite W4. unfold live. by rewrite app_assoc.
    - intros q Hq. assert (q ∈ live h) by (unfold live; set_solver). rewrite W5 by done.
      apply lookup_insert_ne. by intros ->.
    - intros q rs Hq Hh. destruct (Haside q rs Hq Hh) as (H1 & H2 & H3). destruct (W6 q rs H1 H3) as (H4 & H5 & H6).
      split; [done|]. split; [|done]. rewrite H5. by apply lookup_insert_ne. }
  eexists. split; [reflexivity|]. destruct (shouldCompact _); [|done].
  by apply wrote_compactChan.
Qed.

Lemma Put_spec G h k v :
  hinv time_at G h → k ≠ [] → record_ok k v →
  ∃ h', Put time_at h k v = (h', Ok tt) ∧ wrote time_at G h k v h'.
Proof using time_mono.
  intros Hinv Hk Hok. unfold Put. destruct (Z.eqb_spec (len k) 0) as [E|_].
  { destruct k; [done|]. len_solve. }
  rewrite (inv_open _ _ _ Hinv). destruct (active_with_room h) as [p|] eqn:Ea.
  - apply active_with_room_Some in Ea.
    destruct (append_live time_at time_mono G h p k v Hinv Ea Hok) as (h1 & o & sz & -> & Hw).
    eauto.
  - by apply putWithRotation_spec.
Qed.
End operations.
