(* ===== verification/HashCompaction.v ===== *)
(** Compaction of the hash engine ([src/hashindex/compaction.go] and [doCompact] of
    [hashindex.go]). *)
From S2P Require Import Prelude GoLib Common HashShard HashSegment HashIndex.
From stdpp Require Import base gmap list strings numbers sorting.

Open Scope Z_scope.

Section compaction.
(** [range_map] enumerates a Go map in the order [range] visits it. *)
Context (time_at : nat → Z).
Context (range_map : ∀ V, gmap bytes V → list (bytes * V)).

(** [seg.readRecord(offset)] through the pointer [p]. *)
Definition readRecord_at (h : HashIndex) (p offset : Z)
    : HashIndex * res (bytes * bytes * Z) :=
  match h_segs h !! p, h_inodes h !! p with
  | Some s, Some f =>
      let '(s, r) := segment_readRecord s f offset in
      (set_segs (<[p := s]> (h_segs h)) h, r)
  | _, _ => (h, Panic)
  end.

(** The loop over the records of one segment.  A record takes at least
    [headerSize] bytes, so [segSize] rounds reach its end. *)
Fixpoint compact_scan (fuel : nat) (h : HashIndex) (p offset segSize : Z)
    (latestValues : gmap bytes bytes) : HashIndex * res (gmap bytes bytes) :=
  if offset <? segSize then
    match fuel with
    | O => (h, Panic)
    | S fuel =>
        match readRecord_at h p offset with
        | (h, Ok (key, value, nextOffset)) =>
            compact_scan fuel h p nextOffset segSize (<[key := value]> latestValues)
        | (h, Err e) =>
            if bool_decide (e = EOF) then (h, Ok latestValues)
            else (h, Err (Errorf "error reading segment"))
        | (h, Panic) => (h, Panic)
        end
    end
  else (h, Ok latestValues).

(** The loop over the segments. *)
Fixpoint compact_read (h : HashIndex) (segments : list Z) (latestValues : gmap bytes bytes)
    : HashIndex * res (gmap bytes bytes) :=
  match segments with
  | [] => (h, Ok latestValues)
  | p :: segments =>
      let segSize := default 0 (seg_Size_at h (Some p)) in
      match compact_scan (Z.to_nat segSize) h p 0 segSize latestValues with
      | (h, Ok latestValues) => compact_read h segments latestValues
      | (h, Err e) => (h, Err e)
      | (h, Panic) => (h, Panic)
      end
  end.

(** Closing and unlinking a segment. *)
Definition drop_segment (h : HashIndex) (p : Z) : HashIndex :=
  update_seg p segment_close (set_dir (h_dir h ∖ {[p]}) h).

(** The loop that writes the latest values to the new segment, tombstones left
    out. *)
Fixpoint compact_write (h : HashIndex) (newSeg : Z) (kvs : list (bytes * bytes))
    (newIndex : gmap bytes indexEntry) (compactionBytesWritten : Z)
    : HashIndex * res (gmap bytes indexEntry * Z) :=
  match kvs with
  | [] => (h, Ok (newIndex, compactionBytesWritten))
  | (key, value) :: kvs =>
      if len value =? 0 then compact_write h newSeg kvs newIndex compactionBytesWritten
      else
        match append_to time_at h newSeg key value with
        | (h, Ok (offset, size)) =>
            let '(now, h) := unix time_at h in
            compact_write h newSeg kvs
              (<[key := IndexEntry newSeg offset size now]> newIndex)
              (compactionBytesWritten + size)
        | (h, Err e) => (drop_segment h newSeg, Err e)
        | (h, Panic) => (h, Panic)
        end
  end.

Definition add_bytes_to_disk (n : Z) (h : HashIndex) : HashIndex :=
  let c := h_stats h in
  set_stats (MkCounters (writeCount c) (readCount c) (compactCount c) (bytesWritten c)
               (bytesWrittenToDisk c + n) (bytesRead c)) h.

(** The second half of [compactSegments]: the values are written to a new segment. *)
Definition write_compacted (h : HashIndex) (latestValues : gmap bytes bytes)
    : HashIndex * res (Z * gmap bytes indexEntry) :=
  let '(newSeg, h) := createSegment time_at h in
  match compact_write h newSeg (range_map _ latestValues) ∅ 0 with
  | (h, Err e) => (h, Err e)
  | (h, Panic) => (h, Panic)
  | (h, Ok (newIndex, written)) =>
      let h := add_bytes_to_disk written h in
      match h_segs h !! newSeg with
      | None => (h, Panic)
      | Some s =>
          match segment_sync s with
          | Ok _ => (h, Ok (newSeg, newIndex))
          | Err e => (drop_segment h newSeg, Err e)
          | Panic => (h, Panic)
          end
      end
  end.

Definition compactSegments (h : HashIndex) (segments : list Z)
    : HashIndex * res (Z * gmap bytes indexEntry) :=
  match compact_read h segments ∅ with
  | (h, Err e) => (h, Err e)
  | (h, Panic) => (h, Panic)
  | (h, Ok latestValues) => write_compacted h latestValues
  end.

(** The batch [applyCompaction] prepares: an index entry that points into a
    compacted segment is redirected, or dropped when its key was not rewritten. *)
Definition batch_entry (compacted : gset Z) (newIndex : gmap bytes indexEntry)
    (acc : gmap bytes indexEntry * list bytes) (ke : bytes * indexEntry)
    : gmap bytes indexEntry * list bytes :=
  if decide (ie_segmentID ke.2 ∈ compacted) then
    match newIndex !! ke.1 with
    | Some newEntry => (<[ke.1 := newEntry]> acc.1, acc.2)
    | None => (acc.1, acc.2 ++ [ke.1])
    end
  else acc.

Definition compaction_batch (h : HashIndex) (compacted : gset Z)
    (newIndex : gmap bytes indexEntry) : gmap bytes indexEntry * list bytes :=
  foldl (λ acc sh, foldl (batch_entry compacted newIndex) acc (range_map _ sh))
    (∅, []) (si_shards (h_index h)).

(** [h.index.UpdateBatch(updates, deletions)]. *)
Definition install_index (h : HashIndex) (updates : gmap bytes indexEntry)
    (deletions : list bytes) : HashIndex :=
  set_index (si_UpdateBatch (range_map _) (h_index h) updates deletions) h.

(** The new segment list. *)
Definition install_segments (h : HashIndex) (compacted : gset Z) (newSegment : Z) : HashIndex :=
  set_segments (filter (λ p, p ∉ compacted) (h_segments h) ++ [newSegment]) h.

(** The old segments are unlinked and closed, and the run is counted. *)
Definition remove_segments (h : HashIndex) (oldSegments : list Z) : HashIndex :=
  let h := foldl drop_segment h oldSegments in
  let c := h_stats h in
  set_stats (MkCounters (writeCount c) (readCount c) (compactCount c + 1) (bytesWritten c)
               (bytesWrittenToDisk c) (bytesRead c)) h.

Definition applyCompaction (h : HashIndex) (oldSegments : list Z) (newSegment : Z)
    (newIndex : gmap bytes indexEntry) : HashIndex :=
  let compacted := list_to_set oldSegments in
  let '(updates, deletions) := compaction_batch h compacted newIndex in
  let h := install_index h updates deletions in
  let h := install_segments h compacted newSegment in
  remove_segments h oldSegments.

(** Acquire a list of segments; stops at the first that is closed. *)
Fixpoint acquire_all (h : HashIndex) (ps : list Z) : HashIndex * bool :=
  match ps with
  | [] => (h, true)
  | p :: ps =>
      match h_segs h !! p with
      | None => (h, false)
      | Some s =>
          let '(s, ok) := segment_acquire s in
          let h := set_segs (<[p := s]> (h_segs h)) h in
          if ok then acquire_all h ps else (h, false)
      end
  end.

Definition release_all (h : HashIndex) (ps : list Z) : HashIndex :=
  foldl (λ h p, update_seg p segment_release h) h ps.

(** How many of the oldest segments one compaction takes. *)
Definition numToCompact (n : Z) : Z :=
  if 3 <? n then
    let k := (n + 1) / 2 in if k <? 2 then 2 else k
  else n.

Definition doCompact (h : HashIndex) : HashIndex * res unit :=
  let n := len (h_segments h) in
  if n <? 2 then (h, Ok tt)
  else
    let segmentsToCompact := slice_to (numToCompact n) (h_segments h) in
    match acquire_all h segmentsToCompact with
    | (h, false) => (h, Err (Errorf "failed to acquire segment"))
    | (h, true) =>
        match compactSegments h segmentsToCompact with
        | (h, Err e) => (release_all h segmentsToCompact, Err e)
        | (h, Panic) => (h, Panic)
        | (h, Ok (newSeg, newIndex)) =>
            (release_all (applyCompaction h segmentsToCompact newSeg newIndex)
               segmentsToCompact, Ok tt)
        end
    end.
End compaction.

(** ** Locations identify records *)

Lemma prefix_same (a b : list rec) r r' a' b' :
  a ++ r :: a' = b ++ r' :: b' → len (file_of a) = len (file_of b) → r = r'.
Proof.
  revert b. induction a as [|x a IH]; intros [|y b] Heq; simpl in Heq; simplify_eq;
    intros Hlen; [done|..].
  - exfalso. rewrite file_of_cons, len_app in Hlen.
    pose proof (len_rec_bytes_ge y). pose proof (len_nonneg (file_of b)).
    change (len (file_of [])) with 0 in Hlen. unfold headerSize in *. lia.
  - exfalso. rewrite file_of_cons, len_app in Hlen.
    pose proof (len_rec_bytes_ge r'). pose proof (len_nonneg (file_of a)).
    change (len (file_of [])) with 0 in Hlen. unfold headerSize in *. lia.
  - rewrite !file_of_cons, !len_app in Hlen. eapply (IH b); [done|]. lia.
Qed.

Lemma log_of_loc_inj G ps k k' l v v' :
  (k, (l, v)) ∈ log_of G ps → (k', (l, v')) ∈ log_of G ps → k = k' ∧ v = v'.
Proof.
  destruct l as [[q o] sz].
  intros (_ & a & r & a' & HG & Hk & Hv & Ho & _)%log_of_elem
         (_ & b & r' & b' & HG' & Hk' & Hv' & Ho' & _)%log_of_elem.
  rewrite HG in HG'. simplify_eq.
  by assert (r = r') as <- by (eapply prefix_same; eauto; congruence).
Qed.

(** ** Reading the segments *)

Lemma latest_fmap {V W} (g : V → W) (l : list (bytes * V)) :
  latest (prod_map id g <$> l) = g <$> latest l.
Proof.
  induction l as [|[k x] l IH] using rev_ind; [done|].
  rewrite fmap_app. simpl. rewrite !latest_snoc. simpl. by rewrite IH, fmap_insert.
Qed.

(** The values [compact_read] collects, oldest segment first. *)
Definition collect (l : list (bytes * bytes)) (m : gmap bytes bytes) : gmap bytes bytes :=
  foldl (λ m kv, <[kv.1 := kv.2]> m) m l.

Definition rec_kv (r : rec) : bytes * bytes := (rec_key r, rec_value r).

Lemma entries_kv p off rs : prod_map id snd <$> entries_from p off rs = rec_kv <$> rs.
Proof. revert off. induction rs as [|r rs IH]; intros off; csimpl; [done|]. by rewrite IH. Qed.

Lemma log_kv G ps :
  prod_map id snd <$> log_of G ps = ps ≫= λ p, rec_kv <$> default [] (G !! p).
Proof.
  induction ps as [|p ps IH]; [done|]. change (p :: ps) with ([p] ++ ps).
  rewrite log_of_app, fmap_app, IH, log_of_singleton, entries_kv, bind_app.
  by csimpl; rewrite app_nil_r.
Qed.

Section reading.
Context (time_at : nat → Z).
Implicit Types (h : HashIndex) (G : gmap Z (list rec)).

Lemma readRecord_at_spec h p pre r post :
  segment_holds h p (pre ++ r :: post) →
  readRecord_at h p (len (file_of pre)) =
    (h, Ok (rec_key r, rec_value r, len (file_of (pre ++ [r])))).
Proof.
  intros (_ & Hi & Hok & s & Hs & Hl & _). unfold readRecord_at. rewrite Hs, Hi.
  unfold segment_readRecord. destruct (acquire_release s Hl) as (s' & -> & -> & Hrel). simpl.
  rewrite file_of_app, file_of_cons.
  rewrite read_record_mid.
  - rewrite Hrel, insert_id, set_segs_id by done.
    do 3 f_equal. rewrite file_of_app, len_app, file_of_cons, app_nil_r. done.
  - apply Forall_app in Hok as [_ Hok]. by apply Forall_cons in Hok as [? _].
Qed.

Lemma compact_scan_spec fuel h p pre rs m :
  segment_holds h p (pre ++ rs) → (length rs ≤ fuel)%nat →
  compact_scan fuel h p (len (file_of pre)) (len (file_of (pre ++ rs))) m =
    (h, Ok (collect (rec_kv <$> rs) m)).
Proof.
  revert pre fuel m. induction rs as [|r rs IH]; intros pre fuel m Hh Hf.
  - rewrite app_nil_r. destruct fuel; simpl; by rewrite Z.ltb_irrefl.
  - assert (Hlt : len (file_of pre) < len (file_of (pre ++ r :: rs))).
    { rewrite file_of_app, file_of_cons, !len_app. pose proof (len_rec_bytes_ge r).
      pose proof (len_nonneg (file_of rs)). unfold headerSize in *. lia. }
    apply Z.ltb_lt in Hlt. destruct fuel as [|fuel]; simpl in Hf; [lia|].
    cbn [compact_scan]. rewrite Hlt, (readRecord_at_spec h p pre r rs Hh).
    replace (pre ++ r :: rs) with ((pre ++ [r]) ++ rs) in * by by rewrite <-app_assoc.
    rewrite IH; [done|done|lia].
Qed.

Lemma length_le_file rs : Z.of_nat (length rs) ≤ len (file_of rs).
Proof.
  induction rs as [|r rs IH]; [done|]. rewrite file_of_cons, len_app. simpl.
  pose proof (len_rec_bytes_ge r). unfold headerSize in *. lia.
Qed.

Lemma compact_read_spec G h ps m :
  (∀ p, p ∈ ps → ∃ rs, G !! p = Some rs ∧ segment_holds h p rs) →
  compact_read h ps m = (h, Ok (collect (prod_map id snd <$> log_of G ps) m)).
Proof.
  rewrite log_kv. revert m. induction ps as [|p ps IH]; intros m H; [done|].
  destruct (H p) as (rs & HG & Hh); [set_solver|]. cbn [compact_read].
  assert (Hsz : seg_Size_at h (Some p) = Some (len (file_of rs))).
  { destruct Hh as (_ & _ & _ & s & Hs & _ & Hsz). unfold seg_Size_at. simpl.
    rewrite Hs. simpl. unfold segment_Size. by rewrite Hsz. }
  rewrite Hsz. cbn [default from_option id].
  pose proof (compact_scan_spec (Z.to_nat (len (file_of rs))) h p [] rs m Hh) as Hscan.
  simpl in Hscan. change (len (file_of [])) with 0 in Hscan. rewrite Hscan.
  - rewrite IH by set_solver. rewrite bind_cons, HG. unfold collect. by rewrite foldl_app.
  - pose proof (length_le_file rs). lia.
Qed.
End reading.

(** ** Handles *)

(** Operations on handles that keep them usable keep the invariant. *)
Lemma segment_holds_handle h h' p rs :
  segment_holds h p rs → h_dir h' = h_dir h → h_inodes h' = h_inodes h →
  (∀ s, h_segs h !! p = Some s → ∃ s', h_segs h' !! p = Some s' ∧
     (seg_live s → seg_live s') ∧ seg_size s' = seg_size s) →
  segment_holds h' p rs.
Proof.
  intros (Hd & Hi & Hok & s & Hs & Hl & Hsz) Ed Ei Hseg.
  destruct (Hseg s Hs) as (s' & Hs' & Hl' & Hsz').
  unfold segment_holds. rewrite Ed, Ei. repeat (split; [done|]).
  exists s'. rewrite Hsz'. auto.
Qed.

Lemma acquire_all_spec time_at G h ps :
  hinv time_at G h → (∀ p, p ∈ ps → p ∈ live h) →
  ∃ h', acquire_all h ps = (h', true) ∧ hinv time_at G h' ∧
    h_index h' = h_index h ∧ h_segments h' = h_segments h ∧ h_active h' = h_active h.
Proof.
  revert h. induction ps as [|p ps IH]; intros h Hinv Hps; [by eexists|].
  assert (Hp : p ∈ live h) by set_solver. simpl.
  destruct (inv_live _ _ _ Hinv p Hp) as (rs & HG & Hd & Hi & Hok & s & Hs & (Hc & Ho & Hr) & Hsz).
  rewrite Hs. unfold segment_acquire. rewrite Hc.
  match goal with |- context [acquire_all ?h' ps] => set (h1 := h') end.
  assert (Hinv1 : hinv time_at G h1).
  { destruct Hinv as [I1 I2 I3 I4 I5 I6 I7]. split; try done.
    - intros q Hq. destruct (I5 q Hq) as (rs' & HG' & Hh). exists rs'. split; [done|].
      eapply segment_holds_handle; [exact Hh|done|done|]. intros s' Hs'. subst h1. simpl.
      destruct (decide (p = q)) as [->|Hne].
      + rewrite lookup_insert_eq. eexists. split; [done|]. simplify_eq. simpl.
        split; [|done]. intros (? & ? & ?). repeat split; simpl; try done. lia.
      + rewrite lookup_insert_ne by done. eauto.
    - intros q Hq. subst h1. simpl in Hq.
      apply lookup_insert_is_Some in Hq as [<-|[_ Hq]]; apply I6; eauto. }
  destruct (IH h1 Hinv1) as (h' & -> & Hinv' & ? & ? & ?); [intros q Hq; apply Hps; set_solver|].
  eauto 10.
Qed.

(** ** Writing the new segment *)

Section writing.
Context (time_at : nat → Z).
Context (time_mono : ∀ n, time_at n < time_at (S n)).
Implicit Types (h : HashIndex) (G : gmap Z (list rec)).

(** Two states with the same index and the same segment lists. *)
Definition same_shape h h' : Prop :=
  h_index h' = h_index h ∧ h_segments h' = h_segments h ∧ h_active h' = h_active h.

#[global] Instance same_shape_trans : Transitive same_shape.
Proof using Type. intros h1 h2 h3 (?&?&?) (?&?&?). split_and!; congruence. Qed.

Lemma same_shape_live h h' : same_shape h h' → live h' = live h.
Proof using Type. intros (_ & E1 & E2). unfold live. by rewrite E1, E2. Qed.

Lemma append_aside G h p rs k v :
  hinv time_at G h → p ∉ live h → segment_holds h p rs → record_ok k v →
  ∃ h' r, append_to time_at h p k v = (h', Ok (len (file_of rs), len (rec_bytes r))) ∧
    rec_kv r = (k, v) ∧ hinv time_at G h' ∧ segment_holds h' p (rs ++ [r]) ∧ same_shape h h'.
Proof using time_mono.
  intros Hinv Hp (Hd & Hi & Hok & s & Hs & (Hc & Ho & Hr) & Hsz) Hrec.
  unfold append_to. rewrite Hs, Hi. unfold segment_append. rewrite Hc, Ho. simpl.
  set (r := (time_at (h_clock h) / 10 ^ 9, k, v) : rec).
  assert (Hlen : headerSize + len k + len v = len (rec_bytes r)) by by rewrite len_rec_bytes.
  assert (Hi32 : i32 (len (rec_bytes r)) = len (rec_bytes r)).
  { apply i32_small. pose proof (len_rec_bytes_ge r). rewrite <-Hlen in *.
    unfold record_ok, headerSize in *. lia. }
  rewrite Hlen, Hi32, Hsz. eexists. exists r. split; [reflexivity|]. split; [done|].
  assert (Hf : file_of rs ++ encode_record (time_at (h_clock h) / 10 ^ 9) k v =
    file_of (rs ++ [r])) by (rewrite file_of_app, file_of_cons; simpl; by rewrite app_nil_r).
  split; [|split; [|done]].
  - destruct Hinv as [I1 I2 I3 I4 I5 I6 I7]. split; try done; simpl.
    + intros q Hq. destruct (I5 q Hq) as (rs' & HG' & Hh). exists rs'. split; [done|].
      unfold segment_holds. simpl. rewrite !lookup_insert_ne by (intros ->; done). done.
    + intros q Hq. pose proof (time_mono (h_clock h)).
      apply lookup_insert_is_Some in Hq as [<-|[_ Hq]];
        [specialize (I6 p (mk_is_Some _ _ Hs))|specialize (I6 q Hq)]; lia.
    + intros q Hq. pose proof (time_mono (h_clock h)).
      apply lookup_insert_is_Some in Hq as [<-|[_ Hq]];
        [specialize (I7 p (mk_is_Some _ _ Hi))|specialize (I7 q Hq)]; lia.
  - unfold segment_holds. simpl. rewrite !lookup_insert_eq, Hf.
    repeat (split; [done|]). split.
    { apply Forall_app. split; [done|]. by repeat constructor. }
    eexists. split; [reflexivity|]. split; [done|]. simpl.
    by rewrite file_of_app, len_app, file_of_cons, app_nil_r.
Qed.

(** What the new index holds for a key, given the values to write. *)
Definition rewritten (p : Z) (rs : list rec) (ni ni' : gmap bytes indexEntry)
    (kvs : gmap bytes bytes) (k : bytes) : Prop :=
  match kvs !! k ≫= visible with
  | Some v => ∃ e, ni' !! k = Some e ∧ ie_segmentID e = p ∧
                   (k, (entry_loc e, v)) ∈ entries_from p 0 rs
  | None => ni' !! k = ni !! k
  end.

Lemma rewritten_app p rs extra ni ni' kvs k :
  rewritten p rs ni ni' kvs k → rewritten p (rs ++ extra) ni ni' kvs k.
Proof using Type.
  unfold rewritten. destruct (kvs !! k ≫= visible); [|done].
  intros (e & He & Hp & Hin). exists e. split; [done|]. split; [done|].
  rewrite entries_from_app. apply elem_of_app. by left.
Qed.

Lemma compact_write_spec G kvs h p rs ni w :
  hinv time_at G h → p ∉ live h → segment_holds h p rs → NoDup kvs.*1 →
  Forall (λ kv, record_ok kv.1 kv.2) kvs →
  ∃ h' rs' ni' w', compact_write time_at h p kvs ni w = (h', Ok (ni', w')) ∧
    hinv time_at G h' ∧ same_shape h h' ∧ segment_holds h' p rs' ∧
    (∃ extra, rs' = rs ++ extra) ∧ ∀ k, rewritten p rs' ni ni' (list_to_map kvs) k.
Proof using time_mono.
  revert h rs ni w. induction kvs as [|[k v] kvs IH]; intros h rs ni w Hinv Hp Hh Hnd Hok.
  { exists h, rs, ni, w. repeat (split; [done|]). split.
    - exists []. by rewrite app_nil_r.
    - intros k. unfold rewritten. simpl. by rewrite lookup_empty. }
  apply NoDup_cons in Hnd as [Hk Hnd]. apply Forall_cons in Hok as [Hkv Hok].
  cbn [compact_write]. simpl in Hkv, Hk. apply not_elem_of_list_to_map in Hk as Hkn.
  destruct (Z.eqb_spec (len v) 0) as [E|E].
  - assert (v = []) as -> by (destruct v; [done|len_solve]).
    destruct (IH h rs ni w) as (h' & rs' & ni' & w' & Heq & ? & ? & ? & ? & Hrw); try done.
    exists h', rs', ni', w'. repeat (split; [done|]). intros k'. specialize (Hrw k').
    unfold rewritten in *. simpl. destruct (decide (k = k')) as [->|Hne].
    + rewrite Hkn in Hrw. rewrite lookup_insert_eq. exact Hrw.
    + by rewrite lookup_insert_ne.
  - destruct (append_aside G h p rs k v Hinv Hp Hh Hkv)
      as (h1 & r & -> & Hr & Hinv1 & Hh1 & Hsh1).
    simpl. set (h2 := set_clock (S (h_clock h1)) h1).
    destruct (hinv_frame time_at G h1 h2) as [Hinv2 _]; try done.
    { simpl. pose proof (time_mono (h_clock h1)). lia. }
    set (e := IndexEntry p _ _ _).
    destruct (IH h2 (rs ++ [r]) (<[k := e]> ni) (w + len (rec_bytes r)))
      as (h' & rs' & ni' & w' & Heq & ? & Hsh & ? & [extra Hex] & Hrw); try done.
    { by rewrite (same_shape_live h h2). }
    exists h', rs', ni', w'. split; [done|]. split; [done|].
    split; [by transitivity h1|].
    split; [done|]. split; [exists ([r] ++ extra); by rewrite app_assoc|].
    intros k'. specialize (Hrw k'). unfold rewritten in *. simpl.
    destruct (decide (k = k')) as [<-|Hne].
    + rewrite Hkn in Hrw. change (None ≫= visible) with (@None bytes) in Hrw.
      cbv iota in Hrw. rewrite lookup_insert_eq in Hrw. rewrite lookup_insert_eq. cbn [mbind option_bind].
      unfold visible. rewrite decide_False by (intros ->; done).
      exists e. split; [done|]. split; [done|]. rewrite Hex, entries_from_app.
      apply elem_of_app. left. rewrite entries_from_app. apply elem_of_app. right.
      injection Hr as Hr1 Hr2. simpl. rewrite Hr1, Hr2, Z.add_0_l. by left.
    + rewrite lookup_insert_ne by done. by rewrite lookup_insert_ne in Hrw.
Qed.
End writing.

(** ** The batch *)

Lemma batch_entries_spec C ni es u d k :
  foldl (batch_entry C ni) (∅, []) es = (u, d) →
  (∀ e, u !! k = Some e ↔ ni !! k = Some e ∧ ∃ e0, (k, e0) ∈ es ∧ ie_segmentID e0 ∈ C) ∧
  (k ∈ d ↔ ni !! k = None ∧ ∃ e0, (k, e0) ∈ es ∧ ie_segmentID e0 ∈ C).
Proof.
  revert u d. induction es as [|[k' e'] es IH] using rev_ind; intros u d Heq.
  { simpl in Heq. simplify_eq. split; [intros e; rewrite lookup_empty|]; set_solver. }
  rewrite foldl_app in Heq. simpl in Heq.
  destruct (foldl (batch_entry C ni) (∅, []) es) as [u0 d0].
  specialize (IH u0 d0 eq_refl) as [IHu IHd]. unfold batch_entry in Heq. simpl in Heq.
  destruct (decide (ie_segmentID e' ∈ C)) as [HC|HC].
  2:{ simplify_eq. split; [intros e; rewrite IHu|rewrite IHd]; set_solver. }
  destruct (ni !! k') as [e2|] eqn:En; simplify_eq.
  - split.
    + intros e. destruct (decide (k' = k)) as [->|Hne].
      * rewrite lookup_insert_eq. set_solver.
      * rewrite lookup_insert_ne, IHu by done. set_solver.
    + rewrite IHd. destruct (decide (k' = k)) as [->|Hne]; [|set_solver].
      rewrite En. set_solver.
  - split.
    + intros e. rewrite IHu. destruct (decide (k' = k)) as [->|Hne]; [|set_solver].
      rewrite En. set_solver.
    + rewrite elem_of_app, IHd. destruct (decide (k' = k)) as [->|Hne]; set_solver.
Qed.

Lemma foldl_bind {A B C} (g : A → B → A) (f : C → list B) (l : list C) a :
  foldl (λ a c, foldl g a (f c)) a l = foldl g a (l ≫= f).
Proof. revert a. induction l as [|c l IH]; intros a; [done|]. csimpl. by rewrite foldl_app, IH. Qed.

Section batch.
Context (range_map : ∀ V, gmap bytes V → list (bytes * V)).
Context (range_perm : ∀ V m, range_map V m ≡ₚ map_to_list m).

Lemma index_entries si k e :
  si_wf si → (k, e) ∈ (si_shards si ≫= range_map indexEntry) ↔ si_map si !! k = Some e.
Proof using range_perm.
  intros Hwf. rewrite list_elem_of_bind. split.
  - intros (sh & Hin & Hsh). rewrite range_perm, elem_of_map_to_list in Hin.
    apply list_elem_of_lookup in Hsh as [i Hi].
    rewrite <-Hin. eapply lookup_union_shards; eauto.
    apply homed_disjoint. exact (si_wf_home _ Hwf).
  - intros Hk. destruct (shard_lookup si Hwf k) as (sh & Hsh & Hat).
    exists sh. rewrite range_perm, elem_of_map_to_list. split.
    + by rewrite <-Hat, <-Hk, <-(si_Get_map si Hwf).
    + by eapply list_elem_of_lookup_2.
Qed.

Lemma compaction_batch_spec h C ni u d k :
  si_wf (h_index h) → compaction_batch range_map h C ni = (u, d) →
  (∀ e, u !! k = Some e ↔
     ni !! k = Some e ∧ ∃ e0, si_map (h_index h) !! k = Some e0 ∧ ie_segmentID e0 ∈ C) ∧
  (k ∈ d ↔ ni !! k = None ∧ ∃ e0, si_map (h_index h) !! k = Some e0 ∧ ie_segmentID e0 ∈ C).
Proof using range_perm.
  intros Hwf Heq. unfold compaction_batch in Heq. rewrite foldl_bind in Heq.
  destruct (batch_entries_spec _ _ _ _ _ k Heq) as [Hu Hd].
  split; [intros e; rewrite Hu|rewrite Hd]; by setoid_rewrite index_entries.
Qed.
End batch.

(** ** The whole compaction *)

Lemma log_of_elem_iff G ps k q o sz v :
  (k, ((q, o, sz), v)) ∈ log_of G ps ↔
  q ∈ ps ∧ (k, ((q, o, sz), v)) ∈ entries_from q 0 (default [] (G !! q)).
Proof.
  unfold log_of. rewrite list_elem_of_bind. split.
  - intros (p & Hin & Hp). by destruct (entries_from_elem _ _ _ _ _ _ _ _ Hin) as [-> _].
  - intros [Hp Hin]. eauto.
Qed.

(** Effects on the segments outside a list: none. *)
Record aside (ps : list Z) (h h' : HashIndex) : Prop := {
  as_shape : same_shape h h';
  as_closed : h_closed h' = h_closed h;
  as_inodes : h_inodes h' = h_inodes h;
  as_clock : h_clock h' = h_clock h;
  as_segs : ∀ q, q ∉ ps → h_segs h' !! q = h_segs h !! q;
  as_dom : ∀ q, is_Some (h_segs h' !! q) → is_Some (h_segs h !! q);
  as_dir : ∀ q, q ∉ ps → q ∈ h_dir h → q ∈ h_dir h';
}.

Lemma foldl_aside (g : HashIndex → Z → HashIndex) ps h :
  (∀ h p, aside [p] h (g h p)) → aside ps h (foldl g h ps).
Proof.
  intros Hg. revert h. induction ps as [|p ps IH]; intros h; [by repeat split|]. simpl.
  destruct (Hg h p) as [(?&?&?) ? ? ? A5 A6 A7].
  destruct (IH (g h p)) as [(?&?&?) ? ? ? B5 B6 B7].
  split; [split_and!; congruence|congruence|congruence|congruence|..].
  - intros q Hq. rewrite B5, A5; [done|set_solver|set_solver].
  - intros q Hq. by apply A6, B6.
  - intros q Hq Hd. apply B7; [set_solver|]. apply A7; [set_solver|done].
Qed.

Lemma update_seg_aside g h p : aside [p] h (update_seg p g h).
Proof.
  split; try done; simpl.
  - intros q Hq. apply lookup_alter_ne. set_solver.
  - intros q Hq. destruct (decide (p = q)) as [->|Hne].
    + rewrite lookup_alter_eq, fmap_is_Some in Hq. done.
    + by rewrite lookup_alter_ne in Hq.
Qed.

Lemma drop_segment_aside h p : aside [p] h (drop_segment h p).
Proof.
  destruct (update_seg_aside segment_close (set_dir (h_dir h ∖ {[p]}) h) p) as [? ? ? ? A5 A6 A7].
  split; try done. intros q Hq Hd. apply A7; [done|]. simpl. set_solver.
Qed.

Lemma segment_holds_aside ps h h' q rs :
  aside ps h h' → q ∉ ps → segment_holds h q rs → segment_holds h' q rs.
Proof.
  intros [_ _ A2 _ A4 _ A6] Hq (Hd & Hi & Hok & s & Hs & Hl). unfold segment_holds.
  rewrite A2, A4 by done. split; [by apply A6|]. eauto.
Qed.

#[global] Instance aside_trans ps : Transitive (aside ps).
Proof.
  intros h1 h2 h3 [A1 A2 A3 A4 A5 A6 A7] [B1 B2 B3 B4 B5 B6 B7].
  split; try congruence; [by transitivity h2|..]; intros q Hq.
  - by rewrite B5, A5.
  - by apply A6, B6.
  - intros Hd. apply B7; [done|]. by apply A7.
Qed.

Lemma set_stats_aside ps c h : aside ps h (set_stats c h).
Proof. by split. Qed.

Section compact_preserves.
Context (time_at : nat → Z).
Context (time_mono : ∀ n, time_at n < time_at (S n)).
Context (range_map : ∀ V, gmap bytes V → list (bytes * V)).
Context (range_perm : ∀ V m, range_map V m ≡ₚ map_to_list m).

Implicit Types (h : HashIndex) (G : gmap Z (list rec)) (m : gmap bytes bytes).

Lemma createSegment_hinv G h :
  hinv time_at G h →
  ∃ p h', createSegment time_at h = (p, h') ∧ hinv time_at G h' ∧ (p ∉ live h) ∧
    segment_holds h' p [] ∧ same_shape h h'.
Proof using time_mono.
  intros Hinv. pose proof (createSegment_spec time_at time_mono G h Hinv) as H.
  destruct (createSegment time_at h) as [p h'].
  destruct H as (Hp & Hn & Hold & Hs & Hi & Ec & Ei & Ea & Es & _).
  exists p, h'. split; [done|].
  assert (Hsh : same_shape h h') by (by split_and!).
  split; [|done]. pose proof (same_shape_live h h' Hsh) as El.
  split; rewrite ?Ec, ?Ei, ?Ea, ?El; try apply Hinv; try done.
  intros q Hq. destruct (inv_live _ _ _ Hinv q Hq) as (rs & HG & Hh). exists rs. split; [done|]. by apply Hold.
Qed.

(** The values read are those of the newest records. *)
Lemma compact_values G h ps :
  (∀ p, p ∈ ps → ∃ rs, G !! p = Some rs ∧ segment_holds h p rs) →
  compact_read h ps ∅ = (h, Ok (snd <$> latest (log_of G ps))).
Proof using Type.
  intros H. rewrite (compact_read_spec G h ps ∅ H). do 2 f_equal.
  rewrite <-latest_fmap. done.
Qed.

Lemma log_values_ok G h ps k v :
  (∀ p, p ∈ ps → ∃ rs, G !! p = Some rs ∧ segment_holds h p rs) →
  (snd <$> latest (log_of G ps)) !! k = Some v → record_ok k v.
Proof using Type.
  intros H Hk. apply lookup_fmap_Some in Hk as ([l v'] & <- & Hk). simpl.
  apply latest_elem in Hk. destruct l as [[q o] sz].
  apply log_of_elem in Hk as (Hq & pre & r & post & HG & <- & <- & _).
  destruct (H q Hq) as (rs & HG' & _ & _ & Hok & _). rewrite HG in HG'. simplify_eq.
  apply Forall_app in Hok as [_ Hok]. by apply Forall_cons in Hok as [? _].
Qed.

Lemma write_compacted_spec G h vals :
  hinv time_at G h → (∀ k v, vals !! k = Some v → record_ok k v) →
  ∃ h' p ni rs, write_compacted time_at range_map h vals = (h', Ok (p, ni)) ∧
    hinv time_at G h' ∧ same_shape h h' ∧ (p ∉ live h) ∧ segment_holds h' p rs ∧
    ∀ k, rewritten p rs ∅ ni vals k.
Proof using time_mono range_perm.
  intros Hinv Hvals. unfold write_compacted.
  destruct (createSegment_hinv G h Hinv) as (p & h1 & -> & Hinv1 & Hp & Hnew & Hsh1).
  assert (Hrange : list_to_map (range_map _ vals) = vals).
  { rewrite <-(list_to_map_to_list vals) at 2. apply list_to_map_proper; [|apply range_perm].
    rewrite range_perm. apply NoDup_fst_map_to_list. }
  destruct (compact_write_spec time_at time_mono G (range_map _ vals) h1 p [] ∅ 0)
    as (h2 & rs & ni & w & -> & Hinv2 & Hsh2 & Hh2 & _ & Hrw); try done.
  { by rewrite (same_shape_live h h1). }
  { rewrite range_perm. apply NoDup_fst_map_to_list. }
  { apply Forall_forall. intros [k v] Hin. rewrite range_perm, elem_of_map_to_list in Hin.
    by apply Hvals. }
  rewrite Hrange in Hrw. destruct Hh2 as (Hd & Hi & Hok & s & Hs & Hl & Hsz). simpl.
  rewrite Hs. unfold segment_sync. rewrite (proj1 (proj2 Hl)). simpl.
  exists (add_bytes_to_disk w h2), p, ni, rs. split; [done|].
  destruct (hinv_frame time_at G h2 (add_bytes_to_disk w h2)) as [Hinv3 _]; try done.
  split; [done|]. split; [by transitivity h1|].
  split; [done|]. split; [|done]. unfold segment_holds. simpl. eauto 10.
Qed.
End compact_preserves.
