(* ===== verification/HashSteps.v ===== *)
(** One compaction run of the hash engine as the steps between which other goroutines run
    ([doCompact] of [hashindex.go], [compactSegments] and [applyCompaction] of
    [compaction.go]), and what each step does to the stored map. *)
From S2P Require Import Prelude GoLib Common HashShard HashSegment HashIndex HashCompaction.
From stdpp Require Import base gmap list strings numbers sorting.

Open Scope Z_scope.

(** ** The steps *)

(** Where the compaction goroutine is, with its local variables. *)
Inductive comp_state :=
| CStart
| CSelected (segments : list Z)
| CRead (segments : list Z) (latestValues : gmap bytes bytes)
| CWritten (segments : list Z) (newSeg : Z) (newIndex : gmap bytes indexEntry)
| CBatched (segments : list Z) (newSeg : Z) (updates : gmap bytes indexEntry) (deletions : list bytes)
| CIndexed (segments : list Z) (newSeg : Z) (updates : gmap bytes indexEntry)
| CSwapped (segments : list Z)
| CDone (r : res unit).

Section steps.
Context (time_at : nat → Z).
Context (range_map : ∀ V, gmap bytes V → list (bytes * V)).

(** One step: choosing the segments, reading them, writing the new one, preparing the batch,
    applying it, replacing the segment list, removing the old segments. *)
Definition comp_step (h : HashIndex) (s : comp_state) : HashIndex * comp_state :=
  match s with
  | CStart =>
      let n := len (h_segments h) in
      if n <? 2 then (h, CDone (Ok tt))
      else
        let segments := slice_to (numToCompact n) (h_segments h) in
        match acquire_all h segments with
        | (h, false) => (h, CDone (Err (Errorf "failed to acquire segment")))
        | (h, true) => (h, CSelected segments)
        end
  | CSelected segments =>
      match compact_read h segments ∅ with
      | (h, Err e) => (release_all h segments, CDone (Err e))
      | (h, Panic) => (h, CDone Panic)
      | (h, Ok latestValues) => (h, CRead segments latestValues)
      end
  | CRead segments latestValues =>
      match write_compacted time_at range_map h latestValues with
      | (h, Err e) => (release_all h segments, CDone (Err e))
      | (h, Panic) => (h, CDone Panic)
      | (h, Ok (newSeg, newIndex)) => (h, CWritten segments newSeg newIndex)
      end
  | CWritten segments newSeg newIndex =>
      let '(updates, deletions) := compaction_batch range_map h (list_to_set segments) newIndex in
      (h, CBatched segments newSeg updates deletions)
  | CBatched segments newSeg updates deletions =>
      (install_index range_map h updates deletions, CIndexed segments newSeg updates)
  | CIndexed segments newSeg _ =>
      (install_segments h (list_to_set segments) newSeg, CSwapped segments)
  | CSwapped segments => (release_all (remove_segments h segments) segments, CDone (Ok tt))
  | CDone r => (h, CDone r)
  end.

Fixpoint comp_steps (n : nat) (h : HashIndex) (s : comp_state) : HashIndex * comp_state :=
  match n with
  | O => (h, s)
  | S n => let '(h, s) := comp_step h s in comp_steps n h s
  end.

(** The steps left until the run is over. *)
Definition steps_left (s : comp_state) : nat :=
  match s with
  | CStart => 7
  | CSelected _ => 6
  | CRead _ _ => 5
  | CWritten _ _ _ => 4
  | CBatched _ _ _ _ => 3
  | CIndexed _ _ _ => 2
  | CSwapped _ => 1
  | CDone _ => 0
  end.

Lemma comp_steps_done n h r : comp_steps n h (CDone r) = (h, CDone r).
Proof using Type. by induction n. Qed.

(** Without calls in between the steps are [doCompact]. *)
Lemma comp_steps_doCompact h :
  comp_steps 7 h CStart = let '(h', r) := doCompact time_at range_map h in (h', CDone r).
Proof using Type.
  unfold doCompact, compactSegments. remember 6%nat as n eqn:En. cbn [comp_steps comp_step]. subst n.
  destruct (len (h_segments h) <? 2); [apply comp_steps_done|].
  destruct (acquire_all h _) as [h1 []]; [|apply comp_steps_done].
  remember 5%nat as n eqn:En. cbn [comp_steps comp_step]. subst n.
  destruct (compact_read h1 _ ∅) as [h2 [vals|e|]]; [|apply comp_steps_done..].
  remember 4%nat as n eqn:En. cbn [comp_steps comp_step]. subst n.
  destruct (write_compacted time_at range_map h2 vals) as [h3 [[newSeg newIndex]|e|]]; [|apply comp_steps_done..].
  cbn [comp_steps comp_step]. unfold applyCompaction. by destruct (compaction_batch _ _ _ _) as [u d].
Qed.
End steps.

(** ** What holds between the steps *)

(** The values the compaction copies. *)
Definition values_of (G : gmap Z (list rec)) (C : list Z) : gmap bytes bytes := snd <$> latest (log_of G C).

(** A key whose index entry lies in the compacted segments. *)
Definition in_old (h : HashIndex) (C : list Z) (k : bytes) : Prop :=
  ∃ e, si_map (h_index h) !! k = Some e ∧ ie_segmentID e ∈ C.

(** A segment that is not in use yet. *)
Definition set_aside (G : gmap Z (list rec)) (h : HashIndex) (p : Z) : Prop :=
  (p ∉ live h) ∧ ∃ rs, G !! p = Some rs ∧ segment_holds h p rs.

(** What the new index holds for a key. *)
Definition copied (G : gmap Z (list rec)) (C : list Z) (p : Z) (ni : gmap bytes indexEntry) (k : bytes) : Prop :=
  match values_of G C !! k ≫= visible with
  | Some v => ∃ e, ni !! k = Some e ∧ (k, (entry_loc e, v)) ∈ log_of G [p]
  | None => ni !! k = None
  end.

Definition batched (h : HashIndex) (C : list Z) (ni u : gmap bytes indexEntry) (d : list bytes) : Prop :=
  ∀ k, (∀ e, u !! k = Some e ↔ ni !! k = Some e ∧ in_old h C k) ∧ (k ∈ d ↔ ni !! k = None ∧ in_old h C k).

Definition oldest (h : HashIndex) (C : list Z) : Prop := ∃ l, h_segments h = C ++ l.

(** The invariant of the run.  Between [UpdateBatch] and the new segment list the index
    points into a segment that is not in the list. *)
Definition comp_inv (G : gmap Z (list rec)) (h : HashIndex) (m : gmap bytes bytes) (s : comp_state) : Prop :=
  match s with
  | CStart => represents G h m ∧ ordered G h
  | CSelected C => represents G h m ∧ ordered G h ∧ oldest h C
  | CRead C vals => represents G h m ∧ ordered G h ∧ oldest h C ∧ vals = values_of G C
  | CWritten C p ni => represents G h m ∧ ordered G h ∧ oldest h C ∧ set_aside G h p ∧ ∀ k, copied G C p ni k
  | CBatched C p u d =>
      represents G h m ∧ ordered G h ∧ oldest h C ∧ set_aside G h p ∧
      ∃ ni, (∀ k, copied G C p ni k) ∧ batched h C ni u d
  | CIndexed C p u =>
      oldest h C ∧ set_aside G h p ∧ (∀ k, ¬ in_old h C k) ∧
      (∀ k, located G (live h ++ [p]) h k (m !! k)) ∧ (∀ k, u !! k = None → located G (live h) h k (m !! k))
  | CSwapped C => represents G h m ∧ ∀ q, q ∈ C → set_aside G h q
  | CDone r => r = Ok tt ∧ represents G h m
  end.

(** ** Lemmas *)

Lemma oldest_segments h C q : oldest h C → q ∈ C → q ∈ h_segments h.
Proof. intros [l ->] Hq. apply elem_of_app. by left. Qed.

Lemma segments_live h q : q ∈ h_segments h → q ∈ live h.
Proof. intros Hq. unfold live. apply elem_of_app. by left. Qed.

Lemma oldest_live h C q : oldest h C → q ∈ C → q ∈ live h.
Proof. intros Ho Hq. by eapply segments_live, oldest_segments. Qed.

(** Steps that leave the index and the segment lists alone. *)
Lemma same_shape_stored h h' G m :
  same_shape h h' → (represents G h m → represents G h' m) ∧ (ordered G h → ordered G h').
Proof.
  intros Hs. pose proof (same_shape_live _ _ Hs) as El. destruct Hs as (Ei & _ & _).
  unfold represents, ordered, hlog. by rewrite El, Ei.
Qed.

Lemma same_shape_oldest h h' C : same_shape h h' → oldest h C → oldest h' C.
Proof. intros (_ & E & _). unfold oldest. by rewrite E. Qed.

(** The records of a segment that is not in use do not matter. *)
Lemma log_insert_aside G h p rs ps :
  p ∉ live h → (∀ q, q ∈ ps → q ∈ live h) → log_of (<[p := rs]> G) ps = log_of G ps.
Proof. intros Hp Hps. apply log_of_ext. intros q Hq. apply lookup_insert_ne. intros <-. by apply Hp, Hps. Qed.

Lemma hinv_insert_aside time_at G h p rs : p ∉ live h → hinv time_at G h → hinv time_at (<[p := rs]> G) h.
Proof.
  intros Hp [H1 H2 H3 H4 H5 H6 H7]. split; try done. intros q Hq. destruct (H5 q Hq) as (rs' & HG & Hh).
  exists rs'. by rewrite lookup_insert_ne by (intros ->; done).
Qed.

Lemma stored_insert_aside G h m p rs :
  p ∉ live h → (represents G h m → represents (<[p := rs]> G) h m) ∧ (ordered G h → ordered (<[p := rs]> G) h).
Proof. intros Hp. unfold represents, ordered, hlog. by rewrite (log_insert_aside G h p rs) by done. Qed.

(** Changes outside the segments in use. *)
Lemma hinv_aside time_at G ps h h' :
  aside ps h h' → (∀ q, q ∈ live h → q ∉ ps) → hinv time_at G h → hinv time_at G h'.
Proof.
  intros HA Hps [H1 H2 H3 H4 H5 H6 H7]. pose proof (same_shape_live _ _ (as_shape _ _ _ HA)) as El.
  pose proof HA as [(E1 & E2 & E3) E4 E5 E6 E7 E8 E9]. split; rewrite ?El, ?E1, ?E3, ?E4, ?E6; try done.
  - intros q Hq. destruct (H5 q Hq) as (rs & HG & Hh). exists rs. split; [done|].
    eapply segment_holds_aside; [exact HA|by apply Hps|done].
  - intros q Hq. by apply H6, E8.
  - intros q Hq. apply H7. by rewrite <-E5.
Qed.

Lemma remove_aside h C : aside C h (release_all (remove_segments h C) C).
Proof.
  etransitivity; [apply (foldl_aside drop_segment), drop_segment_aside|]. unfold release_all, remove_segments.
  etransitivity; [apply set_stats_aside|]. apply foldl_aside. intros. apply update_seg_aside.
Qed.

(** In an ordered engine, a key whose entry lies in the oldest segments has its newest
    record there. *)
Lemma ordered_prefix G h C k e v :
  ordered G h → NoDup (live h) → oldest h C →
  si_map (h_index h) !! k = Some e → ie_segmentID e ∈ C → (k, (entry_loc e, v)) ∈ hlog G h →
  latest (log_of G C) !! k = Some (entry_loc e, v).
Proof.
  intros Hord Hnd [l El] Hk He Hin. specialize (Hord k). rewrite Hk in Hord. simpl in Hord.
  unfold hlog, live in *. rewrite El, <-app_assoc in *. set (rest := l ++ _) in *. rewrite log_of_app in Hord.
  rewrite latest_app_lookup in Hord. destruct (latest (log_of G rest) !! k) as [[lo w]|] eqn:Er.
  - exfalso. simpl in Hord. injection Hord as <-. apply latest_elem in Er.
    apply log_of_elem in Er as [Hq _]. apply NoDup_app in Hnd as (_ & Hd & _). by apply (Hd (ie_segmentID e)).
  - destruct (latest (log_of G C) !! k) as [[lo w]|] eqn:Ep; [|done].
    simpl in Hord. injection Hord as <-. do 2 f_equal. apply latest_elem in Ep.
    destruct (log_of_loc_inj G (C ++ rest) k k (entry_loc e) v w) as [_ ->]; [done| |done].
    rewrite log_of_app. apply elem_of_app. by left.
Qed.

(** The new segment list. *)
Lemma install_live h C p :
  p ∉ live h → NoDup (live h) → is_Some (h_active h) → oldest h C →
  let h' := install_segments h (list_to_set C) p in
  NoDup (live h') ∧ (∀ q, q ∈ live h' ↔ q = p ∨ (q ∈ live h ∧ q ∉ C)).
Proof.
  intros Hp Hnd [a Ha] HC. cbv zeta. unfold install_segments, live in *. cbn [h_segments h_active set_segments].
  rewrite Ha in *. change (option_list (Some a)) with [a] in *. apply NoDup_app in Hnd as (Hnd & Hda & _). split.
  - apply NoDup_app. split.
    + apply NoDup_app. split; [by apply NoDup_filter|]. split; [|apply NoDup_singleton].
      intros x [_ Hx]%list_elem_of_filter. set_solver.
    + split; [|apply NoDup_singleton]. intros x Hx.
      apply elem_of_app in Hx as [[_ Hx]%list_elem_of_filter|Hx]; [by apply Hda|set_solver].
  - intros q. rewrite !elem_of_app, list_elem_of_filter, elem_of_list_to_set, !list_elem_of_singleton. split.
    + intros [[[? ?]| ->]| ->]; [tauto|tauto|]. right. split; [tauto|].
      intros Hc. apply (Hda a); [by eapply oldest_segments|set_solver].
    + tauto.
Qed.

Section steps_ok.
Context (time_at : nat → Z).
Context (time_mono : ∀ n, time_at n < time_at (S n)).
Context (range_map : ∀ V, gmap bytes V → list (bytes * V)).
Context (range_perm : ∀ V m, range_map V m ≡ₚ map_to_list m).

Implicit Types (h : HashIndex) (G : gmap Z (list rec)) (m : gmap bytes bytes).

(** What a step leaves: the map is the same, the invariant is that of the next place. *)
Definition comp_ok m (w : HashIndex * comp_state) : Prop := ∃ G, hinv time_at G w.1 ∧ comp_inv G w.1 m w.2.

Lemma select_ok G h m :
  hinv time_at G h → represents G h m → ordered G h → comp_ok m (comp_step time_at range_map h CStart).
Proof using Type.
  intros Hinv Hr Ho. cbn [comp_step]. destruct (Z.ltb_spec (len (h_segments h)) 2) as [_|Hn]; [by exists G|].
  set (C := slice_to _ _).
  assert (HC : oldest h C).
  { exists (drop (Z.to_nat (numToCompact (len (h_segments h)))) (h_segments h)). unfold C, slice_to. by rewrite take_drop. }
  destruct (acquire_all_spec time_at G h C Hinv) as (h1 & -> & Hinv1 & Hsh); [intros q; by eapply oldest_live|].
  exists G. split; [done|]. cbn. destruct (same_shape_stored h h1 G m Hsh). split_and!; [auto..|]. by eapply same_shape_oldest.
Qed.

Lemma old_segments_hold G h C :
  hinv time_at G h → oldest h C → ∀ q, q ∈ C → ∃ rs, G !! q = Some rs ∧ segment_holds h q rs.
Proof using Type. intros Hinv HC q Hq. apply (inv_live _ _ _ Hinv). by eapply oldest_live. Qed.

Lemma read_ok G h m C :
  hinv time_at G h → comp_inv G h m (CSelected C) → comp_ok m (comp_step time_at range_map h (CSelected C)).
Proof using Type.
  intros Hinv (Hr & Ho & HC). cbn [comp_step]. rewrite (compact_values G h C (old_segments_hold G h C Hinv HC)).
  by exists G.
Qed.

Lemma write_ok G h m C vals :
  hinv time_at G h → comp_inv G h m (CRead C vals) → comp_ok m (comp_step time_at range_map h (CRead C vals)).
Proof using time_mono range_perm.
  intros Hinv (Hr & Ho & HC & ->). cbn [comp_step].
  destruct (write_compacted_spec time_at time_mono range_map range_perm G h (values_of G C) Hinv)
    as (h' & p & ni & rs & -> & Hinv' & Hsh & Hp & Hh & Hrw).
  { intros k v. apply (log_values_ok G h). by apply old_segments_hold. }
  destruct (same_shape_stored h h' G m Hsh) as [Hr' Ho']. pose proof (same_shape_live h h' Hsh) as El.
  assert (Hp' : p ∉ live h') by by rewrite El.
  destruct (stored_insert_aside G h' m p rs Hp') as [Hr2 Ho2].
  exists (<[p := rs]> G). split; [by apply hinv_insert_aside|]. cbn. split_and!; [auto..|by eapply same_shape_oldest| |].
  - split; [done|]. exists rs. by rewrite lookup_insert_eq.
  - intros k. specialize (Hrw k). unfold rewritten, copied, values_of in *.
    rewrite (log_insert_aside G h') by (done || (intros q Hq; rewrite El; by eapply oldest_live)).
    destruct (_ ≫= visible) as [v|]; [|by rewrite lookup_empty in Hrw].
    destruct Hrw as (e & He & Hs & Hin). exists e. split; [done|].
    rewrite log_of_singleton, lookup_insert_eq. done.
Qed.

Lemma batch_ok G h m C p ni :
  hinv time_at G h → comp_inv G h m (CWritten C p ni) → comp_ok m (comp_step time_at range_map h (CWritten C p ni)).
Proof using range_perm.
  intros Hinv (Hr & Ho & HC & Hp & Hc). cbn [comp_step].
  destruct (compaction_batch range_map h (list_to_set C) ni) as [u d] eqn:E. exists G. split; [done|]. cbn [comp_step].
  split_and!; try done. exists ni. split; [done|]. intros k.
  destruct (compaction_batch_spec range_map range_perm h (list_to_set C) ni u d k (inv_index _ _ _ Hinv) E) as [Hu Hd].
  unfold in_old. by setoid_rewrite elem_of_list_to_set in Hu; setoid_rewrite elem_of_list_to_set in Hd.
Qed.

(** The entry of a key after the batch. *)
Lemma installed_entry h C ni u d k :
  si_wf (h_index h) → batched h C ni u d →
  si_map (h_index (install_index range_map h u d)) !! k =
    match si_map (h_index h) !! k with
    | Some e => if decide (ie_segmentID e ∈ C) then ni !! k else Some e
    | None => None
    end.
Proof using range_perm.
  intros Hwf Hb. destruct (Hb k) as [Hu Hd]. cbn [h_index install_index set_index].
  rewrite si_UpdateBatch_lookup by done. rewrite lookup_union. unfold in_old in *.
  destruct (si_map (h_index h) !! k) as [e|].
  - destruct (decide (ie_segmentID e ∈ C)) as [He|He].
    + destruct (ni !! k) as [e'|].
      * rewrite decide_False by (rewrite Hd; naive_solver). rewrite (proj2 (Hu e')) by eauto. done.
      * rewrite decide_True by (apply Hd; eauto). done.
    + rewrite decide_False by naive_solver.
      destruct (u !! k) as [e'|]; [|done]. destruct (proj1 (Hu e') eq_refl). naive_solver.
  - rewrite decide_False by naive_solver.
    destruct (u !! k) as [e'|]; [|done]. destruct (proj1 (Hu e') eq_refl). naive_solver.
Qed.

Lemma copied_segment G C p ni k e : copied G C p ni k → ni !! k = Some e → ie_segmentID e = p.
Proof using Type.
  unfold copied. intros Hc He. destruct (_ ≫= visible) as [v|]; [|congruence].
  destruct Hc as (e' & He' & Hin). assert (e' = e) as -> by congruence. destruct e as [q o sz t]. apply log_of_elem in Hin as [Hq _].
  by apply list_elem_of_singleton in Hq.
Qed.

Lemma visible_Some v v' : visible v = Some v' → v = v'.
Proof using Type. unfold visible. by destruct (decide (v = [])); intros [= ->]. Qed.

(** A key with an entry in the old segments is copied with its value, or it has none. *)
Lemma copied_value G h m C p ni k :
  hinv time_at G h → represents G h m → ordered G h → oldest h C → copied G C p ni k → in_old h C k →
  match ni !! k with
  | Some e => ∃ v, (k, (entry_loc e, v)) ∈ log_of G [p] ∧ m !! k = visible v
  | None => m !! k = None
  end.
Proof using Type.
  intros Hinv Hr Ho HC Hc (e & He & HeC). specialize (Hr k). rewrite He in Hr. destruct Hr as (v & Hin & Hm).
  pose proof (ordered_prefix G h C k e v Ho (inv_nodup _ _ _ Hinv) HC He HeC Hin) as Hl.
  unfold copied, values_of in Hc. rewrite lookup_fmap, Hl in Hc. simpl in Hc. rewrite Hm.
  destruct (visible v) as [v'|] eqn:Ev; [|by rewrite Hc]. destruct Hc as (e' & -> & Hin').
  exists v'. split; [done|]. pose proof (visible_Some _ _ Ev) as ->. done.
Qed.

Lemma located_app_l G a b h k o : located G a h k o → located G (a ++ b) h k o.
Proof using Type.
  unfold located. destruct (si_map _ !! k) as [e|]; [|done]. intros (v & Hin & Hm). exists v.
  rewrite log_of_app. split; [|done]. apply elem_of_app. by left.
Qed.

Lemma install_ok G h m C p u d :
  hinv time_at G h → comp_inv G h m (CBatched C p u d) → comp_ok m (comp_step time_at range_map h (CBatched C p u d)).
Proof using range_perm.
  intros Hinv (Hr & Ho & HC & [Hp Hh] & ni & Hc & Hb). cbn [comp_step].
  pose proof (installed_entry h C ni u d) as He. set (h' := install_index range_map h u d) in *.
  assert (Hloc : ∀ k, (in_old h C k ∧ si_map (h_index h') !! k = ni !! k) ∨
                      (¬ in_old h C k ∧ si_map (h_index h') !! k = si_map (h_index h) !! k)).
  { intros k. rewrite (He k (inv_index _ _ _ Hinv) Hb). unfold in_old. destruct (si_map (h_index h) !! k) as [e|].
    - destruct (decide (ie_segmentID e ∈ C)); [left|right]; naive_solver.
    - right. naive_solver. }
  exists G. change (hinv time_at G h' ∧ comp_inv G h' m (CIndexed C p u)).
  split; [|split; [exact HC|split; [done|split; [|split]]]].
  - destruct Hinv as [I1 I2 I3 I4 I5 I6 I7]. split; try done. by apply si_UpdateBatch_wf.
  - intros k (e & Hk & HeC). destruct (Hloc k) as [[Hin E]|[Hn E]]; rewrite Hk in E.
    + rewrite (copied_segment G C p ni k e (Hc k) (eq_sym E)) in HeC. apply Hp. by eapply oldest_live.
    + apply Hn. by exists e.
  - intros k. destruct (Hloc k) as [[Hin E]|[Hn E]]; unfold located; rewrite E.
    + pose proof (copied_value G h m C p ni k Hinv Hr Ho HC (Hc k) Hin) as Hv.
      destruct (ni !! k) as [e|]; [|done]. destruct Hv as (v & Hv & Hm). exists v. rewrite log_of_app.
      split; [|done]. apply elem_of_app. by right.
    + apply (located_app_l G (live h) [p] h k), Hr.
  - intros k Hu. destruct (Hloc k) as [[Hin E]|[Hn E]]; unfold located; rewrite E; [|apply Hr].
    pose proof (copied_value G h m C p ni k Hinv Hr Ho HC (Hc k) Hin) as Hv.
    destruct (ni !! k) as [e|] eqn:En; [|done]. destruct (Hb k) as [Hu' _].
    rewrite (proj2 (Hu' e)) in Hu by done. done.
Qed.

Lemma swap_ok G h m C p u :
  hinv time_at G h → comp_inv G h m (CIndexed C p u) → comp_ok m (comp_step time_at range_map h (CIndexed C p u)).
Proof using Type.
  intros Hinv (HC & [Hp (rs & HG & Hh)] & Hold & Hloc & _). cbn [comp_step].
  destruct (install_live h C p Hp (inv_nodup _ _ _ Hinv) (inv_active _ _ _ Hinv) HC) as [Hnd Hlive].
  set (h' := install_segments h _ p) in *. exists G. change (hinv time_at G h' ∧ comp_inv G h' m (CSwapped C)).
  split; [|split].
  - destruct Hinv as [I1 I2 I3 I4 I5 I6 I7]. split; try done.
    intros q [->|[Hq _]]%Hlive; [by exists rs|]. by apply I5.
  - intros k. specialize (Hloc k). specialize (Hold k). unfold located, in_old in *. change (h_index h') with (h_index h).
    destruct (si_map (h_index h) !! k) as [e|]; [|done]. destruct Hloc as (v & Hin & Hm). exists v. split; [|done].
    unfold hlog. destruct e as [q o sz t]. apply log_of_elem_iff in Hin as [Hq Hin].
    apply log_of_elem_iff. split; [|done]. apply Hlive. apply elem_of_app in Hq as [Hq|Hq].
    + right. split; [done|]. intros HqC. apply Hold. by eexists.
    + left. by apply list_elem_of_singleton in Hq.
  - intros q HqC. assert (Hq : q ∈ live h) by (by eapply oldest_live). split.
    + intros [->|[_ ?]]%Hlive; done.
    + destruct (inv_live _ _ _ Hinv q Hq) as (rs' & ? & ?). by exists rs'.
Qed.

Lemma remove_ok G h m C :
  hinv time_at G h → comp_inv G h m (CSwapped C) → comp_ok m (comp_step time_at range_map h (CSwapped C)).
Proof using Type.
  intros Hinv [Hr HC]. cbn [comp_step]. pose proof (remove_aside h C) as HA. exists G. split; [|split; [done|]].
  - eapply hinv_aside; [exact HA| |done]. intros q Hq HqC. by destruct (HC q HqC).
  - destruct (same_shape_stored h _ G m (as_shape _ _ _ HA)). auto.
Qed.

(** Every step keeps the map and brings the run closer to its end. *)
Lemma comp_step_ok G h m s :
  hinv time_at G h → comp_inv G h m s →
  comp_ok m (comp_step time_at range_map h s) ∧
  (steps_left (comp_step time_at range_map h s).2 ≤ pred (steps_left s))%nat.
Proof using time_mono range_perm.
  intros Hinv Hs. destruct s as [|C|C vals|C p ni|C p u d|C p u|C|r].
  - destruct Hs as [Hr Ho]. pose proof (select_ok G h m Hinv Hr Ho) as H. split; [done|]. cbn [comp_step].
    destruct (_ <? 2); [simpl; lia|]. by destruct (acquire_all h _) as [? []]; simpl; lia.
  - pose proof (read_ok G h m C Hinv Hs). split; [done|]. cbn [comp_step].
    destruct (compact_read h C ∅) as [? [?|?|]]; simpl; lia.
  - pose proof (write_ok G h m C vals Hinv Hs). split; [done|]. cbn [comp_step].
    destruct (write_compacted time_at range_map h vals) as [? [[? ?]|?|]]; simpl; lia.
  - pose proof (batch_ok G h m C p ni Hinv Hs). split; [done|]. cbn [comp_step].
    destruct (compaction_batch range_map h _ ni); simpl; lia.
  - split; [by eapply install_ok|]. simpl. lia.
  - split; [by eapply swap_ok|]. simpl. lia.
  - split; [by eapply remove_ok|]. simpl. lia.
  - split; [by exists G|]. simpl. lia.
Qed.

Lemma comp_steps_ok n : ∀ G h m s,
  hinv time_at G h → comp_inv G h m s → (steps_left s ≤ n)%nat →
  ∃ h' G', comp_steps time_at range_map n h s = (h', CDone (Ok tt)) ∧ hinv time_at G' h' ∧ represents G' h' m.
Proof using time_mono range_perm.
  induction n as [|n IH]; intros G h m s Hinv Hs Hn.
  - destruct s; simpl in Hn; try lia. destruct Hs as [-> Hr]. exists h, G. done.
  - cbn [comp_steps]. destruct (comp_step_ok G h m s Hinv Hs) as [(G' & Hinv' & Hs') Hl].
    destruct (comp_step time_at range_map h s) as [h' s']. apply (IH G'); [done|done|]. simpl in *. lia.
Qed.

Lemma doCompact_spec G h m :
  hinv time_at G h → represents G h m → ordered G h →
  ∃ h' G', doCompact time_at range_map h = (h', Ok tt) ∧ hinv time_at G' h' ∧ represents G' h' m.
Proof using time_mono range_perm.
  intros Hinv Hr Ho. destruct (comp_steps_ok 7 G h m CStart Hinv) as (h' & G' & E & Hi & Hr'); [done|simpl; lia|].
  rewrite comp_steps_doCompact in E. destruct (doCompact time_at range_map h) as [h2 r]. simplify_eq. by exists h', G'.
Qed.
End steps_ok.
