(* ===== verification/HashRecovery.v ===== *)
(** Opening the hash engine ([recover] of [src/hashindex/recovery.go] and [New] of
    [hashindex.go]). *)
From S2P Require Import Prelude GoLib Common HashShard HashSegment HashIndex HashCompaction.
From stdpp Require Import base gmap list strings numbers sorting.

Open Scope Z_scope.

(** The order of [sort.Slice(segmentInfos, ...)]. *)
Definition info_le (a b : Z * bytes) : Prop := a.1 ≤ b.1.
#[global] Instance info_le_dec : RelDecision info_le.
Proof. intros a b. unfold info_le. apply _. Defined.

Section recovery.
Context (time_at : nat → Z).
Context (range_map : ∀ V, gmap bytes V → list (bytes * V)).

(** [file.Truncate(offset)] and [seg.size.Store(offset)]. *)
Definition truncate_at (h : HashIndex) (p offset : Z) : HashIndex :=
  let h := set_inodes (alter (take (Z.to_nat offset)) p (h_inodes h)) h in
  update_seg p (λ s, Segment (seg_id s) (seg_open s) offset (seg_closed s) (seg_refCount s)) h.

(** The scan of one segment: [io.EOF] ends it, any other error truncates the file. *)
Fixpoint recover_scan (fuel : nat) (h : HashIndex) (p offset statSize : Z)
    (latestValues : gmap bytes indexEntry) : HashIndex * res (gmap bytes indexEntry) :=
  if offset <? statSize then
    match fuel with
    | O => (h, Panic)
    | S fuel =>
        match readRecord_at h p offset with
        | (h, Ok (key, _, nextOffset)) =>
            let recordSize := i32 (nextOffset - offset) in
            let '(now, h) := unix time_at h in
            recover_scan fuel h p nextOffset statSize
              (<[key := IndexEntry p offset recordSize now]> latestValues)
        | (h, Err e) =>
            if bool_decide (e = EOF) then (h, Ok latestValues)
            else (truncate_at h p offset, Ok latestValues)
        | (h, Panic) => (h, Panic)
        end
    end
  else (h, Ok latestValues).

(** Opening one segment file: a fresh handle whose size is the file's. *)
Definition open_segment (h : HashIndex) (p : Z) (content : bytes) : HashIndex :=
  let h := set_inodes (<[p := content]> (h_inodes h)) h in
  let h := set_dir ({[p]} ∪ h_dir h) h in
  set_segs (<[p := Segment p true (len content) false 1]> (h_segs h)) h.

(** The loop over the segment files, oldest id first. *)
Fixpoint recover_segments (h : HashIndex) (infos : list (Z * bytes))
    (latestValues : gmap bytes indexEntry) : HashIndex * res (gmap bytes indexEntry) :=
  match infos with
  | [] => (h, Ok latestValues)
  | (p, content) :: infos =>
      let h := open_segment h p content in
      match recover_scan (length content) h p 0 (len content) latestValues with
      | (h, Ok latestValues) => recover_segments h infos latestValues
      | (h, Err e) => (h, Err e)
      | (h, Panic) => (h, Panic)
      end
  end.

Definition rebuild_index (si : shardedIndex) (kvs : list (bytes * indexEntry)) : shardedIndex :=
  foldl (λ si ke, if ie_size ke.2 =? 0 then si else si_Put si ke.1 ke.2) si kvs.

(** [segmentInfos] sorted by id: the files of the directory, by the id in their
    name. *)
Definition sorted_infos (disk : gmap Z bytes) : list (Z * bytes) :=
  merge_sort info_le (map_to_list disk).

Definition recover (h : HashIndex) (disk : gmap Z bytes) : HashIndex * res unit :=
  let infos := sorted_infos disk in
  match infos with
  | [] => (h, Ok tt)
  | _ =>
      match recover_segments h infos ∅ with
      | (h, Err e) => (h, Err e)
      | (h, Panic) => (h, Panic)
      | (h, Ok latestValues) =>
          let ids := infos.*1 in
          let h := set_active (last ids) h in
          let h := if 1 <? len ids then set_segments (take (length ids - 1) ids) h else h in
          (set_index (rebuild_index (h_index h) (range_map _ latestValues)) h, Ok tt)
      end
  end.

(** The engine before recovery. *)
Definition blank (config : Config) (clock : nat) : HashIndex :=
  MkHashIndex config newShardedIndex None [] ∅ ∅ ∅ false (MkCounters 0 0 0 0 0 0) false clock.

(** [New]: [disk] is the content of the data directory, [clock] the number of
    calls to [time.Now] made before. *)
Definition New (config : Config) (disk : gmap Z bytes) (clock : nat)
    : HashIndex * res unit :=
  match recover (blank config clock) disk with
  | (h, Ok _) =>
      match h_active h with
      | None => let '(p, h) := createSegment time_at h in (set_active (Some p) h, Ok tt)
      | Some _ => (h, Ok tt)
      end
  | (h, Err e) => (h, Err (Errorf "recovery failed"))
  | (h, Panic) => (h, Panic)
  end.
End recovery.

(** The segment files an engine leaves in its directory. *)
Definition disk_of (h : HashIndex) : gmap Z bytes :=
  filter (λ pf, pf.1 ∈ h_dir h) (h_inodes h).

(** ** Scanning rebuilds the newest location of every key *)

Section scanning.
Context (time_at : nat → Z).
Implicit Types (h : HashIndex) (G : gmap Z (list rec)).

(** [m'] is [m] updated with the newest entries of [l]. *)
Definition locs_update (l : list (bytes * (loc * bytes))) (m m' : gmap bytes indexEntry) : Prop :=
  ∀ k, entry_loc <$> m' !! k =
       match latest l !! k with Some x => Some x.1 | None => entry_loc <$> m !! k end.

Lemma locs_update_app a b m1 m2 m3 :
  locs_update a m1 m2 → locs_update b m2 m3 → locs_update (a ++ b) m1 m3.
Proof using Type.
  intros H1 H2 k. rewrite H2, latest_app_lookup. by destruct (latest b !! k).
Qed.

Lemma locs_update_one k l v e m :
  entry_loc e = l → locs_update [(k, (l, v))] m (<[k := e]> m).
Proof using Type.
  intros <- k'. change ([(k, (entry_loc e, v))]) with ([] ++ [(k, (entry_loc e, v))]).
  rewrite latest_snoc. simpl. destruct (decide (k = k')) as [->|Hne].
  - by rewrite !lookup_insert_eq.
  - by rewrite !lookup_insert_ne.
Qed.

Lemma recover_scan_spec fuel h p pre rs m :
  segment_holds h p (pre ++ rs) → (length rs ≤ fuel)%nat →
  ∃ m', recover_scan time_at fuel h p (len (file_of pre)) (len (file_of (pre ++ rs))) m =
      (set_clock (h_clock h + length rs) h, Ok m') ∧
    locs_update (entries_from p (len (file_of pre)) rs) m m'.
Proof using Type.
  revert pre fuel h m. induction rs as [|r rs IH]; intros pre fuel h m Hh Hf.
  - exists m. rewrite app_nil_r. split; [|by intros k; simpl; rewrite latest_nil_lookup].
    rewrite Nat.add_0_r. destruct fuel; simpl; rewrite Z.ltb_irrefl; by destruct h.
  - pose proof (readRecord_at_spec h p pre r rs Hh) as Hrd.
    assert (Hadd : len (file_of (pre ++ [r])) = len (file_of pre) + len (rec_bytes r)).
    { by rewrite file_of_app, len_app, file_of_cons, app_nil_r. }
    assert (Hlt : len (file_of pre) < len (file_of (pre ++ r :: rs))).
    { rewrite file_of_app, file_of_cons, !len_app. pose proof (len_rec_bytes_ge r).
      pose proof (len_nonneg (file_of rs)). unfold headerSize in *. lia. }
    apply Z.ltb_lt in Hlt. destruct fuel as [|fuel]; simpl in Hf; [lia|].
    cbn [recover_scan]. rewrite Hlt, Hrd. cbn [unix].
    set (e := IndexEntry p _ _ _). set (h1 := set_clock (S (h_clock h)) h).
    replace (pre ++ r :: rs) with ((pre ++ [r]) ++ rs) in * by by rewrite <-app_assoc.
    destruct (IH (pre ++ [r]) fuel h1 (<[rec_key r := e]> m)) as (m' & -> & Hm'); [done|lia|].
    exists m'. split; [f_equal; unfold h1, set_clock; simpl; f_equal; lia|].
    cbn [entries_from].
    eapply (locs_update_app [_]); [apply (locs_update_one _ _ _ e)|by rewrite <-Hadd].
    subst e. unfold entry_loc. simpl. f_equal. rewrite Hadd.
    replace (len (file_of pre) + len (rec_bytes r) - len (file_of pre)) with (len (rec_bytes r)) by lia.
    apply i32_small. destruct Hh as (_ & _ & Hok & _).
    apply Forall_app in Hok as [Hok _]. apply Forall_app in Hok as [_ Hok].
    apply Forall_cons in Hok as [Hok _]. pose proof (len_rec_bytes_ge r).
    unfold rec_ok, record_ok in Hok. rewrite len_rec_bytes in *. unfold headerSize in *. lia.
Qed.

(** Opening and scanning all segments. *)
Lemma recover_segments_spec G ps h m :
  NoDup ps → (∀ p, p ∈ ps → ∃ rs, G !! p = Some rs ∧ Forall rec_ok rs) →
  ∃ h' m', recover_segments time_at h ((λ p, (p, file_of (default [] (G !! p)))) <$> ps) m = (h', Ok m') ∧
    locs_update (log_of G ps) m m' ∧
    (∀ p, p ∈ ps → segment_holds h' p (default [] (G !! p))) ∧
    (∀ p rs, p ∉ ps → segment_holds h p rs → segment_holds h' p rs) ∧
    dom (h_segs h') = list_to_set ps ∪ dom (h_segs h) ∧
    dom (h_inodes h') = list_to_set ps ∪ dom (h_inodes h) ∧
    h_dir h' = list_to_set ps ∪ h_dir h ∧
    h_index h' = h_index h ∧ h_segments h' = h_segments h ∧ h_active h' = h_active h ∧
    h_closed h' = h_closed h ∧ h_config h' = h_config h ∧ (h_clock h ≤ h_clock h')%nat.
Proof using Type.
  revert h m. induction ps as [|p ps IH]; intros h m Hnd HG.
  { exists h, m. split; [done|]. split; [by intros k; simpl; rewrite latest_nil_lookup|].
    split; [set_solver|]. split; [done|]. simpl. rewrite !(left_id_L ∅ (∪)). split_and!; done. }
  apply NoDup_cons in Hnd as [Hp Hnd]. destruct (HG p) as (rs & HGp & Hok); [set_solver|].
  csimpl. rewrite HGp. simpl. set (h1 := open_segment h p (file_of rs)).
  assert (Hh1 : segment_holds h1 p rs).
  { unfold segment_holds. simpl. rewrite !lookup_insert_eq. split; [set_solver|].
    split; [done|]. split; [done|]. eexists. split; [done|]. repeat split; done. }
  destruct (recover_scan_spec (length (file_of rs)) h1 p [] rs m Hh1) as (m1 & Hscan & Hm1).
  { pose proof (length_le_file rs). unfold len in *. lia. }
  simpl in Hscan. change (len (file_of [])) with 0 in Hscan, Hm1. rewrite Hscan.
  set (h2 := set_clock _ h1).
  destruct (IH h2 m1 Hnd) as (h' & m' & -> & Hm' & Hin & Hout & Es & Ei & Ed & ?&?&?&?&?&Hc);
    [intros q Hq; apply HG; set_solver|].
  exists h', m'. split; [done|]. split.
  { by eapply (locs_update_app (entries_from p 0 rs) (log_of G ps)). }
  split.
  { intros q [->|Hq]%elem_of_cons; [|by apply Hin]. rewrite HGp. simpl. by apply Hout. }
  split.
  { intros q rs' Hq (Hd & Hi & Hk & s & Hs & Hl). apply Hout; [set_solver|].
    unfold segment_holds. simpl. rewrite !lookup_insert_ne by set_solver.
    split; [set_solver|]. eauto 10. }
  split; [rewrite Es; simpl; rewrite dom_insert_L; set_solver|].
  split; [rewrite Ei; simpl; rewrite dom_insert_L; set_solver|].
  split; [rewrite Ed; simpl; set_solver|]. split_and!; try done. simpl in Hc. lia.
Qed.
End scanning.

Lemma rebuild_index_spec si kvs :
  si_wf si → NoDup kvs.*1 → Forall (λ ke, ie_size ke.2 ≠ 0) kvs →
  si_wf (rebuild_index si kvs) ∧
  si_map (rebuild_index si kvs) = list_to_map kvs ∪ si_map si.
Proof.
  unfold rebuild_index. revert si.
  induction kvs as [|[k e] kvs IH]; intros si Hwf Hnd Hsz; simpl.
  { by rewrite (left_id_L ∅ (∪)). }
  apply NoDup_cons in Hnd as [Hk Hnd]. apply Forall_cons in Hsz as [He Hsz]. simpl in He.
  apply not_elem_of_list_to_map in Hk. destruct (Z.eqb_spec (ie_size e) 0); [done|].
  destruct (IH (si_Put si k e) (si_Put_wf _ _ _ Hwf) Hnd Hsz) as [Hwf' ->]. split; [done|].
  rewrite si_Put_map by done. by rewrite <-insert_union_l, insert_union_r.
Qed.

(** ** Opening a directory *)

(** The files of the segments [ps], and what their records store. *)
Definition files_of (G : gmap Z (list rec)) (ps : list Z) : list (Z * bytes) :=
  (λ p, (p, file_of (default [] (G !! p)))) <$> ps.

Definition contents (G : gmap Z (list rec)) (ps : list Z) : gmap bytes bytes :=
  omap (λ x : loc * bytes, visible x.2) (latest (log_of G ps)).

Lemma files_of_fst G ps : (files_of G ps).*1 = ps.
Proof. unfold files_of. rewrite <-list_fmap_compose. apply list_fmap_id. Qed.

Lemma sorted_NoDup ps : StronglySorted Z.lt ps → NoDup ps.
Proof.
  induction 1 as [|p ps Hs IH Hp]; constructor; [|done].
  intros Hin. rewrite Forall_forall in Hp. specialize (Hp p Hin). lia.
Qed.

(** Sorting the directory listing recovers the increasing order of the ids. *)
Lemma sorted_infos_files G ps :
  StronglySorted Z.lt ps → sorted_infos (list_to_map (files_of G ps)) = files_of G ps.
Proof.
  intros Hs. assert (Hnd : NoDup (files_of G ps).*1)
    by (rewrite files_of_fst; by apply sorted_NoDup).
  assert (Hp : sorted_infos (list_to_map (files_of G ps)) ≡ₚ files_of G ps).
  { unfold sorted_infos. rewrite merge_sort_Permutation. by apply map_to_list_to_map. }
  eapply (StronglySorted_unique_strong info_le); [| | |exact Hp].
  - intros [p c] [q d] H1 H2 Hle1 Hle2. unfold info_le in *. simpl in *.
    assert (p = q) as -> by lia. f_equal. rewrite Hp in H1.
    apply (elem_of_list_to_map_1 _ _ _ Hnd) in H1. apply (elem_of_list_to_map_1 _ _ _ Hnd) in H2.
    congruence.
  - apply Sorted_StronglySorted; [intros [] [] []; unfold info_le; simpl; lia|].
    apply Sorted_merge_sort. intros [a ?] [b ?]. unfold info_le. simpl. lia.
  - clear Hnd Hp. induction Hs as [|p ps Hs IH Hp]; constructor; [done|].
    apply Forall_fmap. eapply Forall_impl; [exact Hp|]. intros q Hq. unfold info_le. simpl. lia.
Qed.

Section opening.
Context (time_at : nat → Z).
Context (time_mono : ∀ n, time_at n < time_at (S n)).
Context (range_map : ∀ V, gmap bytes V → list (bytes * V)).
Context (range_perm : ∀ V m, range_map V m ≡ₚ map_to_list m).

Lemma time_le n n' : (n ≤ n')%nat → time_at n ≤ time_at n'.
Proof using time_mono.
  induction 1 as [|n' _ IH]; [lia|]. pose proof (time_mono n'). lia.
Qed.

(** The index rebuilt from the scan is the scan's map. *)
Lemma rebuild_scan G ps m :
  locs_update (log_of G ps) ∅ m →
  si_wf (rebuild_index newShardedIndex (range_map _ m)) ∧
  si_map (rebuild_index newShardedIndex (range_map _ m)) = m.
Proof using range_perm.
  intros Hm. destruct (rebuild_index_spec newShardedIndex (range_map _ m)) as [Hwf ->].
  - apply newShardedIndex_wf.
  - rewrite range_perm. apply NoDup_fst_map_to_list.
  - rewrite range_perm. apply Forall_forall. intros [k e] He%elem_of_map_to_list.
    specialize (Hm k). rewrite He in Hm. simpl in *.
    destruct (latest (log_of G ps) !! k) as [[[[q o] sz] v]|] eqn:El; [|by rewrite lookup_empty in Hm].
    apply latest_elem, log_of_elem in El as (_ & pre & r & post & _ & _ & _ & _ & Hsz).
    simpl in Hm. unfold entry_loc in Hm. injection Hm as _ _ Hm. pose proof (len_rec_bytes_ge r).
    unfold headerSize in *. lia.
  - split; [done|]. rewrite newShardedIndex_map, (right_id_L ∅ (∪)).
    etrans; [apply list_to_map_proper; [|apply range_perm]|apply list_to_map_to_list].
    rewrite range_perm. apply NoDup_fst_map_to_list.
Qed.

(** What the newest records store is what the engine answers. *)
Lemma ordered_represents G h :
  ordered G h → represents G h (contents G (live h)).
Proof using Type.
  intros Hord k. specialize (Hord k). unfold contents. rewrite lookup_omap.
  change (hlog G h) with (log_of G (live h)) in Hord |- *.
  destruct (si_map (h_index h) !! k) as [e|], (latest (log_of G (live h)) !! k) as [[l v]|] eqn:E;
    simplify_eq/=; [|done].
  apply latest_elem in E. eauto.
Qed.

Lemma New_empty cfg clock :
  ∃ h, New time_at range_map cfg ∅ clock = (h, Ok tt) ∧
    hinv time_at {[time_at clock := []]} h ∧ ordered {[time_at clock := []]} h ∧ chrono h ∧
    live h = [time_at clock] ∧ h_config h = cfg ∧ h_index h = newShardedIndex.
Proof using time_mono.
  clear range_perm. eexists. split; [reflexivity|]. split; [|split; [|split; [|done]]].
  - split; simpl; [done|apply newShardedIndex_wf|done|apply NoDup_singleton| | |].
    + intros p ->%list_elem_of_singleton. exists []. rewrite lookup_singleton_eq.
      split; [done|]. unfold segment_holds. simpl. rewrite !lookup_insert_eq.
      split; [set_solver|]. split; [done|]. split; [done|]. eexists. split; [done|].
      repeat split; done.
    + intros p [<-|[_ [? Hp]]]%lookup_insert_is_Some; [apply time_mono|done].
    + intros p [<-|[_ [? Hp]]]%lookup_insert_is_Some; [apply time_mono|done].
  - intros k. change (hlog ?G _) with (log_of G [time_at clock]).
    rewrite log_of_singleton, lookup_singleton_eq. simpl. rewrite newShardedIndex_map, latest_nil_lookup, lookup_empty. done.
  - split; [by repeat constructor|]. simpl. set_solver.
Qed.

Lemma New_spec cfg G ps clock :
  StronglySorted Z.lt ps → ps ≠ [] →
  (∀ p, p ∈ ps → p < time_at clock ∧ ∃ rs, G !! p = Some rs ∧ Forall rec_ok rs) →
  ∃ h, New time_at range_map cfg (list_to_map (files_of G ps)) clock = (h, Ok tt) ∧
    hinv time_at G h ∧ ordered G h ∧ chrono h ∧ live h = ps ∧ h_config h = cfg.
Proof using time_mono range_perm.
  intros Hs Hne HG. unfold New, recover. rewrite (sorted_infos_files G ps Hs).
  pose proof (sorted_NoDup ps Hs) as Hnd.
  destruct (recover_segments_spec time_at G ps (blank cfg clock) ∅ Hnd)
    as (h & m & Hrun & Hm & Hin & _ & Es & Ei & Ed & Ex & Esg & Ea & Ec & Ecfg & Hclk);
    [intros p Hp; by apply HG|].
  change (_ <$> ps) with (files_of G ps) in Hrun. rewrite Hrun.
  destruct (files_of G ps) as [|x xs] eqn:Ef; [by destruct ps|]. rewrite <-Ef, files_of_fst.
  destruct (rebuild_scan G ps m Hm) as [Hwf Hmap].
  destruct (exists_last Hne) as (qs & q & ->). rewrite last_snoc.
  set (h1 := if 1 <? _ then _ else _).
  assert (E1 : h1 = set_segments qs (set_active (Some q) h)).
  { subst h1. rewrite length_app, Nat.add_sub, take_app_length.
    destruct (Z.ltb_spec 1 (len (qs ++ [q]))) as [_|Hl]; [done|].
    destruct qs; [|unfold len in Hl; rewrite length_app in Hl; simpl in Hl; lia].
    unfold set_segments, set_active. simpl. by rewrite Esg. }
  rewrite E1. simpl. eexists. split; [reflexivity|]. rewrite Ex. simpl.
  split; [|split; [|split; [|done]]].
  - split; simpl; try done.
    + intros p Hp. destruct (HG p Hp) as (_ & rs & HGp & _). exists rs. split; [done|].
      specialize (Hin p Hp). rewrite HGp in Hin. exact Hin.
    + intros p Hp%elem_of_dom. rewrite Es in Hp.
      assert (p ∈ qs ++ [q]) as Hp' by (simpl in Hp; set_solver).
      destruct (HG p Hp') as [? _]. pose proof (time_le _ _ Hclk). simpl in *. lia.
    + intros p Hp%elem_of_dom. rewrite Ei in Hp.
      assert (p ∈ qs ++ [q]) as Hp' by (simpl in Hp; set_solver).
      destruct (HG p Hp') as [? _]. pose proof (time_le _ _ Hclk). simpl in *. lia.
  - intros k. simpl. rewrite Hmap, Hm, lookup_empty.
    change (hlog _ _) with (log_of G (qs ++ [q])). by destruct (latest _ !! k).
  - split; [done|]. simpl. rewrite Ed. simpl. set_solver.
Qed.

(** The directory an engine leaves holds its segments' records. *)
Lemma disk_of_live G h :
  hinv time_at G h → chrono h → disk_of h = list_to_map (files_of G (live h)).
Proof using Type.
  clear time_mono range_perm range_map. intros Hinv [Hs Hd]. apply map_eq. intros p.
  assert (Hnd : NoDup (files_of G (live h)).*1)
    by (rewrite files_of_fst; by apply sorted_NoDup).
  destruct (decide (p ∈ live h)) as [Hp|Hp].
  - destruct (inv_live _ _ _ Hinv p Hp) as (rs & HG & Hdir & Hi & _).
    transitivity (Some (file_of rs)).
    + apply map_lookup_filter_Some. done.
    + symmetry. apply elem_of_list_to_map_1; [done|]. apply list_elem_of_fmap.
      exists p. by rewrite HG.
  - transitivity (@None bytes).
    + apply map_lookup_filter_None. right. intros f _. simpl. rewrite Hd. set_solver.
    + symmetry. apply not_elem_of_list_to_map_1. by rewrite files_of_fst.
Qed.

(** Reopening the directory of a running engine. *)
Lemma reopen_spec G h cfg clock m :
  hinv time_at G h → ordered G h → chrono h → represents G h m → (h_clock h ≤ clock)%nat →
  ∃ h', New time_at range_map cfg (disk_of h) clock = (h', Ok tt) ∧
    hinv time_at G h' ∧ ordered G h' ∧ chrono h' ∧ represents G h' m ∧ h_config h' = cfg.
Proof using time_mono range_perm.
  intros Hinv Hord Hchr Hrep Hclk. rewrite (disk_of_live G h Hinv Hchr).
  destruct (inv_active _ _ _ Hinv) as [a Ha].
  destruct (New_spec cfg G (live h) clock) as (h' & -> & Hinv' & Hord' & Hchr' & El & Hcfg).
  - apply Hchr.
  - rewrite (live_active h a Ha). by destruct (h_segments h).
  - intros p Hp. destruct (inv_live _ _ _ Hinv p Hp) as (rs & HG & _ & Hi & Hok & _).
    split; [|eauto]. pose proof (inv_fresh_inode _ _ _ Hinv p (ex_intro _ _ Hi)).
    pose proof (time_le _ _ Hclk). lia.
  - exists h'. split_and!; try done. pose proof (ordered_represents G h' Hord') as Hr.
    pose proof (ordered_represents G h Hord) as Hr0. rewrite El in Hr.
    assert (contents G (live h) = m) as <-; [|done]. apply map_eq. intros k.
    pose proof (proj1 (Get_spec time_at G h _ k Hinv Hr0)) as H1.
    pose proof (proj1 (Get_spec time_at G h _ k Hinv Hrep)) as H2.
    rewrite H1 in H2. unfold store_Get in H2. by destruct (contents G (live h) !! k), (m !! k); simplify_eq/=.
Qed.
End opening.

(** ** Recovery of any directory *)

Lemma le_u32_nonneg b : Forall is_byte b → 0 ≤ le_u32 b.
Proof. intros Hb. unfold le_u32. apply le_get_bounds. by apply Forall_take. Qed.

(** A record that is read takes at least its header. *)
Lemma read_record_advances f off k v next :
  Forall is_byte f → read_record f off = Ok (k, v, next) → off + headerSize ≤ next.
Proof.
  intros Hf. unfold read_record, ReadAt. set (header := take _ _). assert (Hh : Forall is_byte header) by (by apply Forall_take, Forall_drop).
  destruct (len header <? headerSize); [by destruct (_ && _)|]. unfold parse_header.
  assert (Hs : ∀ a b, 0 ≤ le_u32 (slice a b header)) by (intros a b; apply le_u32_nonneg; unfold slice; by apply Forall_take, Forall_drop).
  set (data := take _ _). destruct (_ <? _); [done|]. destruct (negb _); [done|]. destruct (_ <? _); [done|].
  intros [= _ _ <-]. pose proof (Hs 12 16). pose proof (Hs 16 20). lia.
Qed.

(** A record makes the reader panic only when its sizes wrap around 32 bits. *)
Lemma read_record_panics f off :
  read_record f off = Panic →
  let header := take (Z.to_nat headerSize) (drop (Z.to_nat off) f) in
  u32 (le_u32 (slice 12 16 header) + le_u32 (slice 16 20 header)) < le_u32 (slice 12 16 header).
Proof.
  unfold read_record, ReadAt. set (header := take _ (drop (Z.to_nat off) f)).
  destruct (len header <? headerSize); [by destruct (_ && _)|]. unfold parse_header.
  set (n := u32 _). destruct (Z.ltb_spec (len (take (Z.to_nat n) (drop (Z.to_nat (off + headerSize)) f))) n); [done|].
  destruct (negb _); [done|]. destruct (Z.ltb_spec (len (take (Z.to_nat n) (drop (Z.to_nat (off + headerSize)) f))) (le_u32 (slice 12 16 header))); [|done].
  intros _. cbv zeta. lia.
Qed.

Section any_directory.
Context (time_at : nat → Z).
Implicit Types (h : HashIndex).

(** Bytes in which no record makes the reader panic. *)
Definition readable (f : bytes) : Prop := Forall is_byte f ∧ ∀ off, read_record f off ≠ Panic.

(** Scanning stops, whatever the bytes are, and at most cuts a tail off the file. *)
Lemma recover_scan_total fuel : ∀ h p off m f s,
  h_segs h !! p = Some s → seg_live s → h_inodes h !! p = Some f → readable f →
  0 ≤ off → len f ≤ off + headerSize * Z.of_nat fuel →
  ∃ h' m' n, recover_scan time_at fuel h p off (len f) m = (h', Ok m') ∧
    h_inodes h' = <[p := take n f]> (h_inodes h).
Proof using Type.
  induction fuel as [|fuel IH]; intros h p off m f s Hs Hl Hi Hf Hoff Hfuel; cbn [recover_scan];
    destruct (Z.ltb_spec off (len f)) as [Hlt|Hge].
  2,4: exists h, m, (length f); (split; [done|]); by rewrite take_ge, insert_id.
  { unfold headerSize in *. lia. }
  unfold readRecord_at. rewrite Hs, Hi. unfold segment_readRecord.
  destruct (acquire_release s Hl) as (s' & -> & -> & Hrel). simpl. rewrite Hrel, insert_id, set_segs_id by done.
  destruct Hf as [Hb Hp]. specialize (Hp off) as Hoffp. destruct (read_record f off) as [[[k v] next]|e|] eqn:E; [| |done].
  - pose proof (read_record_advances f off k v next Hb E). unfold headerSize in *.
    apply (IH (set_clock (S (h_clock h)) h) p next _ f s); [done|done|done|done|lia|lia].
  - destruct (bool_decide (e = EOF)).
    + exists h, m, (length f). split; [done|]. by rewrite take_ge, insert_id.
    + do 2 eexists. exists (Z.to_nat off). split; [reflexivity|]. cbn. apply map_eq. intros q.
      destruct (decide (p = q)) as [<-|Hne]; [by rewrite lookup_alter_eq, lookup_insert_eq, Hi|].
      by rewrite lookup_alter_ne, lookup_insert_ne.
Qed.

Lemma recover_segments_total infos : ∀ h m,
  NoDup infos.*1 → Forall (λ pf, readable pf.2) infos →
  ∃ h' m', recover_segments time_at h infos m = (h', Ok m') ∧
    (∀ p f, (p, f) ∈ infos → ∃ n, h_inodes h' !! p = Some (take n f)) ∧
    (∀ p, p ∉ infos.*1 → h_inodes h' !! p = h_inodes h !! p).
Proof using Type.
  induction infos as [|[p f] infos IH]; intros h m Hnd Hf; cbn [recover_segments].
  { exists h, m. split; [done|]. split; [by intros p f ?%elem_of_nil|done]. }
  rewrite fmap_cons in Hnd. apply NoDup_cons in Hnd as [Hp Hnd]. apply Forall_cons in Hf as [Hpf Hf].
  destruct (recover_scan_total (length f) (open_segment h p f) p 0 m f (Segment p true (len f) false 1))
    as (h1 & m1 & n & -> & Hi1); [apply lookup_insert_eq|by split|apply lookup_insert_eq|done|lia|unfold headerSize, len; lia|].
  destruct (IH h1 m1 Hnd Hf) as (h2 & m2 & -> & Hin & Hout). exists h2, m2. split; [done|]. split.
  - intros q g [[= -> ->]|Hq]%elem_of_cons; [|by apply Hin]. exists n. simpl in Hp. by rewrite (Hout p Hp), Hi1, lookup_insert_eq.
  - intros q [Hne Hq]%not_elem_of_cons. simpl in Hne. rewrite (Hout q Hq), Hi1, lookup_insert_ne by done. simpl. by rewrite lookup_insert_ne.
Qed.
End any_directory.


(** A test for readable bytes: no header at any place has sizes that wrap around. *)
Definition wraps_at (f : bytes) (n : nat) : bool :=
  let header := take (Z.to_nat headerSize) (drop n f) in
  u32 (le_u32 (slice 12 16 header) + le_u32 (slice 16 20 header)) <? le_u32 (slice 12 16 header).

Lemma readable_test f : Forall is_byte f → forallb (λ n, negb (wraps_at f n)) (seq 0 (length f)) = true → readable f.
Proof.
  intros Hb Ht. split; [done|]. intros off Hp%read_record_panics. cbv zeta in Hp.
  destruct (decide (Z.to_nat off < length f)%nat) as [Hlt|Hge].
  - rewrite forallb_forall in Ht. specialize (Ht (Z.to_nat off)). unfold wraps_at in Ht.
    apply Z.ltb_lt in Hp. rewrite Hp in Ht. discriminate Ht. apply in_seq. lia.
  - rewrite drop_ge in Hp by lia. done.
Qed.

(** A record, and bytes that are none after it. *)
Definition garbage_disk : gmap Z bytes := {[3 := file_of [(0, [7], [8])] ++ [255; 255; 1]]}.

