(* ===== verification/HashTheorems.v ===== *)
(** What the hash engine guarantees: it implements the abstract map of [Common] over
    client sessions, restarts and one background compaction, and it recovers every
    completed record after a torn write.  The last section shows, on concrete runs,
    where a second compaction, a restart after a compaction and a torn write followed by
    two restarts leave that specification. *)
From stdpp Require Import base gmap list strings numbers sorting.
From S2P Require Import Prelude GoLib Common HashShard HashSegment.
From S2P Require Import HashIndex HashCompaction HashSteps HashRecovery.

Open Scope Z_scope.

(** ** The engine as a [StorageEngine] *)

(** An empty value reads back as absent and empty keys are refused. *)
Definition hash_policy : policy := MkPolicy visible true.

Section engine.
Context (time_at : nat → Z).
Context (range_map : ∀ V, gmap bytes V → list (bytes * V)).

#[local] Instance hash_engine : StorageEngine HashIndex := {
  se_Put := Put time_at;
  se_Get := Get;
  se_Delete := Delete time_at;
  se_Sync := Sync;
}.

(** One round of [compactionWorker]: take the request off the channel and compact;
    an error is only printed. *)
Definition compactionWorker (h : HashIndex) : HashIndex :=
  if h_compactChan h then (doCompact time_at range_map (set_compactChan false h)).1 else h.

(** Closing an engine and opening its directory again. *)
Definition restart (h : HashIndex) : HashIndex * res unit :=
  let '(h, _) := Close h in New time_at range_map (h_config h) (disk_of h) (h_clock h).

(** The states an engine goes through, from an empty directory, with the map its
    calls describe.  The flag records that a compaction has run; the background
    worker may run between any two calls. *)
Inductive reach (cfg : Config) : bool → HashIndex → gmap bytes bytes → Prop :=
| reach_new clock h :
    New time_at range_map cfg ∅ clock = (h, Ok tt) → reach cfg false h ∅
| reach_call compacted h m c :
    reach cfg compacted h m → call_fits record_ok c →
    reach cfg compacted (se_call h c).1 (store_call hash_policy m c).1
| reach_Compact compacted h m :
    reach cfg compacted h m → reach cfg compacted (Compact h).1 m
| reach_restart h h' m :
    reach cfg false h m → restart h = (h', Ok tt) → reach cfg false h' m
| reach_worker h m :
    reach cfg false h m → reach cfg true (compactionWorker h) m.
End engine.

Lemma active_live h a : h_active h = Some a → a ∈ live h.
Proof. intros Ha. rewrite (live_active h a Ha). set_solver. Qed.

Section guarantees.
Context (time_at : nat → Z).
Context (time_mono : ∀ n, time_at n < time_at (S n)).
Context (range_map : ∀ V, gmap bytes V → list (bytes * V)).
Context (range_perm : ∀ V m, range_map V m ≡ₚ map_to_list m).
#[local] Hint Extern 0 (StorageEngine HashIndex) =>
  exact (hash_engine time_at) : typeclass_instances.

Implicit Types (h : HashIndex) (m : gmap bytes bytes) (G : gmap Z (list rec)).

(** The engine stores [m]; [fresh] adds that no compaction has reordered its
    segments. *)
Definition stores h m : Prop := ∃ G, hinv time_at G h ∧ represents G h m.
Definition stores_fresh h m : Prop :=
  ∃ G, hinv time_at G h ∧ represents G h m ∧ ordered G h ∧ chrono h.

Lemma stores_fresh_stores h m : stores_fresh h m → stores h m.
Proof using Type. intros (G & ? & ? & _). by exists G. Qed.

Lemma set_stats_hinv G h m c :
  hinv time_at G h → represents G h m →
  hinv time_at G (set_stats c h) ∧ represents G (set_stats c h) m.
Proof using Type. intros Hi Hr. split; [by eapply hinv_frame|exact Hr]. Qed.

Lemma Put_empty_key h v : Put time_at h [] v = (h, Err ErrKeyEmpty).
Proof using Type. done. Qed.

Lemma write_map_nil k m : write_map k [] m = delete k m.
Proof using Type. done. Qed.

Lemma Sync_ok G h : hinv time_at G h → Sync h = Ok tt.
Proof using Type.
  intros Hi. unfold Sync. rewrite (inv_open _ _ _ Hi).
  destruct (inv_active _ _ _ Hi) as [a Ha]. rewrite Ha.
  destruct (inv_live _ _ _ Hi a) as (rs & _ & _ & _ & _ & s & Hs & (_ & Ho & _) & _).
  { by apply active_live. }
  rewrite Hs. unfold segment_sync. by rewrite Ho.
Qed.

(** A write answers and acts as the abstract store does, in both phases. *)
Lemma Put_stores h m k v :
  record_ok k v →
  (stores h m → (Put time_at h k v).2 = (store_Put hash_policy m k v).2 ∧
     stores (Put time_at h k v).1 (store_Put hash_policy m k v).1) ∧
  (stores_fresh h m → stores_fresh (Put time_at h k v).1 (store_Put hash_policy m k v).1).
Proof using time_mono.
  intros Hok. unfold store_Put, refused. simpl. destruct (bytes_eqb k []) eqn:Ek.
  { by apply bytes_eqb_eq in Ek as ->. }
  assert (Hk : k ≠ []) by (intros ->; done). split.
  - intros (G & Hi & Hr). destruct (Put_spec time_at time_mono G h k v Hi Hk Hok)
      as (h' & -> & (G' & Hi' & Hr' & _)%wrote_represents); [|done]. split; [done|]. exists G'. split; [done|]. by apply Hr'.
  - intros (G & Hi & Hr & Ho & Hc). destruct (Put_spec time_at time_mono G h k v Hi Hk Hok)
      as (h' & -> & (G' & Hi' & Hr' & Ho' & Hc')%wrote_represents); [|done]. exists G'. split_and!; auto.
    by apply Hr'.
Qed.

#[local] Instance hash_stores_map : StoresMap HashIndex hash_policy record_ok stores.
Proof using time_mono.
  split; cbn [se_Put se_Get se_Delete se_Sync hash_engine].
  - intros h m k v HR Hok. by apply Put_stores.
  - intros h m k (G & Hi & Hr). destruct (Get_spec time_at G h m k Hi Hr) as [E [c Ec]].
    split; [done|]. rewrite Ec. exists G. by apply set_stats_hinv.
  - intros h m k HR Hok. destruct (Put_stores h m k [] Hok) as [H _].
    specialize (H HR). unfold Delete, store_Put, store_Delete in *. by destruct (refused _ k).
  - intros h m (G & Hi & _). by eapply Sync_ok.
Qed.

Lemma call_stores_fresh h m c :
  stores_fresh h m → call_fits record_ok c →
  stores_fresh (se_call h c).1 (store_call hash_policy m c).1.
Proof using time_mono.
  intros HR Hf. destruct c as [k v|k|k|]; simpl in *.
  - destruct (Put_stores h m k v Hf) as [_ H]. specialize (H HR).
    by destruct (Put time_at h k v), (store_Put hash_policy m k v).
  - destruct HR as (G & Hi & Hr & Ho & Hc). destruct (Get_spec time_at G h m k Hi Hr) as [_ [c Ec]].
    destruct (Get h k) as [h' r]. simpl in *. subst h'. exists G.
    destruct (set_stats_hinv G h m c Hi Hr). split_and!; done.
  - destruct (Put_stores h m k [] Hf) as [_ H]. specialize (H HR).
    unfold Delete, store_Put, store_Delete in *. destruct (Put time_at h k []).
    by destruct (refused _ k).
  - done.
Qed.

(** Closing changes handles only. *)
Lemma Close_frame h :
  disk_of (Close h).1 = disk_of h ∧ h_config (Close h).1 = h_config h ∧
  h_clock (Close h).1 = h_clock h.
Proof using Type.
  assert (Hf : ∀ l h', disk_of (foldl (λ h p, update_seg p segment_close h) h' l) = disk_of h' ∧
    h_config (foldl (λ h p, update_seg p segment_close h) h' l) = h_config h' ∧
    h_clock (foldl (λ h p, update_seg p segment_close h) h' l) = h_clock h').
  { induction l as [|p l IH]; intros h'; simpl; [done|]. by destruct (IH (update_seg p segment_close h')). }
  unfold Close. destruct (h_closed h); [done|]. simpl.
  match goal with |- context [foldl _ ?x ?l] => destruct (Hf l x) as (-> & -> & ->) end.
  by destruct (h_active h).
Qed.

Lemma restart_stores h m :
  stores_fresh h m →
  ∃ h', restart time_at range_map h = (h', Ok tt) ∧ stores_fresh h' m ∧ h_config h' = h_config h.
Proof using time_mono range_perm.
  intros (G & Hi & Hr & Ho & Hc). unfold restart.
  destruct (Close_frame h) as (Ed & Ecfg & Eclk). destruct (Close h) as [h0 r]. simpl in *.
  rewrite Ed, Ecfg, Eclk.
  destruct (reopen_spec time_at time_mono range_map range_perm G h (h_config h) (h_clock h) m)
    as (h' & -> & ? & ? & ? & ? & ?); try done.
  exists h'. split; [done|]. split; [|done]. exists G. done.
Qed.

Lemma worker_stores h m :
  stores_fresh h m → stores (compactionWorker time_at range_map h) m.
Proof using time_mono range_perm.
  intros (G & Hi & Hr & Ho & Hc). unfold compactionWorker. destruct (h_compactChan h); [|by exists G].
  destruct (doCompact_spec time_at time_mono range_map range_perm G (set_compactChan false h) m)
    as (h' & G' & -> & Hi' & Hr'); [by apply hinv_compactChan|done|done|]. by exists G'.
Qed.

Lemma Compact_stores h m :
  (stores h m → stores (Compact h).1 m) ∧ (stores_fresh h m → stores_fresh (Compact h).1 m).
Proof using Type.
  unfold Compact. destruct (h_closed h), (h_compactChan h); try done. split.
  - intros (G & Hi & Hr). exists G. split; [by apply hinv_compactChan|done].
  - intros (G & Hi & Hr & ? & ?). exists G. split; [by apply hinv_compactChan|done].
Qed.

Lemma New_stores cfg clock :
  ∃ h, New time_at range_map cfg ∅ clock = (h, Ok tt) ∧ stores_fresh h ∅.
Proof using time_mono.
  destruct (New_empty time_at time_mono range_map cfg clock)
    as (h & E & Hi & Ho & Hc & _ & _ & Hx).
  exists h. split; [done|]. eexists. split; [done|]. split; [|done].
  intros k. by rewrite Hx, newShardedIndex_map, lookup_empty.
Qed.

Lemma reach_stores cfg compacted h m :
  reach time_at range_map cfg compacted h m →
  stores h m ∧ (compacted = false → stores_fresh h m).
Proof using time_mono range_perm.
  induction 1 as [clock h Hn|b h m c _ [IH1 IH2] Hf|b h m _ [IH1 IH2]|h h' m _ [IH1 IH2] Hr
                 |h m _ [IH1 IH2]].
  - destruct (New_stores cfg clock) as (h' & E & Hs). rewrite Hn in E. simplify_eq.
    split; [by apply stores_fresh_stores|done].
  - split; [|intros Hb; apply call_stores_fresh; auto].
    by apply (se_call_store (R := stores) (fits := record_ok)).
  - split; [|intros Hb]; apply Compact_stores; auto.
  - destruct (restart_stores h m) as (h1 & E & Hs & _); [auto|]. rewrite Hr in E. simplify_eq.
    split; [by apply stores_fresh_stores|done].
  - split; [|done]. apply worker_stores. auto.
Qed.
End guarantees.

(** ** Recovery after a torn write *)

Section torn.
Context (time_at : nat → Z).
Implicit Types (h : HashIndex).

(** The scan of a file that ends in bytes read as [io.EOF]. *)
Lemma recover_scan_torn fuel h p s pre rs t m :
  h_inodes h !! p = Some (file_of (pre ++ rs) ++ t) → Forall rec_ok rs →
  h_segs h !! p = Some s → seg_live s →
  read_record (file_of (pre ++ rs) ++ t) (len (file_of (pre ++ rs))) = Err EOF →
  (length rs < fuel)%nat →
  ∃ m' n, recover_scan time_at fuel h p (len (file_of pre)) (len (file_of (pre ++ rs) ++ t)) m =
      (set_clock n h, Ok m') ∧
    locs_update (entries_from p (len (file_of pre)) rs) m m'.
Proof using Type.
  revert pre fuel h m. induction rs as [|r rs IH]; intros pre [|fuel] h m Hi Hok Hs Hl Ht Hf;
    try (simpl in Hf; lia); destruct (acquire_release s Hl) as (s' & Hacq & Hop & Hrel).
  - rewrite app_nil_r in *. exists m, (h_clock h).
    split; [|by intros k; simpl; rewrite latest_nil_lookup].
    assert (Hh : set_clock (h_clock h) h = h) by (by destruct h). rewrite Hh. cbn [recover_scan].
    case_cmp; [|done]. unfold readRecord_at. rewrite Hs, Hi. unfold segment_readRecord.
    rewrite Hacq, Hop, Ht, Hrel. simpl. by rewrite insert_id, set_segs_id.
  - apply Forall_cons in Hok as [Hr Hok].
    assert (Hadd : len (file_of (pre ++ [r])) = len (file_of pre) + len (rec_bytes r)).
    { by rewrite file_of_app, len_app, file_of_cons, app_nil_r. }
    assert (Hlt : len (file_of pre) < len (file_of (pre ++ r :: rs) ++ t)).
    { rewrite file_of_app, file_of_cons, !len_app. pose proof (len_rec_bytes_ge r).
      pose proof (len_nonneg (file_of rs)). pose proof (len_nonneg t).
      unfold headerSize in *. lia. }
    apply Z.ltb_lt in Hlt. cbn [recover_scan]. rewrite Hlt. unfold readRecord_at.
    rewrite Hs, Hi. unfold segment_readRecord. rewrite Hacq, Hop.
    assert (Hrd : read_record (file_of (pre ++ r :: rs) ++ t) (len (file_of pre)) =
      Ok (rec_key r, rec_value r, len (file_of (pre ++ [r])))).
    { rewrite file_of_app, file_of_cons, <-!app_assoc, read_record_mid, Hadd by done. done. }
    rewrite Hrd, Hrel. cbn [negb unix]. rewrite insert_id, set_segs_id by done.
    set (e := IndexEntry p _ _ _). set (h1 := set_clock (S (h_clock h)) h).
    replace (pre ++ r :: rs) with ((pre ++ [r]) ++ rs) in * by by rewrite <-app_assoc.
    destruct (IH (pre ++ [r]) fuel h1 (<[rec_key r := e]> m)) as (m' & n & -> & Hm');
      [done..|simpl in Hf; lia|].
    exists m', n. split; [done|]. cbn [entries_from].
    eapply (locs_update_app [_]); [apply (locs_update_one _ _ _ e)|by rewrite <-Hadd].
    subst e. unfold entry_loc. simpl. f_equal. rewrite Hadd.
    replace (len (file_of pre) + len (rec_bytes r) - len (file_of pre)) with (len (rec_bytes r)) by lia.
    pose proof (len_rec_bytes_ge r). pose proof Hr as Hr'. unfold rec_ok, record_ok in Hr'.
    apply i32_small. rewrite len_rec_bytes in *. unfold headerSize in *. lia.
Qed.

Context (range_map : ∀ V, gmap bytes V → list (bytes * V)).
Context (range_perm : ∀ V m, range_map V m ≡ₚ map_to_list m).

(** Opening one file of complete records and a torn tail [t]. *)
Lemma New_torn cfg p rs t clock :
  Forall rec_ok rs → read_record (file_of rs ++ t) (len (file_of rs)) = Err EOF → t ≠ [] →
  ∃ h, New time_at range_map cfg {[p := file_of rs ++ t]} clock = (h, Ok tt) ∧
    h_closed h = false ∧ h_active h = Some p ∧ si_wf (h_index h) ∧
    h_inodes h !! p = Some (file_of rs ++ t) ∧ h_dir h = {[p]} ∧
    h_segs h !! p = Some (Segment p true (len (file_of rs ++ t)) false 1) ∧
    ∀ k, entry_loc <$> si_map (h_index h) !! k = fst <$> latest (log_of {[p := rs]} [p]) !! k.
Proof using range_perm.
  intros Hok Ht Hne. unfold New, recover, sorted_infos. rewrite map_to_list_singleton. simpl.
  set (h0 := open_segment _ _ _).
  destruct (recover_scan_torn (length (file_of rs ++ t)) h0 p
    (Segment p true (len (file_of rs ++ t)) false 1) [] rs t ∅) as (m & n & Hrun & Hm);
    [simpl; by rewrite lookup_insert_eq|done|simpl; by rewrite lookup_insert_eq|done|done| |].
  { pose proof (length_le_file rs). destruct t; [done|]. unfold len in *. rewrite length_app. simpl. lia. }
  change (len (file_of [])) with 0 in *. simpl in Hrun. rewrite Hrun. simpl.
  eexists. split; [reflexivity|]. simpl.
  assert (Hm' : locs_update (log_of {[p := rs]} [p]) ∅ m)
    by (rewrite log_of_singleton, lookup_singleton_eq; exact Hm).
  destruct (rebuild_scan range_map range_perm {[p := rs]} [p] m Hm') as [Hwf Hmap].
  rewrite !lookup_insert_eq, Hmap. split_and!; [done..| |done|]; [set_solver|].
  intros k. rewrite Hm', lookup_empty. by destruct (latest _ !! k).
Qed.

Lemma Get_torn h p rs t k :
  Forall rec_ok rs → h_closed h = false → h_active h = Some p → si_wf (h_index h) →
  h_inodes h !! p = Some (file_of rs ++ t) →
  h_segs h !! p = Some (Segment p true (len (file_of rs ++ t)) false 1) →
  (∀ k, entry_loc <$> si_map (h_index h) !! k = fst <$> latest (log_of {[p := rs]} [p]) !! k) →
  (Get h k).2 = store_Get (contents {[p := rs]} [p]) k.
Proof using Type.
  intros Hok Hc Ha Hwf Hi Hs Hord. specialize (Hord k).
  unfold Get, store_Get, contents. rewrite Hc, (si_Get_map _ Hwf), lookup_omap.
  destruct (si_map (h_index h) !! k) as [e|],
    (latest (log_of {[p := rs]} [p]) !! k) as [[l v]|] eqn:El; simplify_eq/=; [|done].
  apply latest_elem in El. unfold entry_loc in El. change (_ ++ []) with (log_of {[p := rs]} [p]) in El.
  apply log_of_elem in El as (Hq & pre & r & post & HG & Hk & Hv & Ho & Hsz).
  apply list_elem_of_singleton in Hq. rewrite Hq in HG. rewrite lookup_singleton_eq in HG.
  simplify_eq. rewrite Ha. unfold find_segment. rewrite Z.eqb_refl, Hs, Hi, Ho.
  assert (Hrd : read_value (file_of (pre ++ r :: post) ++ t) (len (file_of pre)) = Ok (rec_value r)).
  { rewrite file_of_app, file_of_cons, <-!app_assoc. apply read_value_mid.
    apply Forall_app in Hok as [_ Hok]. by apply Forall_cons in Hok as [Hok _]. }
  unfold segment_read. simpl. rewrite Hrd. unfold visible.
  destruct (rec_value r) as [|b w]; [done|].
  destruct (Z.eqb_spec (len (b :: w)) 0) as [H0|_]; [len_solve|]. done.
Qed.
End torn.

(** ** Guarantees *)

(** A clock and an enumeration of maps that satisfy the hypotheses below. *)
Definition demo_time (n : nat) : Z := Z.of_nat n.
Definition demo_range (V : Type) (m : gmap bytes V) : list (bytes * V) := map_to_list m.

Lemma demo_time_mono n : demo_time n < demo_time (S n).
Proof. unfold demo_time. lia. Qed.

Lemma demo_range_perm V m : demo_range V m ≡ₚ map_to_list m.
Proof. done. Qed.


Definition demo_calls : list call :=
  [CPut [1] [10]; CPut [2] [20]; CGet [1]; CPut [1] [11]; CDelete [2]; CGet [2]; CPut [] [1];
   CSync; CGet [1]].










(** C33: after Close every operation that needs the engine answers ErrClosed and leaves
    the state alone (an empty key is still reported first), Close is idempotent, and the
    files on disk are the ones of the running engine. *)
Theorem hash_close_errors (time_at : nat → Z) h :
  let h' := (Close h).1 in
  (Close h).2 = Ok tt ∧ Close h' = (h', Ok tt) ∧
  (∀ k v, Put time_at h' k v = (h', Err (if decide (k = []) then ErrKeyEmpty else ErrClosed))) ∧
  (∀ k, Delete time_at h' k = (h', Err (if decide (k = []) then ErrKeyEmpty else ErrClosed))) ∧
  (∀ k, Get h' k = (h', Err ErrClosed)) ∧ Sync h' = Err ErrClosed ∧
  Compact h' = (h', Err ErrClosed) ∧ disk_of h' = disk_of h.
Proof.
  simpl.
  assert (Hf : ∀ l h', h_closed (foldl (λ h p, update_seg p segment_close h) h' l) = h_closed h').
  { induction l as [|p l IH]; intros h'; simpl; [done|]. by rewrite IH. }
  assert (Hc : h_closed (Close h).1 = true).
  { unfold Close. destruct (h_closed h) eqn:E; [done|]. simpl. rewrite Hf. by destruct (h_active h). }
  assert (Hp : ∀ k v, Put time_at (Close h).1 k v =
    ((Close h).1, Err (if decide (k = []) then ErrKeyEmpty else ErrClosed))).
  { intros k v. unfold Put. rewrite Hc. destruct k as [|b k]; [done|].
    destruct (Z.eqb_spec (len (b :: k)) 0); [len_solve|done]. }
  split_and!; [by unfold Close; destruct (h_closed h)| |exact Hp|intros k; apply Hp|..].
  - unfold Close at 1. by rewrite Hc.
  - intros k. unfold Get. by rewrite Hc.
  - unfold Sync. by rewrite Hc.
  - unfold Compact. by rewrite Hc.
  - apply Close_frame.
Qed.

(** ** Where the code leaves the specification *)

Definition put_all (h : HashIndex) (kvs : list (bytes * bytes)) : HashIndex :=
  foldl (λ h kv, (Put demo_time h kv.1 kv.2).1) h kvs.

Definition small_cfg : Config := MkConfig "d" 1 4 false.

(** A compaction appends its segment at the end of the list; the next one takes it for
    the newest and brings back the value it had overwritten. *)
Example second_compaction_resurrects :
  let h := put_all (New demo_time demo_range small_cfg ∅ 0).1
    [([1], [1]); ([9], [9]); ([1], [2]); ([8], [8]); ([7], [7])] in
  let c1 := (doCompact demo_time demo_range h).1 in
  let c2 := (doCompact demo_time demo_range c1).1 in
  (Get h [1]).2 = Ok [2] ∧ (Get c1 [1]).2 = Ok [2] ∧ (Get c2 [1]).2 = Ok [1].
Proof. by vm_compute. Qed.

(** A restart sorts the compacted segment, which has the newest id, last, and replays
    its old value over the newer one. *)
Example restart_after_compaction_resurrects :
  let h := put_all (New demo_time demo_range small_cfg ∅ 0).1
    [([1], [1]); ([9], [9]); ([1], [2])] in
  let c := (doCompact demo_time demo_range h).1 in
  let r := (restart demo_time demo_range c).1 in
  (Get c [1]).2 = Ok [2] ∧ (Get r [1]).2 = Ok [1].
Proof. by vm_compute. Qed.

(** Records appended after torn bytes that recovery left in place are unreachable for
    the next recovery. *)
Example write_after_torn_tail_is_lost :
  let disk := {[3 := file_of [(0, [7], [8])] ++ take 5 (rec_bytes (0, [7], [9]))]} in
  let h := (New demo_time demo_range (MkConfig "d" 1000 4 false) disk 9).1 in
  let w := (Put demo_time h [5] [5]).1 in
  let r := (restart demo_time demo_range w).1 in
  (Get w [5]).2 = Ok [5] ∧ (Get r [5]).2 = Err ErrKeyNotFound.
Proof. by vm_compute. Qed.

(** Recovery means to skip tombstones by [entry.size == 0]; a record's size is at least
    [headerSize], so deleted keys stay in the index and are counted. *)
Example recovery_keeps_tombstones :
  let h := put_all (New demo_time demo_range small_cfg ∅ 0).1 [([1], [1]); ([1], [])] in
  let r := (restart demo_time demo_range h).1 in
  (Get r [1]).2 = Err ErrKeyNotFound ∧ NumKeys (HashIndex_Stats r) = 1.
Proof. by vm_compute. Qed.
