(* ===== verification/HashConcurrent.v ===== *)
(** A compaction of the hash engine while clients call it ([src/hashindex/hashindex.go],
    [src/hashindex/compaction.go]): the steps of [HashSteps] interleaved with calls, the two
    windows in which the engine takes no lock it needs, and that outside of them the calls
    and the compaction do not see each other. *)
From stdpp Require Import base gmap list strings numbers sorting.
From S2P Require Import Prelude GoLib Common HashShard HashSegment HashIndex.
From S2P Require Import HashCompaction HashSteps HashRecovery HashTheorems.

Open Scope Z_scope.

(** ** Interleavings *)

(** The engine and its compaction goroutine. *)
Abbreviation world := (HashIndex * comp_state)%type.

(** A client's call, or a step of the compaction.  The index is sharded and each call touches
    one shard, so a batch prepared or applied shard by shard is as good as one prepared or
    applied at the moment it reaches the key's shard. *)
Inductive event :=
| ECall (c : call)
| EStep.

Section interleaving.
Context (time_at : nat → Z).
Context (range_map : ∀ V, gmap bytes V → list (bytes * V)).
#[local] Hint Extern 0 (StorageEngine HashIndex) =>
  exact (hash_engine time_at) : typeclass_instances.

Definition event_step (w : world) (ev : event) : world * list answer :=
  match ev with
  | ECall c => let '(h, a) := se_call w.1 c in ((h, w.2), [a])
  | EStep => (comp_step time_at range_map w.1 w.2, [])
  end.

Fixpoint interleave (w : world) (evs : list event) : world * list answer :=
  match evs with
  | [] => (w, [])
  | ev :: evs =>
      let '(w, a) := event_step w ev in
      let '(w, l) := interleave w evs in (w, a ++ l)
  end.

(** The calls that do not fall into a window: between preparing the batch and applying it no
    write of a key of the batch, and between applying it and replacing the segment list no
    read of a key that was moved. *)
Definition in_step (s : comp_state) (c : call) : Prop :=
  match s, c with
  | CBatched _ _ updates deletions, (CPut k _ | CDelete k) => updates !! k = None ∧ k ∉ deletions
  | CIndexed _ _ updates, CGet k => updates !! k = None
  | _, _ => True
  end.

Fixpoint undisturbed (w : world) (evs : list event) : Prop :=
  match evs with
  | [] => True
  | ev :: evs =>
      match ev with ECall c => in_step w.2 c | EStep => True end ∧ undisturbed (event_step w ev).1 evs
  end.
End interleaving.

Definition calls_of (evs : list event) : list call :=
  omap (λ ev, match ev with ECall c => Some c | EStep => None end) evs.

(** ** A write keeps the compaction going *)

Section writes_ok.
Context (time_at : nat → Z).
Implicit Types (h : HashIndex) (m : gmap bytes bytes) (G : gmap Z (list rec)).

Lemma written_oldest G h k v G' h' e C : wrote_record G h k v G' h' e → oldest h C → oldest h' C.
Proof using Type.
  intros Hw [l El]. destruct (wr_segments _ _ _ _ _ _ _ Hw) as [l' E]. exists (l ++ l'). by rewrite E, El, app_assoc.
Qed.

Lemma written_aside G h k v G' h' e p : wrote_record G h k v G' h' e → set_aside G h p → set_aside G' h' p.
Proof using Type.
  intros Hw [Hp (rs & HG & Hh)]. destruct (wr_aside _ _ _ _ _ _ _ Hw p rs Hp Hh) as (H1 & H2 & H3).
  split; [done|]. exists rs. by rewrite H2.
Qed.

Lemma written_aside_log G h k v G' h' e p :
  wrote_record G h k v G' h' e → set_aside G h p → log_of G' [p] = log_of G [p].
Proof using Type.
  intros Hw [Hp (rs & HG & Hh)]. destruct (wr_aside _ _ _ _ _ _ _ Hw p rs Hp Hh) as (_ & H2 & _).
  apply log_of_ext. by intros q ->%list_elem_of_singleton.
Qed.

Lemma written_values G h k v G' h' e C : wrote_record G h k v G' h' e → oldest h C → values_of G' C = values_of G C.
Proof using Type.
  intros Hw HC. unfold values_of. f_equal. f_equal. apply log_of_ext. intros q Hq.
  eapply wr_sealed; [exact Hw|]. by eapply oldest_segments.
Qed.

Lemma written_copied G h k v G' h' e C p ni k' :
  wrote_record G h k v G' h' e → oldest h C → set_aside G h p → copied G C p ni k' → copied G' C p ni k'.
Proof using Type.
  intros Hw HC Hp. unfold copied. by rewrite (written_values _ _ _ _ _ _ _ C Hw HC), (written_aside_log _ _ _ _ _ _ _ p Hw Hp).
Qed.

(** Only the key that is written moves, and it moves out of the old segments. *)
Lemma written_in_old G h k v G' h' e C k' :
  hinv time_at G h → hinv time_at G' h' → wrote_record G h k v G' h' e → oldest h C →
  in_old h' C k' ↔ k' ≠ k ∧ in_old h C k'.
Proof using Type.
  intros Hinv Hinv' Hw HC. unfold in_old. rewrite (wr_index _ _ _ _ _ _ _ Hw).
  rewrite si_Put_map by apply (inv_index _ _ _ Hinv). destruct (decide (k' = k)) as [->|Hne].
  - rewrite lookup_insert_eq. split; [|tauto]. intros (e' & [= <-] & He). exfalso.
    pose proof (inv_nodup _ _ _ Hinv') as Hnd. rewrite (live_active h' _ (wr_active _ _ _ _ _ _ _ Hw)) in Hnd.
    apply NoDup_app in Hnd as (_ & Hnd & _). apply (Hnd (ie_segmentID e)); [|set_solver].
    eapply oldest_segments; [|exact He]. by eapply written_oldest.
  - rewrite lookup_insert_ne by done. tauto.
Qed.

Lemma written_located G h k v G' h' e ps k' o :
  hinv time_at G h → wrote_record G h k v G' h' e →
  (∀ x, x ∈ log_of G (live h ++ ps) → x ∈ log_of G' (live h' ++ ps)) →
  located G (live h ++ ps) h k' o → located G' (live h' ++ ps) h' k' (if decide (k = k') then visible v else o).
Proof using Type.
  intros Hinv Hw Hlog Hl. unfold located in *. rewrite (wr_index _ _ _ _ _ _ _ Hw).
  rewrite si_Put_map by apply (inv_index _ _ _ Hinv). case_decide as E; [subst k'|].
  - rewrite lookup_insert_eq. exists v. split; [|done]. rewrite log_of_app. apply elem_of_app. left.
    fold (hlog G' h'). rewrite (wr_log _ _ _ _ _ _ _ Hw). set_solver.
  - rewrite lookup_insert_ne by done. destruct (si_map (h_index h) !! k') as [e'|]; [|done].
    destruct Hl as (v' & Hin & Hm). exists v'. auto.
Qed.

Lemma write_keeps G h m k v h' s :
  hinv time_at G h → comp_inv G h m s → in_step s (CPut k v) → wrote time_at G h k v h' →
  ∃ G', hinv time_at G' h' ∧ comp_inv G' h' (write_map k v m) s.
Proof using Type.
  intros Hinv Hs Hin (G' & e & Hinv' & Hw & _). exists G'. split; [done|].
  destruct (write_log G h G' h' k v e (inv_index _ _ _ Hinv) (wr_index _ _ _ _ _ _ _ Hw) (wr_log _ _ _ _ _ _ _ Hw)) as [Hr Ho].
  assert (Hold : ∀ C, oldest h C → oldest h' C) by (intros C; by eapply written_oldest).
  destruct s as [|C|C vals|C p ni|C p u d|C p u|C|r]; simpl in Hs, Hin |- *.
  - naive_solver.
  - destruct Hs as (? & ? & ?). split_and!; eauto.
  - destruct Hs as (? & ? & ? & ->). split_and!; eauto. symmetry. by eapply written_values.
  - destruct Hs as (? & ? & ? & ? & ?). split_and!; eauto using written_aside, written_copied.
  - destruct Hs as (? & ? & HC & ? & ni & ? & Hb). split_and!; eauto using written_aside.
    exists ni. split; [eauto using written_copied|]. intros k'. destruct (Hb k') as [Hu Hd]. destruct Hin as [Hku Hkd].
    setoid_rewrite (written_in_old _ _ _ _ _ _ _ C k' Hinv Hinv' Hw HC).
    destruct (decide (k' = k)) as [->|Hne]; [|naive_solver]. split; [intros e'; rewrite Hku|]; naive_solver.
  - destruct Hs as (HC & Hp & Hno & Hl & Hu). split_and!; eauto using written_aside.
    + intros k'. rewrite (written_in_old _ _ _ _ _ _ _ C k' Hinv Hinv' Hw HC). naive_solver.
    + intros k'. rewrite write_map_lookup. apply (written_located G h k v G' h' e [p] k' (m !! k') Hinv Hw); [|apply Hl]. intros x.
      rewrite !log_of_app, (written_aside_log _ _ _ _ _ _ _ p Hw Hp). fold (hlog G h) (hlog G' h').
      rewrite (wr_log _ _ _ _ _ _ _ Hw). set_solver.
    + intros k' Hk'. rewrite write_map_lookup. pose proof (Hu k' Hk') as Hk.
      rewrite <-(app_nil_r (live h)) in Hk. rewrite <-(app_nil_r (live h')). apply (written_located G h k v G' h' e [] k' (m !! k') Hinv Hw); [|exact Hk].
      intros x. rewrite !app_nil_r. fold (hlog G h) (hlog G' h'). rewrite (wr_log _ _ _ _ _ _ _ Hw). set_solver.
  - destruct Hs as [? HC]. split; [auto|]. intros q Hq. eapply written_aside; eauto.
  - destruct Hs as [? ?]. auto.
Qed.
End writes_ok.

(** ** A call keeps the compaction going *)

Section calls_ok.
Context (time_at : nat → Z).
Context (time_mono : ∀ n, time_at n < time_at (S n)).
Context (range_map : ∀ V, gmap bytes V → list (bytes * V)).
Context (range_perm : ∀ V m, range_map V m ≡ₚ map_to_list m).
#[local] Hint Extern 0 (StorageEngine HashIndex) =>
  exact (hash_engine time_at) : typeclass_instances.

Implicit Types (h : HashIndex) (m : gmap bytes bytes) (G : gmap Z (list rec)).

(** A read only counts. *)
Lemma comp_inv_stats G h m s c :
  hinv time_at G h → comp_inv G h m s → comp_ok time_at m (set_stats c h, s).
Proof using Type. intros Hinv Hs. exists G. split; [by eapply hinv_frame|]. by destruct s. Qed.

Lemma get_keeps G h m s k :
  hinv time_at G h → comp_inv G h m s → in_step s (CGet k) →
  (Get h k).2 = store_Get m k ∧ comp_ok time_at m ((Get h k).1, s).
Proof using Type.
  intros Hinv Hs Hin.
  assert (Hl : located G (live h) h k (m !! k)).
  { destruct s; simpl in Hs; try (destruct Hs as [Hr _]; apply Hr); [|destruct Hs as [_ Hr]; apply Hr].
    destruct Hs as (_ & _ & _ & _ & Hu). by apply Hu. }
  destruct (Get_located time_at G h k (m !! k) Hinv Hl) as [-> [c ->]].
  split; [|by eapply comp_inv_stats]. unfold store_Get. by destruct (m !! k).
Qed.

Lemma put_keeps G h m s k v :
  hinv time_at G h → comp_inv G h m s → in_step s (CPut k v) → record_ok k v →
  (Put time_at h k v).2 = (store_Put hash_policy m k v).2 ∧
  comp_ok time_at (store_Put hash_policy m k v).1 ((Put time_at h k v).1, s).
Proof using time_mono.
  intros Hinv Hs Hin Hok. unfold store_Put, refused. simpl. destruct (bytes_eqb k []) eqn:Ek.
  { apply bytes_eqb_eq in Ek as ->. split; [done|]. by exists G. }
  assert (Hk : k ≠ []) by (intros ->; done).
  destruct (Put_spec time_at time_mono G h k v Hinv Hk Hok) as (h' & -> & Hw). split; [done|].
  by apply (write_keeps time_at G h m k v h' s).
Qed.

Lemma call_keeps G h m s c :
  hinv time_at G h → comp_inv G h m s → in_step s c → call_fits record_ok c →
  (se_call h c).2 = (store_call hash_policy m c).2 ∧
  comp_ok time_at (store_call hash_policy m c).1 ((se_call h c).1, s).
Proof using time_mono.
  intros Hinv Hs Hin Hok. destruct c as [k v|k|k|]; cbn [se_call store_call se_Put se_Get se_Delete se_Sync hash_engine].
  - destruct (put_keeps G h m s k v Hinv Hs Hin Hok) as [E H].
    destruct (Put time_at h k v), (store_Put hash_policy m k v). simpl in *. by subst.
  - destruct (get_keeps G h m s k Hinv Hs Hin) as [E H]. destruct (Get h k). simpl in *. by subst.
  - destruct (put_keeps G h m s k [] Hinv Hs Hin Hok) as [E H]. unfold Delete, store_Put, store_Delete in *.
    destruct (Put time_at h k []), (refused hash_policy k); simpl in *; by subst.
  - rewrite (Sync_ok time_at G h Hinv). split; [done|]. by exists G.
Qed.

(** An interleaving outside of the windows. *)
Lemma interleave_ok evs : ∀ h s m,
  comp_ok time_at m (h, s) → Forall (call_fits record_ok) (calls_of evs) →
  undisturbed time_at range_map (h, s) evs →
  (interleave time_at range_map (h, s) evs).2 = (session (store_call hash_policy) m (calls_of evs)).2 ∧
  comp_ok time_at (session (store_call hash_policy) m (calls_of evs)).1 (interleave time_at range_map (h, s) evs).1.
Proof using time_mono range_perm.
  induction evs as [|ev evs IH]; intros h s m Hw Hf Hu; [done|]. destruct Hw as (G & Hinv & Hs), Hu as [Hin Hu].
  destruct ev as [c|]; cbn [interleave event_step] in *.
  - change (calls_of (ECall c :: evs)) with (c :: calls_of evs) in *. apply Forall_cons in Hf as [Hc Hf].
    destruct (call_keeps G h m s c Hinv Hs Hin Hc) as [Ea Hw]. cbn [session fst snd] in *.
    destruct (se_call h c) as [h' a], (store_call hash_policy m c) as [m' b]. simpl in Ea, Hw, Hu. subst b.
    destruct (IH h' s m' Hw Hf Hu) as [El Hw'].
    destruct (interleave _ _ _ _) as [w' l], (session _ m' _) as [m2 l2]. simpl in *. by subst.
  - destruct (comp_step_ok time_at time_mono range_map range_perm G h m s Hinv Hs) as [Hw _].
    change (calls_of (EStep :: evs)) with (calls_of evs) in *. cbn [fst snd] in *.
    destruct (comp_step time_at range_map h s) as [h' s']. destruct (IH h' s' m Hw Hf Hu) as [El Hw'].
    destruct (interleave _ _ _ _) as [w' l]. done.
Qed.
End calls_ok.


(** ** Runs on concrete data *)

Definition steps (n : nat) : list event := replicate n EStep.

#[local] Hint Extern 0 (StorageEngine HashIndex) =>
  exact (hash_engine demo_time) : typeclass_instances.

Lemma reach_session cfg h m cs :
  reach demo_time demo_range cfg false h m → Forall (call_fits record_ok) cs →
  reach demo_time demo_range cfg false (session se_call h cs).1 (session (store_call hash_policy) m cs).1.
Proof.
  intros Hr Hf. revert h m Hr. induction Hf as [|c cs Hc Hf IH]; intros h m Hr; cbn [session]; [done|].
  pose proof (IH _ _ (reach_call _ _ _ _ _ _ c Hr Hc)) as H.
  destruct (se_call h c) as [h1 a], (store_call hash_policy m c) as [m1 b]. simpl in H.
  by destruct (session se_call h1 cs), (session _ m1 cs).
Qed.

(** Three sealed segments of one record and an active one. *)
Definition busy_calls : list call := [CPut [7] [9]; CPut [7] [8]; CPut [4] [1]; CPut [5] [5]].
Definition busy_engine : HashIndex := (session se_call (New demo_time demo_range small_cfg ∅ 0).1 busy_calls).1.
Definition busy_map : gmap bytes bytes := (session (store_call hash_policy) ∅ busy_calls).1.

Lemma busy_engine_reach : reach demo_time demo_range small_cfg false busy_engine busy_map.
Proof.
  apply reach_session; [|repeat constructor; done]. by apply (reach_new _ _ small_cfg 0).
Qed.

Definition busy_run (evs : list event) : world * list answer := interleave demo_time demo_range (busy_engine, CStart) evs.


(** A write between preparing the batch and applying it: the batch takes the index back to
    the copy of the old value, and the acknowledged write is gone. *)
Example write_during_compaction_is_lost :
  (busy_run (steps 4 ++ [ECall (CPut [7] [6]); ECall (CGet [7])] ++ steps 3 ++ [ECall (CGet [7])])).2 =
  [ADone (Ok tt); AValue (Ok [6]); AValue (Ok [8])].
Proof. vm_compute. reflexivity. Qed.

(** A deleted key comes back the same way. *)
Example delete_during_compaction_is_lost :
  (busy_run (steps 4 ++ [ECall (CDelete [7]); ECall (CGet [7])] ++ steps 3 ++ [ECall (CGet [7])])).2 =
  [ADone (Ok tt); AValue (Err ErrKeyNotFound); AValue (Ok [8])].
Proof. vm_compute. reflexivity. Qed.

(** A read between applying the batch and replacing the segment list: the entry points into
    a segment that Get does not find. *)
Example read_during_compaction_fails :
  (busy_run (steps 5 ++ [ECall (CGet [7])] ++ steps 1 ++ [ECall (CGet [7])])).2 =
  [AValue (Err (Errorf "segment not found")); AValue (Ok [8])].
Proof. vm_compute. reflexivity. Qed.
