(* ===== verification/LsmMemtable.v ===== *)
(** The memtable of the LSM engine ([src/lsm/memtable.go]): a slice of entries sorted by
    key, searched by bisection, with a running byte size that decides when it is full. *)
From S2P Require Import Prelude GoLib.
From stdpp Require Import base gmap list strings numbers sorting.

Open Scope Z_scope.

Record MemTableEntry := MkEntry {
  me_Key : bytes;
  me_Value : bytes;
  me_Sequence : Z;
  me_Deleted : bool;
}.

#[global] Instance MemTableEntry_eq_dec : EqDecision MemTableEntry.
Proof. solve_decision. Defined.

(** [MemTableEntry{}]. *)
Definition zero_entry : MemTableEntry := MkEntry [] [] 0 false.

Record MemTable := MkMemTable {
  mt_entries : list MemTableEntry;
  mt_size : Z;
  mt_maxSize : Z;
}.

Definition NewMemTable (maxSize : Z) : MemTable := MkMemTable [] 0 maxSize.

(** Both writers: [idx < len(m.entries) && m.entries[idx].Key == key] is [found_at]. *)
Definition MemTable_Put (m : MemTable) (key value : bytes) (seq : Z) : MemTable :=
  let idx := search_key me_Key (mt_entries m) key in
  let entry := MkEntry key value seq false in
  match found_at me_Key (mt_entries m) key with
  | Some old =>
      MkMemTable (<[Z.to_nat idx := entry]> (mt_entries m))
        (mt_size m + (len value - len (me_Value old))) (mt_maxSize m)
  | None =>
      MkMemTable (slice_insert zero_entry idx entry (mt_entries m))
        (mt_size m + (len key + len value + 16)) (mt_maxSize m)
  end.

Definition MemTable_Delete (m : MemTable) (key : bytes) (seq : Z) : MemTable :=
  let idx := search_key me_Key (mt_entries m) key in
  let entry := MkEntry key [] seq true in
  match found_at me_Key (mt_entries m) key with
  | Some old =>
      MkMemTable (<[Z.to_nat idx := entry]> (mt_entries m))
        (mt_size m - len (me_Value old)) (mt_maxSize m)
  | None =>
      MkMemTable (slice_insert zero_entry idx entry (mt_entries m))
        (mt_size m + (len key + 16)) (mt_maxSize m)
  end.

(** The value, sequence number, deleted flag and found flag. *)
Definition MemTable_Get (m : MemTable) (key : bytes) : bytes * Z * bool * bool :=
  match found_at me_Key (mt_entries m) key with
  | Some entry => (me_Value entry, me_Sequence entry, me_Deleted entry, true)
  | None => ([], 0, false, false)
  end.

Definition MemTable_Size (m : MemTable) : Z := mt_size m.
Definition MemTable_IsFull (m : MemTable) : bool := mt_maxSize m <=? mt_size m.
Definition MemTable_GetAllEntries (m : MemTable) : list MemTableEntry := mt_entries m.
Definition MemTable_Len (m : MemTable) : Z := len (mt_entries m).

(** ** The invariant *)

Definition entry_size (e : MemTableEntry) : Z := len (me_Key e) + len (me_Value e) + 16.
Definition entries_size (l : list MemTableEntry) : Z := foldr Z.add 0 (entry_size <$> l).

Record mt_wf (m : MemTable) : Prop := {
  mt_sorted : StronglySorted (key_lt me_Key) (mt_entries m);
  mt_sized : mt_size m = entries_size (mt_entries m);
}.

Definition mt_map (m : MemTable) : gmap bytes MemTableEntry := entries_map me_Key (mt_entries m).

Lemma entries_size_app a b : entries_size (a ++ b) = entries_size a + entries_size b.
Proof.
  unfold entries_size. induction a as [|e a IH]; csimpl; [lia|]. rewrite IH. lia.
Qed.

Lemma entries_size_cons e l : entries_size (e :: l) = entry_size e + entries_size l.
Proof. done. Qed.

(** The state after entering [e] at its sorted position. *)
Definition enter (m : MemTable) (e : MemTableEntry) : MemTable :=
  MkMemTable (upsert me_Key zero_entry e (mt_entries m))
    (mt_size m + (entry_size e - from_option entry_size 0 (found_at me_Key (mt_entries m) (me_Key e))))
    (mt_maxSize m).

Lemma enter_spec m e :
  mt_wf m → mt_wf (enter m e) ∧ mt_map (enter m e) = <[me_Key e := e]> (mt_map m).
Proof.
  intros [Hs Hz]. split; [split; simpl|by apply upsert_map].
  - by apply upsert_sorted.
  - destruct (upsert_split me_Key zero_entry e (mt_entries m) Hs)
      as (a & b & -> & _ & _ & [[-> Hl]|(y & -> & _ & Hl)]); rewrite Hz, Hl;
      rewrite !entries_size_app, !entries_size_cons; simpl; lia.
Qed.

Lemma MemTable_Put_enter m k v s : MemTable_Put m k v s = enter m (MkEntry k v s false).
Proof.
  unfold MemTable_Put, enter, upsert. simpl.
  destruct (found_at me_Key (mt_entries m) k) as [old|] eqn:E; simpl; f_equal.
  - apply found_at_key in E. unfold entry_size. simpl. rewrite E. lia.
  - unfold entry_size. simpl. lia.
Qed.

(** A delete lays out a tombstone as a Put of an empty value would. *)
Lemma MemTable_Delete_enter m k s : MemTable_Delete m k s = enter m (MkEntry k [] s true).
Proof.
  unfold MemTable_Delete, enter, upsert. simpl.
  destruct (found_at me_Key (mt_entries m) k) as [old|] eqn:E; simpl; f_equal.
  - apply found_at_key in E. unfold entry_size. simpl. rewrite E, len_nil. lia.
  - unfold entry_size. simpl. rewrite len_nil. lia.
Qed.

Lemma MemTable_Get_spec m k :
  mt_wf m →
  MemTable_Get m k = match mt_map m !! k with
                     | Some e => (me_Value e, me_Sequence e, me_Deleted e, true)
                     | None => ([], 0, false, false)
                     end.
Proof. intros [Hs _]. unfold MemTable_Get. by rewrite found_at_map. Qed.

Lemma NewMemTable_wf n : mt_wf (NewMemTable n).
Proof. split; [constructor|done]. Qed.

(** ** A memtable is a map with a size *)

Inductive mem_op :=
| MPut (k v : bytes) (seq : Z)
| MDelete (k : bytes) (seq : Z).

Definition mem_step (m : MemTable) (o : mem_op) : MemTable :=
  match o with
  | MPut k v s => MemTable_Put m k v s
  | MDelete k s => MemTable_Delete m k s
  end.

Definition mem_entry (o : mem_op) : MemTableEntry :=
  match o with MPut k v s => MkEntry k v s false | MDelete k s => MkEntry k [] s true end.

Lemma mem_step_spec m o :
  mt_wf m → mt_wf (mem_step m o) ∧
  mt_map (mem_step m o) = <[me_Key (mem_entry o) := mem_entry o]> (mt_map m).
Proof.
  destruct o; simpl; rewrite ?MemTable_Put_enter, ?MemTable_Delete_enter; apply enter_spec.
Qed.

(** The last write of each key. *)
Definition last_writes (s : gmap bytes MemTableEntry) (ops : list mem_op) : gmap bytes MemTableEntry :=
  foldl (λ s o, <[me_Key (mem_entry o) := mem_entry o]> s) s ops.

Lemma mem_steps_spec ops : ∀ m, mt_wf m →
  let m' := foldl mem_step m ops in
  mt_wf m' ∧ mt_maxSize m' = mt_maxSize m ∧ mt_map m' = last_writes (mt_map m) ops.
Proof.
  induction ops as [|o ops IH]; intros m Hwf; simpl; [done|].
  destruct (mem_step_spec m o Hwf) as [Hwf' Hmap].
  destruct (IH _ Hwf') as (H1 & H2 & H3). split; [done|]. split; [|by rewrite H3, Hmap].
  rewrite H2. by destruct o; simpl; rewrite ?MemTable_Put_enter, ?MemTable_Delete_enter.
Qed.

(** C24: after any sequence of Put and Delete on a new memtable, Get returns the last write
    of the key (a tombstone for a delete), the entries to flush are sorted without
    duplicates, and the size is the exact total of key, value and 16 bytes of overhead per
    entry, so IsFull compares that total with the limit. *)
Theorem memtable_refines_map maxSize ops :
  let m := foldl mem_step (NewMemTable maxSize) ops in
  (∀ k, MemTable_Get m k = match last_writes ∅ ops !! k with
                           | Some e => (me_Value e, me_Sequence e, me_Deleted e, true)
                           | None => ([], 0, false, false)
                           end) ∧
  StronglySorted (key_lt me_Key) (MemTable_GetAllEntries m) ∧
  MemTable_Size m = entries_size (MemTable_GetAllEntries m) ∧
  MemTable_IsFull m = (maxSize <=? entries_size (MemTable_GetAllEntries m)).
Proof.
  simpl. destruct (mem_steps_spec ops (NewMemTable maxSize) (NewMemTable_wf _)) as (Hwf & Hmax & Hmap).
  split; [intros k; by rewrite MemTable_Get_spec, Hmap|].
  split; [apply Hwf|]. split; [apply Hwf|].
  unfold MemTable_IsFull. by rewrite Hmax, (mt_sized _ Hwf).
Qed.
