(* ===== verification/LsmWal.v ===== *)
(** The write-ahead log of the LSM engine ([src/lsm/wal.go]): checksummed records
    appended to one file and read back in full at start-up. *)
From S2P Require Import Prelude GoLib.
From stdpp Require Import base gmap list strings numbers sorting.

Open Scope Z_scope.

Record WALEntry := MkWALEntry {
  we_Key : bytes;
  we_Value : bytes;
  we_Sequence : Z;
  we_Deleted : bool;
}.

(** An open log: the content of its file, written with [O_APPEND]. *)
Record WAL := MkWAL { wal_content : bytes }.

(** [NewWAL]: opens or creates the file. *)
Definition NewWAL (content : option bytes) : WAL := MkWAL (default [] content).

(** The bytes of a record after the checksum. *)
Definition wal_body (key value : bytes) (seq : Z) (deleted : bool) : bytes :=
  le_put 8 seq ++ le_put 4 (u32 (len key)) ++ le_put 4 (u32 (len value))
    ++ [if deleted then 1 else 0] ++ key ++ value.

Definition wal_record (key value : bytes) (seq : Z) (deleted : bool) : bytes :=
  le_put 4 (ChecksumIEEE (wal_body key value seq deleted)) ++ wal_body key value seq deleted.

Definition WAL_Append (w : WAL) (key value : bytes) (seq : Z) (deleted : bool) : WAL :=
  MkWAL (wal_content w ++ wal_record key value seq deleted).

(** The loop of [ReadAll] over the bytes that remain.  A round consumes at least the 21
    bytes of a header, so the length of the file bounds the rounds. *)
Fixpoint wal_read (fuel : nat) (r : bytes) (entries : list WALEntry) : res (list WALEntry) :=
  match fuel with
  | O => Panic
  | S fuel =>
      match ReadFull 21 r with
      | Panic => Panic
      | Err e =>
          if bool_decide (e = EOF) then Ok entries else Err (Errorf "failed to read WAL header")
      | Ok (header, r) =>
          let crc := le_u32 (slice_from 0 header) in
          let seq := le_u64 (slice_from 4 header) in
          let keySize := le_u32 (slice_from 12 header) in
          let valueSize := le_u32 (slice_from 16 header) in
          let deleted := default 0 (header !! 20%nat) =? 1 in
          let dataSize := u32 (keySize + valueSize) in
          match ReadFull dataSize r with
          | Panic => Panic
          | Err e => Err (Errorf "failed to read WAL data")
          | Ok (data, r) =>
              let expectedCRC := ChecksumIEEE (slice_from 4 header ++ data) in
              if negb (crc =? expectedCRC) then Err (Errorf "WAL corruption detected")
              else if len data <? keySize then Panic
              else
                let key := slice_to keySize data in
                let value := slice_from keySize data in
                wal_read fuel r (entries ++ [MkWALEntry key value seq deleted])
          end
      end
  end.

Definition WAL_ReadAll (w : WAL) : res (list WALEntry) :=
  wal_read (S (length (wal_content w))) (wal_content w) [].

(** ** Reading back *)

(** The limits of the fixed-width fields of a record. *)
Definition wal_ok (e : WALEntry) : Prop :=
  len (we_Key e) + len (we_Value e) < 2 ^ 32 ∧ 0 ≤ we_Sequence e < 2 ^ 64.

Definition wal_bytes (e : WALEntry) : bytes :=
  wal_record (we_Key e) (we_Value e) (we_Sequence e) (we_Deleted e).

Definition wal_file (es : list WALEntry) : bytes := concat (wal_bytes <$> es).

Definition wal_header (e : WALEntry) : bytes :=
  le_put 4 (ChecksumIEEE (wal_body (we_Key e) (we_Value e) (we_Sequence e) (we_Deleted e)))
    ++ le_put 8 (we_Sequence e) ++ le_put 4 (len (we_Key e)) ++ le_put 4 (len (we_Value e))
    ++ [if we_Deleted e then 1 else 0].

Lemma wal_bytes_split e :
  wal_ok e → wal_bytes e = wal_header e ++ we_Key e ++ we_Value e.
Proof.
  intros [Hsz _]. pose proof (len_nonneg (we_Key e)). pose proof (len_nonneg (we_Value e)).
  unfold wal_bytes, wal_record, wal_header, wal_body. rewrite !u32_small by lia.
  by rewrite <-!app_assoc.
Qed.

Lemma len_wal_header e : len (wal_header e) = 21.
Proof. unfold wal_header. len_solve. Qed.

Lemma slice_from_at {A} n (a b c : list A) : n = len a → c = a ++ b → slice_from n c = b.
Proof. intros Hn ->. by apply slice_from_app. Qed.

(** What the reader extracts from a header it wrote. *)
Lemma wal_header_fields e :
  wal_ok e →
  le_u32 (slice_from 0 (wal_header e)) =
    ChecksumIEEE (wal_body (we_Key e) (we_Value e) (we_Sequence e) (we_Deleted e)) ∧
  le_u64 (slice_from 4 (wal_header e)) = we_Sequence e ∧
  le_u32 (slice_from 12 (wal_header e)) = len (we_Key e) ∧
  le_u32 (slice_from 16 (wal_header e)) = len (we_Value e) ∧
  (default 0 (wal_header e !! 20%nat) =? 1) = we_Deleted e.
Proof.
  intros [Hsz Hseq]. pose proof (len_nonneg (we_Key e)). pose proof (len_nonneg (we_Value e)).
  unfold wal_header. set (c := ChecksumIEEE _). split_and!.
  - apply le_u32_put. apply ChecksumIEEE_range.
  - rewrite slice_from_app by len_solve. by apply le_u64_put.
  - rewrite app_assoc, slice_from_app by len_solve. apply le_u32_put. lia.
  - rewrite !app_assoc, <-(app_assoc _ (le_put 4 (len (we_Value e)))), slice_from_app by len_solve.
    apply le_u32_put. lia.
  - rewrite !app_assoc, lookup_app_r by len_solve.
    replace (20 - _)%nat with 0%nat by len_solve. simpl. by destruct (we_Deleted e).
Qed.

(** One round of the loop on a record. *)
Lemma wal_read_record fuel e r acc :
  wal_ok e → wal_read (S fuel) (wal_bytes e ++ r) acc = wal_read fuel r (acc ++ [e]).
Proof.
  intros Hok. pose proof Hok as [Hsz _].
  pose proof (len_nonneg (we_Key e)). pose proof (len_nonneg (we_Value e)).
  rewrite wal_bytes_split, <-app_assoc by done.
  pose proof (ReadFull_app (wal_header e) ((we_Key e ++ we_Value e) ++ r)) as Hrd.
  rewrite len_wal_header in Hrd. cbn [wal_read]. rewrite Hrd.
  destruct (wal_header_fields e Hok) as (-> & -> & -> & -> & ->).
  rewrite u32_small by lia. rewrite <-len_app, ReadFull_app.
  assert (Hbody : slice_from 4 (wal_header e) ++ we_Key e ++ we_Value e =
    wal_body (we_Key e) (we_Value e) (we_Sequence e) (we_Deleted e)).
  { unfold wal_header, wal_body. rewrite slice_from_app by len_solve.
    rewrite !u32_small by lia. by rewrite <-!app_assoc. }
  rewrite Hbody, Z.eqb_refl. simpl.
  destruct (Z.ltb_spec (len (we_Key e ++ we_Value e)) (len (we_Key e))); [rewrite len_app in *; lia|].
  rewrite slice_to_app, slice_from_app by reflexivity. destruct e; reflexivity.
Qed.

Lemma wal_read_file es : ∀ fuel r acc,
  Forall wal_ok es →
  wal_read (length es + fuel) (wal_file es ++ r) acc = wal_read fuel r (acc ++ es).
Proof.
  induction es as [|e es IH]; intros fuel r acc Hok.
  { by rewrite app_nil_r. }
  apply Forall_cons in Hok as [He Hok].
  change (wal_file (e :: es)) with (wal_bytes e ++ wal_file es). rewrite <-app_assoc.
  change (length (e :: es) + fuel)%nat with (S (length es + fuel)).
  rewrite wal_read_record by exact He. rewrite IH by exact Hok. by rewrite <-app_assoc.
Qed.

Lemma wal_file_length es : (length es ≤ length (wal_file es))%nat.
Proof.
  induction es as [|e es IH]; [done|]. unfold wal_file in *. csimpl. rewrite length_app.
  assert (1 ≤ length (wal_bytes e))%nat; [|lia].
  unfold wal_bytes, wal_record. rewrite length_app, length_le_put. lia.
Qed.

Lemma wal_append_file es e :
  wal_content (WAL_Append (MkWAL (wal_file es)) (we_Key e) (we_Value e) (we_Sequence e) (we_Deleted e)) =
  wal_file (es ++ [e]).
Proof.
  unfold wal_file. simpl. rewrite fmap_app, concat_app. simpl. by rewrite app_nil_r.
Qed.

Lemma ReadAll_file es r :
  Forall wal_ok es →
  ∃ fuel, (length r ≤ fuel)%nat ∧
    WAL_ReadAll (MkWAL (wal_file es ++ r)) = wal_read (S fuel) r es.
Proof.
  intros Hok. pose proof (wal_file_length es) as Hl.
  exists (length (wal_file es ++ r) - length es)%nat. split; [rewrite length_app; lia|].
  unfold WAL_ReadAll. simpl wal_content.
  rewrite <-(wal_read_file es _ r []) by done. f_equal. rewrite length_app. lia.
Qed.

(** C27: whatever sequence of records was appended to a new log (sizes within the 32-bit
    fields), reading the log back returns exactly these records, in order. *)
Theorem wal_roundtrip es (Hok : Forall wal_ok es) :
  WAL_ReadAll (foldl (λ w e, WAL_Append w (we_Key e) (we_Value e) (we_Sequence e) (we_Deleted e))
                 (NewWAL None) es) = Ok es.
Proof.
  assert (Hf : ∀ es pre, foldl (λ w e, WAL_Append w (we_Key e) (we_Value e) (we_Sequence e) (we_Deleted e))
      (MkWAL (wal_file pre)) es = MkWAL (wal_file (pre ++ es))).
  { clear. induction es as [|e es IH]; intros pre; simpl; [by rewrite app_nil_r|].
    replace (WAL_Append _ _ _ _ _) with (MkWAL (wal_file (pre ++ [e])))
      by (rewrite <-wal_append_file; done).
    rewrite IH. by rewrite <-app_assoc. }
  change (NewWAL None) with (MkWAL (wal_file [])). rewrite Hf. simpl.
  rewrite <-(app_nil_r (wal_file es)).
  by destruct (ReadAll_file es [] Hok) as (fuel & _ & ->).
Qed.

Definition demo_wal : list WALEntry :=
  [MkWALEntry [1] [2; 3] 1 false; MkWALEntry [1] [] 2 true; MkWALEntry [] [9] 3 false].

Lemma wal_roundtrip_witness :
  WAL_ReadAll (foldl (λ w e, WAL_Append w (we_Key e) (we_Value e) (we_Sequence e) (we_Deleted e))
                 (NewWAL None) demo_wal) = Ok demo_wal.
Proof. apply (wal_roundtrip demo_wal). repeat constructor; done. Defined.


