(* ===== verification/LsmBloom.v ===== *)
(** The Bloom filter of the LSM engine ([src/lsm/bloom.go]): a bit array addressed by
    double hashing, stored in every SSTable. *)
From S2P Require Import Prelude GoLib.
From stdpp Require Import base gmap list strings numbers sorting.

Open Scope Z_scope.

Record BloomFilter := MkBloom {
  bf_bits : bytes;
  bf_numBits : Z;
  bf_numHashes : Z;
}.

(** [NewBloomFilter]: the two [float64] formulas (with [math.Log] and [math.Ceil]) are the
    arguments [numBits] and [numHashes]; the rest of the constructor is here. *)
Definition NewBloomFilter (numBits numHashes : Z) : BloomFilter :=
  let numHashes := if numHashes =? 0 then 1 else numHashes in
  MkBloom (make_bytes (u64 (numBits + 7) / 8)) numBits numHashes.

Definition hash1 (key : bytes) : Z := fnv64a key.
Definition hash2 (key : bytes) : Z := fnv64 key.

(** The [i]-th bit position; the sum and the product wrap at 64 bits. *)
Definition bloom_hash (bf : BloomFilter) (key : bytes) (i : Z) : Z :=
  u64 (hash1 key + u64 (i * hash2 key)) mod bf_numBits bf.

(** [getHashes]; [% bf.numBits] panics when there are no bits. *)
Definition getHashes (bf : BloomFilter) (key : bytes) : res (list Z) :=
  if (bf_numBits bf =? 0) && (0 <? bf_numHashes bf) then Panic
  else Ok (bloom_hash bf key <$> seqZ 0 (bf_numHashes bf)).

(** [bf.bits[h/8] |= 1 << (h%8)], out of range a panic. *)
Definition set_bit (bits : bytes) (h : Z) : res bytes :=
  match bits !! Z.to_nat (h / 8) with
  | None => Panic
  | Some b => Ok (<[Z.to_nat (h / 8) := Z.lor b (Z.shiftl 1 (h mod 8))]> bits)
  end.

Fixpoint set_bits (bits : bytes) (hs : list Z) : res bytes :=
  match hs with
  | [] => Ok bits
  | h :: hs => bits ← set_bit bits h; set_bits bits hs
  end.

Definition BloomFilter_Add (bf : BloomFilter) (key : bytes) : res BloomFilter :=
  hs ← getHashes bf key;
  bits ← set_bits (bf_bits bf) hs;
  Ok (MkBloom bits (bf_numBits bf) (bf_numHashes bf)).

Fixpoint test_bits (bits : bytes) (hs : list Z) : res bool :=
  match hs with
  | [] => Ok true
  | h :: hs =>
      match bits !! Z.to_nat (h / 8) with
      | None => Panic
      | Some b => if Z.land b (Z.shiftl 1 (h mod 8)) =? 0 then Ok false else test_bits bits hs
      end
  end.

Definition BloomFilter_MayContain (bf : BloomFilter) (key : bytes) : res bool :=
  hs ← getHashes bf key; test_bits (bf_bits bf) hs.

(** [numBits] in 8 bytes, [numHashes] in 4, then the bits. *)
Definition BloomFilter_Encode (bf : BloomFilter) : bytes :=
  le_put 8 (bf_numBits bf) ++ le_put 4 (bf_numHashes bf) ++ bf_bits bf.

Definition DecodeBloomFilter (data : bytes) : option BloomFilter :=
  if len data <? 12 then None
  else Some (MkBloom (slice_from 12 data) (le_u64 (slice_from 0 data)) (le_u32 (slice_from 8 data))).

(** ** No false negatives *)

(** The sizes of a filter: at least one bit, backed by the bytes. *)
Record bf_wf (bf : BloomFilter) : Prop := {
  bf_pos : 0 < bf_numBits bf < 2 ^ 64;
  bf_backed : bf_numBits bf ≤ 8 * len (bf_bits bf);
  bf_hashes : 0 < bf_numHashes bf < 2 ^ 32;
  bf_size : len (bf_bits bf) ≤ 2 ^ 61;
}.

Definition bit_set (bits : bytes) (h : Z) : Prop :=
  ∃ b, bits !! Z.to_nat (h / 8) = Some b ∧ Z.land b (Z.shiftl 1 (h mod 8)) ≠ 0.

Lemma bit_test b h : 0 ≤ h → Z.land b (Z.shiftl 1 h) ≠ 0 ↔ Z.testbit b h = true.
Proof.
  intros Hh. rewrite Z.shiftl_1_l. destruct (Z.testbit b h) eqn:E.
  - split; [done|]. intros _ H0. apply (f_equal (λ z, Z.testbit z h)) in H0.
    rewrite Z.land_spec, E, Z.pow2_bits_true, Z.testbit_0_l in H0 by done. done.
  - split; [|done]. intros H0. exfalso. apply H0. apply Z.bits_inj'. intros n Hn.
    rewrite Z.land_spec, Z.testbit_0_l. destruct (decide (n = h)) as [->|Hne]; [by rewrite E|].
    rewrite Z.pow2_bits_false by lia. apply andb_false_r.
Qed.

Lemma set_bit_spec bits h :
  0 ≤ h < 8 * len bits →
  ∃ bits', set_bit bits h = Ok bits' ∧ length bits' = length bits ∧
    bit_set bits' h ∧ ∀ h', bit_set bits h' → bit_set bits' h'.
Proof.
  intros Hh. unfold set_bit.
  assert (Hlt : (Z.to_nat (h / 8) < length bits)%nat).
  { assert (h / 8 < len bits) by (apply Z.div_lt_upper_bound; lia).
    assert (0 ≤ h / 8) by (apply Z.div_pos; lia). unfold len in *. lia. }
  destruct (lookup_lt_is_Some_2 bits _ Hlt) as [b Hb]. rewrite Hb. eexists. split; [done|].
  split; [by rewrite length_insert|]. pose proof (Z.mod_pos_bound h 8).
  split.
  - eexists. split; [by apply list_lookup_insert_eq|]. apply bit_test; [lia|].
    rewrite Z.lor_spec, Z.shiftl_1_l, Z.pow2_bits_true by lia. apply orb_true_r.
  - intros h' (b' & Hb' & Ht). pose proof (Z.mod_pos_bound h' 8). unfold bit_set.
    destruct (decide (Z.to_nat (h / 8) = Z.to_nat (h' / 8))) as [Heq|Hne].
    + rewrite <-Heq in *. rewrite Hb in Hb'. simplify_eq. eexists.
      split; [by apply list_lookup_insert_eq|]. apply bit_test in Ht; [|lia].
      apply bit_test; [lia|]. by rewrite Z.lor_spec, Ht.
    + exists b'. by rewrite list_lookup_insert_ne.
Qed.

Lemma set_bits_spec hs : ∀ bits,
  Forall (λ h, 0 ≤ h < 8 * len bits) hs →
  ∃ bits', set_bits bits hs = Ok bits' ∧ length bits' = length bits ∧
    Forall (bit_set bits') hs ∧ ∀ h', bit_set bits h' → bit_set bits' h'.
Proof.
  induction hs as [|h hs IH]; intros bits Hf; [by exists bits|].
  apply Forall_cons in Hf as [Hh Hf].
  destruct (set_bit_spec bits h Hh) as (b1 & E1 & Hl1 & Hs1 & Hk1). simpl. rewrite E1. simpl.
  destruct (IH b1) as (b2 & E2 & Hl2 & Hs2 & Hk2).
  { unfold len in *. by rewrite Hl1. }
  exists b2. split; [done|]. split; [lia|]. split; [constructor; auto|]. auto.
Qed.

Lemma test_bits_set bits hs : Forall (bit_set bits) hs → test_bits bits hs = Ok true.
Proof.
  induction 1 as [|h hs (b & Hb & Ht) _ IH]; simpl; [done|].
  rewrite Hb. by destruct (Z.eqb_spec (Z.land b (Z.shiftl 1 (h mod 8))) 0).
Qed.

Lemma getHashes_spec bf key :
  bf_wf bf →
  ∃ hs, getHashes bf key = Ok hs ∧ Forall (λ h, 0 ≤ h < 8 * len (bf_bits bf)) hs.
Proof.
  intros [Hp Hb _ _]. unfold getHashes. destruct (Z.eqb_spec (bf_numBits bf) 0); [lia|]. simpl.
  eexists. split; [done|]. apply Forall_fmap, Forall_forall. intros i _. simpl. unfold bloom_hash.
  pose proof (Z.mod_pos_bound (u64 (hash1 key + u64 (i * hash2 key))) (bf_numBits bf)). lia.
Qed.

(** A filter recognises [key]. *)
Definition recognises (bf : BloomFilter) (key : bytes) : Prop :=
  ∀ hs, getHashes bf key = Ok hs → Forall (bit_set (bf_bits bf)) hs.

Lemma recognises_MayContain bf key :
  bf_wf bf → recognises bf key → BloomFilter_MayContain bf key = Ok true.
Proof.
  intros Hwf Hr. destruct (getHashes_spec bf key Hwf) as (hs & E & _).
  unfold BloomFilter_MayContain. rewrite E. simpl. by apply test_bits_set, Hr.
Qed.

Lemma Add_spec bf key :
  bf_wf bf →
  ∃ bf', BloomFilter_Add bf key = Ok bf' ∧ bf_wf bf' ∧ recognises bf' key ∧
    ∀ k, recognises bf k → recognises bf' k.
Proof.
  intros Hwf. destruct (getHashes_spec bf key Hwf) as (hs & E & Hf).
  destruct (set_bits_spec hs (bf_bits bf) Hf) as (bits' & E' & Hl & Hs & Hk).
  unfold BloomFilter_Add. rewrite E. simpl. rewrite E'. simpl. eexists. split; [done|].
  split; [destruct Hwf; split; simpl; unfold len in *; rewrite ?Hl; done|].
  split.
  - intros hs'. change (getHashes _ key) with (getHashes bf key). rewrite E. by intros [= <-].
  - intros k Hr hs' Ehs. change (getHashes _ k) with (getHashes bf k) in Ehs. simpl.
    eapply Forall_impl; [by apply Hr|]. auto.
Qed.

(** Adding a list of keys. *)
Fixpoint add_keys (bf : BloomFilter) (keys : list bytes) : res BloomFilter :=
  match keys with
  | [] => Ok bf
  | k :: keys => bf ← BloomFilter_Add bf k; add_keys bf keys
  end.

Lemma add_keys_spec keys : ∀ bf, bf_wf bf →
  ∃ bf', add_keys bf keys = Ok bf' ∧ bf_wf bf' ∧
    (∀ k, recognises bf k ∨ k ∈ keys → recognises bf' k).
Proof.
  induction keys as [|k keys IH]; intros bf Hwf; simpl.
  { exists bf. split; [done|]. split; [done|]. set_solver. }
  destruct (Add_spec bf k Hwf) as (bf1 & -> & Hwf1 & Hr & Hk). simpl.
  destruct (IH bf1 Hwf1) as (bf2 & -> & Hwf2 & H2). exists bf2. split; [done|]. split; [done|].
  intros k' [Hk'|[->|Hin]%elem_of_cons]; apply H2; auto.
Qed.

Lemma Decode_Encode bf :
  bf_wf bf → DecodeBloomFilter (BloomFilter_Encode bf) = Some bf.
Proof.
  intros [Hp _ Hh _]. unfold DecodeBloomFilter, BloomFilter_Encode.
  destruct (Z.ltb_spec (len (le_put 8 (bf_numBits bf) ++ le_put 4 (bf_numHashes bf) ++ bf_bits bf)) 12);
    [len_solve|].
  rewrite app_assoc, (slice_from_app 12) by len_solve. rewrite <-app_assoc.
  rewrite (slice_from_app 8) by len_solve. change (slice_from 0 ?d) with d.
  rewrite le_u64_put, le_u32_put by lia. destruct bf; reflexivity.
Qed.

Lemma NewBloomFilter_wf numBits numHashes :
  0 < numBits < 2 ^ 64 - 7 → 0 ≤ numHashes < 2 ^ 32 → bf_wf (NewBloomFilter numBits numHashes).
Proof.
  intros Hb Hh. unfold NewBloomFilter. split; simpl.
  - lia.
  - unfold len. rewrite length_make_bytes, u64_small by lia.
    pose proof (Z.div_mod (numBits + 7) 8). pose proof (Z.mod_pos_bound (numBits + 7) 8). lia.
  - destruct (Z.eqb_spec numHashes 0); lia.
  - unfold len. rewrite length_make_bytes, u64_small by lia.
    assert ((numBits + 7) / 8 < 2 ^ 61) by (apply Z.div_lt_upper_bound; lia). lia.
Qed.

(** C26: the filter has no false negatives: adding any keys to a new filter succeeds, and
    every added key is reported as possibly present, also after the filter was encoded
    and decoded. *)
Theorem bloom_no_false_negatives numBits numHashes keys
    (Hbits : 0 < numBits < 2 ^ 64 - 7) (Hhashes : 0 ≤ numHashes < 2 ^ 32) :
  ∃ bf, add_keys (NewBloomFilter numBits numHashes) keys = Ok bf ∧
    DecodeBloomFilter (BloomFilter_Encode bf) = Some bf ∧
    ∀ k, k ∈ keys → BloomFilter_MayContain bf k = Ok true.
Proof.
  destruct (add_keys_spec keys _ (NewBloomFilter_wf _ _ Hbits Hhashes)) as (bf & E & Hwf & Hr).
  exists bf. split; [done|]. split; [by apply Decode_Encode|].
  intros k Hk. apply recognises_MayContain; [done|]. apply Hr. by right.
Qed.

Lemma bloom_no_false_negatives_witness :
  ∃ bf, add_keys (NewBloomFilter 20 7) [[1]; [2; 3]] = Ok bf ∧
    BloomFilter_MayContain bf [2; 3] = Ok true ∧ BloomFilter_MayContain bf [9] = Ok false.
Proof.
  destruct (bloom_no_false_negatives 20 7 [[1]; [2; 3]]) as (bf & E & _ & Hk); [lia|lia|].
  exists bf. split; [exact E|]. split; [apply Hk; right; left|].
  vm_compute in E. injection E as <-. by vm_compute.
Defined.
