(* ===== verification/LsmSSTable.v ===== *)
(** SSTables of the LSM engine ([src/lsm/sstable.go], [src/lsm/sstable_builder.go]): the
    byte format of the immutable sorted files, the builder that writes them block by block
    and the reader that finds a key through the Bloom filter, the index and one block. *)
From S2P Require Import Prelude GoLib LsmBloom.
From stdpp Require Import base gmap list strings numbers sorting.

Open Scope Z_scope.

Definition blockSize : Z := 4096.
Definition sstableMagic : Z := 0x5354424C.
Definition footerSize : Z := 28.

Record SSTableEntry := MkSSTEntry {
  se_Key : bytes;
  se_Value : bytes;
  se_Deleted : bool;
}.

#[global] Instance SSTableEntry_eq_dec : EqDecision SSTableEntry.
Proof. solve_decision. Defined.

Record IndexEntry := MkIndexEntry {
  ix_Key : bytes;
  ix_BlockOffset : Z;
}.

(** ** Entries of a block *)

(** [keySize] in 4 bytes, [valueSize] in 4, the deleted flag, the key and the value. *)
Definition encode_entry (key value : bytes) (deleted : bool) : bytes :=
  le_put 4 (u32 (len key)) ++ le_put 4 (u32 (len value)) ++ [if deleted then 1 else 0]
    ++ key ++ value.

(** The two bounds checks and the decoding that the loops over a block share; [None] is a
    truncated entry. *)
Definition parse_entry (block : bytes) (offset : Z) : option (bytes * bytes * bool * Z) :=
  if len block <? offset + 9 then None
  else
    let keySize := le_u32 (slice_from offset block) in
    let valueSize := le_u32 (slice_from (offset + 4) block) in
    let deleted := default 0 (block !! Z.to_nat (offset + 8)) =? 1 in
    let offset := offset + 9 in
    if len block <? offset + keySize + valueSize then None
    else Some (slice offset (offset + keySize) block,
               slice (offset + keySize) (offset + keySize + valueSize) block,
               deleted, offset + keySize + valueSize).

(** ** The builder *)

Record SSTableBuilder := MkBuilder {
  sb_file : bytes;
  sb_currentBlock : bytes;
  sb_blockOffset : Z;
  sb_index : list IndexEntry;
  sb_bloomFilter : BloomFilter;
  sb_minKey : bytes;
  sb_maxKey : bytes;
  sb_numEntries : Z;
}.

Definition NewSSTableBuilder (bloomFilter : BloomFilter) : SSTableBuilder :=
  MkBuilder [] (make_bytes 4) 0 [] bloomFilter [] [] 0.

Definition getFirstKeyFromBlock (b : SSTableBuilder) : res bytes :=
  if len (sb_currentBlock b) <? 13 then Err (Errorf "block too small")
  else
    let offset := 4 in
    let keySize := le_u32 (slice_from offset (sb_currentBlock b)) in
    let offset := offset + 4 + 4 + 1 in
    if len (sb_currentBlock b) <? offset + keySize then Err (Errorf "block truncated")
    else Ok (slice offset (offset + keySize) (sb_currentBlock b)).

(** The counting loop; an entry takes at least 9 bytes, so the block's length bounds the
    rounds. *)
Fixpoint count_entries (fuel : nat) (block : bytes) (offset count : Z) : Z :=
  match fuel with
  | O => count
  | S fuel =>
      if offset <? len block then
        match parse_entry block offset with
        | None => count
        | Some (_, _, _, next) => count_entries fuel block next (u32 (count + 1))
        end
      else count
  end.

Definition getNumEntriesInBlock (b : SSTableBuilder) : Z :=
  count_entries (length (sb_currentBlock b)) (sb_currentBlock b) 4 0.

Definition flushBlock (b : SSTableBuilder) : SSTableBuilder * res unit :=
  if len (sb_currentBlock b) <=? 4 then (b, Ok tt)
  else
    match getFirstKeyFromBlock b with
    | Panic => (b, Panic)
    | Err e => (b, Err e)
    | Ok firstKey =>
        let numEntriesInBlock := getNumEntriesInBlock b in
        let block := copy_at 0 (le_put 4 numEntriesInBlock) (sb_currentBlock b) in
        let file := sb_file b ++ block in
        let index := sb_index b ++ [MkIndexEntry firstKey (sb_blockOffset b)] in
        let blockOffset := u64 (sb_blockOffset b + u64 (len block)) in
        let padding := make_bytes (blockSize - len block) in
        let '(file, blockOffset) :=
          if len block <? blockSize
          then (file ++ padding, u64 (blockOffset + u64 (len padding)))
          else (file, blockOffset) in
        (MkBuilder file (make_bytes 4) blockOffset index (sb_bloomFilter b) (sb_minKey b)
           (sb_maxKey b) (sb_numEntries b), Ok tt)
    end.

Definition SSTableBuilder_Add (b : SSTableBuilder) (key value : bytes) (deleted : bool)
    : SSTableBuilder * res unit :=
  let minKey := if sb_numEntries b =? 0 then key else sb_minKey b in
  match BloomFilter_Add (sb_bloomFilter b) key with
  | Ok bloom =>
      let b := MkBuilder (sb_file b) (sb_currentBlock b) (sb_blockOffset b) (sb_index b) bloom
                 minKey key (sb_numEntries b + 1) in
      let entry := encode_entry key value deleted in
      let '(b, r) := if blockSize <? len (sb_currentBlock b) + len entry
                     then flushBlock b else (b, Ok tt) in
      match r with
      | Ok _ =>
          (MkBuilder (sb_file b) (sb_currentBlock b ++ entry) (sb_blockOffset b) (sb_index b)
             (sb_bloomFilter b) (sb_minKey b) (sb_maxKey b) (sb_numEntries b), Ok tt)
      | Err e => (b, Err e)
      | Panic => (b, Panic)
      end
  | Err e => (b, Err e)
  | Panic => (b, Panic)
  end.

Definition encode_index_entry (e : IndexEntry) : bytes :=
  le_put 4 (u32 (len (ix_Key e))) ++ le_put 8 (ix_BlockOffset e) ++ ix_Key e.

Definition encodeIndex (index : list IndexEntry) : bytes :=
  le_put 4 (u32 (len index)) ++ concat (encode_index_entry <$> index).

Definition encodeMetadata (minKey maxKey : bytes) : bytes :=
  le_put 4 (u32 (len minKey)) ++ le_put 4 (u32 (len maxKey)) ++ minKey ++ maxKey.

Definition encode_footer (indexOffset bloomOffset metadataOffset : Z) : bytes :=
  le_put 8 indexOffset ++ le_put 8 bloomOffset ++ le_put 8 metadataOffset
    ++ le_put 4 sstableMagic.

(** [Finish]: the content of the finished file. *)
Definition SSTableBuilder_Finish (b : SSTableBuilder) : res bytes :=
  let '(b, r) := if 4 <? len (sb_currentBlock b) then flushBlock b else (b, Ok tt) in
  match r with
  | Ok _ =>
      let indexOffset := sb_blockOffset b in
      let indexData := encodeIndex (sb_index b) in
      let metadataOffset := u64 (sb_blockOffset b + u64 (len indexData)) in
      let metadataData := encodeMetadata (sb_minKey b) (sb_maxKey b) in
      let bloomOffset := u64 (metadataOffset + u64 (len metadataData)) in
      let bloomData := BloomFilter_Encode (sb_bloomFilter b) in
      Ok (sb_file b ++ indexData ++ metadataData ++ bloomData
            ++ encode_footer indexOffset bloomOffset metadataOffset)
  | Err e => Err e
  | Panic => Panic
  end.

(** ** The reader *)

Record SSTable := MkSSTable {
  sst_file : bytes;
  sst_level : Z;
  sst_fileNum : Z;
  sst_minKey : bytes;
  sst_maxKey : bytes;
  sst_index : list IndexEntry;
  sst_bloomFilter : option BloomFilter;
  sst_indexOffset : Z;
  sst_bloomOffset : Z;
}.

(** The additions to the [uint32] sizes in the slice bounds wrap at 32 bits. *)
Definition decodeMetadata (data : bytes) : res (bytes * bytes) :=
  if len data <? 8 then Err (Errorf "metadata too small")
  else
    let minKeySize := le_u32 (slice_from 0 data) in
    let maxKeySize := le_u32 (slice_from 4 data) in
    if len data <? 8 + minKeySize + maxKeySize then Err (Errorf "metadata truncated")
    else
      let a := u32 (8 + minKeySize) in
      let b := u32 (a + maxKeySize) in
      if (a <? 8) || (b <? a) then Panic
      else Ok (slice 8 a data, slice a b data).

Fixpoint decode_index_entries (n : nat) (data : bytes) (offset : Z) (entries : list IndexEntry)
    : res (list IndexEntry) :=
  match n with
  | O => Ok entries
  | S n =>
      if len data <? offset + 12 then Err (Errorf "index truncated")
      else
        let keySize := le_u32 (slice_from offset data) in
        let blockOffset := le_u64 (slice_from (offset + 4) data) in
        let offset := offset + 12 in
        if len data <? offset + keySize then Err (Errorf "index truncated")
        else decode_index_entries n data (offset + keySize)
               (entries ++ [MkIndexEntry (slice offset (offset + keySize) data) blockOffset])
  end.

Definition decodeIndex (data : bytes) : res (list IndexEntry) :=
  if len data <? 4 then Err (Errorf "index too small")
  else decode_index_entries (Z.to_nat (le_u32 (slice_from 0 data))) data 4 [].

(** [make([]byte, n)] followed by [file.ReadAt]; a size beyond what [make] accepts is a
    panic. *)
Definition read_section (file : bytes) (size offset : Z) (msg : string) : res bytes :=
  if (size <? 0) || (2 ^ 63 <=? size) then Panic
  else if 2 ^ 63 <=? offset then Err (Errorf msg)
  else
    let '(data, err) := ReadAt file size offset in
    match err with Some _ => Err (Errorf msg) | None => Ok data end.

Definition OpenSSTable (file : bytes) (level fileNum : Z) : res SSTable :=
  let fileSize := len file in
  if fileSize <? footerSize then Err (Errorf "sstable file too small")
  else
    let footer := (ReadAt file footerSize (fileSize - footerSize)).1 in
    let magic := le_u32 (slice_from 24 footer) in
    if negb (magic =? sstableMagic) then Err (Errorf "invalid sstable magic number")
    else
      let indexOffset := le_u64 (slice_from 0 footer) in
      let bloomOffset := le_u64 (slice_from 8 footer) in
      let metadataOffset := le_u64 (slice_from 16 footer) in
      metadataData ← read_section file (u64 (bloomOffset - metadataOffset)) metadataOffset
                       "failed to read metadata";
      '(minKey, maxKey) ← decodeMetadata metadataData;
      indexData ← read_section file (u64 (metadataOffset - indexOffset)) indexOffset
                    "failed to read index";
      index ← decodeIndex indexData;
      bloomData ← read_section file (fileSize - bloomOffset - footerSize) bloomOffset
                    "failed to read bloom filter";
      Ok (MkSSTable file level fileNum minKey maxKey index (DecodeBloomFilter bloomData)
            indexOffset bloomOffset).

(** [readBlock]: up to [blockSize] bytes; [io.EOF] is not an error, an offset that is
    negative as an [int64] is. *)
Definition readBlock (sst : SSTable) (offset : Z) : res bytes :=
  if 2 ^ 63 <=? offset then Err (Errorf "negative offset")
  else Ok (ReadAt (sst_file sst) blockSize offset).1.

(** The loop of [searchBlock]; [None] is the answer [nil, false, nil]. *)
Fixpoint search_entries (n : nat) (block : bytes) (offset : Z) (key : bytes)
    : res (option bytes) :=
  match n with
  | O => Ok None
  | S n =>
      match parse_entry block offset with
      | None => Err (Errorf "block truncated")
      | Some (entryKey, value, deleted, next) =>
          if bytes_eqb entryKey key then Ok (if deleted then None else Some value)
          else if bytes_ltb key entryKey then Ok None
          else search_entries n block next key
      end
  end.

Definition searchBlock (block key : bytes) : res (option bytes) :=
  if len block <? 4 then Ok None
  else search_entries (Z.to_nat (le_u32 (slice_from 0 block))) block 4 key.

(** [sort.Search(len(sst.index), func(i int) bool { return sst.index[i].Key > key })]. *)
Definition find_block (index : list IndexEntry) (key : bytes) : Z :=
  search_by (λ e, bytes_ltb key (ix_Key e)) index.

Definition SSTable_Get (sst : SSTable) (key : bytes) : res (option bytes) :=
  match sst_bloomFilter sst with
  | None => Panic
  | Some bloom =>
      may ← BloomFilter_MayContain bloom key;
      if negb may then Ok None
      else
        let blockIdx := find_block (sst_index sst) key in
        if blockIdx =? 0 then Ok None
        else
          match sst_index sst !! Z.to_nat (blockIdx - 1) with
          | None => Panic
          | Some e => block ← readBlock sst (ix_BlockOffset e); searchBlock block key
          end
  end.

Definition SSTable_Overlaps (sst : SSTable) (start end_ : bytes) : bool :=
  if negb (bytes_eqb start []) && bytes_ltb (sst_maxKey sst) start then false
  else if negb (bytes_eqb end_ []) && bytes_ltb end_ (sst_minKey sst) then false
  else true.

Definition SSTable_MinKey (sst : SSTable) : bytes := sst_minKey sst.
Definition SSTable_MaxKey (sst : SSTable) : bytes := sst_maxKey sst.
Definition SSTable_Level (sst : SSTable) : Z := sst_level sst.
Definition SSTable_FileNum (sst : SSTable) : Z := sst_fileNum sst.

(** Writing a sorted list of entries, as the flush and the compaction do. *)
Fixpoint add_entries (b : SSTableBuilder) (es : list SSTableEntry) : SSTableBuilder * res unit :=
  match es with
  | [] => (b, Ok tt)
  | e :: es =>
      match SSTableBuilder_Add b (se_Key e) (se_Value e) (se_Deleted e) with
      | (b, Ok _) => add_entries b es
      | (b, r) => (b, r)
      end
  end.

Definition build_sstable (bloom : BloomFilter) (es : list SSTableEntry) : res bytes :=
  match add_entries (NewSSTableBuilder bloom) es with
  | (b, Ok _) => SSTableBuilder_Finish b
  | (_, Err e) => Err e
  | (_, Panic) => Panic
  end.

(** ** Blocks *)

Definition entry_ok (e : SSTableEntry) : Prop := len (se_Key e) + len (se_Value e) < 2 ^ 31.

Definition ebytes (e : SSTableEntry) : bytes := encode_entry (se_Key e) (se_Value e) (se_Deleted e).
Definition ebody (es : list SSTableEntry) : bytes := concat (ebytes <$> es).

Lemma len_ebytes e : len (ebytes e) = 9 + len (se_Key e) + len (se_Value e).
Proof. unfold ebytes, encode_entry. len_solve. Qed.

Lemma ebody_app a b : ebody (a ++ b) = ebody a ++ ebody b.
Proof. unfold ebody. by rewrite fmap_app, concat_app. Qed.

Lemma ebody_cons e es : ebody (e :: es) = ebytes e ++ ebody es.
Proof. done. Qed.

Lemma length_le_ebody es : Z.of_nat (length es) ≤ len (ebody es).
Proof.
  induction es as [|e es IH]; [done|]. rewrite ebody_cons, len_app, len_ebytes. simpl.
  pose proof (len_nonneg (se_Key e)). pose proof (len_nonneg (se_Value e)). lia.
Qed.

Lemma le_u32_at (pre : bytes) z (post b : bytes) off :
  0 ≤ z < 2 ^ 32 → off = len pre → b = pre ++ le_put 4 z ++ post → le_u32 (slice_from off b) = z.
Proof. intros Hz -> ->. rewrite slice_from_app by done. by apply le_u32_put. Qed.

Lemma le_u64_at (pre : bytes) z (post b : bytes) off :
  0 ≤ z < 2 ^ 64 → off = len pre → b = pre ++ le_put 8 z ++ post → le_u64 (slice_from off b) = z.
Proof. intros Hz -> ->. rewrite slice_from_app by done. by apply le_u64_put. Qed.

Lemma slice_at {A} (pre x post b : list A) lo hi :
  lo = len pre → hi = len pre + len x → b = pre ++ x ++ post → slice lo hi b = x.
Proof. intros Hl Hh ->. by apply slice_mid. Qed.

(** Decoding an entry in the middle of a block. *)
Lemma parse_entry_mid pre e post off :
  entry_ok e → off = len pre →
  parse_entry (pre ++ ebytes e ++ post) off =
    Some (se_Key e, se_Value e, se_Deleted e, off + len (ebytes e)).
Proof.
  intros Hok ->. destruct e as [k v d]. unfold entry_ok in Hok. simpl in Hok.
  rewrite len_ebytes. unfold ebytes, encode_entry. simpl.
  pose proof (len_nonneg k). pose proof (len_nonneg v). pose proof (len_nonneg pre).
  pose proof (len_nonneg post). rewrite !u32_small by lia.
  set (blk := pre ++ _).
  assert (Hlen : len blk = len pre + 9 + len k + len v + len post) by (subst blk; len_solve).
  unfold parse_entry. destruct (Z.ltb_spec (len blk) (len pre + 9)); [lia|].
  rewrite (le_u32_at pre (len k) (le_put 4 (len v) ++ [if d then 1 else 0] ++ k ++ v ++ post) blk)
    by (lia || done || (subst blk; by rewrite <-!app_assoc)).
  rewrite (le_u32_at (pre ++ le_put 4 (len k)) (len v) ([if d then 1 else 0] ++ k ++ v ++ post) blk)
    by (lia || (by rewrite len_app; unfold len; rewrite length_le_put) || (subst blk; by rewrite <-!app_assoc)).
  destruct (Z.ltb_spec (len blk) (len pre + 9 + len k + len v)); [lia|].
  rewrite (slice_at (pre ++ le_put 4 (len k) ++ le_put 4 (len v) ++ [if d then 1 else 0]) k (v ++ post) blk)
    by ((len_solve) || (subst blk; by rewrite <-!app_assoc)).
  rewrite (slice_at (pre ++ le_put 4 (len k) ++ le_put 4 (len v) ++ [if d then 1 else 0] ++ k) v post blk)
    by ((len_solve) || (subst blk; by rewrite <-!app_assoc)).
  replace (blk !! Z.to_nat (len pre + 8)) with (Some (if d then 1 else 0)).
  - simpl. f_equal. f_equal; [|lia]. f_equal. by destruct d.
  - replace blk with ((pre ++ le_put 4 (len k) ++ le_put 4 (len v)) ++
      (if d then 1 else 0) :: (k ++ v ++ post)) by (subst blk; by rewrite <-!app_assoc).
    rewrite lookup_app_r by len_solve. replace (_ - _)%nat with 0%nat by len_solve. done.
Qed.

Lemma count_entries_spec es : ∀ fuel pre blk n,
  blk = pre ++ ebody es → Forall entry_ok es → 0 ≤ n → n + len es < 2 ^ 32 →
  (length es ≤ fuel)%nat →
  count_entries fuel blk (len pre) n = n + len es.
Proof.
  induction es as [|e es IH]; intros fuel pre blk n Hb Hok Hn Hlt Hf.
  - rewrite app_nil_r in Hb. subst blk. rewrite len_nil, Z.add_0_r.
    destruct fuel; simpl; [done|]. by rewrite Z.ltb_irrefl.
  - destruct fuel as [|fuel]; [simpl in Hf; lia|]. apply Forall_cons in Hok as [He Hok].
    rewrite ebody_cons in Hb. cbn [count_entries].
    assert (len pre < len blk).
    { rewrite Hb, !len_app, len_ebytes. pose proof (len_nonneg (se_Key e)).
      pose proof (len_nonneg (se_Value e)). pose proof (len_nonneg (ebody es)). lia. }
    destruct (Z.ltb_spec (len pre) (len blk)); [|lia].
    rewrite Hb at 1. rewrite parse_entry_mid by done. rewrite <-len_app.
    rewrite len_cons in *. pose proof (len_nonneg es). rewrite u32_small by lia.
    rewrite (IH fuel (pre ++ ebytes e) blk (n + 1)); [lia| |done|lia|lia|simpl in Hf; lia].
    by rewrite Hb, <-app_assoc.
Qed.

(** The live value of a key in a list of entries. *)
Definition sst_lookup (es : list SSTableEntry) (key : bytes) : option bytes :=
  match entries_map se_Key es !! key with
  | Some e => if se_Deleted e then None else Some (se_Value e)
  | None => None
  end.

Lemma sst_lookup_cons e es key :
  sst_lookup (e :: es) key =
  if bytes_eqb (se_Key e) key then (if se_Deleted e then None else Some (se_Value e))
  else sst_lookup es key.
Proof.
  unfold sst_lookup. rewrite entries_map_cons. destruct (bytes_eqb (se_Key e) key) eqn:E.
  - apply bytes_eqb_eq in E as ->. by rewrite lookup_insert_eq.
  - unfold bytes_eqb in E. apply bool_decide_eq_false in E. by rewrite lookup_insert_ne.
Qed.

Lemma sst_lookup_None es key : Forall (λ e, se_Key e ≠ key) es → sst_lookup es key = None.
Proof. intros H. unfold sst_lookup. by rewrite entries_map_None. Qed.

(** Scanning a sorted block finds the key's entry. *)
Lemma search_entries_spec es : ∀ pre post key off,
  StronglySorted (key_lt se_Key) es → Forall entry_ok es → off = len pre →
  search_entries (length es) (pre ++ ebody es ++ post) off key = Ok (sst_lookup es key).
Proof.
  induction es as [|e es IH]; intros pre post key off Hs Hok ->; [done|].
  inversion_clear Hs as [|? ? Hs' Hz]. apply Forall_cons in Hok as [He Hok].
  rewrite ebody_cons, <-app_assoc. cbn [search_entries length].
  rewrite parse_entry_mid by done. rewrite sst_lookup_cons.
  destruct (bytes_eqb (se_Key e) key) eqn:E; [done|].
  destruct (bytes_ltb key (se_Key e)) eqn:Elt.
  - apply bytes_ltb_lt in Elt. rewrite sst_lookup_None; [done|].
    eapply Forall_impl; [exact Hz|]. intros x Hx. apply not_eq_sym, bytes_lt_ne.
    by eapply bytes_lt_trans.
  - replace (pre ++ ebytes e ++ ebody es ++ post) with ((pre ++ ebytes e) ++ ebody es ++ post)
      by by rewrite <-app_assoc.
    apply IH; [done|done|]. by rewrite len_app.
Qed.

(** A finished block and its padding. *)
Definition block_of (es : list SSTableEntry) : bytes := le_put 4 (len es) ++ ebody es.
Definition padded (es : list SSTableEntry) : bytes :=
  block_of es ++ make_bytes (blockSize - len (block_of es)).
Definition block_ok (es : list SSTableEntry) : Prop :=
  es ≠ [] ∧ len (block_of es) ≤ blockSize ∧ Forall entry_ok es.

Lemma len_block_of es : len (block_of es) = 4 + len (ebody es).
Proof. unfold block_of. len_solve. Qed.

Lemma block_count es : block_ok es → 0 ≤ len es < 2 ^ 32.
Proof.
  intros (_ & Hl & _). rewrite len_block_of in Hl. pose proof (length_le_ebody es).
  unfold blockSize, len in *. lia.
Qed.

Lemma len_padded es : block_ok es → len (padded es) = blockSize.
Proof.
  intros (_ & Hl & _). unfold padded. rewrite len_app. unfold len at 2.
  rewrite length_make_bytes. lia.
Qed.

Lemma searchBlock_padded es key :
  block_ok es → StronglySorted (key_lt se_Key) es →
  searchBlock (padded es) key = Ok (sst_lookup es key).
Proof.
  intros Hb Hs. pose proof (block_count es Hb) as Hc. pose proof (len_padded es Hb) as Hl.
  destruct Hb as (_ & _ & Hok). unfold searchBlock. rewrite Hl.
  change (blockSize <? 4) with false. cbn iota.
  rewrite (le_u32_at [] (len es) (ebody es ++ make_bytes (blockSize - len (block_of es))))
    by (lia || done || (unfold padded, block_of; by rewrite <-app_assoc)).
  unfold len at 1. rewrite Nat2Z.id. unfold padded, block_of. rewrite <-app_assoc.
  apply search_entries_spec; [done|done|len_solve].
Qed.

(** ** What the builder has written *)

Definition first_key (es : list SSTableEntry) : bytes := from_option se_Key [] (head es).
Definition last_key (es : list SSTableEntry) : bytes := from_option se_Key [] (last es).

Fixpoint index_from (off : Z) (blocks : list (list SSTableEntry)) : list IndexEntry :=
  match blocks with
  | [] => []
  | blk :: blocks => MkIndexEntry (first_key blk) off :: index_from (off + blockSize) blocks
  end.

Lemma index_from_app off a b :
  index_from off (a ++ b) = index_from off a ++ index_from (off + blockSize * len a) b.
Proof.
  revert off. induction a as [|x a IH]; intros off; simpl.
  { f_equal. unfold len. simpl. lia. }
  rewrite IH, len_cons. do 3 f_equal. lia.
Qed.

(** The blocks on file and the open block. *)
Record written (b : SSTableBuilder) (blocks : list (list SSTableEntry)) (cur : list SSTableEntry)
    : Prop := {
  wr_file : sb_file b = concat (padded <$> blocks);
  wr_offset : sb_blockOffset b = blockSize * len blocks;
  wr_index : sb_index b = index_from 0 blocks;
  wr_blocks : Forall block_ok blocks;
  wr_block : sb_currentBlock b = make_bytes 4 ++ ebody cur;
  wr_cur : Forall entry_ok cur;
  wr_fits : 4 + len (ebody cur) ≤ blockSize;
}.

(** The summary of the entries added so far. *)
Record described (b : SSTableBuilder) (es : list SSTableEntry) : Prop := {
  ds_bloom : bf_wf (sb_bloomFilter b);
  ds_recognised : ∀ e, e ∈ es → recognises (sb_bloomFilter b) (se_Key e);
  ds_min : sb_minKey b = first_key es;
  ds_max : sb_maxKey b = last_key es;
  ds_num : sb_numEntries b = len es;
}.

Lemma len_current b blocks cur : written b blocks cur → len (sb_currentBlock b) = 4 + len (ebody cur).
Proof. intros H. rewrite (wr_block _ _ _ H), len_app, len_make_bytes. done. Qed.

Lemma getFirstKey_spec b blocks cur :
  written b blocks cur → cur ≠ [] → getFirstKeyFromBlock b = Ok (first_key cur).
Proof.
  intros Hw Hne. pose proof (len_current _ _ _ Hw) as Hl. pose proof (wr_block _ _ _ Hw) as Hb.
  pose proof (wr_cur _ _ _ Hw) as Hok. destruct cur as [|e cur]; [done|].
  apply Forall_cons in Hok as [He _]. unfold entry_ok in He. unfold getFirstKeyFromBlock.
  rewrite ebody_cons, len_app, len_ebytes in Hl. set (k := se_Key e) in *. set (v := se_Value e) in *.
  pose proof (len_nonneg k). pose proof (len_nonneg v). pose proof (len_nonneg (ebody cur)).
  rewrite Hl. destruct (Z.ltb_spec (4 + (9 + len k + len v + len (ebody cur))) 13); [lia|].
  set (f := if se_Deleted e then 1 else 0).
  assert (Hb' : sb_currentBlock b = make_bytes 4 ++ le_put 4 (len k) ++ le_put 4 (len v) ++ [f]
    ++ k ++ v ++ ebody cur).
  { rewrite Hb, ebody_cons. unfold ebytes, encode_entry. fold k v f. rewrite !u32_small by lia.
    by rewrite <-!app_assoc. }
  rewrite (le_u32_at (make_bytes 4) (len k) (le_put 4 (len v) ++ [f] ++ k ++ v ++ ebody cur))
    by (lia || done).
  destruct (Z.ltb_spec (4 + (9 + len k + len v + len (ebody cur))) (4 + 4 + 4 + 1 + len k)); [lia|].
  rewrite (slice_at (make_bytes 4 ++ le_put 4 (len k) ++ le_put 4 (len v) ++ [f]) k (v ++ ebody cur));
    [done|len_solve|len_solve|by rewrite Hb', <-!app_assoc].
Qed.

Lemma getNumEntries_spec b blocks cur :
  written b blocks cur → getNumEntriesInBlock b = len cur.
Proof.
  intros Hw. pose proof (len_current _ _ _ Hw) as Hl. pose proof (length_le_ebody cur).
  pose proof (wr_fits _ _ _ Hw). unfold getNumEntriesInBlock. 
  change (count_entries ?f ?blk 4 0) with (count_entries f blk (len (make_bytes 4)) 0).
  rewrite (count_entries_spec cur _ (make_bytes 4) _ 0).
  - done.
  - apply (wr_block _ _ _ Hw).
  - apply (wr_cur _ _ _ Hw).
  - lia.
  - unfold len, blockSize in *. lia.
  - unfold len in *. lia.
Qed.

Lemma flushBlock_spec b blocks cur :
  written b blocks cur → cur ≠ [] → len blocks < 2 ^ 32 →
  ∃ b', flushBlock b = (b', Ok tt) ∧ written b' (blocks ++ [cur]) [] ∧
    sb_bloomFilter b' = sb_bloomFilter b ∧ sb_minKey b' = sb_minKey b ∧
    sb_maxKey b' = sb_maxKey b ∧ sb_numEntries b' = sb_numEntries b.
Proof.
  intros Hw Hne Hn. pose proof (len_current _ _ _ Hw) as Hl. pose proof (wr_fits _ _ _ Hw) as Hfit.
  pose proof (length_le_ebody cur) as Hle.
  assert (Hpos : 0 < len (ebody cur)) by (destruct cur; [done|simpl in Hle; lia]).
  unfold flushBlock. rewrite Hl. destruct (Z.leb_spec (4 + len (ebody cur)) 4); [lia|].
  rewrite (getFirstKey_spec b blocks cur Hw Hne), (getNumEntries_spec b blocks cur Hw).
  assert (Hblk : copy_at 0 (le_put 4 (len cur)) (sb_currentBlock b) = block_of cur).
  { rewrite (wr_block _ _ _ Hw).
    apply (copy_at_app 0 [] (le_put 4 (len cur)) (make_bytes 4) (ebody cur)); [done|].
    by rewrite length_le_put, length_make_bytes. }
  rewrite Hblk. pose proof (len_block_of cur) as Hlb.
  assert (Hok : block_ok cur).
  { split; [done|]. split; [rewrite Hlb; done|apply (wr_cur _ _ _ Hw)]. }
  pose proof (len_padded cur Hok) as Hlp. pose proof (len_nonneg blocks).
  match goal with |- context [if ?c then (?f ++ ?p, ?o1) else (?f, ?o2)] =>
    assert (Hpair : (if c then (f ++ p, o1) else (f, o2)) =
      (sb_file b ++ padded cur, blockSize * (len blocks + 1))) end.
  { rewrite (wr_offset _ _ _ Hw). unfold padded, blockSize in *.
    destruct (Z.ltb_spec (len (block_of cur)) 4096).
    - rewrite len_make_bytes, Z.max_r by lia. rewrite (u64_small (len (block_of cur))) by lia.
      rewrite (u64_small (4096 - len (block_of cur))) by lia.
      rewrite (u64_small (4096 * len blocks + len (block_of cur))) by lia.
      rewrite u64_small by lia. rewrite <-app_assoc. f_equal. lia.
    - replace (4096 - len (block_of cur)) with 0 by lia.
      rewrite (u64_small (len (block_of cur))) by lia. rewrite u64_small by lia.
      rewrite app_nil_r. f_equal. lia. }
  rewrite Hpair. eexists. split; [reflexivity|]. split; [split; simpl|done].
  - rewrite fmap_app, concat_app, (wr_file _ _ _ Hw). simpl. by rewrite app_nil_r.
  - by rewrite len_app.
  - by rewrite index_from_app, (wr_index _ _ _ Hw), (wr_offset _ _ _ Hw).
  - apply Forall_app. split; [apply (wr_blocks _ _ _ Hw)|by apply Forall_singleton].
  - done.
  - done.
  - done.
Qed.

(** The size of one entry for which a block can hold it: the limit of the format. *)
Definition entry_fits (e : SSTableEntry) : Prop := 4 + len (ebytes e) ≤ blockSize.

Lemma entry_fits_ok e : entry_fits e → entry_ok e.
Proof. unfold entry_fits, entry_ok, blockSize. rewrite len_ebytes. lia. Qed.

Lemma blocks_le_concat blocks : Forall block_ok blocks → len blocks ≤ len (concat blocks).
Proof.
  induction 1 as [|blk blocks (Hne & _) _ IH]; [done|]. csimpl. rewrite len_cons, len_app.
  assert (1 ≤ len blk) by (destruct blk; [done|rewrite len_cons; pose proof (len_nonneg blk); lia]).
  lia.
Qed.

Lemma written_nonempty b blocks cur :
  written b blocks cur → len blocks ≤ len (concat blocks).
Proof. intros Hw. apply blocks_le_concat, (wr_blocks _ _ _ Hw). Qed.

Lemma len_concat_padded blocks :
  Forall block_ok blocks → len (concat (padded <$> blocks)) = blockSize * len blocks.
Proof.
  induction 1 as [|x l Hx _ IH]; [done|].
  change (concat (padded <$> x :: l)) with (padded x ++ concat (padded <$> l)).
  rewrite len_app, len_cons, IH, len_padded by done. lia.
Qed.

Lemma first_key_app a b : a ≠ [] → first_key (a ++ b) = first_key a.
Proof. by destruct a. Qed.

Lemma last_key_snoc a e : last_key (a ++ [e]) = se_Key e.
Proof. unfold last_key. by rewrite last_snoc. Qed.

(** One more entry. *)
Lemma Add_written b blocks cur e :
  written b blocks cur → described b (concat blocks ++ cur) → entry_fits e →
  len (concat blocks ++ cur) < 2 ^ 32 →
  ∃ b' blocks' cur',
    SSTableBuilder_Add b (se_Key e) (se_Value e) (se_Deleted e) = (b', Ok tt) ∧
    written b' blocks' cur' ∧ described b' ((concat blocks ++ cur) ++ [e]) ∧
    (concat blocks ++ cur) ++ [e] = concat blocks' ++ cur'.
Proof.
  intros Hw [Hbl Hrec Hmin Hmax Hnum] Hfit Hlt. unfold SSTableBuilder_Add.
  destruct (Add_spec (sb_bloomFilter b) (se_Key e) Hbl) as (bl & -> & Hwf & Hke & Hkeep).
  pose proof (written_nonempty _ _ _ Hw) as Hnb. rewrite len_app in Hlt.
  pose proof (len_nonneg cur). pose proof (len_nonneg blocks).
  set (es := concat blocks ++ cur) in *. set (b1 := MkBuilder _ _ _ _ bl _ _ _).
  assert (Hw1 : written b1 blocks cur) by (destruct Hw; by split).
  assert (Hd : ∀ b2, sb_bloomFilter b2 = bl → sb_minKey b2 = sb_minKey b1 →
    sb_maxKey b2 = sb_maxKey b1 → sb_numEntries b2 = sb_numEntries b1 → described b2 (es ++ [e])).
  { intros b2 E1 E2 E3 E4. split; rewrite ?E1, ?E2, ?E3, ?E4; subst b1; simpl.
    - done.
    - intros x [Hx|Hx]%elem_of_app; [by apply Hkeep, Hrec|].
      by apply list_elem_of_singleton in Hx as ->.
    - rewrite Hnum. destruct es as [|x es'] eqn:Ees; [done|]. rewrite len_cons.
      pose proof (len_nonneg es'). destruct (Z.eqb_spec (1 + len es') 0); [lia|]. by rewrite Hmin.
    - by rewrite last_key_snoc.
    - rewrite Hnum, len_app. done. }
  change (encode_entry _ _ _) with (ebytes e). rewrite (len_current b1 blocks cur Hw1).
  unfold entry_fits in Hfit. pose proof (entry_fits_ok e Hfit) as Hok.
  destruct (Z.ltb_spec blockSize (4 + len (ebody cur) + len (ebytes e))) as [Hbig|Hsmall].
  - destruct (decide (cur = [])) as [->|Hne].
    { unfold ebody in Hbig. simpl in Hbig. rewrite len_nil in Hbig. lia. }
    destruct (flushBlock_spec b1 blocks cur Hw1 Hne) as (b2 & -> & Hw2 & E1 & E2 & E3 & E4); [lia|].
    eexists _, (blocks ++ [cur]), [e]. split; [reflexivity|]. split; [|split].
    + destruct Hw2 as [F1 F2 F3 F4 F5 F6 F7]. split; simpl; try done.
      * rewrite F5. by rewrite ebody_cons, !app_nil_r.
      * by constructor.
      * rewrite ebody_cons, len_app. change (len (ebody [])) with 0. lia.
    + apply Hd; done.
    + rewrite concat_app. subst es. simpl. by rewrite !app_nil_r.
  - eexists _, blocks, (cur ++ [e]). split; [reflexivity|]. split; [|split].
    + destruct Hw1 as [F1 F2 F3 F4 F5 F6 F7]. split; simpl in *; try done.
      * by rewrite F5, ebody_app, ebody_cons, app_nil_r.
      * apply Forall_app. split; [done|]. by constructor.
      * rewrite ebody_app, ebody_cons, app_nil_r, len_app. lia.
    + apply Hd; done.
    + subst es. by rewrite <-app_assoc.
Qed.

Lemma add_entries_written es : ∀ b blocks cur,
  written b blocks cur → described b (concat blocks ++ cur) → Forall entry_fits es →
  len (concat blocks ++ cur) + len es < 2 ^ 32 →
  ∃ b' blocks' cur', add_entries b es = (b', Ok tt) ∧ written b' blocks' cur' ∧
    described b' ((concat blocks ++ cur) ++ es) ∧
    (concat blocks ++ cur) ++ es = concat blocks' ++ cur'.
Proof.
  induction es as [|e es IH]; intros b blocks cur Hw Hd Hf Hlt.
  { exists b, blocks, cur. by rewrite app_nil_r. }
  apply Forall_cons in Hf as [He Hf]. rewrite len_cons in Hlt. pose proof (len_nonneg es).
  destruct (Add_written b blocks cur e Hw Hd He) as (b1 & bs1 & c1 & E & Hw1 & Hd1 & Heq); [lia|].
  cbn [add_entries]. rewrite E. rewrite Heq in Hd1.
  destruct (IH b1 bs1 c1 Hw1 Hd1 Hf) as (b2 & bs2 & c2 & E2 & Hw2 & Hd2 & Heq2).
  { rewrite <-Heq, len_app. change (len [e]) with 1. lia. }
  rewrite <-Heq, <-app_assoc in Hd2, Heq2. simpl in Hd2, Heq2. eauto 10.
Qed.

(** The bytes of a finished file. *)
Definition sst_tail (blocks : list (list SSTableEntry)) (minKey maxKey : bytes) (bloom : BloomFilter)
    : bytes :=
  let indexOffset := blockSize * len blocks in
  let indexData := encodeIndex (index_from 0 blocks) in
  let metadataOffset := indexOffset + len indexData in
  let metadataData := encodeMetadata minKey maxKey in
  let bloomOffset := metadataOffset + len metadataData in
  indexData ++ metadataData ++ BloomFilter_Encode bloom
    ++ encode_footer indexOffset bloomOffset metadataOffset.

Definition sst_bytes blocks minKey maxKey bloom : bytes :=
  concat (padded <$> blocks) ++ sst_tail blocks minKey maxKey bloom.

Lemma entry_fits_key e : entry_fits e → len (se_Key e) < 2 ^ 31 - 8.
Proof.
  unfold entry_fits, blockSize. rewrite len_ebytes. pose proof (len_nonneg (se_Value e)). lia.
Qed.

Lemma first_key_fits es : Forall entry_fits es → len (first_key es) < 2 ^ 31 - 8.
Proof. destruct es as [|e es]; [done|]. intros [He _]%Forall_cons. by apply entry_fits_key. Qed.

Lemma last_key_fits es : Forall entry_fits es → len (last_key es) < 2 ^ 31.
Proof.
  intros Hes. unfold last_key. destruct (last es) as [e|] eqn:E; [|done].
  rewrite Forall_forall in Hes. apply last_Some_elem_of in E.
  pose proof (entry_fits_key e (Hes e E)). simpl. lia.
Qed.

Lemma len_encodeIndex blocks :
  Forall block_ok blocks → len (encodeIndex (index_from 0 blocks)) ≤ 4 + (12 + blockSize) * len blocks.
Proof.
  intros Hok. unfold encodeIndex. rewrite len_app. replace (len (le_put 4 _)) with 4 by len_solve.
  apply Zplus_le_compat_l. generalize 0. induction Hok as [|blk blocks (Hne & Hl & _) _ IH]; intros off; [done|].
  change (concat (encode_index_entry <$> index_from off (blk :: blocks))) with
    (encode_index_entry (MkIndexEntry (first_key blk) off) ++
     concat (encode_index_entry <$> index_from (off + blockSize) blocks)).
  rewrite len_app, len_cons. specialize (IH (off + blockSize)).
  assert (len (encode_index_entry (MkIndexEntry (first_key blk) off)) ≤ 12 + blockSize); [|lia].
  unfold encode_index_entry. simpl ix_Key. rewrite !len_app.
  replace (len (le_put 4 _)) with 4 by len_solve. replace (len (le_put 8 _)) with 8 by len_solve.
  destruct blk as [|e blk]; [done|]. change (first_key (e :: blk)) with (se_Key e).
  rewrite len_block_of, ebody_cons, len_app, len_ebytes in Hl.
  pose proof (len_nonneg (se_Value e)). pose proof (len_nonneg (ebody blk)). lia.
Qed.

Lemma len_encodeMetadata a b : len (encodeMetadata a b) = 8 + len a + len b.
Proof. unfold encodeMetadata. len_solve. Qed.

Lemma Finish_bytes b blocks cur es :
  written b blocks cur → described b es → es = concat blocks ++ cur → len es < 2 ^ 32 →
  Forall entry_fits es →
  ∃ blocks' file, SSTableBuilder_Finish b = Ok file ∧ es = concat blocks' ∧ Forall block_ok blocks' ∧
    len file < 2 ^ 63 ∧ file = sst_bytes blocks' (first_key es) (last_key es) (sb_bloomFilter b).
Proof.
  intros Hw Hd Heq Hlt Hfits. unfold SSTableBuilder_Finish.
  pose proof (written_nonempty _ _ _ Hw) as Hnb. pose proof (len_nonneg cur).
  pose proof (f_equal len Heq) as Hlen. rewrite len_app in Hlen.
  rewrite (len_current _ _ _ Hw).
  assert (∃ b1 blocks1, (if 4 <? 4 + len (ebody cur) then flushBlock b else (b, Ok ())) = (b1, Ok tt) ∧
    written b1 blocks1 [] ∧ described b1 es ∧ es = concat blocks1 ∧
    sb_bloomFilter b1 = sb_bloomFilter b) as (b1 & blocks1 & -> & Hw1 & Hd1 & Hes & <-).
  { destruct (Z.ltb_spec 4 (4 + len (ebody cur))) as [Hc|Hc].
    - destruct (decide (cur = [])) as [->|Hc'].
      { change (len (ebody [])) with 0 in Hc. lia. }
      destruct (flushBlock_spec b blocks cur Hw Hc') as (b1 & -> & Hw1 & E1 & E2 & E3 & E4); [lia|].
      eexists _, _. split; [done|]. split; [done|]. split; [|split; [|done]].
      + destruct Hd. split; rewrite ?E1, ?E2, ?E3, ?E4; done.
      + rewrite concat_app. simpl. by rewrite app_nil_r.
    - pose proof (length_le_ebody cur). assert (cur = []) as ->
        by (destruct cur; [done|simpl in *; lia]).
      rewrite app_nil_r in Heq. eauto 10. }
  exists blocks1. eexists. split; [reflexivity|]. split; [done|].
  split; [apply (wr_blocks _ _ _ Hw1)|].
  rewrite (wr_file _ _ _ Hw1), (wr_index _ _ _ Hw1), (wr_offset _ _ _ Hw1), (ds_min _ _ Hd1),
    (ds_max _ _ Hd1). rewrite !len_app. unfold sst_bytes, sst_tail.
  rewrite (len_concat_padded blocks1) by apply (wr_blocks _ _ _ Hw1).
  pose proof (blocks_le_concat blocks1 (wr_blocks _ _ _ Hw1)) as Hnb1. rewrite <-Hes in Hnb1.
  pose proof (len_encodeIndex blocks1 (wr_blocks _ _ _ Hw1)) as HI.
  pose proof (len_encodeMetadata (first_key es) (last_key es)) as HM.
  pose proof (first_key_fits es Hfits). pose proof (last_key_fits es Hfits).
  pose proof (bf_size _ (ds_bloom _ _ Hd1)) as Hbs.
  assert (HB : len (BloomFilter_Encode (sb_bloomFilter b1)) = 12 + len (bf_bits (sb_bloomFilter b1)))
    by (unfold BloomFilter_Encode; len_solve).
  set (I := encodeIndex _) in *. set (M := encodeMetadata _ _) in *.
  assert (Hf28 : ∀ x y z, len (encode_footer x y z) = 28)
    by (intros; unfold encode_footer; len_solve).
  pose proof (len_nonneg I). pose proof (len_nonneg M). pose proof (len_nonneg blocks1).
  unfold blockSize in *. rewrite Hf28. split; [lia|].
  rewrite (u64_small (len I)), (u64_small (len M)) by lia.
  rewrite (u64_small (4096 * len blocks1 + len I)) by lia.
  rewrite (u64_small (4096 * len blocks1 + len I + len M)) by lia. done.
Qed.

Lemma new_written bloom : written (NewSSTableBuilder bloom) [] [].
Proof. split; done. Qed.

Lemma new_described bloom : bf_wf bloom → described (NewSSTableBuilder bloom) [].
Proof. split; try done. intros e He. by apply elem_of_nil in He. Qed.

(** ** Opening a finished file *)

Lemma decodeMetadata_encode a b :
  8 + len a + len b < 2 ^ 32 → decodeMetadata (encodeMetadata a b) = Ok (a, b).
Proof.
  intros Hsz. pose proof (len_nonneg a). pose proof (len_nonneg b).
  unfold encodeMetadata. rewrite !u32_small by lia. set (d := _ ++ _).
  assert (Hl : len d = 8 + len a + len b) by (subst d; len_solve).
  unfold decodeMetadata. destruct (Z.ltb_spec (len d) 8); [lia|].
  rewrite (le_u32_at [] (len a) (le_put 4 (len b) ++ a ++ b) d 0) by (lia || done).
  rewrite (le_u32_at (le_put 4 (len a)) (len b) (a ++ b) d 4) by (lia || done).
  destruct (Z.ltb_spec (len d) (8 + len a + len b)); [lia|].
  rewrite (u32_small (8 + len a)), u32_small by lia.
  destruct (Z.ltb_spec (8 + len a) 8); [lia|].
  destruct (Z.ltb_spec (8 + len a + len b) (8 + len a)); [lia|]. simpl.
  rewrite (slice_at (le_put 4 (len a) ++ le_put 4 (len b)) a b d)
    by (len_solve || (subst d; by rewrite <-!app_assoc)).
  rewrite (slice_at (le_put 4 (len a) ++ le_put 4 (len b) ++ a) b [] d)
    by (len_solve || (subst d; by rewrite <-!app_assoc, app_nil_r)).
  done.
Qed.

Definition index_ok (e : IndexEntry) : Prop :=
  len (ix_Key e) < 2 ^ 32 ∧ 0 ≤ ix_BlockOffset e < 2 ^ 64.

Lemma decode_index_entries_spec es : ∀ pre acc,
  Forall index_ok es →
  decode_index_entries (length es) (pre ++ concat (encode_index_entry <$> es)) (len pre) acc =
    Ok (acc ++ es).
Proof.
  induction es as [|e es IH]; intros pre acc Hok.
  { by rewrite !app_nil_r. }
  apply Forall_cons in Hok as [[Hk Ho] Hok]. pose proof (len_nonneg (ix_Key e)) as Hk0.
  change (concat (encode_index_entry <$> e :: es))
    with (encode_index_entry e ++ concat (encode_index_entry <$> es)).
  set (r := concat _). unfold encode_index_entry. rewrite u32_small by lia.
  set (d := pre ++ _). pose proof (len_nonneg pre). pose proof (len_nonneg r).
  assert (Hl : len d = len pre + 12 + len (ix_Key e) + len r) by (subst d; len_solve).
  cbn [decode_index_entries length]. destruct (Z.ltb_spec (len d) (len pre + 12)); [lia|].
  rewrite (le_u32_at pre (len (ix_Key e)) (le_put 8 (ix_BlockOffset e) ++ ix_Key e ++ r) d)
    by (lia || done || (subst d; by rewrite <-!app_assoc)).
  rewrite (le_u64_at (pre ++ le_put 4 (len (ix_Key e))) (ix_BlockOffset e) (ix_Key e ++ r) d)
    by (lia || len_solve || (subst d; by rewrite <-!app_assoc)).
  destruct (Z.ltb_spec (len d) (len pre + 12 + len (ix_Key e))); [lia|].
  rewrite (slice_at (pre ++ le_put 4 (len (ix_Key e)) ++ le_put 8 (ix_BlockOffset e)) (ix_Key e) r d)
    by (len_solve || (subst d; by rewrite <-!app_assoc)).
  set (pre' := pre ++ le_put 4 (len (ix_Key e)) ++ le_put 8 (ix_BlockOffset e) ++ ix_Key e).
  replace d with (pre' ++ r) by (subst d pre'; by rewrite <-!app_assoc).
  replace (len pre + 12 + len (ix_Key e)) with (len pre') by (subst pre'; len_solve).
  subst r. rewrite IH by done. rewrite <-app_assoc. by destruct e.
Qed.

Lemma decodeIndex_encode es :
  Forall index_ok es → len es < 2 ^ 32 → decodeIndex (encodeIndex es) = Ok es.
Proof.
  intros Hok Hlt. pose proof (len_nonneg es). unfold decodeIndex, encodeIndex.
  rewrite u32_small by lia. set (r := concat _).
  destruct (Z.ltb_spec (len (le_put 4 (len es) ++ r)) 4) as [Hc|_].
  { pose proof (len_nonneg r). rewrite len_app in Hc.
    replace (len (le_put 4 (len es))) with 4 in Hc by len_solve. lia. }
  rewrite (le_u32_at [] (len es) r) by (lia || done). unfold len at 1. rewrite Nat2Z.id.
  apply (decode_index_entries_spec es (le_put 4 (len es)) []). done.
Qed.

Lemma read_section_mid pre d post size offset msg :
  size = len d → offset = len pre → len (pre ++ d ++ post) < 2 ^ 63 →
  read_section (pre ++ d ++ post) size offset msg = Ok d.
Proof.
  intros -> -> Hl. rewrite !len_app in Hl. pose proof (len_nonneg pre). pose proof (len_nonneg d).
  pose proof (len_nonneg post). unfold read_section.
  destruct (Z.ltb_spec (len d) 0); [lia|]. destruct (Z.leb_spec (2 ^ 63) (len d)); [lia|].
  destruct (Z.leb_spec (2 ^ 63) (len pre)); [lia|]. cbn [orb]. by rewrite ReadAt_mid.
Qed.

Lemma index_from_ok off blocks :
  0 ≤ off → off + blockSize * len blocks < 2 ^ 64 → Forall block_ok blocks →
  Forall index_ok (index_from off blocks).
Proof.
  intros Ho Hb Hok. revert off Ho Hb. induction Hok as [|blk blocks (Hne & Hl & Hes) _ IH];
    intros off Ho Hb; constructor.
  - rewrite len_cons in Hb. pose proof (len_nonneg blocks). split; simpl.
    + destruct blk as [|e blk]; [done|]. apply Forall_cons in Hes as [He _].
      unfold entry_ok in He. pose proof (len_nonneg (se_Value e)).
      change (first_key (e :: blk)) with (se_Key e). lia.
    + unfold blockSize in *. lia.
  - apply IH; [unfold blockSize; lia|]. rewrite len_cons in Hb. lia.
Qed.

Lemma length_index_from off blocks : length (index_from off blocks) = length blocks.
Proof. revert off. induction blocks as [|b l IH]; intros off; simpl; [done|]. by rewrite IH. Qed.

Lemma footer_fields a b c :
  0 ≤ a < 2 ^ 64 → 0 ≤ b < 2 ^ 64 → 0 ≤ c < 2 ^ 64 →
  let f := encode_footer a b c in
  len f = footerSize ∧ le_u64 (slice_from 0 f) = a ∧ le_u64 (slice_from 8 f) = b ∧
  le_u64 (slice_from 16 f) = c ∧ le_u32 (slice_from 24 f) = sstableMagic.
Proof.
  intros Ha Hb Hc f. subst f. unfold encode_footer. split_and!.
  - unfold footerSize. len_solve.
  - apply (le_u64_at [] a (le_put 8 b ++ le_put 8 c ++ le_put 4 sstableMagic)); done.
  - apply (le_u64_at (le_put 8 a) b (le_put 8 c ++ le_put 4 sstableMagic)); done.
  - apply (le_u64_at (le_put 8 a ++ le_put 8 b) c (le_put 4 sstableMagic));
      [done|len_solve|by rewrite <-!app_assoc].
  - apply (le_u32_at (le_put 8 a ++ le_put 8 b ++ le_put 8 c) sstableMagic []);
      [unfold sstableMagic; lia|len_solve|by rewrite app_nil_r, <-!app_assoc].
Qed.

Lemma OpenSSTable_bytes blocks minKey maxKey bloom level fileNum :
  Forall block_ok blocks → bf_wf bloom → len blocks < 2 ^ 32 →
  len minKey < 2 ^ 31 - 8 → len maxKey < 2 ^ 31 →
  let file := sst_bytes blocks minKey maxKey bloom in
  len file < 2 ^ 63 →
  ∃ io bo, OpenSSTable file level fileNum =
    Ok (MkSSTable file level fileNum minKey maxKey (index_from 0 blocks) (Some bloom) io bo).
Proof.
  intros Hb Hbl Hn Hmin Hmax file Hsz. set (D := concat (padded <$> blocks)).
  set (I := encodeIndex (index_from 0 blocks)). set (M := encodeMetadata minKey maxKey).
  set (B := BloomFilter_Encode bloom). pose proof (len_concat_padded blocks Hb : len D = _) as HD.
  set (F := encode_footer (len D) (len D + len I + len M) (len D + len I)).
  assert (E2 : file = D ++ I ++ (M ++ B ++ F)).
  { subst file F. unfold sst_bytes, sst_tail. by rewrite HD. }
  clearbody file.
  pose proof (len_nonneg D). pose proof (len_nonneg I). pose proof (len_nonneg M).
  pose proof (len_nonneg B). pose proof (len_nonneg F).
  assert (Hlen : len file = len D + len I + len M + len B + len F) by (rewrite E2, !len_app; lia).
  destruct (footer_fields (len D) (len D + len I + len M) (len D + len I))
    as (HF & F1 & F2 & F3 & F4); [lia|lia|lia|]. fold F in HF, F1, F2, F3, F4.
  unfold OpenSSTable. destruct (Z.ltb_spec (len file) footerSize); [lia|].
  assert (Hft : ReadAt file footerSize (len file - footerSize) = (F, None)).
  { rewrite Hlen, HF. replace file with ((D ++ I ++ M ++ B) ++ F ++ [])
      by (rewrite E2, app_nil_r, <-!app_assoc; done).
    apply ReadAt_mid; [rewrite !len_app; lia|done]. }
  rewrite Hft. simpl fst. rewrite F4, Z.eqb_refl, F1, F2, F3. simpl negb. cbn iota.
  replace (len D + len I + len M - (len D + len I)) with (len M) by lia.
  replace (len D + len I - len D) with (len I) by lia. rewrite !u64_small by lia.
  assert (E1 : file = (D ++ I) ++ M ++ (B ++ F)) by (rewrite E2; by rewrite <-!app_assoc).
  assert (E3 : file = (D ++ I ++ M) ++ B ++ F) by (rewrite E2; by rewrite <-!app_assoc).
  assert (R1 : ∀ msg, read_section file (len M) (len D + len I) msg = Ok M).
  { intros msg. rewrite E1 in Hsz |- *. apply read_section_mid; [done|by rewrite len_app|done]. }
  assert (R2 : ∀ msg, read_section file (len I) (len D) msg = Ok I).
  { intros msg. rewrite E2 in Hsz |- *. by apply read_section_mid. }
  assert (R3 : ∀ msg, read_section file (len file - (len D + len I + len M) - footerSize)
                        (len D + len I + len M) msg = Ok B).
  { intros msg. replace (len file - (len D + len I + len M) - footerSize) with (len B) by lia.
    rewrite E3 in Hsz |- *. apply read_section_mid; [done|rewrite !len_app; lia|done]. }
  rewrite R1. cbn [mbind res_bind]. subst M. rewrite decodeMetadata_encode by lia.
  cbn [mbind res_bind]. rewrite R2. cbn [mbind res_bind]. subst I. rewrite decodeIndex_encode.
  3:{ unfold len. rewrite length_index_from. exact Hn. }
  2:{ apply index_from_ok; [lia| |done]. unfold blockSize in *. lia. }
  cbn [mbind res_bind]. rewrite R3.
  cbn [mbind res_bind]. subst B. rewrite Decode_Encode by done. eauto.
Qed.

(** ** Looking a key up *)

Lemma index_from_elem off blocks x :
  Forall block_ok blocks → x ∈ index_from off blocks →
  ∃ e, e ∈ concat blocks ∧ ix_Key x = se_Key e.
Proof.
  intros Hok. revert off. induction Hok as [|blk blocks (Hne & _) _ IH]; intros off Hx; simpl in *.
  { by apply elem_of_nil in Hx. }
  apply elem_of_cons in Hx as [->|Hx].
  - destruct blk as [|e blk]; [done|]. exists e. split; [|done]. apply elem_of_app. left. left.
  - destruct (IH _ Hx) as (e & He & Hk). exists e. split; [|done]. apply elem_of_app. by right.
Qed.

Lemma index_sorted off blocks :
  Forall block_ok blocks → StronglySorted (key_lt se_Key) (concat blocks) →
  StronglySorted (key_lt ix_Key) (index_from off blocks).
Proof.
  intros Hok. revert off. induction Hok as [|blk blocks Hb Hok IH]; intros off Hs; [constructor|].
  change (concat (blk :: blocks)) with (blk ++ concat blocks) in Hs.
  apply sorted_app_inv in Hs as (_ & Hs & Hlt). constructor; [by apply IH|].
  apply Forall_forall. intros x Hx. destruct (index_from_elem _ _ _ Hok Hx) as (e & He & Hk).
  destruct Hb as (Hne & _). destruct blk as [|e0 blk]; [done|].
  unfold key_lt. rewrite Hk. simpl. apply (Hlt e0 e); [left|done].
Qed.

(** Blocks whose first key is beyond [key] do not hold it. *)
Lemma beyond_blocks off blocks key :
  Forall block_ok blocks → StronglySorted (key_lt se_Key) (concat blocks) →
  Forall (λ x, bytes_lt key (ix_Key x)) (index_from off blocks) →
  Forall (λ e, bytes_lt key (se_Key e)) (concat blocks).
Proof.
  intros Hok. revert off. induction Hok as [|blk blocks (Hne & _) _ IH]; intros off Hs Hf; [constructor|].
  change (concat (blk :: blocks)) with (blk ++ concat blocks) in *.
  apply sorted_app_inv in Hs as (Hsb & Hs & _). apply Forall_cons in Hf as [Hk Hf].
  apply Forall_app. split; [|by eapply IH]. destruct blk as [|e blk]; [done|]. simpl in Hk.
  inversion_clear Hsb as [|? ? _ Hz]. constructor; [done|].
  eapply Forall_impl; [exact Hz|]. intros x Hx. by eapply bytes_lt_trans.
Qed.

Lemma sst_lookup_middle a b c key :
  Forall (λ e, bytes_lt (se_Key e) key) a → Forall (λ e, bytes_lt key (se_Key e)) c →
  sst_lookup (a ++ b ++ c) key = sst_lookup b key.
Proof.
  intros Ha Hc. unfold sst_lookup. rewrite !entries_map_app.
  rewrite lookup_union_r by (apply entries_map_None; eapply Forall_impl; [exact Ha|];
    intros x; apply bytes_lt_ne).
  rewrite lookup_union_l; [done|]. apply entries_map_None. eapply Forall_impl; [exact Hc|].
  intros x Hx. by apply not_eq_sym, bytes_lt_ne.
Qed.

Lemma sst_lookup_absent es key : (∀ e, e ∈ es → se_Key e ≠ key) → sst_lookup es key = None.
Proof. intros H. by apply sst_lookup_None, Forall_forall. Qed.

Lemma MayContain_ok bf key : bf_wf bf → ∃ may, BloomFilter_MayContain bf key = Ok may.
Proof.
  intros Hwf. destruct (getHashes_spec bf key Hwf) as (hs & E & Hr).
  unfold BloomFilter_MayContain. rewrite E. simpl. clear E.
  induction Hr as [|h hs Hh _ IH]; simpl; [eauto|].
  destruct (lookup_lt_is_Some_2 (bf_bits bf) (Z.to_nat (h / 8))) as [x ->].
  { assert (h / 8 < len (bf_bits bf)) by (apply Z.div_lt_upper_bound; lia).
    assert (0 ≤ h / 8) by (apply Z.div_pos; lia). unfold len in *. lia. }
  destruct (_ =? 0); eauto.
Qed.

(** The index search splits the blocks at the last one whose first key is not beyond. *)
Lemma find_block_split blocks key :
  Forall block_ok blocks → StronglySorted (key_lt se_Key) (concat blocks) →
  ∃ A B, blocks = A ++ B ∧ find_block (index_from 0 blocks) key = len A ∧
    Forall (λ x, bytes_le (ix_Key x) key) (index_from 0 A) ∧
    Forall (λ e, bytes_lt key (se_Key e)) (concat B).
Proof.
  intros Hok Hs.
  destruct (sorted_split_gt ix_Key (index_from 0 blocks) key (index_sorted 0 blocks Hok Hs))
    as (a & b & Hab & Hfind & Ha & Hb).
  exists (take (length a) blocks), (drop (length a) blocks).
  set (A := take (length a) blocks). set (B := drop (length a) blocks).
  assert (Hbs : blocks = A ++ B) by (unfold A, B; by rewrite take_drop).
  assert (HlA : length A = length a).
  { unfold A. rewrite length_take. apply (f_equal length) in Hab.
    rewrite length_app, length_index_from in Hab. lia. }
  rewrite Hbs, index_from_app in Hab.
  apply app_inj_1 in Hab as [HA HB]; [|by rewrite length_index_from].
  split; [done|]. split.
  { unfold find_block. rewrite Hfind. unfold len. by rewrite HlA. }
  rewrite HA. split; [done|]. rewrite Hbs in Hs, Hok. apply Forall_app in Hok as [_ HokB].
  rewrite concat_app in Hs. apply sorted_app_inv in Hs as (_ & HsB & _).
  eapply beyond_blocks; [done|done|]. by rewrite HB.
Qed.

Lemma SSTable_Get_bytes blocks minKey maxKey bloom sst key :
  Forall block_ok blocks → bf_wf bloom → len blocks < 2 ^ 32 →
  StronglySorted (key_lt se_Key) (concat blocks) →
  (∀ e, e ∈ concat blocks → recognises bloom (se_Key e)) →
  sst_file sst = sst_bytes blocks minKey maxKey bloom → sst_index sst = index_from 0 blocks →
  sst_bloomFilter sst = Some bloom →
  SSTable_Get sst key = Ok (sst_lookup (concat blocks) key).
Proof.
  intros Hok Hbl Hn Hs Hrec Hfile Hidx Hbf. unfold SSTable_Get. rewrite Hbf, Hidx.
  destruct (MayContain_ok bloom key Hbl) as [may Hmay].
  rewrite Hmay. cbn [mbind res_bind]. destruct may; cbn [negb].
  2:{ f_equal. symmetry. apply sst_lookup_absent. intros e He Hk. subst key.
      rewrite (recognises_MayContain bloom _ Hbl (Hrec e He)) in Hmay. done. }
  destruct (find_block_split blocks key Hok Hs) as (A & B & -> & -> & HA & HB).
  destruct A as [|blk A' _] using rev_ind.
  { f_equal. symmetry. apply sst_lookup_None. eapply Forall_impl; [exact HB|]. intros e He.
    by apply not_eq_sym, bytes_lt_ne. }
  rewrite <-app_assoc in *. simpl in Hs, Hok, Hfile, Hn |- *. pose proof (len_nonneg A').
  rewrite !len_app in *. change (len [blk]) with 1 in *. rewrite len_cons in Hn. pose proof (len_nonneg B).
  destruct (Z.eqb_spec (len A' + 1) 0); [lia|]. rewrite !index_from_app in *.
  replace (Z.to_nat (len A' + 1 - 1)) with (length (index_from 0 A'))
    by (rewrite length_index_from; unfold len; lia).
  rewrite lookup_app_r, Nat.sub_diag by done. cbn [index_from lookup list_lookup].
  apply Forall_app in HA as [_ HA]. apply Forall_cons in HA as [Hfirst _].
  apply Forall_app in Hok as [HokA Hok]. apply Forall_cons in Hok as [Hblk HokB].
  rewrite concat_app in Hs |- *. simpl in Hs |- *. apply sorted_app_inv in Hs as (_ & Hs & Hlt).
  pose proof Hs as Hs'. apply sorted_app_inv in Hs' as (Hsb & _ & _).
  rewrite sst_lookup_middle; [| |done].
  2:{ apply Forall_forall. intros x Hx. simpl in Hfirst. eapply bytes_lt_le_trans; [|exact Hfirst].
      destruct Hblk as (Hne & _). destruct blk as [|e blk]; [done|]. apply (Hlt x e); [done|left]. }
  unfold readBlock. cbn [ix_BlockOffset].
  destruct (Z.leb_spec (2 ^ 63) (0 + blockSize * len A')); [unfold blockSize in *; lia|].
  cbn [mbind res_bind].
  replace (ReadAt (sst_file sst) blockSize (0 + blockSize * len A')) with (padded blk, @None error).
  - by apply searchBlock_padded.
  - symmetry. rewrite Hfile. unfold sst_bytes. rewrite fmap_app, concat_app, <-app_assoc.
    cbn [fmap list_fmap concat]. rewrite <-app_assoc.
    apply ReadAt_mid; [by rewrite len_concat_padded|by rewrite len_padded].
Qed.

(** An open table that holds the entries [es]. *)
Definition table_holds (sst : SSTable) (es : list SSTableEntry) : Prop :=
  ∃ blocks bloom, es = concat blocks ∧ Forall block_ok blocks ∧ bf_wf bloom ∧ len blocks < 2 ^ 32 ∧
    StronglySorted (key_lt se_Key) es ∧ (∀ e, e ∈ es → recognises bloom (se_Key e)) ∧
    sst_file sst = sst_bytes blocks (first_key es) (last_key es) bloom ∧
    sst_index sst = index_from 0 blocks ∧ sst_bloomFilter sst = Some bloom ∧
    sst_minKey sst = first_key es ∧ sst_maxKey sst = last_key es.

Lemma table_holds_Get sst es key : table_holds sst es → SSTable_Get sst key = Ok (sst_lookup es key).
Proof.
  intros (blocks & bloom & -> & Hok & Hbl & Hn & Hs & Hrec & Hf & Hi & Hb & _).
  by eapply SSTable_Get_bytes.
Qed.

(** Finishing a builder and opening the file. *)
Lemma Finish_open b blocks cur es level fileNum :
  written b blocks cur → described b es → es = concat blocks ++ cur → len es < 2 ^ 32 →
  StronglySorted (key_lt se_Key) es → Forall entry_fits es →
  ∃ file sst, SSTableBuilder_Finish b = Ok file ∧
    OpenSSTable file level fileNum = Ok sst ∧ table_holds sst es ∧
    sst_level sst = level ∧ sst_fileNum sst = fileNum.
Proof.
  intros Hw Hd Heq Hlt Hs Hfits.
  destruct (Finish_bytes b blocks cur es Hw Hd Heq Hlt Hfits) as (bs & file & E & Hes & Hok & Hsz & Hfile).
  exists file.
  assert (Hn : len bs < 2 ^ 32).
  { pose proof (blocks_le_concat bs Hok). rewrite Hes in Hlt. lia. }
  destruct (OpenSSTable_bytes bs (first_key es) (last_key es) (sb_bloomFilter b) level fileNum)
    as (io & bo & Hopen); try done.
  - apply (ds_bloom _ _ Hd).
  - by apply first_key_fits.
  - by apply last_key_fits.
  - by rewrite <-Hfile.
  - rewrite <-Hfile in Hopen. eexists. split; [exact E|]. split; [exact Hopen|]. split; [|done].
    exists bs, (sb_bloomFilter b). split_and!; try done; apply Hd.
Qed.

Lemma build_open bloom es level fileNum :
  bf_wf bloom → StronglySorted (key_lt se_Key) es → Forall entry_fits es → len es < 2 ^ 32 →
  ∃ file sst, build_sstable bloom es = Ok file ∧
    OpenSSTable file level fileNum = Ok sst ∧ table_holds sst es ∧
    sst_level sst = level ∧ sst_fileNum sst = fileNum.
Proof.
  intros Hbl Hs Hfits Hlt.
  destruct (add_entries_written es (NewSSTableBuilder bloom) [] [] (new_written bloom)
    (new_described bloom Hbl) Hfits Hlt) as (b & blocks & cur & E & Hw & Hd & Heq).
  unfold build_sstable. rewrite E. by eapply Finish_open.
Qed.


Definition demo_entries : list SSTableEntry :=
  [MkSSTEntry [1] [10] false; MkSSTEntry [2; 3] (replicate 3000 7) false;
   MkSSTEntry [3] (replicate 2000 8) false; MkSSTEntry [5] [] true].


(** An entry that does not fit in a block is written as an oversized block, of which the
    reader loads only the first 4096 bytes: the key cannot be read back. *)
Example oversized_entry_is_lost :
  let file := build_sstable (NewBloomFilter 10 7) [MkSSTEntry [1] (replicate 4090 7) false] in
  match file with
  | Ok file =>
      match OpenSSTable file 0 1 with
      | Ok sst => SSTable_Get sst [1] = Err (Errorf "block truncated")
      | _ => False
      end
  | _ => False
  end.
Proof. vm_compute. reflexivity. Qed.
