(* ===== verification/LsmLevels.v ===== *)
(** The level manager of the LSM engine ([src/lsm/levels.go]): five lists of SSTables, the
    first in flush order, the others sorted by smallest key. *)
From S2P Require Import Prelude GoLib LsmBloom LsmSSTable.
From stdpp Require Import base gmap list strings numbers sorting.

Open Scope Z_scope.

Definition maxL0Files : Z := 4.
Definition l0MaxSize : Z := 40 * 1024 * 1024.
Definition l1MaxSize : Z := 400 * 1024 * 1024.
Definition l2MaxSize : Z := 4 * 1024 * 1024 * 1024.
Definition l3MaxSize : Z := 40 * 1024 * 1024 * 1024.
Definition l4MaxSize : Z := 400 * 1024 * 1024 * 1024.

Record LevelInfo := MkLevel {
  li_sstables : list SSTable;
  li_size : Z;
  li_maxSize : Z;
}.

(** The levels; the lock of the manager makes each operation atomic. *)
Abbreviation LevelManager := (list LevelInfo).

Definition NewLevelManager : LevelManager :=
  [MkLevel [] 0 l0MaxSize; MkLevel [] 0 l1MaxSize; MkLevel [] 0 l2MaxSize;
   MkLevel [] 0 l3MaxSize; MkLevel [] 0 l4MaxSize].

Definition level_tables (lm : LevelManager) (level : nat) : list SSTable :=
  from_option li_sstables [] (lm !! level).

(** Replace the tables of a level and recompute its approximate size
    ([updateLevelSize]: 4 MB per file). *)
Definition updateLevelSize (l : LevelInfo) : LevelInfo :=
  MkLevel (li_sstables l) (len (li_sstables l) * 4 * 1024 * 1024) (li_maxSize l).

Definition set_tables (ts : list SSTable) (l : LevelInfo) : LevelInfo :=
  updateLevelSize (MkLevel ts (li_size l) (li_maxSize l)).

Section levels.
(** [sort.Slice] by [MinKey]; it need not be stable. *)
Context (sort_by_min : list SSTable → list SSTable).

Definition AddSSTable (lm : LevelManager) (sst : SSTable) (level : nat) : LevelManager :=
  match lm !! level with
  | None => lm
  | Some l =>
      let ts := li_sstables l ++ [sst] in
      let ts := if decide (0 < level)%nat then sort_by_min ts else ts in
      <[level := set_tables ts l]> lm
  end.

(** The first table with the file number is cut out of the slice. *)
Fixpoint remove_table (fileNum : Z) (ts : list SSTable) : list SSTable :=
  match ts with
  | [] => []
  | s :: ts => if SSTable_FileNum s =? fileNum then ts else s :: remove_table fileNum ts
  end.

Definition RemoveSSTable (lm : LevelManager) (sst : SSTable) (level : nat) : LevelManager :=
  match lm !! level with
  | None => lm
  | Some l => <[level := set_tables (remove_table (SSTable_FileNum sst) (li_sstables l)) l]> lm
  end.
End levels.

Definition GetOverlapping (lm : LevelManager) (level : nat) (start end_ : bytes) : list SSTable :=
  filter (λ sst, SSTable_Overlaps sst start end_ = true) (level_tables lm level).

Definition GetAllSSTables (lm : LevelManager) (level : nat) : list SSTable := level_tables lm level.

Definition ShouldCompact (lm : LevelManager) (level : nat) : bool :=
  match lm !! level with
  | None => false
  | Some l =>
      if decide (level = 0%nat) then maxL0Files <=? len (level_tables lm 0)
      else li_maxSize l <=? li_size l
  end.

Definition NumFiles (lm : LevelManager) (level : nat) : Z := len (level_tables lm level).

Definition LevelSize (lm : LevelManager) (level : nat) : Z :=
  from_option li_size 0 (lm !! level).

Definition PickCompactionFiles (lm : LevelManager) (level : nat) : list SSTable :=
  match lm !! level with
  | None => []
  | Some l =>
      if decide (level = 0%nat) then level_tables lm 0
      else take 1 (li_sstables l)
  end.

Definition GetTotalFiles (lm : LevelManager) : Z :=
  foldr (λ l n, len (li_sstables l) + n) 0 lm.

Definition GetTotalSize (lm : LevelManager) : Z := foldr (λ l n, li_size l + n) 0 lm.

(** ** The invariant of the levels *)

Definition min_le (a b : SSTable) : Prop := bytes_le (SSTable_MinKey a) (SSTable_MinKey b).

Definition level_ok (i : nat) (l : LevelInfo) : Prop :=
  li_size l = len (li_sstables l) * 4 * 1024 * 1024 ∧
  ((0 < i)%nat → StronglySorted min_le (li_sstables l)).

Definition lm_ok (lm : LevelManager) : Prop :=
  length lm = 5%nat ∧ ∀ i l, lm !! i = Some l → level_ok i l.

Lemma remove_table_sublist n ts : remove_table n ts `sublist_of` ts.
Proof.
  induction ts as [|s ts IH]; simpl; [done|]. destruct (_ =? n).
  - by apply sublist_cons.
  - by apply sublist_skip.
Qed.

Lemma sublist_sorted a b : a `sublist_of` b → StronglySorted min_le b → StronglySorted min_le a.
Proof.
  induction 1 as [|x a b Hab IH|x a b Hab IH]; intros Hs; [done|..]; inversion_clear Hs as [|? ? Hs' Hx].
  - constructor; [by apply IH|]. rewrite Forall_forall in Hx |- *. intros y Hy. apply Hx.
    by apply (sublist_subseteq _ _ Hab).
  - by apply IH.
Qed.

Lemma remove_table_perm ts sst :
  sst ∈ ts → NoDup (sst_fileNum <$> ts) → sst :: remove_table (SSTable_FileNum sst) ts ≡ₚ ts.
Proof.
  induction ts as [|s ts IH]; intros Hin Hnd; [by apply elem_of_nil in Hin|]. csimpl in *.
  apply NoDup_cons in Hnd as [Hs Hnd]. unfold SSTable_FileNum in *.
  destruct (Z.eqb_spec (sst_fileNum s) (sst_fileNum sst)) as [Heq|Hne].
  - apply elem_of_cons in Hin as [->|Hin]; [done|]. exfalso. apply Hs. rewrite Heq.
    by apply list_elem_of_fmap_2.
  - apply elem_of_cons in Hin as [->|Hin]; [done|]. rewrite Permutation_swap. by rewrite IH.
Qed.

Section invariant.
Context (sort_by_min : list SSTable → list SSTable).
Context (sort_perm : ∀ l, sort_by_min l ≡ₚ l).
Context (sort_sorted : ∀ l, StronglySorted min_le (sort_by_min l)).

Lemma set_tables_ok lm level l ts :
  lm_ok lm → lm !! level = Some l → ((0 < level)%nat → StronglySorted min_le ts) →
  lm_ok (<[level := set_tables ts l]> lm).
Proof using Type.
  intros [Hl Hok] Hlev Hs. split; [by rewrite length_insert|]. intros i l' Hi.
  destruct (decide (level = i)) as [->|Hne].
  - rewrite list_lookup_insert_eq in Hi by by eapply lookup_lt_Some. simplify_eq. by split.
  - rewrite list_lookup_insert_ne in Hi by done. by apply Hok.
Qed.

Lemma level_tables_insert lm level l ts i :
  lm !! level = Some l →
  level_tables (<[level := set_tables ts l]> lm) i = if decide (i = level) then ts else level_tables lm i.
Proof using Type.
  intros Hl. unfold level_tables. destruct (decide (i = level)) as [->|Hne].
  - by rewrite list_lookup_insert_eq by by eapply lookup_lt_Some.
  - by rewrite list_lookup_insert_ne by done.
Qed.

Lemma AddSSTable_ok lm sst level : lm_ok lm → lm_ok (AddSSTable sort_by_min lm sst level).
Proof using sort_sorted.
  intros Hok. unfold AddSSTable. destruct (lm !! level) as [l|] eqn:E; [|done].
  apply set_tables_ok; [done|done|]. intros H0. by case_decide.
Qed.

Lemma RemoveSSTable_ok lm sst level : lm_ok lm → lm_ok (RemoveSSTable lm sst level).
Proof using Type.
  intros Hok. unfold RemoveSSTable. destruct (lm !! level) as [l|] eqn:E; [|done].
  apply set_tables_ok; [done|done|]. intros H0. destruct Hok as [_ Hok].
  destruct (Hok level l E) as [_ Hs]. eapply sublist_sorted; [apply remove_table_sublist|auto].
Qed.
End invariant.

(** An operation on the levels. *)
Inductive level_op :=
| LAdd (sst : SSTable) (level : nat)
| LRemove (sst : SSTable) (level : nat).

Definition level_step sort_by_min (lm : LevelManager) (o : level_op) : LevelManager :=
  match o with
  | LAdd sst level => AddSSTable sort_by_min lm sst level
  | LRemove sst level => RemoveSSTable lm sst level
  end.

(** C28: starting from the empty manager, any sequence of adding and removing tables keeps
    five levels, every level above L0 sorted by smallest key, and the recorded sizes
    consistent with the number of files; adding a table to an existing level changes only
    that level, by that one table, and L0 keeps flush order; removing a table of a level
    whose file numbers are distinct takes out exactly that one. *)
Theorem levels_invariant sort_by_min ops
    (sort_perm : ∀ l, sort_by_min l ≡ₚ l)
    (sort_sorted : ∀ l, StronglySorted min_le (sort_by_min l)) :
  let lm := foldl (level_step sort_by_min) NewLevelManager ops in
  length lm = 5%nat ∧
  (∀ i, (0 < i)%nat → StronglySorted min_le (GetAllSSTables lm i)) ∧
  (∀ i, LevelSize lm i = NumFiles lm i * 4 * 1024 * 1024) ∧
  (∀ sst level, (level < 5)%nat →
     let lm' := AddSSTable sort_by_min lm sst level in
     GetAllSSTables lm' level ≡ₚ GetAllSSTables lm level ++ [sst] ∧
     (level = 0%nat → GetAllSSTables lm' 0 = GetAllSSTables lm 0 ++ [sst]) ∧
     ∀ i, i ≠ level → GetAllSSTables lm' i = GetAllSSTables lm i) ∧
  (∀ sst level, sst ∈ GetAllSSTables lm level →
     NoDup (SSTable_FileNum <$> GetAllSSTables lm level) →
     sst :: GetAllSSTables (RemoveSSTable lm sst level) level ≡ₚ GetAllSSTables lm level).
Proof.
  assert (Hok : ∀ ops lm, lm_ok lm → lm_ok (foldl (level_step sort_by_min) lm ops)).
  { clear ops. induction ops as [|o ops IH]; intros lm H; [done|]. apply IH.
    destruct o; [by apply AddSSTable_ok|by apply RemoveSSTable_ok]. }
  specialize (Hok ops NewLevelManager). set (lm := foldl _ _ _) in *. clearbody lm.
  destruct Hok as [Hlen Hlev].
  { split; [done|]. intros i l Hi. repeat (destruct i as [|i]; [simplify_eq/=; split; [done|intros; constructor]|]).
    done. }
  split; [done|]. split; [|split; [|split]].
  - intros i Hi. unfold GetAllSSTables, level_tables. destruct (lm !! i) as [l|] eqn:E; [|constructor].
    by apply (Hlev i l).
  - intros i. unfold LevelSize, NumFiles, level_tables. destruct (lm !! i) as [l|] eqn:E; [|done].
    by apply (Hlev i l).
  - intros sst level Hl lm'. destruct (lookup_lt_is_Some_2 lm level) as [l E]; [lia|].
    unfold GetAllSSTables, lm', AddSSTable. rewrite E. split; [|split].
    + rewrite level_tables_insert, decide_True by done. unfold level_tables. rewrite E. simpl.
      case_decide; [apply sort_perm|done].
    + intros ->. rewrite level_tables_insert, decide_True by done. unfold level_tables. by rewrite E.
    + intros i Hi. by rewrite level_tables_insert, decide_False by done.
  - intros sst level Hin Hnd. unfold GetAllSSTables in *. pose proof Hin as Hin'.
    unfold level_tables in Hin'. destruct (lm !! level) as [l|] eqn:E; [|by apply elem_of_nil in Hin'].
    unfold RemoveSSTable. rewrite E, level_tables_insert, decide_True by done.
    unfold level_tables in *. rewrite E in *. simpl in *. by apply remove_table_perm.
Qed.

Lemma min_le_total a b : min_le a b ∨ min_le b a.
Proof.
  unfold min_le. destruct (decide (bytes_le (SSTable_MinKey a) (SSTable_MinKey b))) as [H|H]; [by left|].
  right. apply bytes_nlt_le. intros H2. by apply H, bytes_lt_le.
Qed.

#[global] Instance min_le_dec : RelDecision min_le.
Proof. intros a b. unfold min_le. apply _. Defined.

#[global] Instance min_le_trans : Transitive min_le.
Proof. intros a b c. apply bytes_le_trans. Qed.

(** A sorting function with the documented behaviour of [sort.Slice]. *)
Definition demo_sort (l : list SSTable) : list SSTable := merge_sort min_le l.

Lemma demo_sort_perm l : demo_sort l ≡ₚ l.
Proof. apply merge_sort_Permutation. Qed.

Lemma demo_sort_sorted l : StronglySorted min_le (demo_sort l).
Proof.
  apply Sorted_StronglySorted; [apply _|]. apply Sorted_merge_sort. intros a b. apply min_le_total.
Qed.

Definition demo_table (k1 k2 : bytes) (n : Z) : SSTable := MkSSTable [] 1 n k1 k2 [] None 0 0.

Lemma levels_invariant_witness :
  let lm := foldl (level_step demo_sort) NewLevelManager
    [LAdd (demo_table [5] [7] 1) 1; LAdd (demo_table [1] [3] 2) 1] in
  (sst_fileNum <$> GetAllSSTables lm 1) = [2; 1] ∧ StronglySorted min_le (GetAllSSTables lm 1).
Proof.
  split; [by vm_compute|].
  apply (levels_invariant demo_sort
    [LAdd (demo_table [5] [7] 1) 1; LAdd (demo_table [1] [3] 2) 1] demo_sort_perm demo_sort_sorted).
  lia.
Defined.

(** C35: a range query over a level misses nothing: GetOverlapping returns, in order, exactly
    the tables of the level whose key range meets [start, end], where an empty bound is
    open; in particular every table that can hold a key of the range. *)
Theorem overlapping_complete lm level start end_ :
  GetOverlapping lm level start end_ `sublist_of` GetAllSSTables lm level ∧
  (∀ sst, sst ∈ GetOverlapping lm level start end_ ↔
     sst ∈ GetAllSSTables lm level ∧
     (start = [] ∨ bytes_le start (SSTable_MaxKey sst)) ∧
     (end_ = [] ∨ bytes_le (SSTable_MinKey sst) end_)) ∧
  (∀ sst k, sst ∈ GetAllSSTables lm level →
     bytes_le (SSTable_MinKey sst) k → bytes_le k (SSTable_MaxKey sst) →
     (start = [] ∨ bytes_le start k) → (end_ = [] ∨ bytes_le k end_) →
     sst ∈ GetOverlapping lm level start end_).
Proof.
  unfold GetOverlapping, GetAllSSTables.
  assert (Hov : ∀ sst, SSTable_Overlaps sst start end_ = true ↔
    (start = [] ∨ bytes_le start (SSTable_MaxKey sst)) ∧
    (end_ = [] ∨ bytes_le (SSTable_MinKey sst) end_)).
  { intros sst. unfold SSTable_Overlaps, SSTable_MinKey, SSTable_MaxKey.
    rewrite <-!bytes_nlt_le, <-!bytes_eqb_eq, <-!bytes_ltb_lt.
    destruct (bytes_eqb start []), (bytes_eqb end_ []), (bytes_ltb (sst_maxKey sst) start),
      (bytes_ltb end_ (sst_minKey sst)); simpl; naive_solver. }
  split; [|split].
  - apply sublist_filter.
  - intros sst. rewrite list_elem_of_filter, Hov. tauto.
  - intros sst k Hin Hmin Hmax Hs He. apply list_elem_of_filter. split; [|done]. apply Hov. split.
    + destruct Hs as [|Hs]; [by left|]. right. by eapply bytes_le_trans.
    + destruct He as [|He]; [by left|]. right. by eapply bytes_le_trans.
Qed.
