(* ===== verification/LsmCompaction.v ===== *)
(** Compaction of SSTables ([src/lsm/compaction.go]): the iterators over tables, the k-way
    merge through a heap, and the files it writes. *)
From S2P Require Import Prelude GoLib GoHeap LsmBloom LsmSSTable LsmLevels.
From stdpp Require Import base gmap list strings numbers sorting.

Open Scope Z_scope.

Record CompactionEntry := MkCE {
  ce_Key : bytes;
  ce_Value : bytes;
  ce_Sequence : Z;
  ce_Deleted : bool;
  ce_sstIndex : nat;
}.

(** [CompactionHeap.Less]. *)
Definition ce_Less (a b : CompactionEntry) : bool :=
  if negb (bytes_eqb (ce_Key a) (ce_Key b)) then bytes_ltb (ce_Key a) (ce_Key b)
  else ce_Sequence b <? ce_Sequence a.

(** ** Iterators over a table *)

Record SSTableIterator := MkIter {
  it_sst : SSTable;
  it_blockIdx : nat;
  it_entryIdx : nat;
  it_currentBlock : bytes;
  it_entries : list CompactionEntry;
}.

(** The loop that parses a block; it stops quietly at a truncated entry.  SSTables do not
    store sequence numbers. *)
Fixpoint parse_block (n : nat) (block : bytes) (offset : Z) (acc : list CompactionEntry)
    : list CompactionEntry :=
  match n with
  | O => acc
  | S n =>
      match parse_entry block offset with
      | None => acc
      | Some (key, value, deleted, next) =>
          parse_block n block next (acc ++ [MkCE key value 0 deleted 0])
      end
  end.

Definition loadBlock (it : SSTableIterator) (blockIdx : nat) : SSTableIterator * res unit :=
  match sst_index (it_sst it) !! blockIdx with
  | None => (it, Ok tt)
  | Some e =>
      match readBlock (it_sst it) (ix_BlockOffset e) with
      | Err er => (it, Err er)
      | Panic => (it, Panic)
      | Ok block =>
          let entries := if len block <? 4 then []
            else parse_block (Z.to_nat (le_u32 (slice_from 0 block))) block 4 [] in
          (MkIter (it_sst it) blockIdx 0 block entries, Ok tt)
      end
  end.

Definition NewSSTableIterator (sst : SSTable) : res SSTableIterator :=
  let it := MkIter sst 0 0 [] [] in
  if 0 <? len (sst_index sst) then
    match loadBlock it 0 with
    | (it, Ok _) => Ok it
    | (_, Err e) => Err e
    | (_, Panic) => Panic
    end
  else Ok it.

Definition SSTableIterator_Next (it : SSTableIterator) : SSTableIterator * option CompactionEntry :=
  match it_entries it !! it_entryIdx it with
  | Some entry =>
      (MkIter (it_sst it) (it_blockIdx it) (S (it_entryIdx it)) (it_currentBlock it)
         (it_entries it), Some entry)
  | None =>
      let it := MkIter (it_sst it) (S (it_blockIdx it)) (it_entryIdx it) (it_currentBlock it)
                  (it_entries it) in
      if (length (sst_index (it_sst it)) <=? it_blockIdx it)%nat then (it, None)
      else
        match loadBlock it (it_blockIdx it) with
        | (it, Ok _) =>
            match it_entries it !! it_entryIdx it with
            | Some entry =>
                (MkIter (it_sst it) (it_blockIdx it) (S (it_entryIdx it)) (it_currentBlock it)
                   (it_entries it), Some entry)
            | None => (it, None)
            end
        | (it, _) => (it, None)
        end
  end.

(** [entry.sstIndex = i]. *)
Definition set_sstIndex (i : nat) (e : CompactionEntry) : CompactionEntry :=
  MkCE (ce_Key e) (ce_Value e) (ce_Sequence e) (ce_Deleted e) i.

(** ** The merge *)

Definition maxEntriesPerFile : Z := 100000.

Section merge.
(** [new_bloom n] is [NewBloomFilter(n, 0.01)]. *)
Context (new_bloom : Z → BloomFilter).

(** The output side of the merge: tables finished, files written (number and content),
    the open builder, its file number and entry count, the next file number. *)
Record merge_out := MkOut {
  mo_new : list SSTable;
  mo_files : list (Z * bytes);
  mo_builder : option SSTableBuilder;
  mo_fileNum : Z;
  mo_entries : Z;
  mo_next : Z;
}.

(** [builder.Finish()] and [OpenSSTable] of the file. *)
Definition finish_file (targetLevel : Z) (o : merge_out) (b : SSTableBuilder) : merge_out * res unit :=
  match SSTableBuilder_Finish b with
  | Err e => (o, Err e)
  | Panic => (o, Panic)
  | Ok file =>
      let files := mo_files o ++ [(mo_fileNum o, file)] in
      match OpenSSTable file targetLevel (mo_fileNum o) with
      | Err e => (MkOut (mo_new o) files None (mo_fileNum o) (mo_entries o) (mo_next o), Err e)
      | Panic => (o, Panic)
      | Ok sst => (MkOut (mo_new o ++ [sst]) files None (mo_fileNum o) (mo_entries o) (mo_next o), Ok tt)
      end
  end.

(** Writing one merged entry: a new builder if needed, the entry, and the end of the file
    when it has grown large. *)
Definition write_entry (targetLevel : Z) (o : merge_out) (entry : CompactionEntry)
    : merge_out * res unit :=
  let o := match mo_builder o with
           | Some _ => o
           | None => MkOut (mo_new o) (mo_files o)
                       (Some (NewSSTableBuilder (new_bloom maxEntriesPerFile)))
                       (mo_next o) 0 (u64 (mo_next o + 1))
           end in
  match mo_builder o with
  | None => (o, Panic)
  | Some b =>
      match SSTableBuilder_Add b (ce_Key entry) (ce_Value entry) (ce_Deleted entry) with
      | (_, Err e) => (o, Err e)
      | (_, Panic) => (o, Panic)
      | (b, Ok _) =>
          let o := MkOut (mo_new o) (mo_files o) (Some b) (mo_fileNum o) (mo_entries o + 1)
                     (mo_next o) in
          if maxEntriesPerFile <=? mo_entries o then finish_file targetLevel o b else (o, Ok tt)
      end
  end.

(** One pop of the heap, with the advance of the iterator the entry came from. *)
Definition merge_pop (iters : list SSTableIterator) (h : list CompactionEntry)
    : option (CompactionEntry * list SSTableIterator * list CompactionEntry) :=
  match heap_Pop ce_Less h with
  | None => None
  | Some (entry, h) =>
      match iters !! ce_sstIndex entry with
      | None => None
      | Some it =>
          let '(it, next) := SSTableIterator_Next it in
          let iters := <[ce_sstIndex entry := it]> iters in
          let h := match next with
                   | Some e => heap_Push ce_Less h (set_sstIndex (ce_sstIndex entry) e)
                   | None => h
                   end in
          Some (entry, iters, h)
      end
  end.

(** The entry is passed over when the heap still has its key, or as a tombstone of the
    last level. *)
Definition merge_skips (targetLevel : Z) (entry : CompactionEntry) (h : list CompactionEntry) : bool :=
  match head h with
  | Some peek => bytes_eqb (ce_Key peek) (ce_Key entry)
  | None => false
  end || ((targetLevel =? 4) && ce_Deleted entry).

(** The merge loop; every round pops one entry. *)
Fixpoint merge_loop (fuel : nat) (targetLevel : Z) (iters : list SSTableIterator)
    (h : list CompactionEntry) (o : merge_out) : merge_out * res unit :=
  match h with
  | [] => (o, Ok tt)
  | _ =>
      match fuel with
      | O => (o, Panic)
      | S fuel =>
          match merge_pop iters h with
          | None => (o, Panic)
          | Some (entry, iters, h) =>
              if merge_skips targetLevel entry h then merge_loop fuel targetLevel iters h o
              else
                match write_entry targetLevel o entry with
                | (o, Ok _) => merge_loop fuel targetLevel iters h o
                | (o, r) => (o, r)
                end
          end
      end
  end.

Fixpoint new_iterators (sstables : list SSTable) : res (list SSTableIterator) :=
  match sstables with
  | [] => Ok []
  | sst :: sstables => it ← NewSSTableIterator sst; its ← new_iterators sstables; Ok (it :: its)
  end.

(** The first entry of each iterator goes into the heap. *)
Fixpoint fill_heap (i : nat) (iters : list SSTableIterator) (h : list CompactionEntry)
    : list SSTableIterator * list CompactionEntry :=
  match iters with
  | [] => ([], h)
  | it :: iters =>
      let '(it, next) := SSTableIterator_Next it in
      let h := match next with
               | Some e => heap_Push ce_Less h (set_sstIndex i e)
               | None => h
               end in
      let '(iters, h) := fill_heap (S i) iters h in (it :: iters, h)
  end.

(** [mergeFiles]: [fuel] bounds the number of entries merged. *)
Definition mergeFiles (fuel : nat) (sstables : list SSTable) (targetLevel nextFileNum : Z)
    : merge_out * res unit :=
  let o := MkOut [] [] None 0 0 nextFileNum in
  match new_iterators sstables with
  | Err e => (o, Err e)
  | Panic => (o, Panic)
  | Ok iters =>
      let '(iters, h) := fill_heap 0 iters (heap_Init ce_Less []) in
      match merge_loop fuel targetLevel iters h o with
      | (o, Ok _) =>
          match mo_builder o with
          | None => (o, Ok tt)
          | Some b => finish_file targetLevel o b
          end
      | (o, r) => (o, r)
      end
  end.

(** The key range of a list of tables, as the two compaction entry points compute it. *)
Definition key_range (sst : SSTable) (files : list SSTable) : bytes * bytes :=
  foldl (λ '(minKey, maxKey) s,
    (if bytes_ltb (SSTable_MinKey s) minKey then SSTable_MinKey s else minKey,
     if bytes_ltb maxKey (SSTable_MaxKey s) then SSTable_MaxKey s else maxKey))
    (SSTable_MinKey sst, SSTable_MaxKey sst) files.

(** [CompactL0ToL1] and [CompactLnToLn1]: new tables and the tables of the target level
    that were merged in. *)
Definition CompactLnToLn1 (fuel : nat) (lnFiles ln1Files : list SSTable) (targetLevel nextFileNum : Z)
    : merge_out * list SSTable * res unit :=
  match lnFiles with
  | [] => (MkOut [] [] None 0 0 nextFileNum, [], Ok tt)
  | sst :: _ =>
      let '(minKey, maxKey) := key_range sst lnFiles in
      let overlapping := filter (λ s, SSTable_Overlaps s minKey maxKey = true) ln1Files in
      let '(o, r) := mergeFiles fuel (lnFiles ++ overlapping) targetLevel nextFileNum in
      (o, overlapping, r)
  end.

Definition CompactL0ToL1 (fuel : nat) (l0Files l1Files : list SSTable) (nextFileNum : Z)
    : merge_out * list SSTable * res unit :=
  CompactLnToLn1 fuel l0Files l1Files 1 nextFileNum.
End merge.

(** ** The iterators deliver the entries of their table in order *)

Definition strip (e : CompactionEntry) : SSTableEntry := MkSSTEntry (ce_Key e) (ce_Value e) (ce_Deleted e).
Definition lift (e : SSTableEntry) : CompactionEntry := MkCE (se_Key e) (se_Value e) 0 (se_Deleted e) 0.

Lemma parse_block_spec es : ∀ pre post off acc,
  Forall entry_ok es → off = len pre →
  parse_block (length es) (pre ++ ebody es ++ post) off acc = acc ++ (lift <$> es).
Proof.
  induction es as [|e es IH]; intros pre post off acc Hok ->.
  { by rewrite app_nil_r. }
  apply Forall_cons in Hok as [He Hok]. rewrite ebody_cons, <-app_assoc.
  cbn [parse_block length]. rewrite parse_entry_mid by done.
  replace (pre ++ ebytes e ++ ebody es ++ post) with ((pre ++ ebytes e) ++ ebody es ++ post)
    by by rewrite <-app_assoc.
  rewrite IH; [|done|by rewrite len_app]. csimpl. by rewrite <-app_assoc.
Qed.

Lemma parse_padded blk :
  block_ok blk →
  (if len (padded blk) <? 4 then []
   else parse_block (Z.to_nat (le_u32 (slice_from 0 (padded blk)))) (padded blk) 4 []) = lift <$> blk.
Proof.
  intros Hb. pose proof (block_count blk Hb) as Hc. rewrite (len_padded blk Hb).
  change (blockSize <? 4) with false. cbn iota.
  rewrite (le_u32_at [] (len blk) (ebody blk ++ make_bytes (blockSize - len (block_of blk))))
    by (lia || done || (unfold padded, block_of; by rewrite <-app_assoc)).
  unfold len at 1. rewrite Nat2Z.id. unfold padded, block_of. rewrite <-app_assoc.
  destruct Hb as (_ & _ & Hok). rewrite parse_block_spec; [done|done|]. len_solve.
Qed.

Lemma index_from_lookup off blocks i blk :
  blocks !! i = Some blk →
  index_from off blocks !! i = Some (MkIndexEntry (first_key blk) (off + blockSize * Z.of_nat i)).
Proof.
  revert off i. induction blocks as [|b blocks IH]; intros off [|i] Hi; simplify_eq/=.
  - do 2 f_equal. lia.
  - rewrite (IH _ _ Hi). do 2 f_equal. lia.
Qed.

Lemma readBlock_at sst blocks minKey maxKey bloom i blk :
  Forall block_ok blocks → len blocks < 2 ^ 32 → blocks !! i = Some blk →
  sst_file sst = sst_bytes blocks minKey maxKey bloom →
  readBlock sst (0 + blockSize * Z.of_nat i) = Ok (padded blk).
Proof.
  intros Hok Hn Hi Hf. pose proof (lookup_lt_Some _ _ _ Hi). unfold readBlock.
  destruct (Z.leb_spec (2 ^ 63) (0 + blockSize * Z.of_nat i)); [unfold blockSize, len in *; lia|].
  rewrite Hf, <-(take_drop_middle blocks i blk Hi). unfold sst_bytes.
  rewrite fmap_app, concat_app, <-app_assoc. cbn [fmap list_fmap concat]. rewrite <-app_assoc.
  pose proof (Forall_lookup_1 _ _ _ _ Hok Hi) as Hblk.
  rewrite ReadAt_mid; [done| |by rewrite len_padded].
  rewrite len_concat_padded by by apply Forall_take. unfold len. rewrite length_take. lia.
Qed.

(** An iterator that still has to deliver [rest]. *)
Definition iter_holds (it : SSTableIterator) (rest : list SSTableEntry) : Prop :=
  ∃ blocks minKey maxKey bloom blk,
    Forall block_ok blocks ∧ len blocks < 2 ^ 32 ∧
    sst_file (it_sst it) = sst_bytes blocks minKey maxKey bloom ∧
    sst_index (it_sst it) = index_from 0 blocks ∧ blocks !! it_blockIdx it = Some blk ∧
    it_entries it = lift <$> blk ∧
    rest = drop (it_entryIdx it) blk ++ concat (drop (S (it_blockIdx it)) blocks).

Lemma loadBlock_spec it blocks minKey maxKey bloom i blk :
  Forall block_ok blocks → len blocks < 2 ^ 32 →
  sst_file (it_sst it) = sst_bytes blocks minKey maxKey bloom →
  sst_index (it_sst it) = index_from 0 blocks → blocks !! i = Some blk →
  loadBlock it i = (MkIter (it_sst it) i 0 (padded blk) (lift <$> blk), Ok tt).
Proof.
  intros Hok Hn Hf Hi Hb. unfold loadBlock. rewrite Hi, (index_from_lookup 0 blocks i blk Hb).
  cbn [ix_BlockOffset]. rewrite (readBlock_at (it_sst it) blocks minKey maxKey bloom i blk Hok Hn Hb Hf).
  rewrite parse_padded; [done|]. by apply (Forall_lookup_1 _ _ _ _ Hok Hb).
Qed.

Lemma Next_spec it rest :
  iter_holds it rest →
  match rest with
  | [] => ∃ it', SSTableIterator_Next it = (it', None)
  | e :: rest => ∃ it', SSTableIterator_Next it = (it', Some (lift e)) ∧ iter_holds it' rest
  end.
Proof.
  intros (blocks & mn & mx & bloom & blk & Hok & Hn & Hf & Hi & Hb & He & ->).
  unfold SSTableIterator_Next. rewrite He, list_lookup_fmap.
  destruct (blk !! it_entryIdx it) as [e|] eqn:Ee.
  - rewrite (drop_S _ _ _ Ee). simpl. eexists. split; [reflexivity|].
    exists blocks, mn, mx, bloom, blk. by split_and!.
  - cbn [fmap option_fmap option_map]. simpl it_sst. simpl it_blockIdx.
    rewrite (drop_ge blk) by by apply lookup_ge_None. rewrite Hi, length_index_from.
    destruct (Nat.leb_spec (length blocks) (S (it_blockIdx it))) as [Hge|Hlt].
    { rewrite drop_ge by done. simpl. eauto. }
    destruct (lookup_lt_is_Some_2 blocks _ Hlt) as [blk' Hb'].
    set (it1 := MkIter _ _ _ _ _).
    rewrite (loadBlock_spec it1 blocks mn mx bloom (S (it_blockIdx it)) blk' Hok Hn Hf Hi Hb').
    rewrite (drop_S _ _ _ Hb'). pose proof (Forall_lookup_1 _ _ _ _ Hok Hb') as (Hne & _).
    destruct blk' as [|e' blk']; [done|]. simpl. eexists. split; [reflexivity|].
    exists blocks, mn, mx, bloom, (e' :: blk'). split_and!; done.
Qed.

Lemma NewSSTableIterator_spec sst es :
  table_holds sst es → es ≠ [] → ∃ it, NewSSTableIterator sst = Ok it ∧ iter_holds it es.
Proof.
  intros (blocks & bloom & -> & Hok & _ & Hn & _ & _ & Hf & Hi & _) Hne.
  destruct blocks as [|blk blocks]; [done|]. unfold NewSSTableIterator. rewrite Hi.
  destruct (Z.ltb_spec 0 (len (index_from 0 (blk :: blocks)))) as [_|Hl].
  2:{ unfold len in Hl. rewrite length_index_from in Hl. simpl in Hl. lia. }
  rewrite (loadBlock_spec _ (blk :: blocks) (first_key (concat (blk :: blocks)))
    (last_key (concat (blk :: blocks))) bloom 0 blk) by done.
  eexists. split; [done|]. eexists (blk :: blocks), _, _, bloom, blk. by split_and!.
Qed.

(** ** The heap order *)

Abbreviation ce_le := (GoHeap.le ce_Less).

Lemma ce_le_spec a b :
  ce_le a b ↔ bytes_lt (ce_Key a) (ce_Key b) ∨ (ce_Key a = ce_Key b ∧ ce_Sequence b ≤ ce_Sequence a).
Proof.
  unfold GoHeap.le, ce_Less. destruct (bytes_eqb (ce_Key b) (ce_Key a)) eqn:E; simpl.
  - apply bytes_eqb_eq in E. rewrite E. rewrite Z.ltb_ge. split; [auto|]. intros [H|[_ H]]; [|done].
    by apply bytes_lt_irrefl in H.
  - unfold bytes_eqb in E. apply bool_decide_eq_false in E. rewrite bytes_ltb_nlt, bytes_le_lteq.
    split; [intros [H|H]; [by left|by rewrite H in E]|]. intros [H|[H _]]; [by left|by rewrite H in E].
Qed.

Lemma ce_le_key a b : ce_le a b → bytes_le (ce_Key a) (ce_Key b).
Proof. rewrite ce_le_spec, bytes_le_lteq. intros [H|[H _]]; auto. Qed.

Lemma ce_le_trans a b c : ce_le a b → ce_le b c → ce_le a c.
Proof.
  rewrite !ce_le_spec. intros [H1|[E1 H1]] [H2|[E2 H2]].
  - left. by eapply bytes_lt_trans.
  - left. by rewrite <-E2.
  - left. by rewrite E1.
  - right. split; [congruence|lia].
Qed.

Lemma ce_le_total a b : ce_le a b ∨ ce_le b a.
Proof.
  rewrite !ce_le_spec. destruct (trichotomyT bytes_lt (ce_Key a) (ce_Key b)) as [[H|H]|H]; auto.
  destruct (Z.le_ge_cases (ce_Sequence b) (ce_Sequence a)); [left|right]; right; split; auto.
Qed.

(** ** The state of the merge *)

(** What remains to be merged: the heap and the rest of every iterator. *)
Definition remaining (h : list CompactionEntry) (rests : list (list SSTableEntry)) : list SSTableEntry :=
  (strip <$> h) ++ concat rests.

(** Every iterator that is not exhausted has its next entry in the heap. *)
Record merge_inv (iters : list SSTableIterator) (h : list CompactionEntry)
    (rests : list (list SSTableEntry)) : Prop := {
  mi_heap : heap_ok ce_Less h;
  mi_nodup : NoDup (ce_sstIndex <$> h);
  mi_iter : ∀ x, x ∈ h → ∃ it rest, iters !! ce_sstIndex x = Some it ∧
    rests !! ce_sstIndex x = Some rest ∧ iter_holds it rest ∧
    StronglySorted (key_lt se_Key) rest ∧ Forall (λ e, bytes_lt (ce_Key x) (se_Key e)) rest;
  mi_done : ∀ i rest, rests !! i = Some rest → i ∉ ce_sstIndex <$> h → rest = [];
}.

(** The head of the heap has a least key of all that remains. *)
Lemma remaining_min iters x h rests e :
  merge_inv iters (x :: h) rests → e ∈ remaining (x :: h) rests → bytes_le (ce_Key x) (se_Key e).
Proof.
  intros [Hh Hnd Hit Hdn] He.
  assert (Hmin : ∀ y, y ∈ x :: h → bytes_le (ce_Key x) (ce_Key y)).
  { intros y [->|Hy]%elem_of_cons; [apply bytes_le_refl|]. apply ce_le_key.
    destruct (heap_Pop_spec ce_Less ce_le_trans ce_le_total x h Hh) as (? & _ & _ & _ & Hm). by apply Hm. }
  unfold remaining in He. apply elem_of_app in He as [He|He].
  - apply list_elem_of_fmap in He as (y & -> & Hy). by apply Hmin.
  - apply elem_of_concat in He as (rest & Hr & He').
    apply list_elem_of_lookup in He' as [i Hi].
    destruct (decide (i ∈ ce_sstIndex <$> x :: h)) as [Hin|Hout].
    + apply list_elem_of_fmap in Hin as (y & -> & Hy).
      destruct (Hit y Hy) as (it & rest' & _ & Hr' & _ & _ & Hlt). simplify_eq.
      rewrite Forall_forall in Hlt. apply bytes_lt_le. eapply bytes_le_lt_trans; [by apply Hmin|by apply Hlt].
    + rewrite (Hdn i rest Hi Hout) in Hr. by apply elem_of_nil in Hr.
Qed.

Lemma strip_lift e : strip (lift e) = e.
Proof. by destruct e. Qed.

Lemma strip_set_index i e : strip (set_sstIndex i e) = strip e.
Proof. done. Qed.

(** Replacing one rest by its tail takes one entry out of what remains. *)
Lemma concat_insert_tail (rests : list (list SSTableEntry)) i e rest :
  rests !! i = Some (e :: rest) → e :: concat (<[i := rest]> rests) ≡ₚ concat rests.
Proof.
  intros Hi. rewrite (insert_take_drop rests i rest) by by eapply lookup_lt_Some.
  rewrite <-(take_drop_middle rests i _ Hi) at 3. rewrite !concat_app. simpl.
  rewrite Permutation_middle. done.
Qed.

(** The entry just taken: its iterator and what it still delivers. *)
Lemma merge_pop_spec iters x h rests :
  merge_inv iters (x :: h) rests →
  ∃ iters' h' rests', merge_pop iters (x :: h) = Some (x, iters', h') ∧
    merge_inv iters' h' rests' ∧ remaining (x :: h) rests ≡ₚ strip x :: remaining h' rests'.
Proof.
  intros [Hh Hnd Hit Hdn]. unfold merge_pop.
  destruct (heap_Pop_spec ce_Less ce_le_trans ce_le_total x h Hh) as (h1 & -> & Hp1 & Hh1 & _).
  csimpl in Hnd. apply NoDup_cons in Hnd as [Hx Hnd].
  destruct (Hit x (list_elem_of_here _ _)) as (it & rest & Hi & Hr & Hih & Hs & Hlt). rewrite Hi.
  set (i := ce_sstIndex x) in *. pose proof (lookup_lt_Some _ _ _ Hi) as Hil.
  pose proof (Next_spec it rest Hih) as Hnext.
  assert (Hkeep : ∀ it' rest' y, y ∈ h → ∃ it0 rest0, <[i := it']> iters !! ce_sstIndex y = Some it0 ∧
    <[i := rest']> rests !! ce_sstIndex y = Some rest0 ∧ iter_holds it0 rest0 ∧
    StronglySorted (key_lt se_Key) rest0 ∧ Forall (λ e, bytes_lt (ce_Key y) (se_Key e)) rest0).
  { intros it' rest' y Hy. assert (Hne : i ≠ ce_sstIndex y).
    { intros Heq. apply Hx. rewrite Heq. by apply list_elem_of_fmap_2. }
    destruct (Hit y) as (it0 & rest0 & H1 & H2 & H3); [by right|].
    exists it0, rest0. by rewrite !list_lookup_insert_ne by done. }
  destruct rest as [|e rest].
  - destruct Hnext as [it' ->]. exists (<[i := it']> iters), h1, rests. split; [done|].
    assert (Hri : <[i := []]> rests = rests) by by rewrite list_insert_id.
    split; [split|].
    + done.
    + by rewrite Hp1.
    + intros y Hy. rewrite Hp1 in Hy. rewrite <-Hri. by apply Hkeep.
    + intros j r Hj Hout. rewrite Hp1 in Hout. destruct (decide (j = i)) as [->|Hne]; [congruence|].
      apply (Hdn j r Hj). csimpl. by apply not_elem_of_cons.
    + unfold remaining. csimpl. by rewrite Hp1.
  - destruct Hnext as (it' & -> & Hih'). set (y := set_sstIndex i (lift e)).
    inversion_clear Hs as [|? ? Hs' He]. apply Forall_cons in Hlt as [Hlt1 Hlt].
    destruct (heap_Push_spec ce_Less ce_le_trans ce_le_total h1 y Hh1) as [Hh2 Hp2].
    exists (<[i := it']> iters), (heap_Push ce_Less h1 y), (<[i := rest]> rests). split; [done|].
    pose proof (lookup_lt_Some _ _ _ Hr) as Hrl.
    split; [split|].
    + done.
    + rewrite Hp2, Hp1. csimpl. by apply NoDup_cons.
    + intros z Hz. rewrite Hp2, Hp1 in Hz. apply elem_of_cons in Hz as [->|Hz]; [|by apply Hkeep].
      exists it', rest. change (ce_sstIndex y) with i. rewrite !list_lookup_insert_eq by done.
      split_and!; try done.
    + intros j r Hj Hout. rewrite Hp2, Hp1 in Hout. csimpl in Hout.
      apply not_elem_of_cons in Hout as [Hji Hout]. change (ce_sstIndex y) with i in Hji.
      rewrite list_lookup_insert_ne in Hj by done. apply (Hdn j r Hj). csimpl.
      by apply not_elem_of_cons.
    + unfold remaining. csimpl. rewrite Hp2, Hp1. csimpl.
      change (strip y) with (strip (lift e)). rewrite strip_lift.
      apply perm_skip. rewrite <-(concat_insert_tail rests i e rest Hr), <-Permutation_middle. done.
Qed.

(** ** What a merge writes *)

(** [out] is a merge of the entries [input] into level [target]: sorted without duplicate
    keys, made of input entries, with one entry for every input key except that the last
    level drops keys that have a tombstone as the entry to keep. *)
Record merged (target : Z) (input out : list SSTableEntry) : Prop := {
  mg_sorted : StronglySorted (key_lt se_Key) out;
  mg_from : ∀ e, e ∈ out → e ∈ input;
  mg_covers : ∀ e, e ∈ input →
    (∃ e', e' ∈ out ∧ se_Key e' = se_Key e) ∨
    (target = 4 ∧ ∃ e', e' ∈ input ∧ se_Key e' = se_Key e ∧ se_Deleted e' = true);
  mg_last_level : target = 4 → ∀ e, e ∈ out → se_Deleted e = false;
}.

Lemma merged_perm target a b out : a ≡ₚ b → merged target a out → merged target b out.
Proof.
  intros Hp [H1 H2 H3 H4]. split; [done| | |done].
  - intros e He. rewrite <-Hp. auto.
  - intros e He. rewrite <-Hp in He. destruct (H3 e He) as [?|(? & e' & He' & ?)]; [by left|].
    right. split; [done|]. exists e'. by rewrite <-Hp.
Qed.

(** Passing over an entry whose key remains, or a tombstone of the last level. *)
Lemma merged_skip target x rest out :
  merged target rest out →
  (∃ e, e ∈ rest ∧ se_Key e = se_Key x) ∨ (target = 4 ∧ se_Deleted x = true) →
  merged target (x :: rest) out.
Proof.
  intros [H1 H2 H3 H4] Hx. split; [done| | |done].
  - intros e He. right. auto.
  - assert (Hw : ∀ e, e ∈ rest → (∃ e', e' ∈ out ∧ se_Key e' = se_Key e) ∨
      (target = 4 ∧ ∃ e', e' ∈ x :: rest ∧ se_Key e' = se_Key e ∧ se_Deleted e' = true)).
    { intros e He. destruct (H3 e He) as [?|(? & e' & ? & ?)]; [by left|].
      right. split; [done|]. exists e'. split; [by right|done]. }
    intros e [->|He]%elem_of_cons; [|by apply Hw]. destruct Hx as [(e' & He' & Hk)|[-> Hd]].
    + rewrite <-Hk. by apply Hw.
    + right. split; [done|]. exists x. split; [left|done].
Qed.

(** Keeping an entry that is below everything that remains. *)
Lemma merged_emit target x rest out :
  merged target rest out → (∀ e, e ∈ rest → key_lt se_Key x e) →
  (target = 4 → se_Deleted x = false) → merged target (x :: rest) (x :: out).
Proof.
  intros [H1 H2 H3 H4] Hlt Hd. split.
  - constructor; [done|]. apply Forall_forall. auto.
  - intros e [->|He]%elem_of_cons; [left|right; auto].
  - intros e [->|He]%elem_of_cons.
    + left. exists x. split; [left|done].
    + destruct (H3 e He) as [(e' & ? & ?)|(? & e' & ? & ?)].
      * left. exists e'. split; [by right|done].
      * right. split; [done|]. exists e'. split; [by right|done].
  - intros Ht e [->|He]%elem_of_cons; auto.
Qed.

(** Writing a list of merged entries. *)
Fixpoint write_all (new_bloom : Z → BloomFilter) (targetLevel : Z) (o : merge_out)
    (out : list CompactionEntry) : merge_out * res unit :=
  match out with
  | [] => (o, Ok tt)
  | e :: out =>
      match write_entry new_bloom targetLevel o e with
      | (o, Ok _) => write_all new_bloom targetLevel o out
      | (o, r) => (o, r)
      end
  end.

Lemma merge_inv_nil iters rests : merge_inv iters [] rests → remaining [] rests = [].
Proof.
  intros [_ _ _ Hd]. unfold remaining. simpl.
  assert (H : Forall (λ r : list SSTableEntry, r = []) rests).
  { apply Forall_lookup. intros i r Hi. apply (Hd i r Hi). simpl. by apply not_elem_of_nil. }
  clear Hd. by induction H as [|r rests -> _ IH].
Qed.

Lemma merge_skips_spec target iters x h rests :
  merge_inv iters h rests → (∀ e, e ∈ remaining h rests → bytes_le (ce_Key x) (se_Key e)) →
  if merge_skips target x h
  then (∃ e, e ∈ remaining h rests ∧ se_Key e = ce_Key x) ∨ (target = 4 ∧ ce_Deleted x = true)
  else (∀ e, e ∈ remaining h rests → bytes_lt (ce_Key x) (se_Key e)) ∧
       (target = 4 → ce_Deleted x = false).
Proof.
  intros Hinv Hmin. unfold merge_skips. destruct h as [|y h]; simpl.
  - rewrite (merge_inv_nil _ _ Hinv). destruct (Z.eqb_spec target 4) as [->|Ht]; simpl.
    + destruct (ce_Deleted x); [by right|]. split; [|done]. intros e He. by apply elem_of_nil in He.
    + split; [|done]. intros e He. by apply elem_of_nil in He.
  - assert (Hy : strip y ∈ remaining (y :: h) rests) by (unfold remaining; csimpl; left).
    destruct (bytes_eqb (ce_Key y) (ce_Key x)) eqn:E; simpl.
    { apply bytes_eqb_eq in E. left. exists (strip y). done. }
    assert (Hlt : ∀ e, e ∈ remaining (y :: h) rests → bytes_lt (ce_Key x) (se_Key e)).
    { intros e He. pose proof (remaining_min iters y h rests e Hinv He) as Hle.
      eapply bytes_lt_le_trans; [|exact Hle]. specialize (Hmin _ Hy). simpl in Hmin.
      apply bytes_le_lteq in Hmin as [?|Heq]; [done|]. exfalso.
      unfold bytes_eqb in E. apply bool_decide_eq_false in E. by apply E. }
    destruct (Z.eqb_spec target 4) as [->|Ht]; simpl; [|done].
    destruct (ce_Deleted x); [by right|done].
Qed.

(** The loop writes a merge of everything that remains. *)
Lemma merge_loop_spec new_bloom target fuel : ∀ iters h rests,
  merge_inv iters h rests → (length (remaining h rests) ≤ fuel)%nat →
  ∃ out, (∀ o, merge_loop new_bloom fuel target iters h o = write_all new_bloom target o out) ∧
    merged target (remaining h rests) (strip <$> out).
Proof.
  induction fuel as [|fuel IH]; intros iters h rests Hinv Hf; destruct h as [|x h].
  - exists []. split; [done|]. rewrite (merge_inv_nil _ _ Hinv). split; [constructor|..]; set_solver.
  - unfold remaining in Hf. csimpl in Hf. simpl in Hf. lia.
  - exists []. split; [done|]. rewrite (merge_inv_nil _ _ Hinv). split; [constructor|..]; set_solver.
  - destruct (merge_pop_spec iters x h rests Hinv) as (iters' & h' & rests' & Hpop & Hinv' & Hperm).
    destruct (IH iters' h' rests' Hinv') as (out & Hrun & Hmg).
    { rewrite Hperm in Hf. simpl in Hf. lia. }
    assert (Hmin : ∀ e, e ∈ remaining h' rests' → bytes_le (ce_Key x) (se_Key e)).
    { intros e He. apply (remaining_min iters x h rests e Hinv). rewrite Hperm. by right. }
    pose proof (merge_skips_spec target iters' x h' rests' Hinv' Hmin) as Hsk.
    cbn [merge_loop]. rewrite Hpop. destruct (merge_skips target x h').
    + exists out. split; [done|]. apply (merged_perm _ _ _ _ (symmetry Hperm)). by apply merged_skip.
    + destruct Hsk as [Hlt Hd]. exists (x :: out). split.
      { intros o. cbn [write_all]. destruct (write_entry _ _ _ x) as [o' [| |]]; auto. }
      apply (merged_perm _ _ _ _ (symmetry Hperm)). csimpl. by apply merged_emit.
Qed.

(** ** Setting the merge up *)

(** The first entry of each table, tagged with its position. *)
Fixpoint firsts (i : nat) (ess : list (list SSTableEntry)) : list CompactionEntry :=
  match ess with
  | [] => []
  | (e :: _) :: ess => set_sstIndex i (lift e) :: firsts (S i) ess
  | [] :: ess => firsts (S i) ess
  end.

Lemma firsts_elem ess : ∀ i x, x ∈ firsts i ess →
  ∃ j e es, ess !! j = Some (e :: es) ∧ x = set_sstIndex (i + j) (lift e).
Proof.
  induction ess as [|[|e es] ess IH]; intros i x Hx; simpl in *; [by apply elem_of_nil in Hx|..].
  - destruct (IH _ _ Hx) as (j & e & es & Hj & ->). exists (S j), e, es. split; [done|].
    by rewrite Nat.add_succ_r.
  - apply elem_of_cons in Hx as [->|Hx].
    + exists 0%nat, e, es. by rewrite Nat.add_0_r.
    + destruct (IH _ _ Hx) as (j & e' & es' & Hj & ->). exists (S j), e', es'. split; [done|].
      by rewrite Nat.add_succ_r.
Qed.

Lemma firsts_lookup ess : ∀ i j e es, ess !! j = Some (e :: es) → (i + j)%nat ∈ ce_sstIndex <$> firsts i ess.
Proof.
  induction ess as [|[|e0 es0] ess IH]; intros i [|j] e es Hj; simplify_eq/=.
  - rewrite Nat.add_succ_r. by eapply (IH (S i)).
  - rewrite Nat.add_0_r. csimpl. left.
  - rewrite Nat.add_succ_r. csimpl. right. by eapply (IH (S i)).
Qed.

Lemma firsts_NoDup ess : ∀ i, NoDup (ce_sstIndex <$> firsts i ess).
Proof.
  induction ess as [|[|e es] ess IH]; intros i; simpl; [constructor|done|].
  csimpl. apply NoDup_cons. split; [|done]. intros Hin. apply list_elem_of_fmap in Hin as (x & Hx & Hin).
  apply firsts_elem in Hin as (j & e' & es' & _ & ->). simpl in Hx. lia.
Qed.

Lemma firsts_remaining ess : ∀ i, remaining (firsts i ess) (tail <$> ess) ≡ₚ concat ess.
Proof.
  unfold remaining. induction ess as [|[|e es] ess IH]; intros i; [done|..].
  - by apply (IH (S i)).
  - simpl. csimpl. rewrite strip_set_index, strip_lift. apply perm_skip.
    rewrite <-(IH (S i)). rewrite !(assoc (++)). apply Permutation_app_tail, Permutation_app_comm.
Qed.

Lemma fill_heap_spec iters ess :
  Forall2 (λ it es, es ≠ [] ∧ iter_holds it es) iters ess → ∀ i h, heap_ok ce_Less h →
  ∃ iters' h', fill_heap i iters h = (iters', h') ∧ heap_ok ce_Less h' ∧
    h' ≡ₚ h ++ firsts i ess ∧ Forall2 (λ it es, iter_holds it (tail es)) iters' ess.
Proof.
  induction 1 as [|it es iters ess [Hne Hit] _ IH]; intros i h Hh; simpl.
  { exists [], h. split_and!; [done|done|by rewrite app_nil_r|constructor]. }
  destruct es as [|e es]; [done|]. destruct (Next_spec it (e :: es) Hit) as (it' & -> & Hit').
  destruct (heap_Push_spec ce_Less ce_le_trans ce_le_total h (set_sstIndex i (lift e)) Hh) as [Hh1 Hp1].
  destruct (IH (S i) _ Hh1) as (iters' & h' & -> & Hh' & Hp & Hf).
  exists (it' :: iters'), h'. split; [done|]. split; [done|]. split; [|by constructor].
  rewrite Hp, Hp1. simpl. by rewrite <-Permutation_middle.
Qed.

Lemma heap_ok_nil : heap_ok ce_Less [].
Proof. intros j Hj. simpl in Hj. lia. Qed.

Lemma new_iterators_spec sstables ess :
  Forall2 (λ sst es, es ≠ [] ∧ table_holds sst es) sstables ess →
  ∃ iters, new_iterators sstables = Ok iters ∧ Forall2 (λ it es, es ≠ [] ∧ iter_holds it es) iters ess.
Proof.
  induction 1 as [|sst es sstables ess [Hne Ht] _ IH]; simpl; [by eexists|].
  destruct (NewSSTableIterator_spec sst es Ht Hne) as (it & -> & Hit). destruct IH as (iters & -> & Hf).
  simpl. eexists. split; [done|]. by constructor.
Qed.

(** The state before the first round. *)
Lemma merge_start sstables ess :
  Forall2 (λ sst es, es ≠ [] ∧ table_holds sst es) sstables ess →
  ∃ iters iters' h, new_iterators sstables = Ok iters ∧
    fill_heap 0 iters (heap_Init ce_Less []) = (iters', h) ∧
    merge_inv iters' h (tail <$> ess) ∧ remaining h (tail <$> ess) ≡ₚ concat ess.
Proof.
  intros Ht. destruct (new_iterators_spec _ _ Ht) as (iters & E & Hf).
  destruct (fill_heap_spec iters ess Hf 0 [] heap_ok_nil) as (iters' & h & Ef & Hh & Hp & Hf').
  exists iters, iters', h. split; [done|]. split; [done|]. simpl in Hp. split; [split|].
  - done.
  - rewrite Hp. apply firsts_NoDup.
  - intros x Hx. rewrite Hp in Hx. apply firsts_elem in Hx as (j & e & es & Hj & ->). simpl.
    destruct (Forall2_lookup_r _ _ _ _ _ Hf' Hj) as (it & Hi & Hit).
    destruct (Forall2_lookup_r _ _ _ _ _ Ht Hj) as (sst & _ & _ & Hst).
    exists it, es. rewrite list_lookup_fmap, Hj. split; [done|]. split; [done|]. split; [done|].
    destruct Hst as (? & ? & _ & _ & _ & _ & Hs & _). inversion_clear Hs as [|? ? Hs' Hz]. done.
  - intros i r Hi Hout. rewrite list_lookup_fmap in Hi. destruct (ess !! i) as [es|] eqn:Ei; [|done].
    exfalso. apply Hout. rewrite Hp. destruct (Forall2_lookup_r _ _ _ _ _ Ht Ei) as (sst & _ & Hne & _).
    destruct es as [|e es]; [done|]. apply (firsts_lookup ess 0 i e es Ei).
  - unfold remaining. rewrite Hp. apply firsts_remaining.
Qed.

(** ** Writing the tables *)

(** The finished tables hold [chunks] and the open builder [cur]. *)
Definition out_holds (o : merge_out) (chunks : list (list SSTableEntry)) (cur : list SSTableEntry) : Prop :=
  Forall2 (λ sst c, c ≠ [] ∧ table_holds sst c) (mo_new o) chunks ∧
  len cur < maxEntriesPerFile ∧
  match mo_builder o with
  | None => cur = []
  | Some b => cur ≠ [] ∧ mo_entries o = len cur ∧
      ∃ blocks c, written b blocks c ∧ described b cur ∧ cur = concat blocks ++ c
  end.

Section writing.
Context (new_bloom : Z → BloomFilter).
Context (new_bloom_wf : bf_wf (new_bloom maxEntriesPerFile)).

Lemma finish_file_spec target o b chunks cur :
  Forall2 (λ sst c, c ≠ [] ∧ table_holds sst c) (mo_new o) chunks →
  cur ≠ [] → len cur ≤ maxEntriesPerFile → StronglySorted (key_lt se_Key) cur →
  Forall entry_fits cur →
  (∃ blocks c, written b blocks c ∧ described b cur ∧ cur = concat blocks ++ c) →
  ∃ o', finish_file target o b = (o', Ok tt) ∧ out_holds o' (chunks ++ [cur]) [] ∧ mo_builder o' = None.
Proof using Type.
  intros Hnew Hne Hl Hs Hf (blocks & c & Hw & Hd & Heq). unfold maxEntriesPerFile in *.
  destruct (Finish_open b blocks c cur target (mo_fileNum o) Hw Hd Heq) as (file & sst & E & Eo & Ht & _);
    [lia|done|done|].
  unfold finish_file. rewrite E, Eo. eexists. split; [reflexivity|]. split; [|done].
  split; [|split; [done|done]]. simpl. apply Forall2_app; [done|]. by repeat constructor.
Qed.

Lemma write_entry_spec target o chunks cur e :
  out_holds o chunks cur → StronglySorted (key_lt se_Key) (cur ++ [strip e]) →
  Forall entry_fits (cur ++ [strip e]) →
  ∃ o' chunks' cur', write_entry new_bloom target o e = (o', Ok tt) ∧ out_holds o' chunks' cur' ∧
    ((chunks' = chunks ∧ cur' = cur ++ [strip e]) ∨ (chunks' = chunks ++ [cur ++ [strip e]] ∧ cur' = [])).
Proof using new_bloom_wf.
  intros (Hnew & Hl & Hb) Hs Hf. unfold write_entry.
  set (o1 := match mo_builder o with Some _ => o | None => _ end).
  assert (∃ b1, mo_builder o1 = Some b1 ∧ mo_new o1 = mo_new o ∧ mo_entries o1 = len cur ∧
    ∃ blocks c, written b1 blocks c ∧ described b1 cur ∧ cur = concat blocks ++ c)
    as (b1 & Eb & En & Ee & blocks & c & Hw & Hd & Heq).
  { subst o1. destruct (mo_builder o) as [b|] eqn:Eb.
    - destruct Hb as (_ & Hm & Hx). eauto 10.
    - subst cur. eexists. split; [reflexivity|]. split; [done|]. split; [done|]. exists [], [].
      split; [apply new_written|]. split; [by apply new_described|done]. }
  clearbody o1. rewrite Eb. unfold maxEntriesPerFile in *.
  apply Forall_app in Hf as Hf2. destruct Hf2 as [_ He]. apply Forall_cons in He as [He _].
  rewrite Heq in Hd.
  destruct (Add_written b1 blocks c (strip e) Hw Hd He) as (b2 & bs2 & c2 & E & Hw2 & Hd2 & Heq2);
    [rewrite <-Heq; lia|]. simpl in E. rewrite E. rewrite <-Heq in Hd2, Heq2. simpl mo_entries. rewrite Ee.
  destruct (Z.leb_spec 100000 (len cur + 1)) as [Hbig|Hsmall].
  - destruct (finish_file_spec target
      (MkOut (mo_new o1) (mo_files o1) (Some b2) (mo_fileNum o1) (len cur + 1) (mo_next o1)) b2
      chunks (cur ++ [strip e])) as (o' & -> & Ho & _).
    + simpl. by rewrite En.
    + by destruct cur.
    + rewrite len_app. change (len [strip e]) with 1. unfold maxEntriesPerFile. lia.
    + done.
    + done.
    + eauto 10.
    + eexists _, _, _. split; [reflexivity|]. split; [exact Ho|]. by right.
  - eexists _, chunks, (cur ++ [strip e]). split; [reflexivity|]. split; [|by left].
    split; [simpl; by rewrite En|]. split; [rewrite len_app; change (len [strip e]) with 1; unfold maxEntriesPerFile; lia|].
    simpl. split; [by destruct cur|]. split; [by rewrite len_app|]. eauto 10.
Qed.

Lemma write_all_spec target out : ∀ o chunks cur,
  out_holds o chunks cur → StronglySorted (key_lt se_Key) (cur ++ (strip <$> out)) →
  Forall entry_fits (cur ++ (strip <$> out)) →
  ∃ o' chunks' cur', write_all new_bloom target o out = (o', Ok tt) ∧ out_holds o' chunks' cur' ∧
    concat chunks' ++ cur' = concat chunks ++ cur ++ (strip <$> out) ∧
    StronglySorted (key_lt se_Key) cur' ∧ Forall entry_fits cur'.
Proof using new_bloom_wf.
  induction out as [|e out IH]; intros o chunks cur Ho Hs Hf.
  { exists o, chunks, cur. csimpl in *. rewrite app_nil_r in *. by split_and!. }
  change (strip <$> e :: out) with ([strip e] ++ (strip <$> out)) in Hs, Hf.
  rewrite (assoc (++)) in Hs, Hf. pose proof Hs as Hs'. apply sorted_app_inv in Hs' as (Hs1 & Hs2 & _).
  pose proof Hf as Hf'. apply Forall_app in Hf' as [Hf1 Hf2].
  destruct (write_entry_spec target o chunks cur e Ho Hs1 Hf1) as (o1 & ch1 & c1 & E & Ho1 & Hch).
  cbn [write_all]. rewrite E.
  destruct Hch as [[-> ->]|[-> ->]].
  - destruct (IH o1 chunks (cur ++ [strip e]) Ho1 Hs Hf) as (o2 & ch2 & c2 & -> & Ho2 & Hc & ? & ?).
    exists o2, ch2, c2. split; [done|]. split; [done|]. split; [|done]. rewrite Hc. csimpl.
    by rewrite <-!(assoc (++)).
  - destruct (IH o1 (chunks ++ [cur ++ [strip e]]) [] Ho1 Hs2 Hf2) as (o2 & ch2 & c2 & -> & Ho2 & Hc & ? & ?).
    exists o2, ch2, c2. split; [done|]. split; [done|]. split; [|done]. rewrite Hc, concat_app. csimpl.
    rewrite app_nil_r. by rewrite <-!(assoc (++)).
Qed.
End writing.

Lemma table_holds_fits sst es : table_holds sst es → Forall entry_fits es.
Proof.
  intros (blocks & bloom & -> & Hok & _). clear bloom. apply Forall_forall. intros e He.
  apply elem_of_concat in He as (blk & He & Hb). rewrite Forall_forall in Hok.
  destruct (Hok blk Hb) as (_ & Hl & _). unfold entry_fits. rewrite len_block_of in Hl.
  apply list_elem_of_split in He as (a & b & ->). rewrite ebody_app, ebody_cons, !len_app in Hl.
  pose proof (len_nonneg (ebody a)). pose proof (len_nonneg (ebody b)). lia.
Qed.

(** A key whose input entries agree keeps its meaning. *)
Lemma merged_lookup target input out e :
  merged target input out → e ∈ input →
  (∀ e', e' ∈ input → se_Key e' = se_Key e → e' = e) →
  sst_lookup out (se_Key e) = if se_Deleted e then None else Some (se_Value e).
Proof.
  intros [Hs Hfrom Hcov Hlast] He Huniq.
  assert (Hk : ∀ l, (∀ x, x ∈ l → x ∈ input) → e ∈ l → entries_map se_Key l !! se_Key e = Some e).
  { induction l as [|x l IH]; intros Hl Hin; [by apply elem_of_nil in Hin|]. rewrite entries_map_cons.
    destruct (decide (se_Key x = se_Key e)) as [Heq|Hne].
    - rewrite (Huniq x (Hl x (list_elem_of_here _ _)) Heq). by rewrite lookup_insert_eq.
    - rewrite lookup_insert_ne by done. apply elem_of_cons in Hin as [->|Hin]; [done|].
      apply IH; [|done]. intros y Hy. apply Hl. by right. }
  destruct (decide (e ∈ out)) as [Hin|Hout].
  - unfold sst_lookup. by rewrite (Hk out Hfrom Hin).
  - destruct (Hcov e He) as [(e' & He' & Hek)|(-> & e' & He' & Hek & Hd)].
    + rewrite (Huniq e' (Hfrom _ He') Hek) in He'. done.
    + rewrite (Huniq e' He' Hek) in Hd. rewrite Hd. apply sst_lookup_absent. intros x Hx Hxk.
      apply Hout. by rewrite <-(Huniq x (Hfrom x Hx) Hxk).
Qed.

(** C15: merging any number of non-empty tables succeeds and writes tables whose contents,
    concatenated, are strictly sorted, come from the inputs, and cover every input key
    (the last level drops tombstones); each new table is readable; a key on which the
    inputs do not conflict keeps its value or stays deleted.  Which of several conflicting
    entries survives is not promised. *)
Theorem merge_correct new_bloom fuel sstables ess targetLevel nextFileNum
    (Hbloom : bf_wf (new_bloom maxEntriesPerFile))
    (Htables : Forall2 (λ sst es, es ≠ [] ∧ table_holds sst es) sstables ess)
    (Hfuel : (length (concat ess) ≤ fuel)%nat) :
  ∃ o chunks, mergeFiles new_bloom fuel sstables targetLevel nextFileNum = (o, Ok tt) ∧
    merged targetLevel (concat ess) (concat chunks) ∧
    Forall2 (λ sst c, c ≠ [] ∧ ∀ k, SSTable_Get sst k = Ok (sst_lookup c k)) (mo_new o) chunks ∧
    ∀ e, e ∈ concat ess → (∀ e', e' ∈ concat ess → se_Key e' = se_Key e → e' = e) →
      sst_lookup (concat chunks) (se_Key e) = if se_Deleted e then None else Some (se_Value e).
Proof.
  destruct (merge_start sstables ess Htables) as (iters & iters' & h & E1 & E2 & Hinv & Hperm).
  destruct (merge_loop_spec new_bloom targetLevel fuel iters' h _ Hinv) as (out & Hrun & Hmg);
    [by rewrite Hperm|].
  apply (merged_perm _ _ _ _ Hperm) in Hmg.
  assert (Hfits : Forall entry_fits (strip <$> out)).
  { apply Forall_forall. intros e He. apply (mg_from _ _ _ Hmg) in He.
    apply elem_of_concat in He as (es & He & Hes). apply list_elem_of_lookup in Hes as [i Hi].
    destruct (Forall2_lookup_r _ _ _ _ _ Htables Hi) as (sst & _ & _ & Ht).
    apply table_holds_fits in Ht. rewrite Forall_forall in Ht. by apply Ht. }
  destruct (write_all_spec new_bloom Hbloom targetLevel out (MkOut [] [] None 0 0 nextFileNum) [] [])
    as (o & chunks & cur & Hw & (Hnew & Hl & Hb) & Hc & Hscur & Hfcur); [done|apply Hmg|done|].
  assert (Hget : ∀ l c, Forall2 (λ sst c, c ≠ [] ∧ table_holds sst c) l c →
    Forall2 (λ sst c, c ≠ [] ∧ ∀ k, SSTable_Get sst k = Ok (sst_lookup c k)) l c).
  { intros l c H. eapply Forall2_impl; [exact H|]. intros sst x [? Ht]. split; [done|].
    intros k. by apply table_holds_Get. }
  unfold mergeFiles. rewrite E1, E2, Hrun, Hw. simpl in Hc.
  destruct (mo_builder o) as [b|].
  - destruct Hb as (Hne & _ & Hbb).
    destruct (finish_file_spec targetLevel o b chunks cur) as (o' & -> & (Hnew' & _) & _); try done; [lia|].
    exists o', (chunks ++ [cur]). split; [done|].
    assert (concat (chunks ++ [cur]) = strip <$> out) as -> by (rewrite concat_app; simpl; by rewrite app_nil_r).
    split; [done|]. split; [by apply Hget|]. intros e. by eapply merged_lookup.
  - subst cur. rewrite app_nil_r in Hc. exists o, chunks. split; [done|]. rewrite Hc.
    split; [done|]. split; [by apply Hget|]. intros e. by eapply merged_lookup.
Qed.

Definition demo_bloom (n : Z) : BloomFilter := NewBloomFilter 64 3.

Lemma demo_bloom_wf n : bf_wf (demo_bloom n).
Proof. apply NewBloomFilter_wf; lia. Qed.

Definition demo_a : list SSTableEntry := [MkSSTEntry [1] [10] false; MkSSTEntry [5] [50] false].
Definition demo_b : list SSTableEntry := [MkSSTEntry [2] [20] false; MkSSTEntry [6] [] true].

Lemma merge_correct_witness :
  ∃ sstables o sst, mergeFiles demo_bloom 10 sstables 1 7 = (o, Ok tt) ∧ mo_new o = [sst] ∧
    SSTable_Get sst [2] = Ok (Some [20]) ∧ SSTable_Get sst [6] = Ok None.
Proof.
  destruct (build_open (demo_bloom 1) demo_a 0 1 (demo_bloom_wf 1)) as (fa & sa & Ea & Oa & Ha & _);
    [repeat constructor|unfold entry_fits, blockSize; repeat constructor; by vm_compute|done|].
  destruct (build_open (demo_bloom 1) demo_b 0 2 (demo_bloom_wf 1)) as (fb & sb & Eb & Ob & Hb & _);
    [repeat constructor|unfold entry_fits, blockSize; repeat constructor; by vm_compute|done|].
  destruct (merge_correct demo_bloom 10 [sa; sb] [demo_a; demo_b] 1 7 (demo_bloom_wf _))
    as (o & chunks & E & _).
  - repeat constructor; done.
  - simpl. lia.
  - vm_compute in Ea. injection Ea as <-. vm_compute in Oa. injection Oa as <-.
    vm_compute in Eb. injection Eb as <-. vm_compute in Ob. injection Ob as <-.
    eexists _, o. rewrite E. vm_compute in E. injection E as <-. eexists.
    split; [done|]. split; [done|]. by vm_compute.
Defined.

(** The merge keeps, of several entries with one key, the one that leaves the heap last;
    with all sequence numbers zero that can be the oldest: here a table of L0 (first in the
    list) overwrites a key of a table of L1, and the old value survives the compaction. *)
Example compaction_keeps_old_value :
  let table es n := match build_sstable (demo_bloom 1) es with
                    | Ok f => match OpenSSTable f 0 n with Ok s => [s] | _ => [] end
                    | _ => []
                    end in
  let newer := table [MkSSTEntry [3] [31] false] 2 in
  let older := table [MkSSTEntry [3] [30] false] 1 in
  let '(o, _, r) := CompactL0ToL1 demo_bloom 10 newer older 7 in
  r = Ok tt ∧ (λ s, SSTable_Get s [3]) <$> mo_new o = [Ok (Some [30])].
Proof. by vm_compute. Qed.
