(* ===== verification/LsmEngine.v ===== *)
(** The LSM engine ([src/lsm/lsm.go]) and its adapter to the common interface
    ([src/lsm/adapter.go]): memtables, write-ahead log, flushes and compactions. *)
From stdpp Require Import base gmap list strings numbers sorting.
From S2P Require Import Prelude GoLib GoHeap Common LsmMemtable LsmWal LsmBloom.
From S2P Require Import LsmSSTable LsmLevels LsmCompaction.

Open Scope Z_scope.

Record LSMConfig := MkLSMConfig {
  lc_DataDir : string;
  lc_MemTableSize : Z;
  lc_MaxL0Files : Z;
}.

Definition LSM_DefaultConfig (dataDir : string) : LSMConfig :=
  MkLSMConfig dataDir (4 * 1024 * 1024) 4.

(** The state of an open engine.  [l_dir] holds the SSTable files of the data directory by
    level and number; the two channels have one place each. *)
Record LSM := MkLSM {
  l_config : LSMConfig;
  l_active : MemTable;
  l_immutable : option MemTable;
  l_wal : WAL;
  l_levels : LevelManager;
  l_sequence : Z;
  l_nextFileNum : Z;
  l_flushChan : bool;
  l_compactionChan : bool;
  l_dir : gmap (nat * Z) bytes;
  l_writeCount : Z;
  l_readCount : Z;
  l_flushCount : Z;
  l_compactCount : Z;
}.

(** Field updates. *)
Definition with_memtables (a : MemTable) (i : option MemTable) (f : bool) (s : LSM) : LSM :=
  MkLSM (l_config s) a i (l_wal s) (l_levels s) (l_sequence s) (l_nextFileNum s) f
    (l_compactionChan s) (l_dir s) (l_writeCount s) (l_readCount s) (l_flushCount s) (l_compactCount s).
Definition with_log (w : WAL) (seq : Z) (s : LSM) : LSM :=
  MkLSM (l_config s) (l_active s) (l_immutable s) w (l_levels s) seq (l_nextFileNum s) (l_flushChan s)
    (l_compactionChan s) (l_dir s) (l_writeCount s) (l_readCount s) (l_flushCount s) (l_compactCount s).
Definition with_tables (lm : LevelManager) (next : Z) (d : gmap (nat * Z) bytes) (s : LSM) : LSM :=
  MkLSM (l_config s) (l_active s) (l_immutable s) (l_wal s) lm (l_sequence s) next (l_flushChan s)
    (l_compactionChan s) d (l_writeCount s) (l_readCount s) (l_flushCount s) (l_compactCount s).
Definition with_compactionChan (b : bool) (s : LSM) : LSM :=
  MkLSM (l_config s) (l_active s) (l_immutable s) (l_wal s) (l_levels s) (l_sequence s)
    (l_nextFileNum s) (l_flushChan s) b (l_dir s) (l_writeCount s) (l_readCount s) (l_flushCount s)
    (l_compactCount s).
Definition with_counts (w r f c : Z) (s : LSM) : LSM :=
  MkLSM (l_config s) (l_active s) (l_immutable s) (l_wal s) (l_levels s) (l_sequence s)
    (l_nextFileNum s) (l_flushChan s) (l_compactionChan s) (l_dir s) w r f c.

(** ** Writing *)

(** Freeze a full memtable, if the previous one is flushed, and signal the flush worker. *)
Definition freeze (s : LSM) : LSM :=
  match l_immutable s with
  | None =>
      if MemTable_IsFull (l_active s)
      then with_memtables (NewMemTable (lc_MemTableSize (l_config s))) (Some (l_active s)) true s
      else s
  | Some _ => s
  end.

Definition LSM_Put (s : LSM) (key value : bytes) : LSM * res unit :=
  let seq := u64 (l_sequence s + 1) in
  let s := with_log (WAL_Append (l_wal s) key value seq false) seq s in
  let s := with_memtables (MemTable_Put (l_active s) key value seq) (l_immutable s) (l_flushChan s) s in
  let isFull := MemTable_IsFull (l_active s) in
  let s := with_counts (l_writeCount s + 1) (l_readCount s) (l_flushCount s) (l_compactCount s) s in
  (if isFull then freeze s else s, Ok tt).

Definition LSM_Delete (s : LSM) (key : bytes) : LSM * res unit :=
  let seq := u64 (l_sequence s + 1) in
  let s := with_log (WAL_Append (l_wal s) key [] seq true) seq s in
  let s := with_memtables (MemTable_Delete (l_active s) key seq) (l_immutable s) (l_flushChan s) s in
  (if MemTable_IsFull (l_active s) then freeze s else s, Ok tt).

Definition LSM_Sync (s : LSM) : res unit := Ok tt.

(** ** Reading *)

(** All tables of L0, in list order. *)
Fixpoint get_l0 (ts : list SSTable) (key : bytes) : res (option bytes) :=
  match ts with
  | [] => Ok None
  | sst :: ts =>
      r ← SSTable_Get sst key;
      match r with Some value => Ok (Some value) | None => get_l0 ts key end
  end.

(** Above L0, the first table whose range contains the key decides. *)
Fixpoint get_ln (ts : list SSTable) (key : bytes) : res (option bytes) :=
  match ts with
  | [] => Ok None
  | sst :: ts =>
      if bytes_leb (SSTable_MinKey sst) key && bytes_leb key (SSTable_MaxKey sst)
      then SSTable_Get sst key
      else get_ln ts key
  end.

Fixpoint get_levels (lm : LevelManager) (levels : list nat) (key : bytes) : res (option bytes) :=
  match levels with
  | [] => Ok None
  | level :: levels =>
      let ts := GetAllSSTables lm level in
      r ← (if decide (level = 0%nat) then get_l0 ts key else get_ln ts key);
      match r with Some value => Ok (Some value) | None => get_levels lm levels key end
  end.

(** The answer: [None] is the Go result [nil, false]. *)
Definition lsm_lookup (s : LSM) (key : bytes) : res (option bytes) :=
  match MemTable_Get (l_active s) key with
  | (value, _, deleted, true) => Ok (if deleted then None else Some value)
  | _ =>
      match l_immutable s with
      | Some imm =>
          match MemTable_Get imm key with
          | (value, _, deleted, true) => Ok (if deleted then None else Some value)
          | _ => get_levels (l_levels s) [0; 1; 2; 3; 4]%nat key
          end
      | None => get_levels (l_levels s) [0; 1; 2; 3; 4]%nat key
      end
  end.

Definition LSM_Get (s : LSM) (key : bytes) : LSM * res (option bytes) :=
  let s := with_counts (l_writeCount s) (l_readCount s + 1) (l_flushCount s) (l_compactCount s) s in
  (s, lsm_lookup s key).

Section workers.
Context (new_bloom : Z → BloomFilter).
Context (sort_by_min : list SSTable → list SSTable).

(** ** Flushing *)

Definition to_sst (e : MemTableEntry) : SSTableEntry :=
  MkSSTEntry (me_Key e) (me_Value e) (me_Deleted e).

Definition flushMemtable (s : LSM) (memtable : MemTable) : LSM * res unit :=
  let entries := MemTable_GetAllEntries memtable in
  if len entries =? 0 then (s, Ok tt)
  else
    let fileNum := l_nextFileNum s in
    let s := with_tables (l_levels s) (u64 (l_nextFileNum s + 1)) (l_dir s) s in
    let s := with_counts (l_writeCount s) (l_readCount s) (l_flushCount s + 1) (l_compactCount s) s in
    match build_sstable (new_bloom (len entries)) (to_sst <$> entries) with
    | Err e => (s, Err e)
    | Panic => (s, Panic)
    | Ok file =>
        let s := with_tables (l_levels s) (l_nextFileNum s) (<[(0%nat, fileNum) := file]> (l_dir s)) s in
        match OpenSSTable file 0 fileNum with
        | Err e => (s, Err e)
        | Panic => (s, Panic)
        | Ok sst =>
            (with_tables (AddSSTable sort_by_min (l_levels s) sst 0) (l_nextFileNum s) (l_dir s) s, Ok tt)
        end
    end.

(** One round of [flushWorker]: after a flush the log is deleted and a new one opened; an
    error is only logged. *)
Definition flushWorker (s : LSM) : LSM :=
  if negb (l_flushChan s) then s
  else
    let s := with_memtables (l_active s) (l_immutable s) false s in
    let s := match l_immutable s with
             | None => s
             | Some imm =>
                 match flushMemtable s imm with
                 | (s, Ok _) =>
                     let s := with_memtables (l_active s) None (l_flushChan s) s in
                     with_log (NewWAL None) (l_sequence s) s
                 | (s, _) => s
                 end
             end in
    if ShouldCompact (l_levels s) 0 then with_compactionChan true s else s.

(** ** Compaction *)

(** Enough rounds for a merge: an entry takes at least one byte of its file. *)
Definition merge_fuel (files : list SSTable) : nat := sum_list (length ∘ sst_file <$> files).

Definition remove_all (lm : LevelManager) (files : list SSTable) (level : nat) : LevelManager :=
  foldl (λ lm sst, RemoveSSTable lm sst level) lm files.
Definition add_all (lm : LevelManager) (files : list SSTable) (level : nat) : LevelManager :=
  foldl (λ lm sst, AddSSTable sort_by_min lm sst level) lm files.

(** [DeleteSSTables]: the files are unlinked. *)
Definition DeleteSSTables (d : gmap (nat * Z) bytes) (files : list SSTable) : gmap (nat * Z) bytes :=
  foldl (λ d sst, delete (Z.to_nat (sst_level sst), sst_fileNum sst) d) d files.

Definition add_files (d : gmap (nat * Z) bytes) (level : nat) (files : list (Z * bytes))
    : gmap (nat * Z) bytes :=
  foldl (λ d nf, <[(level, nf.1) := nf.2]> d) d files.

(** Replacing the merged tables by the new ones, shared by both compaction paths. *)
Definition install (s : LSM) (source target : nat) (sourceFiles targetFiles : list SSTable)
    (o : merge_out) : LSM :=
  let lm := remove_all (l_levels s) sourceFiles source in
  let lm := remove_all lm targetFiles target in
  let lm := add_all lm (mo_new o) target in
  let d := DeleteSSTables (l_dir s) sourceFiles in
  with_tables lm (l_nextFileNum s) (DeleteSSTables d targetFiles) s.

Definition compactLevel (s : LSM) (source target : nat) : LSM :=
  let s := with_counts (l_writeCount s) (l_readCount s) (l_flushCount s) (l_compactCount s + 1) s in
  let sourceFiles := PickCompactionFiles (l_levels s) source in
  let targetFiles := GetAllSSTables (l_levels s) target in
  let '(o, old, r) := CompactLnToLn1 new_bloom (merge_fuel (sourceFiles ++ targetFiles)) sourceFiles
                        targetFiles (Z.of_nat target) (l_nextFileNum s) in
  let s := with_tables (l_levels s) (mo_next o) (add_files (l_dir s) target (mo_files o)) s in
  match r with
  | Ok _ => install s source target sourceFiles old o
  | _ => s
  end.

Definition compactL0ToL1 (s : LSM) : LSM :=
  let s := with_counts (l_writeCount s) (l_readCount s) (l_flushCount s) (l_compactCount s + 1) s in
  let l0Files := GetAllSSTables (l_levels s) 0 in
  let l1Files := GetAllSSTables (l_levels s) 1 in
  let '(o, old, r) := CompactL0ToL1 new_bloom (merge_fuel (l0Files ++ l1Files)) l0Files l1Files
                        (l_nextFileNum s) in
  let s := with_tables (l_levels s) (mo_next o) (add_files (l_dir s) 1 (mo_files o)) s in
  match r with
  | Ok _ => install s 0 1 l0Files old o
  | _ => s
  end.

Definition triggerNextLevelCompaction (s : LSM) (level : nat) : LSM :=
  if ShouldCompact (l_levels s) level then with_compactionChan true s else s.

(** The loop over L1, L2 and L3. *)
Fixpoint compact_first (s : LSM) (levels : list nat) : LSM :=
  match levels with
  | [] => s
  | level :: levels =>
      if ShouldCompact (l_levels s) level
      then triggerNextLevelCompaction (compactLevel s level (S level)) (S level)
      else compact_first s levels
  end.

Definition performCompaction (s : LSM) : LSM :=
  if ShouldCompact (l_levels s) 0 then triggerNextLevelCompaction (compactL0ToL1 s) 1
  else compact_first s [1; 2; 3]%nat.

Definition LSM_compactionWorker (s : LSM) : LSM :=
  if l_compactionChan s then performCompaction (with_compactionChan false s) else s.

(** ** Opening and closing *)

Definition replay (s : LSM) (e : WALEntry) : LSM :=
  let seq := if l_sequence s <? we_Sequence e then we_Sequence e else l_sequence s in
  let s := with_log (l_wal s) seq s in
  let m := if we_Deleted e then MemTable_Delete (l_active s) (we_Key e) (we_Sequence e)
           else MemTable_Put (l_active s) (we_Key e) (we_Value e) (we_Sequence e) in
  with_memtables m (l_immutable s) (l_flushChan s) s.

Definition recoverFromWAL (s : LSM) : LSM * res unit :=
  match WAL_ReadAll (l_wal s) with
  | Err e => (s, Err e)
  | Panic => (s, Panic)
  | Ok entries => (foldl replay s entries, Ok tt)
  end.

(** One file of the directory: a file that does not open is skipped with a warning. *)
Definition load_file (s : LSM) (f : nat * Z * bytes) : LSM :=
  let '(level, fileNum, content) := f in
  match OpenSSTable content (Z.of_nat level) fileNum with
  | Ok sst =>
      let next := if l_nextFileNum s <=? fileNum then u64 (fileNum + 1) else l_nextFileNum s in
      with_tables (AddSSTable sort_by_min (l_levels s) sst level) next
        (<[(level, fileNum) := content]> (l_dir s)) s
  | _ => s
  end.

(** [files] are the SSTable files in the order [os.ReadDir] lists them. *)
Definition loadSSTables (s : LSM) (files : list (nat * Z * bytes)) : LSM := foldl load_file s files.

Definition LSM_New (config : LSMConfig) (wal : option bytes) (files : list (nat * Z * bytes))
    : LSM * res unit :=
  let s := MkLSM config (NewMemTable (lc_MemTableSize config)) None (NewWAL wal) NewLevelManager
             0 0 false false ∅ 0 0 0 0 in
  match recoverFromWAL s with
  | (s, Ok _) => (loadSSTables s files, Ok tt)
  | (s, Err e) => (s, Err (Errorf "failed to recover from WAL"))
  | (s, Panic) => (s, Panic)
  end.

(** [Close]: the workers stop, the active memtable is flushed; what is left on disk is the
    log and the directory. *)
Definition LSM_Close (s : LSM) : LSM * res unit :=
  if 0 <? MemTable_Len (l_active s) then flushMemtable s (l_active s) else (s, Ok tt).
End workers.

(** ** The adapter *)

Definition Adapter_Put (s : LSM) (key value : bytes) : LSM * res unit := LSM_Put s key value.

Definition Adapter_Get (s : LSM) (key : bytes) : LSM * res bytes :=
  match LSM_Get s key with
  | (s, Err e) => (s, Err e)
  | (s, Panic) => (s, Panic)
  | (s, Ok None) => (s, Err ErrKeyNotFound)
  | (s, Ok (Some value)) => (s, Ok value)
  end.

Definition Adapter_Delete (s : LSM) (key : bytes) : LSM * res unit := LSM_Delete s key.
Definition Adapter_Sync (s : LSM) : res unit := LSM_Sync s.
Definition Adapter_Compact (s : LSM) : LSM * res unit := (s, Ok tt).

(** [Stats]; the amplification estimates are the fractions the [float64] formulas stand
    for. *)
Definition Adapter_Stats (s : LSM) : Stats :=
  let totalFiles := GetTotalFiles (l_levels s) in
  let numKeys := MemTable_Len (l_active s) + from_option MemTable_Len 0 (l_immutable s)
                   + totalFiles * 10000 in
  let flushCount := l_flushCount s in
  let compactCount := l_compactCount s in
  let writeAmp :=
    if 0 <? flushCount then
      let amp := if 0 <? compactCount then (3 * flushCount + compactCount, 2 * flushCount) else (3, 2) in
      if 5 * amp.2 <? amp.1 then (5, 1) else amp
    else (1, 1) in
  let l0Files := NumFiles (l_levels s) 0 in
  let spaceAmp :=
    if 0 <? totalFiles then
      let amp := if 2 <? l0Files then (15 + l0Files, 10) else (12, 10) in
      if 3 * amp.2 <? amp.1 then (3, 1) else amp
    else (1, 1) in
  MkStats numKeys (totalFiles + 1) (MemTable_Size (l_active s)) (GetTotalSize (l_levels s))
    (l_writeCount s) (l_readCount s) compactCount writeAmp spaceAmp.

#[global] Instance lsm_engine : StorageEngine LSM := {
  se_Put := Adapter_Put;
  se_Get := Adapter_Get;
  se_Delete := Adapter_Delete;
  se_Sync := Adapter_Sync;
}.
