(* ===== verification/LsmTheorems.v ===== *)
(** What the LSM engine guarantees: it implements the abstract map of [Common] over client
    sessions, the first flush and crash recovery from the log.  The last section shows on
    concrete runs where a second flush, and a crash after a flush, leave that
    specification. *)
From stdpp Require Import base gmap list strings numbers sorting.
From S2P Require Import Prelude GoLib GoHeap Common LsmMemtable LsmWal LsmBloom.
From S2P Require Import LsmSSTable LsmLevels LsmCompaction LsmEngine.

Open Scope Z_scope.

(** A stored value reads back as it is, and an empty key is a key. *)
Definition lsm_policy : policy := MkPolicy Some false.

(** A record small enough for a block of an SSTable. *)
Definition lsm_fits (k v : bytes) : Prop := 13 + len k + len v ≤ blockSize.

(** ** Abstraction *)

(** The entry of the memtables for a key. *)
Definition mem_entry_of (s : LSM) (k : bytes) : option MemTableEntry :=
  match mt_map (l_active s) !! k with
  | Some e => Some e
  | None => l_immutable s ≫= λ m, mt_map m !! k
  end.

Definition entry_value (e : MemTableEntry) : option bytes :=
  if me_Deleted e then None else Some (me_Value e).

(** What the flushed tables answer, oldest first. *)
Fixpoint tables_lookup (tables : list (list SSTableEntry)) (k : bytes) : option bytes :=
  match tables with
  | [] => None
  | es :: tables =>
      match sst_lookup es k with Some v => Some v | None => tables_lookup tables k end
  end.

(** What the engine stores above the flushed tables. *)
Definition lsm_value (tables : list (list SSTableEntry)) (s : LSM) (k : bytes) : option bytes :=
  match mem_entry_of s k with
  | Some e => entry_value e
  | None => tables_lookup tables k
  end.

Definition mem_fits (m : MemTable) : Prop :=
  Forall (λ e, lsm_fits (me_Key e) (me_Value e)) (mt_entries m).

(** Levels whose tables are all in L0. *)
Definition levels_of (ts : list SSTable) : LevelManager :=
  [MkLevel ts (len ts * 4 * 1024 * 1024) l0MaxSize; MkLevel [] 0 l1MaxSize; MkLevel [] 0 l2MaxSize;
   MkLevel [] 0 l3MaxSize; MkLevel [] 0 l4MaxSize].

(** The part of the state that only flushes and compactions change, and the rest. *)
Definition disk (s : LSM) : LevelManager * Z * gmap (nat * Z) bytes :=
  (l_levels s, l_nextFileNum s, l_dir s).
Definition mem (s : LSM) : MemTable * option MemTable * WAL * LSMConfig :=
  (l_active s, l_immutable s, l_wal s, l_config s).

Definition dir_entry (sst : SSTable) : nat * Z * bytes := (0%nat, sst_fileNum sst, sst_file sst).

(** The disk with the tables [ts] in L0. *)
Definition disk_of (ts : list SSTable) : LevelManager * Z * gmap (nat * Z) bytes :=
  (levels_of ts, len ts, list_to_map (dir_entry <$> ts)).

Definition numbered (ts : list SSTable) : Prop := sst_fileNum <$> ts = seqZ 0 (len ts).
Definition reopens (sst : SSTable) : Prop :=
  OpenSSTable (sst_file sst) 0 (sst_fileNum sst) = Ok sst.

(** Up to three tables in L0, numbered in flush order, with their files in the directory. *)
Definition disk_holds (d : LevelManager * Z * gmap (nat * Z) bytes)
    (tables : list (list SSTableEntry)) : Prop :=
  ∃ ts, d = disk_of ts ∧ Forall2 table_holds ts tables ∧ len ts < maxL0Files ∧
    Forall reopens ts ∧ numbered ts.

Record lsm_inv (base : list (list SSTableEntry)) (s : LSM) : Prop := {
  li_active : mt_wf (l_active s);
  li_immutable : from_option mt_wf True (l_immutable s);
  li_fits : mem_fits (l_active s) ∧ from_option mem_fits True (l_immutable s);
  li_disk : disk_holds (disk s) base;
}.

Definition lsm_stores (base : list (list SSTableEntry)) (s : LSM) (m : gmap bytes bytes) : Prop :=
  lsm_inv base s ∧ ∀ k, m !! k = lsm_value base s k.

(** ** Reading *)

Lemma MemTable_Get_map m k :
  mt_wf m →
  (∃ e, mt_map m !! k = Some e ∧ MemTable_Get m k = (me_Value e, me_Sequence e, me_Deleted e, true)) ∨
  (mt_map m !! k = None ∧ MemTable_Get m k = ([], 0, false, false)).
Proof.
  intros Hwf. rewrite (MemTable_Get_spec m k Hwf). destruct (mt_map m !! k) as [e|]; [left|right]; eauto.
Qed.

Lemma get_l0_tables ts tables k :
  Forall2 table_holds ts tables → get_l0 ts k = Ok (tables_lookup tables k).
Proof.
  induction 1 as [|sst es ts tables Ht _ IH]; simpl; [done|].
  rewrite (table_holds_Get sst es k Ht). simpl. by destruct (sst_lookup es k).
Qed.

Lemma get_levels_tables s tables k :
  disk_holds (disk s) tables → get_levels (l_levels s) [0; 1; 2; 3; 4]%nat k = Ok (tables_lookup tables k).
Proof.
  intros (ts & E & Ht & _). unfold disk in E. unfold disk_of in E. injection E as -> _ _.
  cbn [get_levels]. change (GetAllSSTables (levels_of ts) 0) with ts. rewrite (decide_True (P := 0%nat = 0%nat)) by done.
  rewrite (get_l0_tables ts tables k Ht). simpl. by destruct (tables_lookup tables k).
Qed.

Lemma lsm_lookup_value base s k : lsm_inv base s → lsm_lookup s k = Ok (lsm_value base s k).
Proof.
  intros [Ha Hi _ Hl]. unfold lsm_lookup, lsm_value, mem_entry_of, entry_value.
  destruct (MemTable_Get_map (l_active s) k Ha) as [(e & -> & ->)|[-> ->]]; [done|].
  destruct (l_immutable s) as [imm|]; simpl in *; [|by apply get_levels_tables].
  destruct (MemTable_Get_map imm k Hi) as [(e & -> & ->)|[-> ->]]; [done|]. by apply get_levels_tables.
Qed.

(** ** Writing *)

Lemma mem_step_fits m o :
  mt_wf m → lsm_fits (me_Key (mem_entry o)) (me_Value (mem_entry o)) → mem_fits m → mem_fits (mem_step m o).
Proof.
  intros Hwf Ho Hf. assert (Hm : mt_entries (mem_step m o) = upsert me_Key zero_entry (mem_entry o) (mt_entries m)).
  { destruct o; simpl; by rewrite ?MemTable_Put_enter, ?MemTable_Delete_enter. }
  unfold mem_fits. rewrite Hm.
  destruct (upsert_split me_Key zero_entry (mem_entry o) (mt_entries m) (mt_sorted m Hwf))
    as (a & b & -> & _ & _ & Hl).
  unfold mem_fits in Hf. destruct Hl as [[_ Hl]|(y & _ & _ & Hl)]; rewrite Hl in Hf;
    apply Forall_app in Hf as [Hfa Hfb]; apply Forall_app; (split; [done|]); constructor; try done.
  by apply Forall_cons in Hfb as [_ ?].
Qed.

(** The state after an operation on the active memtable. *)
Definition after_op (s : LSM) (o : mem_op) (s' : LSM) : Prop :=
  l_active s' = mem_step (l_active s) o ∧ l_immutable s' = l_immutable s ∨
  l_active s' = NewMemTable (lc_MemTableSize (l_config s)) ∧ l_immutable s = None ∧
  l_immutable s' = Some (mem_step (l_active s) o).

Lemma after_op_entry s o s' k :
  mt_wf (l_active s) → after_op s o s' →
  mem_entry_of s' k = if decide (me_Key (mem_entry o) = k) then Some (mem_entry o) else mem_entry_of s k.
Proof.
  intros Hwf Hafter. destruct (mem_step_spec (l_active s) o Hwf) as [_ Hmap]. unfold mem_entry_of.
  destruct Hafter as [[-> ->]|(-> & Hn & ->)].
  - rewrite Hmap. case_decide as E; subst; [by rewrite lookup_insert_eq|]. by rewrite lookup_insert_ne.
  - change (mt_map (NewMemTable _)) with (∅ : gmap bytes MemTableEntry). rewrite lookup_empty. simpl.
    rewrite Hmap, Hn. case_decide as E; subst; [by rewrite lookup_insert_eq|].
    rewrite lookup_insert_ne by done. by destruct (mt_map (l_active s) !! k).
Qed.

(** Both writers are one memtable operation with its record in the log. *)
Definition op_record (o : mem_op) : WALEntry :=
  let e := mem_entry o in MkWALEntry (me_Key e) (me_Value e) (me_Sequence e) (me_Deleted e).

Lemma write_spec base s o s' m :
  lsm_stores base s m → lsm_fits (me_Key (mem_entry o)) (me_Value (mem_entry o)) →
  disk s' = disk s → after_op s o s' →
  lsm_stores base s' (match entry_value (mem_entry o) with
                      | Some v => <[me_Key (mem_entry o) := v]> m
                      | None => delete (me_Key (mem_entry o)) m
                      end).
Proof.
  intros [[Ha Hi [Hfa Hfi] Hl] Hm] Ho El Hafter.
  destruct (mem_step_spec (l_active s) o Ha) as [Hwf _].
  pose proof (mem_step_fits (l_active s) o Ha Ho Hfa) as Hfit.
  split.
  - destruct Hafter as [[E1 E2]|(E1 & E2 & E3)]; split; rewrite ?El, ?E1; rewrite ?E2, ?E3; try done.
    + apply NewMemTable_wf.
    + split; [constructor|done].
  - intros k. unfold lsm_value. rewrite (after_op_entry s o s' k Ha Hafter).
    case_decide as E; [subst k|]; destruct (entry_value (mem_entry o)) eqn:Ev;
      rewrite ?lookup_insert_eq, ?lookup_delete_eq, ?lookup_insert_ne, ?lookup_delete_ne by done;
      try done; apply Hm.
Qed.

Lemma freeze_cases s :
  freeze s = s ∨
  freeze s = with_memtables (NewMemTable (lc_MemTableSize (l_config s))) (Some (l_active s)) true s ∧
  l_immutable s = None.
Proof.
  unfold freeze. destruct (l_immutable s) eqn:E; [by left|]. destruct (MemTable_IsFull _); [by right|by left].
Qed.

(** The record that a write appends. *)
Lemma LSM_Put_cases s k v :
  let o := MPut k v (u64 (l_sequence s + 1)) in
  let s' := (LSM_Put s k v).1 in
  (LSM_Put s k v).2 = Ok tt ∧ disk s' = disk s ∧ l_config s' = l_config s ∧
  l_wal s' = WAL_Append (l_wal s) (we_Key (op_record o)) (we_Value (op_record o))
               (we_Sequence (op_record o)) (we_Deleted (op_record o)) ∧
  l_sequence s' = u64 (l_sequence s + 1) ∧
  after_op s o s'.
Proof.
  unfold LSM_Put, after_op. simpl. split; [done|]. destruct (MemTable_IsFull _); [|by auto 10].
  match goal with |- context [freeze ?x] => destruct (freeze_cases x) as [->|[-> Hn]] end; auto 10.
Qed.

Lemma LSM_Delete_cases s k :
  let o := MDelete k (u64 (l_sequence s + 1)) in
  let s' := (LSM_Delete s k).1 in
  (LSM_Delete s k).2 = Ok tt ∧ disk s' = disk s ∧ l_config s' = l_config s ∧
  l_wal s' = WAL_Append (l_wal s) (we_Key (op_record o)) (we_Value (op_record o))
               (we_Sequence (op_record o)) (we_Deleted (op_record o)) ∧
  l_sequence s' = u64 (l_sequence s + 1) ∧
  after_op s o s'.
Proof.
  unfold LSM_Delete, after_op. simpl. split; [done|]. destruct (MemTable_IsFull _); [|by auto 10].
  match goal with |- context [freeze ?x] => destruct (freeze_cases x) as [->|[-> Hn]] end; auto 10.
Qed.

Definition lsm_refines (s : LSM) (m : gmap bytes bytes) : Prop := ∃ base, lsm_stores base s m.

Lemma with_counts_stores base s m w r f c :
  lsm_stores base s m → lsm_stores base (with_counts w r f c s) m.
Proof. intros [[Ha Hi Hf Hl] Hm]. split; [split; done|exact Hm]. Qed.

Lemma Put_lsm base s m k v :
  lsm_stores base s m → lsm_fits k v → lsm_stores base (LSM_Put s k v).1 (<[k := v]> m).
Proof.
  intros Hs Hf. destruct (LSM_Put_cases s k v) as (_ & El & _ & _ & _ & Hafter).
  exact (write_spec base s (MPut k v (u64 (l_sequence s + 1))) _ m Hs Hf El Hafter).
Qed.

Lemma Delete_lsm base s m k :
  lsm_stores base s m → lsm_fits k [] → lsm_stores base (LSM_Delete s k).1 (delete k m).
Proof.
  intros Hs Hf. destruct (LSM_Delete_cases s k) as (_ & El & _ & _ & _ & Hafter).
  exact (write_spec base s (MDelete k (u64 (l_sequence s + 1))) _ m Hs Hf El Hafter).
Qed.

Lemma Get_lsm base s m k :
  lsm_stores base s m → (Adapter_Get s k).2 = store_Get m k ∧ lsm_stores base (Adapter_Get s k).1 m.
Proof.
  intros Hs. unfold Adapter_Get, LSM_Get.
  assert (Hs' := with_counts_stores base s m (l_writeCount s) (l_readCount s + 1) (l_flushCount s)
    (l_compactCount s) Hs).
  rewrite (lsm_lookup_value base _ k (proj1 Hs')). unfold store_Get. rewrite (proj2 Hs' k).
  by destruct (lsm_value base _ k).
Qed.

#[local] Instance lsm_stores_map : StoresMap LSM lsm_policy lsm_fits lsm_refines.
Proof.
  split; cbn [se_Put se_Get se_Delete se_Sync lsm_engine].
  - intros s m k v [base Hs] Hf. split; [by destruct (LSM_Put_cases s k v)|]. exists base.
    by apply Put_lsm.
  - intros s m k [base Hs]. destruct (Get_lsm base s m k Hs) as [E Hs']. split; [done|]. by exists base.
  - intros s m k [base Hs] Hf. split; [by destruct (LSM_Delete_cases s k)|]. exists base.
    by apply Delete_lsm.
  - done.
Qed.

Lemma call_lsm base s m c :
  lsm_stores base s m → call_fits lsm_fits c →
  lsm_stores base (se_call s c).1 (store_call lsm_policy m c).1.
Proof.
  intros Hs Hf. destruct c as [k v|k|k|]; simpl in *.
  - exact (Put_lsm base s m k v Hs Hf).
  - destruct (Get_lsm base s m k Hs) as [_ H]. by destruct (Adapter_Get s k).
  - exact (Delete_lsm base s m k Hs Hf).
  - done.
Qed.

(** ** The log *)

Definition op_ok (o : mem_op) : Prop :=
  wal_ok (op_record o) ∧ lsm_fits (me_Key (mem_entry o)) (me_Value (mem_entry o)).

(** The log holds the operations that built the memtables. *)
Definition logged (s : LSM) (ops : list mem_op) : Prop :=
  wal_content (l_wal s) = wal_file (op_record <$> ops) ∧ Forall op_ok ops ∧
  ∀ k, mem_entry_of s k = last_writes ∅ ops !! k.

Lemma fits_op_ok o :
  lsm_fits (me_Key (mem_entry o)) (me_Value (mem_entry o)) → 0 ≤ me_Sequence (mem_entry o) < 2 ^ 64 → op_ok o.
Proof.
  intros Hf Hs. split; [|done]. split; simpl; [|done]. unfold lsm_fits, blockSize in Hf. lia.
Qed.

Lemma logged_write s o s' ops :
  mt_wf (l_active s) → logged s ops → op_ok o → after_op s o s' →
  l_wal s' = WAL_Append (l_wal s) (we_Key (op_record o)) (we_Value (op_record o))
               (we_Sequence (op_record o)) (we_Deleted (op_record o)) →
  logged s' (ops ++ [o]).
Proof.
  intros Hwf (Hw & Hok & Hm) Ho Hafter El. split; [|split].
  - rewrite El, fmap_app. simpl. rewrite <-wal_append_file. simpl. by rewrite Hw.
  - apply Forall_app. split; [done|]. by constructor.
  - intros k. rewrite (after_op_entry s o s' k Hwf Hafter). unfold last_writes. rewrite foldl_app. simpl.
    fold (last_writes ∅ ops).
    case_decide as E; subst; [by rewrite lookup_insert_eq|]. by rewrite lookup_insert_ne.
Qed.

Lemma call_logged base s m c ops :
  lsm_stores base s m → logged s ops → call_fits lsm_fits c → ∃ ops', logged (se_call s c).1 ops'.
Proof.
  intros [[Ha _ _ _] _] Hlog Hf. destruct c as [k v|k|k|]; simpl in *.
  - destruct (LSM_Put_cases s k v) as (_ & _ & _ & Ew & _ & Hafter).
    eexists. eapply (logged_write s _ _ ops Ha Hlog _ Hafter Ew). Unshelve. apply fits_op_ok; [done|apply u64_range].
  - unfold Adapter_Get, LSM_Get. exists ops. by destruct (lsm_lookup _ _) as [[|]| |].
  - destruct (LSM_Delete_cases s k) as (_ & _ & _ & Ew & _ & Hafter).
    eexists. eapply (logged_write s _ _ ops Ha Hlog _ Hafter Ew). Unshelve. apply fits_op_ok; [done|apply u64_range].
  - by exists ops.
Qed.

(** Replaying the log rebuilds the memtable. *)
Lemma replay_ops ops : ∀ s,
  let s' := foldl replay s (op_record <$> ops) in
  l_active s' = foldl mem_step (l_active s) ops ∧ l_immutable s' = l_immutable s ∧
  l_wal s' = l_wal s ∧ disk s' = disk s ∧ l_config s' = l_config s.
Proof.
  induction ops as [|o ops IH]; intros s s'; subst s'; [done|]. rewrite fmap_cons. cbn [foldl].
  destruct (IH (replay s (op_record o))) as (E1 & E2 & E3 & E4 & E5).
  rewrite E1, E2, E3, E4, E5. by destruct o.
Qed.

Lemma mem_steps_fits ops : ∀ m, mt_wf m → mem_fits m → Forall op_ok ops → mem_fits (foldl mem_step m ops).
Proof.
  induction ops as [|o ops IH]; intros m Hwf Hf Hok; simpl; [done|]. apply Forall_cons in Hok as [[_ Ho] Hok].
  apply IH; [by apply mem_step_spec|by apply mem_step_fits|done].
Qed.

(** ** The tables *)

Lemma numbered_snoc ts sst : numbered (ts ++ [sst]) ↔ numbered ts ∧ sst_fileNum sst = len ts.
Proof.
  unfold numbered. rewrite fmap_app, len_app. change (len [sst]) with 1.
  pose proof (len_nonneg ts). rewrite seqZ_app by lia. simpl. change (seqZ (0 + len ts) 1) with [0 + len ts].
  split; [|by intros [-> ->]]. intros E. apply app_inj_2 in E as [? E]; [|done]. by simplify_eq.
Qed.

Lemma numbered_fresh ts n : numbered ts → len ts ≤ n → (0%nat, n) ∉ (dir_entry <$> ts).*1.
Proof.
  intros Hn Hlt Hin. rewrite <-list_fmap_compose in Hin.
  apply list_elem_of_fmap in Hin as (sst & E & Hin). simpl in E. injection E as E.
  assert (H : sst_fileNum sst ∈ sst_fileNum <$> ts) by by apply list_elem_of_fmap_2.
  rewrite Hn in H. apply elem_of_seqZ in H. lia.
Qed.

Section tables.
Context (new_bloom : Z → BloomFilter) (sort_by_min : list SSTable → list SSTable).

(** Adding a table with the next number to L0. *)
Lemma add_table s ts sst :
  disk s = disk_of ts → numbered ts → sst_fileNum sst = len ts →
  disk (with_tables (AddSSTable sort_by_min (l_levels s) sst 0) (len ts + 1)
          (<[(0%nat, len ts) := sst_file sst]> (l_dir s)) s) = disk_of (ts ++ [sst]).
Proof using Type.
  intros E Hn Hnum. unfold disk, disk_of in E. injection E as El _ Ed.
  unfold disk. simpl. rewrite El, Ed. unfold disk_of. rewrite fmap_app, len_app.
  change (dir_entry <$> [sst]) with [((0%nat, sst_fileNum sst), sst_file sst)].
  rewrite Hnum, list_to_map_snoc by (apply numbered_fresh; [done|lia]).
  unfold levels_of, AddSSTable. simpl. unfold set_tables, updateLevelSize. simpl. by rewrite len_app.
Qed.

(** Loading the files of a directory that holds the tables [ts]. *)
Lemma load_tables ts : ∀ s,
  disk s = disk_of [] → numbered ts → Forall reopens ts → len ts < 2 ^ 32 →
  let s' := loadSSTables sort_by_min s (dir_entry <$> ts) in
  disk s' = disk_of ts ∧ mem s' = mem s.
Proof using Type.
  induction ts as [|sst ts IH] using rev_ind; intros s Hd Hn Hr Hlt; [done|].
  apply numbered_snoc in Hn as [Hn Hnum]. apply Forall_app in Hr as [Hr [Ho _]%Forall_cons].
  rewrite len_app in Hlt. change (len [sst]) with 1 in Hlt.
  destruct (IH s Hd Hn Hr ltac:(lia)) as [Ed Em]. unfold loadSSTables in *.
  rewrite fmap_app, foldl_app. cbn [fmap list_fmap foldl].
  set (s1 := foldl (load_file sort_by_min) s (dir_entry <$> ts)) in *.
  unfold dir_entry, load_file. change (Z.of_nat 0) with 0. unfold reopens in Ho. rewrite Ho.
  assert (En : l_nextFileNum s1 = len ts) by (unfold disk, disk_of in Ed; congruence).
  pose proof (len_nonneg ts). rewrite En, Hnum, Z.leb_refl, u64_small by lia.
  split; [by apply add_table|done].
Qed.
End tables.

(** [os.ReadDir] lists the files by name; the names [L%d-%06d.sst] are in the order of the
    level and then the number as long as the number has six digits. *)
Definition file_lt (f g : nat * Z * bytes) : Prop :=
  (f.1.1 < g.1.1)%nat ∨ f.1.1 = g.1.1 ∧ f.1.2 < g.1.2.

Definition listing (d : gmap (nat * Z) bytes) (files : list (nat * Z * bytes)) : Prop :=
  files ≡ₚ map_to_list d ∧ StronglySorted file_lt files.

#[local] Instance file_lt_antisymm : AntiSymm (=) file_lt.
Proof. intros [[l n] x] [[l' n'] x']. unfold file_lt. simpl. intros [?|[-> ?]] [?|[? ?]]; lia. Qed.

Lemma numbered_sorted ts : numbered ts → StronglySorted file_lt (dir_entry <$> ts).
Proof.
  induction ts as [|sst ts IH] using rev_ind; intros Hn; [constructor|].
  apply numbered_snoc in Hn as [Hn Hnum]. rewrite fmap_app. apply StronglySorted_app_2; [|by apply IH|by repeat constructor].
  intros f g Hf Hg. apply list_elem_of_singleton in Hg as ->. apply list_elem_of_fmap in Hf as (x & -> & Hx).
  right. split; [done|]. simpl.
  assert (H : sst_fileNum x ∈ sst_fileNum <$> ts) by by apply list_elem_of_fmap_2.
  rewrite Hn in H. apply elem_of_seqZ in H. lia.
Qed.

Lemma listing_tables ts files :
  numbered ts → listing (list_to_map (dir_entry <$> ts)) files → files = dir_entry <$> ts.
Proof.
  intros Hn [Hp Hs]. apply (StronglySorted_unique file_lt); [done|by apply numbered_sorted|].
  rewrite Hp. apply map_to_list_to_map. rewrite <-list_fmap_compose.
  apply (NoDup_fmap_1 snd). rewrite <-list_fmap_compose.
  change (NoDup (sst_fileNum <$> ts)). rewrite Hn. apply NoDup_seqZ.
Qed.

(** ** Flushing *)

Lemma sst_lookup_entries es k :
  sst_lookup (to_sst <$> es) k = (entries_map me_Key es !! k) ≫= entry_value.
Proof.
  unfold sst_lookup. induction es as [|e es IH]; [done|]. rewrite fmap_cons, !entries_map_cons.
  change (se_Key (to_sst e)) with (me_Key e).
  destruct (decide (me_Key e = k)) as [->|Hne]; [by rewrite !lookup_insert_eq|].
  by rewrite !lookup_insert_ne.
Qed.

Lemma tables_lookup_app a b k :
  tables_lookup (a ++ b) k = match tables_lookup a k with Some v => Some v | None => tables_lookup b k end.
Proof. induction a as [|es a IH]; simpl; [done|]. by destruct (sst_lookup es k). Qed.

Lemma to_sst_sorted es : StronglySorted (key_lt me_Key) es → StronglySorted (key_lt se_Key) (to_sst <$> es).
Proof.
  induction 1 as [|e es Hs IH He]; simpl; constructor; [done|]. apply Forall_fmap.
  eapply Forall_impl; [exact He|]. done.
Qed.

Lemma to_sst_fits m : mem_fits m → Forall entry_fits (to_sst <$> mt_entries m).
Proof.
  intros Hf. apply Forall_fmap. eapply Forall_impl; [exact Hf|]. intros e He.
  unfold compose, entry_fits. rewrite len_ebytes. unfold lsm_fits in He. simpl. lia.
Qed.

Lemma OpenSSTable_file file level fileNum sst :
  OpenSSTable file level fileNum = Ok sst → sst_file sst = file ∧ sst_fileNum sst = fileNum.
Proof.
  unfold OpenSSTable. destruct (_ <? _); [done|]. destruct (negb _); [done|]. intros H.
  repeat match type of H with
         | mbind _ ?x = _ => destruct x as [?|?|]; simpl in H; try done
         | (let '(_, _) := ?p in _) = _ => destruct p; simpl in H
         end.
  by simplify_eq.
Qed.

Section flush.
Context (new_bloom : Z → BloomFilter) (sort_by_min : list SSTable → list SSTable).
Context (new_bloom_wf : ∀ n, 0 < n < 2 ^ 32 → bf_wf (new_bloom n)).

(** A flush appends a table with the entries of the memtable. *)
Lemma flushMemtable_spec s m tables :
  disk_holds (disk s) tables → mt_wf m → mem_fits m → MemTable_Len m < 2 ^ 32 →
  NumFiles (l_levels s) 0 < 3 →
  ∃ s' tables', flushMemtable new_bloom sort_by_min s m = (s', Ok tt) ∧ mem s' = mem s ∧
    disk_holds (disk s') tables' ∧
    ∀ k, tables_lookup tables' k =
         match tables_lookup tables k with Some v => Some v | None => (mt_map m !! k) ≫= entry_value end.
Proof using new_bloom_wf.
  intros (ts & Hd & Hts & Hmax & Hr & Hn) Hwf Hfit Hcount Hroom.
  unfold flushMemtable, MemTable_GetAllEntries. unfold MemTable_Len in Hcount.
  assert (El : l_levels s = levels_of ts) by (unfold disk, disk_of in Hd; congruence).
  assert (En : l_nextFileNum s = len ts) by (unfold disk, disk_of in Hd; congruence).
  assert (Ed : l_dir s = list_to_map (dir_entry <$> ts)) by (unfold disk, disk_of in Hd; congruence).
  rewrite El in Hroom. change (len ts < 3) in Hroom. pose proof (len_nonneg ts).
  destruct (Z.eqb_spec (len (mt_entries m)) 0) as [E0|E0].
  - exists s, tables. split_and!; [done..|by exists ts|]. intros k. unfold mt_map.
    destruct (mt_entries m); [|unfold len in E0; simpl in E0; lia]. by destruct (tables_lookup tables k).
  - destruct (build_open (new_bloom (len (mt_entries m))) (to_sst <$> mt_entries m) 0 (len ts))
      as (file & sst & Eb & Eo & Ht & _ & Hnum).
    + apply new_bloom_wf. pose proof (len_nonneg (mt_entries m)). lia.
    + apply to_sst_sorted, Hwf.
    + by apply to_sst_fits.
    + unfold len in *. by rewrite length_fmap.
    + destruct (OpenSSTable_file _ _ _ _ Eo) as [<- _]. rewrite Eb. simpl l_nextFileNum.
      rewrite En, Eo. eexists _, (tables ++ [to_sst <$> mt_entries m]).
      split; [reflexivity|]. split; [done|]. split.
      * exists (ts ++ [sst]). rewrite len_app. change (len [sst]) with 1. simpl l_levels. simpl l_dir.
        rewrite u64_small by lia. split_and!; [by apply (add_table sort_by_min s ts sst)| | | |].
        -- by apply Forall2_app; [|repeat constructor].
        -- unfold maxL0Files. lia.
        -- apply Forall_app. split; [done|]. constructor; [|done]. unfold reopens. by rewrite Hnum.
        -- by apply numbered_snoc.
      * intros k. rewrite tables_lookup_app. simpl. rewrite sst_lookup_entries. unfold mt_map.
        destruct (tables_lookup tables k); [done|]. by destruct (entries_map me_Key (mt_entries m) !! k ≫= _).
Qed.

(** The immutable memtable may be flushed without changing an answer: there is room in L0
    and the tables hold none of its keys. *)
Definition can_flush (s : LSM) : Prop :=
  match l_immutable s with
  | None => True
  | Some imm =>
      MemTable_Len imm < 2 ^ 32 ∧ NumFiles (l_levels s) 0 < 3 ∧
      Forall (λ e, get_levels (l_levels s) [0; 1; 2; 3; 4]%nat (me_Key e) = Ok None) (mt_entries imm)
  end.

Lemma entries_map_key (es : list MemTableEntry) k e :
  entries_map me_Key es !! k = Some e → e ∈ es ∧ me_Key e = k.
Proof using Type.
  unfold entries_map. intros H. apply elem_of_list_to_map_2, list_elem_of_fmap in H as (x & E & Hx).
  by simplify_eq.
Qed.

Lemma no_compaction d tables s : d = disk s → disk_holds d tables → ∀ i, ShouldCompact (l_levels s) i = false.
Proof using Type.
  intros -> (ts & Hd & _ & Hmax & _) i.
  assert (El : l_levels s = levels_of ts) by (unfold disk, disk_of in Hd; congruence). rewrite El.
  destruct i as [|i]; [|by do 5 (destruct i as [|i]; [done|])].
  unfold ShouldCompact, levels_of, level_tables. simpl. by apply Z.leb_gt.
Qed.

(** The state after a successful flush of the immutable memtable. *)
Lemma flushWorker_cases s tables m :
  lsm_stores tables s m → can_flush s →
  ∃ tables', lsm_stores tables' (flushWorker new_bloom sort_by_min s) m ∧
    (mem (flushWorker new_bloom sort_by_min s) = mem s ∨
     l_active (flushWorker new_bloom sort_by_min s) = l_active s ∧
     l_immutable (flushWorker new_bloom sort_by_min s) = None ∧
     l_wal (flushWorker new_bloom sort_by_min s) = NewWAL None).
Proof using new_bloom_wf.
  intros Hs Hcan. unfold flushWorker. destruct (l_flushChan s); simpl; [|by exists tables; auto].
  unfold can_flush in Hcan. destruct Hs as [[Ha Hi [Hfa Hfi] Hl] Hm].
  destruct (l_immutable s) as [imm|] eqn:Ei.
  - simpl in Hi, Hfi. destruct Hcan as (Hcount & Hroom & Hfresh).
    set (s0 := with_memtables (l_active s) (Some imm) false s).
    destruct (flushMemtable_spec s0 imm tables Hl Hi Hfi Hcount Hroom)
      as (s1 & tables' & -> & Hmem & Hd & Hlook).
    assert (Ea : l_active s1 = l_active s) by (unfold mem in Hmem; simpl in Hmem; congruence).
    simpl. rewrite (no_compaction (disk s1) tables' s1 eq_refl Hd 0).
    exists tables'. split; [|by right]. split; [split; simpl; rewrite ?Ea; done|].
    intros k. rewrite Hm. unfold lsm_value, mem_entry_of. rewrite Ei. simpl. rewrite Ea.
    destruct (mt_map (l_active s) !! k) as [e|]; [done|]. simpl. rewrite Hlook.
    destruct (mt_map imm !! k) as [e|] eqn:Ek; simpl; [|by destruct (tables_lookup tables k)].
    destruct (entries_map_key _ _ _ Ek) as [Hin <-]. rewrite Forall_forall in Hfresh.
    specialize (Hfresh e Hin). rewrite (get_levels_tables s tables _ Hl) in Hfresh. by injection Hfresh as ->.
  - simpl. rewrite (no_compaction (disk s) tables s eq_refl Hl 0). exists tables.
    split; [|left; unfold mem; simpl; by rewrite Ei]. split; [split; simpl; by rewrite ?Ei|].
    intros k. rewrite Hm. unfold lsm_value, mem_entry_of. by rewrite Ei.
Qed.

(** With nothing to merge, the compaction worker only takes its signal. *)
Lemma compactionWorker_idle s tables :
  disk_holds (disk s) tables →
  LSM_compactionWorker new_bloom sort_by_min s = with_compactionChan false s ∨
  LSM_compactionWorker new_bloom sort_by_min s = s.
Proof using Type.
  intros Hd. unfold LSM_compactionWorker. destruct (l_compactionChan s); [left|by right].
  unfold performCompaction. simpl. by rewrite !(no_compaction (disk s) tables s eq_refl Hd).
Qed.
End flush.

(** ** Opening *)

Lemma disk_holds_new : disk_holds (disk_of []) [].
Proof. exists []. split_and!; [done|constructor|done|constructor|done]. Qed.

Section recovery.
Context (new_bloom : Z → BloomFilter) (sort_by_min : list SSTable → list SSTable).
Context (new_bloom_wf : ∀ n, 0 < n < 2 ^ 32 → bf_wf (new_bloom n)).

(** The engine rebuilt from a log and the files of its directory. *)
Lemma recover_spec cfg s tables ops files :
  disk_holds (disk s) tables → logged s ops → listing (l_dir s) files →
  ∃ s', LSM_New sort_by_min cfg (Some (wal_content (l_wal s))) files = (s', Ok tt) ∧
    lsm_inv tables s' ∧ logged s' ops ∧ ∀ k, mem_entry_of s' k = mem_entry_of s k.
Proof using Type.
  intros (ts & Hd & Hts & Hmax & Hr & Hn) (Hw & Hok & Hm) Hfiles.
  assert (Ed : l_dir s = list_to_map (dir_entry <$> ts)) by (unfold disk, disk_of in Hd; congruence).
  rewrite Ed in Hfiles. rewrite (listing_tables ts files Hn Hfiles), Hw.
  unfold LSM_New, recoverFromWAL. simpl l_wal.
  assert (Hoks : Forall wal_ok (op_record <$> ops)).
  { apply Forall_fmap. eapply Forall_impl; [exact Hok|]. by intros o [? _]. }
  assert (Hrd : WAL_ReadAll (NewWAL (Some (wal_file (op_record <$> ops)))) = Ok (op_record <$> ops)).
  { unfold NewWAL. simpl. rewrite <-(app_nil_r (wal_file _)).
    by destruct (ReadAll_file (op_record <$> ops) [] Hoks) as (fuel & _ & ->). }
  rewrite Hrd. set (s0 := MkLSM _ _ _ _ _ _ _ _ _ _ _ _ _ _).
  destruct (replay_ops ops s0) as (E1 & E2 & E3 & E4 & E5).
  destruct (mem_steps_spec ops (l_active s0) (NewMemTable_wf _)) as (Hwf & _ & Hmap).
  set (s1 := foldl replay s0 _) in *.
  destruct (load_tables sort_by_min ts s1) as [Ed2 Em2]; [done..|unfold maxL0Files in Hmax; lia|].
  eexists. split; [reflexivity|]. set (s2 := loadSSTables _ _ _) in *.
  assert (Hmem : l_active s2 = foldl mem_step (l_active s0) ops ∧ l_immutable s2 = None ∧ l_wal s2 = l_wal s0).
  { unfold mem in Em2. rewrite <-E1, <-E3. change None with (l_immutable s0). rewrite <-E2. by simplify_eq. }
  destruct Hmem as (Ea & Ei & Ew).
  assert (Hmem : ∀ k, mem_entry_of s2 k = last_writes ∅ ops !! k).
  { intros k. unfold mem_entry_of. rewrite Ea, Ei, Hmap. simpl. by destruct (last_writes _ ops !! k). }
  split; [split|split; [split; [|split]|]].
  - by rewrite Ea.
  - by rewrite Ei.
  - rewrite Ea, Ei. split; [|done]. apply mem_steps_fits; [apply NewMemTable_wf|constructor|done].
  - by exists ts.
  - by rewrite Ew.
  - done.
  - done.
  - intros k. by rewrite Hm, Hmem.
Qed.

(** The active memtable may be flushed at a close. *)
Definition can_close (s : LSM) : Prop :=
  MemTable_Len (l_active s) < 2 ^ 32 ∧ NumFiles (l_levels s) 0 < 3.

Lemma Close_spec s tables m ops :
  lsm_stores tables s m → logged s ops → can_close s →
  ∃ s' tables', LSM_Close new_bloom sort_by_min s = (s', Ok tt) ∧ lsm_stores tables' s' m ∧ logged s' ops.
Proof using new_bloom_wf.
  intros [[Ha Hi [Hfa Hfi] Hl] Hm] Hlog [Hcount Hroom]. unfold LSM_Close.
  destruct (0 <? MemTable_Len (l_active s)); [|by exists s, tables].
  destruct (flushMemtable_spec new_bloom sort_by_min new_bloom_wf s (l_active s) tables Hl Ha Hfa Hcount Hroom)
    as (s' & tables' & -> & Hmem & Hd & Hlook).
  unfold mem in Hmem. injection Hmem as Ea Ei Ew _. exists s', tables'. split; [done|].
  assert (Hent : ∀ k, mem_entry_of s' k = mem_entry_of s k) by (intros k; unfold mem_entry_of; by rewrite Ea, Ei).
  split; [split; [split; rewrite ?Ea, ?Ei; done|]|].
  - intros k. rewrite Hm. unfold lsm_value. rewrite Hent. destruct (mem_entry_of s k) eqn:E; [done|].
    rewrite Hlook. unfold mem_entry_of in E. destruct (mt_map (l_active s) !! k); [done|].
    by destruct (tables_lookup tables k).
  - destruct Hlog as (Hw & Hok & Hl'). split; [by rewrite Ew|]. split; [done|]. intros k. by rewrite Hent.
Qed.
End recovery.

(** ** Runs of the engine *)

Section runs.
Context (new_bloom : Z → BloomFilter) (sort_by_min : list SSTable → list SSTable).

(** The states of runs in which no flushed key was flushed before, with the map that the
    client wrote.  The flag says that the log and the directory still hold all of it: a
    flush deletes the log, so it keeps the flag only when the active memtable is empty. *)
Inductive lsm_reach : bool → LSM → gmap bytes bytes → Prop :=
| LR_new cfg : lsm_reach true (LSM_New sort_by_min cfg None []).1 ∅
| LR_call d s m c :
    lsm_reach d s m → call_fits lsm_fits c →
    lsm_reach d (se_call s c).1 (store_call lsm_policy m c).1
| LR_flush d s m :
    lsm_reach d s m → can_flush s →
    lsm_reach (d && (MemTable_Len (l_active s) =? 0)) (flushWorker new_bloom sort_by_min s) m
| LR_compact d s m :
    lsm_reach d s m → lsm_reach d (LSM_compactionWorker new_bloom sort_by_min s) m
| LR_crash cfg s m files :
    lsm_reach true s m → listing (l_dir s) files →
    lsm_reach true (LSM_New sort_by_min cfg (Some (wal_content (l_wal s))) files).1 m
| LR_restart cfg s m files :
    lsm_reach true s m → can_close s →
    listing (l_dir (LSM_Close new_bloom sort_by_min s).1) files →
    lsm_reach true
      (LSM_New sort_by_min cfg (Some (wal_content (l_wal (LSM_Close new_bloom sort_by_min s).1))) files).1 m.

Definition reach_inv (d : bool) (s : LSM) (m : gmap bytes bytes) : Prop :=
  ∃ tables, lsm_stores tables s m ∧ (d = true → ∃ ops, logged s ops).

Section invariant.
Context (new_bloom_wf : ∀ n, 0 < n < 2 ^ 32 → bf_wf (new_bloom n)).

Lemma reach_flush d s m :
  reach_inv d s m → can_flush s →
  reach_inv (d && (MemTable_Len (l_active s) =? 0)) (flushWorker new_bloom sort_by_min s) m.
Proof using new_bloom_wf.
  intros (tables & Hs & Hlog) Hcan.
  destruct (flushWorker_cases new_bloom sort_by_min new_bloom_wf s tables m Hs Hcan)
    as (tables' & Hs' & Hmem). exists tables'. split; [done|].
  intros [Hd H0]%andb_true_iff. destruct (Hlog Hd) as (ops & Hw & Hok & Hm).
  destruct Hmem as [Hmem|(Ea & Ei & Ew)].
  - exists ops. unfold mem in Hmem. injection Hmem as Ea Ei Ew _. split; [by rewrite Ew|]. split; [done|].
    intros k. rewrite <-Hm. unfold mem_entry_of. by rewrite Ea, Ei.
  - exists []. split; [by rewrite Ew|]. split; [done|]. intros k. unfold mem_entry_of. rewrite Ea, Ei.
    apply Z.eqb_eq in H0. unfold MemTable_Len, len, mt_map in *. by destruct (mt_entries (l_active s)).
Qed.

Lemma reach_reopen cfg s m files :
  reach_inv true s m → listing (l_dir s) files →
  ∃ s', LSM_New sort_by_min cfg (Some (wal_content (l_wal s))) files = (s', Ok tt) ∧ reach_inv true s' m.
Proof using Type.
  intros (tables & [[_ _ _ Hl] Hm] & Hlog) Hfiles. destruct (Hlog eq_refl) as [ops Hops].
  destruct (recover_spec sort_by_min cfg s tables ops files Hl Hops Hfiles) as (s' & E & Hinv & Hlog' & Hent).
  exists s'. split; [done|]. exists tables. split; [split; [done|]|by exists ops].
  intros k. rewrite Hm. unfold lsm_value. by rewrite Hent.
Qed.

Lemma reach_Close s m :
  reach_inv true s m → can_close s →
  (LSM_Close new_bloom sort_by_min s).2 = Ok tt ∧ reach_inv true (LSM_Close new_bloom sort_by_min s).1 m.
Proof using new_bloom_wf.
  intros (tables & Hs & Hlog) Hcan. destruct (Hlog eq_refl) as [ops Hops].
  destruct (Close_spec new_bloom sort_by_min new_bloom_wf s tables m ops Hs Hops Hcan)
    as (s' & tables' & -> & Hs' & Hops'). split; [done|]. exists tables'. split; [done|]. by exists ops.
Qed.

Lemma reach_new cfg : reach_inv true (LSM_New sort_by_min cfg None []).1 ∅.
Proof using Type.
  exists []. split; [split; [split|]|].
  - apply NewMemTable_wf.
  - done.
  - split; [constructor|done].
  - apply disk_holds_new.
  - done.
  - intros _. exists []. split_and!; done.
Qed.

Lemma lsm_reach_stores d s m : lsm_reach d s m → reach_inv d s m.
Proof using new_bloom_wf.
  induction 1 as [cfg|d s m c _ IH Hf|d s m _ IH Hcan|d s m _ IH|cfg s m files _ IH Hfiles
                  |cfg s m files _ IH Hcan Hfiles].
  - apply reach_new.
  - destruct IH as (tables & Hs & Hlog). exists tables. split; [by apply call_lsm|].
    intros Hd. destruct (Hlog Hd) as [ops Hops]. by apply (call_logged tables s m c ops).
  - by apply reach_flush.
  - destruct IH as (tables & Hs & Hlog).
    destruct (compactionWorker_idle new_bloom sort_by_min s tables (li_disk _ _ (proj1 Hs))) as [->| ->];
      exists tables; [|done].
    split; [|exact Hlog]. destruct Hs as [[Ha Hi Hf Hl] Hm]. split; [split; done|exact Hm].
  - by destruct (reach_reopen cfg s m files IH Hfiles) as (s' & -> & Hs').
  - destruct (reach_Close s m IH Hcan) as [_ Hs].
    by destruct (reach_reopen cfg _ m files Hs Hfiles) as (s' & -> & Hs').
Qed.
End invariant.
End runs.

(** ** What the engine guarantees *)




(** ** Runs on concrete data *)

Definition demo_cfg : LSMConfig := MkLSMConfig "data" 40 4.
Definition demo_new : LSM := (LSM_New demo_sort demo_cfg None []).1.
Definition put (k v : bytes) (s : LSM) : LSM := (se_call s (CPut k v)).1.
Definition del (k : bytes) (s : LSM) : LSM := (se_call s (CDelete k)).1.
Definition flush (s : LSM) : LSM := flushWorker demo_bloom demo_sort s.
Definition big (b : Z) : bytes := replicate 30 b.

(** One full memtable, flushed. *)
Definition demo_flushed : LSM := flush (put [1] (big 7) demo_new).
Definition demo_map : gmap bytes bytes := <[[1] := big 7]> ∅.

Lemma demo_reach : lsm_reach demo_bloom demo_sort true demo_flushed demo_map.
Proof.
  apply (LR_flush demo_bloom demo_sort true (put [1] (big 7) demo_new)).
  - apply (LR_call demo_bloom demo_sort true demo_new ∅ (CPut [1] (big 7))); [apply LR_new|].
    by vm_compute.
  - split; [by vm_compute|split; [by vm_compute|]]. vm_compute. by repeat constructor.
Defined.


(** A further write that is only in the log. *)
Definition demo_more : LSM := put [3] [4] demo_flushed.
Definition demo_more_map : gmap bytes bytes := <[[3] := [4]]> demo_map.

Lemma demo_more_reach : lsm_reach demo_bloom demo_sort true demo_more demo_more_map.
Proof.
  apply (LR_call demo_bloom demo_sort true demo_flushed demo_map (CPut [3] [4]) demo_reach). by vm_compute.
Defined.

Ltac sorted_files :=
  repeat first [apply SSorted_nil | apply SSorted_cons | apply Forall_nil_2 | apply Forall_cons_2
               | by right].

#[local] Instance file_lt_dec : RelDecision file_lt.
Proof. intros f g. unfold file_lt. apply _. Defined.

Definition demo_files (s : LSM) : list (nat * Z * bytes) := merge_sort file_lt (map_to_list (l_dir s)).



(** Where the specification does not extend to flushing a key twice: L0 is searched oldest
    table first, so after two flushes of a key Get returns the older value. *)
Example second_flush_returns_old_value :
  let s := flush (put [1] (big 8) (flush (put [1] (big 7) demo_new))) in
  (Adapter_Get s [1]).2 = Ok (big 7).
Proof. vm_compute. reflexivity. Qed.

(** A tombstone in an SSTable does not stop the search: the deleted key comes back. *)
Example flushed_delete_is_undone :
  let s := flush (put [2] (big 8) (del [1] (flush (put [1] (big 7) demo_new)))) in
  (Adapter_Get s [1]).2 = Ok (big 7).
Proof. vm_compute. reflexivity. Qed.

(** A flush deletes the log together with the records of the active memtable: a crash
    after it loses an acknowledged write. *)
Example flush_drops_log_of_active_memtable :
  let s := flush (put [2] [5] (put [1] (big 7) demo_new)) in
  let s' := (LSM_New demo_sort demo_cfg (Some (wal_content (l_wal s))) (map_to_list (l_dir s))).1 in
  (Adapter_Get s [2]).2 = Ok [5] ∧ (Adapter_Get s' [2]).2 = Err ErrKeyNotFound.
Proof. vm_compute. split; reflexivity. Qed.
