(* ===== verification/LsmIterator.v ===== *)
(** Iterators of the LSM engine ([src/lsm/iterator.go]): the interface with its law, the
    iterator over a memtable, the merging iterator over a heap, and [Scan]. *)
From stdpp Require Import base gmap list strings numbers sorting.
From S2P Require Import Prelude GoLib GoHeap Common LsmMemtable LsmWal LsmLevels LsmEngine LsmTheorems.

Open Scope Z_scope.

(** ** The interface *)

Class Iterator (I : Type) := {
  SeekToFirst : I → I;
  Valid : I → bool;
  Next : I → I;
  Key : I → bytes;
  Value : I → bytes;
}.

(** What an iterator promises: the entries from its position on, which [Next] consumes. *)
Class IteratorSpec (I : Type) `{Iterator I} := {
  remaining : I → list (bytes * bytes);
  remaining_invalid it : Valid it = false → remaining it = [];
  remaining_valid it : Valid it = true → remaining it = (Key it, Value it) :: remaining (Next it);
}.

(** ** Memtables *)

Record MemTableIterator := MkMTI {
  mti_entries : list MemTableEntry;
  mti_index : Z;
}.

Definition NewMemTableIterator (m : MemTable) : MemTableIterator := MkMTI (MemTable_GetAllEntries m) (-1).

Definition entry_at (it : MemTableIterator) (i : Z) : option MemTableEntry :=
  if i <? 0 then None else mti_entries it !! Z.to_nat i.

Definition MTI_SeekToFirst (it : MemTableIterator) : MemTableIterator := MkMTI (mti_entries it) 0.

Definition MTI_Valid (it : MemTableIterator) : bool :=
  match entry_at it (mti_index it) with
  | Some e => negb (me_Deleted e)
  | None => false
  end.

(** [for it.index < len(it.entries) && it.entries[it.index].Deleted { it.index++ }] over the
    entries from the index on. *)
Fixpoint skip_deleted (entries : list MemTableEntry) (index : Z) : Z :=
  match entries with
  | e :: entries => if me_Deleted e then skip_deleted entries (index + 1) else index
  | [] => index
  end.

Definition MTI_Next (it : MemTableIterator) : MemTableIterator :=
  let index := mti_index it + 1 in
  MkMTI (mti_entries it) (skip_deleted (drop (Z.to_nat index) (mti_entries it)) index).

Definition MTI_Key (it : MemTableIterator) : bytes :=
  if negb (MTI_Valid it) then [] else default [] (me_Key <$> entry_at it (mti_index it)).
Definition MTI_Value (it : MemTableIterator) : bytes :=
  if negb (MTI_Valid it) then [] else default [] (me_Value <$> entry_at it (mti_index it)).

#[global] Instance memtable_iterator : Iterator MemTableIterator := {|
  SeekToFirst := MTI_SeekToFirst;
  Valid := MTI_Valid;
  Next := MTI_Next;
  Key := MTI_Key;
  Value := MTI_Value;
|}.

(** ** Merging *)

(** The entry of an iterator, which is given by its place in [iterators]; the sequence
    number of the source is never set. *)
Record MergingIteratorEntry := MkMIE {
  mie_key : bytes;
  mie_value : bytes;
  mie_iter : nat;
  mie_priority : Z;
}.

Definition mie_Less (a b : MergingIteratorEntry) : bool :=
  if bytes_eqb (mie_key a) (mie_key b) then mie_priority a <? mie_priority b
  else bytes_ltb (mie_key a) (mie_key b).

Section merging.
Context {I : Type} `{Iterator I}.

Record MergingIterator := MkMI {
  mi_iterators : list I;
  mi_priorities : list Z;
  mi_heap : list MergingIteratorEntry;
  mi_currentKey : bytes;
  mi_currentValue : bytes;
}.

Definition NewMergingIterator (iterators : list I) (priorities : list Z) : MergingIterator :=
  MkMI iterators priorities (heap_Init mie_Less []) [] [].

Definition MI_Valid (it : MergingIterator) : bool := negb (bytes_eqb (mi_currentKey it) []).
Definition MI_Key (it : MergingIterator) : bytes := mi_currentKey it.
Definition MI_Value (it : MergingIterator) : bytes := mi_currentValue it.

(** [if iter.Valid() { heap.Push(it.heap, ...) }]. *)
Definition push_valid (iter : I) (i : nat) (priority : Z) (h : list MergingIteratorEntry) : list MergingIteratorEntry :=
  if Valid iter then heap_Push mie_Less h (MkMIE (Key iter) (Value iter) i priority) else h.

(** Advance the iterator of an entry that was popped. *)
Definition advance (iters : list I) (e : MergingIteratorEntry) (h : list MergingIteratorEntry)
    : res (list I * list MergingIteratorEntry) :=
  match iters !! mie_iter e with
  | Some iter =>
      let iter := Next iter in
      Ok (<[mie_iter e := iter]> iters, push_valid iter (mie_iter e) (mie_priority e) h)
  | None => Panic
  end.

(** The loop over the duplicates of the current key.  The keys of an iterator increase, so
    there are no more of them than entries in the heap; running out of rounds is a failure. *)
Fixpoint skip_duplicates (fuel : nat) (key : bytes) (iters : list I) (h : list MergingIteratorEntry)
    : res (list I * list MergingIteratorEntry) :=
  match h with
  | [] => Ok (iters, h)
  | peek :: _ =>
      if negb (bytes_eqb (mie_key peek) key) then Ok (iters, h)
      else
        match fuel, heap_Pop mie_Less h with
        | S fuel, Some (e, h) => '(iters, h) ← advance iters e h; skip_duplicates fuel key iters h
        | _, _ => Panic
        end
  end.

Definition MI_Next (it : MergingIterator) : res MergingIterator :=
  match heap_Pop mie_Less (mi_heap it) with
  | None => Ok (MkMI (mi_iterators it) (mi_priorities it) (mi_heap it) [] [])
  | Some (e, h) =>
      '(iters, h) ← advance (mi_iterators it) e h;
      '(iters, h) ← skip_duplicates (length h) (mie_key e) iters h;
      Ok (MkMI iters (mi_priorities it) h (mie_key e) (mie_value e))
  end.

(** The loop of [SeekToFirst], from place [i] on: the iterators and the heap after it. *)
Fixpoint seek_all (iters : list I) (priorities : list Z) (i : nat) (h : list MergingIteratorEntry)
    : res (list I * list MergingIteratorEntry) :=
  match iters, priorities with
  | [], _ => Ok ([], h)
  | iter :: iters, priority :: priorities =>
      let iter := SeekToFirst iter in
      '(iters, h) ← seek_all iters priorities (S i) (push_valid iter i priority h);
      Ok (iter :: iters, h)
  | iter :: iters, [] => if Valid (SeekToFirst iter) then Panic else
      '(iters, h) ← seek_all iters [] (S i) h; Ok (SeekToFirst iter :: iters, h)
  end.

Definition MI_SeekToFirst (it : MergingIterator) : res MergingIterator :=
  '(iters, h) ← seek_all (mi_iterators it) (mi_priorities it) 0 (heap_Init mie_Less []);
  MI_Next (MkMI iters (mi_priorities it) h (mi_currentKey it) (mi_currentValue it)).

(** [for it.Valid() { entries = append(entries, entry{it.Key(), it.Value()}); it.Next() }]. *)
Fixpoint MI_drain (fuel : nat) (it : MergingIterator) : res (list (bytes * bytes)) :=
  if negb (MI_Valid it) then Ok []
  else
    match fuel with
    | O => Panic
    | S fuel =>
        next ← MI_Next it;
        entries ← MI_drain fuel next;
        Ok ((MI_Key it, MI_Value it) :: entries)
    end.
End merging.
Arguments MergingIterator : clear implicits.

(** [start] and [end] are not used, and the tables on disk are not scan_map. *)
Definition LSM_Scan (s : LSM) (start endKey : bytes) : res (MergingIterator MemTableIterator) :=
  let iterators := NewMemTableIterator (l_active s) :: option_list (NewMemTableIterator <$> l_immutable s) in
  MI_SeekToFirst (NewMergingIterator iterators (seqZ 0 (len iterators))).

Definition Adapter_Scan (s : LSM) (start endKey : bytes) : res (MergingIterator MemTableIterator) := LSM_Scan s start endKey.

(** ** The memtable iterator keeps the promise *)

Definition live_entries (entries : list MemTableEntry) : list (bytes * bytes) :=
  (λ e, (me_Key e, me_Value e)) <$> filter (λ e, me_Deleted e = false) entries.

(** A position on a deleted entry is not valid, and nothing is left there. *)
Definition mti_remaining (it : MemTableIterator) : list (bytes * bytes) :=
  if MTI_Valid it then live_entries (drop (Z.to_nat (mti_index it)) (mti_entries it)) else [].

Lemma skip_deleted_spec es i :
  0 ≤ i → let j := skip_deleted es i in
  i ≤ j ∧ live_entries (drop (Z.to_nat (j - i)) es) = live_entries es ∧
  match es !! Z.to_nat (j - i) with Some e => me_Deleted e = false | None => live_entries es = [] end.
Proof.
  revert i. induction es as [|e es IH]; intros i Hi; cbn [skip_deleted].
  { split; [lia|]. by rewrite drop_nil. }
  destruct (me_Deleted e) eqn:E.
  - destruct (IH (i + 1)) as (H1 & H2 & H3); [lia|]. set (j := skip_deleted es (i + 1)) in *. split; [lia|].
    replace (Z.to_nat (j - i)) with (S (Z.to_nat (j - (i + 1)))) by lia. cbn [drop lookup list_lookup].
    assert (El : live_entries (e :: es) = live_entries es) by (unfold live_entries; rewrite filter_cons_False by congruence; done). by rewrite El.
  - rewrite Z.sub_diag. split; [lia|]. split; [done|]. done.
Qed.

#[global, refine] Instance memtable_iterator_spec : IteratorSpec MemTableIterator := {| remaining := mti_remaining |}.
Proof.
  - intros it Hv. unfold mti_remaining. cbn in Hv. by rewrite Hv.
  - intros it Hv. unfold mti_remaining at 1. cbn in Hv. rewrite Hv. cbn [Key Value Next memtable_iterator].
    unfold MTI_Key, MTI_Value. rewrite Hv. cbn [negb]. unfold MTI_Valid, entry_at in Hv |- *.
    destruct (Z.ltb_spec (mti_index it) 0) as [|Hi]; [done|]. destruct (mti_entries it !! Z.to_nat (mti_index it)) as [e|] eqn:E; [|done].
    apply negb_true_iff in Hv. rewrite (drop_S _ _ _ E). unfold live_entries at 1. rewrite filter_cons_True by done. rewrite fmap_cons. f_equal.
    fold (live_entries (drop (S (Z.to_nat (mti_index it))) (mti_entries it))).
    unfold mti_remaining, MTI_Valid, entry_at, MTI_Next. cbn [mti_index mti_entries].
    replace (Z.to_nat (mti_index it + 1)) with (S (Z.to_nat (mti_index it))) by lia.
    set (es := drop (S (Z.to_nat (mti_index it))) (mti_entries it)).
    destruct (skip_deleted_spec es (mti_index it + 1)) as (H1 & H2 & H3); [lia|]. set (j := skip_deleted es (mti_index it + 1)) in *.
    destruct (Z.ltb_spec j 0); [lia|]. unfold es in H2, H3. rewrite drop_drop in H2. rewrite lookup_drop in H3.
    replace (S (Z.to_nat (mti_index it)) + Z.to_nat (j - (mti_index it + 1)))%nat with (Z.to_nat j) in H2, H3 by lia.
    destruct (mti_entries it !! Z.to_nat j) as [e'|]; [|done]. rewrite H3. cbn [negb]. done.
Defined.

(** What the iterator of a memtable shows: nothing when the first entry is a tombstone. *)
Definition shown (m : MemTable) : list (bytes * bytes) :=
  match mt_entries m with
  | e :: es => if me_Deleted e then [] else live_entries (e :: es)
  | [] => []
  end.

Lemma remaining_seek m : remaining (SeekToFirst (NewMemTableIterator m)) = shown m.
Proof.
  unfold shown. cbn [SeekToFirst remaining memtable_iterator memtable_iterator_spec].
  unfold mti_remaining, MTI_Valid, entry_at, MTI_SeekToFirst, NewMemTableIterator, MemTable_GetAllEntries. cbn [mti_index mti_entries].
  change (0 <? 0) with false. change (Z.to_nat 0) with 0%nat. cbv iota. rewrite drop_0.
  destruct (mt_entries m) as [|e es]; [done|]. change ((e :: es) !! 0%nat) with (Some e). cbv iota. by destruct (me_Deleted e).
Qed.

(** ** The order of the heap *)

Abbreviation mie_le := (GoHeap.le mie_Less).

Lemma mie_le_spec a b :
  mie_le a b ↔ bytes_lt (mie_key a) (mie_key b) ∨ (mie_key a = mie_key b ∧ mie_priority a ≤ mie_priority b).
Proof.
  unfold GoHeap.le, mie_Less. destruct (bytes_eqb (mie_key b) (mie_key a)) eqn:E; simpl.
  - apply bytes_eqb_eq in E. rewrite E. rewrite Z.ltb_ge. split; [auto|]. intros [H|[_ H]]; [|done].
    by apply bytes_lt_irrefl in H.
  - unfold bytes_eqb in E. apply bool_decide_eq_false in E. rewrite bytes_ltb_nlt, bytes_le_lteq.
    split; [intros [H|H]; [by left|by rewrite H in E]|]. intros [H|[H _]]; [by left|by rewrite H in E].
Qed.

Lemma mie_le_key a b : mie_le a b → bytes_le (mie_key a) (mie_key b).
Proof. rewrite mie_le_spec, bytes_le_lteq. intros [H|[H _]]; auto. Qed.

Lemma mie_le_trans a b c : mie_le a b → mie_le b c → mie_le a c.
Proof.
  rewrite !mie_le_spec. intros [H1|[E1 H1]] [H2|[E2 H2]].
  - left. by eapply bytes_lt_trans.
  - left. by rewrite <-E2.
  - left. by rewrite E1.
  - right. split; [congruence|lia].
Qed.

Lemma mie_le_total a b : mie_le a b ∨ mie_le b a.
Proof.
  rewrite !mie_le_spec. destruct (trichotomyT bytes_lt (mie_key a) (mie_key b)) as [[H|H]|H]; auto.
  destruct (Z.le_ge_cases (mie_priority a) (mie_priority b)); [left|right]; right; split; auto.
Qed.

(** ** The state of the merge *)

Section merge.
Context {I : Type} `{IteratorSpec I}.

Definition ascending (l : list (bytes * bytes)) : Prop := StronglySorted (λ x y, bytes_lt x.1 y.1) l.

(** The heap holds the head of every iterator that is valid, the iterators of [busy] apart. *)
Record heap_holds (prios : list Z) (busy : list nat) (iters : list I) (h : list MergingIteratorEntry) : Prop := {
  hh_ok : heap_ok mie_Less h;
  hh_nodup : NoDup (mie_iter <$> h);
  hh_entry e : e ∈ h → ∃ iter rest, iters !! mie_iter e = Some iter ∧ (mie_iter e ∉ busy) ∧
    remaining iter = (mie_key e, mie_value e) :: rest ∧ prios !! mie_iter e = Some (mie_priority e);
  hh_all i iter : iters !! i = Some iter → i ∉ busy → i ∉ mie_iter <$> h → remaining iter = [];
}.

Lemma remaining_cases iter : (Valid iter = true ∧ remaining iter = (Key iter, Value iter) :: remaining (Next iter)) ∨ (Valid iter = false ∧ remaining iter = []).
Proof using Type*.
  destruct (Valid iter) eqn:E; [left|right]; (split; [done|]); [by apply remaining_valid|by apply remaining_invalid].
Qed.

(** The heap with at most the head of an iterator added. *)
Definition grown (iter : I) (h h' : list MergingIteratorEntry) : Prop :=
  h' ≡ₚ h ∨ ∃ e, h' ≡ₚ e :: h ∧ remaining iter = (mie_key e, mie_value e) :: remaining (Next iter).

(** Putting the head of an iterator back. *)
Lemma push_valid_ok prios iters h i iter p :
  heap_holds prios [i] iters h → iters !! i = Some iter → prios !! i = Some p →
  heap_holds prios [] iters (push_valid iter i p h) ∧
  grown iter h (push_valid iter i p h).
Proof using Type*.
  intros [H1 H2 H3 H4] Hi Hp. unfold push_valid. destruct (remaining_cases iter) as [[-> Er]|[-> Er]].
  - destruct (heap_Push_spec mie_Less mie_le_trans mie_le_total h (MkMIE (Key iter) (Value iter) i p) H1) as [Hok Hperm].
    assert (Hni : i ∉ mie_iter <$> h).
    { intros (e & -> & He)%list_elem_of_fmap. destruct (H3 e He) as (? & ? & _ & Hb & _). apply Hb. by left. }
    split; [split|].
    + done.
    + rewrite Hperm, fmap_cons. by apply NoDup_cons.
    + intros e. rewrite Hperm. intros [->|He]%elem_of_cons.
      * exists iter, (remaining (Next iter)). cbn [mie_iter mie_key mie_value mie_priority]. split_and!; try done. by intros ?%elem_of_nil.
      * destruct (H3 e He) as (iter' & rest & E1 & E2 & E3 & E4). exists iter', rest. split_and!; try done. by intros ?%elem_of_nil.
    + intros j iter' Hj _. rewrite Hperm, fmap_cons, not_elem_of_cons. intros [Hne Hnj]. apply (H4 j); [done| |done].
      cbn in Hne. by rewrite list_elem_of_singleton.
    + right. by eexists.
  - split; [split|].
    + done.
    + done.
    + intros e He. destruct (H3 e He) as (iter' & rest & E1 & E2 & E3 & E4). exists iter', rest. split_and!; try done. by intros ?%elem_of_nil.
    + intros j iter' Hj _ Hnj. destruct (decide (j = i)) as [->|Hne]; [congruence|]. apply (H4 j); [done| |done].
      by rewrite list_elem_of_singleton.
    + by left.
Qed.

(** Popping the smallest head and advancing its iterator. *)
Lemma advance_ok prios iters e h h' :
  heap_holds prios [] iters (e :: h) → h' ≡ₚ h → heap_ok mie_Less h' →
  ∃ iter iters' h2, iters !! mie_iter e = Some iter ∧ iters' = <[mie_iter e := Next iter]> iters ∧
    advance iters e h' = Ok (iters', h2) ∧ heap_holds prios [] iters' h2 ∧
    remaining iter = (mie_key e, mie_value e) :: remaining (Next iter) ∧
    grown (Next iter) h h2.
Proof using Type*.
  intros [H1 H2 H3 H4] Hp Hok. destruct (H3 e) as (iter & rest & Ei & _ & Er & Epr); [by left|].
  rewrite fmap_cons in H2. apply NoDup_cons in H2 as [Hni H2]. pose proof (lookup_lt_Some _ _ _ Ei) as Hlt.
  destruct (remaining_cases iter) as [[_ Er']|[_ Er']]; [|congruence].
  assert (Hopen : heap_holds prios [mie_iter e] (<[mie_iter e := Next iter]> iters) h').
  { split.
    - done.
    - by rewrite Hp.
    - intros x. rewrite Hp. intros Hx. destruct (H3 x) as (it2 & rest2 & E1 & _ & E3 & E4); [by right|].
      assert (Hne : mie_iter x ≠ mie_iter e) by (intros E; apply Hni; rewrite <-E; by apply list_elem_of_fmap_2).
      exists it2, rest2. rewrite list_lookup_insert_ne by done. split_and!; try done. by rewrite list_elem_of_singleton.
    - intros j it2 Hj Hb Hnj. rewrite list_elem_of_singleton in Hb. rewrite list_lookup_insert_ne in Hj by done.
      rewrite Hp in Hnj. apply (H4 j); [done|by intros ?%elem_of_nil|]. rewrite fmap_cons. by apply not_elem_of_cons. }
  destruct (push_valid_ok prios _ h' (mie_iter e) (Next iter) (mie_priority e) Hopen) as [Hh Hx]; [by apply list_lookup_insert_eq|done|].
  exists iter, (<[mie_iter e := Next iter]> iters), (push_valid (Next iter) (mie_iter e) (mie_priority e) h'). split; [done|]. split; [done|].
  split; [unfold advance; by rewrite Ei|]. split; [done|]. split; [congruence|].
  unfold grown in *. by setoid_rewrite <-Hp.
Qed.

(** *** One step *)

Definition ascend_from (k : bytes) (iters : list I) : Prop :=
  ∀ i iter, iters !! i = Some iter → ascending (remaining iter) ∧ Forall (λ x, bytes_le k x.1) (remaining iter).

Definition drop_key (k : bytes) (l : list (bytes * bytes)) : list (bytes * bytes) :=
  match l with
  | x :: l' => if decide (x.1 = k) then l' else l
  | [] => []
  end.

(** Every iterator moved past the key. *)
Definition dropped (k : bytes) (iters iters' : list I) : Prop :=
  Forall2 (λ a b, remaining b = drop_key k (remaining a)) iters iters'.

Lemma ascending_tail k v l x : ascending ((k, v) :: l) → x ∈ l → bytes_lt k x.1.
Proof using Type. intros Hs Hx. inversion_clear Hs as [|? ? _ Hf]. rewrite Forall_forall in Hf. by apply (Hf x). Qed.

Lemma drop_key_ne k l : Forall (λ x, x.1 ≠ k) l → drop_key k l = l.
Proof using Type. destruct l as [|x l]; [done|]. intros [Hx _]%Forall_cons. simpl. by rewrite decide_False. Qed.

Lemma heap_min h x y : heap_ok mie_Less (x :: h) → y ∈ x :: h → mie_le x y.
Proof using Type.
  intros Hok [->|Hy]%elem_of_cons; [apply GoHeap.le_refl, mie_le_total|].
  destruct (heap_Pop_spec mie_Less mie_le_trans mie_le_total x h Hok) as (? & _ & _ & _ & Hm). by apply Hm.
Qed.

(** The smallest head is a lower bound of everything. *)
Lemma head_bound prios iters x h :
  heap_holds prios [] iters (x :: h) → (∀ i iter, iters !! i = Some iter → ascending (remaining iter)) → ascend_from (mie_key x) iters.
Proof using Type*.
  intros [H1 H2 H3 H4] Hs i iter Hi. split; [by eapply Hs|]. apply Forall_forall. intros y Hy.
  destruct (decide (i ∈ mie_iter <$> x :: h)) as [Hin|Hout].
  - apply list_elem_of_fmap in Hin as (e & -> & He). destruct (H3 e He) as (iter' & rest & E1 & _ & E3 & _).
    assert (iter' = iter) as -> by congruence. pose proof (mie_le_key _ _ (heap_min h x e H1 He)) as Hle. rewrite E3 in Hy.
    apply elem_of_cons in Hy as [->|Hy]; [done|]. pose proof (Hs _ _ Hi) as Ha. rewrite E3 in Ha.
    eapply bytes_le_trans; [exact Hle|]. by eapply bytes_lt_le, ascending_tail.
  - rewrite (H4 i iter Hi) in Hy; [by apply elem_of_nil in Hy|by intros ?%elem_of_nil|done].
Qed.

Lemma dropped_none k iters : (∀ i iter, iters !! i = Some iter → Forall (λ x, x.1 ≠ k) (remaining iter)) → dropped k iters iters.
Proof using Type.
  intros Hn. apply Forall2_same_length_lookup. split; [done|]. intros i a b Ha Hb. simplify_eq. symmetry. by eapply drop_key_ne, Hn.
Qed.

Lemma ascend_step k v iters i iter :
  ascend_from k iters → iters !! i = Some iter → remaining iter = (k, v) :: remaining (Next iter) →
  ascend_from k (<[i := Next iter]> iters) ∧ Forall (λ x, x.1 ≠ k) (remaining (Next iter)).
Proof using Type.
  intros Ha Hi Er. destruct (Ha i iter Hi) as [Hs Hf]. rewrite Er in Hs, Hf. split.
  - intros j it Hj. apply list_lookup_insert_Some in Hj as [(-> & <- & _)|[_ Hj]]; [|by eapply Ha].
    split; [by inversion_clear Hs|]. by apply Forall_cons in Hf as [_ ?].
  - apply Forall_forall. intros x Hx E. pose proof (ascending_tail _ _ _ _ Hs Hx) as Hlt. rewrite E in Hlt. by apply bytes_lt_irrefl in Hlt.
Qed.

Lemma dropped_step k v iters i iter iters' :
  iters !! i = Some iter → remaining iter = (k, v) :: remaining (Next iter) → Forall (λ x, x.1 ≠ k) (remaining (Next iter)) →
  dropped k (<[i := Next iter]> iters) iters' → dropped k iters iters'.
Proof using Type.
  intros Hi Er Hn Hd. unfold dropped in *. rewrite Forall2_same_length_lookup in Hd |- *. destruct Hd as [Hl Hd].
  rewrite length_insert in Hl. split; [done|]. intros j a b Ha Hb. destruct (decide (j = i)) as [->|Hne].
  - assert (a = iter) as -> by congruence. rewrite (Hd i (Next iter) b); [|by apply list_lookup_insert_eq, lookup_lt_Some with iter|done].
    rewrite Er. cbn [drop_key fst]. rewrite decide_True by done. by apply drop_key_ne.
  - apply (Hd j); [by rewrite list_lookup_insert_ne|done].
Qed.

Definition count_key (k : bytes) (h : list MergingIteratorEntry) : nat := length (filter (λ e, mie_key e = k) h).

Lemma count_key_perm k h h' : h ≡ₚ h' → count_key k h = count_key k h'.
Proof using Type. intros Hp. unfold count_key. by rewrite Hp. Qed.

Lemma count_key_cons k e h : count_key k (e :: h) = ((if decide (mie_key e = k) then 1 else 0) + count_key k h)%nat.
Proof using Type. unfold count_key. rewrite filter_cons. by case_decide. Qed.

(** The smallest head is another key: no iterator is at the key. *)
Lemma nothing_dropped prios k iters x h :
  heap_holds prios [] iters (x :: h) → ascend_from k iters → bytes_eqb (mie_key x) k = false → dropped k iters iters.
Proof using Type*.
  intros Hh Ha E. unfold bytes_eqb in E. apply bool_decide_eq_false in E. apply dropped_none. intros i iter Hi.
  destruct (head_bound prios iters x h Hh (λ i iter Hi, proj1 (Ha i iter Hi)) i iter Hi) as [_ Hf]. eapply Forall_impl; [exact Hf|].
  intros y Hy Ey. simpl in Hy. rewrite Ey in Hy. destruct (hh_entry _ _ _ _ Hh x) as (itx & rest & E1 & _ & E3 & _); [by left|].
  destruct (Ha _ _ E1) as [_ Hx]. rewrite E3 in Hx. apply Forall_cons in Hx as [Hx _]. simpl in Hx.
  apply bytes_le_lteq in Hx as [Hx|Hx]; [by apply bytes_nlt_le in Hy|by rewrite Hx in E].
Qed.

Lemma skip_ok prios k fuel : ∀ iters h,
  heap_holds prios [] iters h → ascend_from k iters → (count_key k h ≤ fuel)%nat →
  ∃ iters' h', skip_duplicates fuel k iters h = Ok (iters', h') ∧ heap_holds prios [] iters' h' ∧ dropped k iters iters'.
Proof using Type*.
  induction fuel as [|fuel IH]; intros iters h Hh Ha Hc; (destruct h as [|x h];
    [exists iters, []; split; [done|]; split; [done|]; apply dropped_none; intros i iter Hi;
     rewrite (hh_all _ _ _ _ Hh i iter Hi); [constructor|by intros ?%elem_of_nil..]|]);
    cbn [skip_duplicates]; destruct (bytes_eqb (mie_key x) k) eqn:E; cbn [negb].
  1,3: apply bytes_eqb_eq in E.
  1: rewrite count_key_cons, decide_True in Hc by done; lia.
  - destruct (heap_Pop_spec mie_Less mie_le_trans mie_le_total x h (hh_ok _ _ _ _ Hh)) as (h1 & -> & Hp & Hok & _).
    destruct (advance_ok prios iters x h h1 Hh Hp Hok) as (iter & iters1 & h2 & Ei & -> & -> & Hh2 & Er & Hg). cbn [mbind res_bind].
    rewrite E in Er. destruct (ascend_step k (mie_value x) iters _ iter Ha Ei Er) as [Ha2 Hn].
    rewrite count_key_cons, decide_True in Hc by done.
    destruct (IH (<[mie_iter x := Next iter]> iters) h2 Hh2 Ha2) as (iters' & h' & Es & Hh' & Hd).
    { destruct Hg as [Hg|(e & Hg & Ee)]; rewrite (count_key_perm k _ _ Hg); [lia|]. rewrite count_key_cons, decide_False; [lia|].
      rewrite Ee in Hn. by apply Forall_cons in Hn as [? _]. }
    exists iters', h'. split; [done|]. split; [done|]. by eapply dropped_step.
  - exists iters, (x :: h). split; [done|]. split; [done|]. by eapply nothing_dropped.
  - exists iters, (x :: h). split; [done|]. split; [done|]. by eapply nothing_dropped.
Qed.

(** *** The map that is left *)

(** An earlier iterator hides the later ones. *)
Fixpoint merged_map (iters : list I) : gmap bytes bytes :=
  match iters with
  | [] => ∅
  | iter :: iters => list_to_map (remaining iter) ∪ merged_map iters
  end.

Lemma list_to_map_None' (l : list (bytes * bytes)) k : Forall (λ x, x.1 ≠ k) l → (list_to_map l : gmap bytes bytes) !! k = None.
Proof using Type.
  intros Hf. apply not_elem_of_list_to_map. intros (x & -> & Hx)%list_elem_of_fmap. rewrite Forall_forall in Hf. by apply (Hf x).
Qed.

Lemma drop_key_map k l :
  ascending l → Forall (λ x, bytes_le k x.1) l → (list_to_map (drop_key k l) : gmap bytes bytes) = delete k (list_to_map l).
Proof using Type.
  intros Hs Hf. destruct l as [|[k' v] l]; [symmetry; apply delete_empty|]. simpl.
  assert (Hl : ∀ x, x ∈ l → bytes_lt k' x.1) by (intros x; by eapply ascending_tail).
  apply Forall_cons in Hf as [Hk Hf]. simpl in Hk. case_decide as E.
  - simpl in E. subst k'. rewrite delete_insert_id; [done|]. apply list_to_map_None', Forall_forall. intros x Hx Ex.
    specialize (Hl x Hx). rewrite Ex in Hl. by apply bytes_lt_irrefl in Hl.
  - simpl in *. rewrite delete_id; [done|]. rewrite lookup_insert_ne by done. apply list_to_map_None', Forall_forall. intros x Hx Ex.
    specialize (Hl x Hx). rewrite Ex in Hl. apply bytes_le_lteq in Hk as [Hk|Hk]; [|done]. by apply (bytes_lt_asym k k').
Qed.

Lemma dropped_merged k iters iters' :
  ascend_from k iters → dropped k iters iters' → merged_map iters' = delete k (merged_map iters).
Proof using Type.
  intros Ha Hd. induction Hd as [|a b iters iters' E Hd IH]; [symmetry; apply delete_empty|]. cbn [merged_map].
  rewrite IH by (intros i iter Hi; by apply (Ha (S i))). destruct (Ha 0%nat a eq_refl) as [H1 H2].
  rewrite E, drop_key_map by done. by rewrite delete_union.
Qed.

Lemma dropped_ascending k iters iters' :
  (∀ i iter, iters !! i = Some iter → ascending (remaining iter)) → dropped k iters iters' →
  ∀ i iter, iters' !! i = Some iter → ascending (remaining iter).
Proof using Type.
  intros Ha Hd i b Hb. destruct (Forall2_lookup_r _ _ _ _ _ Hd Hb) as (a & Ea & E). rewrite E. pose proof (Ha i a Ea) as Hs.
  destruct (remaining a) as [|x l]; [constructor|]. simpl. case_decide; [by inversion_clear Hs|done].
Qed.

Lemma merged_first iters i iter k v rest :
  iters !! i = Some iter → remaining iter = (k, v) :: rest →
  (∀ j it, (j < i)%nat → iters !! j = Some it → Forall (λ x, x.1 ≠ k) (remaining it)) → merged_map iters !! k = Some v.
Proof using Type.
  revert i. induction iters as [|it iters IH]; intros [|i] Hi Er Hf; simpl in Hi; try done; cbn [merged_map].
  - simplify_eq. apply lookup_union_Some_l. rewrite Er. simpl. by apply lookup_insert_eq.
  - rewrite lookup_union_r; [|apply list_to_map_None'; by apply (Hf 0%nat); [lia|]]. apply (IH i); [done|done|].
    intros j it' Hj Hit. by apply (Hf (S j)); [lia|].
Qed.

Lemma merged_from k iters k' : ascend_from k iters → is_Some (merged_map iters !! k') → bytes_le k k'.
Proof using Type.
  intros Ha. induction iters as [|it iters IH]; cbn [merged_map]; [by intros []|]. intros Hs. apply lookup_union_is_Some in Hs as [[v Hv]|Hs].
  - apply elem_of_list_to_map_2 in Hv. destruct (Ha 0%nat it eq_refl) as [_ Hf]. rewrite Forall_forall in Hf. by apply (Hf _ Hv).
  - apply IH; [|done]. intros i iter Hi. by apply (Ha (S i)).
Qed.

(** *** Next *)

(** Priorities increase with the place of the iterator. *)
Definition increasing (prios : list Z) : Prop := ∀ i j p q, prios !! i = Some p → prios !! j = Some q → (i < j)%nat → p < q.

Record mi_ok (it : MergingIterator I) : Prop := {
  mo_heap : heap_holds (mi_priorities it) [] (mi_iterators it) (mi_heap it);
  mo_sorted i iter : mi_iterators it !! i = Some iter → ascending (remaining iter);
  mo_prios : increasing (mi_priorities it);
}.

Definition left_over (it : MergingIterator I) : gmap bytes bytes := merged_map (mi_iterators it).

Lemma merged_nil iters : (∀ i iter, iters !! i = Some iter → remaining iter = []) → merged_map iters = ∅.
Proof using Type.
  induction iters as [|it iters IH]; intros Hn; [done|]. cbn [merged_map]. rewrite (Hn 0%nat it eq_refl), IH; [done|].
  intros i iter Hi. by apply (Hn (S i)).
Qed.

(** No iterator before the one of the smallest head has its key. *)
Lemma before_smallest prios iters x h j it :
  heap_holds prios [] iters (x :: h) → (∀ i iter, iters !! i = Some iter → ascending (remaining iter)) → increasing prios →
  (j < mie_iter x)%nat → iters !! j = Some it → Forall (λ y, y.1 ≠ mie_key x) (remaining it).
Proof using Type*.
  intros Hh Hs Hp Hj Hit. destruct (head_bound prios iters x h Hh Hs j it Hit) as [Ha Hf].
  destruct (decide (j ∈ mie_iter <$> x :: h)) as [Hin|Hout]; [|by rewrite (hh_all _ _ _ _ Hh j it Hit) by (done || by intros ?%elem_of_nil)].
  apply list_elem_of_fmap in Hin as (e & -> & He). destruct (hh_entry _ _ _ _ Hh e He) as (it' & rest & E1 & _ & E3 & E4).
  assert (it' = it) as -> by congruence. destruct (hh_entry _ _ _ _ Hh x) as (itx & restx & _ & _ & _ & Ex); [by left|].
  pose proof (Hp _ _ _ _ E4 Ex Hj) as Hlt. pose proof (heap_min h x e (hh_ok _ _ _ _ Hh) He) as Hm. apply mie_le_spec in Hm.
  rewrite E3 in *. assert (Hk : bytes_lt (mie_key x) (mie_key e)) by (destruct Hm as [?|[_ ?]]; [done|lia]).
  constructor; simpl; [intros E; rewrite E in Hk; by apply bytes_lt_irrefl in Hk|]. apply Forall_forall. intros y Hy E.
  pose proof (ascending_tail _ _ _ _ Ha Hy) as Hl. rewrite E in Hl. by apply (bytes_lt_asym (mie_key x) (mie_key e)).
Qed.

(** One step from [it] to [it']: the end, or the smallest key of what was left. *)
Definition stepped (it it' : MergingIterator I) : Prop :=
  (left_over it = ∅ ∧ MI_Key it' = []) ∨
  (left_over it !! MI_Key it' = Some (MI_Value it') ∧ left_over it' = delete (MI_Key it') (left_over it) ∧
   ∀ k, is_Some (left_over it !! k) → bytes_le (MI_Key it') k).

Lemma MI_Next_ok it : mi_ok it → ∃ it', MI_Next it = Ok it' ∧ mi_ok it' ∧ stepped it it'.
Proof using Type*.
  intros [Hh Hs Hp]. unfold MI_Next, stepped, left_over. destruct (mi_heap it) as [|x h] eqn:E.
  - eexists. split; [reflexivity|]. split; [by split|]. left. split; [|done]. apply merged_nil. intros i iter Hi.
    apply (hh_all _ _ _ _ Hh i iter Hi); by intros ?%elem_of_nil.
  - destruct (heap_Pop_spec mie_Less mie_le_trans mie_le_total x h (hh_ok _ _ _ _ Hh)) as (h1 & -> & Hperm & Hok & _).
    pose proof (head_bound _ _ _ _ Hh Hs) as Ha.
    destruct (advance_ok _ _ x h h1 Hh Hperm Hok) as (iter & iters1 & h2 & Ei & -> & -> & Hh2 & Er & _). cbn [mbind res_bind].
    destruct (ascend_step _ _ _ _ iter Ha Ei Er) as [Ha2 Hn].
    destruct (skip_ok _ (mie_key x) (length h2) _ h2 Hh2 Ha2) as (iters' & h' & -> & Hh' & Hd); [apply length_filter|].
    cbn [mbind res_bind]. pose proof (dropped_step _ _ _ _ _ _ Ei Er Hn Hd) as Hd'.
    eexists. split; [reflexivity|]. split; [split; [done|by eapply dropped_ascending|done]|]. right. cbn.
    split; [|split; [by apply dropped_merged|intros k; by apply merged_from]].
    eapply merged_first; [exact Ei|exact Er|]. intros j it2 Hj Hit. by eapply before_smallest.
Qed.

(** *** Draining *)

(** Sorted entries that list a map. *)
Definition lists_map (m : gmap bytes bytes) (es : list (bytes * bytes)) : Prop :=
  ascending es ∧ ∀ k v, (k, v) ∈ es ↔ m !! k = Some v.

Lemma lists_map_cons m k v es :
  m !! k = Some v → (∀ k', is_Some (m !! k') → bytes_le k k') → lists_map (delete k m) es → lists_map m ((k, v) :: es).
Proof using Type.
  intros Hk Hmin [Hs He]. split.
  - constructor; [done|]. apply Forall_forall. intros [k' v'] Hin. apply He in Hin. apply lookup_delete_Some in Hin as [Hne Hin].
    simpl. destruct (proj1 (bytes_le_lteq _ _) (Hmin k' ltac:(by eexists))) as [|E]; [done|by destruct Hne].
  - intros k' v'. rewrite elem_of_cons, He. split.
    + intros [[= -> ->]|Hin]; [done|]. by apply lookup_delete_Some in Hin as [_ ?].
    + intros Hk'. destruct (decide (k = k')) as [->|Hne]; [left; congruence|right]. by rewrite lookup_delete_ne.
Qed.

(** What was left before a step is what the loop reads after it. *)
Lemma MI_drain_ok fuel : ∀ it it',
  mi_ok it' → stepped it it' → left_over it !! [] = None → (size (left_over it) ≤ fuel)%nat →
  ∃ es, MI_drain fuel it' = Ok es ∧ lists_map (left_over it) es.
Proof using Type*.
  induction fuel as [|fuel IH]; intros it it' Hok [[Hnil Hk]|(Hk & Hl & Hmin)] Hne Hf.
  1,3: exists []; assert (Hv : MI_Valid it' = false) by (unfold MI_Valid, MI_Key in *; by rewrite Hk);
    cbn [MI_drain]; rewrite Hv, Hnil; split; [done|]; split; [constructor|]; intros k v; split; [by intros ?%elem_of_nil|done].
  - assert (Ez : size (left_over it) = 0%nat) by lia. apply map_size_empty_iff in Ez. by rewrite Ez in Hk.
  - assert (Hv : MI_Valid it' = true).
    { unfold MI_Valid. apply negb_true_iff, bool_decide_eq_false. intros Ek. unfold MI_Key in Hk. congruence. }
    cbn [MI_drain]. rewrite Hv. cbn [negb]. destruct (MI_Next_ok it' Hok) as (it2 & -> & Hok2 & Hst). cbn [mbind res_bind].
    destruct (IH it' it2 Hok2 Hst) as (es & -> & Hes).
    + rewrite Hl. apply lookup_delete_None. by right.
    + rewrite Hl, map_size_delete, Hk. lia.
    + eexists. split; [reflexivity|]. apply lists_map_cons; [done|done|]. by rewrite <-Hl.
Qed.

(** *** Seeking *)

(** Iterators that are not valid, or not there yet, have no entry in the heap. *)
Lemma heap_holds_snoc prios iters h iter :
  heap_holds prios [] iters h → heap_holds prios [length iters] (iters ++ [iter]) h.
Proof using Type.
  intros [H1 H2 H3 H4]. split; [done|done| |].
  - intros e He. destruct (H3 e He) as (it & rest & E1 & _ & E3 & E4). pose proof (lookup_lt_Some _ _ _ E1) as Hlt.
    exists it, rest. split_and!; try done; [by rewrite lookup_app_l|]. rewrite list_elem_of_singleton. lia.
  - intros j it Hj Hb Hnj. rewrite list_elem_of_singleton in Hb. pose proof (lookup_lt_Some _ _ _ Hj) as Hlt.
    rewrite length_app in Hlt. simpl in Hlt. rewrite lookup_app_l in Hj by lia. apply (H4 j); [done|by intros ?%elem_of_nil|done].
Qed.

Lemma seek_all_ok todo : ∀ before prios h,
  heap_holds (before.*2 ++ prios) [] before.*1 h → length prios = length todo →
  ∃ h', seek_all todo prios (length before) h = Ok (SeekToFirst <$> todo, h') ∧
        heap_holds (before.*2 ++ prios) [] (before.*1 ++ (SeekToFirst <$> todo)) h'.
Proof using Type*.
  induction todo as [|iter todo IH]; intros before [|p prios] h Hh Hl; try done; cbn [seek_all].
  { exists h. split; [done|]. rewrite fmap_nil. by rewrite (app_nil_r before.*1). }
  set (sought := SeekToFirst iter). apply (heap_holds_snoc _ _ _ sought) in Hh. rewrite length_fmap in Hh.
  destruct (push_valid_ok (before.*2 ++ p :: prios) (before.*1 ++ [sought]) h (length before) sought p Hh) as [Hh' _].
  { rewrite lookup_app_r by (by rewrite length_fmap). by rewrite length_fmap, Nat.sub_diag. }
  { rewrite lookup_app_r by (by rewrite length_fmap). by rewrite length_fmap, Nat.sub_diag. }
  destruct (IH (before ++ [(sought, p)]) prios (push_valid sought (length before) p h)) as (h' & Es & He).
  - by rewrite !fmap_app, <-app_assoc.
  - by injection Hl.
  - rewrite length_app, Nat.add_1_r in Es. rewrite Es. cbn [mbind res_bind]. exists h'. split; [done|].
    by rewrite !fmap_app, <-!app_assoc in He.
Qed.

(** Seeking stands on the first entry, if there is one. *)
Lemma MI_SeekToFirst_ok iters prios :
  length prios = length iters → increasing prios →
  Forall (λ iter, ascending (remaining (SeekToFirst iter))) iters →
  ∃ it0, mi_ok it0 ∧ left_over it0 = merged_map (SeekToFirst <$> iters) ∧
         MI_SeekToFirst (NewMergingIterator iters prios) = MI_Next it0.
Proof using Type*.
  intros Hl Hp Hs. unfold MI_SeekToFirst, NewMergingIterator. cbn [mi_iterators mi_priorities].
  destruct (seek_all_ok iters [] prios (heap_Init mie_Less [])) as (h & Es & Hh).
  - split; [by intros j ?; simpl in *; lia|constructor|by intros ? ?%elem_of_nil|done].
  - done.
  - simpl in Es, Hh. rewrite Es. cbn [mbind res_bind]. eexists. split; [|split; [|reflexivity]]; [|done]. split; [done| |done].
    intros i iter Hi. cbn in Hi. apply list_lookup_fmap_Some in Hi as (it & -> & Hit). by eapply Forall_lookup_1 in Hs.
Qed.

(** A scan from the start lists the merged map. *)
Lemma scan_lists iters prios fuel :
  length prios = length iters → increasing prios →
  Forall (λ iter, ascending (remaining (SeekToFirst iter))) iters →
  merged_map (SeekToFirst <$> iters) !! [] = None → (size (merged_map (SeekToFirst <$> iters)) ≤ fuel)%nat →
  ∃ it es, MI_SeekToFirst (NewMergingIterator iters prios) = Ok it ∧ MI_drain fuel it = Ok es ∧
           lists_map (merged_map (SeekToFirst <$> iters)) es.
Proof using Type*.
  intros Hl Hp Hs Hne Hf. destruct (MI_SeekToFirst_ok iters prios Hl Hp Hs) as (it0 & Hok & Hm & ->). rewrite <-Hm in *.
  destruct (MI_Next_ok it0 Hok) as (it & -> & Hok' & Hn).
  exists it. destruct (MI_drain_ok fuel it0 it Hok' Hn Hne Hf) as (es & Ed & Hes). by exists es.
Qed.
End merge.

(** ** The scan of the engine *)

Lemma live_entries_ascending es : StronglySorted (key_lt me_Key) es → ascending (live_entries es).
Proof.
  unfold live_entries, ascending. induction 1 as [|e es Hs IH Hf]; [constructor|]. rewrite filter_cons. case_decide; [|done].
  rewrite fmap_cons. constructor; [done|]. rewrite Forall_fmap. apply Forall_forall. intros x Hx.
  apply list_elem_of_filter in Hx as [_ Hx]. rewrite Forall_forall in Hf. by apply Hf.
Qed.

Lemma shown_ascending m : mt_wf m → ascending (shown m).
Proof.
  intros [Hs _]. unfold shown. destruct (mt_entries m) as [|e es]; [constructor|].
  destruct (me_Deleted e); [constructor|]. by apply live_entries_ascending.
Qed.

Definition shown_map (m : MemTable) : gmap bytes bytes := list_to_map (shown m).

(** What a scan lists. *)
Definition scan_map (s : LSM) : gmap bytes bytes :=
  shown_map (l_active s) ∪ default ∅ (shown_map <$> l_immutable s).

Definition no_tombstone (m : MemTable) : Prop := Forall (λ e, me_Deleted e = false) (mt_entries m).

(** Without tombstones a memtable shows all its entries. *)
Lemma shown_map_lookup m k : mt_wf m → no_tombstone m → shown_map m !! k = mt_map m !! k ≫= entry_value.
Proof.
  intros [Hs _] Hn. unfold shown_map, mt_map, entries_map, no_tombstone in *.
  assert (shown m = live_entries (mt_entries m)) as ->.
  { unfold shown. destruct Hn as [|e es Hd Hn]; [done|]. by rewrite Hd. }
  clear Hs. unfold live_entries. induction Hn as [|e es Hd Hn IH]; [done|].
  rewrite filter_cons_True by done. rewrite !fmap_cons. cbn [list_to_map foldr].
  destruct (decide (me_Key e = k)) as [<-|Hne].
  - simpl. rewrite !lookup_insert_eq. unfold entry_value. simpl. by rewrite Hd.
  - simpl. rewrite !lookup_insert_ne by done. exact IH.
Qed.

Lemma increasing_seqZ n : increasing (seqZ 0 n).
Proof. intros i j p q [-> ?]%lookup_seqZ [-> ?]%lookup_seqZ ?. lia. Qed.


(** ** Runs on concrete data *)

Definition run_scan (s : LSM) : res (list (bytes * bytes)) := it ← Adapter_Scan s [] []; MI_drain 10 it.

(** A full memtable that waits for its flush, and newer writes, one of the same key. *)
Definition demo_two : LSM := put [3] [8] (put [1] [5] (put [2] [6] (put [1] (big 7) demo_new))).


(** The bounds of a scan have no effect. *)
Example scan_ignores_bounds : (it ← Adapter_Scan demo_two [2] [2]; MI_drain 10 it) = Ok [([1], [5]); ([2], [6]); ([3], [8])].
Proof. vm_compute. reflexivity. Qed.

(** A tombstone at the front of a memtable hides every entry of it. *)
Example scan_stops_at_leading_tombstone :
  let s := del [1] (put [2] [6] demo_new) in (Adapter_Get s [2]).2 = Ok [6] ∧ run_scan s = Ok [].
Proof. vm_compute. split; reflexivity. Qed.

(** A tombstone of the active memtable does not hide the older value. *)
Example scan_returns_deleted_key :
  let s := del [2] (put [0] [1] (put [2] (big 7) demo_new)) in
  (Adapter_Get s [2]).2 = Err ErrKeyNotFound ∧ run_scan s = Ok [([0], [1]); ([2], big 7)].
Proof. vm_compute. split; reflexivity. Qed.

(** Flushed entries are not scan_map. *)
Example scan_skips_tables : (Adapter_Get demo_flushed [1]).2 = Ok (big 7) ∧ run_scan demo_flushed = Ok [].
Proof. vm_compute. split; reflexivity. Qed.

(** The empty key, which the engine stores, ends the scan before it starts. *)
Example scan_stops_at_empty_key :
  let s := put [] [3] (put [2] [6] demo_new) in (Adapter_Get s []).2 = Ok [3] ∧ run_scan s = Ok [].
Proof. vm_compute. split; reflexivity. Qed.
