(* ===== verification/BtVarint.v ===== *)
(** Variable-length integers of the B-tree pages ([src/btree/varint.go]): seven bits per
    byte, least significant first, with a continuation bit. *)
From stdpp Require Import base gmap list strings numbers sorting.
From S2P Require Import Prelude.

Open Scope Z_scope.

(** The loop of [putUvarint]; an index outside the buffer panics.  A [uint64] takes at most
    ten rounds. *)
Fixpoint put_loop (fuel : nat) (buf : bytes) (i x : Z) : res (bytes * Z) :=
  match fuel with
  | O => Panic
  | S fuel =>
      if negb (i <? len buf) then Panic
      else if 0x80 <=? x
      then put_loop fuel (<[Z.to_nat i := Z.lor (u8 x) 0x80]> buf) (i + 1) (Z.shiftr x 7)
      else Ok (<[Z.to_nat i := u8 x]> buf, i + 1)
  end.

Definition putUvarint (buf : bytes) (x : Z) : res (bytes * Z) := put_loop 10 buf 0 x.

(** The loop of [uvarint] over the bytes of the buffer: index, value and shift so far. *)
Fixpoint uvarint_loop (buf : bytes) (i x s : Z) : Z * Z :=
  match buf with
  | [] => (0, 0)
  | b :: buf =>
      if i =? 9 then (0, - (i + 1))
      else if b <? 0x80 then
        if (i =? 9 - 1) && (1 <? b) then (0, - (i + 1))
        else (Z.lor x (u64 (Z.shiftl b s)), i + 1)
      else uvarint_loop buf (i + 1) (Z.lor x (u64 (Z.shiftl (Z.land b 0x7f) s))) (s + 7)
  end.

Definition uvarint (buf : bytes) : Z * Z := uvarint_loop buf 0 0 0.

Fixpoint size_loop (fuel : nat) (n x : Z) : Z :=
  match fuel with
  | O => n
  | S fuel =>
      let x := Z.shiftr x 7 in
      if x =? 0 then n + 1 else size_loop fuel (n + 1) x
  end.

Definition varintSize (x : Z) : Z := size_loop 10 0 x.

Definition putUvarint16 (buf : bytes) (x : Z) : res (bytes * Z) := putUvarint buf x.

Definition uvarint16 (buf : bytes) : Z * Z :=
  let '(x, n) := uvarint buf in
  if n <=? 0 then (0, n) else if 0xFFFF <? x then (0, -1) else (u16 x, n).

Definition varintSize16 (x : Z) : Z := if x <? 128 then 1 else if x <? 16384 then 2 else 3.

(** ** The encoding *)

(** The bytes of [x], in at most [n] of them. *)
Fixpoint varint_enc (n : nat) (x : Z) : bytes :=
  match n with
  | O => []
  | S n => if x <? 128 then [x] else (x mod 128 + 128) :: varint_enc n (x / 128)
  end.

Definition varint_bytes (x : Z) : bytes := varint_enc 10 x.

Lemma or_continuation x : Z.lor (u8 x) 0x80 = x mod 128 + 128.
Proof.
  assert (H : Forall (λ r, Z.lor r 128 = r mod 128 + 128) (seqZ 0 256)).
  { apply (bool_decide_unpack _). by vm_compute. }
  rewrite Forall_forall in H. rewrite H.
  - unfold u8. f_equal. apply (Z.mod_mod_divide x 256 128). by exists 2.
  - apply elem_of_seqZ. unfold u8. pose proof (Z.mod_pos_bound x (2 ^ 8)). lia.
Qed.

Lemma lor_shift a b s : 0 ≤ s → 0 ≤ a < 2 ^ s → 0 ≤ b → Z.lor a (Z.shiftl b s) = a + b * 2 ^ s.
Proof.
  intros Hs Ha Hb. rewrite <-Z.shiftl_mul_pow2 by done. symmetry. apply Z.add_nocarry_lor.
  apply Z.bits_inj'. intros n Hn. rewrite Z.land_spec, Z.bits_0.
  destruct (Z.ltb_spec n s); [rewrite Z.shiftl_spec_low by done; apply andb_false_r|].
  destruct (Z.eq_dec a 0) as [->|]; [by rewrite Z.bits_0|].
  rewrite Z.bits_above_log2; [done|lia|]. assert (Z.log2 a < s) by (apply Z.log2_lt_pow2; lia). lia.
Qed.

(** The bytes of [x] when ten are enough. *)
Lemma varint_step n x :
  0 ≤ x < 2 ^ (7 * Z.of_nat (S n)) → 128 ≤ x → 0 < x / 128 < 2 ^ (7 * Z.of_nat n).
Proof.
  intros Hx H128. split; [apply Z.div_str_pos; lia|]. apply Z.div_lt_upper_bound; [lia|].
  replace (7 * Z.of_nat (S n)) with (7 + 7 * Z.of_nat n) in Hx by lia.
  rewrite Z.pow_add_r in Hx by lia. lia.
Qed.

Lemma put_loop_spec n : ∀ pre buf x,
  0 ≤ x < 2 ^ (7 * Z.of_nat n) → (0 < n)%nat → (length (varint_enc n x) ≤ length buf)%nat →
  put_loop n (pre ++ buf) (len pre) x =
    Ok (pre ++ varint_enc n x ++ drop (length (varint_enc n x)) buf, len pre + len (varint_enc n x)).
Proof.
  induction n as [|n IH]; intros pre buf x Hx Hn Hl; [lia|]. cbn [put_loop varint_enc] in *.
  destruct buf as [|b buf]; [destruct (x <? 128); simpl in Hl; lia|].
  destruct (Z.ltb_spec (len pre) (len (pre ++ b :: buf))) as [_|H]; [|rewrite len_app, len_cons in H; pose proof (len_nonneg buf); lia].
  cbn [negb]. assert (Hins : ∀ y, <[Z.to_nat (len pre) := y]> (pre ++ b :: buf) = (pre ++ [y]) ++ buf).
  { intros y. rewrite insert_app_r_alt by (unfold len; lia). unfold len. rewrite Nat2Z.id, Nat.sub_diag.
    by rewrite <-app_assoc. }
  rewrite !Hins. destruct (Z.leb_spec 0x80 x) as [H|H]; destruct (Z.ltb_spec x 128); try lia.
  - rewrite or_continuation. rewrite Z.shiftr_div_pow2 by lia.
    change (2 ^ 7) with 128. pose proof (varint_step n x Hx H) as Hq.
    destruct n as [|n]; [simpl in Hq; lia|].
    replace (len pre + 1) with (len (pre ++ [x mod 128 + 128])) by (rewrite len_app; done).
    rewrite IH; [|lia|lia|simpl in *; lia]. rewrite len_app, len_cons, <-app_assoc. simpl. f_equal. f_equal.
    unfold len. simpl. lia.
  - unfold u8. rewrite Z.mod_small by lia. by rewrite <-app_assoc.
Qed.

Lemma size_loop_spec n : ∀ k x,
  0 ≤ x < 2 ^ (7 * Z.of_nat n) → (0 < n)%nat → size_loop n k x = k + len (varint_enc n x).
Proof.
  induction n as [|n IH]; intros k x Hx Hn; [lia|]. cbn [size_loop varint_enc].
  rewrite Z.shiftr_div_pow2 by lia. change (2 ^ 7) with 128. destruct (Z.ltb_spec x 128) as [H|H].
  - by rewrite Z.div_small by lia.
  - pose proof (varint_step n x Hx H) as Hq. destruct (Z.eqb_spec (x / 128) 0); [lia|].
    destruct n as [|n]; [simpl in Hq; lia|]. rewrite IH by lia. rewrite len_cons. lia.
Qed.

(** The shifted digit joins the value without overflow. *)
Lemma digit_joins acc b i :
  0 ≤ i ≤ 8 → 0 ≤ acc < 2 ^ (7 * i) → 0 ≤ b < 128 →
  Z.lor acc (u64 (Z.shiftl b (7 * i))) = acc + b * 2 ^ (7 * i) ∧ acc + b * 2 ^ (7 * i) < 2 ^ (7 * (i + 1)).
Proof.
  intros Hi Hacc Hb. assert (Hp : 0 < 2 ^ (7 * i) ≤ 2 ^ 56) by (split; [|apply Z.pow_le_mono_r]; lia).
  rewrite u64_small, lor_shift by (rewrite ?Z.shiftl_mul_pow2; nia).
  replace (7 * (i + 1)) with (7 + 7 * i) by lia. rewrite Z.pow_add_r by lia. split; [done|nia].
Qed.

(** Decoding from the byte with index [i] on. *)
Lemma uvarint_loop_spec n : ∀ i acc x r,
  0 ≤ x < 2 ^ (7 * Z.of_nat n) → (0 < n)%nat → 0 ≤ i → i + Z.of_nat n = 10 → 0 ≤ acc < 2 ^ (7 * i) →
  (0 < i → 0 < x) →
  uvarint_loop (varint_enc n x ++ r) i acc (7 * i) =
    if acc + x * 2 ^ (7 * i) <? 2 ^ 57 then (acc + x * 2 ^ (7 * i), i + len (varint_enc n x))
    else (0, - (i + len (varint_enc n x))).
Proof.
  induction n as [|n IH]; intros i acc x r Hx Hn Hi Hin Hacc Hpos; [lia|].
  cbn [varint_enc]. destruct (Z.ltb_spec x 128) as [H|H].
  - cbn [app uvarint_loop]. change (len [x]) with 1. destruct (Z.eqb_spec i 9) as [->|Hi9].
    { destruct (Z.ltb_spec (acc + x * 2 ^ (7 * 9)) (2 ^ 57)); [lia|done]. }
    destruct (Z.ltb_spec x 0x80); [|lia].
    destruct (digit_joins acc x i ltac:(lia) Hacc ltac:(lia)) as [-> Hlt].
    destruct (Z.eqb_spec i (9 - 1)) as [E|Hi8]; simpl.
    + assert (i = 8) as -> by lia. change (2 ^ (7 * 8)) with (2 ^ 56) in *.
      destruct (Z.ltb_spec 1 x), (Z.ltb_spec (acc + x * 2 ^ 56) (2 ^ 57)); done || lia.
    + assert (2 ^ (7 * (i + 1)) ≤ 2 ^ 57) by (apply Z.pow_le_mono_r; lia).
      destruct (Z.ltb_spec (acc + x * 2 ^ (7 * i)) (2 ^ 57)); [done|lia].
  - pose proof (varint_step n x Hx H) as Hq. destruct n as [|n]; [simpl in Hq; lia|].
    rewrite <-app_comm_cons. cbn [uvarint_loop]. destruct (Z.eqb_spec i 9); [lia|].
    pose proof (Z.mod_pos_bound x 128 ltac:(lia)). destruct (Z.ltb_spec (x mod 128 + 128) 0x80); [lia|].
    change 0x7f with (Z.ones 7). rewrite Z.land_ones by lia. change (2 ^ 7) with 128.
    replace ((x mod 128 + 128) mod 128) with (x mod 128)
      by (apply (Z.mod_unique _ _ 1); lia).
    destruct (digit_joins acc (x mod 128) i ltac:(lia) Hacc ltac:(lia)) as [-> Hlt].
    replace (7 * i + 7) with (7 * (i + 1)) by lia.
    rewrite IH by (try nia; apply Z.pow_nonneg || idtac; lia).
    replace (2 ^ (7 * (i + 1))) with (128 * 2 ^ (7 * i))
      by (replace (7 * (i + 1)) with (7 + 7 * i) by lia; rewrite Z.pow_add_r; lia).
    replace (acc + x mod 128 * 2 ^ (7 * i) + x / 128 * (128 * 2 ^ (7 * i))) with (acc + x * 2 ^ (7 * i))
      by (rewrite (Z.div_mod x 128) at 1; nia).
    rewrite len_cons. destruct (_ <? _); f_equal; lia.
Qed.

Lemma varintSize_len x : 0 ≤ x < 2 ^ 64 → varintSize x = len (varint_bytes x).
Proof. intros Hx. unfold varintSize. rewrite size_loop_spec; [done|simpl Z.of_nat; lia|lia]. Qed.

Lemma varintSize16_len x : 0 ≤ x < 2 ^ 16 → varintSize16 x = len (varint_bytes x).
Proof.
  intros Hx. unfold varintSize16, varint_bytes. cbn [varint_enc].
  assert (x / 128 < 2 ^ 9) by (apply Z.div_lt_upper_bound; lia).
  assert (x / 128 / 128 < 2 ^ 2) by (apply Z.div_lt_upper_bound; lia).
  destruct (Z.ltb_spec x 128); [done|].
  destruct (Z.ltb_spec x 16384), (Z.ltb_spec (x / 128) 128); try done.
  - assert (x / 128 < 128) by (apply Z.div_lt_upper_bound; lia). lia.
  - assert (128 ≤ x / 128) by (apply Z.div_le_lower_bound; lia). lia.
  - destruct (Z.ltb_spec (x / 128 / 128) 128); [done|lia].
Qed.

Lemma uvarint_enc x r :
  0 ≤ x < 2 ^ 64 →
  uvarint_loop (varint_bytes x ++ r) 0 0 0 =
    if x <? 2 ^ 57 then (x, len (varint_bytes x)) else (0, - len (varint_bytes x)).
Proof.
  intros Hx. unfold varint_bytes. pose proof (uvarint_loop_spec 10 0 0 x r) as H.
  change (7 * 0) with 0 in H. rewrite Z.pow_0_r, Z.mul_1_r, !Z.add_0_l in H.
  apply H; simpl Z.of_nat; lia.
Qed.

Lemma varint_bytes_pos x : 0 < len (varint_bytes x).
Proof. unfold varint_bytes. cbn [varint_enc]. destruct (x <? 128); rewrite len_cons; unfold len; lia. Qed.

Lemma uvarint16_enc x r :
  0 ≤ x < 2 ^ 16 → uvarint16 (varint_bytes x ++ r) = (x, varintSize16 x).
Proof.
  intros Hx. unfold uvarint16, uvarint. rewrite uvarint_enc by lia. rewrite varintSize16_len by done.
  pose proof (varint_bytes_pos x). destruct (Z.ltb_spec x (2 ^ 57)); [|lia].
  destruct (Z.leb_spec (len (varint_bytes x)) 0); [lia|]. destruct (Z.ltb_spec 0xFFFF x); [lia|].
  by rewrite u16_small by lia.
Qed.

(** Writing into a buffer with room. *)
Lemma putUvarint_enc buf x :
  0 ≤ x < 2 ^ 64 → len (varint_bytes x) ≤ len buf →
  putUvarint buf x = Ok (varint_bytes x ++ slice_from (len (varint_bytes x)) buf, len (varint_bytes x)).
Proof.
  intros Hx Hroom. assert (Hx' : 0 ≤ x < 2 ^ (7 * Z.of_nat 10)) by (simpl Z.of_nat; lia).
  pose proof (put_loop_spec 10 [] buf x Hx') as Hput. cbn [app] in Hput. change (len []) with 0 in Hput.
  unfold putUvarint. rewrite Hput by (unfold varint_bytes, len in Hroom; lia).
  fold (varint_bytes x). unfold slice_from, len. by rewrite Nat2Z.id.
Qed.

(** C32: putUvarint writes exactly varintSize bytes at the front of any buffer that has room
    and touches nothing else; uvarint reads any value below 2^57 back with its size, and
    reports an overflow for every larger one; for 16-bit values the specialised
    functions agree with the general ones. *)
Theorem varint_roundtrip buf x (Hx : 0 ≤ x < 2 ^ 64) (Hroom : varintSize x ≤ len buf) :
  ∃ buf', putUvarint buf x = Ok (buf', varintSize x) ∧
    slice_from (varintSize x) buf' = slice_from (varintSize x) buf ∧ len buf' = len buf ∧
    uvarint buf' = (if x <? 2 ^ 57 then (x, varintSize x) else (0, - varintSize x)) ∧
    (x < 2 ^ 16 → varintSize16 x = varintSize x ∧ uvarint16 buf' = (x, varintSize x)).
Proof.
  rewrite varintSize_len in * by done. rewrite putUvarint_enc by done. eexists. split; [reflexivity|].
  pose proof (varint_bytes_pos x). split_and!.
  - by rewrite slice_from_app.
  - rewrite len_app. unfold slice_from, len in *. rewrite length_drop. lia.
  - unfold uvarint. by rewrite uvarint_enc.
  - intros H16. rewrite uvarint16_enc by lia. by rewrite (varintSize16_len x) by lia.
Qed.

Lemma varint_roundtrip_witness :
  ∃ buf', putUvarint [9; 9; 9; 9] 300 = Ok (buf', 2) ∧ uvarint buf' = (300, 2) ∧ uvarint16 buf' = (300, 2).
Proof.
  destruct (varint_roundtrip [9; 9; 9; 9] 300) as (buf' & E & _ & _ & Hu & H16); [lia|by vm_compute|].
  exists buf'. split; [exact E|]. split; [exact Hu|]. apply H16. lia.
Defined.

(** The value 2^57 is encoded in nine bytes and not decoded again. *)
Example varint_rejects_large :
  putUvarint (make_bytes 10) (2 ^ 57) = Ok (replicate 8 128 ++ [2; 0], 9) ∧
  uvarint (replicate 8 128 ++ [2; 0]) = (0, -9).
Proof. split; vm_compute; reflexivity. Qed.
