(* ===== verification/BtPage.v ===== *)
(** Slotted pages of the B-tree ([src/btree/page.go]): a header, a directory of cell
    offsets that grows forward, and the cells that grow backward from the end of the page,
    all as the bytes of one 4096-byte array. *)
From stdpp Require Import base gmap list strings numbers sorting.
From S2P Require Import Prelude GoLib BtVarint.

Open Scope Z_scope.

Definition PageSize : Z := 4096.
Definition PageTypeInternal : Z := 1.
Definition PageTypeLeaf : Z := 2.
Definition PageFormatV1 : Z := 1.
Definition PageFormatV2 : Z := 2.
Definition HeaderSize : Z := 10.
Definition HeaderOffsetType : Z := 0.
Definition HeaderOffsetNumCells : Z := 1.
Definition HeaderOffsetRightPtr : Z := 3.
Definition HeaderOffsetFreePtr : Z := 7.
Definition HeaderOffsetVersion : Z := 9.
Definition CellDirEntrySize : Z := 2.
Definition LeafCellHeaderSizeV1 : Z := 4.
Definition InternalCellHeaderSizeV1 : Z := 6.
Definition LeafCellHeaderSizeV2Min : Z := 2.
Definition InternalCellHeaderSizeV2Min : Z := 5.

Record Page := MkPage {
  pg_id : Z;
  pg_data : bytes;
  pg_pageType : Z;
  pg_dirty : bool;
}.

Record Cell := MkCell {
  c_Key : bytes;
  c_Value : bytes;
  c_Child : Z;
}.

#[global] Instance Cell_eq_dec : EqDecision Cell.
Proof. solve_decision. Defined.

(** ** Access to the array *)

(** [binary.BigEndian.Uint16(data[off:])] and [Uint32]; short slices panic. *)
Definition read_u16 (data : bytes) (off : Z) : res Z :=
  if len data <? off + 2 then Panic else Ok (be_u16 (slice_from off data)).
Definition read_u32 (data : bytes) (off : Z) : res Z :=
  if len data <? off + 4 then Panic else Ok (be_u32 (slice_from off data)).

(** [binary.BigEndian.PutUint16(data[off:], x)] and the like. *)
Definition put_at (off : Z) (b data : bytes) : res bytes :=
  if len data <? off + len b then Panic else Ok (copy_at off b data).

(** [copy(data[off:], src)]. *)
Definition copy_to (off : Z) (src data : bytes) : res bytes :=
  if len data <? off then Panic else Ok (copy_at off src data).

(** [putUvarint16(data[off:], x)]: the array and the number of bytes. *)
Definition put_varint_at (off x : Z) (data : bytes) : res (bytes * Z) :=
  if len data <? off then Panic
  else '(buf, n) ← putUvarint16 (slice_from off data) x; Ok (slice_to off data ++ buf, n).

Definition with_data (d : bytes) (p : Page) : Page := MkPage (pg_id p) d (pg_pageType p) (pg_dirty p).
Definition SetDirty (dirty : bool) (p : Page) : Page := MkPage (pg_id p) (pg_data p) (pg_pageType p) dirty.

(** ** The header *)

(** The header is inside the fixed array, so its accesses do not panic. *)
Definition NewPage (id pageType : Z) : Page :=
  let d := make_bytes PageSize in
  let d := <[Z.to_nat HeaderOffsetType := pageType]> d in
  let d := copy_at HeaderOffsetNumCells (be_put 2 0) d in
  let d := copy_at HeaderOffsetRightPtr (be_put 4 0) d in
  let d := copy_at HeaderOffsetFreePtr (be_put 2 PageSize) d in
  let d := <[Z.to_nat HeaderOffsetVersion := PageFormatV2]> d in
  MkPage id d pageType true.

Definition LoadPage (id : Z) (data : bytes) : res Page :=
  if negb (len data =? PageSize) then Err (Errorf "invalid page size")
  else Ok (MkPage id data (default 0 (data !! Z.to_nat HeaderOffsetType)) false).

Definition Version (p : Page) : Z :=
  let version := default 0 (pg_data p !! Z.to_nat HeaderOffsetVersion) in
  if version =? 0 then PageFormatV1 else version.

Definition IsLeaf (p : Page) : bool := pg_pageType p =? PageTypeLeaf.

Definition NumCells (p : Page) : Z := be_u16 (slice_from HeaderOffsetNumCells (pg_data p)).
Definition setNumCells (n : Z) (p : Page) : Page :=
  with_data (copy_at HeaderOffsetNumCells (be_put 2 n) (pg_data p)) p.

Definition RightPtr (p : Page) : Z := be_u32 (slice_from HeaderOffsetRightPtr (pg_data p)).
Definition SetRightPtr (ptr : Z) (p : Page) : Page :=
  SetDirty true (with_data (copy_at HeaderOffsetRightPtr (be_put 4 ptr) (pg_data p)) p).

Definition freePtr (p : Page) : Z := be_u16 (slice_from HeaderOffsetFreePtr (pg_data p)).
Definition setFreePtr (ptr : Z) (p : Page) : Page :=
  with_data (copy_at HeaderOffsetFreePtr (be_put 2 ptr) (pg_data p)) p.

(** ** The directory *)

Definition cellDirOffset (n : Z) : Z := HeaderSize + n * CellDirEntrySize.

Definition getCellOffset (p : Page) (n : Z) : res Z := read_u16 (pg_data p) (cellDirOffset n).

Definition setCellOffset (n offset : Z) (p : Page) : res Page :=
  d ← put_at (cellDirOffset n) (be_put 2 offset) (pg_data p); Ok (with_data d p).

(** ** Reading cells *)

Definition parseLeafCell (p : Page) (offset : Z) : res Cell :=
  let d := pg_data p in
  if Version p =? PageFormatV1 then
    if PageSize <? offset + LeafCellHeaderSizeV1 then Err (Errorf "invalid cell offset")
    else
      keySize ← read_u16 d offset;
      valueSize ← read_u16 d (offset + 2);
      if PageSize <? offset + LeafCellHeaderSizeV1 + keySize + valueSize
      then Err (Errorf "invalid cell size")
      else
        let keyStart := offset + LeafCellHeaderSizeV1 in
        Ok (MkCell (slice keyStart (keyStart + keySize) d)
              (slice (keyStart + keySize) (keyStart + keySize + valueSize) d) 0)
  else if PageSize <? offset + LeafCellHeaderSizeV2Min then Err (Errorf "invalid cell offset")
  else
    let '(keySize, n1) := uvarint16 (slice_from offset d) in
    if n1 <=? 0 then Err (Errorf "invalid key size varint")
    else
      let '(valueSize, n2) := uvarint16 (slice_from (offset + n1) d) in
      if n2 <=? 0 then Err (Errorf "invalid value size varint")
      else
        let headerSize := n1 + n2 in
        if PageSize <? offset + headerSize + keySize + valueSize
        then Err (Errorf "invalid cell size")
        else
          let keyStart := offset + headerSize in
          Ok (MkCell (slice keyStart (keyStart + keySize) d)
                (slice (keyStart + keySize) (keyStart + keySize + valueSize) d) 0).

Definition parseInternalCell (p : Page) (offset : Z) : res Cell :=
  let d := pg_data p in
  if Version p =? PageFormatV1 then
    if PageSize <? offset + InternalCellHeaderSizeV1 then Err (Errorf "invalid cell offset")
    else
      keySize ← read_u16 d offset;
      child ← read_u32 d (offset + 2);
      if PageSize <? offset + InternalCellHeaderSizeV1 + keySize
      then Err (Errorf "invalid cell size")
      else
        let keyStart := offset + InternalCellHeaderSizeV1 in
        Ok (MkCell (slice keyStart (keyStart + keySize) d) [] child)
  else if PageSize <? offset + InternalCellHeaderSizeV2Min then Err (Errorf "invalid cell offset")
  else
    let '(keySize, n) := uvarint16 (slice_from offset d) in
    if n <=? 0 then Err (Errorf "invalid key size varint")
    else
      child ← read_u32 d (offset + n);
      let headerSize := n + 4 in
      if PageSize <? offset + headerSize + keySize then Err (Errorf "invalid cell size")
      else
        let keyStart := offset + headerSize in
        Ok (MkCell (slice keyStart (keyStart + keySize) d) [] child).

Definition CellAt (p : Page) (index : Z) : res Cell :=
  if NumCells p <=? index then Err ErrCellNotFound
  else
    offset ← getCellOffset p index;
    if IsLeaf p then parseLeafCell p offset else parseInternalCell p offset.

(** ** Space *)

Definition cellSize (p : Page) (keySize valueSize : Z) : Z :=
  if IsLeaf p then
    if Version p =? PageFormatV1 then LeafCellHeaderSizeV1 + keySize + valueSize
    else varintSize16 (u16 keySize) + varintSize16 (u16 valueSize) + keySize + valueSize
  else if Version p =? PageFormatV1 then InternalCellHeaderSizeV1 + keySize
  else varintSize16 (u16 keySize) + 4 + keySize.

Definition IsFull (p : Page) (keySize valueSize : Z) : bool :=
  let cellDirectoryEnd := cellDirOffset (u16 (NumCells p + 1)) in
  let freeSpace := freePtr p - cellDirectoryEnd in
  freeSpace <? cellSize p keySize valueSize.

(** ** Writing cells *)

Definition writeLeafCell (offset : Z) (cell : Cell) (p : Page) : res Page :=
  let d := pg_data p in
  let key := c_Key cell in
  let value := c_Value cell in
  if Version p =? PageFormatV1 then
    d ← put_at offset (be_put 2 (u16 (len key))) d;
    d ← put_at (offset + 2) (be_put 2 (u16 (len value))) d;
    d ← copy_to (offset + LeafCellHeaderSizeV1) key d;
    d ← copy_to (offset + LeafCellHeaderSizeV1 + len key) value d;
    Ok (with_data d p)
  else
    '(d, n1) ← put_varint_at offset (u16 (len key)) d;
    '(d, n2) ← put_varint_at (offset + n1) (u16 (len value)) d;
    let headerSize := n1 + n2 in
    d ← copy_to (offset + headerSize) key d;
    d ← copy_to (offset + headerSize + len key) value d;
    Ok (with_data d p).

Definition writeInternalCell (offset : Z) (cell : Cell) (p : Page) : res Page :=
  let d := pg_data p in
  let key := c_Key cell in
  if Version p =? PageFormatV1 then
    d ← put_at offset (be_put 2 (u16 (len key))) d;
    d ← put_at (offset + 2) (be_put 4 (c_Child cell)) d;
    d ← copy_to (offset + InternalCellHeaderSizeV1) key d;
    Ok (with_data d p)
  else
    '(d, n) ← put_varint_at offset (u16 (len key)) d;
    d ← put_at (offset + n) (be_put 4 (c_Child cell)) d;
    d ← copy_to (offset + (n + 4)) key d;
    Ok (with_data d p).

(** ** Searching *)

(** The interval shrinks every round, so the number of cells bounds the rounds; an
    unreadable cell ends the search. *)
Fixpoint searchCell_loop (fuel : nat) (p : Page) (key : bytes) (left right : Z) : res Z :=
  match fuel with
  | O => Ok left
  | S fuel =>
      if left <? right then
        let mid := (left + right) / 2 in
        match CellAt p (u16 mid) with
        | Panic => Panic
        | Err _ => Ok left
        | Ok cell =>
            match bytes_compare key (c_Key cell) with
            | Eq => Ok (- (mid + 1))
            | Lt => searchCell_loop fuel p key left mid
            | Gt => searchCell_loop fuel p key (mid + 1) right
            end
        end
      else Ok left
  end.

Definition searchCell (p : Page) (key : bytes) : res Z :=
  searchCell_loop (Z.to_nat (NumCells p)) p key 0 (NumCells p).

(** ** Deleting and inserting *)

(** [for i := index; i < numCells-1; i++], [n] rounds from [i] on. *)
Fixpoint shift_down (n : nat) (i : Z) (p : Page) : res Page :=
  match n with
  | O => Ok p
  | S n =>
      offset ← getCellOffset p (i + 1);
      p ← setCellOffset i offset p;
      shift_down n (i + 1) p
  end.

(** [for i := numCells; i > insertPos; i--], [n] rounds from [i] on. *)
Fixpoint shift_up (n : nat) (i : Z) (p : Page) : res Page :=
  match n with
  | O => Ok p
  | S n =>
      offset ← getCellOffset p (i - 1);
      p ← setCellOffset i offset p;
      shift_up n (i - 1) p
  end.

Definition DeleteCell (p : Page) (index : Z) : Page * res unit :=
  let numCells := NumCells p in
  if numCells <=? index then (p, Err ErrCellNotFound)
  else
    match shift_down (Z.to_nat (numCells - 1 - index)) index p with
    | Ok p => (SetDirty true (setNumCells (u16 (numCells - 1)) p), Ok tt)
    | Err e => (p, Err e)
    | Panic => (p, Panic)
    end.

(** The end of [InsertCell]: the directory and the header, after the cell is written. *)
Definition link_cell (p : Page) (numCells insertPos newFreePtr : Z) : res Page :=
  p ← (p ← shift_up (Z.to_nat (numCells - insertPos)) numCells p; setCellOffset insertPos newFreePtr p);
  Ok (SetDirty true (setFreePtr newFreePtr (setNumCells (u16 (numCells + 1)) p))).

Definition place_cell (p : Page) (cell : Cell) (insertPos keySize valueSize : Z) : res Page :=
  let numCells := NumCells p in
  let newFreePtr := u16 (freePtr p - u16 (cellSize p keySize valueSize)) in
  p ← (if IsLeaf p then writeLeafCell newFreePtr cell p else writeInternalCell newFreePtr cell p);
  link_cell p numCells insertPos newFreePtr.

(** [InsertCell]; an update deletes the cell and inserts again, so the number of cells
    bounds the recursion. *)
Fixpoint insert_cell (fuel : nat) (p : Page) (cell : Cell) : Page * res unit :=
  match fuel with
  | O => (p, Panic)
  | S fuel =>
      let keySize := len (c_Key cell) in
      let valueSize := if IsLeaf p then len (c_Value cell) else 0 in
      if IsFull p keySize valueSize then (p, Err ErrPageFull)
      else
        match searchCell p (c_Key cell) with
        | Panic => (p, Panic)
        | Err e => (p, Err e)
        | Ok insertPos =>
            if insertPos <? 0 then
              match DeleteCell p (u16 (- insertPos - 1)) with
              | (p, Ok _) => insert_cell fuel p cell
              | (p, r) => (p, r)
              end
            else
              match place_cell p cell insertPos keySize valueSize with
              | Ok p => (p, Ok tt)
              | Err e => (p, Err e)
              | Panic => (p, Panic)
              end
        end
  end.

Definition InsertCell (p : Page) (cell : Cell) : Page * res unit :=
  insert_cell (S (Z.to_nat (NumCells p))) p cell.

Definition Clone (p : Page) : Page := p.

(** ** Regions of the array *)

(** The bytes [b] stand at offset [off]. *)
Definition holds (d : bytes) (off : Z) (b : bytes) : Prop := take (length b) (slice_from off d) = b.

(** Arrays of the same length that differ only between [lo] and [hi]. *)
Definition same_outside (lo hi : Z) (d d' : bytes) : Prop :=
  length d' = length d ∧ ∀ i : nat, Z.of_nat i < lo ∨ hi ≤ Z.of_nat i → d' !! i = d !! i.

Lemma same_outside_refl lo hi d : same_outside lo hi d d.
Proof. done. Qed.

Lemma same_outside_trans lo hi d1 d2 d3 :
  same_outside lo hi d1 d2 → same_outside lo hi d2 d3 → same_outside lo hi d1 d3.
Proof. intros [L1 H1] [L2 H2]. split; [congruence|]. intros i Hi. by rewrite H2, H1. Qed.

Lemma same_outside_mono lo hi lo' hi' d d' :
  lo' ≤ lo → hi ≤ hi' → same_outside lo hi d d' → same_outside lo' hi' d d'.
Proof. intros Hlo Hhi [L H]. split; [done|]. intros i Hi. apply H. lia. Qed.

Lemma copy_at_eq off (s d : bytes) :
  0 ≤ off → off + len s ≤ len d →
  copy_at off s d = take (Z.to_nat off) d ++ s ++ drop (Z.to_nat off + length s) d.
Proof.
  intros H0 H. unfold copy_at. rewrite Nat.min_l by (unfold len in H; lia). rewrite (take_ge s) by lia. done.
Qed.

Lemma copy_at_outside off s d :
  0 ≤ off → off + len s ≤ len d → same_outside off (off + len s) d (copy_at off s d).
Proof.
  intros H0 H. split; [apply length_copy_at|]. intros i Hi. rewrite copy_at_eq by done. unfold len in *.
  destruct Hi as [Hi|Hi].
  - rewrite lookup_app_l by (rewrite length_take; lia). rewrite lookup_take_lt by lia. done.
  - rewrite lookup_app_r by (rewrite length_take; lia). rewrite length_take.
    rewrite lookup_app_r by lia. rewrite lookup_drop. f_equal. lia.
Qed.

Lemma copy_at_holds off s d : 0 ≤ off → off + len s ≤ len d → holds (copy_at off s d) off s.
Proof.
  intros H0 H. unfold holds, slice_from. rewrite copy_at_eq by done.
  rewrite drop_app_at by (rewrite length_take; unfold len in *; lia). apply take_app_length.
Qed.

(** What is read outside the changed region is unchanged. *)
Lemma outside_read lo hi d d' o (n : nat) :
  same_outside lo hi d d' → 0 ≤ o → o + Z.of_nat n ≤ lo ∨ hi ≤ o →
  take n (slice_from o d') = take n (slice_from o d).
Proof.
  intros [L H] H0 Ho. apply list_eq. intros i. unfold slice_from.
  destruct (decide (i < n)%nat) as [Hi|Hi].
  - rewrite !lookup_take_lt, !lookup_drop by done. apply H. lia.
  - rewrite !lookup_take_ge by lia. done.
Qed.

Lemma outside_holds lo hi d d' o b :
  same_outside lo hi d d' → 0 ≤ o → o + len b ≤ lo ∨ hi ≤ o → holds d o b → holds d' o b.
Proof. intros Hs H0 Ho Hb. unfold holds. by rewrite (outside_read lo hi d d'). Qed.

Lemma holds_app d off a b :
  0 ≤ off → holds d off (a ++ b) ↔ holds d off a ∧ holds d (off + len a) b.
Proof.
  intros H0. unfold holds, slice_from, len. rewrite length_app.
  replace (Z.to_nat (off + Z.of_nat (length a))) with (Z.to_nat off + length a)%nat by lia.
  rewrite <-drop_drop. set (e := drop (Z.to_nat off) d). rewrite <-take_take_drop. split.
  - intros H. assert (Hl : length (take (length a) e) = length a).
    { apply (f_equal length) in H. rewrite !length_app, !length_take in H. rewrite length_take. lia. }
    by apply app_inj_1 in H.
  - intros [-> Hb]. by f_equal.
Qed.

Lemma holds_slice d off b hi : hi = off + len b → holds d off b → slice off hi d = b.
Proof.
  intros -> Hb. unfold slice. replace (Z.to_nat (off + len b - off)) with (length b) by (unfold len; lia).
  exact Hb.
Qed.

Lemma holds_from d off b : holds d off b → ∃ r, slice_from off d = b ++ r.
Proof. intros H. exists (drop (length b) (slice_from off d)). rewrite <-H at 1. by rewrite take_drop. Qed.

Lemma holds_fits d off b : 0 ≤ off → b ≠ [] → holds d off b → off + len b ≤ len d.
Proof.
  intros H0 Hne H. apply (f_equal length) in H. unfold slice_from in H.
  rewrite length_take, length_drop in H.
  assert (0 < length b)%nat by (destruct b; [done|simpl; lia]). unfold len. lia.
Qed.

Lemma read_u16_holds d off z : 0 ≤ off → 0 ≤ z < 2 ^ 16 → holds d off (be_put 2 z) → read_u16 d off = Ok z.
Proof.
  intros H0 Hz H. assert (Hl : off + len (be_put 2 z) ≤ len d).
  { apply holds_fits; [done| |done]. intros E. apply (f_equal length) in E. by rewrite length_be_put in E. }
  unfold read_u16, len in *. rewrite length_be_put in Hl. destruct (Z.ltb_spec (Z.of_nat (length d)) (off + 2)); [lia|].
  destruct (holds_from d off _ H) as [r ->]. by rewrite be_u16_put.
Qed.

Lemma read_u32_holds d off z : 0 ≤ off → 0 ≤ z < 2 ^ 32 → holds d off (be_put 4 z) → read_u32 d off = Ok z.
Proof.
  intros H0 Hz H. assert (Hl : off + len (be_put 4 z) ≤ len d).
  { apply holds_fits; [done| |done]. intros E. apply (f_equal length) in E. by rewrite length_be_put in E. }
  unfold read_u32, len in *. rewrite length_be_put in Hl. destruct (Z.ltb_spec (Z.of_nat (length d)) (off + 4)); [lia|].
  destruct (holds_from d off _ H) as [r ->]. by rewrite be_u32_put.
Qed.

Lemma uvarint16_holds d off x :
  0 ≤ x < 2 ^ 16 → holds d off (varint_bytes x) → uvarint16 (slice_from off d) = (x, varintSize16 x).
Proof.
  intros Hx H. destruct (holds_from d off _ H) as [r ->]. by apply uvarint16_enc.
Qed.

(** ** The bytes of a cell *)

Definition cell_bytes (leaf v1 : bool) (c : Cell) : bytes :=
  let size n := if v1 then be_put 2 n else varint_bytes n in
  if leaf then size (len (c_Key c)) ++ size (len (c_Value c)) ++ c_Key c ++ c_Value c
  else size (len (c_Key c)) ++ be_put 4 (c_Child c) ++ c_Key c.

Definition isV1 (p : Page) : bool := Version p =? PageFormatV1.
Definition pbytes (p : Page) (c : Cell) : bytes := cell_bytes (IsLeaf p) (isV1 p) c.

(** A leaf cell has no child, an internal cell no value. *)
Definition cell_typed (leaf : bool) (c : Cell) : Prop :=
  if leaf then c_Child c = 0 else c_Value c = [] ∧ 0 ≤ c_Child c < 2 ^ 32.

Definition parseCell (p : Page) (offset : Z) : res Cell :=
  if IsLeaf p then parseLeafCell p offset else parseInternalCell p offset.
Definition writeCell (p : Page) (offset : Z) (c : Cell) : res Page :=
  if IsLeaf p then writeLeafCell offset c p else writeInternalCell offset c p.

Lemma len_be_put2 z : len (be_put 2 z) = 2.
Proof. unfold len. by rewrite length_be_put. Qed.

Lemma len_be_put4 z : len (be_put 4 z) = 4.
Proof. unfold len. by rewrite length_be_put. Qed.

Lemma varintSize16_bounds x : 1 ≤ varintSize16 x ≤ 3.
Proof. unfold varintSize16. repeat case_cmp; lia. Qed.

Ltac nonneg := repeat apply Z.add_nonneg_nonneg; first [apply len_nonneg | lia].

Lemma len_varint x : 0 ≤ x < 2 ^ 16 → len (varint_bytes x) = varintSize16 x.
Proof. intros Hx. by rewrite varintSize16_len. Qed.

(** A cell that fits in a page has sizes of 16 bits. *)
Lemma cell_sizes leaf v1 c :
  len (cell_bytes leaf v1 c) ≤ PageSize →
  0 ≤ len (c_Key c) ≤ PageSize ∧ (leaf = true → 0 ≤ len (c_Value c) ≤ PageSize).
Proof.
  unfold cell_bytes, PageSize. intros H. pose proof (len_nonneg (c_Key c)). pose proof (len_nonneg (c_Value c)).
  pose proof (len_nonneg (varint_bytes (len (c_Key c)))). pose proof (len_nonneg (varint_bytes (len (c_Value c)))).
  destruct leaf, v1; rewrite !len_app, ?len_be_put2, ?len_be_put4 in H; (split; [lia|]); intros ?; done || lia.
Qed.

Lemma parseCell_holds p off c :
  cell_typed (IsLeaf p) c → 0 ≤ off → off + len (pbytes p c) ≤ PageSize →
  holds (pg_data p) off (pbytes p c) → parseCell p off = Ok c.
Proof.
  intros Ht H0 Hfit Hh. destruct (cell_sizes (IsLeaf p) (isV1 p) c) as [Hk Hv]; [unfold pbytes in Hfit; lia|].
  unfold parseCell, parseLeafCell, parseInternalCell, pbytes, cell_bytes, isV1, PageSize in *.
  destruct c as [k v ch]. cbn [c_Key c_Value c_Child] in *.
  destruct (IsLeaf p), (Version p =? PageFormatV1); simpl in Ht;
    [specialize (Hv eq_refl)|specialize (Hv eq_refl)|destruct Ht as [-> Hc]|destruct Ht as [-> Hc]];
    repeat rewrite holds_app in Hh by nonneg; rewrite !len_app in Hfit; rewrite ?len_be_put2, ?len_be_put4, ?len_varint in * by lia;
    pose proof (varintSize16_bounds (len k)).
  - destruct Hh as (H1 & H2 & H3 & H4). unfold LeafCellHeaderSizeV1.
    rewrite (read_u16_holds _ off (len k)), (read_u16_holds _ (off + 2) (len v)) by (lia || done).
    cbn [mbind res_bind]. replace (off + 2 + 2) with (off + 4) in * by lia.
    destruct (Z.ltb_spec 4096 (off + 4)); [lia|]. destruct (Z.ltb_spec 4096 (off + 4 + len k + len v)); [lia|].
    subst ch. by rewrite (holds_slice _ _ k), (holds_slice _ _ v).
  - destruct Hh as (H1 & H2 & H3 & H4). unfold LeafCellHeaderSizeV2Min.
    pose proof (varintSize16_bounds (len v)). destruct (Z.ltb_spec 4096 (off + 2)); [lia|].
    rewrite (uvarint16_holds _ off (len k)) by (lia || done). destruct (Z.leb_spec (varintSize16 (len k)) 0); [lia|].
    rewrite (uvarint16_holds _ _ (len v)) by (lia || done). destruct (Z.leb_spec (varintSize16 (len v)) 0); [lia|].
    rewrite <-(Z.add_assoc off (varintSize16 (len k))) in H3, H4.
    destruct (Z.ltb_spec 4096 (off + (varintSize16 (len k) + varintSize16 (len v)) + len k + len v)); [lia|].
    subst ch. by rewrite (holds_slice _ _ k), (holds_slice _ _ v).
  - destruct Hh as (H1 & H2 & H3). unfold InternalCellHeaderSizeV1.
    rewrite (read_u16_holds _ off (len k)), (read_u32_holds _ (off + 2) ch) by (lia || done).
    cbn [mbind res_bind]. replace (off + 2 + 4) with (off + 6) in * by lia.
    destruct (Z.ltb_spec 4096 (off + 6)); [lia|]. destruct (Z.ltb_spec 4096 (off + 6 + len k)); [lia|].
    by rewrite (holds_slice _ _ k).
  - destruct Hh as (H1 & H2 & H3). unfold InternalCellHeaderSizeV2Min.
    destruct (Z.ltb_spec 4096 (off + 5)); [lia|].
    rewrite (uvarint16_holds _ off (len k)) by (lia || done). destruct (Z.leb_spec (varintSize16 (len k)) 0); [lia|].
    rewrite (read_u32_holds _ _ ch) by (lia || done). cbn [mbind res_bind]. rewrite <-(Z.add_assoc off (varintSize16 (len k))) in H3.
    destruct (Z.ltb_spec 4096 (off + (varintSize16 (len k) + 4) + len k)); [lia|].
    by rewrite (holds_slice _ _ k).
Qed.

(** Consecutive writes are one write. *)
Lemma copy_at_twice off (a b d : bytes) :
  0 ≤ off → off + len a + len b ≤ len d →
  copy_at (off + len a) b (copy_at off a d) = copy_at off (a ++ b) d.
Proof.
  intros H0 H. assert (Hd : ∃ pre x y post, d = pre ++ x ++ y ++ post ∧ len pre = off ∧
    length x = length a ∧ length y = length b).
  { exists (take (Z.to_nat off) d), (take (length a) (slice_from off d)),
      (take (length b) (slice_from (off + len a) d)), (slice_from (off + len a + len b) d).
    unfold slice_from. replace (Z.to_nat (off + len a)) with (Z.to_nat off + length a)%nat by (unfold len; lia).
    replace (Z.to_nat (off + len a + len b)) with (Z.to_nat off + length a + length b)%nat by (unfold len; lia).
    rewrite <-!drop_drop, !take_drop. split; [done|]. unfold len in *. rewrite !length_take, !length_drop. lia. }
  destruct Hd as (pre & x & y & post & -> & <- & Hx & Hy).
  rewrite (copy_at_app _ pre a x), app_assoc, (copy_at_app _ (pre ++ a) b y); [|by rewrite len_app|done|done|done].
  rewrite <-app_assoc. replace (pre ++ x ++ y ++ post) with (pre ++ (x ++ y) ++ post) by by rewrite <-!app_assoc.
  rewrite copy_at_app; [by rewrite <-app_assoc|done|]. rewrite !length_app. lia.
Qed.

Lemma put_at_fits off b d : off + len b ≤ len d → put_at off b d = Ok (copy_at off b d).
Proof. intros H. unfold put_at. by destruct (Z.ltb_spec (len d) (off + len b)); [lia|]. Qed.

Lemma copy_to_fits off b d : off + len b ≤ len d → copy_to off b d = Ok (copy_at off b d).
Proof. intros H. unfold copy_to. pose proof (len_nonneg b). by destruct (Z.ltb_spec (len d) off); [lia|]. Qed.

Lemma put_varint_fits off x d :
  0 ≤ off → 0 ≤ x < 2 ^ 16 → off + len (varint_bytes x) ≤ len d →
  put_varint_at off x d = Ok (copy_at off (varint_bytes x) d, len (varint_bytes x)).
Proof.
  intros H0 Hx H. pose proof (varint_bytes_pos x). unfold put_varint_at, putUvarint16.
  destruct (Z.ltb_spec (len d) off); [lia|].
  rewrite putUvarint_enc; [|lia|unfold len, slice_from in *; rewrite length_drop; lia]. cbn [mbind res_bind].
  rewrite copy_at_eq by done. do 3 f_equal. unfold slice_from, len. by rewrite drop_drop, Nat2Z.id.
Qed.

Lemma len_copy_at off (s d : bytes) : len (copy_at off s d) = len d.
Proof. unfold len. by rewrite length_copy_at. Qed.

(** Side conditions on lengths. *)
Ltac side := rewrite ?len_copy_at, ?len_app, ?len_be_put2, ?len_be_put4; lia.

Lemma writeCell_bytes p off c :
  0 ≤ off → off + len (pbytes p c) ≤ PageSize → len (pg_data p) = PageSize →
  writeCell p off c = Ok (with_data (copy_at off (pbytes p c) (pg_data p)) p).
Proof.
  intros H0 Hfit Hlen. destruct (cell_sizes (IsLeaf p) (isV1 p) c) as [Hk Hv]; [unfold pbytes in Hfit; lia|].
  unfold writeCell, writeLeafCell, writeInternalCell, pbytes, cell_bytes, isV1, PageSize in *.
  destruct c as [k v ch]. cbn [c_Key c_Value c_Child] in *.
  pose proof (len_nonneg (varint_bytes (len k))). pose proof (len_nonneg (varint_bytes (len v))).
  unfold LeafCellHeaderSizeV1, InternalCellHeaderSizeV1.
  destruct (IsLeaf p), (Version p =? PageFormatV1); try specialize (Hv eq_refl);
    rewrite !len_app, ?len_be_put2, ?len_be_put4 in Hfit; rewrite !u16_small by lia.
  all: repeat (first [rewrite put_varint_fits by side | rewrite put_at_fits by side | rewrite copy_to_fits by side];
         cbn [mbind res_bind]).
  all: do 2 f_equal; rewrite <-!copy_at_twice by side; rewrite ?len_be_put2, ?len_be_put4;
         repeat (f_equal; try lia).
Qed.

(** ** What a page holds *)

Definition dir_at (d : bytes) (i o : Z) : Prop := holds d (cellDirOffset i) (be_put 2 o).

(** The cell stands at offset [o], which is not below [fp]. *)
Definition cell_at (p : Page) (fp o : Z) (c : Cell) : Prop :=
  (fp ≤ o ∧ o + len (pbytes p c) ≤ PageSize) ∧ holds (pg_data p) o (pbytes p c) ∧ cell_typed (IsLeaf p) c.

(** The page stores the cells, in this order, at these offsets. *)
Record page_holds (p : Page) (cells : list Cell) (offs : list Z) : Prop := {
  ph_len : len (pg_data p) = PageSize;
  ph_num : NumCells p = len cells;
  ph_free : cellDirOffset (len cells) ≤ freePtr p ≤ PageSize;
  ph_cells : Forall2 (cell_at p (freePtr p)) offs cells;
  ph_dir : ∀ i o, offs !! i = Some o → dir_at (pg_data p) (Z.of_nat i) o;
}.

(** The fields a change of cells keeps. *)
Definition same_page (p p' : Page) : Prop :=
  pg_id p' = pg_id p ∧ pg_pageType p' = pg_pageType p ∧ Version p' = Version p ∧ RightPtr p' = RightPtr p ∧
  pg_data p' !! 0%nat = pg_data p !! 0%nat.

Lemma same_page_refl p : same_page p p.
Proof. done. Qed.

Lemma same_page_trans p q r : same_page p q → same_page q r → same_page p r.
Proof. unfold same_page. intros (-> & -> & -> & -> & ->). tauto. Qed.

Lemma same_page_bytes p p' c : same_page p p' → pbytes p' c = pbytes p c.
Proof. intros (_ & Ht & Hv & _). unfold pbytes, isV1, IsLeaf. by rewrite Ht, Hv. Qed.

Lemma same_page_leaf p p' : same_page p p' → IsLeaf p' = IsLeaf p.
Proof. intros (_ & Ht & _). unfold IsLeaf. by rewrite Ht. Qed.

(** A change behind the header, and the setters of the header. *)
Lemma header_frame lo hi p d' :
  same_outside lo hi (pg_data p) d' → HeaderSize ≤ lo →
  NumCells (with_data d' p) = NumCells p ∧ freePtr (with_data d' p) = freePtr p ∧ same_page p (with_data d' p).
Proof.
  intros Hs Hlo. unfold NumCells, freePtr, same_page, RightPtr, Version, be_u16, be_u32, HeaderSize in *.
  cbn [pg_data pg_id pg_pageType with_data].
  rewrite !(outside_read lo hi (pg_data p) d') by (unfold HeaderOffsetNumCells, HeaderOffsetFreePtr, HeaderOffsetRightPtr; done || lia).
  destruct Hs as [_ Hs]. rewrite !Hs by (unfold HeaderOffsetVersion; lia). done.
Qed.

Lemma set_field_frame off (b : bytes) p :
  len (pg_data p) = PageSize → 0 ≤ off → off + len b ≤ HeaderSize →
  same_outside off (off + len b) (pg_data p) (copy_at off b (pg_data p)).
Proof. intros Hl H0 H. apply copy_at_outside; [done|]. unfold HeaderSize, PageSize in *. lia. Qed.

Lemma be_u16_at d off z : 0 ≤ z < 2 ^ 16 → holds d off (be_put 2 z) → be_u16 (slice_from off d) = z.
Proof. intros Hz H. destruct (holds_from d off _ H) as [r ->]. by apply be_u16_put. Qed.

Lemma setNumCells_spec n p :
  len (pg_data p) = PageSize → 0 ≤ n < 2 ^ 16 →
  let p' := setNumCells n p in
  NumCells p' = n ∧ freePtr p' = freePtr p ∧ same_page p p' ∧ same_outside 1 3 (pg_data p) (pg_data p').
Proof.
  intros Hl Hn. assert (Hs : same_outside 1 3 (pg_data p) (pg_data (setNumCells n p))).
  { apply (set_field_frame 1 (be_put 2 n) p); rewrite ?len_be_put2; unfold HeaderSize; done || lia. }
  split; [apply be_u16_at; [done|]; apply copy_at_holds; rewrite ?len_be_put2; unfold PageSize, HeaderOffsetNumCells in *; lia|].
  unfold freePtr, same_page, RightPtr, Version, be_u16, be_u32.
  rewrite !(outside_read 1 3 (pg_data p) (pg_data (setNumCells n p))) by (unfold HeaderOffsetFreePtr, HeaderOffsetRightPtr; done || lia).
  pose proof Hs as [_ Hv]. rewrite (Hv (Z.to_nat HeaderOffsetVersion)), (Hv 0%nat) by (unfold HeaderOffsetVersion; lia). done.
Qed.

Lemma setFreePtr_spec n p :
  len (pg_data p) = PageSize → 0 ≤ n < 2 ^ 16 →
  let p' := setFreePtr n p in
  freePtr p' = n ∧ NumCells p' = NumCells p ∧ same_page p p' ∧ same_outside 7 9 (pg_data p) (pg_data p').
Proof.
  intros Hl Hn. assert (Hs : same_outside 7 9 (pg_data p) (pg_data (setFreePtr n p))).
  { apply (set_field_frame 7 (be_put 2 n) p); rewrite ?len_be_put2; unfold HeaderSize; done || lia. }
  split; [apply be_u16_at; [done|]; apply copy_at_holds; rewrite ?len_be_put2; unfold PageSize, HeaderOffsetFreePtr in *; lia|].
  unfold NumCells, same_page, RightPtr, Version, be_u16, be_u32.
  rewrite !(outside_read 7 9 (pg_data p) (pg_data (setFreePtr n p))) by (unfold HeaderOffsetNumCells, HeaderOffsetRightPtr; done || lia).
  pose proof Hs as [_ Hv]. rewrite (Hv (Z.to_nat HeaderOffsetVersion)), (Hv 0%nat) by (unfold HeaderOffsetVersion; lia). done.
Qed.

(** A change below the cells keeps them. *)
Lemma cell_at_frame p p' fp fp' lo hi o c :
  same_page p p' → same_outside lo hi (pg_data p) (pg_data p') → 0 ≤ fp → hi ≤ fp → fp' ≤ fp →
  cell_at p fp o c → cell_at p' fp' o c.
Proof.
  intros Hp Hs H0 Hhi Hfp ([H1 H2] & Hh & Ht). unfold cell_at.
  rewrite (same_page_bytes p p' c Hp), (same_page_leaf p p' Hp). split; [lia|]. split; [|done].
  eapply outside_holds; [exact Hs|lia|lia|done].
Qed.

Lemma getCellOffset_at p i o :
  len (pg_data p) = PageSize → 0 ≤ i → 0 ≤ o < 2 ^ 16 → dir_at (pg_data p) i o → getCellOffset p i = Ok o.
Proof.
  intros Hl Hi Ho Hd. unfold getCellOffset. apply read_u16_holds; [|done|done].
  unfold cellDirOffset, HeaderSize, CellDirEntrySize. lia.
Qed.

Lemma setCellOffset_at p i o :
  len (pg_data p) = PageSize → 0 ≤ i → cellDirOffset (i + 1) ≤ PageSize →
  let d := copy_at (cellDirOffset i) (be_put 2 o) (pg_data p) in
  setCellOffset i o p = Ok (with_data d p) ∧ dir_at d i o ∧
  same_outside (cellDirOffset i) (cellDirOffset (i + 1)) (pg_data p) d.
Proof.
  intros Hl Hi Hfit. unfold cellDirOffset, HeaderSize, CellDirEntrySize in *. cbn zeta.
  unfold setCellOffset, dir_at, cellDirOffset, HeaderSize, CellDirEntrySize.
  rewrite put_at_fits by (rewrite len_be_put2; lia). split; [done|]. split.
  - apply copy_at_holds; [lia|]. rewrite len_be_put2. lia.
  - eapply same_outside_mono; [| |apply copy_at_outside]; rewrite ?len_be_put2; lia.
Qed.

(** Moving [n] entries of the directory one place up. *)
Lemma shift_up_spec n : ∀ i p (f : Z → Z),
  len (pg_data p) = PageSize → Z.of_nat n ≤ i → cellDirOffset (i + 1) ≤ PageSize →
  (∀ j, i - Z.of_nat n ≤ j < i → 0 ≤ f j < 2 ^ 16 ∧ dir_at (pg_data p) j (f j)) →
  ∃ d, shift_up n i p = Ok (with_data d p) ∧
    same_outside (cellDirOffset (i - Z.of_nat n + 1)) (cellDirOffset (i + 1)) (pg_data p) d ∧
    ∀ j, i - Z.of_nat n ≤ j < i → dir_at d (j + 1) (f j).
Proof.
  induction n as [|n IH]; intros i p f Hl Hi Hfit Hf.
  - exists (pg_data p). split; [by destruct p|]. split; [done|]. intros j Hj. lia.
  - destruct (Hf (i - 1)) as [Hr Hd]; [lia|]. cbn [shift_up].
    rewrite (getCellOffset_at p (i - 1) (f (i - 1))) by (done || lia). cbn [mbind res_bind].
    destruct (setCellOffset_at p i (f (i - 1)) Hl) as (-> & Hat & Hs); [lia|done|]. cbn [mbind res_bind].
    set (d1 := copy_at _ _ _) in *. unfold cellDirOffset, HeaderSize, CellDirEntrySize in Hs, Hfit.
    destruct (IH (i - 1) (with_data d1 p) f) as (d & E & Hs' & Hd').
    + destruct Hs as [L _]. unfold len in *. cbn [with_data pg_data]. lia.
    + lia.
    + unfold cellDirOffset, HeaderSize, CellDirEntrySize. lia.
    + intros j Hj. destruct (Hf j) as [Hrj Hdj]; [lia|]. split; [done|].
      unfold dir_at, cellDirOffset, HeaderSize, CellDirEntrySize in *.
      eapply outside_holds; [exact Hs|lia| |exact Hdj]. rewrite len_be_put2. lia.
    + exists d. split; [done|]. cbn [with_data pg_data] in Hs'.
      unfold dir_at, cellDirOffset, HeaderSize, CellDirEntrySize in *. split.
      * eapply same_outside_trans; (eapply same_outside_mono; [| |eassumption]); lia.
      * intros j Hj. destruct (decide (j = i - 1)) as [->|]; [|apply Hd'; lia].
        replace (i - 1 + 1) with i by lia. eapply outside_holds; [exact Hs'|lia| |exact Hat].
        rewrite len_be_put2. lia.
Qed.

(** Moving [n] entries of the directory one place down. *)
Lemma shift_down_spec n : ∀ i p (f : Z → Z),
  len (pg_data p) = PageSize → 0 ≤ i → cellDirOffset (i + Z.of_nat n + 1) ≤ PageSize →
  (∀ j, i < j ≤ i + Z.of_nat n → 0 ≤ f j < 2 ^ 16 ∧ dir_at (pg_data p) j (f j)) →
  ∃ d, shift_down n i p = Ok (with_data d p) ∧
    same_outside (cellDirOffset i) (cellDirOffset (i + Z.of_nat n)) (pg_data p) d ∧
    ∀ j, i ≤ j < i + Z.of_nat n → dir_at d j (f (j + 1)).
Proof.
  induction n as [|n IH]; intros i p f Hl Hi Hfit Hf.
  - exists (pg_data p). split; [by destruct p|]. split; [done|]. intros j Hj. lia.
  - destruct (Hf (i + 1)) as [Hr Hd]; [lia|]. cbn [shift_down].
    unfold cellDirOffset, HeaderSize, CellDirEntrySize in Hfit.
    rewrite (getCellOffset_at p (i + 1) (f (i + 1))) by (done || lia). cbn [mbind res_bind].
    destruct (setCellOffset_at p i (f (i + 1)) Hl) as (-> & Hat & Hs);
      [lia|unfold cellDirOffset, HeaderSize, CellDirEntrySize; lia|]. cbn [mbind res_bind].
    set (d1 := copy_at _ _ _) in *. unfold cellDirOffset, HeaderSize, CellDirEntrySize in Hs.
    destruct (IH (i + 1) (with_data d1 p) f) as (d & E & Hs' & Hd').
    + destruct Hs as [L _]. unfold len in *. cbn [with_data pg_data]. lia.
    + lia.
    + unfold cellDirOffset, HeaderSize, CellDirEntrySize. lia.
    + intros j Hj. destruct (Hf j) as [Hrj Hdj]; [lia|]. split; [done|].
      unfold dir_at, cellDirOffset, HeaderSize, CellDirEntrySize in *.
      eapply outside_holds; [exact Hs|lia| |exact Hdj]. rewrite len_be_put2. lia.
    + exists d. split; [done|]. cbn [with_data pg_data] in Hs'.
      unfold dir_at, cellDirOffset, HeaderSize, CellDirEntrySize in *. split.
      * eapply same_outside_trans; (eapply same_outside_mono; [| |eassumption]); lia.
      * intros j Hj. destruct (decide (j = i)) as [->|]; [|apply Hd'; lia].
        eapply outside_holds; [exact Hs'|lia| |exact Hat]. rewrite len_be_put2. lia.
Qed.

(** ** Reading what the page holds *)

Section reading.
Context (p : Page) (cells : list Cell) (offs : list Z) (Hp : page_holds p cells offs).

Lemma cells_few : 0 ≤ len cells ≤ 2043.
Proof using Hp.
  pose proof (ph_free _ _ _ Hp). pose proof (len_nonneg cells).
  unfold cellDirOffset, HeaderSize, CellDirEntrySize, PageSize in *. lia.
Qed.

Lemma offset_of i c : cells !! i = Some c → ∃ o, offs !! i = Some o ∧ freePtr p ≤ o < PageSize ∧ 0 ≤ o < 2 ^ 16 ∧
  o + len (pbytes p c) ≤ PageSize ∧ holds (pg_data p) o (pbytes p c) ∧ cell_typed (IsLeaf p) c.
Proof using Hp.
  intros Hc. destruct (Forall2_lookup_r _ _ _ _ _ (ph_cells _ _ _ Hp) Hc) as (o & Ho & [H1 H2] & H3 & H4).
  exists o. pose proof (ph_free _ _ _ Hp) as Hf. pose proof cells_few.
  assert (0 < len (pbytes p c)).
  { unfold pbytes, cell_bytes. pose proof (varint_bytes_pos (len (c_Key c))).
    pose proof (len_nonneg (c_Key c)). pose proof (len_nonneg (c_Value c)). pose proof (varint_bytes_pos (len (c_Value c))).
    destruct (IsLeaf p), (isV1 p); rewrite !len_app, ?len_be_put2, ?len_be_put4; lia. }
  unfold cellDirOffset, HeaderSize, CellDirEntrySize, PageSize in *. split_and!; done || lia.
Qed.

Lemma CellAt_spec i c : cells !! i = Some c → CellAt p (Z.of_nat i) = Ok c.
Proof using Hp.
  intros Hc. destruct (offset_of i c Hc) as (o & Ho & Hr & H16 & Hfit & Hh & Ht).
  pose proof (lookup_lt_Some _ _ _ Hc) as Hlt. pose proof cells_few.
  unfold CellAt. rewrite (ph_num _ _ _ Hp). destruct (Z.leb_spec (len cells) (Z.of_nat i)); [unfold len in *; lia|].
  rewrite (getCellOffset_at p (Z.of_nat i) o); [|apply Hp|lia|done|by apply Hp]. cbn [mbind res_bind].
  apply (parseCell_holds p o c); done || lia.
Qed.

Lemma CellAt_end i : len cells ≤ i → CellAt p i = Err ErrCellNotFound.
Proof using Hp.
  intros Hi. unfold CellAt. rewrite (ph_num _ _ _ Hp). by destruct (Z.leb_spec (len cells) i); [|lia].
Qed.

(** The binary search, between two positions that bound the key. *)
Lemma searchCell_loop_spec fuel key : ∀ l r : nat,
  StronglySorted (key_lt c_Key) cells → (l ≤ r ≤ length cells)%nat → (r - l ≤ fuel)%nat →
  (∀ i c, (i < l)%nat → cells !! i = Some c → bytes_lt (c_Key c) key) →
  (∀ i c, (r ≤ i)%nat → cells !! i = Some c → bytes_lt key (c_Key c)) →
  (∃ i c, cells !! i = Some c ∧ c_Key c = key ∧
     searchCell_loop fuel p key (Z.of_nat l) (Z.of_nat r) = Ok (- (Z.of_nat i + 1))) ∨
  (∃ i, (i ≤ length cells)%nat ∧ searchCell_loop fuel p key (Z.of_nat l) (Z.of_nat r) = Ok (Z.of_nat i) ∧
     (∀ j c, (j < i)%nat → cells !! j = Some c → bytes_lt (c_Key c) key) ∧
     (∀ j c, (i ≤ j)%nat → cells !! j = Some c → bytes_lt key (c_Key c))).
Proof using Hp.
  induction fuel as [|fuel IH]; intros l r Hs Hlr Hf Hlo Hhi; cbn [searchCell_loop].
  - right. exists l. assert (l = r) as -> by lia. split_and!; [lia|done..].
  - destruct (Z.ltb_spec (Z.of_nat l) (Z.of_nat r)) as [Hlt|Hge].
    2:{ right. exists l. assert (l = r) as -> by lia. split_and!; [lia|done..]. }
    set (m := ((l + r) / 2)%nat).
    assert (Hm : (l ≤ m < r)%nat).
    { split; [apply Nat.div_le_lower_bound|apply Nat.Div0.div_lt_upper_bound]; lia. }
    replace ((Z.of_nat l + Z.of_nat r) / 2) with (Z.of_nat m) by (unfold m; rewrite Nat2Z.inj_div, Nat2Z.inj_add; done).
    destruct (lookup_lt_is_Some_2 cells m) as [c Hc]; [lia|]. pose proof cells_few.
    rewrite u16_small by (unfold len in *; lia). rewrite (CellAt_spec m c Hc).
    assert (Hmono : ∀ i j x y, (i < j)%nat → cells !! i = Some x → cells !! j = Some y → bytes_lt (c_Key x) (c_Key y)).
    { intros i j x y Hij Hx Hy. exact (sorted_lookup_lt c_Key cells i j x y Hs Hij Hx Hy). }
    destruct (bytes_compare key (c_Key c)) eqn:Ec.
    + apply bytes_compare_eq in Ec. left. exists m, c. done.
    + apply (IH l m); try done; [lia|lia|]. intros j x Hj Hx. change (bytes_lt key (c_Key c)) in Ec.
      destruct (decide (j = m)) as [->|]; [by simplify_eq|]. etrans; [exact Ec|]. apply (Hmono m j); done || lia.
    + assert (Hck : bytes_lt (c_Key c) key) by (unfold bytes_lt; rewrite bytes_compare_antisym, Ec; done).
      replace (Z.of_nat m + 1) with (Z.of_nat (S m)) by lia.
      apply (IH (S m) r); try done; [lia|lia|]. intros j x Hj Hx.
      destruct (decide (j = m)) as [->|]; [by simplify_eq|]. etrans; [|exact Hck]. apply (Hmono j m); done || lia.
Qed.
End reading.

Lemma searchCell_spec p cells offs key :
  page_holds p cells offs → StronglySorted (key_lt c_Key) cells →
  (∃ a c b, cells = a ++ c :: b ∧ c_Key c = key ∧ searchCell p key = Ok (- (len a + 1))) ∨
  (∃ a b, cells = a ++ b ∧ Forall (λ c, bytes_lt (c_Key c) key) a ∧ Forall (λ c, bytes_lt key (c_Key c)) b ∧
     searchCell p key = Ok (len a)).
Proof.
  intros Hp Hs. unfold searchCell. rewrite (ph_num _ _ _ Hp). replace (Z.to_nat (len cells)) with (length cells) by (unfold len; lia).
  change 0 with (Z.of_nat 0). change (len cells) with (Z.of_nat (length cells)).
  destruct (searchCell_loop_spec p cells offs Hp (length cells) key 0 (length cells) Hs)
    as [(i & c & Hc & Hk & E)|(i & Hi & E & Hlo & Hhi)]; [lia|lia|lia| | |].
  - intros i c Hi Hc. apply lookup_lt_Some in Hc. lia.
  - left. exists (take i cells), c, (drop (S i) cells). split; [by rewrite take_drop_middle|]. split; [done|].
    rewrite E. do 2 f_equal. unfold len. rewrite length_take. apply lookup_lt_Some in Hc. lia.
  - right. exists (take i cells), (drop i cells). split; [by rewrite take_drop|].
    split_and!; [apply Forall_forall; intros x Hx; apply list_elem_of_lookup in Hx as [j Hj]..|].
    + apply lookup_take_Some in Hj as [Hj ?]. by apply (Hlo j).
    + rewrite lookup_drop in Hj. apply (Hhi (i + j)%nat); [lia|done].
    + rewrite E. f_equal. unfold len. rewrite length_take. lia.
Qed.

(** ** Deleting a cell *)

Lemma dirty_holds p cells offs : page_holds p cells offs → page_holds (SetDirty true p) cells offs.
Proof. by intros [? ? ? ? ?]. Qed.

(** The offsets of a page are 16-bit values. *)
Lemma offsets_small p cells offs i o :
  page_holds p cells offs → offs !! i = Some o → 0 ≤ o < 2 ^ 16.
Proof.
  intros Hp Ho. destruct (Forall2_lookup_l _ _ _ _ _ (ph_cells _ _ _ Hp) Ho) as (c & Hc & _).
  destruct (offset_of p cells offs Hp i c Hc) as (o' & Ho' & _ & H & _). by simplify_eq.
Qed.

(** The number a directory index stands for. *)
Definition off_at (offs : list Z) (j : Z) : Z := default 0 (offs !! Z.to_nat j).

Lemma off_at_dir p cells offs j :
  page_holds p cells offs → 0 ≤ j < len offs →
  0 ≤ off_at offs j < 2 ^ 16 ∧ dir_at (pg_data p) j (off_at offs j).
Proof.
  intros Hp Hj. destruct (lookup_lt_is_Some_2 offs (Z.to_nat j)) as [o Ho]; [unfold len in *; lia|].
  unfold off_at. rewrite Ho. split; [by eapply offsets_small|].
  replace j with (Z.of_nat (Z.to_nat j)) by lia. by apply Hp.
Qed.

Ltac dir_lia := unfold dir_at, cellDirOffset, HeaderSize, CellDirEntrySize, PageSize, len in *; lia.

(** The directory without its entry at the place of [o]. *)
Lemma delete_dir p cells oa o ob :
  page_holds p cells (oa ++ o :: ob) →
  ∃ d, shift_down (length ob) (len oa) p = Ok (with_data d p) ∧
    same_outside (cellDirOffset (len oa)) (cellDirOffset (len oa + len ob)) (pg_data p) d ∧
    ∀ i y, (oa ++ ob) !! i = Some y → dir_at d (Z.of_nat i) y.
Proof.
  intros Hp. pose proof (cells_few _ _ _ Hp) as Hfew. pose proof (ph_free _ _ _ Hp) as Hf.
  pose proof (Forall2_length _ _ _ (ph_cells _ _ _ Hp)) as Hlen. rewrite length_app in Hlen. simpl in Hlen.
  destruct (shift_down_spec (length ob) (len oa) p (off_at (oa ++ o :: ob)) (ph_len _ _ _ Hp))
    as (d & E & Hs & Hdir); [apply len_nonneg|dir_lia| |].
  { intros j Hj. eapply off_at_dir; [done|]. rewrite len_app, len_cons. unfold len in *. lia. }
  exists d. split; [done|]. split; [done|]. intros i y Hi. unfold dir_at.
  destruct (decide (i < length oa)%nat) as [Hlt|Hge].
  - rewrite lookup_app_l in Hi by lia. eapply outside_holds; [exact Hs|dir_lia|rewrite len_be_put2; dir_lia|].
    apply Hp. by rewrite lookup_app_l by lia.
  - rewrite lookup_app_r in Hi by lia. pose proof (lookup_lt_Some _ _ _ Hi) as Hlt.
    replace y with (off_at (oa ++ o :: ob) (Z.of_nat i + 1)); [apply Hdir; unfold len; lia|].
    unfold off_at. rewrite lookup_app_r by lia.
    replace (Z.to_nat (Z.of_nat i + 1) - length oa)%nat with (S (i - length oa)) by lia. simpl. by rewrite Hi.
Qed.

Lemma DeleteCell_spec p a c b oa o ob :
  page_holds p (a ++ c :: b) (oa ++ o :: ob) → length oa = length a →
  ∃ p', DeleteCell p (len a) = (p', Ok tt) ∧ page_holds p' (a ++ b) (oa ++ ob) ∧ same_page p p' ∧
    freePtr p' = freePtr p.
Proof.
  intros Hp Hoa. pose proof (cells_few _ _ _ Hp) as Hfew. pose proof Hp as [Hl Hn Hf Hc Hd].
  pose proof (Forall2_length _ _ _ Hc) as Hlen. rewrite !length_app in Hlen. simpl in Hlen.
  rewrite len_app, len_cons in Hfew, Hf, Hn. pose proof (len_nonneg a). pose proof (len_nonneg b).
  unfold DeleteCell. rewrite Hn. destruct (Z.leb_spec (len a + (1 + len b)) (len a)); [lia|].
  replace (Z.to_nat (len a + (1 + len b) - 1 - len a)) with (length ob) by (unfold len; lia).
  replace (len a) with (len oa) in * by (unfold len; lia).
  destruct (delete_dir p _ oa o ob Hp) as (d & -> & Hs & Hdir).
  destruct (header_frame _ _ p d Hs) as (En & Ef & Hsp); [dir_lia|].
  assert (Hl' : len (pg_data (with_data d p)) = PageSize) by (destruct Hs as [L _]; unfold len in *; cbn [with_data pg_data]; lia).
  destruct (setNumCells_spec (u16 (len oa + (1 + len b) - 1)) (with_data d p) Hl') as (En' & Ef' & Hsp' & Hs');
    [apply u16_range|].
  rewrite (u16_small (len oa + (1 + len b) - 1)) in * by lia. set (p1 := setNumCells _ _) in *.
  exists (SetDirty true p1). split; [done|]. split; [apply dirty_holds; split|].
  - destruct Hs' as [L _]. unfold len in *. lia.
  - rewrite En', len_app. unfold len in *. lia.
  - rewrite Ef', Ef, len_app. dir_lia.
  - rewrite Ef', Ef. apply Forall2_app_inv in Hc as [Hc1 Hc2]; [|done]. apply Forall2_cons in Hc2 as [_ Hc2].
    eapply Forall2_impl; [by apply Forall2_app|]. intros y x Hx.
    eapply (cell_at_frame (with_data d p) p1 (freePtr p)); [done|exact Hs'|dir_lia|dir_lia|reflexivity|].
    eapply (cell_at_frame p (with_data d p) (freePtr p)); [done|exact Hs|dir_lia|dir_lia|reflexivity|done].
  - intros i y Hi. eapply outside_holds; [exact Hs'|dir_lia|dir_lia|by apply Hdir].
  - split; [exact (same_page_trans _ _ _ Hsp Hsp')|]. etrans; [exact Ef'|exact Ef].
Qed.

(** ** Inserting a cell *)

Lemma cellSize_bytes p c :
  len (c_Key c) < 2 ^ 16 → len (c_Value c) < 2 ^ 16 →
  cellSize p (len (c_Key c)) (if IsLeaf p then len (c_Value c) else 0) = len (pbytes p c).
Proof.
  intros Hk Hv. unfold cellSize, pbytes, cell_bytes, isV1, LeafCellHeaderSizeV1, InternalCellHeaderSizeV1.
  pose proof (len_nonneg (c_Key c)). pose proof (len_nonneg (c_Value c)).
  destruct (IsLeaf p), (Version p =? PageFormatV1);
    rewrite !len_app, ?len_be_put2, ?len_be_put4, ?len_varint, ?u16_small by lia; lia.
Qed.

(** A page that is not full has room for the bytes of the cell and one directory entry. *)
Lemma IsFull_spec p cells offs c :
  page_holds p cells offs →
  IsFull p (len (c_Key c)) (if IsLeaf p then len (c_Value c) else 0) = false →
  (IsLeaf p = false → c_Value c = []) →
  cellSize p (len (c_Key c)) (if IsLeaf p then len (c_Value c) else 0) = len (pbytes p c) ∧
  cellDirOffset (len cells + 1) + len (pbytes p c) ≤ freePtr p.
Proof.
  intros Hp Hfull Hval. pose proof (cells_few _ _ _ Hp) as Hfew. pose proof (ph_free _ _ _ Hp) as Hf.
  unfold IsFull in Hfull. apply Z.ltb_ge in Hfull. rewrite (ph_num _ _ _ Hp), u16_small in Hfull by lia.
  pose proof (len_nonneg (c_Key c)). pose proof (len_nonneg (c_Value c)).
  assert (Hsz : len (c_Key c) < 2 ^ 16 ∧ len (c_Value c) < 2 ^ 16).
  { unfold cellSize, LeafCellHeaderSizeV1, InternalCellHeaderSizeV1 in Hfull.
    pose proof (varintSize16_bounds (u16 (len (c_Key c)))). pose proof (varintSize16_bounds (u16 (len (c_Value c)))).
    unfold cellDirOffset, HeaderSize, CellDirEntrySize, PageSize in *.
    destruct (IsLeaf p), (Version p =? PageFormatV1); try rewrite (Hval eq_refl), len_nil; lia. }
  rewrite cellSize_bytes in * by apply Hsz. split; [done|]. lia.
Qed.

Lemma page_holds_write p cells offs lo hi d :
  page_holds p cells offs → same_outside lo hi (pg_data p) d → cellDirOffset (len cells) ≤ lo → hi ≤ freePtr p →
  page_holds (with_data d p) cells offs ∧ same_page p (with_data d p) ∧ freePtr (with_data d p) = freePtr p.
Proof.
  intros Hp Hs Hlo Hhi. pose proof (cells_few _ _ _ Hp). pose proof Hp as [Hl Hn Hf Hc Hd].
  destruct (header_frame lo hi p d Hs) as (En & Ef & Hsp); [dir_lia|]. split; [split|done].
  - destruct Hs as [L _]. unfold len in *. cbn [with_data pg_data]. lia.
  - by rewrite En.
  - by rewrite Ef.
  - rewrite Ef. eapply Forall2_impl; [exact Hc|]. intros o c Hx.
    eapply (cell_at_frame p (with_data d p) (freePtr p)); [done|exact Hs|dir_lia|done|reflexivity|done].
  - intros i o Hi. pose proof (lookup_lt_Some _ _ _ Hi). pose proof (Forall2_length _ _ _ Hc).
    eapply outside_holds; [exact Hs|dir_lia|rewrite len_be_put2; dir_lia|by apply Hd].
Qed.

(** The directory with a new entry between [oa] and [ob]. *)
Lemma insert_dir p cells oa ob o :
  page_holds p cells (oa ++ ob) → cellDirOffset (len cells + 1) ≤ freePtr p → 0 ≤ o < 2 ^ 16 →
  ∃ d, (p ← shift_up (length ob) (len oa + len ob) p; setCellOffset (len oa) o p) = Ok (with_data d p) ∧
    same_outside (cellDirOffset (len oa)) (cellDirOffset (len oa + len ob + 1)) (pg_data p) d ∧
    ∀ i y, (oa ++ o :: ob) !! i = Some y → dir_at d (Z.of_nat i) y.
Proof.
  intros Hp Hroom Ho. pose proof (cells_few _ _ _ Hp) as Hfew. pose proof (ph_free _ _ _ Hp) as Hf.
  pose proof (Forall2_length _ _ _ (ph_cells _ _ _ Hp)) as Hlen. rewrite length_app in Hlen.
  destruct (shift_up_spec (length ob) (len oa + len ob) p (off_at (oa ++ ob)) (ph_len _ _ _ Hp))
    as (d & -> & Hs & Hdir); [unfold len; lia|dir_lia| |].
  { intros j Hj. eapply off_at_dir; [done|]. rewrite len_app. unfold len in *. lia. }
  cbn [mbind res_bind]. assert (Hl' : len (pg_data (with_data d p)) = PageSize).
  { pose proof (ph_len _ _ _ Hp). destruct Hs as [L _]. unfold len in *. cbn [with_data pg_data]. lia. }
  destruct (setCellOffset_at (with_data d p) (len oa) o Hl') as (-> & Hat & Hs'); [apply len_nonneg|dir_lia|].
  set (d' := copy_at _ _ _) in *. exists d'. split; [done|]. cbn [with_data pg_data] in *. split.
  { eapply same_outside_trans; (eapply same_outside_mono; [| |eassumption]); dir_lia. }
  intros i y Hi. destruct (decide (i < length oa)%nat) as [Hlt|Hge].
  - rewrite lookup_app_l in Hi by lia. unfold dir_at.
    eapply outside_holds; [exact Hs'|dir_lia|rewrite len_be_put2; dir_lia|].
    eapply outside_holds; [exact Hs|dir_lia|rewrite len_be_put2; dir_lia|]. apply Hp. by rewrite lookup_app_l by lia.
  - rewrite lookup_app_r in Hi by lia. destruct (i - length oa)%nat as [|m] eqn:Em; simpl in Hi.
    + simplify_eq. by replace (Z.of_nat i) with (len oa) by (unfold len; lia).
    + pose proof (lookup_lt_Some _ _ _ Hi) as Hlt. unfold dir_at.
      eapply outside_holds; [exact Hs'|dir_lia|rewrite len_be_put2; dir_lia|].
      replace (Z.of_nat i) with (Z.of_nat i - 1 + 1) by lia.
      replace y with (off_at (oa ++ ob) (Z.of_nat i - 1)); [apply Hdir; unfold len; lia|].
      unfold off_at. rewrite lookup_app_r by lia.
      replace (Z.to_nat (Z.of_nat i - 1) - length oa)%nat with m by lia. by rewrite Hi.
Qed.

(** Writing the bytes of a new cell below the others. *)
Lemma write_below p cells offs c :
  page_holds p cells offs → cellDirOffset (len cells + 1) + len (pbytes p c) ≤ freePtr p →
  let o := freePtr p - len (pbytes p c) in
  ∃ d, writeCell p o c = Ok (with_data d p) ∧ holds d o (pbytes p c) ∧
    page_holds (with_data d p) cells offs ∧ same_page p (with_data d p) ∧ freePtr (with_data d p) = freePtr p.
Proof.
  intros Hp Hroom o. pose proof (ph_free _ _ _ Hp) as Hf. pose proof (ph_len _ _ _ Hp) as Hl.
  pose proof (len_nonneg (pbytes p c)). pose proof (cells_few _ _ _ Hp). subst o.
  exists (copy_at (freePtr p - len (pbytes p c)) (pbytes p c) (pg_data p)).
  split; [apply writeCell_bytes; [dir_lia|lia|done]|]. split; [apply copy_at_holds; dir_lia|].
  eapply page_holds_write; [done|apply copy_at_outside; dir_lia|dir_lia|lia].
Qed.

Lemma link_cell_spec p a b oa ob c o :
  page_holds p (a ++ b) (oa ++ ob) → length oa = length a → cell_typed (IsLeaf p) c →
  holds (pg_data p) o (pbytes p c) → cellDirOffset (len (a ++ b) + 1) ≤ o → o + len (pbytes p c) = freePtr p →
  ∃ p', link_cell p (len (a ++ b)) (len a) o = Ok p' ∧ page_holds p' (a ++ c :: b) (oa ++ o :: ob) ∧
    same_page p p' ∧ freePtr p' = o.
Proof.
  intros Hp Hoa Ht Hh Hroom Hend. pose proof (cells_few _ _ _ Hp) as Hfew. pose proof Hp as [Hl Hn Hf Hc Hd].
  pose proof (Forall2_length _ _ _ Hc) as Hlen. rewrite !length_app in Hlen. pose proof (len_nonneg (pbytes p c)) as Hnn.
  destruct (insert_dir p _ oa ob o Hp) as (d & Ed & Hs & Hdir); [lia|dir_lia|]. unfold link_cell.
  replace (Z.to_nat (len (a ++ b) - len a)) with (length ob) by (rewrite len_app; unfold len; lia).
  replace (len (a ++ b)) with (len oa + len ob) in * by (rewrite len_app; unfold len; lia).
  replace (len a) with (len oa) by (unfold len; lia). rewrite Ed. cbn [mbind res_bind]. rewrite u16_small by lia.
  destruct (header_frame _ _ p d Hs) as (En & Ef & Hsp); [dir_lia|]. set (p1 := with_data d p) in *.
  assert (Hl1 : len (pg_data p1) = PageSize) by (destruct Hs as [L _]; unfold p1, len in *; cbn [with_data pg_data]; lia).
  destruct (setNumCells_spec (len oa + len ob + 1) p1 Hl1) as (En2 & Ef2 & Hsp2 & Hs2); [lia|].
  set (p2 := setNumCells _ p1) in *.
  assert (Hl2 : len (pg_data p2) = PageSize) by (destruct Hs2 as [L _]; unfold len in *; lia).
  destruct (setFreePtr_spec o p2 Hl2) as (Ef3 & En3 & Hsp3 & Hs3); [dir_lia|]. set (p3 := setFreePtr o p2) in *.
  assert (Hsp' : same_page p p3) by (eapply same_page_trans; [|exact Hsp3]; by eapply same_page_trans).
  exists (SetDirty true p3). split; [done|]. split; [apply dirty_holds; split|done].
  - destruct Hs3 as [L _]. unfold len in *. lia.
  - rewrite En3, En2, len_app, len_cons. unfold len. lia.
  - rewrite Ef3, len_app, len_cons. dir_lia.
  - rewrite Ef3. assert (Hall : Forall2 (cell_at p o) (oa ++ o :: ob) (a ++ c :: b)).
    { apply Forall2_app_inv in Hc as [Hc1 Hc2]; [|done].
      assert (Hw : ∀ x y, cell_at p (freePtr p) x y → cell_at p o x y) by (intros x y ([? ?] & ? & ?); split; [lia|done]).
      apply Forall2_app; [by eapply Forall2_impl|]. constructor; [|by eapply Forall2_impl].
      split; [dir_lia|done]. }
    eapply Forall2_impl; [exact Hall|]. intros x y Hx.
    eapply (cell_at_frame p2 p3 o); [done|exact Hs3|dir_lia|dir_lia|reflexivity|].
    eapply (cell_at_frame p1 p2 o); [done|exact Hs2|dir_lia|dir_lia|reflexivity|].
    eapply (cell_at_frame p p1 o); [done|exact Hs|dir_lia|dir_lia|reflexivity|done].
  - intros i y Hi. eapply outside_holds; [exact Hs3|dir_lia|dir_lia|].
    eapply outside_holds; [exact Hs2|dir_lia|dir_lia|by apply Hdir].
Qed.

Lemma place_cell_spec p a b oa ob c ks vs :
  page_holds p (a ++ b) (oa ++ ob) → length oa = length a → cell_typed (IsLeaf p) c →
  cellSize p ks vs = len (pbytes p c) → cellDirOffset (len (a ++ b) + 1) + len (pbytes p c) ≤ freePtr p →
  ∃ p' o, place_cell p c (len a) ks vs = Ok p' ∧ page_holds p' (a ++ c :: b) (oa ++ o :: ob) ∧
    same_page p p' ∧ freePtr p' = freePtr p - len (pbytes p c).
Proof.
  intros Hp Hoa Ht Hsz Hroom. pose proof (cells_few _ _ _ Hp). pose proof (ph_free _ _ _ Hp) as Hf.
  pose proof (len_nonneg (pbytes p c)) as Hnn.
  destruct (write_below p _ _ c Hp Hroom) as (d & Ew & Hh & Hp1 & Hsp1 & Ef1).
  unfold place_cell. rewrite Hsz, (ph_num _ _ _ Hp).
  rewrite (u16_small (len (pbytes p c))), (u16_small (freePtr p - len (pbytes p c))) by dir_lia.
  set (o := freePtr p - len (pbytes p c)) in *. unfold writeCell in Ew. rewrite Ew. cbn [mbind res_bind].
  destruct (link_cell_spec (with_data d p) a b oa ob c o Hp1 Hoa) as (p' & E & Hp' & Hsp & Ef).
  - by rewrite (same_page_leaf p _ Hsp1).
  - by rewrite (same_page_bytes p _ c Hsp1).
  - lia.
  - rewrite (same_page_bytes p _ c Hsp1), Ef1. lia.
  - exists p', o. split; [done|]. split; [done|]. split; [by eapply same_page_trans|done].
Qed.

(** ** A page is a sorted list of cells *)

(** The reference: enter a cell at its place, replacing one with the same key. *)
Fixpoint put_cell (c : Cell) (cells : list Cell) : list Cell :=
  match cells with
  | [] => [c]
  | x :: cells =>
      match bytes_compare (c_Key c) (c_Key x) with
      | Lt => c :: x :: cells
      | Eq => c :: cells
      | Gt => x :: put_cell c cells
      end
  end.

Lemma bytes_gt a b : bytes_lt b a → bytes_compare a b = Gt.
Proof. unfold bytes_lt. intros H. by rewrite bytes_compare_antisym, H. Qed.

Lemma put_cell_new a b c :
  Forall (λ x, bytes_lt (c_Key x) (c_Key c)) a → Forall (λ x, bytes_lt (c_Key c) (c_Key x)) b →
  put_cell c (a ++ b) = a ++ c :: b.
Proof.
  intros Ha Hb. induction Ha as [|x a Hx _ IH]; simpl.
  - destruct Hb as [|x b Hx _]; simpl; [done|]. unfold bytes_lt in Hx. by rewrite Hx.
  - rewrite (bytes_gt _ _ Hx). by rewrite IH.
Qed.

Lemma put_cell_old a x b c :
  StronglySorted (key_lt c_Key) (a ++ x :: b) → c_Key x = c_Key c → put_cell c (a ++ x :: b) = a ++ c :: b.
Proof.
  intros Hs Hk. induction a as [|y a IH]; simpl in *.
  - by rewrite Hk, bytes_compare_refl.
  - inversion_clear Hs as [|? ? Hs' Hy]. rewrite Forall_forall in Hy.
    rewrite (bytes_gt (c_Key c) (c_Key y)) by (rewrite <-Hk; apply Hy; set_solver). by rewrite IH.
Qed.

Lemma put_cell_keys c cells k :
  bytes_lt k (c_Key c) → Forall (λ x, bytes_lt k (c_Key x)) cells → Forall (λ x, bytes_lt k (c_Key x)) (put_cell c cells).
Proof.
  intros Hc Hs. induction Hs as [|x cells Hx Hs IH]; simpl; [by constructor|].
  destruct (bytes_compare _ _); repeat (constructor; try done).
Qed.

Lemma put_cell_sorted c cells :
  StronglySorted (key_lt c_Key) cells → StronglySorted (key_lt c_Key) (put_cell c cells).
Proof.
  induction 1 as [|x cells Hs IH Hx]; simpl; [by repeat constructor|].
  destruct (bytes_compare (c_Key c) (c_Key x)) eqn:E.
  - apply bytes_compare_eq in E. constructor; [done|]. unfold key_lt in *. by rewrite E.
  - constructor; [by constructor|]. constructor; [done|]. eapply Forall_impl; [exact Hx|].
    intros y Hy. unfold key_lt in *. by etrans.
  - constructor; [done|]. apply put_cell_keys; [|done].
    unfold bytes_lt. by rewrite bytes_compare_antisym, E.
Qed.

Lemma put_cell_map c cells :
  StronglySorted (key_lt c_Key) cells →
  entries_map c_Key (put_cell c cells) = <[c_Key c := c]> (entries_map c_Key cells).
Proof.
  induction 1 as [|x cells Hs IH Hx]; simpl; [done|].
  destruct (bytes_compare (c_Key c) (c_Key x)) eqn:E; rewrite !entries_map_cons; [| done|].
  - apply bytes_compare_eq in E. rewrite E. by rewrite insert_insert_eq.
  - rewrite IH. rewrite insert_insert_ne; [done|]. intros Heq. rewrite Heq, bytes_compare_refl in E. done.
Qed.

(** Inserting a key that the page does not have. *)
Lemma insert_new p cells offs c n :
  page_holds p cells offs → StronglySorted (key_lt c_Key) cells → cell_typed (IsLeaf p) c →
  (∀ x, x ∈ cells → c_Key x ≠ c_Key c) →
  IsFull p (len (c_Key c)) (if IsLeaf p then len (c_Value c) else 0) = false →
  ∃ p' offs', insert_cell (S n) p c = (p', Ok tt) ∧ page_holds p' (put_cell c cells) offs' ∧ same_page p p' ∧
    freePtr p' = freePtr p - len (pbytes p c).
Proof.
  intros Hp Hs Ht Hnew Hfull. cbn [insert_cell]. rewrite Hfull.
  destruct (IsFull_spec p cells offs c Hp Hfull) as [Hsz Hroom]; [by intros E; rewrite E in Ht; destruct Ht|].
  destruct (searchCell_spec p cells offs (c_Key c) Hp Hs) as [(a & x & b & -> & Hx & _)|(a & b & -> & Ha & Hb & ->)].
  { destruct (Hnew x); [set_solver|done]. }
  pose proof (len_nonneg a). destruct (Z.ltb_spec (len a) 0); [lia|].
  pose proof (Forall2_length _ _ _ (ph_cells _ _ _ Hp)) as Hlen. rewrite length_app in Hlen.
  rewrite <-(take_drop (length a) offs) in Hp.
  destruct (place_cell_spec p a b _ _ c (len (c_Key c)) (if IsLeaf p then len (c_Value c) else 0) Hp) as (p' & o & -> & Hp' & Hsp & Ef); [rewrite length_take; lia|done..|].
  eexists p', _. rewrite put_cell_new by done. done.
Qed.

(** Taking one cell out of a sorted list. *)
Lemma sorted_remove a x b :
  StronglySorted (key_lt c_Key) (a ++ x :: b) →
  StronglySorted (key_lt c_Key) (a ++ b) ∧ Forall (λ y, bytes_lt (c_Key y) (c_Key x)) a ∧
  Forall (λ y, bytes_lt (c_Key x) (c_Key y)) b.
Proof.
  intros Hs. apply sorted_app_inv in Hs as (Hsa & Hsb & Hab). inversion_clear Hsb as [|? ? Hsb' Hx].
  split_and!; [|apply Forall_forall; intros y Hy; apply Hab; [done|left]|done].
  apply sorted_app; [done|done|]. intros y z Hy Hz. apply Hab; [done|by right].
Qed.

(** A page with one cell less is not fuller. *)
Lemma IsFull_less p p' cells x a b offs offs' ks vs :
  cells = a ++ x :: b → page_holds p cells offs → page_holds p' (a ++ b) offs' → same_page p p' →
  freePtr p' = freePtr p → IsFull p ks vs = false → IsFull p' ks vs = false.
Proof.
  intros -> Hp Hp' (_ & Ht & Hv & _) Ef Hfull. unfold IsFull in *. apply Z.ltb_ge in Hfull. apply Z.ltb_ge.
  pose proof (cells_few _ _ _ Hp) as Hfew. pose proof (cells_few _ _ _ Hp') as Hfew'.
  rewrite (ph_num _ _ _ Hp), u16_small in Hfull by lia. rewrite (ph_num _ _ _ Hp'), u16_small by lia.
  rewrite len_app, ?len_cons in *. rewrite Ef. unfold cellSize, IsLeaf in *. rewrite Ht, Hv.
  unfold cellDirOffset, CellDirEntrySize in *. lia.
Qed.

Lemma split_offsets {A} (a : list A) x b (offs : list Z) :
  length offs = length (a ++ x :: b) → ∃ oa o ob, offs = oa ++ o :: ob ∧ length oa = length a.
Proof.
  intros Hl. rewrite length_app in Hl. simpl in Hl.
  destruct (lookup_lt_is_Some_2 offs (length a)) as [o Ho]; [lia|].
  exists (take (length a) offs), o, (drop (S (length a)) offs). split; [by rewrite take_drop_middle|].
  rewrite length_take. lia.
Qed.

Lemma InsertCell_spec p cells offs c :
  page_holds p cells offs → StronglySorted (key_lt c_Key) cells → cell_typed (IsLeaf p) c →
  IsFull p (len (c_Key c)) (if IsLeaf p then len (c_Value c) else 0) = false →
  ∃ p' offs', InsertCell p c = (p', Ok tt) ∧ page_holds p' (put_cell c cells) offs' ∧ same_page p p' ∧
    freePtr p' = freePtr p - len (pbytes p c).
Proof.
  intros Hp Hs Ht Hfull. unfold InsertCell.
  destruct (decide (Forall (λ x, c_Key x ≠ c_Key c) cells)) as [Hnew|Hold].
  { rewrite Forall_forall in Hnew. by eapply insert_new. }
  destruct (searchCell_spec p cells offs (c_Key c) Hp Hs) as [(a & x & b & -> & Hx & E)|(a & b & -> & Ha & Hb & _)].
  2:{ destruct Hold. apply Forall_app. split; eapply Forall_impl; try done; intros y Hy; [by apply bytes_lt_ne|].
      intros Heq. symmetry in Heq. by apply (bytes_lt_ne _ _ Hy). }
  pose proof (cells_few _ _ _ Hp) as Hfew. rewrite len_app, len_cons in Hfew. pose proof (len_nonneg a). pose proof (len_nonneg b).
  cbn [insert_cell]. rewrite Hfull, E. destruct (Z.ltb_spec (- (len a + 1)) 0); [|lia].
  replace (- - (len a + 1) - 1) with (len a) by lia. rewrite u16_small by lia.
  destruct (split_offsets a x b offs (Forall2_length _ _ _ (ph_cells _ _ _ Hp))) as (oa & o & ob & -> & Hoa).
  rewrite (ph_num _ _ _ Hp), len_app, len_cons.
  destruct (DeleteCell_spec p a x b oa o ob Hp Hoa) as (p1 & -> & Hp1 & Hsp1 & Ef1).
  destruct (Z.to_nat (len a + (1 + len b))) as [|n] eqn:En; [lia|].
  destruct (sorted_remove a x b Hs) as (Hs1 & Ha & Hb). rewrite Hx in Ha, Hb.
  destruct (insert_new p1 (a ++ b) (oa ++ ob) c n Hp1 Hs1) as (p' & offs' & -> & Hp' & Hsp' & Ef').
  - by rewrite (same_page_leaf p p1 Hsp1).
  - intros y [Hy|Hy]%elem_of_app Heq; [rewrite Forall_forall in Ha; by apply (bytes_lt_ne _ _ (Ha y Hy))|].
    rewrite Forall_forall in Hb. by apply (bytes_lt_ne _ _ (Hb y Hy)).
  - rewrite (same_page_leaf p p1 Hsp1). by eapply IsFull_less.
  - exists p', offs'. split; [done|]. rewrite (put_cell_old a x b c Hs Hx). rewrite put_cell_new in Hp' by done.
    split; [done|]. split; [by eapply same_page_trans|]. by rewrite Ef', Ef1, (same_page_bytes p p1 c Hsp1).
Qed.

(** ** Pages as the tree uses them *)

(** A page that holds the sorted list of cells. *)
Definition page_rep (p : Page) (cells : list Cell) : Prop :=
  (∃ offs, page_holds p cells offs) ∧ StronglySorted (key_lt c_Key) cells ∧
  pg_data p !! 0%nat = Some (pg_pageType p).

Lemma rep_insert p cells c :
  page_rep p cells → cell_typed (IsLeaf p) c →
  IsFull p (len (c_Key c)) (if IsLeaf p then len (c_Value c) else 0) = false →
  ∃ p', InsertCell p c = (p', Ok tt) ∧ page_rep p' (put_cell c cells) ∧ same_page p p' ∧
    freePtr p' = freePtr p - len (pbytes p c).
Proof.
  intros ([offs Hp] & Hs & H0) Ht Hf. destruct (InsertCell_spec p cells offs c Hp Hs Ht Hf) as (p' & offs' & E & Hp' & Hsp & Ef).
  exists p'. split; [done|]. split; [|done]. split; [by exists offs'|]. split; [by apply put_cell_sorted|].
  destruct Hsp as (_ & -> & _ & _ & ->). done.
Qed.

Lemma InsertCell_full p c :
  IsFull p (len (c_Key c)) (if IsLeaf p then len (c_Value c) else 0) = true → InsertCell p c = (p, Err ErrPageFull).
Proof. intros H. unfold InsertCell. cbn [insert_cell]. by rewrite H. Qed.

Lemma rep_delete p a c b :
  page_rep p (a ++ c :: b) →
  ∃ p', DeleteCell p (len a) = (p', Ok tt) ∧ page_rep p' (a ++ b) ∧ same_page p p' ∧ freePtr p' = freePtr p.
Proof.
  intros ([offs Hp] & Hs & H0). destruct (split_offsets a c b offs (Forall2_length _ _ _ (ph_cells _ _ _ Hp)))
    as (oa & o & ob & -> & Hoa).
  destruct (DeleteCell_spec p a c b oa o ob Hp Hoa) as (p' & E & Hp' & Hsp & Ef).
  exists p'. split; [done|]. split; [|done]. split; [by eexists|]. split; [by apply (sorted_remove a c b)|].
  destruct Hsp as (_ & -> & _ & _ & ->). done.
Qed.

Lemma rep_search p cells key :
  page_rep p cells →
  (∃ a c b, cells = a ++ c :: b ∧ c_Key c = key ∧ searchCell p key = Ok (- (len a + 1))) ∨
  (∃ a b, cells = a ++ b ∧ Forall (λ c, bytes_lt (c_Key c) key) a ∧ Forall (λ c, bytes_lt key (c_Key c)) b ∧
     searchCell p key = Ok (len a)).
Proof. intros ([offs Hp] & Hs & _). by eapply searchCell_spec. Qed.

Lemma rep_CellAt p cells i c : page_rep p cells → cells !! i = Some c → CellAt p (Z.of_nat i) = Ok c.
Proof. intros ([offs Hp] & _) Hc. by eapply CellAt_spec. Qed.

Lemma rep_num p cells : page_rep p cells → NumCells p = len cells ∧ 0 ≤ len cells ≤ 2043.
Proof. intros ([offs Hp] & _). split; [apply Hp|]. by eapply cells_few. Qed.

(** A new page is empty; it is a leaf or an internal page by its type. *)
Lemma NewPage_rep id t :
  page_rep (NewPage id t) [] ∧ RightPtr (NewPage id t) = 0 ∧ Version (NewPage id t) = PageFormatV2 ∧
  freePtr (NewPage id t) = PageSize.
Proof.
  split; [|done]. split; [|by repeat constructor].
  exists []. split; [done|done|done|constructor|done].
Qed.

Lemma SetRightPtr_rep p cells ptr :
  page_rep p cells → 0 ≤ ptr < 2 ^ 32 →
  let p' := SetRightPtr ptr p in
  page_rep p' cells ∧ RightPtr p' = ptr ∧ pg_id p' = pg_id p ∧ IsLeaf p' = IsLeaf p ∧ Version p' = Version p ∧
  freePtr p' = freePtr p.
Proof.
  intros ([offs Hp] & Hs & H0) Hptr. pose proof Hp as [Hl Hn Hf Hc Hd].
  set (d := copy_at HeaderOffsetRightPtr (be_put 4 ptr) (pg_data p)).
  assert (Ho : same_outside 3 7 (pg_data p) d).
  { apply (set_field_frame 3 (be_put 4 ptr) p); rewrite ?len_be_put4; unfold HeaderSize; done || lia. }
  assert (Er : RightPtr (SetRightPtr ptr p) = ptr).
  { unfold RightPtr. cbn [pg_data SetRightPtr SetDirty with_data].
    destruct (holds_from d HeaderOffsetRightPtr (be_put 4 ptr)) as [r E].
    - apply copy_at_holds; rewrite ?len_be_put4; unfold HeaderOffsetRightPtr, PageSize in *; lia.
    - fold d. rewrite E. by apply be_u32_put. }
  assert (En : NumCells (SetRightPtr ptr p) = NumCells p ∧ freePtr (SetRightPtr ptr p) = freePtr p).
  { unfold NumCells, freePtr, be_u16. cbn [pg_data SetRightPtr SetDirty with_data]. fold d.
    by rewrite !(outside_read 3 7 (pg_data p) d) by (unfold HeaderOffsetNumCells, HeaderOffsetFreePtr; done || lia). }
  destruct En as [En Ef]. pose proof Ho as [L Hv].
  assert (Ev : Version (SetRightPtr ptr p) = Version p).
  { unfold Version. cbn [pg_data SetRightPtr SetDirty with_data]. fold d.
    by rewrite (Hv (Z.to_nat HeaderOffsetVersion)) by (unfold HeaderOffsetVersion; lia). }
  assert (Hb : ∀ c, pbytes (SetRightPtr ptr p) c = pbytes p c) by (intros c; unfold pbytes, isV1; by rewrite Ev).
  pose proof (cells_few _ _ _ Hp). split; [|done]. split; [exists offs; split|].
  - cbn [pg_data SetRightPtr SetDirty with_data]. fold d. unfold len in *. lia.
  - by rewrite En.
  - by rewrite Ef.
  - rewrite Ef. eapply Forall2_impl; [exact Hc|]. intros o c ([? ?] & Hh & Ht). unfold cell_at. rewrite Hb.
    split; [done|]. split; [|done]. eapply outside_holds; [exact Ho|dir_lia|dir_lia|done].
  - intros i o Hi. eapply outside_holds; [exact Ho|dir_lia|dir_lia|by apply Hd].
  - split; [done|]. cbn [pg_data SetRightPtr SetDirty with_data pg_pageType]. fold d. by rewrite (Hv 0%nat) by lia.
Qed.

(** Writing a page to disk and loading it again. *)
Lemma LoadPage_rep p cells :
  page_rep p cells →
  LoadPage (pg_id p) (pg_data p) = Ok (SetDirty false p) ∧ page_rep (SetDirty false p) cells.
Proof.
  intros ([offs Hp] & Hs & H0). split.
  - unfold LoadPage. rewrite (ph_len _ _ _ Hp). change (Z.to_nat HeaderOffsetType) with 0%nat. by rewrite H0.
  - split; [|done]. exists offs. by destruct Hp.
Qed.
