(* ===== verification/BtPageTyped.v ===== *)
(** Pages stay pages: every operation of [src/btree/page.go] on any 4096 bytes, well-formed or
    not, gives 4096 bytes again, and the cells it reads are bytes and page numbers. *)
From stdpp Require Import base gmap list strings numbers sorting.
From S2P Require Import Prelude GoLib BtVarint BtPage.

Open Scope Z_scope.

(** ** Typed data *)

(** [n] bytes. *)
Definition typed (n : nat) (d : bytes) : Prop := length d = n ∧ Forall is_byte d.

Record page_typed (p : Page) : Prop := {
  pt_len : len (pg_data p) = PageSize;
  pt_bytes : Forall is_byte (pg_data p);
}.

Record byte_cell (c : Cell) : Prop := {
  ct_key : Forall is_byte (c_Key c);
  ct_value : Forall is_byte (c_Value c);
  ct_child : 0 ≤ c_Child c < 2 ^ 32;
}.

Lemma page_typed_data p : page_typed p ↔ typed (Z.to_nat PageSize) (pg_data p).
Proof.
  split; [intros [Hl Hb]|intros [Hl Hb]]; (split; [|done]).
  - unfold len in Hl. lia.
  - unfold len. rewrite Hl. done.
Qed.

Lemma typed_copy n off s d : Forall is_byte s → typed n d → typed n (copy_at off s d).
Proof.
  intros Hs [Hl Hd]. split; [by rewrite length_copy_at|]. unfold copy_at.
  repeat (apply Forall_app; split); by repeat (apply Forall_take || apply Forall_drop).
Qed.

Lemma typed_insert n i x d : is_byte x → typed n d → typed n (<[i := x]> d).
Proof. intros Hx [Hl Hd]. split; [by rewrite length_insert|]. by apply Forall_insert. Qed.

Lemma typed_put_at n off b d d' : Forall is_byte b → typed n d → put_at off b d = Ok d' → typed n d'.
Proof. intros Hb Hd. unfold put_at. case_cmp; [done|]. intros [= <-]. by apply typed_copy. Qed.

Lemma typed_copy_to n off b d d' : Forall is_byte b → typed n d → copy_to off b d = Ok d' → typed n d'.
Proof. intros Hb Hd. unfold copy_to. case_cmp; [done|]. intros [= <-]. by apply typed_copy. Qed.

Lemma be_get_small k b : Forall is_byte b → (length b ≤ k)%nat → 0 ≤ be_get b < 256 ^ Z.of_nat k.
Proof.
  intros Hb Hl. pose proof (be_get_bounds b Hb). unfold len in *.
  assert (256 ^ Z.of_nat (length b) ≤ 256 ^ Z.of_nat k) by (apply Z.pow_le_mono_r; lia). lia.
Qed.

Lemma be_u16_typed d off : Forall is_byte d → 0 ≤ be_u16 (slice_from off d) < 2 ^ 16.
Proof.
  intros Hd. unfold be_u16, slice_from. apply (be_get_small 2); [by apply Forall_take, Forall_drop|]. rewrite length_take. lia.
Qed.

Lemma be_u32_typed d off : Forall is_byte d → 0 ≤ be_u32 (slice_from off d) < 2 ^ 32.
Proof.
  intros Hd. unfold be_u32, slice_from. apply (be_get_small 4); [by apply Forall_take, Forall_drop|]. rewrite length_take. lia.
Qed.

Lemma slice_typed lo hi d : Forall is_byte d → Forall is_byte (slice lo hi d).
Proof. intros Hd. unfold slice. by apply Forall_take, Forall_drop. Qed.

(** ** Varints *)

Lemma u8_byte x : is_byte (u8 x).
Proof. unfold is_byte, u8. apply Z.mod_pos_bound. lia. Qed.

Lemma lor_byte a b : is_byte a → is_byte b → is_byte (Z.lor a b).
Proof.
  unfold is_byte. intros Ha Hb. split; [apply Z.lor_nonneg; lia|].
  destruct (Z.eq_dec (Z.lor a b) 0) as [->|Hne]; [lia|]. assert (0 ≤ Z.lor a b) by (apply Z.lor_nonneg; lia).
  change 256 with (2 ^ 8). apply Z.log2_lt_pow2; [lia|]. rewrite Z.log2_lor by lia.
  assert (Hlog : ∀ x, 0 ≤ x < 256 → Z.log2 x < 8).
  { intros x Hx. destruct (Z.eq_dec x 0) as [->|]; [done|]. apply Z.log2_lt_pow2; lia. }
  apply Z.max_lub_lt; by apply Hlog.
Qed.

Lemma put_loop_typed fuel : ∀ n buf i x buf' k,
  typed n buf → put_loop fuel buf i x = Ok (buf', k) → typed n buf'.
Proof.
  induction fuel as [|fuel IH]; intros n buf i x buf' k Hb; cbn [put_loop]; [done|]. destruct (negb _); [done|].
  destruct (0x80 <=? x).
  - apply IH, typed_insert; [|done]. apply lor_byte; [apply u8_byte|by unfold is_byte].
  - intros [= <- <-]. apply typed_insert; [apply u8_byte|done].
Qed.

Lemma put_varint_typed n off x d d' k : typed n d → put_varint_at off x d = Ok (d', k) → typed n d'.
Proof.
  intros [Hl Hd]. unfold put_varint_at. case_cmp; [done|].
  destruct (putUvarint16 (slice_from off d) x) as [[buf j]|e|] eqn:E; [|done..]. cbn [mbind res_bind]. intros [= <- <-].
  destruct (put_loop_typed 10 (length (slice_from off d)) (slice_from off d) 0 x buf j) as [Hlb Hb]; [|exact E|].
  - split; [done|]. unfold slice_from. by apply Forall_drop.
  - split; [|apply Forall_app; split; [unfold slice_to; by apply Forall_take|done]].
    unfold slice_to, slice_from, len in *. rewrite length_app, Hlb, length_take, length_drop. lia.
Qed.

(** ** The operations of a page *)

(** Fallible steps on a page that keep it typed. *)
Definition keeps (r : res Page) : Prop := match r with Ok p => page_typed p | _ => True end.

Lemma keeps_bind {A} (r : res A) (Q : A → Prop) (f : A → res Page) :
  (∀ x, r = Ok x → Q x) → (∀ x, Q x → keeps (f x)) → keeps (r ≫= f).
Proof. intros Hr Hf. destruct r as [x|e|]; [|done..]. simpl. apply Hf, Hr. done. Qed.

Lemma with_data_typed d p : typed (Z.to_nat PageSize) d → page_typed (with_data d p).
Proof. intros Hd. by apply page_typed_data. Qed.

Lemma dirty_typed b p : page_typed p → page_typed (SetDirty b p).
Proof. intros [Hl Hb]. by split. Qed.

Lemma set_field_typed off b p : Forall is_byte b → page_typed p → page_typed (with_data (copy_at off b (pg_data p)) p).
Proof. intros Hb Hp%page_typed_data. by apply with_data_typed, typed_copy. Qed.

Lemma NewPage_typed id t : is_byte t → page_typed (NewPage id t).
Proof.
  intros Ht. apply page_typed_data. unfold NewPage. cbn [pg_data]. apply typed_insert; [by unfold is_byte|].
  do 3 (apply typed_copy; [apply be_put_bytes|]). apply typed_insert; [done|]. split; [apply length_make_bytes|].
  apply Forall_replicate. by unfold is_byte.
Qed.

Lemma setCellOffset_typed n off p : page_typed p → keeps (setCellOffset n off p).
Proof.
  intros Hp%page_typed_data. unfold setCellOffset. apply (keeps_bind _ (typed (Z.to_nat PageSize))).
  - intros d. by apply typed_put_at; [apply be_put_bytes|].
  - intros d Hd. by apply with_data_typed.
Qed.

Lemma keeps_page r f : keeps r → (∀ p, page_typed p → keeps (f p)) → keeps (r ≫= f).
Proof. intros Hr Hf. apply (keeps_bind _ page_typed); [|done]. by intros p ->. Qed.

Lemma keeps_any {A} (r : res A) f : (∀ x, keeps (f x)) → keeps (r ≫= f).
Proof. intros Hf. by apply (keeps_bind _ (λ _, True)). Qed.

Lemma shift_down_typed n : ∀ i p, page_typed p → keeps (shift_down n i p).
Proof.
  induction n as [|n IH]; intros i p Hp; cbn [shift_down]; [done|]. apply keeps_any. intros off.
  apply keeps_page; [by apply setCellOffset_typed|]. intros p'. apply IH.
Qed.

Lemma shift_up_typed n : ∀ i p, page_typed p → keeps (shift_up n i p).
Proof.
  induction n as [|n IH]; intros i p Hp; cbn [shift_up]; [done|]. apply keeps_any. intros off.
  apply keeps_page; [by apply setCellOffset_typed|]. intros p'. apply IH.
Qed.

Lemma DeleteCell_typed i p : page_typed p → page_typed (DeleteCell p i).1.
Proof.
  intros Hp. unfold DeleteCell. case_cmp; [done|]. pose proof (shift_down_typed (Z.to_nat (NumCells p - 1 - i)) i p Hp) as Hk.
  destruct (shift_down _ i p) as [p'|e|]; [|done..]. apply dirty_typed. apply set_field_typed; [apply be_put_bytes|exact Hk].
Qed.

(** One write into the array. *)
Ltac typed_step :=
  lazymatch goal with
  | |- keeps (put_at _ _ _ ≫= _) =>
      apply (keeps_bind _ (typed (Z.to_nat PageSize))); [intros ?; by apply typed_put_at; [apply be_put_bytes|]|intros ? ?]
  | |- keeps (copy_to _ _ _ ≫= _) =>
      apply (keeps_bind _ (typed (Z.to_nat PageSize))); [intros ?; by apply typed_copy_to|intros ? ?]
  | |- keeps (put_varint_at _ _ _ ≫= _) =>
      apply (keeps_bind _ (λ dn, typed (Z.to_nat PageSize) dn.1)); [intros [? ?] ?; by eapply put_varint_typed|intros [? ?] ?]
  | |- keeps (Ok (with_data _ _)) => by apply with_data_typed
  end.

Lemma writeLeafCell_typed off c p : byte_cell c → page_typed p → keeps (writeLeafCell off c p).
Proof.
  intros [Hk Hv _] Hp%page_typed_data. unfold writeLeafCell. destruct (Version p =? PageFormatV1); repeat typed_step.
Qed.

Lemma writeInternalCell_typed off c p : byte_cell c → page_typed p → keeps (writeInternalCell off c p).
Proof.
  intros [Hk _ _] Hp%page_typed_data. unfold writeInternalCell. destruct (Version p =? PageFormatV1); repeat typed_step.
Qed.

Lemma place_cell_typed c pos ks vs p : byte_cell c → page_typed p → keeps (place_cell p c pos ks vs).
Proof.
  intros Hc Hp. unfold place_cell, link_cell. apply keeps_page.
  { destruct (IsLeaf p); [by apply writeLeafCell_typed|by apply writeInternalCell_typed]. }
  intros p1 H1. apply keeps_page.
  { apply keeps_page; [by apply shift_up_typed|]. intros p2. apply setCellOffset_typed. }
  intros p3 H3. apply dirty_typed. apply set_field_typed; [apply be_put_bytes|].
  apply set_field_typed; [apply be_put_bytes|done].
Qed.

Lemma insert_cell_typed fuel : ∀ c p, byte_cell c → page_typed p → page_typed (insert_cell fuel p c).1.
Proof.
  induction fuel as [|fuel IH]; intros c p Hc Hp; cbn [insert_cell]; [done|]. destruct (IsFull _ _ _); [done|].
  destruct (searchCell p (c_Key c)) as [pos|e|]; [|done..]. destruct (pos <? 0).
  - pose proof (DeleteCell_typed (u16 (- pos - 1)) p Hp) as Hd. destruct (DeleteCell p _) as [p' [?|?|]]; [by apply IH|done..].
  - pose proof (place_cell_typed c pos (len (c_Key c)) (if IsLeaf p then len (c_Value c) else 0) p Hc Hp) as Hk.
    destruct (place_cell _ _ _ _ _) as [p'|?|]; done.
Qed.

(** ** Reading *)

Lemma read_u32_typed d off x : Forall is_byte d → read_u32 d off = Ok x → 0 ≤ x < 2 ^ 32.
Proof. intros Hd. unfold read_u32. case_cmp; [done|]. intros [= <-]. by apply be_u32_typed. Qed.

Lemma read_cell_typed d a b a' b' x : Forall is_byte d → 0 ≤ x < 2 ^ 32 → byte_cell (MkCell (slice a b d) (slice a' b' d) x).
Proof. intros Hd Hx. split; [by apply slice_typed..|done]. Qed.

Lemma parseLeafCell_typed p off c : page_typed p → parseLeafCell p off = Ok c → byte_cell c.
Proof.
  intros [_ Hb]. unfold parseLeafCell. destruct (Version p =? PageFormatV1).
  - destruct (_ <? _); [done|]. destruct (read_u16 _ off) as [ks|?|]; [|done..]. cbn [mbind res_bind].
    destruct (read_u16 _ (off + 2)) as [vs|?|]; [|done..]. cbn [mbind res_bind]. destruct (_ <? _); [done|].
    intros [= <-]. by apply read_cell_typed.
  - destruct (_ <? _); [done|]. destruct (uvarint16 _) as [ks n1]. destruct (n1 <=? 0); [done|].
    destruct (uvarint16 _) as [vs n2]. destruct (n2 <=? 0); [done|]. cbv zeta. destruct (_ <? _); [done|].
    intros [= <-]. by apply read_cell_typed.
Qed.

Lemma parseInternalCell_typed p off c : page_typed p → parseInternalCell p off = Ok c → byte_cell c.
Proof.
  intros [_ Hb]. unfold parseInternalCell. destruct (Version p =? PageFormatV1).
  - destruct (_ <? _); [done|]. destruct (read_u16 _ off) as [ks|?|]; [|done..]. cbn [mbind res_bind].
    destruct (read_u32 _ (off + 2)) as [x|?|] eqn:E; [|done..]. cbn [mbind res_bind]. destruct (_ <? _); [done|].
    intros [= <-]. split; [by apply slice_typed|done|by eapply read_u32_typed].
  - destruct (_ <? _); [done|]. destruct (uvarint16 _) as [ks n]. destruct (n <=? 0); [done|].
    destruct (read_u32 _ (off + n)) as [x|?|] eqn:E; [|done..]. cbn [mbind res_bind]. cbv zeta. destruct (_ <? _); [done|].
    intros [= <-]. split; [by apply slice_typed|done|by eapply read_u32_typed].
Qed.

Lemma CellAt_typed p i c : page_typed p → CellAt p i = Ok c → byte_cell c.
Proof.
  intros Hp. unfold CellAt. case_cmp; [done|]. destruct (getCellOffset p i) as [off|?|]; [|done..]. cbn [mbind res_bind].
  destruct (IsLeaf p); [by apply parseLeafCell_typed|by apply parseInternalCell_typed].
Qed.

(** What the binary search answers: a position in the directory, or a found cell. *)
Lemma searchCell_loop_range fuel p key : ∀ l r i,
  0 ≤ l ≤ r → searchCell_loop fuel p key l r = Ok i → - r ≤ i ≤ r.
Proof.
  induction fuel as [|fuel IH]; intros l r i Hlr; cbn [searchCell_loop]; [intros [= <-]; lia|].
  destruct (Z.ltb_spec l r); [|intros [= <-]; lia].
  assert (Hm : l ≤ (l + r) / 2 < r) by (split; [apply Z.div_le_lower_bound; lia|apply Z.div_lt_upper_bound; lia]).
  destruct (CellAt p _) as [c|e|]; [|intros [= <-]; lia|done].
  destruct (bytes_compare key (c_Key c)); [intros [= <-]; lia| |].
  - intros E. apply IH in E; lia.
  - intros E. apply IH in E; lia.
Qed.


(** A page of garbage: a leaf by its type byte, with impossible counts and offsets. *)
Definition garbage_page : Page := MkPage 7 (replicate 4096 2) PageTypeLeaf false.

