(* ===== verification/BtNode.v ===== *)
(** B-tree nodes: the operations on one page that the tree is built from
    ([src/btree/node.go], and the page-level part of [src/btree/btree.go]), a leaf as a
    bounded map and an internal node as a routing table. *)
From stdpp Require Import base gmap list strings numbers sorting.
From S2P Require Import Prelude GoLib Common BtVarint BtPage.

Open Scope Z_scope.

Definition SearchKey (page : Page) (key : bytes) : res Z := searchCell page key.

(** [bytes.Compare(key, cell.Key) >= 0]. *)
Definition key_ge (key : bytes) (c : Cell) : bool := bytes_leb (c_Key c) key.

(** The test for the next cell: [i+1 < numCells], readable and not above the key.  Its
    error is ignored. *)
Definition next_covers (page : Page) (numCells i : Z) (key : bytes) : res bool :=
  if u16 (i + 1) <? numCells then
    match CellAt page (u16 (i + 1)) with
    | Panic => Panic
    | Err _ => Ok false
    | Ok next => Ok (key_ge key next)
    end
  else Ok false.

(** The loop of [GetChildPageID], [n] rounds from [i] on; [None] when it runs out. *)
Fixpoint child_loop (n : nat) (page : Page) (numCells i : Z) (key : bytes) : res (option Z) :=
  match n with
  | O => Ok None
  | S n =>
      cell ← CellAt page i;
      if key_ge key cell then
        more ← next_covers page numCells i key;
        if more : bool then child_loop n page numCells (i + 1) key else Ok (Some (c_Child cell))
      else child_loop n page numCells (i + 1) key
  end.

Definition GetChildPageID (page : Page) (key : bytes) : res Z :=
  if IsLeaf page then Err ErrCellNotFound
  else
    r ← child_loop (Z.to_nat (NumCells page)) page (NumCells page) 0 key;
    match r with
    | Some child => Ok child
    | None =>
        let rightPtr := RightPtr page in
        if rightPtr =? 0 then Err ErrCellNotFound else Ok rightPtr
    end.

(** The loop of [findChild], which passes over unreadable cells. *)
Fixpoint find_loop (n : nat) (page : Page) (numCells i : Z) (key : bytes) : res (option Z) :=
  match n with
  | O => Ok None
  | S n =>
      match CellAt page i with
      | Panic => Panic
      | Err _ => find_loop n page numCells (i + 1) key
      | Ok cell =>
          if key_ge key cell then
            more ← next_covers page numCells i key;
            if more : bool then find_loop n page numCells (i + 1) key else Ok (Some (c_Child cell))
          else find_loop n page numCells (i + 1) key
      end
  end.

Definition findChild (page : Page) (key : bytes) : res Z :=
  r ← find_loop (Z.to_nat (NumCells page)) page (NumCells page) 0 key;
  Ok (default (RightPtr page) r).

Definition InsertIntoLeaf (page : Page) (key value : bytes) : Page * res unit :=
  if negb (IsLeaf page) then (page, Err ErrCellNotFound)
  else InsertCell page (MkCell key value 0).

Definition InsertIntoInternal (page : Page) (key : bytes) (childPageID : Z) : Page * res unit :=
  if IsLeaf page then (page, Err ErrCellNotFound)
  else InsertCell page (MkCell key [] childPageID).

(** Copying a cell gives an equal cell: the model has no aliasing of slices. *)
Definition CopyCell (cell : Cell) : Cell := MkCell (c_Key cell) (c_Value cell) (c_Child cell).

(** [BTree.searchLeaf]. *)
Definition searchLeaf (page : Page) (key : bytes) : res bytes :=
  index ← searchCell page key;
  if index <? 0 then cell ← CellAt page (u16 (- index - 1)); Ok (c_Value cell)
  else Err ErrKeyNotFound.

(** The part of [BTree.deleteFromLeaf] that changes the leaf. *)
Definition deleteCellFromLeaf (page : Page) (key : bytes) : Page * res unit :=
  match searchCell page key with
  | Panic => (page, Panic)
  | Err e => (page, Err e)
  | Ok index => if 0 <=? index then (page, Err ErrKeyNotFound) else DeleteCell page (u16 (- index - 1))
  end.

(** ** A leaf is a bounded map *)

(** The map a leaf stands for. *)
Definition leaf_map (cells : list Cell) : gmap bytes bytes := c_Value <$> entries_map c_Key cells.

Lemma entries_map_at a c b :
  StronglySorted (key_lt c_Key) (a ++ c :: b) → entries_map c_Key (a ++ c :: b) !! c_Key c = Some c.
Proof.
  intros Hs. destruct (sorted_remove a c b Hs) as (_ & Ha & _).
  rewrite entries_map_app, entries_map_cons, lookup_union_r, lookup_insert_eq; [done|].
  apply entries_map_None. eapply Forall_impl; [exact Ha|]. intros x. apply bytes_lt_ne.
Qed.

Lemma entries_map_absent (a b : list Cell) k :
  Forall (λ c, bytes_lt (c_Key c) k) a → Forall (λ c, bytes_lt k (c_Key c)) b →
  entries_map c_Key (a ++ b) !! k = None.
Proof.
  intros Ha Hb. apply entries_map_None, Forall_app. split; eapply Forall_impl; try done; intros x Hx.
  - by apply bytes_lt_ne.
  - intros E. symmetry in E. by apply (bytes_lt_ne _ _ Hx).
Qed.

Lemma entries_map_remove a c b :
  StronglySorted (key_lt c_Key) (a ++ c :: b) →
  entries_map c_Key (a ++ b) = delete (c_Key c) (entries_map c_Key (a ++ c :: b)).
Proof.
  intros Hs. destruct (sorted_remove a c b Hs) as (_ & Ha & Hb).
  pose proof (entries_map_absent a b (c_Key c) Ha Hb) as Hn.
  rewrite entries_map_app in *. rewrite entries_map_app, entries_map_cons.
  assert (entries_map c_Key a !! c_Key c = None).
  { apply entries_map_None. eapply Forall_impl; [exact Ha|]. intros x. apply bytes_lt_ne. }
  rewrite <-insert_union_r by done. by rewrite delete_insert_id.
Qed.

Lemma leaf_map_Get p cells k : page_rep p cells → searchLeaf p k = store_Get (leaf_map cells) k.
Proof.
  intros Hp. pose proof Hp as (_ & Hs & _). unfold searchLeaf, store_Get, leaf_map. rewrite lookup_fmap.
  destruct (rep_search p cells k Hp) as [(a & c & b & -> & <- & ->)|(a & b & -> & Ha & Hb & ->)];
    cbn [mbind res_bind]; pose proof (len_nonneg a).
  - destruct (Z.ltb_spec (- (len a + 1)) 0); [|lia]. replace (- - (len a + 1) - 1) with (len a) by lia.
    destruct (rep_num _ _ Hp) as [_ Hn]. rewrite len_app, len_cons in Hn. pose proof (len_nonneg b).
    rewrite u16_small by lia. unfold len. rewrite (rep_CellAt _ _ _ c Hp) by (by apply list_lookup_middle).
    simpl. by rewrite entries_map_at.
  - destruct (Z.ltb_spec (len a) 0); [lia|]. by rewrite entries_map_absent.
Qed.

Lemma insert_leaf p cells k v :
  page_rep p cells → IsLeaf p = true →
  let '(p', r) := InsertIntoLeaf p k v in
  if IsFull p (len k) (len v) then p' = p ∧ r = Err ErrPageFull
  else r = Ok tt ∧ page_rep p' (put_cell (MkCell k v 0) cells) ∧ same_page p p'.
Proof.
  intros Hp Hl. unfold InsertIntoLeaf. rewrite Hl. cbn [negb]. set (c := MkCell k v 0).
  destruct (IsFull p (len k) (len v)) eqn:Ef.
  - rewrite (InsertCell_full p c) by (rewrite Hl; exact Ef). done.
  - destruct (rep_insert p cells c Hp) as (p' & -> & Hp' & Hsp & _); [by rewrite Hl|by rewrite Hl|]. done.
Qed.

Lemma delete_leaf p cells k :
  page_rep p cells →
  let '(p', r) := deleteCellFromLeaf p k in
  same_page p p' ∧
  match leaf_map cells !! k with
  | None => p' = p ∧ r = Err ErrKeyNotFound
  | Some _ => r = Ok tt ∧ ∃ cells', page_rep p' cells' ∧ leaf_map cells' = delete k (leaf_map cells)
  end.
Proof.
  intros Hp. pose proof Hp as (_ & Hs & _). unfold deleteCellFromLeaf, leaf_map. rewrite lookup_fmap.
  destruct (rep_search p cells k Hp) as [(a & c & b & -> & <- & ->)|(a & b & -> & Ha & Hb & ->)];
    pose proof (len_nonneg a).
  - destruct (Z.leb_spec 0 (- (len a + 1))); [lia|]. replace (- - (len a + 1) - 1) with (len a) by lia.
    destruct (rep_num _ _ Hp) as [_ Hn]. rewrite len_app, len_cons in Hn. pose proof (len_nonneg b).
    rewrite u16_small by lia. destruct (rep_delete p a c b Hp) as (p' & -> & Hp' & Hsp & _).
    rewrite entries_map_at by done. simpl. split; [done|]. split; [done|]. exists (a ++ b). split; [done|].
    by rewrite (entries_map_remove a c b Hs), fmap_delete.
  - destruct (Z.leb_spec 0 (len a)); [|lia]. by rewrite entries_map_absent.
Qed.

Inductive leaf_op :=
| LPut (k v : bytes)
| LDel (k : bytes).

Definition leaf_step (p : Page) (o : leaf_op) : Page * res unit :=
  match o with
  | LPut k v => InsertIntoLeaf p k v
  | LDel k => deleteCellFromLeaf p k
  end.

(** The abstract leaf: a put is refused when the page reports that it is full. *)
Definition leaf_spec (p : Page) (m : gmap bytes bytes) (o : leaf_op) : gmap bytes bytes * res unit :=
  match o with
  | LPut k v => if IsFull p (len k) (len v) then (m, Err ErrPageFull) else (<[k := v]> m, Ok tt)
  | LDel k => match m !! k with Some _ => (delete k m, Ok tt) | None => (m, Err ErrKeyNotFound) end
  end.

(** What can be observed of a leaf that stands for [m]. *)
Definition leaf_agrees (p : Page) (m : gmap bytes bytes) : Prop :=
  (∀ k, searchLeaf p k = store_Get m k) ∧ NumCells p = Z.of_nat (size m) ∧
  (∀ i, NumCells p ≤ i → CellAt p i = Err ErrCellNotFound) ∧
  ∀ i j, 0 ≤ i < j → j < NumCells p →
    ∃ c c', CellAt p i = Ok c ∧ CellAt p j = Ok c' ∧ bytes_lt (c_Key c) (c_Key c').

(** Along a run every answer is the abstract one and every state agrees with the map. *)
Fixpoint leaf_run (p : Page) (m : gmap bytes bytes) (ops : list leaf_op) : Prop :=
  leaf_agrees p m ∧
  match ops with
  | [] => True
  | o :: ops =>
      (leaf_step p o).2 = (leaf_spec p m o).2 ∧ leaf_run (leaf_step p o).1 (leaf_spec p m o).1 ops
  end.

Lemma size_entries cells : StronglySorted (key_lt c_Key) cells → size (entries_map c_Key cells) = length cells.
Proof.
  induction 1 as [|c cells Hs IH Hc]; [done|]. rewrite entries_map_cons, map_size_insert_None; [by rewrite IH|].
  apply entries_map_None. eapply Forall_impl; [exact Hc|]. intros x Hx E. symmetry in E. by apply (bytes_lt_ne _ _ Hx).
Qed.

Lemma rep_agrees p cells : page_rep p cells → leaf_agrees p (leaf_map cells).
Proof.
  intros Hp. pose proof Hp as ([offs Hh] & Hs & _). destruct (rep_num p cells Hp) as [En Hn]. split_and!.
  - intros k. by apply leaf_map_Get.
  - rewrite En. unfold leaf_map. rewrite map_size_fmap, size_entries; done.
  - intros i Hi. apply (CellAt_end p cells offs Hh). lia.
  - intros i j Hij Hj. rewrite En in Hj.
    destruct (lookup_lt_is_Some_2 cells (Z.to_nat i)) as [c Hc]; [unfold len in *; lia|].
    destruct (lookup_lt_is_Some_2 cells (Z.to_nat j)) as [c' Hc']; [unfold len in *; lia|].
    exists c, c'. rewrite <-(Z2Nat.id i), <-(Z2Nat.id j) by lia.
    rewrite (rep_CellAt p cells _ c Hp Hc), (rep_CellAt p cells _ c' Hp Hc'). split; [done|]. split; [done|].
    eapply (sorted_lookup_lt c_Key cells (Z.to_nat i) (Z.to_nat j)); done || lia.
Qed.

Lemma leaf_step_spec p cells o :
  page_rep p cells → IsLeaf p = true →
  (leaf_step p o).2 = (leaf_spec p (leaf_map cells) o).2 ∧ IsLeaf (leaf_step p o).1 = true ∧
  ∃ cells', page_rep (leaf_step p o).1 cells' ∧ leaf_map cells' = (leaf_spec p (leaf_map cells) o).1.
Proof.
  intros Hp Hl. pose proof Hp as (_ & Hs & _). destruct o as [k v|k]; cbn [leaf_step leaf_spec].
  - pose proof (insert_leaf p cells k v Hp Hl) as H. destruct (InsertIntoLeaf p k v) as [p' r].
    destruct (IsFull p (len k) (len v)); cbn [fst snd].
    + destruct H as [-> ->]. split; [done|]. split; [done|]. by exists cells.
    + destruct H as (-> & Hp' & Hsp). split; [done|]. split; [by rewrite (same_page_leaf p p' Hsp)|].
      eexists. split; [exact Hp'|]. unfold leaf_map. rewrite put_cell_map by done. by rewrite fmap_insert.
  - pose proof (delete_leaf p cells k Hp) as H. destruct (deleteCellFromLeaf p k) as [p' r].
    destruct H as [Hsp H]. cbn [fst snd]. rewrite (same_page_leaf p p' Hsp).
    destruct (leaf_map cells !! k) as [v|]; cbn [fst snd].
    + destruct H as (-> & cells' & Hp' & E). split; [done|]. split; [done|]. by exists cells'.
    + destruct H as [-> ->]. split; [done|]. split; [done|]. by exists cells.
Qed.

(** C9: a leaf page is a bounded map: along any sequence of puts and deletes on a new leaf,
    a put is refused (and changes nothing) exactly when the page is full and otherwise
    stores the pair, a delete removes the key or reports it missing, searches return the
    stored values, the cell count is the number of keys, and the cells are strictly sorted. *)
Theorem leaf_page_refines_map id ops : leaf_run (NewPage id PageTypeLeaf) ∅ ops.
Proof.
  assert (H : ∀ ops p cells, page_rep p cells → IsLeaf p = true → leaf_run p (leaf_map cells) ops).
  { clear. induction ops as [|o ops IH]; intros p cells Hp Hl; cbn [leaf_run].
    - split; [by apply rep_agrees|done].
    - split; [by apply rep_agrees|]. destruct (leaf_step_spec p cells o Hp Hl) as (E & Hl' & cells' & Hp' & Em).
      split; [done|]. rewrite <-Em. by apply IH. }
  apply (H ops _ []); [apply NewPage_rep|done].
Qed.

(** ** An internal node is a routing table *)

(** The child for a key: that of the last separator not above it, or the right pointer. *)
Fixpoint route (right : Z) (cells : list Cell) (key : bytes) : Z :=
  match cells with
  | [] => right
  | c :: cells => if key_ge key c then route (c_Child c) cells key else right
  end.

Lemma key_ge_lt key c : key_ge key c = false ↔ bytes_lt key (c_Key c).
Proof. unfold key_ge. apply bytes_leb_nle. Qed.

Section routing.
Context (p : Page) (cells : list Cell) (Hp : page_rep p cells) (key : bytes).

Lemma rep_at a c b : cells = a ++ c :: b → CellAt p (len a) = Ok c.
Proof using Hp. intros ->. unfold len. rewrite (rep_CellAt p _ _ c Hp); [done|]. by apply list_lookup_middle. Qed.

Lemma next_covers_spec a c b :
  cells = a ++ c :: b →
  next_covers p (len cells) (len a) key = Ok (match b with [] => false | c' :: _ => key_ge key c' end).
Proof using Hp.
  intros E. destruct (rep_num p cells Hp) as [_ Hn]. unfold next_covers. pose proof (len_nonneg a).
  assert (Hl : len cells = len a + (1 + len b)) by (rewrite E, len_app, len_cons; done).
  rewrite Hl in *. pose proof (len_nonneg b). rewrite u16_small by lia.
  destruct b as [|c' b].
  { rewrite len_nil. by destruct (Z.ltb_spec (len a + 1) (len a + (1 + 0))); [lia|]. }
  rewrite len_cons. pose proof (len_nonneg b). destruct (Z.ltb_spec (len a + 1) (len a + (1 + (1 + len b)))); [|lia].
  replace (len a + 1) with (len (a ++ [c])) by (rewrite len_app; done).
  rewrite (rep_at (a ++ [c]) c' b); [done|]. by rewrite E, <-app_assoc.
Qed.

(** Both loops, once a separator is not above the key. *)
Lemma child_loop_found b : ∀ a c,
  cells = a ++ c :: b → StronglySorted (key_lt c_Key) cells → key_ge key c = true →
  child_loop (S (length b)) p (len cells) (len a) key = Ok (Some (route (c_Child c) b key)) ∧
  find_loop (S (length b)) p (len cells) (len a) key = Ok (Some (route (c_Child c) b key)).
Proof using Hp.
  induction b as [|c' b IH]; intros a c E Hs Hge.
  - cbn [child_loop find_loop length]. rewrite (rep_at a c [] E). cbn [mbind res_bind]. rewrite Hge.
    rewrite (next_covers_spec a c [] E). done.
  - cbn [length]. remember (S (length b)) as n eqn:En. cbn [child_loop find_loop].
    rewrite (rep_at a c _ E). cbn [mbind res_bind]. rewrite Hge, (next_covers_spec a c _ E). cbn [mbind res_bind route].
    destruct (key_ge key c') eqn:Hc'; [|done]. subst n.
    replace (len a + 1) with (len (a ++ [c])) by (rewrite len_app; done).
    apply IH; [by rewrite E, <-app_assoc|done|done].
Qed.

Lemma child_loop_none b : ∀ a,
  cells = a ++ b → Forall (λ c, key_ge key c = false) b →
  child_loop (length b) p (len cells) (len a) key = Ok None ∧
  find_loop (length b) p (len cells) (len a) key = Ok None.
Proof using Hp.
  induction b as [|c b IH]; intros a E Hall; [done|]. apply Forall_cons in Hall as [Hc Hall].
  cbn [length child_loop find_loop]. rewrite (rep_at a c _ E). cbn [mbind res_bind]. rewrite Hc.
  replace (len a + 1) with (len (a ++ [c])) by (rewrite len_app; done).
  apply IH; [by rewrite E, <-app_assoc|done].
Qed.
End routing.

Lemma node_routes p cells key (Hp : page_rep p cells) (Hint : IsLeaf p = false) :
  findChild p key = Ok (route (RightPtr p) cells key) ∧
  GetChildPageID p key =
    (if decide (Forall (λ c, key_ge key c = false) cells ∧ RightPtr p = 0) then Err ErrCellNotFound
     else Ok (route (RightPtr p) cells key)).
Proof.
  destruct (rep_num p cells Hp) as [En Hn]. pose proof Hp as (_ & Hs & _).
  unfold findChild, GetChildPageID. rewrite Hint, En.
  replace (Z.to_nat (len cells)) with (length cells) by (unfold len; lia).
  destruct (decide (Forall (λ c, key_ge key c = false) cells)) as [Hall|Hsome].
  - destruct (child_loop_none p cells Hp key cells [] eq_refl Hall) as [H1 H2].
    change (len []) with 0 in *. rewrite H1, H2. cbn [mbind res_bind].
    assert (Hr : route (RightPtr p) cells key = RightPtr p).
    { destruct cells as [|c cs]; [done|]. apply Forall_cons in Hall as [Hc _]. simpl. by rewrite Hc. }
    rewrite Hr. split; [done|]. destruct (Z.eqb_spec (RightPtr p) 0); case_decide; tauto.
  - destruct cells as [|c cs]; [by destruct Hsome|].
    assert (Hc : key_ge key c = true).
    { destruct (key_ge key c) eqn:E; [done|]. destruct Hsome. constructor; [done|].
      inversion_clear Hs as [|? ? _ Hlt]. eapply Forall_impl; [exact Hlt|]. intros x Hx.
      apply key_ge_lt in E. apply key_ge_lt. by etrans. }
    destruct (child_loop_found p (c :: cs) Hp key cs [] c eq_refl Hs Hc) as [H1 H2].
    change (len []) with 0 in *. cbn [length]. rewrite H1, H2. cbn [mbind res_bind route]. rewrite Hc.
    split; [done|]. case_decide; tauto.
Qed.


Lemma insert_internal p cells k child :
  page_rep p cells → IsLeaf p = false → 0 ≤ child < 2 ^ 32 → IsFull p (len k) 0 = false →
  (InsertIntoInternal p k child).2 = Ok tt ∧
  page_rep (InsertIntoInternal p k child).1 (put_cell (MkCell k [] child) cells) ∧
  same_page p (InsertIntoInternal p k child).1.
Proof.
  intros Hp Hl Hc Hf. unfold InsertIntoInternal. rewrite Hl.
  destruct (rep_insert p cells (MkCell k [] child) Hp) as (p' & -> & Hp' & Hsp & _); [by rewrite Hl|by rewrite Hl|].
  done.
Qed.

(** A node with the separators [5] and [8]. *)
Definition demo_node : Page :=
  SetRightPtr 9 (InsertIntoInternal (InsertIntoInternal (NewPage 3 PageTypeInternal) [8] 11).1 [5] 10).1.

Definition demo_seps : list Cell := [MkCell [5] [] 10; MkCell [8] [] 11].

Lemma demo_node_rep : page_rep demo_node demo_seps.
Proof.
  destruct (NewPage_rep 3 PageTypeInternal) as (Hp & _).
  destruct (insert_internal _ [] [8] 11 Hp) as (_ & Hp1 & _); [by vm_compute|lia|by vm_compute|].
  destruct (insert_internal _ _ [5] 10 Hp1) as (_ & Hp2 & _); [by vm_compute|lia|by vm_compute|].
  apply (SetRightPtr_rep _ demo_seps 9); [exact Hp2|lia].
Qed.

