(* ===== verification/BtWal.v ===== *)
(** The physical write-ahead log of the B-tree ([src/btree/wal.go]): a header, then records
    that carry the bytes written to a page, each with its checksum, and checkpoints. *)
From stdpp Require Import base gmap list strings numbers sorting.
From S2P Require Import Prelude GoLib.

Open Scope Z_scope.

Definition WALRecordPageWrite : Z := 1.
Definition WALRecordCheckpoint : Z := 2.
Definition WALRecordCommit : Z := 3.
Definition WALVersion : Z := 1.
Definition WALHeaderSize : Z := 8.
(** "BWAL". *)
Definition WALMagic : bytes := [66; 87; 65; 76].

Record WALRecord := MkRecord {
  r_Type : Z;
  r_PageID : Z;
  r_Offset : Z;
  r_Length : Z;
  r_Data : bytes;
  r_Checksum : Z;
}.

(** The content of the file, the offset of the next record and the offset of the last
    [fsync]. *)
Record BWAL := MkBWAL {
  bw_file : bytes;
  bw_offset : Z;
  bw_flushed : Z;
}.

(** ** The header *)

Definition header_bytes : bytes := WALMagic ++ le_put 4 WALVersion.

Definition writeHeader (f : bytes) : bytes := WriteAt f header_bytes 0.

Definition validateHeader (f : bytes) : res unit :=
  let '(header, err) := ReadAt f WALHeaderSize 0 in
  match err with
  | Some _ => Err (Errorf "failed to read WAL header")
  | None =>
      if negb (bytes_eqb (slice 0 4 header) WALMagic) then Err (Errorf "invalid WAL magic")
      else if negb (le_u32 (slice_from 4 header) =? WALVersion) then Err (Errorf "unsupported WAL version")
      else Ok tt
  end.

(** [NewWAL] on the content of the file, empty for a new one. *)
Definition BNewWAL (f : bytes) : res BWAL :=
  if len f =? 0 then Ok (MkBWAL (writeHeader f) WALHeaderSize WALHeaderSize)
  else _ ← validateHeader f; Ok (MkBWAL f (len f) (len f)).

(** ** Records *)

Definition record_head (r : WALRecord) : bytes :=
  [r_Type r] ++ le_put 4 (r_PageID r) ++ le_put 4 (r_Offset r) ++ le_put 4 (r_Length r).

Definition calculateChecksum (r : WALRecord) : Z := ChecksumIEEE (record_head r ++ r_Data r).

Definition encodeRecord (r : WALRecord) : bytes := record_head r ++ r_Data r ++ le_put 4 (r_Checksum r).

(** The [uint32] additions in the bounds wrap. *)
Definition decodeRecord (buf : bytes) : res WALRecord :=
  if len buf <? 17 then Err (Errorf "record too short")
  else
    let ty := default 0 (buf !! 0%nat) in
    let pageID := le_u32 (slice_from 1 buf) in
    let offset := le_u32 (slice_from 5 buf) in
    let length := le_u32 (slice_from 9 buf) in
    let end_ := u32 (13 + length) in
    if (0 <? length) && (len buf <? 13 + length + 4) then Err (Errorf "incomplete record")
    else if (0 <? length) && (end_ <? 13) then Panic
    else if len buf <? end_ + 4 then Panic
    else
      let data := if 0 <? length then copy_at 0 (slice 13 end_ buf) (make_bytes length) else [] in
      let r := MkRecord ty pageID offset length data (le_u32 (slice_from end_ buf)) in
      if negb (r_Checksum r =? calculateChecksum r) then Err (Errorf "checksum mismatch") else Ok r.

(** Append a record at the current offset. *)
Definition log_record (w : BWAL) (r : WALRecord) : BWAL :=
  let encoded := encodeRecord r in
  MkBWAL (WriteAt (bw_file w) encoded (bw_offset w)) (bw_offset w + len encoded) (bw_flushed w).

Definition with_checksum (r : WALRecord) : WALRecord :=
  MkRecord (r_Type r) (r_PageID r) (r_Offset r) (r_Length r) (r_Data r) (calculateChecksum r).

Definition LogPageWrite (w : BWAL) (pageID offset : Z) (data : bytes) : BWAL :=
  log_record w (with_checksum (MkRecord WALRecordPageWrite pageID offset (u32 (len data)) data 0)).

Definition LogCheckpoint (w : BWAL) : BWAL :=
  log_record w (with_checksum (MkRecord WALRecordCheckpoint 0 0 0 [] 0)).

Definition BWAL_Sync (w : BWAL) : BWAL := MkBWAL (bw_file w) (bw_offset w) (bw_offset w).

Definition BWAL_Truncate (w : BWAL) : BWAL := MkBWAL (writeHeader []) WALHeaderSize WALHeaderSize.

Definition BWAL_Size (w : BWAL) : Z := bw_offset w.

(** ** Reading *)

(** The loop of [ReadAll]: the records read and the error; a record is at least 17 bytes,
    so the length of the file bounds the rounds. *)
Fixpoint readall_loop (fuel : nat) (w : BWAL) (offset : Z) (records : list WALRecord)
    : list WALRecord * res unit :=
  match fuel with
  | O => (records, Ok tt)
  | S fuel =>
      if offset <? bw_offset w then
        let '(header, err) := ReadAt (bw_file w) 13 offset in
        match err with
        | Some EOF => (records, Ok tt)
        | Some _ => (records, Err (Errorf "failed to read record header"))
        | None =>
            let recordType := default 0 (header !! 0%nat) in
            let length := le_u32 (slice_from 9 header) in
            let recordSize := 13 + length + 4 in
            let '(fullRecord, err) := ReadAt (bw_file w) recordSize offset in
            match err with
            | Some EOF => (records, Ok tt)
            | Some _ => (records, Err (Errorf "failed to read full record"))
            | None =>
                match decodeRecord fullRecord with
                | Ok record =>
                    let records := records ++ [record] in
                    if recordType =? WALRecordCheckpoint then (records, Ok tt)
                    else readall_loop fuel w (offset + recordSize) records
                | Err _ => (records, Err (Errorf "corrupted record"))
                | Panic => (records, Panic)
                end
            end
        end
      else (records, Ok tt)
  end.

Definition BWAL_ReadAll (w : BWAL) : list WALRecord * res unit :=
  readall_loop (length (bw_file w)) w WALHeaderSize [].

(** ** What is logged is read *)

(** A record as the log writes it. *)
Record record_ok (r : WALRecord) : Prop := {
  ro_page : 0 ≤ r_PageID r < 2 ^ 32;
  ro_offset : 0 ≤ r_Offset r < 2 ^ 32;
  ro_length : r_Length r = len (r_Data r);
  ro_small : len (r_Data r) < 2 ^ 31;
  ro_sum : r_Checksum r = calculateChecksum r;
}.

Lemma len_le_put4 z : len (le_put 4 z) = 4.
Proof. unfold len. by rewrite length_le_put. Qed.

Lemma len_record_head r : len (record_head r) = 13.
Proof. unfold record_head. rewrite !len_app, !len_le_put4. done. Qed.

Lemma len_encodeRecord r : len (encodeRecord r) = 17 + len (r_Data r).
Proof. unfold encodeRecord. rewrite !len_app, len_record_head, len_le_put4. lia. Qed.

Lemma head_fields r rest :
  record_ok r →
  (record_head r ++ rest) !! 0%nat = Some (r_Type r) ∧ le_u32 (slice_from 1 (record_head r ++ rest)) = r_PageID r ∧
  le_u32 (slice_from 5 (record_head r ++ rest)) = r_Offset r ∧
  le_u32 (slice_from 9 (record_head r ++ rest)) = r_Length r.
Proof.
  intros [Hp Ho Hl Hs _]. unfold record_head. pose proof (len_nonneg (r_Data r)). split; [done|].
  rewrite <-!app_assoc. split_and!.
  - rewrite (slice_from_app 1 [r_Type r]) by done. by apply le_u32_put.
  - rewrite (app_assoc [r_Type r]), (slice_from_app 5) by (rewrite len_app, len_le_put4; done). by apply le_u32_put.
  - rewrite (app_assoc [r_Type r]), (app_assoc (_ ++ _)), (slice_from_app 9) by (rewrite !len_app, !len_le_put4; done).
    apply le_u32_put. lia.
Qed.

Lemma decode_encode r : record_ok r → decodeRecord (encodeRecord r) = Ok r.
Proof.
  intros Hok. pose proof Hok as [Hp Ho Hl Hs Hsum]. pose proof (len_nonneg (r_Data r)).
  unfold decodeRecord. rewrite len_encodeRecord. destruct (Z.ltb_spec (17 + len (r_Data r)) 17); [lia|].
  destruct (head_fields r (r_Data r ++ le_put 4 (r_Checksum r)) Hok) as (F0 & F1 & F2 & F3).
  change (record_head r ++ r_Data r ++ le_put 4 (r_Checksum r)) with (encodeRecord r) in *.
  rewrite F0, F1, F2, F3. cbn [default from_option id].
  rewrite Hl, u32_small by lia.
  destruct (Z.ltb_spec (17 + len (r_Data r)) (13 + len (r_Data r) + 4)); [lia|].
  destruct (Z.ltb_spec (13 + len (r_Data r)) 13); [lia|]. rewrite !andb_false_r.
  assert (Hd : slice 13 (13 + len (r_Data r)) (encodeRecord r) = r_Data r).
  { unfold encodeRecord. apply slice_mid; rewrite len_record_head; done. }
  assert (Hc : le_u32 (slice_from (13 + len (r_Data r)) (encodeRecord r)) = r_Checksum r).
  { unfold encodeRecord. rewrite app_assoc, slice_from_app by (rewrite len_app, len_record_head; done).
    apply le_u32_enc. rewrite Hsum. apply ChecksumIEEE_range. }
  assert (Hdata : (if 0 <? len (r_Data r) then copy_at 0 (r_Data r) (make_bytes (len (r_Data r))) else []) = r_Data r).
  { destruct (Z.ltb_spec 0 (len (r_Data r))); [|destruct (r_Data r); [done|unfold len in *; simpl in *; lia]].
    rewrite copy_at_full; rewrite length_make_bytes; unfold len; [|lia]. simpl. apply take_ge. lia. }
  rewrite Hd, Hc, Hdata, <-Hl. cbn [r_Checksum].
  replace (MkRecord (r_Type r) (r_PageID r) (r_Offset r) (r_Length r) (r_Data r) (r_Checksum r)) with r by by destruct r.
  by rewrite Hsum, Z.eqb_refl.
Qed.

Definition log_bytes (rs : list WALRecord) : bytes := concat (encodeRecord <$> rs).

(** What [ReadAll] returns of a list of records: up to the first checkpoint. *)
Fixpoint until_checkpoint (rs : list WALRecord) : list WALRecord :=
  match rs with
  | [] => []
  | r :: rs => if r_Type r =? WALRecordCheckpoint then [r] else r :: until_checkpoint rs
  end.

(** The end of a log: nothing, or a torn record. *)
Definition torn (t : bytes) : Prop := t = [] ∨ ∃ r n, record_ok r ∧ (n < length (encodeRecord r))%nat ∧ t = take n (encodeRecord r).

Lemma readall_torn pre t acc fuel flushed :
  torn t → readall_loop fuel (MkBWAL (pre ++ t) (len (pre ++ t)) flushed) (len pre) acc = (acc, Ok tt).
Proof.
  intros Ht. destruct fuel as [|fuel]; [done|]. cbn [readall_loop bw_offset bw_file]. rewrite len_app.
  destruct (Z.ltb_spec (len pre) (len pre + len t)) as [Hlt|]; [|done].
  destruct Ht as [->|(r & n & Hok & Hn & ->)]; [rewrite len_nil in Hlt; lia|]. pose proof (len_nonneg pre).
  pose proof (len_encodeRecord r) as Hlen. pose proof (len_record_head r) as Hhead.
  destruct (decide (n < 13)%nat) as [H13|H13].
  { pose proof (ReadAt_short (pre ++ take n (encodeRecord r)) 13 (len pre)) as Hshort.
    destruct (ReadAt _ 13 (len pre)) as [header err]. simpl in Hshort. rewrite Hshort; [done| |lia|lia].
    rewrite len_app. unfold len at 2. rewrite length_take. lia. }
  assert (Htake : take n (encodeRecord r) = record_head r ++ take (n - 13) (r_Data r ++ le_put 4 (r_Checksum r))).
  { unfold encodeRecord. rewrite take_app_ge by (unfold len in Hhead; lia).
    by replace (length (record_head r)) with 13%nat by (unfold len in Hhead; lia). }
  rewrite Htake at 1. rewrite (ReadAt_mid pre (record_head r)) by done.
  destruct (head_fields r [] Hok) as (_ & _ & _ & H3). rewrite app_nil_r in H3. rewrite H3.
  pose proof (ReadAt_short (pre ++ take n (encodeRecord r)) (13 + r_Length r + 4) (len pre)) as Hshort.
  destruct (ReadAt _ (13 + r_Length r + 4) (len pre)) as [full err]. simpl in Hshort.
  destruct Hok as [_ _ Hl _ _]. pose proof (len_nonneg (r_Data r)). rewrite Hshort; [done| |lia|lia].
  rewrite Hl, len_app. unfold len in *. rewrite length_take. lia.
Qed.

Lemma readall_records rs : ∀ pre t acc fuel flushed,
  Forall record_ok rs → torn t → (length rs ≤ fuel)%nat →
  readall_loop fuel (MkBWAL (pre ++ log_bytes rs ++ t) (len (pre ++ log_bytes rs ++ t)) flushed) (len pre) acc =
    (acc ++ until_checkpoint rs, Ok tt).
Proof.
  induction rs as [|r rs IH]; intros pre t acc fuel flushed Hok Ht Hf.
  - rewrite app_nil_r. by apply readall_torn.
  - apply Forall_cons in Hok as [Hr Hok]. destruct fuel as [|fuel]; [simpl in Hf; lia|].
    pose proof (len_nonneg pre). pose proof (len_nonneg (r_Data r)). pose proof (len_encodeRecord r) as Hlen.
    pose proof (len_record_head r) as Hhead. pose proof (len_nonneg (log_bytes rs)). pose proof (len_nonneg t).
    change (log_bytes (r :: rs)) with (encodeRecord r ++ log_bytes rs). rewrite <-app_assoc.
    cbn [readall_loop bw_offset bw_file].
    destruct (Z.ltb_spec (len pre) (len (pre ++ encodeRecord r ++ log_bytes rs ++ t))) as [_|H'];
      [|rewrite !len_app in H'; lia].
    assert (E1 : ReadAt (pre ++ encodeRecord r ++ log_bytes rs ++ t) 13 (len pre) = (record_head r, None)).
    { unfold encodeRecord. rewrite <-!app_assoc. by apply ReadAt_mid. }
    rewrite E1. destruct (head_fields r [] Hr) as (H0' & _ & _ & H3). rewrite app_nil_r in *. rewrite H0', H3.
    destruct Hr as [Hp Ho Hl Hs Hsum] eqn:Er. rewrite Hl.
    rewrite (ReadAt_mid pre (encodeRecord r)) by (done || lia). rewrite decode_encode by done.
    cbn [default from_option id until_checkpoint]. destruct (r_Type r =? WALRecordCheckpoint); [done|].
    replace (len pre + (13 + len (r_Data r) + 4)) with (len (pre ++ encodeRecord r)) by (rewrite len_app; lia).
    rewrite (app_assoc pre (encodeRecord r)). rewrite IH; [by rewrite <-app_assoc|done|done|simpl in Hf; lia].
Qed.

(** ** The log over a run *)

Inductive log_op :=
| OWrite (pageID offset : Z) (data : bytes)
| OCheckpoint.

Definition log_step (w : BWAL) (o : log_op) : BWAL :=
  match o with
  | OWrite pageID offset data => LogPageWrite w pageID offset data
  | OCheckpoint => LogCheckpoint w
  end.

Definition logged_record (o : log_op) : WALRecord :=
  match o with
  | OWrite pageID offset data =>
      with_checksum (MkRecord WALRecordPageWrite pageID offset (u32 (len data)) data 0)
  | OCheckpoint => with_checksum (MkRecord WALRecordCheckpoint 0 0 0 [] 0)
  end.

(** Page numbers and offsets of 32 bits, less than 2 GB of data. *)
Definition log_op_ok (o : log_op) : Prop :=
  match o with
  | OWrite pageID offset data => 0 ≤ pageID < 2 ^ 32 ∧ 0 ≤ offset < 2 ^ 32 ∧ len data < 2 ^ 31
  | OCheckpoint => True
  end.

Lemma logged_record_ok o : log_op_ok o → record_ok (logged_record o).
Proof.
  destruct o as [pageID offset data|]; simpl.
  - intros (? & ? & ?). pose proof (len_nonneg data). split; simpl; [done|done|apply u32_small; lia|done|done].
  - intros _. split; simpl; done || lia.
Qed.

Lemma log_bytes_app a b : log_bytes (a ++ b) = log_bytes a ++ log_bytes b.
Proof. unfold log_bytes. by rewrite fmap_app, concat_app. Qed.

Definition log_file (rs : list WALRecord) : bytes := header_bytes ++ log_bytes rs.

Lemma log_steps_file ops : ∀ rs flushed,
  foldl log_step (MkBWAL (log_file rs) (len (log_file rs)) flushed) ops =
    MkBWAL (log_file (rs ++ (logged_record <$> ops))) (len (log_file (rs ++ (logged_record <$> ops)))) flushed.
Proof.
  induction ops as [|o ops IH]; intros rs flushed; cbn [foldl]; [by rewrite app_nil_r|].
  assert (E : log_step (MkBWAL (log_file rs) (len (log_file rs)) flushed) o =
    MkBWAL (log_file (rs ++ [logged_record o])) (len (log_file (rs ++ [logged_record o]))) flushed).
  { assert (E : ∀ r, log_record (MkBWAL (log_file rs) (len (log_file rs)) flushed) r =
      MkBWAL (log_file (rs ++ [r])) (len (log_file (rs ++ [r]))) flushed).
    { intros r. unfold log_record. cbn [bw_file bw_offset bw_flushed]. rewrite WriteAt_end by done.
      unfold log_file. rewrite log_bytes_app, !len_app, <-app_assoc.
      replace (log_bytes [r]) with (encodeRecord r) by (unfold log_bytes; simpl; by rewrite app_nil_r). f_equal. lia. }
    destruct o; apply E. }
  rewrite E, IH, <-app_assoc. done.
Qed.

Lemma validate_log f : validateHeader (header_bytes ++ f) = Ok tt.
Proof.
  unfold validateHeader. pose proof (ReadAt_mid [] header_bytes f WALHeaderSize 0 eq_refl eq_refl) as E.
  cbn [app] in E. by rewrite E.
Qed.

Lemma read_log rs t flushed :
  Forall record_ok rs → torn t →
  BWAL_ReadAll (MkBWAL (log_file rs ++ t) (len (log_file rs ++ t)) flushed) = (until_checkpoint rs, Ok tt).
Proof.
  intros Hok Ht. unfold BWAL_ReadAll, log_file. cbn [bw_file]. rewrite <-app_assoc.
  rewrite (readall_records rs header_bytes t [] _ flushed); [done|done|done|].
  rewrite !length_app. assert (length rs ≤ length (log_bytes rs))%nat; [|lia].
  clear. induction rs as [|r rs IH]; [done|]. change (log_bytes (r :: rs)) with (encodeRecord r ++ log_bytes rs).
  rewrite length_app. pose proof (len_encodeRecord r) as H. pose proof (len_nonneg (r_Data r)). unfold len in *. simpl. lia.
Qed.

(** C22: whatever is logged to a new log is read back, record by record with its data and
    checksum, up to the first checkpoint; and a crash in the middle of an append costs only
    the record that was being written: the log opens again and reads the same records. *)
Theorem btree_wal_roundtrip ops o n
    (Hops : Forall log_op_ok ops) (Ho : log_op_ok o) (Hn : (n < length (encodeRecord (logged_record o)))%nat) :
  ∃ w0, BNewWAL [] = Ok w0 ∧
    let w := foldl log_step w0 ops in
    BWAL_ReadAll w = (until_checkpoint (logged_record <$> ops), Ok tt) ∧
    ∃ w', BNewWAL (bw_file w ++ take n (encodeRecord (logged_record o))) = Ok w' ∧
      BWAL_ReadAll w' = (until_checkpoint (logged_record <$> ops), Ok tt).
Proof.
  assert (Hok : Forall record_ok (logged_record <$> ops)).
  { apply Forall_fmap. eapply Forall_impl; [exact Hops|]. apply logged_record_ok. }
  eexists. split; [reflexivity|]. cbn zeta.
  change (MkBWAL _ _ _) with (MkBWAL (log_file []) (len (log_file [])) WALHeaderSize). rewrite log_steps_file.
  cbn [app bw_file]. set (rs := logged_record <$> ops) in *. split.
  - pose proof (read_log rs [] WALHeaderSize Hok (or_introl eq_refl)) as H. by rewrite app_nil_r in H.
  - set (t := take n _). assert (Ht : torn t).
    { right. exists (logged_record o), n. split; [by apply logged_record_ok|done]. }
    eexists. unfold BNewWAL. split; [|by apply (read_log rs t (len (log_file rs ++ t)) Hok Ht)].
    destruct (Z.eqb_spec (len (log_file rs ++ t)) 0) as [E|_].
    { unfold log_file in E. rewrite !len_app in E. pose proof (len_nonneg (log_bytes rs)). pose proof (len_nonneg t).
      change (len header_bytes) with 8 in E. lia. }
    assert (Hv : validateHeader (log_file rs ++ t) = Ok tt) by (unfold log_file; rewrite <-app_assoc; apply validate_log).
    by rewrite Hv.
Qed.

Definition demo_log : list log_op := [OWrite 1 0 [7; 8; 9]; OWrite 2 10 []; OCheckpoint; OWrite 3 0 [1]].

Lemma btree_wal_roundtrip_witness :
  ∃ w0, BNewWAL [] = Ok w0 ∧
    BWAL_ReadAll (foldl log_step w0 demo_log) = (logged_record <$> take 3 demo_log, Ok tt).
Proof.
  destruct (btree_wal_roundtrip demo_log OCheckpoint 5) as (w0 & E & Hr & _).
  - repeat constructor; simpl; unfold len; simpl; lia.
  - done.
  - apply Nat.ltb_lt. by vm_compute.
  - exists w0. split; [exact E|]. rewrite Hr. reflexivity.
Defined.
