(* ===== verification/BtPager.v ===== *)
(** The pager of the B-tree ([src/btree/pager.go]): page objects shared through a cache with
    least-recently-used eviction, the set of dirty pages, the metadata page and the file. *)
From stdpp Require Import base gmap list strings numbers sorting.
From S2P Require Import Prelude GoLib GoState BtVarint BtPage BtWal.

Open Scope Z_scope.

Definition MetadataPageID : Z := 0.
Definition MetadataOffsetMagic : Z := 0.
Definition MetadataOffsetRoot : Z := 4.
Definition MetadataOffsetNumPage : Z := 8.
Definition MetadataOffsetFreeList : Z := 12.
Definition MetadataMagic : Z := 0x42545245.

Definition ErrInvalidDatabase : error := Errorf "invalid database file".
Definition ErrDatabaseClosed : error := Errorf "database is closed".

Record Metadata := MkMeta {
  md_Magic : Z;
  md_RootPageID : Z;
  md_NumPages : Z;
  md_FreeListPtr : Z;
}.

Record PagerStats := MkPStats {
  ps_pageWrites : Z;
  ps_pageReads : Z;
  ps_cacheHits : Z;
  ps_bytesWritten : Z;
}.

(** A [*Page] is an index into the store of page objects: the cache and the callers of the
    pager share the objects, and an object outlives its place in the cache. *)
Abbreviation page_ptr := nat.

Record Pager := MkPager {
  p_file : bytes;
  p_store : list Page;
  p_cache : gmap Z page_ptr;
  p_lru : golist Z;
  p_lruMap : gmap Z nat;
  p_cacheSize : Z;
  p_dirty : gset Z;
  p_metadata : Metadata;
  p_closed : bool;
  p_wal : option BWAL;
  p_stats : PagerStats;
}.

Definition set_file (f : bytes) (p : Pager) : Pager :=
  MkPager f (p_store p) (p_cache p) (p_lru p) (p_lruMap p) (p_cacheSize p) (p_dirty p) (p_metadata p) (p_closed p) (p_wal p) (p_stats p).
Definition set_store (s : list Page) (p : Pager) : Pager :=
  MkPager (p_file p) s (p_cache p) (p_lru p) (p_lruMap p) (p_cacheSize p) (p_dirty p) (p_metadata p) (p_closed p) (p_wal p) (p_stats p).
Definition set_cache (c : gmap Z page_ptr) (p : Pager) : Pager :=
  MkPager (p_file p) (p_store p) c (p_lru p) (p_lruMap p) (p_cacheSize p) (p_dirty p) (p_metadata p) (p_closed p) (p_wal p) (p_stats p).
Definition set_lru (l : golist Z) (m : gmap Z nat) (p : Pager) : Pager :=
  MkPager (p_file p) (p_store p) (p_cache p) l m (p_cacheSize p) (p_dirty p) (p_metadata p) (p_closed p) (p_wal p) (p_stats p).
Definition set_dirty (d : gset Z) (p : Pager) : Pager :=
  MkPager (p_file p) (p_store p) (p_cache p) (p_lru p) (p_lruMap p) (p_cacheSize p) d (p_metadata p) (p_closed p) (p_wal p) (p_stats p).
Definition set_metadata (m : Metadata) (p : Pager) : Pager :=
  MkPager (p_file p) (p_store p) (p_cache p) (p_lru p) (p_lruMap p) (p_cacheSize p) (p_dirty p) m (p_closed p) (p_wal p) (p_stats p).
Definition set_closed (b : bool) (p : Pager) : Pager :=
  MkPager (p_file p) (p_store p) (p_cache p) (p_lru p) (p_lruMap p) (p_cacheSize p) (p_dirty p) (p_metadata p) b (p_wal p) (p_stats p).
Definition set_wal (w : option BWAL) (p : Pager) : Pager :=
  MkPager (p_file p) (p_store p) (p_cache p) (p_lru p) (p_lruMap p) (p_cacheSize p) (p_dirty p) (p_metadata p) (p_closed p) w (p_stats p).
Definition set_stats (s : PagerStats) (p : Pager) : Pager :=
  MkPager (p_file p) (p_store p) (p_cache p) (p_lru p) (p_lruMap p) (p_cacheSize p) (p_dirty p) (p_metadata p) (p_closed p) (p_wal p) s.

Definition count_write (p : Pager) : Pager :=
  let s := p_stats p in
  set_stats (MkPStats (ps_pageWrites s + 1) (ps_pageReads s) (ps_cacheHits s) (ps_bytesWritten s + PageSize)) p.
Definition count_read (p : Pager) : Pager :=
  let s := p_stats p in
  set_stats (MkPStats (ps_pageWrites s) (ps_pageReads s + 1) (ps_cacheHits s) (ps_bytesWritten s)) p.
Definition count_hit (p : Pager) : Pager :=
  let s := p_stats p in
  set_stats (MkPStats (ps_pageWrites s) (ps_pageReads s) (ps_cacheHits s + 1) (ps_bytesWritten s)) p.

(** ** Page objects *)

(** [*ptr], a new object, a method call on an object. *)
Definition deref (p : Pager) (ptr : page_ptr) : Page := default (NewPage 0 0) (p_store p !! ptr).
Definition alloc (pg : Page) (p : Pager) : page_ptr * Pager :=
  (length (p_store p), set_store (p_store p ++ [pg]) p).
Definition upd (ptr : page_ptr) (f : Page → Page) (p : Pager) : Pager :=
  set_store (alter f ptr (p_store p)) p.

(** ** Metadata *)

Definition NumPages (p : Pager) : Z := md_NumPages (p_metadata p).
Definition RootPageID (p : Pager) : Z := md_RootPageID (p_metadata p).

Definition meta_bytes (m : Metadata) : bytes :=
  copy_at MetadataOffsetFreeList (be_put 4 (md_FreeListPtr m))
    (copy_at MetadataOffsetNumPage (be_put 4 (md_NumPages m))
      (copy_at MetadataOffsetRoot (be_put 4 (md_RootPageID m))
        (copy_at MetadataOffsetMagic (be_put 4 (md_Magic m)) (make_bytes PageSize)))).

Definition writeMetadata (p : Pager) : Pager :=
  count_write (set_file (WriteAt (p_file p) (meta_bytes (p_metadata p)) 0) p).

Definition readMetadata (f : bytes) : res Metadata :=
  let '(data, err) := ReadAt f PageSize 0 in
  match err with
  | Some e => Err e
  | None =>
      let meta := MkMeta (be_u32 (slice_from MetadataOffsetMagic data)) (be_u32 (slice_from MetadataOffsetRoot data))
        (be_u32 (slice_from MetadataOffsetNumPage data)) (be_u32 (slice_from MetadataOffsetFreeList data)) in
      if negb (md_Magic meta =? MetadataMagic) then Err ErrInvalidDatabase else Ok meta
  end.

(** ** Pages on disk *)

Definition writePage (pg : Page) (p : Pager) : Pager :=
  count_write (set_file (WriteAt (p_file p) (pg_data pg) (pg_id pg * PageSize)) p).

Definition readPage (pageID : Z) : M Pager Page := λ p,
  if NumPages p <=? pageID then (p, Err (Errorf "page ID out of bounds"))
  else
    let '(data, err) := ReadAt (p_file p) PageSize (pageID * PageSize) in
    match err with
    | Some e => (p, Err e)
    | None => (count_read p, LoadPage pageID data)
    end.

(** ** The cache *)

(** A page on the list that is dirty is written back before it leaves the cache. *)
Definition evictLRU (p : Pager) : Pager :=
  match list_Back (p_lru p) with
  | None => p
  | Some (elem, pageID) =>
      let p :=
        if decide (pageID ∈ p_dirty p) then
          match p_cache p !! pageID with
          | Some page =>
              let p := writePage (deref p page) p in
              let p := upd page (SetDirty false) p in
              set_dirty (p_dirty p ∖ {[pageID]}) p
          | None => p
          end
        else p in
      let p := set_cache (delete pageID (p_cache p)) p in
      set_lru (list_Remove elem (p_lru p)) (delete pageID (p_lruMap p)) p
  end.

Definition addToCache (pageID : Z) (page : page_ptr) (p : Pager) : Pager :=
  let p := if p_cacheSize p <=? list_Len (p_lru p) then evictLRU p else p in
  let p := set_cache (<[pageID := page]> (p_cache p)) p in
  let '(elem, lru) := list_PushFront pageID (p_lru p) in
  set_lru lru (<[pageID := elem]> (p_lruMap p)) p.

Definition touch (pageID : Z) (p : Pager) : Pager :=
  match p_lruMap p !! pageID with
  | Some elem => set_lru (list_MoveToFront elem (p_lru p)) (p_lruMap p) p
  | None => p
  end.

Definition GetPage (pageID : Z) : M Pager page_ptr := λ p,
  if p_closed p then (p, Err ErrDatabaseClosed)
  else
    match p_cache p !! pageID with
    | Some page => (count_hit (touch pageID p), Ok page)
    | None =>
        match readPage pageID p with
        | (p, Ok pg) => let '(page, p) := alloc pg p in (addToCache pageID page p, Ok page)
        | (p, Err e) => (p, Err e)
        | (p, Panic) => (p, Panic)
        end
    end.

(** Both branches on the free list take the next number. *)
Definition Pager_NewPage (pageType : Z) : M Pager page_ptr := λ p,
  if p_closed p then (p, Err ErrDatabaseClosed)
  else
    let pageID := NumPages p in
    let m := p_metadata p in
    let p := set_metadata (MkMeta (md_Magic m) (md_RootPageID m) (u32 (md_NumPages m + 1)) (md_FreeListPtr m)) p in
    let '(page, p) := alloc (NewPage pageID pageType) p in
    let p := addToCache pageID page p in
    (set_dirty ({[pageID]} ∪ p_dirty p) p, Ok page).

(** The whole page is logged; the result of the log is ignored. *)
Definition log_image (pageID : Z) (data : bytes) (p : Pager) : Pager :=
  match p_wal p with
  | Some w => set_wal (Some (LogPageWrite w pageID 0 data)) p
  | None => p
  end.

Definition MarkDirty (pageID : Z) (p : Pager) : Pager :=
  match p_cache p !! pageID with
  | Some page =>
      let p := log_image pageID (pg_data (deref p page)) p in
      let p := upd page (SetDirty true) p in
      set_dirty ({[pageID]} ∪ p_dirty p) p
  | None => p
  end.

Definition SetWAL (w : option BWAL) (p : Pager) : Pager := set_wal w p.

Definition FreePage (pageID : Z) (p : Pager) : Pager :=
  let p :=
    match p_cache p !! pageID with
    | Some _ =>
        let p := set_cache (delete pageID (p_cache p)) p in
        match p_lruMap p !! pageID with
        | Some elem => set_lru (list_Remove elem (p_lru p)) (delete pageID (p_lruMap p)) p
        | None => p
        end
    | None => p
    end in
  set_dirty (p_dirty p ∖ {[pageID]}) p.

Definition SetRootPageID (pageID : Z) (p : Pager) : Pager :=
  let m := p_metadata p in
  writeMetadata (set_metadata (MkMeta (md_Magic m) pageID (md_NumPages m) (md_FreeListPtr m)) p).

(** ** Opening *)

Definition empty_pager (f : bytes) (cacheSize : Z) (m : Metadata) : Pager :=
  MkPager f [] ∅ list_New ∅ cacheSize ∅ m false None (MkPStats 0 0 0 0).

Definition createPager (cacheSize : Z) : Pager :=
  let p := empty_pager [] cacheSize (MkMeta MetadataMagic 1 2 0) in
  let p := writeMetadata p in
  writePage (NewPage 1 PageTypeLeaf) p.

Definition loadPager (f : bytes) (cacheSize : Z) : res Pager :=
  metadata ← readMetadata f; Ok (empty_pager f cacheSize metadata).

(** [NewPager] on the content of the file, [None] when it does not exist. *)
Definition NewPager (f : option bytes) (cacheSize : Z) : res Pager :=
  match f with
  | None => Ok (createPager cacheSize)
  | Some f => loadPager f cacheSize
  end.

(** ** Flushing *)

(** The order in which [range] visits the set of dirty pages. *)
Class RangeOrder := {
  range_keys : gset Z → list Z;
  range_keys_perm X : range_keys X ≡ₚ elements X;
}.

#[global] Instance elements_order : RangeOrder :=
  {| range_keys := elements; range_keys_perm X := reflexivity (elements X) |}.

Section flush.
Context `{!RangeOrder}.

(** The body of the loop over the dirty pages; [Close] does not clear the flag. *)
Definition flush_page (clear : bool) (p : Pager) (pageID : Z) : Pager :=
  match p_cache p !! pageID with
  | Some page =>
      let p := writePage (deref p page) p in
      if clear then upd page (SetDirty false) p else p
  | None => p
  end.

Definition Flush (p : Pager) : Pager * res unit :=
  if p_closed p then (p, Err ErrDatabaseClosed)
  else
    let p := foldl (flush_page true) p (range_keys (p_dirty p)) in
    (set_dirty ∅ p, Ok tt).

Definition Pager_Sync (p : Pager) : Pager * res unit :=
  match Flush p with
  | (p, Ok _) => if p_closed p then (p, Err ErrDatabaseClosed) else (writeMetadata p, Ok tt)
  | (p, r) => (p, r)
  end.

Definition Pager_Close (p : Pager) : Pager * res unit :=
  if p_closed p then (p, Ok tt)
  else
    let p := foldl (flush_page false) p (range_keys (p_dirty p)) in
    let p := writeMetadata p in
    (set_closed true p, Ok tt).
End flush.

(** ** Pages of a file *)

Lemma len_WriteAt f b off : 0 ≤ off → len (WriteAt f b off) = Z.max (len f) (off + len b).
Proof.
  intros H0. unfold WriteAt. rewrite !len_app, len_make_bytes. unfold len in *.
  rewrite length_take, length_drop. lia.
Qed.

Lemma WriteAt_lookup f b off (i : nat) :
  0 ≤ off →
  WriteAt f b off !! i =
    if decide (Z.of_nat i < off) then (if decide (Z.of_nat i < len f) then f !! i else Some 0)
    else if decide (Z.of_nat i < off + len b) then b !! (i - Z.to_nat off)%nat else f !! i.
Proof.
  intros H0. unfold WriteAt, len in *. case_decide as H1.
  - case_decide as H2.
    + rewrite lookup_app_l by (rewrite length_take; lia). apply lookup_take_lt. lia.
    + rewrite lookup_app_r by (rewrite length_take; lia). rewrite length_take.
      rewrite lookup_app_l by (rewrite length_make_bytes; unfold len; lia).
      unfold make_bytes, len. apply lookup_replicate_2. lia.
  - rewrite lookup_app_r by (rewrite length_take; lia). rewrite length_take.
    rewrite lookup_app_r by (rewrite length_make_bytes; unfold len; lia). rewrite length_make_bytes. unfold len.
    case_decide as H2.
    + rewrite lookup_app_l by lia. f_equal. lia.
    + rewrite lookup_app_r by lia. rewrite lookup_drop. f_equal. lia.
Qed.

Lemma ReadAt_lookup f n off :
  0 ≤ off → 0 ≤ n → off + n ≤ len f →
  (ReadAt f n off).2 = None ∧ length (ReadAt f n off).1 = Z.to_nat n ∧
  ∀ i : nat, Z.of_nat i < n → (ReadAt f n off).1 !! i = f !! (Z.to_nat off + i)%nat.
Proof.
  intros H0 Hn Hf. unfold ReadAt. cbn [fst snd].
  assert (Hl : length (take (Z.to_nat n) (drop (Z.to_nat off) f)) = Z.to_nat n).
  { rewrite length_take, length_drop. unfold len in *. lia. }
  split_and!; [|done|].
  - destruct (Z.ltb_spec (len (take (Z.to_nat n) (drop (Z.to_nat off) f))) n); [unfold len in *; lia|done].
  - intros i Hi. rewrite lookup_take_lt by lia. by rewrite lookup_drop.
Qed.

Lemma ReadAt_ext f f' n off :
  0 ≤ off → 0 ≤ n → off + n ≤ len f → off + n ≤ len f' →
  (∀ i : nat, Z.of_nat i < n → f' !! (Z.to_nat off + i)%nat = f !! (Z.to_nat off + i)%nat) →
  ReadAt f' n off = ReadAt f n off.
Proof.
  intros H0 Hn Hf Hf' H.
  destruct (ReadAt_lookup f n off H0 Hn Hf) as (E & L & X). destruct (ReadAt_lookup f' n off H0 Hn Hf') as (E' & L' & X').
  destruct (ReadAt f n off) as [d e], (ReadAt f' n off) as [d' e']. simpl in *. subst. f_equal.
  apply list_eq_same_length with (Z.to_nat n); [done|done|]. intros i x y Hi Hx Hy.
  rewrite X' in Hx by lia. rewrite X in Hy by lia. rewrite H in Hx by lia. congruence.
Qed.

Lemma WriteAt_read_same f b off : 0 ≤ off → ReadAt (WriteAt f b off) (len b) off = (b, None).
Proof.
  intros H0. pose proof (len_nonneg b) as Hb.
  destruct (ReadAt_lookup (WriteAt f b off) (len b) off H0 Hb) as (E & L & X); [rewrite len_WriteAt by done; lia|].
  destruct (ReadAt _ (len b) off) as [d e]. simpl in *. subst. f_equal.
  apply list_eq_same_length with (length b); [done|rewrite L; unfold len; lia|]. intros i x y Hi Hx Hy.
  rewrite X in Hx by (unfold len; lia). rewrite WriteAt_lookup in Hx by done.
  destruct (decide _) in Hx; [lia|]. destruct (decide _) in Hx; [|unfold len in *; lia].
  replace (Z.to_nat off + i - Z.to_nat off)%nat with i in Hx by lia. congruence.
Qed.

Lemma WriteAt_read_other f b off n o :
  0 ≤ off → 0 ≤ o → 0 ≤ n → o + n ≤ len f → o + n ≤ off ∨ off + len b ≤ o →
  ReadAt (WriteAt f b off) n o = ReadAt f n o.
Proof.
  intros H0 Ho Hn Hf Hd. apply ReadAt_ext; [done|done|done|rewrite len_WriteAt by done; lia|].
  intros i Hi. rewrite WriteAt_lookup by done. pose proof (len_nonneg b).
  destruct (decide _); [destruct (decide _); [done|lia]|]. destruct (decide _); [lia|done].
Qed.

(** The page [id] of the file, when the file reaches that far. *)
Definition disk_page (f : bytes) (id : Z) : option bytes :=
  match ReadAt f PageSize (id * PageSize) with
  | (data, None) => Some data
  | _ => None
  end.

Lemma disk_page_len f id d : disk_page f id = Some d → len d = PageSize.
Proof.
  unfold disk_page, ReadAt. destruct (Z.ltb_spec (len (take (Z.to_nat PageSize) (drop (Z.to_nat (id * PageSize)) f))) PageSize) as [|H]; [done|].
  intros [= <-]. unfold len in *. rewrite length_take in *. unfold PageSize in *. lia.
Qed.

Lemma disk_page_reach f id : 0 ≤ id → is_Some (disk_page f id) ↔ (id + 1) * PageSize ≤ len f.
Proof.
  intros H0. unfold disk_page, ReadAt.
  destruct (Z.ltb_spec (len (take (Z.to_nat PageSize) (drop (Z.to_nat (id * PageSize)) f))) PageSize) as [H|H];
    unfold len in *; rewrite length_take, length_drop in H; unfold PageSize in *.
  - split; [by intros []|lia].
  - split; [lia|by eexists].
Qed.

Lemma disk_write_same f d id : 0 ≤ id → len d = PageSize → disk_page (WriteAt f d (id * PageSize)) id = Some d.
Proof.
  intros H0 Hd. unfold disk_page. rewrite <-Hd at 2. rewrite WriteAt_read_same; [done|unfold PageSize; lia].
Qed.

Lemma disk_write_other f d id id' x :
  0 ≤ id → 0 ≤ id' → id ≠ id' → len d = PageSize → disk_page f id' = Some x →
  disk_page (WriteAt f d (id * PageSize)) id' = Some x.
Proof.
  intros H0 H1 Hne Hd Hx. pose proof (proj1 (disk_page_reach f id' H1)) as Hr. specialize (Hr ltac:(by eexists)).
  rewrite <-Hx. unfold disk_page. rewrite WriteAt_read_other; [done|unfold PageSize in *; lia..].
Qed.

(** ** The metadata page *)

Lemma length_meta_bytes m : len (meta_bytes m) = PageSize.
Proof. unfold meta_bytes. rewrite !len_copy_at. done. Qed.

(** Numbers of 32 bits. *)
Record meta_ok (m : Metadata) : Prop := {
  mo_magic : md_Magic m = MetadataMagic;
  mo_root : 0 ≤ md_RootPageID m < 2 ^ 32;
  mo_pages : 0 ≤ md_NumPages m < 2 ^ 32;
  mo_free : 0 ≤ md_FreeListPtr m < 2 ^ 32;
}.

Lemma meta_layout (a b c d : bytes) :
  length a = 4%nat → length b = 4%nat → length c = 4%nat → length d = 4%nat →
  copy_at 12 d (copy_at 8 c (copy_at 4 b (copy_at 0 a (make_bytes PageSize)))) = a ++ b ++ c ++ d ++ make_bytes 4080.
Proof.
  intros Ha Hb Hc Hd.
  do 5 (destruct a as [|? a]; simplify_eq/=). do 5 (destruct b as [|? b]; simplify_eq/=).
  do 5 (destruct c as [|? c]; simplify_eq/=). do 5 (destruct d as [|? d]; simplify_eq/=).
  vm_compute. reflexivity.
Qed.

Lemma meta_roundtrip f m : meta_ok m → readMetadata (WriteAt f (meta_bytes m) 0) = Ok m.
Proof.
  intros [Hm Hr Hn Hf]. unfold readMetadata. rewrite <-(length_meta_bytes m), WriteAt_read_same by done.
  assert (H0 : 0 ≤ md_Magic m < 2 ^ 32) by by rewrite Hm.
  unfold meta_bytes, MetadataOffsetFreeList, MetadataOffsetNumPage, MetadataOffsetRoot, MetadataOffsetMagic.
  rewrite meta_layout by apply length_be_put.
  set (a := be_put 4 (md_Magic m)). set (b := be_put 4 (md_RootPageID m)). set (c := be_put 4 (md_NumPages m)).
  set (d := be_put 4 (md_FreeListPtr m)). set (z := make_bytes 4080).
  assert (E4 : slice_from 4 (a ++ b ++ c ++ d ++ z) = b ++ c ++ d ++ z) by (by apply slice_from_app).
  assert (E8 : slice_from 8 (a ++ b ++ c ++ d ++ z) = c ++ d ++ z).
  { rewrite (app_assoc a). by apply slice_from_app. }
  assert (E12 : slice_from 12 (a ++ b ++ c ++ d ++ z) = d ++ z).
  { rewrite (app_assoc a), (app_assoc (a ++ b)). by apply slice_from_app. }
  rewrite E4, E8, E12. change (slice_from 0 ?x) with x. subst a b c d.
  rewrite !be_u32_put by done. cbn [md_Magic]. rewrite <-Hm, Z.eqb_refl. by destruct m.
Qed.

Lemma readMetadata_ext f f' : ReadAt f PageSize 0 = ReadAt f' PageSize 0 → readMetadata f = readMetadata f'.
Proof. unfold readMetadata. by intros ->. Qed.

Lemma readMetadata_len f m : readMetadata f = Ok m → PageSize ≤ len f.
Proof.
  intros Hm. destruct (Z.leb_spec PageSize (len f)) as [|Hs]; [done|]. exfalso. revert Hm. unfold readMetadata.
  pose proof (ReadAt_short f PageSize 0 Hs) as E. destruct (ReadAt f PageSize 0) as [data e]. cbn [snd] in E.
  by rewrite E.
Qed.

(** A page written behind the metadata page leaves the metadata as they are. *)
Lemma meta_page_write f d id m :
  1 ≤ id → readMetadata f = Ok m → readMetadata (WriteAt f d (id * PageSize)) = Ok m.
Proof.
  intros Hid Hm. pose proof (readMetadata_len f m Hm) as Hl. rewrite <-Hm. apply readMetadata_ext, WriteAt_read_other.
  all: unfold PageSize in *; lia.
Qed.
