(* ===== verification/BtRecency.v ===== *)
(** The recency list of the page cache ([container/list] and the map of its elements in
    [src/btree/pager.go]): the identifiers it holds, most recent first. *)
From stdpp Require Import base gmap list strings numbers sorting.
From S2P Require Import Prelude GoLib GoState.

Open Scope Z_scope.

(** ** The recency list *)

(** The list holds the identifiers [ids], most recent first, and the map points into it. *)
Record lru_ok (l : golist Z) (m : gmap Z nat) (ids : list Z) : Prop := {
  lo_ids : (gl_elems l).*2 = ids;
  lo_elems : NoDup (gl_elems l).*1;
  lo_nodup : NoDup ids;
  lo_fresh : ∀ x, x ∈ gl_elems l → (x.1 < gl_next l)%nat;
  lo_map : ∀ id e, m !! id = Some e ↔ (e, id) ∈ gl_elems l;
}.

Lemma fst_inj {A B} (l : list (A * B)) x y : NoDup l.*1 → x ∈ l → y ∈ l → x.1 = y.1 → x = y.
Proof.
  induction l as [|z l IH]; simpl; [by rewrite elem_of_nil|]. intros [Hz Hl]%NoDup_cons Hx Hy E.
  apply elem_of_cons in Hx as [->|Hx], Hy as [->|Hy]; [done| | |by apply IH].
  - destruct Hz. rewrite E. by apply list_elem_of_fmap_2.
  - destruct Hz. rewrite <-E. by apply list_elem_of_fmap_2.
Qed.

Lemma snd_inj {A B} (l : list (A * B)) x y : NoDup l.*2 → x ∈ l → y ∈ l → x.2 = y.2 → x = y.
Proof.
  induction l as [|z l IH]; simpl; [by rewrite elem_of_nil|]. intros [Hz Hl]%NoDup_cons Hx Hy E.
  apply elem_of_cons in Hx as [->|Hx], Hy as [->|Hy]; [done| | |by apply IH].
  - destruct Hz. rewrite E. by apply list_elem_of_fmap_2.
  - destruct Hz. rewrite <-E. by apply list_elem_of_fmap_2.
Qed.

Lemma lru_new : lru_ok list_New ∅ [].
Proof. split; [done|constructor|constructor|by intros ? ?%elem_of_nil|]. intros id e. by rewrite lookup_empty, elem_of_nil. Qed.

Lemma lru_push id l m ids :
  lru_ok l m ids → id ∉ ids →
  lru_ok (list_PushFront id l).2 (<[id := (list_PushFront id l).1]> m) (id :: ids).
Proof.
  intros [Hi He Hn Hf Hm] Hid. unfold list_PushFront. cbn [fst snd gl_elems gl_next]. split; cbn [gl_elems gl_next].
  - by rewrite fmap_cons, Hi.
  - rewrite fmap_cons. constructor; [|done]. intros (x & Ex & Hx)%list_elem_of_fmap. specialize (Hf x Hx). simpl in Ex. lia.
  - by constructor.
  - intros x [->|Hx]%elem_of_cons; [simpl; lia|]. specialize (Hf x Hx). lia.
  - intros id' e. rewrite elem_of_cons. destruct (decide (id' = id)) as [->|Hne].
    + rewrite lookup_insert_eq. split; [intros [= <-]; by left|]. intros [[= ->]|Hx]; [done|].
      destruct Hid. rewrite <-Hi. by apply (list_elem_of_fmap_2 snd _ _ Hx).
    + rewrite lookup_insert_ne by done. rewrite Hm. split; [by right|]. intros [[= -> ->]|Hx]; done.
Qed.

Lemma remove_ids e id l m ids :
  lru_ok l m ids → (e, id) ∈ gl_elems l → gl_elems (list_Remove e l) = filter (λ x, x.2 ≠ id) (gl_elems l).
Proof.
  intros [Hi He Hn Hf Hm] Hin. rewrite <-Hi in Hn. apply filter_ext.
  intros x Hx. split; intros Hne Heq; apply Hne.
  - by rewrite (snd_inj _ x (e, id) Hn Hx Hin Heq).
  - by rewrite (fst_inj _ x (e, id) He Hx Hin Heq).
Qed.

Lemma fmap_filter_snd (l : list (nat * Z)) id :
  (filter (λ x, x.2 ≠ id) l).*2 = filter (λ i, i ≠ id) l.*2.
Proof.
  induction l as [|x l IH]; [done|]. rewrite fmap_cons.
  destruct (decide (x.2 = id)) as [E|E].
  - rewrite !filter_cons_False by naive_solver. done.
  - rewrite !filter_cons_True by done. by rewrite fmap_cons, IH.
Qed.

Lemma fmap_filter_sub {B} (g : nat * Z → B) (P : nat * Z → Prop) `{!∀ x, Decision (P x)} l :
  NoDup (g <$> l) → NoDup (g <$> filter P l).
Proof.
  induction l as [|x l IH]; intros Hn; [done|]. rewrite fmap_cons in Hn. apply NoDup_cons in Hn as [Hx Hn].
  rewrite filter_cons. case_decide; [|by apply IH]. rewrite fmap_cons. constructor; [|by apply IH].
  intros (y & Ey & Hy)%list_elem_of_fmap. apply Hx. rewrite Ey. apply list_elem_of_fmap_2.
  by apply list_elem_of_filter in Hy as [_ ?].
Qed.

Lemma lru_remove e id l m ids :
  lru_ok l m ids → (e, id) ∈ gl_elems l →
  lru_ok (list_Remove e l) (delete id m) (filter (λ i, i ≠ id) ids).
Proof.
  intros Hl Hin. pose proof (remove_ids e id l m ids Hl Hin) as E. destruct Hl as [Hi He Hn Hf Hm].
  split; rewrite ?E.
  - by rewrite fmap_filter_snd, Hi.
  - by apply fmap_filter_sub.
  - apply NoDup_filter. done.
  - intros x Hx. apply list_elem_of_filter in Hx as [_ Hx]. by apply Hf.
  - intros id' e'. rewrite list_elem_of_filter. simpl. destruct (decide (id' = id)) as [->|Hne].
    + rewrite lookup_delete_eq. naive_solver.
    + rewrite lookup_delete_ne by done. rewrite Hm. naive_solver.
Qed.

Lemma lru_back l m ids e id :
  lru_ok l m ids → list_Back l = Some (e, id) →
  ∃ ids', ids = ids' ++ [id] ∧ (e, id) ∈ gl_elems l ∧ filter (λ i, i ≠ id) ids = ids'.
Proof.
  intros [Hi He Hn Hf Hm] Hb. apply last_Some in Hb as [k Hk]. rewrite Hk in *. rewrite fmap_app in Hi. simpl in Hi.
  exists k.*2. split; [done|]. split; [set_solver|]. subst ids. apply NoDup_app in Hn as (_ & Hd & _).
  rewrite filter_app, filter_cons_False, filter_nil, app_nil_r by naive_solver.
  apply filter_all. apply Forall_forall. intros x Hx ->. apply (Hd id Hx). set_solver.
Qed.

Lemma lru_touch e id l m ids :
  lru_ok l m ids → m !! id = Some e → lru_ok (list_MoveToFront e l) m (id :: filter (λ i, i ≠ id) ids).
Proof.
  intros Hl Hme. pose proof Hl as [Hi He Hn Hf Hm]. apply Hm in Hme as Hin.
  pose proof (remove_ids e id l m ids Hl Hin) as E. unfold list_MoveToFront.
  destruct (list_find _ (gl_elems l)) as [[i x]|] eqn:Hfind.
  2:{ apply list_find_None in Hfind. rewrite Forall_forall in Hfind. by destruct (Hfind _ Hin). }
  apply list_find_Some in Hfind as (Hx & Hex & _). apply list_elem_of_lookup_2 in Hx.
  assert (x = (e, id)) as -> by (by apply (fst_inj (gl_elems l))). clear Hex i.
  destruct (lru_remove e id l m ids Hl Hin) as [Hi' He' Hn' Hf' Hm']. split; cbn [gl_elems gl_next].
  - by rewrite fmap_cons, Hi'.
  - rewrite fmap_cons. constructor; [|done]. intros (y & Ey & Hy)%list_elem_of_fmap.
    simpl in Ey, Hy. apply list_elem_of_filter in Hy as [Hy _]. congruence.
  - constructor; [|done]. intros Hid%list_elem_of_filter. naive_solver.
  - intros y [->|Hy]%elem_of_cons; [by apply (Hf (e, id))|by apply Hf'].
  - intros id' e'. rewrite elem_of_cons, <-Hm'. destruct (decide (id' = id)) as [->|Hne].
    + rewrite lookup_delete_eq, Hme. naive_solver.
    + rewrite lookup_delete_ne by done. naive_solver.
Qed.
