(* ===== verification/BtCache.v ===== *)
(** The page cache is transparent: what the pager promises to the tree.  The image of a page
    is the object in the cache or else the bytes of the file; eviction, flushing and the
    recency list never change an image. *)
From stdpp Require Import base gmap list strings numbers sorting.
From S2P Require Import Prelude GoLib GoState BtVarint BtPage BtWal BtPager BtRecency.

Open Scope Z_scope.

(** ** What a recovery leaves behind *)

(** A recovery from the log may skip a page number, and puts pages in the cache that are not
    on the recency list, which no eviction finds. *)
Class Leftovers := MkLeft {
  gaps : gset Z;
  unlisted : gset Z;
}.

Section cache.
Context {lv : Leftovers}.

(** ** The images of the pages *)

Definition page_image (p : Pager) (id : Z) : option bytes :=
  match p_cache p !! id with
  | Some ptr => Some (pg_data (deref p ptr))
  | None => disk_page (p_file p) id
  end.

(** The page a reader of the tree sees. *)
Definition as_page (id : Z) (data : bytes) : Page := MkPage id data (default 0 (data !! 0%nat)) false.
Definition view (p : Pager) (id : Z) : option Page := as_page id <$> page_image p id.

(** An object that agrees with its bytes. *)
Definition fits_page (pg : Page) : Prop :=
  len (pg_data pg) = PageSize ∧ pg_data pg !! 0%nat = Some (pg_pageType pg).

Definition lru_ids (p : Pager) : list Z := (gl_elems (p_lru p)).*2.

Definition in_range (p : Pager) (id : Z) : Prop := 1 ≤ id < NumPages p ∧ id ∉ gaps.

(** The cached object of a page, in step with the file unless it is marked dirty or in the
    set [X] of pages that were changed and not marked yet. *)
Definition cached_ok (X : gset Z) (p : Pager) (id : Z) (ptr : page_ptr) : Prop :=
  ∃ pg, p_store p !! ptr = Some pg ∧ pg_id pg = id ∧ fits_page pg ∧ in_range p id ∧
    (id ∉ p_dirty p → id ∉ X → disk_page (p_file p) id = Some (pg_data pg)).

(** ** The log *)

(** The image a list of records ends with, for a page. *)
Fixpoint last_image (rs : list WALRecord) (id : Z) : option bytes :=
  match rs with
  | [] => None
  | r :: rs => match last_image rs id with
               | Some d => Some d
               | None => if r_PageID r =? id then Some (r_Data r) else None
               end
  end.

(** A record of the whole page. *)
Definition image_record (id : Z) (data : bytes) : WALRecord := logged_record (OWrite id 0 data).

(** The log covers the pages outside of [X]: the image of a page is the last one in the log,
    and without one it is on the disk, in a file whose metadata know it. *)
Definition covered (p : Pager) (rs : list WALRecord) (known : Z) (id : Z) : Prop :=
  match last_image rs id with
  | Some d => page_image p id = Some d
  | None => disk_page (p_file p) id = page_image p id ∧ id < known
  end.

Record log_inv (X : gset Z) (p : Pager) (w : BWAL) (rs : list WALRecord) (m : Metadata) : Prop := {
  lg_file : bw_file w = log_file rs;
  lg_offset : bw_offset w = len (log_file rs);
  lg_records : Forall (λ r, ∃ id data, r = image_record id data ∧ in_range p id ∧ len data = PageSize) rs;
  lg_covered : ∀ id, in_range p id → id ∉ X → covered p rs (md_NumPages m) id;
  lg_meta : readMetadata (p_file p) = Ok m;
  lg_good : meta_ok m;
  lg_root : md_RootPageID m = RootPageID p;
  lg_pages : md_NumPages m ≤ NumPages p;
  lg_gaps : ∀ id, id ∈ gaps → id < md_NumPages m;
}.

Definition logged (X : gset Z) (p : Pager) : Prop :=
  match p_wal p with
  | Some w => ∃ rs m, log_inv X p w rs m
  | None => True
  end.

Record pager_ok (X : gset Z) (p : Pager) : Prop := {
  ok_open : p_closed p = false;
  ok_lru : lru_ok (p_lru p) (p_lruMap p) (lru_ids p);
  ok_keys : ∀ id, is_Some (p_cache p !! id) ↔ id ∈ lru_ids p ∨ id ∈ unlisted;
  ok_cached : ∀ id ptr, p_cache p !! id = Some ptr → cached_ok X p id ptr;
  ok_dirty : ∀ id, id ∈ p_dirty p ∪ X → is_Some (p_cache p !! id);
  ok_images : ∀ id, in_range p id → is_Some (page_image p id);
  ok_bound : len (lru_ids p) ≤ Z.max 1 (p_cacheSize p);
  ok_meta : meta_ok (p_metadata p);
  ok_disk : PageSize ≤ len (p_file p);
  ok_apart : ∀ id, id ∈ unlisted → id ∉ lru_ids p;
  ok_gaps : ∀ id, id ∈ gaps → id < NumPages p;
  ok_logged : logged X p;
}.

(** What an operation on the pages leaves alone. *)
Record pager_frame (p p' : Pager) : Prop := {
  pf_metadata : p_metadata p' = p_metadata p;
  pf_size : p_cacheSize p' = p_cacheSize p;
  pf_wal : p_wal p' = p_wal p;
}.

#[global] Instance pager_frame_pre : PreOrder pager_frame.
Proof. split; [done|]. intros p q r [? ? ?] [? ? ?]. split; congruence. Qed.

Definition same_images (p p' : Pager) : Prop := ∀ id, in_range p id → page_image p' id = page_image p id.

Lemma cached_fits X p id ptr :
  pager_ok X p → p_cache p !! id = Some ptr →
  p_store p !! ptr = Some (deref p ptr) ∧ pg_id (deref p ptr) = id ∧ fits_page (deref p ptr) ∧ in_range p id.
Proof.
  intros Hok Hc. destruct (ok_cached _ _ Hok id ptr Hc) as (pg & Hs & ? & ? & ? & _).
  unfold deref. rewrite Hs. done.
Qed.

(** What keeps the log: the image of no covered page changes, and what is on the disk stays. *)
Lemma logged_ext X X' p p' :
  logged X p → p_wal p' = p_wal p → RootPageID p' = RootPageID p → NumPages p ≤ NumPages p' →
  (∀ m, readMetadata (p_file p) = Ok m → readMetadata (p_file p') = Ok m) →
  (∀ id, in_range p' id → id ∉ X' → in_range p id ∧ (id ∉ X) ∧ page_image p' id = page_image p id ∧
     (disk_page (p_file p) id = page_image p id → disk_page (p_file p') id = page_image p' id)) →
  logged X' p'.
Proof.
  unfold logged. intros Hl Hw Hr Hn Hm Hi. rewrite Hw. destruct (p_wal p) as [w|]; [|done].
  destruct Hl as (rs & m & [H1 H2 H3 H4 H5 H9 H6 H7 H8]). exists rs, m. split; try done.
  - eapply Forall_impl; [exact H3|]. intros r (id & data & -> & [? ?] & ?). exists id, data. split; [done|]. split; [|done].
    split; [lia|done].
  - intros id Hid HX. destruct (Hi id Hid HX) as (A1 & A2 & A3 & A4). specialize (H4 id A1 A2). unfold covered in *.
    destruct (last_image rs id); [by rewrite A3|]. destruct H4 as [E ?]. split; [by apply A4|done].
  - by apply Hm.
  - by rewrite Hr.
  - lia.
Qed.

(** A change of the objects, the cache and the counters only. *)
Lemma logged_same X p p' :
  logged X p → p_wal p' = p_wal p → p_metadata p' = p_metadata p → p_file p' = p_file p →
  (∀ id, in_range p id → page_image p' id = page_image p id) → logged X p'.
Proof.
  intros Hl Hw Hm Hf Hi. assert (Hr : ∀ id, in_range p' id → in_range p id) by (intros id; unfold in_range, NumPages; by rewrite Hm).
  apply (logged_ext X X p p'); [done|done|unfold RootPageID; by rewrite Hm|unfold NumPages; by rewrite Hm|by rewrite Hf|].
  intros id Hid HX. rewrite Hf, (Hi id) by auto. auto.
Qed.

(** Two pages never share an object. *)
Lemma cached_inj X p id id' ptr :
  pager_ok X p → p_cache p !! id = Some ptr → p_cache p !! id' = Some ptr → id = id'.
Proof.
  intros Hok H1 H2. destruct (cached_fits X p id ptr Hok H1) as (_ & <- & _).
  by destruct (cached_fits X p id' ptr Hok H2) as (_ & <- & _).
Qed.

Lemma as_page_fits pg : fits_page pg → as_page (pg_id pg) (pg_data pg) = SetDirty false pg.
Proof. intros [_ H]. unfold as_page. by rewrite H. Qed.

Lemma deref_upd p ptr f pg : p_store p !! ptr = Some pg → deref (upd ptr f p) ptr = f pg.
Proof. intros H. unfold deref, upd. cbn [set_store p_store]. by rewrite list_lookup_alter_eq, H. Qed.

Lemma deref_upd_ne p ptr ptr' f : ptr ≠ ptr' → deref (upd ptr f p) ptr' = deref p ptr'.
Proof. intros H. unfold deref, upd. cbn [set_store p_store]. by rewrite list_lookup_alter_ne. Qed.

(** The dirty flag is all that [SetDirty] changes. *)
Lemma upd_flag x b p y :
  pg_data (deref (upd x (SetDirty b) p) y) = pg_data (deref p y) ∧ pg_id (deref (upd x (SetDirty b) p) y) = pg_id (deref p y).
Proof.
  unfold deref, upd. cbn [set_store p_store]. destruct (decide (x = y)) as [<-|Hne]; [|by rewrite list_lookup_alter_ne].
  rewrite list_lookup_alter_eq. by destruct (p_store p !! x).
Qed.

(** ** Eviction *)

Definition write_back (p : Pager) (pageID : Z) : Pager :=
  match p_cache p !! pageID with
  | Some page => set_dirty (p_dirty p ∖ {[pageID]}) (upd page (SetDirty false) (writePage (deref p page) p))
  | None => p
  end.

Definition drop_page (elem : nat) (pageID : Z) (p : Pager) : Pager :=
  set_lru (list_Remove elem (p_lru p)) (delete pageID (p_lruMap p)) (set_cache (delete pageID (p_cache p)) p).

Lemma evictLRU_eq p :
  evictLRU p =
    match list_Back (p_lru p) with
    | None => p
    | Some (elem, pageID) =>
        drop_page elem pageID (if decide (pageID ∈ p_dirty p) then write_back p pageID else p)
    end.
Proof.
  unfold evictLRU, drop_page, write_back. destruct (list_Back _) as [[elem pageID]|]; [|done].
  destruct (decide _); [|done]. by destruct (p_cache p !! pageID).
Qed.

(** Writing a cached page: the file has its bytes, the other pages of the file stay. *)
Lemma writePage_disk X p id ptr :
  pager_ok X p → p_cache p !! id = Some ptr →
  let f := p_file (writePage (deref p ptr) p) in
  disk_page f id = Some (pg_data (deref p ptr)) ∧
  (∀ id' x, 0 ≤ id' → id' ≠ id → disk_page (p_file p) id' = Some x → disk_page f id' = Some x) ∧
  PageSize ≤ len f ∧ ∀ m, readMetadata (p_file p) = Ok m → readMetadata f = Ok m.
Proof.
  intros Hok Hc. destruct (cached_fits X p id ptr Hok Hc) as (_ & Hid & [Hl _] & [Hr _]).
  cbn [writePage count_write set_stats set_file p_file]. rewrite Hid. pose proof (ok_disk _ _ Hok). split_and!.
  - apply disk_write_same; [lia|done].
  - intros id' x H0 Hne Hx. apply disk_write_other; [lia|done|done|done|done].
  - rewrite len_WriteAt by (unfold PageSize; lia). lia.
  - intros m. apply meta_page_write. lia.
Qed.

(** The image of the other objects survives a change of one. *)
Lemma lookup_upd p ptr f ptr' pg :
  p_store p !! ptr' = Some pg →
  p_store (upd ptr f p) !! ptr' = Some (if decide (ptr = ptr') then f pg else pg).
Proof.
  intros H. unfold upd. simpl. case_decide as E.
  - subst. by rewrite list_lookup_alter_eq, H.
  - by rewrite list_lookup_alter_ne.
Qed.

Lemma write_back_ok X p id ptr :
  pager_ok X p → p_cache p !! id = Some ptr →
  let p' := write_back p id in
  pager_ok X p' ∧ (∀ i, in_range p i → page_image p' i = page_image p i) ∧ pager_frame p p' ∧
  p_cache p' = p_cache p ∧ lru_ids p' = lru_ids p ∧ disk_page (p_file p') id = page_image p id ∧
  (∀ q, pg_data (deref p' q) = pg_data (deref p q)) ∧ p_dirty p' = p_dirty p ∖ {[id]} ∧
  (p_lru p' = p_lru p ∧ p_lruMap p' = p_lruMap p).
Proof.
  intros Hok Hc. destruct (writePage_disk X p id ptr Hok Hc) as (Hd & Ho & Hlen & Hmeta).
  destruct (cached_fits X p id ptr Hok Hc) as (Hs & Hid & Hfit & Hr).
  assert (Hdata : ∀ q, pg_data (deref (write_back p id) q) = pg_data (deref p q)).
  { intros q. unfold write_back. rewrite Hc. unfold deref at 1. cbn [set_dirty p_store].
    unfold upd. cbn [set_store p_store]. destruct (decide (ptr = q)) as [<-|Hne].
    - rewrite list_lookup_alter_eq. cbn [writePage count_write set_stats set_file p_store]. by rewrite Hs.
    - rewrite list_lookup_alter_ne by done. done. }
  assert (Himg : ∀ i, in_range p i → page_image (write_back p id) i = page_image p i).
  { intros i Hi. pose proof (ok_images _ _ Hok i Hi) as [x Hx]. unfold page_image in *.
    assert (Ec : p_cache (write_back p id) = p_cache p) by (unfold write_back; by rewrite Hc). rewrite Ec.
    destruct (p_cache p !! i) as [q|] eqn:Hq; [by rewrite Hdata|]. rewrite Hx.
    replace (p_file (write_back p id)) with (p_file (writePage (deref p ptr) p)) by (unfold write_back; by rewrite Hc).
    apply Ho; [destruct Hi; lia|congruence|done]. }
  split; [|split; [done|]].
  2:{ unfold page_image. unfold write_back in *. rewrite Hc in *. split_and!; try done. }
  destruct Hok as [H1 H2 H3 H4 H5 H6 H7 H8 H9 H10 H11 H12].
  assert (Ew : write_back p id = set_dirty (p_dirty p ∖ {[id]}) (upd ptr (SetDirty false) (writePage (deref p ptr) p)))
    by (unfold write_back; by rewrite Hc).
  split; try by (rewrite Ew).
  - intros i q Hq. rewrite Ew in Hq |- *. cbn in Hq. destruct (H4 i q Hq) as (pg & Hst & Hi & Hf & Hri & Hdk).
    exists (if decide (ptr = q) then SetDirty false pg else pg). split_and!.
    + by apply lookup_upd.
    + by case_decide.
    + by case_decide.
    + done.
    + intros Hnd HX. cbn [set_dirty p_dirty] in Hnd.
      assert (E : pg_data (if decide (ptr = q) then SetDirty false pg else pg) = pg_data pg) by (by case_decide). rewrite E.
      change (p_file _) with (p_file (writePage (deref p ptr) p)).
      destruct (decide (i = id)) as [->|Hne].
      * rewrite Hc in Hq. injection Hq as <-. rewrite Hd. unfold deref. by rewrite Hst.
      * apply Ho; [destruct Hri; lia|done|]. apply Hdk; [set_solver|done].
  - intros i Hi. rewrite Ew in Hi |- *. cbn in Hi |- *. apply H5. set_solver.
  - intros i Hi. assert (Hi' : in_range p i) by (by rewrite Ew in Hi). rewrite Himg by done. by apply H6.
  - apply (logged_ext X X p); [done|by rewrite Ew|by rewrite Ew|by rewrite Ew|intros m Hm; rewrite Ew; by apply Hmeta|].
    intros i Hi HX. assert (Hi' : in_range p i) by (by rewrite Ew in Hi). do 2 (split; [done|]). split; [by apply Himg|].
    intros E. rewrite Himg by done. rewrite Ew. change (p_file _) with (p_file (writePage (deref p ptr) p)).
    destruct (decide (i = id)) as [->|Hne]; [unfold page_image; by rewrite Hc, Hd|].
    destruct (H6 i Hi') as [x Hx]. rewrite Hx in E |- *. apply Ho; [destruct Hi'; lia|done|done].
Qed.

Lemma drop_page_ok X p e id :
  pager_ok X p → (e, id) ∈ gl_elems (p_lru p) → disk_page (p_file p) id = page_image p id → id ∉ p_dirty p → id ∉ X →
  let p' := drop_page e id p in
  pager_ok X p' ∧ same_images p p' ∧ pager_frame p p' ∧ lru_ids p' = filter (λ i, i ≠ id) (lru_ids p) ∧
  p_cache p' = delete id (p_cache p) ∧ p_store p' = p_store p.
Proof.
  intros [H1 H2 H3 H4 H5 H6 H7 H8 H9 H10 H11 H12] Hin Hd Hnd HX. pose proof (lru_remove e id _ _ _ H2 Hin) as Hl.
  assert (El : lru_ids (drop_page e id p) = filter (λ i, i ≠ id) (lru_ids p)) by exact (lo_ids _ _ _ Hl).
  assert (Himg : ∀ i, page_image (drop_page e id p) i = page_image p i).
  { intros i. destruct (decide (i = id)) as [->|Hne]; unfold page_image in *; cbn [drop_page set_lru set_cache p_cache p_file].
    - rewrite lookup_delete_eq. done.
    - by rewrite lookup_delete_ne. }
  split; [|split; [intros i _; apply Himg|done]].
  split; try done.
  - by rewrite El.
  - assert (Hid : id ∈ lru_ids p) by exact (list_elem_of_fmap_2 snd _ _ Hin).
    intros i. rewrite El, list_elem_of_filter. cbn. rewrite lookup_delete_is_Some, H3. pose proof (H10 i). naive_solver.
  - intros i q Hq. cbn in Hq. apply lookup_delete_Some in Hq as [Hne Hq].
    destruct (H4 i q Hq) as (pg & ? & ? & ? & ? & Hdk). by exists pg.
  - intros i Hi. cbn in Hi |- *. apply lookup_delete_is_Some. split; [|by apply H5]. set_solver.
  - intros i Hi. rewrite Himg. by apply H6.
  - rewrite El. pose proof (length_filter (λ i, i ≠ id) (lru_ids p)). unfold len in *. cbn. lia.
  - intros i Hi. rewrite El, list_elem_of_filter. intros [_ Hi']. by apply (H10 i).
  - apply (logged_same X p); [done|done|done|done|]. intros i _. apply Himg.
Qed.

Lemma evict_ok p :
  pager_ok ∅ p →
  let p' := evictLRU p in
  pager_ok ∅ p' ∧ same_images p p' ∧ pager_frame p p' ∧ lru_ids p' = removelast (lru_ids p) ∧
  (∀ i, is_Some (p_cache p' !! i) → p_cache p' !! i = p_cache p !! i) ∧
  (∀ q, pg_data (deref p' q) = pg_data (deref p q)) ∧ length (p_store p') = length (p_store p).
Proof.
  intros Hok. cbn zeta. rewrite evictLRU_eq. destruct (list_Back (p_lru p)) as [[e id]|] eqn:Hb.
  2:{ apply last_None in Hb. unfold lru_ids. rewrite Hb. done. }
  destruct (lru_back _ _ _ _ _ (ok_lru _ _ Hok) Hb) as (ids & Hids & Hin & Hfl).
  assert (Hc : is_Some (p_cache p !! id)) by (apply (ok_keys _ _ Hok); left; rewrite Hids; set_solver). destruct Hc as [ptr Hc].
  set (p1 := if decide (id ∈ p_dirty p) then write_back p id else p).
  assert (Hp1 : pager_ok ∅ p1 ∧ same_images p p1 ∧ pager_frame p p1 ∧ p_cache p1 = p_cache p ∧ lru_ids p1 = lru_ids p ∧
    disk_page (p_file p1) id = page_image p1 id ∧ (id ∉ p_dirty p1) ∧ p_lru p1 = p_lru p ∧
    (∀ q, pg_data (deref p1 q) = pg_data (deref p q)) ∧ length (p_store p1) = length (p_store p)).
  { subst p1. destruct (decide (id ∈ p_dirty p)) as [Hd|Hd].
    - destruct (write_back_ok ∅ p id ptr Hok Hc) as (A1 & A2 & A3 & A4 & A5 & A6 & A7 & A8 & A9 & _).
      assert (Hr : in_range p id) by (by destruct (cached_fits _ _ _ _ Hok Hc) as (_ & _ & _ & ?)).
      split_and!; try done.
      + rewrite A6. symmetry. by apply A2.
      + rewrite A8. set_solver.
      + unfold write_back. rewrite Hc. cbn [set_dirty upd set_store p_store]. by rewrite length_alter.
    - split_and!; try done. unfold page_image. rewrite Hc. destruct (ok_cached _ _ Hok id ptr Hc) as (pg & Hs & _ & _ & _ & E).
      rewrite E by set_solver. unfold deref. by rewrite Hs. }
  clearbody p1. destruct Hp1 as (B1 & B2 & B3 & B4 & B5 & B6 & B7 & B8 & B9 & B10).
  destruct (drop_page_ok ∅ p1 e id B1) as (C1 & C2 & C3 & C4 & C5 & C6); [by rewrite B8|done|done|set_solver|].
  split_and!; [done| |by etrans| | | |].
  - intros i Hi. assert (in_range p1 i) by (unfold in_range, NumPages in *; by rewrite (pf_metadata _ _ B3)).
    by rewrite C2, B2.
  - rewrite C4, B5, Hfl, Hids. symmetry. apply removelast_last.
  - intros i Hi. rewrite C5 in Hi |- *. apply lookup_delete_is_Some in Hi as [Hne _]. rewrite lookup_delete_ne by done. by rewrite B4.
  - intros q. rewrite <-B9. unfold deref. by rewrite C6.
  - by rewrite C6.
Qed.

(** ** Adding to the cache *)

Definition lru_add (cacheSize id : Z) (ids : list Z) : list Z :=
  id :: (if cacheSize <=? len ids then removelast ids else ids).

Definition push_page (id : Z) (ptr : page_ptr) (p : Pager) : Pager :=
  let lru := list_PushFront id (p_lru p) in
  set_lru lru.2 (<[id := lru.1]> (p_lruMap p)) (set_cache (<[id := ptr]> (p_cache p)) p).

Definition make_room (p : Pager) : Pager := if p_cacheSize p <=? list_Len (p_lru p) then evictLRU p else p.

Lemma addToCache_eq id ptr p : addToCache id ptr p = push_page id ptr (make_room p).
Proof. done. Qed.

(** The objects a caller holds keep their bytes. *)
Definition keeps_objects (p p' : Pager) : Prop :=
  (length (p_store p) ≤ length (p_store p'))%nat ∧
  ∀ q, (q < length (p_store p))%nat → pg_data (deref p' q) = pg_data (deref p q).

Lemma keeps_trans p q r : keeps_objects p q → keeps_objects q r → keeps_objects p r.
Proof. intros [H1 H2] [H3 H4]. split; [lia|]. intros x Hx. rewrite H4 by lia. by apply H2. Qed.

Lemma page_first (d : bytes) : len d = PageSize → is_Some (d !! 0%nat).
Proof. intros H. apply lookup_lt_is_Some_2. unfold len, PageSize in H. lia. Qed.

Lemma len_lru p : list_Len (p_lru p) = len (lru_ids p).
Proof. unfold list_Len, lru_ids, len. by rewrite length_fmap. Qed.

Lemma make_room_ok p :
  pager_ok ∅ p →
  let p' := make_room p in
  pager_ok ∅ p' ∧ same_images p p' ∧ pager_frame p p' ∧
  lru_ids p' = (if p_cacheSize p <=? len (lru_ids p) then removelast (lru_ids p) else lru_ids p) ∧
  (∀ i, is_Some (p_cache p' !! i) → p_cache p' !! i = p_cache p !! i) ∧ keeps_objects p p' ∧ length (p_store p') = length (p_store p).
Proof.
  intros Hok. unfold make_room. rewrite len_lru. destruct (p_cacheSize p <=? len (lru_ids p)).
  - destruct (evict_ok p Hok) as (A1 & A2 & A3 & A4 & A5 & A6 & A7). split_and!; try done. split; [lia|]. intros q _. apply A6.
  - split_and!; try done.
Qed.

Lemma push_ok X p id ptr pg m D :
  pager_ok ∅ p → p_cache p !! id = None → p_store p !! ptr = Some pg → pg_id pg = id → fits_page pg →
  meta_ok m → md_RootPageID m = RootPageID p → 1 ≤ id < md_NumPages m → id ∉ gaps →
  (∀ i, 1 ≤ i < md_NumPages m → 1 ≤ i < NumPages p ∨ i = id) → NumPages p ≤ md_NumPages m →
  (D = {[id]} ∪ p_dirty p ∧ NumPages p ≤ id ∧ X = {[id]} ∨
   D = p_dirty p ∧ disk_page (p_file p) id = Some (pg_data pg) ∧ in_range p id ∧ X = ∅) →
  len (id :: lru_ids p) ≤ Z.max 1 (p_cacheSize p) →
  let p' := set_dirty D (set_metadata m (push_page id ptr p)) in
  pager_ok X p' ∧ (∀ i, i ≠ id → page_image p' i = page_image p i) ∧ page_image p' id = Some (pg_data pg) ∧
  lru_ids p' = id :: lru_ids p ∧ p_cache p' = <[id := ptr]> (p_cache p).
Proof.
  intros [H1 H2 H3 H4 H5 H6 H7 H8 H9 H10 H11 H12] Hnone Hptr Hpid Hfit Hm Hroot Hr Hgap Hrange Hmono HD Hb p'.
  assert (Hid : id ∉ lru_ids p) by (intros Hid; assert (is_Some (p_cache p !! id)) as [? ?] by (apply H3; by left); congruence).
  assert (Hun : id ∉ unlisted) by (intros Hun; assert (is_Some (p_cache p !! id)) as [? ?] by (apply H3; by right); congruence).
  pose proof (lru_push id _ _ _ H2 Hid) as Hl. assert (El : lru_ids p' = id :: lru_ids p) by exact (lo_ids _ _ _ Hl).
  assert (Himg : ∀ i, i ≠ id → page_image p' i = page_image p i).
  { intros i Hne. unfold page_image, p', push_page. cbn [set_dirty set_metadata set_lru set_cache p_cache p_file].
    rewrite lookup_insert_ne by done. done. }
  assert (Hnew : page_image p' id = Some (pg_data pg)).
  { unfold page_image, p', push_page. cbn [set_dirty set_metadata set_lru set_cache p_cache p_file].
    rewrite lookup_insert_eq. unfold deref. cbn [set_dirty set_metadata set_lru set_cache p_store]. by rewrite Hptr. }
  assert (Hin : in_range p' id) by done.
  assert (Hold : ∀ i, in_range p' i → i ≠ id → in_range p i).
  { intros i [Hi Hg] Hne. split; [|done]. by destruct (Hrange i Hi). }
  split; [|done]. split; try done.
  - intros i. rewrite El.
    change (p_cache p') with (<[id := ptr]> (p_cache p)). rewrite lookup_insert_is_Some, elem_of_cons, H3.
    destruct (decide (i = id)); naive_solver.
  - intros i q Hq. change (p_cache p') with (<[id := ptr]> (p_cache p)) in Hq.
    apply lookup_insert_Some in Hq as [[<- <-]|[Hne Hq]].
    + exists pg. split_and!; try done. intros Hnd _. change (p_dirty p') with D in Hnd.
      destruct HD as [[-> _]|(-> & E & _)]; [set_solver|done].
    + destruct (H4 i q Hq) as (pg' & ? & ? & ? & [Hri Hgi] & Hdk). exists pg'. split_and!; try done.
      * unfold in_range, p', NumPages in *. cbn. split; [lia|done].
      * intros Hnd _. apply Hdk; [|done]. change (p_dirty p') with D in Hnd. destruct HD as [[-> _]|[-> _]]; set_solver.
  - intros i Hi. change (p_cache p') with (<[id := ptr]> (p_cache p)). change (p_dirty p') with D in Hi.
    apply lookup_insert_is_Some. destruct (decide (i = id)); [by left|right]. split; [done|].
    apply H5. destruct HD as [(-> & _ & ->)|(-> & _ & _ & ->)]; set_solver.
  - intros i Hi. destruct (decide (i = id)) as [->|Hne]; [rewrite Hnew; by eexists|]. rewrite Himg by done. by apply H6, Hold.
  - intros i Hi. rewrite El. intros [->|Hi']%elem_of_cons; [done|by apply (H10 i)].
  - intros i Hi. specialize (H11 i Hi). unfold NumPages, p'. cbn. lia.
  - apply (logged_ext ∅ X p p'); [done|done|exact Hroot|exact Hmono|done|]. intros i Hi HX.
    destruct (decide (i = id)) as [->|Hne]; [|rewrite Himg by done; split; [by apply Hold|done]].
    destruct HD as [(_ & _ & ->)|(_ & E & Hri & _)]; [set_solver|]. split; [done|]. split; [done|]. rewrite Hnew.
    unfold page_image. rewrite Hnone. done.
Qed.

(** ** Reading a page *)

Definition lru_get (cacheSize id : Z) (ids : list Z) : list Z :=
  if decide (id ∈ ids) then id :: filter (λ i, i ≠ id) ids else lru_add cacheSize id ids.

Lemma count_ok X p s : pager_ok X p → pager_ok X (set_stats s p).
Proof. intros [H1 H2 H3 H4 H5 H6 H7 H8 H9 H10 H11 H12]. split; try done. by apply (logged_same X p). Qed.

Lemma lru_add_bound cs id ids : len ids ≤ Z.max 1 cs → len (lru_add cs id ids) ≤ Z.max 1 cs.
Proof.
  intros H. unfold lru_add. rewrite len_cons. destruct (Z.leb_spec cs (len ids)) as [Hc|Hc]; [|lia].
  destruct (decide (ids = [])) as [->|Hne]; [simpl; unfold len; simpl; lia|].
  destruct (exists_last Hne) as (k & x & ->). rewrite removelast_last. rewrite len_app, len_cons in *. unfold len in *. simpl in *. lia.
Qed.

(** The disk copy of a page that is not cached survives making room for it. *)
Lemma make_room_disk p id x :
  pager_ok ∅ p → p_cache p !! id = None → in_range p id → page_image p id = Some x →
  disk_page (p_file (make_room p)) id = Some x.
Proof.
  intros Hok Hid Hr Hx. destruct (make_room_ok p Hok) as (A1 & A2 & A3 & A4 & A5 & A6 & A7).
  rewrite <-A2 in Hx by done. unfold page_image in Hx.
  destruct (p_cache (make_room p) !! id) eqn:E; [|done]. rewrite (A5 id) in E by (by rewrite E). congruence.
Qed.

(** An object that is not cached is not touched. *)
Lemma make_room_store p q :
  (∀ i, p_cache p !! i ≠ Some q) → p_store (make_room p) !! q = p_store p !! q.
Proof.
  intros Hq. unfold make_room. destruct (_ <=? _); [|done]. rewrite evictLRU_eq.
  destruct (list_Back (p_lru p)) as [[e id]|]; [|done]. cbn [drop_page set_lru set_cache p_store].
  destruct (decide _); [|done]. unfold write_back. destruct (p_cache p !! id) as [ptr|] eqn:E; [|done].
  cbn [set_dirty upd set_store p_store]. rewrite list_lookup_alter_ne; [done|]. intros ->. by apply (Hq id).
Qed.

(** A new object is not cached. *)
Lemma alloc_ok X p pg :
  pager_ok X p →
  let p1 := (alloc pg p).2 in
  pager_ok X p1 ∧ (∀ i, page_image p1 i = page_image p i) ∧ (∀ i, p_cache p1 !! i ≠ Some (length (p_store p))) ∧
  p_store p1 !! length (p_store p) = Some pg ∧ keeps_objects p p1.
Proof.
  intros Hok p1.
  assert (Hst : ∀ i q, p_cache p !! i = Some q → p_store p1 !! q = p_store p !! q ∧ (q < length (p_store p))%nat).
  { intros i q Hq. destruct (cached_fits _ _ _ _ Hok Hq) as (Hs & _). apply lookup_lt_Some in Hs. split; [|done].
    cbn. by rewrite lookup_app_l. }
  assert (Himg : ∀ i, page_image p1 i = page_image p i).
  { intros i. unfold page_image. change (p_cache p1) with (p_cache p). destruct (p_cache p !! i) as [q|] eqn:Hq; [|done].
    unfold deref. by destruct (Hst i q Hq) as [-> _]. }
  split_and!; [|done| | |].
  - destruct Hok as [H1 H2 H3 H4 H5 H6 H7 H8 H9 H10 H11 H12]. split; try done.
    + intros i q Hq. destruct (H4 i q Hq) as (pg' & Hs & Hrest). exists pg'. split; [|done].
      by destruct (Hst i q Hq) as [-> _].
    + intros i Hi. rewrite Himg. by apply H6.
    + apply (logged_same X p); [done|done|done|done|]. intros i _. apply Himg.
  - intros i Hq. destruct (Hst i _ Hq) as [_ ?]. lia.
  - cbn. by rewrite lookup_app_r, Nat.sub_diag by lia.
  - split; cbn; [rewrite length_app; lia|]. intros q Hq. unfold deref. cbn. by rewrite lookup_app_l.
Qed.

Lemma GetPage_ok p id :
  pager_ok ∅ p → in_range p id →
  ∃ p' ptr, GetPage id p = (p', Ok ptr) ∧ pager_ok ∅ p' ∧ p_cache p' !! id = Some ptr ∧
    same_images p p' ∧ pager_frame p p' ∧
    lru_ids p' = (if decide (id ∈ unlisted) then lru_ids p else lru_get (p_cacheSize p) id (lru_ids p)) ∧
    (∀ i, is_Some (p_cache p' !! i) → i ≠ id → p_cache p' !! i = p_cache p !! i) ∧ keeps_objects p p'.
Proof.
  intros Hok Hr. unfold GetPage. rewrite (ok_open _ _ Hok). unfold lru_get.
  destruct (p_cache p !! id) as [ptr|] eqn:Hc.
  - case_decide as Hun.
    { assert (Hm : p_lruMap p !! id = None).
      { destruct (p_lruMap p !! id) as [e|] eqn:E; [|done]. exfalso. apply (ok_apart _ _ Hok id Hun).
        apply (lo_map _ _ _ (ok_lru _ _ Hok)) in E. exact (list_elem_of_fmap_2 snd _ _ E). }
      unfold touch. rewrite Hm. eexists _, ptr. split; [done|]. split; [by apply count_ok|]. done. }
    assert (Hin : id ∈ lru_ids p).
    { destruct (proj1 (ok_keys _ _ Hok id)) as [?|?]; [by eexists|done|done]. }
    rewrite decide_True by done.
    pose proof (ok_lru _ _ Hok) as Hl. pose proof Hin as Hin'. rewrite <-(lo_ids _ _ _ Hl) in Hin'.
    apply list_elem_of_fmap in Hin' as ([e id'] & -> & He). simpl in *. apply (lo_map _ _ _ Hl) in He as Hm.
    unfold touch. rewrite Hm. pose proof (lru_touch e id' _ _ _ Hl Hm) as Hl'.
    set (p1 := set_lru _ _ p). assert (El : lru_ids p1 = id' :: filter (λ i, i ≠ id') (lru_ids p)) by exact (lo_ids _ _ _ Hl').
    eexists _, ptr. split; [done|]. split; [|done]. apply count_ok.
    assert (Hsame : ∀ i, i ∈ lru_ids p1 ↔ i ∈ lru_ids p).
    { intros i. rewrite El, elem_of_cons, list_elem_of_filter. destruct (decide (i = id')); naive_solver. }
    destruct Hok as [H1 H2 H3 H4 H5 H6 H7 H8 H9 H10 H11 H12]. split; try done; [by rewrite El| | | |].
    + intros i. rewrite Hsame. apply H3.
    + rewrite El, len_cons. pose proof (length_filter_lt (λ i, i ≠ id') (lru_ids p) id' Hin). unfold len in *. cbn. lia.
    + intros i Hi. rewrite Hsame. by apply H10.
    + by apply (logged_same ∅ p).
  - assert (Hin : id ∉ lru_ids p) by (intros Hin; destruct (proj2 (ok_keys _ _ Hok id)) as [? ?]; [by left|congruence]).
    assert (Hun : id ∉ unlisted) by (intros Hun; destruct (proj2 (ok_keys _ _ Hok id)) as [? ?]; [by right|congruence]).
    rewrite !decide_False by done.
    destruct (ok_images _ _ Hok id Hr) as [x Hx]. pose proof Hx as Hx'. unfold page_image in Hx. rewrite Hc in Hx.
    unfold readPage. pose proof Hr as [? Hgap]. destruct (Z.leb_spec (NumPages p) id); [lia|].
    pose proof (disk_page_len _ _ _ Hx) as Hlen. pose proof Hx as Hd. unfold disk_page in Hd.
    destruct (ReadAt (p_file p) PageSize (id * PageSize)) as [data [err|]]; [done|]. injection Hd as ->.
    unfold LoadPage. rewrite Hlen, Z.eqb_refl. cbn [negb]. set (pg := MkPage _ _ _ _). cbn [alloc fst snd].
    assert (Hok' : pager_ok ∅ (count_read p)) by (by apply count_ok).
    destruct (alloc_ok ∅ _ pg Hok') as (B1 & B2 & B3 & B4 & B5). cbn [alloc fst snd] in *. change (p_store (count_read p)) with (p_store p) in *.
    set (p1 := set_store (p_store p ++ [pg]) (count_read p)) in *.
    destruct (make_room_ok p1 B1) as (A1 & A2 & A3 & A4 & A5 & A6 & A7). rewrite addToCache_eq.
    assert (Hd1 : disk_page (p_file (make_room p1)) id = Some x) by (apply make_room_disk; [done|done|done|by rewrite B2]).
    assert (Hn2 : p_cache (make_room p1) !! id = None).
    { destruct (p_cache (make_room p1) !! id) eqn:E; [|done]. rewrite (A5 id) in E by (by rewrite E).
      change (p_cache p1) with (p_cache p) in E. congruence. }
    destruct A3 as [Am As Aw].
    set (p2 := make_room p1) in *.
    assert (E : set_dirty (p_dirty p2) (set_metadata (p_metadata p1) (push_page id (length (p_store p)) p2)) =
      push_page id (length (p_store p)) p2) by (rewrite <-Am; by destruct p2).
    pose proof (push_ok ∅ p2 id (length (p_store p)) pg (p_metadata p1) (p_dirty p2) A1) as C. cbn zeta in C. rewrite E in C.
    assert (Hr2 : in_range p2 id) by (unfold in_range, NumPages; by rewrite Am).
    destruct C as (C1 & C2 & C3 & C4 & C5).
    + done.
    + by rewrite (make_room_store p1).
    + done.
    + split; [done|]. apply page_first in Hlen as [y Hy]. cbn. change (Z.to_nat HeaderOffsetType) with 0%nat. by rewrite Hy.
    + apply (ok_meta _ _ B1).
    + unfold RootPageID. by rewrite Am.
    + done.
    + done.
    + intros i Hi. left. unfold NumPages. by rewrite Am.
    + unfold NumPages. by rewrite Am.
    + right. done.
    + rewrite A4, As. apply (lru_add_bound _ id), (ok_bound _ _ B1).
    + eexists _, _. split; [done|]. split; [done|]. split; [by rewrite C5, lookup_insert_eq|]. split_and!.
      * intros i Hi. destruct (decide (i = id)) as [->|Hne]; [by rewrite C3|]. rewrite C2 by done. by rewrite A2, B2.
      * split; cbn; [by rewrite Am|by rewrite As|by rewrite Aw].
      * rewrite C4, A4. done.
      * intros i Hi Hne. rewrite C5 in Hi |- *. rewrite lookup_insert_ne in Hi |- * by done. by rewrite A5.
      * eapply keeps_trans; [exact B5|]. exact A6.
Qed.

(** ** Allocating a page *)

Lemma NewPage_fits id t : fits_page (NewPage id t).
Proof. destruct (NewPage_rep id t) as (([offs H] & _ & H0) & _). split; [apply H|done]. Qed.

(** Without a log, a page that is marked dirty is as good as one in step. *)
Lemma unlogged_ok X p : pager_ok X p → p_wal p = None → X ⊆ p_dirty p → pager_ok ∅ p.
Proof.
  intros [H1 H2 H3 H4 H5 H6 H7 H8 H9 H10 H11 H12] Hw HX. split; try done.
  - intros i q Hq. destruct (H4 i q Hq) as (pg & ? & ? & ? & ? & Hdk). exists pg. split_and!; try done. intros Hd _.
    apply Hdk; set_solver.
  - intros i Hi. apply H5. set_solver.
  - unfold logged. by rewrite Hw.
Qed.

Lemma NewPage_ok p t :
  pager_ok ∅ p → NumPages p + 1 < 2 ^ 32 → 1 ≤ NumPages p →
  let id := NumPages p in
  ∃ p' ptr, Pager_NewPage t p = (p', Ok ptr) ∧ pager_ok {[id]} p' ∧ p_cache p' !! id = Some ptr ∧
    deref p' ptr = NewPage id t ∧ (∀ i, in_range p i → page_image p' i = page_image p i) ∧
    NumPages p' = id + 1 ∧ RootPageID p' = RootPageID p ∧ p_cacheSize p' = p_cacheSize p ∧ p_wal p' = p_wal p ∧
    lru_ids p' = lru_add (p_cacheSize p) id (lru_ids p) ∧
    (∀ i, is_Some (p_cache p' !! i) → i ≠ id → p_cache p' !! i = p_cache p !! i) ∧ keeps_objects p p' ∧
    (p_wal p = None → pager_ok ∅ p').
Proof.
  intros Hok Hmax Hmin id. unfold Pager_NewPage. rewrite (ok_open _ _ Hok). fold id.
  assert (Hid : p_cache p !! id = None).
  { destruct (p_cache p !! id) as [q|] eqn:Hq; [|done]. destruct (cached_fits _ _ _ _ Hok Hq) as (_ & _ & _ & [? ?]). lia. }
  assert (Hgap : id ∉ gaps) by (intros Hg%(ok_gaps _ _ Hok); lia).
  set (m := MkMeta _ _ _ _). cbn [alloc fst snd].
  destruct (alloc_ok ∅ p (NewPage id t) Hok) as (B1 & B2 & B3 & B4 & B5). cbn [alloc fst snd] in *.
  set (p1 := set_store (p_store p ++ [NewPage id t]) p) in *.
  destruct (make_room_ok p1 B1) as (A1 & A2 & [Am As Aw] & A4 & A5 & A6 & A7). rewrite addToCache_eq.
  set (p2 := make_room p1) in *. set (ptr := length (p_store p)) in *.
  assert (E : set_dirty ({[id]} ∪ p_dirty p2) (set_metadata m (push_page id ptr p2)) =
    set_dirty ({[id]} ∪ p_dirty (push_page id ptr (make_room (set_store (p_store (set_metadata m p) ++ [NewPage id t]) (set_metadata m p)))))
      (push_page id ptr (make_room (set_store (p_store (set_metadata m p) ++ [NewPage id t]) (set_metadata m p))))).
  { subst p2 p1. unfold make_room. cbn [set_metadata set_store p_cacheSize p_lru]. destruct (p_cacheSize p <=? list_Len (p_lru p)); [|done].
    rewrite !evictLRU_eq. cbn [set_metadata set_store p_lru]. destruct (list_Back (p_lru p)) as [[e i]|]; [|done].
    cbn [set_metadata set_store p_dirty]. destruct (decide _); [|done]. unfold write_back. cbn [set_metadata set_store p_cache].
    by destruct (p_cache p !! i). }
  change (length (p_store (set_metadata m p))) with ptr. rewrite <-E. clear E.
  assert (Hm : md_NumPages m = id + 1) by (unfold m; cbn; rewrite u32_small; unfold id, NumPages in *; lia).
  pose proof (ok_meta _ _ Hok) as [M1 M2 M3 M4].
  destruct (push_ok {[id]} p2 id ptr (NewPage id t) m ({[id]} ∪ p_dirty p2) A1) as (C1 & C2 & C3 & C4 & C5).
  - destruct (p_cache p2 !! id) eqn:E; [|done]. rewrite (A5 id) in E by (by rewrite E).
    change (p_cache p1) with (p_cache p) in E. congruence.
  - subst p2 ptr. by rewrite (make_room_store p1).
  - done.
  - apply NewPage_fits.
  - split; [done|done| |done]. rewrite Hm. unfold id, NumPages in *. lia.
  - unfold RootPageID. by rewrite Am.
  - rewrite Hm. unfold id in *. lia.
  - done.
  - intros i. rewrite Hm. unfold NumPages. rewrite Am. change (md_NumPages (p_metadata p1)) with id. lia.
  - unfold NumPages. rewrite Am, Hm. change (md_NumPages (p_metadata p1)) with id. lia.
  - left. split; [done|]. split; [|done]. unfold NumPages. rewrite Am. by change (md_NumPages (p_metadata p1)) with id.
  - rewrite A4, As. apply (lru_add_bound _ id), (ok_bound _ _ B1).
  - eexists _, ptr. split; [done|]. split; [done|]. split; [by rewrite C5, lookup_insert_eq|]. split_and!.
    + unfold deref. cbn. subst p2 ptr. by rewrite (make_room_store p1), B4.
    + intros i Hi. assert (i ≠ id) by (destruct Hi; lia). rewrite C2 by done. by rewrite A2, B2.
    + exact Hm.
    + done.
    + cbn. by rewrite As.
    + cbn. by rewrite Aw.
    + rewrite C4, A4. done.
    + intros i Hi Hne. rewrite C5 in Hi |- *. rewrite lookup_insert_ne in Hi |- * by done. by rewrite A5.
    + eapply keeps_trans; [exact B5|]. exact A6.
    + intros Hw. apply (unlogged_ok {[id]}); [done|by change (p_wal p2 = None); rewrite Aw|]. apply union_subseteq_l.
Qed.

(** ** Changing a page *)

Lemma upd_ok X p id ptr f :
  pager_ok X p → p_cache p !! id = Some ptr →
  fits_page (f (deref p ptr)) → pg_id (f (deref p ptr)) = id →
  let p' := upd ptr f p in
  pager_ok ({[id]} ∪ X) p' ∧ deref p' ptr = f (deref p ptr) ∧ (∀ q, q ≠ ptr → deref p' q = deref p q) ∧
  page_image p' id = Some (pg_data (f (deref p ptr))) ∧ (∀ i, i ≠ id → page_image p' i = page_image p i) ∧
  pager_frame p p' ∧ lru_ids p' = lru_ids p ∧ p_cache p' = p_cache p ∧ p_file p' = p_file p.
Proof.
  intros Hok Hc Hfit Hid p'. destruct (cached_fits X p id ptr Hok Hc) as (Hs & Hpid & _ & Hr).
  assert (Hd : deref p' ptr = f (deref p ptr)) by (by apply deref_upd).
  assert (Hd' : ∀ q, q ≠ ptr → deref p' q = deref p q) by (intros q Hq; by apply deref_upd_ne).
  assert (Hi : page_image p' id = Some (pg_data (f (deref p ptr)))).
  { unfold page_image. change (p_cache p') with (p_cache p). by rewrite Hc, Hd. }
  assert (Hi' : ∀ i, i ≠ id → page_image p' i = page_image p i).
  { intros i Hne. unfold page_image. change (p_cache p') with (p_cache p). destruct (p_cache p !! i) as [q|] eqn:Hq; [|done].
    rewrite Hd'; [done|]. intros ->. apply Hne. by eapply cached_inj. }
  split; [|done]. destruct Hok as [H1 H2 H3 H4 H5 H6 H7 H8 H9 H10 H11 H12]. split; try done.
  - intros i q Hq. destruct (H4 i q Hq) as (pg & Hst & Hpi & Hf & Hri & Hdk).
    destruct (decide (ptr = q)) as [<-|Hne].
    + assert (i = id) as -> by congruence. clear Hpid. exists (f pg). assert (deref p ptr = pg) as E by (unfold deref; by rewrite Hst).
      rewrite E in *. split_and!; try done; [|set_solver]. unfold p'. rewrite (lookup_upd p ptr f ptr pg Hst). by rewrite decide_True.
    + exists pg. split_and!; try done; [|intros; apply Hdk; set_solver]. unfold p'. rewrite (lookup_upd p ptr f q pg Hst).
      by rewrite decide_False.
  - intros i Hin. destruct (decide (i = id)) as [->|Hne]; [by eexists|]. apply H5. set_solver.
  - intros i Hin. destruct (decide (i = id)) as [->|Hne]; [rewrite Hi; by eexists|]. rewrite Hi' by done. by apply H6.
  - apply (logged_ext X _ p); [done..|]. intros i Hri HX. rewrite Hi' by set_solver. split; [done|]. split; [set_solver|done].
Qed.

Lemma last_image_app rs r id :
  last_image (rs ++ [r]) id = if r_PageID r =? id then Some (r_Data r) else last_image rs id.
Proof.
  induction rs as [|x rs IH]; cbn [app last_image]; [done|]. rewrite IH. by destruct (r_PageID r =? id).
Qed.

Lemma log_append w rs id data :
  bw_file w = log_file rs → bw_offset w = len (log_file rs) →
  bw_file (LogPageWrite w id 0 data) = log_file (rs ++ [image_record id data]) ∧
  bw_offset (LogPageWrite w id 0 data) = len (log_file (rs ++ [image_record id data])).
Proof.
  intros Hf Ho. pose proof (log_steps_file [OWrite id 0 data] rs (bw_flushed w)) as E. rewrite <-Ho, <-Hf in E.
  assert (Ew : MkBWAL (bw_file w) (bw_offset w) (bw_flushed w) = w) by by destruct w. rewrite Ew in E.
  change (LogPageWrite w id 0 data = MkBWAL (log_file (rs ++ [image_record id data])) (len (log_file (rs ++ [image_record id data]))) (bw_flushed w)) in E.
  by rewrite E.
Qed.

(** Logging the image of a page covers it. *)
Lemma logged_mark X p p' id data :
  logged X p → in_range p id → page_image p id = Some data → len data = PageSize →
  p_wal p' = (λ w, LogPageWrite w id 0 data) <$> p_wal p → p_metadata p' = p_metadata p → p_file p' = p_file p →
  (∀ i, page_image p' i = page_image p i) → logged (X ∖ {[id]}) p'.
Proof.
  unfold logged. intros Hl Hr Hd Hlen Hw Hm Hf Hi. rewrite Hw. destruct (p_wal p) as [w|]; [|done]. cbn [fmap option_fmap option_map].
  assert (Hrange : ∀ i, in_range p' i ↔ in_range p i) by (intros i; unfold in_range, NumPages; by rewrite Hm).
  destruct Hl as (rs & m & [H1 H2 H3 H4 H5 H9 H6 H7 H8]). destruct (log_append w rs id data H1 H2) as [Ef Eo].
  exists (rs ++ [image_record id data]), m. split; [done|done| | |by rewrite Hf|done|by unfold RootPageID; rewrite Hm|by unfold NumPages; rewrite Hm|done].
  - apply Forall_app. split.
    + eapply Forall_impl; [exact H3|]. intros r (i & x & -> & ? & ?). exists i, x. by rewrite Hrange.
    + constructor; [|done]. exists id, data. by rewrite Hrange.
  - intros i Hir HX. apply Hrange in Hir. unfold covered. rewrite last_image_app, Hi, Hf.
    change (r_PageID (image_record id data)) with id. change (r_Data (image_record id data)) with data.
    destruct (Z.eqb_spec id i) as [<-|Hne]; [done|]. apply H4; [done|set_solver].
Qed.

Lemma MarkDirty_ok X p id ptr :
  pager_ok X p → p_cache p !! id = Some ptr →
  let p' := MarkDirty id p in
  pager_ok (X ∖ {[id]}) p' ∧ (∀ i, page_image p' i = page_image p i) ∧ p_metadata p' = p_metadata p ∧
  p_cacheSize p' = p_cacheSize p ∧ lru_ids p' = lru_ids p ∧ p_cache p' = p_cache p ∧
  (∀ q, pg_data (deref p' q) = pg_data (deref p q)) ∧ length (p_store p') = length (p_store p) ∧
  p_wal p' = (λ w, LogPageWrite w id 0 (pg_data (deref p ptr))) <$> p_wal p ∧ p_file p' = p_file p.
Proof.
  intros Hok Hc p'. destruct (cached_fits X p id ptr Hok Hc) as (Hs & _ & _ & Hr).
  set (p1 := log_image id (pg_data (deref p ptr)) p).
  assert (E1 : p_store p1 = p_store p ∧ p_cache p1 = p_cache p ∧ p_metadata p1 = p_metadata p ∧ p_file p1 = p_file p ∧
    p_dirty p1 = p_dirty p ∧ p_lru p1 = p_lru p ∧ p_lruMap p1 = p_lruMap p ∧ p_cacheSize p1 = p_cacheSize p ∧
    p_closed p1 = p_closed p ∧ p_wal p1 = (λ w, LogPageWrite w id 0 (pg_data (deref p ptr))) <$> p_wal p).
  { unfold p1, log_image. destruct (p_wal p) eqn:E; [done|]. rewrite E. done. }
  destruct E1 as (E1 & E2 & E3 & E4 & E5 & E6 & E7 & E8 & E9 & E10).
  assert (Ep : p' = set_dirty ({[id]} ∪ p_dirty (upd ptr (SetDirty true) p1)) (upd ptr (SetDirty true) p1)).
  { unfold p', MarkDirty. by rewrite Hc. }
  assert (Hdat : ∀ q, pg_data (deref p' q) = pg_data (deref p q)).
  { intros q. rewrite Ep. unfold deref. cbn [set_dirty upd set_store p_store]. rewrite E1. destruct (decide (ptr = q)) as [<-|Hne].
    - rewrite list_lookup_alter_eq, Hs. done.
    - by rewrite list_lookup_alter_ne. }
  assert (Himg : ∀ i, page_image p' i = page_image p i).
  { intros i. unfold page_image. replace (p_cache p') with (p_cache p) by by rewrite Ep, <-E2.
    replace (p_file p') with (p_file p) by by rewrite Ep, <-E4. destruct (p_cache p !! i); [by rewrite Hdat|done]. }
  assert (Hrest : p_metadata p' = p_metadata p ∧ p_cacheSize p' = p_cacheSize p ∧ lru_ids p' = lru_ids p ∧
    p_cache p' = p_cache p ∧ length (p_store p') = length (p_store p) ∧ p_wal p' = p_wal p1 ∧ p_file p' = p_file p).
  { rewrite Ep. unfold lru_ids. cbn [set_dirty upd set_store p_store p_metadata p_cacheSize p_cache p_wal p_file p_lru].
    rewrite length_alter. split_and!; congruence. }
  split; [|rewrite <-E10; tauto].
  assert (Hlog : logged (X ∖ {[id]}) p').
  { destruct Hrest as (R1 & _ & _ & _ & _ & R2 & R3). destruct (cached_fits X p id ptr Hok Hc) as (_ & _ & [Hlen _] & _).
    apply (logged_mark X p p' id (pg_data (deref p ptr))); [apply Hok|done| |done|by rewrite R2|done|done|done].
    unfold page_image. by rewrite Hc. }
  clear Hrest. destruct Hok as [H1 H2 H3 H4 H5 H6 H7 H8 H9 H10 H11 H12].
  assert (El : lru_ids p' = lru_ids p) by (unfold lru_ids; by rewrite Ep; cbn; rewrite E6).
  split; rewrite ?El; try exact Hlog; try done; try (rewrite Ep; cbn [set_dirty upd set_store p_closed p_lru p_lruMap p_cache p_cacheSize p_metadata p_file];
    rewrite ?E9, ?E6, ?E7, ?E2, ?E8, ?E3, ?E4; done).
  - intros i q Hq. rewrite Ep in Hq. cbn in Hq. rewrite E2 in Hq. destruct (H4 i q Hq) as (pg & Hst & Hpi & Hf & Hri & Hdk).
    exists (if decide (ptr = q) then SetDirty true pg else pg). split_and!.
    + rewrite Ep. cbn [set_dirty p_store]. rewrite (lookup_upd p1 ptr _ q pg); [done|by rewrite E1].
    + by case_decide.
    + by case_decide.
    + rewrite Ep. unfold in_range, NumPages. cbn. by rewrite E3.
    + intros Hnd HX. rewrite Ep in Hnd |- *. cbn in Hnd |- *. rewrite E5 in Hnd. rewrite E4.
      assert (E : pg_data (if decide (ptr = q) then SetDirty true pg else pg) = pg_data pg) by (by case_decide). rewrite E.
      apply Hdk; set_solver.
  - intros i Hi. rewrite Ep in Hi |- *. cbn in Hi |- *. rewrite E5 in Hi. rewrite E2.
    destruct (decide (i = id)) as [->|Hne]; [by eexists|]. apply H5. set_solver.
  - intros i Hi. rewrite Himg. apply H6. rewrite Ep in Hi. unfold in_range, NumPages in *. cbn in Hi. by rewrite E3 in Hi.
  - intros i Hi. rewrite Ep. unfold NumPages. cbn. rewrite E3. by apply H11.
Qed.

(** ** Metadata *)

(** New metadata for the same pages, written to the file. *)
Lemma new_metadata_ok X p m :
  pager_ok X p → meta_ok m → md_NumPages m = NumPages p →
  let p' := writeMetadata (set_metadata m p) in
  pager_ok X p' ∧ (∀ i, in_range p i → page_image p' i = page_image p i) ∧ readMetadata (p_file p') = Ok m.
Proof.
  intros Hok Hmok Hn p'.
  assert (Hd : ∀ i x, 1 ≤ i → disk_page (p_file p) i = Some x → disk_page (p_file p') i = Some x).
  { intros i x Hi Hx. apply (disk_write_other _ (meta_bytes m) 0); try done; try lia; apply length_meta_bytes. }
  assert (Hrange : ∀ i, in_range p' i ↔ in_range p i) by (intros i; unfold in_range, NumPages in *; cbn; by rewrite Hn).
  assert (Himg : ∀ i, in_range p i → page_image p' i = page_image p i).
  { intros i Hi. destruct (ok_images _ _ Hok i Hi) as [x Hx]. unfold page_image in *. change (p_cache p') with (p_cache p).
    destruct (p_cache p !! i); [done|]. rewrite Hx. apply Hd; [destruct Hi; lia|done]. }
  assert (Hmeta : readMetadata (p_file p') = Ok m) by apply meta_roundtrip, Hmok.
  split; [|split; [done|done]].
  destruct Hok as [H1 H2 H3 H4 H5 H6 H7 H8 H9 H10 H11 H12]. split; try done.
  - intros i q Hq. destruct (H4 i q Hq) as (pg & ? & ? & ? & Hri & Hdk). exists pg. split_and!; try done; [by apply Hrange|].
    intros Hnd HX. apply Hd; [destruct Hri; lia|by apply Hdk].
  - intros i Hi. apply Hrange in Hi. rewrite Himg by done. by apply H6.
  - cbn. rewrite len_WriteAt by done. lia.
  - intros i Hi. specialize (H11 i Hi). unfold NumPages in *. cbn. lia.
  - unfold logged in *. change (p_wal p') with (p_wal p). destruct (p_wal p) as [w|]; [|done].
    destruct H12 as (rs & m0 & [L1 L2 L3 L4 L5 L9 L6 L7 L8]). exists rs, m. split; try done.
    + eapply Forall_impl; [exact L3|]. intros r (i & x & -> & ? & ?). exists i, x. by rewrite Hrange.
    + intros i Hi HX. apply Hrange in Hi as Hi'. specialize (L4 i Hi' HX). unfold covered in *. rewrite Himg by done.
      destruct (last_image rs i); [done|]. destruct L4 as [E L]. split; [|rewrite Hn; destruct Hi'; lia].
      destruct (H6 i Hi') as [x Hx]. rewrite Hx in *. apply Hd; [destruct Hi'; lia|done].
    + intros i Hi. rewrite Hn. by apply H11.
Qed.

Lemma set_metadata_id p : set_metadata (p_metadata p) p = p.
Proof. by destruct p. Qed.

Lemma writeMetadata_ok X p :
  pager_ok X p →
  let p' := writeMetadata p in
  pager_ok X p' ∧ (∀ i, in_range p i → page_image p' i = page_image p i) ∧ pager_frame p p' ∧
  readMetadata (p_file p') = Ok (p_metadata p) ∧ p_cache p' = p_cache p ∧ p_store p' = p_store p ∧ p_lru p' = p_lru p ∧
  p_dirty p' = p_dirty p.
Proof.
  intros Hok p'. destruct (new_metadata_ok X p (p_metadata p) Hok (ok_meta _ _ Hok) eq_refl) as (A1 & A2 & A3).
  rewrite set_metadata_id in A1, A2, A3. done.
Qed.

Lemma SetRootPageID_ok X p id :
  pager_ok X p → 0 ≤ id < 2 ^ 32 →
  let p' := SetRootPageID id p in
  pager_ok X p' ∧ (∀ i, in_range p i → page_image p' i = page_image p i) ∧ RootPageID p' = id ∧
  NumPages p' = NumPages p ∧ p_cacheSize p' = p_cacheSize p ∧ p_wal p' = p_wal p ∧
  readMetadata (p_file p') = Ok (p_metadata p') ∧ p_cache p' = p_cache p ∧ p_store p' = p_store p ∧
  lru_ids p' = lru_ids p.
Proof.
  intros Hok Hid p'. destruct (ok_meta _ _ Hok) as [M1 M2 M3 M4].
  destruct (new_metadata_ok X p (MkMeta (md_Magic (p_metadata p)) id (md_NumPages (p_metadata p)) (md_FreeListPtr (p_metadata p))) Hok)
    as (A1 & A2 & A3); done.
Qed.

(** ** Flushing *)

Lemma set_dirty_ok X p D :
  pager_ok X p → (∀ i, i ∈ D → is_Some (p_cache p !! i)) →
  (∀ i, i ∉ D → i ∈ p_dirty p → disk_page (p_file p) i = page_image p i) → pager_ok X (set_dirty D p).
Proof.
  intros [H1 H2 H3 H4 H5 H6 H7 H8 H9 H10 H11 H12] HD Hd. split; try done.
  - intros i q Hq. destruct (H4 i q Hq) as (pg & Hs & ? & ? & Hri & Hdk). exists pg. split_and!; try done.
    intros Hnd HX. change (p_dirty (set_dirty D p)) with D in Hnd. change (p_file (set_dirty D p)) with (p_file p).
    destruct (decide (i ∈ p_dirty p)) as [Hi|Hi]; [|by apply Hdk].
    rewrite Hd by done. unfold page_image. cbn in Hq. rewrite Hq. unfold deref. by rewrite Hs.
  - intros i Hi. cbn in Hi |- *. destruct (decide (i ∈ D)) as [|Hn]; [by apply HD|apply H5; set_solver].
  - by apply (logged_same X p).
Qed.

Lemma flush_page_eq p id :
  is_Some (p_cache p !! id) → flush_page true p id = set_dirty (p_dirty p) (write_back p id).
Proof. intros [q Hq]. unfold flush_page, write_back. rewrite Hq. done. Qed.

Record flushed (p0 p : Pager) : Prop := {
  fl_ok : pager_ok ∅ p;
  fl_images : same_images p0 p;
  fl_frame : pager_frame p0 p;
  fl_cache : p_cache p = p_cache p0;
  fl_lru : p_lru p = p_lru p0;
  fl_dirty : p_dirty p = p_dirty p0;
  fl_data : ∀ q, pg_data (deref p q) = pg_data (deref p0 q);
  fl_store : length (p_store p) = length (p_store p0);
}.

Lemma flush_page_ok p0 p id :
  flushed p0 p → is_Some (p_cache p0 !! id) →
  let p' := flush_page true p id in
  flushed p0 p' ∧ disk_page (p_file p') id = page_image p' id ∧
  ∀ i, in_range p0 i → i ≠ id → disk_page (p_file p) i = page_image p i → disk_page (p_file p') i = page_image p' i.
Proof.
  intros [H1 H2 H3 H4 H5 H6 H7 H8] [ptr Hc]. rewrite <-H4 in Hc. cbn zeta. rewrite flush_page_eq by (by eexists).
  destruct (write_back_ok ∅ p id ptr H1 Hc) as (A1 & A2 & A3 & A4 & A5 & A6 & A7 & A8 & A9 & A10).
  destruct (cached_fits _ _ _ _ H1 Hc) as (_ & _ & _ & Hr).
  assert (Hrange : ∀ i, in_range p0 i ↔ in_range p i) by (intros i; unfold in_range, NumPages; by rewrite (pf_metadata _ _ H3)).
  split; [|split].
  - split; try done.
    + apply set_dirty_ok; [done| |].
      * intros i Hi. rewrite A4. apply (ok_dirty _ _ H1). set_solver.
      * intros i Hi Hi'. rewrite A8 in Hi'. set_solver.
    + intros i Hi. rewrite <-H2 by done. apply A2. by apply Hrange.
    + etrans; [exact H3|]. destruct A3. by split.
    + cbn. by rewrite A4.
    + cbn. by rewrite A9.
    + intros q. rewrite <-H7. apply A7.
    + rewrite <-H8. unfold write_back. rewrite Hc. cbn [set_dirty upd set_store p_store]. by rewrite length_alter.
  - change (page_image (set_dirty _ ?x) id) with (page_image x id). rewrite A2 by done. exact A6.
  - intros i Hi Hne Hd. apply Hrange in Hi. change (page_image (set_dirty _ ?x) i) with (page_image x i). rewrite A2 by done.
    destruct (ok_images _ _ H1 i Hi) as [x Hx]. rewrite Hx in Hd |- *.
    destruct (writePage_disk ∅ p id ptr H1 Hc) as (_ & Ho & _).
    replace (p_file (set_dirty (p_dirty p) (write_back p id))) with (p_file (writePage (deref p ptr) p)) by (unfold write_back; by rewrite Hc).
    apply Ho; [destruct Hi; lia|done|done].
Qed.

Section flushing.
Context `{!RangeOrder}.

Lemma flush_fold p0 l p done_ :
  flushed p0 p → (∀ i, i ∈ l → is_Some (p_cache p0 !! i)) →
  (∀ i, i ∈ done_ → in_range p0 i ∧ disk_page (p_file p) i = page_image p i) →
  let p' := foldl (flush_page true) p l in
  flushed p0 p' ∧ ∀ i, i ∈ done_ ++ l → disk_page (p_file p') i = page_image p' i.
Proof using Type.
  revert p done_. induction l as [|id l IH]; intros p done_ Hp Hl Hdone; cbn [foldl].
  - split; [done|]. rewrite app_nil_r. intros i Hi. by apply Hdone.
  - assert (Hc : is_Some (p_cache p0 !! id)) by (apply Hl; by left).
    destruct (flush_page_ok p0 p id Hp Hc) as (A1 & A2 & A3).
    assert (Hr : in_range p0 id).
    { rewrite <-(fl_cache _ _ Hp) in Hc. destruct Hc as [q Hq]. destruct (cached_fits _ _ _ _ (fl_ok _ _ Hp) Hq) as (_ & _ & _ & Hr).
      unfold in_range, NumPages in *. by rewrite (pf_metadata _ _ (fl_frame _ _ Hp)) in Hr. }
    destruct (IH (flush_page true p id) (done_ ++ [id])) as (B1 & B2); [done|intros i Hi; apply Hl; by right| |].
    + intros i [Hi|Hi]%elem_of_app.
      * destruct (Hdone i Hi) as [Hri Hdi]. split; [done|]. destruct (decide (i = id)) as [->|Hne]; [done|by apply A3].
      * apply list_elem_of_singleton in Hi as ->. done.
    + split; [done|]. by rewrite <-app_assoc in B2.
Qed.

Lemma Flush_ok p :
  pager_ok ∅ p →
  ∃ p', Flush p = (p', Ok tt) ∧ pager_ok ∅ p' ∧ same_images p p' ∧ pager_frame p p' ∧ p_cache p' = p_cache p ∧
    p_lru p' = p_lru p ∧ p_dirty p' = ∅ ∧ (∀ q, pg_data (deref p' q) = pg_data (deref p q)) ∧
    length (p_store p') = length (p_store p).
Proof using Type.
  intros Hok. unfold Flush. rewrite (ok_open _ _ Hok). set (p1 := foldl _ _ _).
  assert (Hmem : ∀ i, i ∈ range_keys (p_dirty p) ↔ i ∈ p_dirty p) by (intros i; rewrite range_keys_perm; apply elem_of_elements).
  destruct (flush_fold p (range_keys (p_dirty p)) p []) as ([A1 A2 A3 A4 A5 A6 A7 A8] & B).
  - split; try done. 
  - intros i Hi. apply (ok_dirty _ _ Hok). apply Hmem in Hi. set_solver.
  - by intros i Hi%elem_of_nil.
  - fold p1 in A1, A2, A3, A4, A5, A6, A7, A8, B. eexists. split; [done|]. split_and!; try done.
    + apply set_dirty_ok; [done|set_solver|]. intros i _ Hi. apply B. simpl. apply Hmem. by rewrite <-A6.
    + by destruct A3.
Qed.

(** After [Sync] the file holds every image and the metadata. *)
Definition on_disk (p : Pager) : Prop :=
  readMetadata (p_file p) = Ok (p_metadata p) ∧ ∀ i, in_range p i → disk_page (p_file p) i = page_image p i.

(** ** Changing the log *)

Lemma set_wal_ok X w p : pager_ok X p → logged X (set_wal w p) → pager_ok X (set_wal w p).
Proof using Type. intros [H1 H2 H3 H4 H5 H6 H7 H8 H9 H10 H11 H12] Hw. by split. Qed.

(** An empty log covers pages that are on the disk. *)
Lemma logged_empty X p w :
  pager_ok X p → on_disk p → bw_file w = log_file [] → bw_offset w = len (log_file []) → logged X (set_wal (Some w) p).
Proof using Type.
  intros Hok [Hm Hd] Hf Ho. exists [], (p_metadata p). split; [done|done|done| |done|apply Hok|done|done|apply (ok_gaps _ _ Hok)].
  intros i Hi _. split; [by apply Hd|]. destruct Hi as [[_ Hi] _]. exact Hi.
Qed.

(** Flushing the log does not change it. *)
Lemma logged_flush X p : logged X p → logged X (set_wal (BWAL_Sync <$> p_wal p) p).
Proof using Type.
  unfold logged. cbn [set_wal p_wal]. destruct (p_wal p) as [w|]; [|done]. intros (rs & m & [L1 L2 L3 L4 L5 L9 L6 L7 L8]). exists rs, m. by split.
Qed.

Lemma Pager_Sync_ok p :
  pager_ok ∅ p →
  ∃ p', Pager_Sync p = (p', Ok tt) ∧ pager_ok ∅ p' ∧ same_images p p' ∧ pager_frame p p' ∧ p_cache p' = p_cache p ∧
    lru_ids p' = lru_ids p ∧ p_dirty p' = ∅ ∧ on_disk p' ∧ keeps_objects p p'.
Proof using Type.
  intros Hok. unfold Pager_Sync. destruct (Flush_ok p Hok) as (p1 & -> & A1 & A2 & A3 & A4 & A5 & A6 & A7 & A8).
  rewrite (ok_open _ _ A1). destruct (writeMetadata_ok ∅ p1 A1) as (B1 & B2 & B3 & B4 & B5 & B6 & B7 & B8).
  assert (Hrange : ∀ i, in_range p i ↔ in_range p1 i) by (intros i; unfold in_range, NumPages; by rewrite (pf_metadata _ _ A3)).
  eexists. split; [done|]. split_and!; try done.
  - intros i Hi. rewrite B2, A2 by (done || by apply Hrange). done.
  - etrans; [exact A3|exact B3].
  - unfold lru_ids. by rewrite B7, A5.
  - split; [done|]. intros i Hi. destruct (page_image (writeMetadata p1) i) as [x|] eqn:E; [|by destruct (ok_images _ _ B1 i Hi) as [? ?]; simplify_eq].
    unfold page_image in E. destruct (p_cache (writeMetadata p1) !! i) as [q|] eqn:Hq; [|done].
    injection E as <-. destruct (ok_cached _ _ B1 i q Hq) as (pg & Hs & _ & _ & _ & Hd). unfold deref. rewrite Hs. apply Hd; [|done].
    rewrite B8, A6. done.
  - split; [by rewrite B6, A8|]. intros q _. rewrite <-A7. unfold deref. by rewrite B6.
Qed.
End flushing.

End cache.

(** ** Opening and closing *)

Lemma readMetadata_meta_ok f m : readMetadata f = Ok m → Forall is_byte f → meta_ok m.
Proof.
  unfold readMetadata, ReadAt. case_cmp; [done|]. set (d := take _ _). intros Hm Hf.
  assert (Hb : ∀ o, 0 ≤ be_u32 (slice_from o d) < 2 ^ 32).
  { intros o. unfold be_u32, slice_from. assert (Hd : Forall is_byte (take 4 (drop (Z.to_nat o) d))) by (unfold d; auto using Forall_take, Forall_drop).
    pose proof (be_get_bounds _ Hd) as Hg. split; [lia|]. eapply Z.lt_le_trans; [apply Hg|]. unfold len. rewrite length_take.
    change (2 ^ 32) with (256 ^ 4). apply Z.pow_le_mono_r; lia. }
  destruct (Z.eqb_spec (md_Magic (MkMeta (be_u32 (slice_from MetadataOffsetMagic d)) (be_u32 (slice_from MetadataOffsetRoot d))
    (be_u32 (slice_from MetadataOffsetNumPage d)) (be_u32 (slice_from MetadataOffsetFreeList d)))) MetadataMagic) as [E|E]; [|done].
  injection Hm as <-. by split; cbn in *.
Qed.

Lemma empty_pager_ok {lv : Leftovers} f cs m :
  unlisted = ∅ → (∀ i, i ∈ gaps → i < md_NumPages m) → PageSize ≤ len f → meta_ok m → (∀ i, 1 ≤ i < md_NumPages m → i ∉ gaps → is_Some (disk_page f i)) →
  pager_ok ∅ (empty_pager f cs m) ∧ (∀ i, page_image (empty_pager f cs m) i = disk_page f i).
Proof.
  intros Hun Hgaps Hm Hok Hd. assert (Himg : ∀ i, page_image (empty_pager f cs m) i = disk_page f i).
  { intros i. unfold page_image. cbn [empty_pager p_cache p_file]. by rewrite lookup_empty. }
  split; [|done]. split; try done.
  - apply lru_new.
  - intros i. cbn. rewrite lookup_empty. rewrite Hun. split; [by intros []|by intros [?%elem_of_nil|?%elem_of_empty]].
  - intros i [Hi Hg]. rewrite Himg. by apply Hd.
  - change (len (lru_ids _)) with 0. lia.
  - intros i. rewrite Hun. by intros ?%elem_of_empty.
Qed.

(** A pager that was just opened has every page of its cache on the list. *)
Definition reopened (lv : Leftovers) : Leftovers := MkLeft (@gaps lv) ∅.

Lemma loadPager_ok {lv : Leftovers} p cs :
  pager_ok ∅ p → on_disk p →
  ∃ p', NewPager (Some (p_file p)) cs = Ok p' ∧ @pager_ok (reopened lv) ∅ p' ∧ (∀ i, in_range p i → page_image p' i = page_image p i) ∧
    p_metadata p' = p_metadata p ∧ p_cacheSize p' = cs ∧ p_wal p' = None ∧ @on_disk (reopened lv) p' ∧ p_cache p' = ∅ ∧
    p_file p' = p_file p.
Proof.
  intros Hok [Hm Hd]. cbn [NewPager]. unfold loadPager. rewrite Hm. cbn [mbind res_bind].
  destruct (@empty_pager_ok (reopened lv) (p_file p) cs (p_metadata p) eq_refl (ok_gaps _ _ Hok) (ok_disk _ _ Hok) (ok_meta _ _ Hok)) as [A B].
  { intros i Hi Hg. rewrite Hd by done. by apply (ok_images _ _ Hok). }
  eexists. split; [done|]. split; [done|]. split; [intros i Hi; rewrite B; by apply Hd|]. split_and!; try done.
  all: intros i Hi; by rewrite B.
Qed.

(** Nothing is left behind. *)
Definition no_leftovers : Leftovers := MkLeft ∅ ∅.

Lemma createPager_ok cs :
  let p := createPager cs in
  @pager_ok no_leftovers ∅ p ∧ page_image p 1 = Some (pg_data (NewPage 1 PageTypeLeaf)) ∧ p_metadata p = MkMeta MetadataMagic 1 2 0 ∧
  p_cacheSize p = cs ∧ p_wal p = None ∧ @on_disk no_leftovers p ∧ p_cache p = ∅.
Proof.
  set (m := MkMeta MetadataMagic 1 2 0). set (f := WriteAt (WriteAt [] (meta_bytes m) 0) (pg_data (NewPage 1 PageTypeLeaf)) (1 * PageSize)).
  assert (Hm : meta_ok m) by (by split).
  assert (Hr : readMetadata f = Ok m) by (apply meta_page_write; [lia|apply meta_roundtrip, Hm]).
  assert (H1 : disk_page f 1 = Some (pg_data (NewPage 1 PageTypeLeaf))) by (apply disk_write_same; [lia|reflexivity]).
  set (st := p_stats (createPager cs)). assert (Ep : createPager cs = set_stats st (empty_pager f cs m)) by reflexivity.
  destruct (@empty_pager_ok no_leftovers f cs m eq_refl (λ i Hi, False_ind _ (proj1 (elem_of_empty i) Hi)) (readMetadata_len _ _ Hr) Hm) as [A B].
  { intros i Hi _. assert (i = 1) as -> by (cbn in Hi; lia). rewrite H1. by eexists. }
  cbn zeta. rewrite Ep. clearbody st. split; [by apply count_ok|]. split; [by rewrite <-H1, <-B|].
  do 3 (split; [reflexivity|]). split; [|reflexivity]. split; [exact Hr|]. intros i Hi. symmetry. apply (B i).
Qed.

(** The cache never holds more pages than its size, or one. *)
Lemma cache_size {lv : Leftovers} X p : unlisted = ∅ → pager_ok X p → Z.of_nat (size (p_cache p)) ≤ Z.max 1 (p_cacheSize p).
Proof.
  intros Hun Hok. pose proof (ok_bound _ _ Hok) as Hb. unfold len in Hb. rewrite <-size_dom.
  replace (dom (p_cache p)) with (list_to_set (C := gset Z) (lru_ids p)).
  - rewrite size_list_to_set; [done|apply (ok_lru _ _ Hok)].
  - apply set_eq. intros i. rewrite elem_of_list_to_set, elem_of_dom, (ok_keys _ _ Hok), Hun. set_solver.
Qed.

(** [Close] writes what [Sync] writes. *)
Definition same_bytes (p q : Pager) : Prop :=
  p_file p = p_file q ∧ p_cache p = p_cache q ∧ p_metadata p = p_metadata q ∧ length (p_store p) = length (p_store q) ∧
  ∀ x, pg_data (deref p x) = pg_data (deref q x) ∧ pg_id (deref p x) = pg_id (deref q x).

Lemma flush_same_bytes p q id : same_bytes p q → same_bytes (flush_page false p id) (flush_page true q id).
Proof.
  intros (H1 & H2 & H3 & H4 & H5). unfold flush_page. rewrite H2. destruct (p_cache q !! id) as [x|] eqn:E; [|done].
  cbv zeta. split; [|split; [done|split; [done|split]]].
  - cbn [writePage count_write set_stats set_file upd set_store p_file]. destruct (H5 x) as [-> ->]. by rewrite H1.
  - cbn [writePage count_write set_stats set_file upd set_store p_store]. by rewrite length_alter.
  - intros y. destruct (upd_flag x false (writePage (deref q x) q) y) as [-> ->]. apply H5.
Qed.

Section closing.
Context `{!RangeOrder} {lv : Leftovers}.

Lemma Close_ok p :
  pager_ok ∅ p →
  ∃ p' ps, Pager_Close p = (p', Ok tt) ∧ Pager_Sync p = (ps, Ok tt) ∧ p_file p' = p_file ps ∧ p_closed p' = true ∧
    p_metadata p' = p_metadata p ∧ p_wal p' = p_wal p.
Proof using Type.
  intros Hok. unfold Pager_Close, Pager_Sync, Flush. rewrite (ok_open _ _ Hok).
  assert (Hsb : ∀ l p q, same_bytes p q → same_bytes (foldl (flush_page false) p l) (foldl (flush_page true) q l)).
  { induction l as [|x l IH]; intros a b Hab; [done|]. apply IH. by apply flush_same_bytes. }
  destruct (Hsb (range_keys (p_dirty p)) p p) as (E1 & E2 & E3 & _); [done|].
  assert (Hcl : ∀ b l q, p_closed (foldl (flush_page b) q l) = p_closed q ∧ p_metadata (foldl (flush_page b) q l) = p_metadata q ∧
    p_wal (foldl (flush_page b) q l) = p_wal q).
  { intros b. induction l as [|x l IH]; intros q; [done|]. cbn [foldl]. destruct (IH (flush_page b q x)) as (-> & -> & ->).
    unfold flush_page. destruct (p_cache q !! x); [by destruct b|done]. }
  cbn [set_dirty p_closed]. destruct (Hcl true (range_keys (p_dirty p)) p) as (-> & _). rewrite (ok_open _ _ Hok).
  eexists _, _. split; [reflexivity|]. split; [reflexivity|]. split; [|split; [reflexivity|split]].
  - cbn [set_closed writeMetadata count_write set_stats set_file p_file p_metadata set_dirty]. by rewrite E1, E3.
  - cbn. apply Hcl.
  - cbn. apply Hcl.
Qed.
End closing.
