(* ===== verification/BtPages.v ===== *)
(** The pager as an array of pages: along any session of reads, writes, allocations, syncs
    and restarts, with any cache size, the pager behaves as if every page were in memory. *)
From stdpp Require Import base gmap list strings numbers sorting.
From S2P Require Import Prelude GoLib GoState BtVarint BtPage BtWal BtPager BtCache.

Open Scope Z_scope.

(** What a client does with the pager; it writes behind the type byte of a page, and marks
    the page dirty. *)
Inductive page_cmd :=
| PRead (id : Z)
| PWrite (id off : Z) (b : bytes)
| PAlloc (pageType : Z)
| PSetRoot (id : Z)
| PRoot
| PSync
| PReopen (cacheSize : Z).

Definition write_bytes (off : Z) (b : bytes) (pg : Page) : Page := with_data (copy_at off b (pg_data pg)) pg.

(** Without a log nothing is recovered, so nothing is left behind. *)
#[local] Existing Instance no_leftovers.

Section client.
Context {ord : RangeOrder}.

Definition page_exec (p : Pager) (c : page_cmd) : Pager * res bytes :=
  match c with
  | PRead id => (ptr ← GetPage id; gets (λ p, pg_data (deref p ptr))) p
  | PWrite id off b =>
      (ptr ← GetPage id; _ ← modify (upd ptr (write_bytes off b)); _ ← modify (MarkDirty id); mret []) p
  | PAlloc t => (_ ← Pager_NewPage t; mret []) p
  | PSetRoot id => (SetRootPageID id p, Ok [])
  | PRoot => (p, Ok [RootPageID p])
  | PSync => let '(p, r) := Pager_Sync p in (p, _ ← r; Ok [])
  | PReopen cs =>
      match Pager_Close p with
      | (p, Ok _) => match NewPager (Some (p_file p)) cs with Ok p => (p, Ok []) | Err e => (p, Err e) | Panic => (p, Panic) end
      | (p, Err e) => (p, Err e)
      | (p, Panic) => (p, Panic)
      end
  end.

(** The pages in memory, from page 1 on, and the root. *)
Definition pages_exec (st : list bytes * Z) (c : page_cmd) : list bytes * Z * res bytes :=
  let '(pages, root) := st in
  match c with
  | PRead id =>
      match pages !! Z.to_nat (id - 1) with
      | Some d => (st, Ok d)
      | None => (st, Err (Errorf "page ID out of bounds"))
      end
  | PWrite id off b =>
      match pages !! Z.to_nat (id - 1) with
      | Some d => (<[Z.to_nat (id - 1) := copy_at off b d]> pages, root, Ok [])
      | None => (st, Err (Errorf "page ID out of bounds"))
      end
  | PAlloc t => (pages ++ [pg_data (NewPage 0 t)], root, Ok [])
  | PSetRoot id => (pages, id, Ok [])
  | PRoot => (st, Ok [root])
  | PSync => (st, Ok [])
  | PReopen _ => (st, Ok [])
  end.

Fixpoint run_all {S C A} (step : S → C → S * A) (s : S) (cs : list C) : S * list A :=
  match cs with
  | [] => (s, [])
  | c :: cs => let '(s, a) := step s c in let '(s, l) := run_all step s cs in (s, a :: l)
  end.

Definition cmd_ok (c : page_cmd) : Prop :=
  match c with
  | PRead id => 1 ≤ id
  | PWrite id off b => 1 ≤ id ∧ 1 ≤ off ∧ off + len b ≤ PageSize
  | PSetRoot id => 0 ≤ id < 2 ^ 32
  | _ => True
  end.

Record stores_pages (p : Pager) (st : list bytes * Z) : Prop := {
  sp_ok : pager_ok ∅ p;
  sp_num : NumPages p = 1 + len st.1;
  sp_root : RootPageID p = st.2;
  sp_wal : p_wal p = None;
  sp_page : ∀ i d, st.1 !! i = Some d → page_image p (Z.of_nat i + 1) = Some d;
}.

Lemma in_pages p i : 1 ≤ i < NumPages p → in_range p i.
Proof using Type. intros H. split; [done|apply not_elem_of_empty]. Qed.

Lemma sp_image p st i : stores_pages p st → in_range p i → page_image p i = st.1 !! Z.to_nat (i - 1).
Proof using Type.
  intros [H1 H2 H3 _ H4] [[Hi1 Hi2] _]. destruct (lookup_lt_is_Some_2 st.1 (Z.to_nat (i - 1))) as [d Hd]; [unfold len in *; lia|].
  rewrite Hd. specialize (H4 _ _ Hd). by replace (Z.of_nat (Z.to_nat (i - 1)) + 1) with i in H4 by lia.
Qed.

Lemma sp_frame p p' st :
  stores_pages p st → pager_ok ∅ p' → p_metadata p' = p_metadata p → p_wal p' = None → same_images p p' → stores_pages p' st.
Proof using Type.
  intros [H1 H2 H3 H5 H4] Hok Hm Hw Hi. split; [done|unfold NumPages in *; by rewrite Hm|unfold RootPageID in *; by rewrite Hm|done|].
  intros i d Hd. rewrite Hi; [by apply H4|]. apply lookup_lt_Some in Hd. apply in_pages. unfold len in *; lia.
Qed.

(** A page that does not exist is refused. *)
Lemma GetPage_out p id : pager_ok ∅ p → NumPages p ≤ id → GetPage id p = (p, Err (Errorf "page ID out of bounds")).
Proof using Type.
  intros Hok Hid. unfold GetPage. rewrite (ok_open _ _ Hok). destruct (p_cache p !! id) as [q|] eqn:E.
  { destruct (cached_fits _ _ _ _ Hok E) as (_ & _ & _ & [? ?]). lia. }
  unfold readPage. destruct (Z.leb_spec (NumPages p) id); [done|lia].
Qed.

Lemma image_cached p id ptr : p_cache p !! id = Some ptr → page_image p id = Some (pg_data (deref p ptr)).
Proof using Type. intros H. unfold page_image. by rewrite H. Qed.

Lemma read_sim p st id :
  stores_pages p st → 1 ≤ id →
  let '(p', r) := page_exec p (PRead id) in
  let '(st', r') := pages_exec st (PRead id) in r = r' ∧ stores_pages p' st'.
Proof using Type.
  intros Hst Hid. pose proof (sp_ok _ _ Hst) as Hok. pose proof (sp_num _ _ Hst) as Hn. destruct st as [pages root].
  cbn [page_exec pages_exec]. destruct (decide (id < NumPages p)) as [Hlt|Hge].
  - assert (Hr : in_range p id) by by apply in_pages. destruct (GetPage_ok p id Hok Hr) as (p' & ptr & E & A1 & A2 & A3 & [A4 _ Aw] & _).
    go_step E. unfold gets. pose proof (sp_image p _ id Hst Hr) as Himg. cbn [fst] in Himg.
    pose proof (image_cached p' id ptr A2) as Hc. rewrite A3, Himg in Hc by done. rewrite Hc.
    split; [done|]. eapply sp_frame; [done|done|done|by rewrite Aw, (sp_wal _ _ Hst)|done].
  - rewrite (M_bind_Err _ _ _ _ _ (GetPage_out p id Hok ltac:(lia))). rewrite lookup_ge_None_2; [done|].
    cbn [fst] in Hn. unfold len in Hn. lia.
Qed.

Lemma write_sim p st id off b :
  stores_pages p st → 1 ≤ id → 1 ≤ off → off + len b ≤ PageSize →
  let '(p', r) := page_exec p (PWrite id off b) in
  let '(st', r') := pages_exec st (PWrite id off b) in r = r' ∧ stores_pages p' st'.
Proof using Type.
  intros Hst Hid Hoff Hb. pose proof (sp_ok _ _ Hst) as Hok. pose proof (sp_num _ _ Hst) as Hn. destruct st as [pages root].
  cbn [page_exec pages_exec]. destruct (decide (id < NumPages p)) as [Hlt|Hge].
  2:{ rewrite (M_bind_Err _ _ _ _ _ (GetPage_out p id Hok ltac:(lia))). rewrite lookup_ge_None_2; [done|].
      cbn [fst] in Hn. unfold len in Hn. lia. }
  assert (Hr : in_range p id) by by apply in_pages. destruct (GetPage_ok p id Hok Hr) as (p' & ptr & E & A1 & A2 & A3 & [A4 _ Aw] & _).
  go_step E. go_modify. go_modify. pose proof (sp_image p _ id Hst Hr) as Himg. cbn [fst] in Himg.
  pose proof (image_cached p' id ptr A2) as Hc. rewrite A3, Himg in Hc by done. rewrite Hc.
  destruct (cached_fits _ _ _ _ A1 A2) as (Hs & Hpid & [Hl H0] & Hr').
  destruct (upd_ok ∅ p' id ptr (write_bytes off b) A1 A2) as (B1 & B2 & B3 & B4 & B5 & [B6 _ Bw] & B7 & B8 & _).
  - unfold write_bytes. split; cbn [pg_data with_data pg_pageType].
    + by rewrite len_copy_at.
    + destruct (copy_at_outside off b (pg_data (deref p' ptr))) as [_ Ho]; [lia|lia|]. rewrite Ho by lia. done.
  - done.
  - rewrite <-B8 in A2. destruct (MarkDirty_ok _ _ id ptr B1 A2) as (C1 & C2 & C3 & _ & _ & _ & _ & _ & Cw & _).
    split; [done|]. assert (Hi : (Z.to_nat (id - 1) < length pages)%nat) by (by eapply lookup_lt_Some).
    split; cbn [fst snd].
    + by replace (({[id]} ∪ ∅) ∖ {[id]}) with (∅ : gset Z) in C1 by set_solver.
    + unfold NumPages in *. rewrite C3, B6, A4, Hn. unfold len. cbn [fst]. by rewrite length_insert.
    + unfold RootPageID. rewrite C3, B6, A4. apply (sp_root _ _ Hst).
    + by rewrite Cw, Bw, Aw, (sp_wal _ _ Hst).
    + intros i d Hd. rewrite C2. apply list_lookup_insert_Some in Hd as [(<- & <- & _)|[Hne Hd]].
      * replace (Z.of_nat (Z.to_nat (id - 1)) + 1) with id by lia. rewrite B4. unfold write_bytes. cbn [pg_data with_data].
        done.
      * apply lookup_lt_Some in Hd as Hlt'. rewrite B5 by lia. rewrite A3; [by apply (sp_page _ _ Hst)|]. cbn [fst] in Hn. unfold len in Hn.
        apply in_pages. lia.
Qed.

Lemma alloc_sim p st t :
  stores_pages p st → NumPages p + 1 < 2 ^ 32 →
  let '(p', r) := page_exec p (PAlloc t) in
  let '(st', r') := pages_exec st (PAlloc t) in r = r' ∧ stores_pages p' st'.
Proof using Type.
  intros Hst Hmax. pose proof (sp_ok _ _ Hst) as Hok. pose proof (sp_num _ _ Hst) as Hn. destruct st as [pages root].
  cbn [fst] in Hn. pose proof (len_nonneg pages). cbn [page_exec pages_exec].
  destruct (NewPage_ok p t Hok Hmax) as (p' & ptr & E & _ & A2 & A3 & A4 & A5 & A6 & _ & Aw & _ & _ & _ & A1); [lia|].
  go_step E. split; [done|]. assert (Hw : p_wal p' = None) by by rewrite Aw, (sp_wal _ _ Hst).
  split; cbn [fst snd].
  - by apply A1, (sp_wal _ _ Hst).
  - rewrite A5, Hn, len_app. unfold len. simpl. lia.
  - rewrite A6. apply (sp_root _ _ Hst).
  - done.
  - intros i d Hd. apply lookup_app_Some in Hd as [Hd|[Hi Hd]].
    + rewrite A4; [by apply (sp_page _ _ Hst)|]. apply lookup_lt_Some in Hd. unfold len in Hn. apply in_pages. lia.
    + apply list_lookup_singleton_Some in Hd as [Hi' <-]. unfold len in Hn. replace (Z.of_nat i + 1) with (NumPages p) by lia.
      rewrite (image_cached _ _ _ A2), A3. done.
Qed.

Lemma reopen_sim p st cs :
  stores_pages p st →
  let '(p', r) := page_exec p (PReopen cs) in r = Ok [] ∧ stores_pages p' st.
Proof using Type.
  intros Hst. pose proof (sp_ok _ _ Hst) as Hok. cbn [page_exec].
  destruct (Close_ok p Hok) as (p1 & ps & -> & Es & Ef & _ & Em & _). destruct (Pager_Sync_ok p Hok) as (ps' & Es' & A1 & A2 & A3 & _ & _ & _ & A4 & _).
  rewrite Es in Es'. injection Es' as <-. rewrite Ef.
  destruct (loadPager_ok ps cs A1 A4) as (p2 & -> & B1 & B2 & B3 & _ & Bw & _). split; [done|].
  eapply sp_frame; [exact Hst|exact B1|by rewrite B3, (pf_metadata _ _ A3)|done|].
  intros i Hi. rewrite B2, A2 by (done || unfold in_range, NumPages in *; by rewrite (pf_metadata _ _ A3)). done.
Qed.

Lemma page_cmd_sim p st c :
  stores_pages p st → cmd_ok c → NumPages p + 1 < 2 ^ 32 →
  let '(p', r) := page_exec p c in
  let '(st', r') := pages_exec st c in r = r' ∧ stores_pages p' st'.
Proof using Type.
  intros Hst Hc Hmax. destruct c as [id|id off b|t|id| | |cs].
  - by apply read_sim.
  - destruct Hc as (? & ? & ?). by apply write_sim.
  - by apply alloc_sim.
  - destruct st as [pages root]. cbn [page_exec pages_exec]. split; [done|].
    destruct (SetRootPageID_ok ∅ p id (sp_ok _ _ Hst) Hc) as (A1 & A2 & A3 & A4 & _). split; [done| |done|apply (sp_wal _ _ Hst)|].
    + rewrite A4. apply (sp_num _ _ Hst).
    + intros i d Hd. rewrite A2; [by apply (sp_page _ _ Hst)|]. apply lookup_lt_Some in Hd. pose proof (sp_num _ _ Hst) as Hn. unfold len in Hn. cbn [fst] in *. apply in_pages. lia.
  - destruct st as [pages root]. cbn [page_exec pages_exec]. by rewrite (sp_root _ _ Hst).
  - destruct st as [pages root]. cbn [page_exec pages_exec].
    destruct (Pager_Sync_ok p (sp_ok _ _ Hst)) as (p' & -> & A1 & A2 & [A3 _ Aw] & _). split; [done|].
    eapply sp_frame; [done|done|done|by rewrite Aw, (sp_wal _ _ Hst)|done].
  - destruct st as [pages root]. pose proof (reopen_sim p _ cs Hst) as H. cbn [pages_exec]. by destruct (page_exec p (PReopen cs)).
Qed.

Lemma pages_len st c : len (pages_exec st c).1.1 ≤ len st.1 + 1.
Proof using Type.
  destruct st as [pages root], c; cbn [pages_exec fst snd]; try lia.
  - destruct (pages !! _); simpl; lia.
  - destruct (pages !! _); simpl; [|lia]. unfold len. rewrite length_insert. lia.
  - rewrite len_app. unfold len. simpl. lia.
Qed.

Lemma pages_run p st cmds :
  stores_pages p st → Forall cmd_ok cmds → len st.1 + len cmds + 2 < 2 ^ 32 →
  (run_all page_exec p cmds).2 = (run_all pages_exec st cmds).2 ∧
  stores_pages (run_all page_exec p cmds).1 (run_all pages_exec st cmds).1.
Proof using Type.
  revert p st. induction cmds as [|c cmds IH]; intros p st Hst Hc Hmax; [done|]. apply Forall_cons in Hc as [Hc Hcs].
  rewrite len_cons in Hmax. pose proof (len_nonneg cmds). cbn [run_all].
  pose proof (page_cmd_sim p st c Hst Hc) as H1. pose proof (pages_len st c) as Hl.
  rewrite (sp_num _ _ Hst) in H1. specialize (H1 ltac:(lia)).
  destruct (page_exec p c) as [p1 r], (pages_exec st c) as [st1 r']. destruct H1 as [-> H1]. cbn [fst] in Hl.
  destruct (IH p1 st1 H1 Hcs ltac:(lia)) as [E H2].
  destruct (run_all page_exec p1 cmds), (run_all pages_exec st1 cmds). cbn [fst snd] in *. by rewrite E.
Qed.
End client.

(** C8: with any cache size, a new database file behaves as an array of pages in memory that
    starts with one empty leaf: along any session of reads, writes behind the type byte,
    allocations, changes of the root, syncs and restarts (with other cache sizes), every
    answer is that of the array, a page that does not exist is refused, and the cache never
    holds more pages than its size (or one). *)
Theorem pager_refines_pages (O : RangeOrder) cacheSize cmds
    (Hc : Forall cmd_ok cmds) (Hmax : len cmds < 2 ^ 31) :
  let '(p, answers) := run_all page_exec (createPager cacheSize) cmds in
  let '((pages, root), answers') := run_all pages_exec ([pg_data (NewPage 1 PageTypeLeaf)], 1) cmds in
  answers = answers' ∧ NumPages p = 1 + len pages ∧ RootPageID p = root ∧
  (∀ i, 1 ≤ i < NumPages p → page_image p i = pages !! Z.to_nat (i - 1)) ∧
  Z.of_nat (size (p_cache p)) ≤ Z.max 1 (p_cacheSize p).
Proof.
  destruct (createPager_ok cacheSize) as (A1 & A2 & A3 & _).
  destruct (pages_run (createPager cacheSize) ([pg_data (NewPage 1 PageTypeLeaf)], 1) cmds) as [E H]; [|done|unfold len in *; cbn [fst length]; lia|].
  - split; [done|by unfold NumPages; rewrite A3|by unfold RootPageID; rewrite A3|done|].
    intros i d Hd. apply list_lookup_singleton_Some in Hd as [-> <-]. exact A2.
  - destruct (run_all page_exec _ cmds) as [p l], (run_all pages_exec _ cmds) as [[pages root] l']. cbn [fst snd] in *.
    split_and!; [done|apply H|apply H|intros i Hi; apply (sp_image p _ i H); by apply in_pages|by apply (cache_size ∅), H].
Qed.

Definition demo_cmds : list page_cmd :=
  [PAlloc PageTypeInternal; PWrite 2 100 [7; 8]; PWrite 1 200 [9]; PRead 2; PReopen 3; PRead 1; PRead 9; PRoot].

Lemma pager_refines_pages_witness :
  Forall cmd_ok demo_cmds ∧
  (run_all page_exec (createPager 1) demo_cmds).2 =
    (run_all pages_exec ([pg_data (NewPage 1 PageTypeLeaf)], 1) demo_cmds).2.
Proof.
  assert (Forall cmd_ok demo_cmds) as Hc by (repeat constructor; done).
  split; [done|]. pose proof (pager_refines_pages elements_order 1 demo_cmds Hc eq_refl) as H. revert H.
  destruct (run_all page_exec (createPager 1) demo_cmds) as [p l].
  destruct (run_all pages_exec ([pg_data (NewPage 1 PageTypeLeaf)], 1) demo_cmds) as [[pages root] l'].
  intros [E _]. exact E.
Defined.
