(* ===== verification/BtSplit.v ===== *)
(** Insertion with splits ([src/btree/split.go]): a full page is split into two, the new
    separator goes to the parent, and a split of the root makes a new root. *)
From stdpp Require Import base gmap list strings numbers sorting.
From S2P Require Import Prelude GoLib GoState BtVarint BtPage BtNode BtWal BtPager.

Open Scope Z_scope.

(** A method call on the page object at a pointer. *)
Definition on_page {A} (ptr : page_ptr) (f : Page → Page * res A) : M Pager A := λ p,
  let '(pg, r) := f (deref p ptr) in (upd ptr (λ _, pg) p, r).

(** A pure change, and a read, of the object. *)
Definition change_page (ptr : page_ptr) (f : Page → Page) : M Pager () := modify (upd ptr f).
Definition read_page {A} (ptr : page_ptr) (f : Page → A) : M Pager A := gets (λ p, f (deref p ptr)).

Record SplitResult := MkSplit {
  sr_SplitKey : bytes;
  sr_NewPageID : Z;
  sr_LeftPageID : Z;
}.

(** [for i := 0; i < numCells; i++ { cell := page.CellAt(i); cells = append(cells, cell) }],
    [n] rounds from [i] on. *)
Fixpoint collect_cells (n : nat) (page : Page) (i : Z) : res (list Cell) :=
  match n with
  | O => Ok []
  | S n =>
      cell ← CellAt page i;
      cells ← collect_cells n page (i + 1);
      Ok (CopyCell cell :: cells)
  end.

Definition all_cells (page : Page) : res (list Cell) := collect_cells (Z.to_nat (NumCells page)) page 0.

(** The position of the first cell above the key. *)
Fixpoint insert_pos (key : bytes) (cells : list Cell) : nat :=
  match cells with
  | [] => 0
  | cell :: cells => if bytes_ltb key (c_Key cell) then 0 else S (insert_pos key cells)
  end.

Definition add_cell (c : Cell) (cells : list Cell) : list Cell :=
  let pos := insert_pos (c_Key c) cells in take pos cells ++ c :: drop pos cells.

Definition insert_cells (ptr : page_ptr) (cells : list Cell) : M Pager () :=
  for_each (λ c, on_page ptr (λ pg, InsertCell pg c)) cells.

Definition clear_page (page : Page) : Page := setFreePtr PageSize (setNumCells 0 page).

Definition splitLeaf (page : page_ptr) (key value : bytes) : M Pager SplitResult :=
  cells ← (r ← read_page page all_cells; lift r);
  let cells := add_cell (MkCell key value 0) cells in
  let midpoint := (length cells / 2)%nat in
  newPage ← Pager_NewPage PageTypeLeaf;
  _ ← change_page page clear_page;
  _ ← insert_cells page (take midpoint cells);
  _ ← insert_cells newPage (drop midpoint cells);
  oldRightPtr ← read_page page RightPtr;
  newID ← read_page newPage pg_id;
  _ ← change_page page (SetRightPtr newID);
  _ ← change_page newPage (SetRightPtr oldRightPtr);
  pageID ← read_page page pg_id;
  _ ← modify (MarkDirty pageID);
  _ ← modify (MarkDirty newID);
  separatorCell ← (r ← read_page newPage (λ pg, CellAt pg 0); lift r);
  mret (MkSplit (c_Key separatorCell) newID pageID).

(** The code reads [cells[midpoint]], which exists since the new cell is in the list. *)
Definition splitInternal (page : page_ptr) (key : bytes) (childPageID : Z) : M Pager SplitResult :=
  cells ← (r ← read_page page all_cells; lift r);
  let cells := add_cell (MkCell key [] childPageID) cells in
  let midpoint := (length cells / 2)%nat in
  middleCell ← lift (match cells !! midpoint with Some c => Ok c | None => Panic end);
  newPage ← Pager_NewPage PageTypeInternal;
  oldRightPtr ← read_page page RightPtr;
  _ ← change_page page clear_page;
  _ ← insert_cells page (take midpoint cells);
  _ ← change_page page (SetRightPtr (c_Child middleCell));
  _ ← insert_cells newPage (drop (S midpoint) cells);
  _ ← change_page newPage (SetRightPtr oldRightPtr);
  pageID ← read_page page pg_id;
  newID ← read_page newPage pg_id;
  _ ← modify (MarkDirty pageID);
  _ ← modify (MarkDirty newID);
  mret (MkSplit (c_Key middleCell) newID pageID).

(** [InsertCell] with its error at hand: [true] when the page is full. *)
Definition try_insert (page : page_ptr) (cell : Cell) : M Pager bool :=
  r ← try_ (on_page page (λ pg, InsertCell pg cell));
  match r with
  | Ok _ => mret false
  | Err ErrPageFull => mret true
  | Err e => throw e
  | Panic => lift Panic
  end.

(** The result of an insertion: the separator and the new page when the page was split.
    The recursion goes down one level at a time; a tree with a cycle would overflow the
    stack, which the model reports as a panic when the fuel is used up. *)
Fixpoint insertAndSplit (fuel : nat) (pageID : Z) (key value : bytes) : M Pager (option (bytes * Z)) :=
  match fuel with
  | O => lift Panic
  | S fuel =>
      page ← GetPage pageID;
      leaf ← read_page page IsLeaf;
      if leaf : bool then
        full ← try_insert page (MkCell key value 0);
        if full : bool then
          result ← splitLeaf page key value;
          mret (Some (sr_SplitKey result, sr_NewPageID result))
        else
          id ← read_page page pg_id;
          _ ← modify (MarkDirty id);
          mret None
      else
        childPageID ← (r ← read_page page (λ pg, GetChildPageID pg key); lift r);
        split ← insertAndSplit fuel childPageID key value;
        match split with
        | None => mret None
        | Some (splitKey, newPageID) =>
            full ← try_insert page (MkCell splitKey [] newPageID);
            if full : bool then
              result ← splitInternal page splitKey newPageID;
              mret (Some (sr_SplitKey result, sr_NewPageID result))
            else
              id ← read_page page pg_id;
              _ ← modify (MarkDirty id);
              mret None
        end
  end.

Definition handleRootSplit (oldRootID : Z) (splitKey : bytes) (newPageID : Z) : M Pager () :=
  newRoot ← Pager_NewPage PageTypeInternal;
  _ ← on_page newRoot (λ pg, InsertCell pg (MkCell splitKey [] newPageID));
  _ ← change_page newRoot (SetRightPtr oldRootID);
  id ← read_page newRoot pg_id;
  _ ← modify (MarkDirty id);
  modify (SetRootPageID id).
