(* ===== verification/BtMerge.v ===== *)
(** Rebalancing after a delete ([src/btree/merge.go]): redistribution between siblings and
    merging of leaves.  Internal pages are never merged. *)
From stdpp Require Import base gmap list strings numbers sorting.
From S2P Require Import Prelude GoLib GoState BtVarint BtPage BtNode BtWal BtPager BtSplit.

Open Scope Z_scope.

(** [MinFillFactor] is a quarter. *)
Definition MaxCellsPerPage : Z := 25.
Definition MinFillFactor (n : Z) : Z := n / 4.
Definition minCells : Z := u16 (MinFillFactor MaxCellsPerPage).

Definition shouldMerge (p : Pager) (page : page_ptr) : bool :=
  let pg := deref p page in
  if pg_id pg =? RootPageID p then false
  else if minCells <=? NumCells pg then false
  else true.

(** [cell, _ := page.CellAt(i)], used: the error is dropped and a missing cell is a nil
    dereference. *)
Definition cell_or_panic (page : page_ptr) (i : Z) : M Pager Cell :=
  r ← read_page page (λ pg, CellAt pg i);
  match r with
  | Ok c => mret c
  | _ => lift Panic
  end.

(** The index of the cell that leads to the child, [-1] when there is none: [n] rounds
    from [i] on. *)
Fixpoint child_index (n : nat) (page : Page) (childID i : Z) : res Z :=
  match n with
  | O => Ok (-1)
  | S n =>
      match CellAt page i with
      | Ok cell => if c_Child cell =? childID then Ok i else child_index n page childID (i + 1)
      | _ => Panic
      end
  end.

(** The way from the root to the page: the parent and the index in it of each page after the
    first.  A tree with a cycle would be walked for ever. *)
Fixpoint find_path (fuel : nat) (pageID : Z) (searchKey : bytes) (currentID : Z) (path : list (Z * Z))
    : M Pager (list (Z * Z)) :=
  match fuel with
  | O => lift Panic
  | S fuel =>
      if currentID =? pageID then mret path
      else
        current ← GetPage currentID;
        leaf ← read_page current IsLeaf;
        if leaf : bool then throw (Errorf "target page not found in tree")
        else
          childID ← (r ← read_page current (λ pg, GetChildPageID pg searchKey); lift r);
          childIdx ← (r ← read_page current (λ pg, child_index (Z.to_nat (NumCells pg)) pg childID 0); lift r);
          find_path fuel pageID searchKey childID (path ++ [(childID, childIdx)])
  end.

Definition findSibling (fuel : nat) (pageID : Z) (searchKey : bytes) : M Pager (Z * Z * Z) :=
  rootID ← gets RootPageID;
  path ← find_path fuel pageID searchKey rootID [(rootID, -1)];
  match reverse path with
  | (_, childIdx) :: (parentID, _) :: _ =>
      parent ← GetPage parentID;
      numCells ← read_page parent NumCells;
      if 0 <? childIdx then
        cell ← cell_or_panic parent (u16 (childIdx - 1));
        mret (parentID, c_Child cell, u16 (childIdx - 1))
      else if childIdx <? numCells - 1 then
        cell ← cell_or_panic parent (u16 (childIdx + 1));
        mret (parentID, c_Child cell, u16 childIdx)
      else if (childIdx =? -1) && (0 <? numCells) then
        cell ← cell_or_panic parent (u16 (numCells - 1));
        mret (parentID, c_Child cell, u16 (numCells - 1))
      else throw (Errorf "no sibling found")
  | _ => throw (Errorf "no parent found")
  end.

Definition canRedistribute (page sibling : Page) : bool :=
  let siblingCells := NumCells sibling in
  let pageCells := NumCells page in
  let totalCells := u16 (siblingCells + pageCells) in
  if totalCells <? u16 (minCells * 2) then false else minCells <? siblingCells.

(** [for i := 0; i < n; i++ { cell, _ := page.CellAt(i); append(CopyCell(cell)) }]. *)
Fixpoint copy_cells (n : nat) (page : page_ptr) (i : Z) : M Pager (list Cell) :=
  match n with
  | O => mret []
  | S n =>
      cell ← cell_or_panic page i;
      cells ← copy_cells n page (i + 1);
      mret (CopyCell cell :: cells)
  end.

(** The cells of both leaves, the leaf with the smaller first key first. *)
Definition both_cells (page sibling : page_ptr) : M Pager (list Cell) :=
  pageCells ← read_page page NumCells;
  siblingCells ← read_page sibling NumCells;
  pageFirstCell ← cell_or_panic page 0;
  siblingFirstCell ← cell_or_panic sibling 0;
  let '(first, n1, second, n2) :=
    if bytes_ltb (c_Key pageFirstCell) (c_Key siblingFirstCell)
    then (page, pageCells, sibling, siblingCells) else (sibling, siblingCells, page, pageCells) in
  a ← copy_cells (Z.to_nat n1) first 0;
  b ← copy_cells (Z.to_nat n2) second 0;
  mret (a ++ b).

(** [page.InsertCell(cell)] with the result dropped. *)
Definition insert_ignoring (page : page_ptr) (cell : Cell) : M Pager () :=
  _ ← try_ (on_page page (λ pg, InsertCell pg cell)); mret tt.

(** The new separator is stored in a local copy of the cell ([separatorCell.Key = ...]), not
    in the parent; the reads are kept for their failures. *)
Definition redistributeLeaf (parent page sibling : page_ptr) (separatorIdx targetCells : Z) : M Pager () :=
  separatorCell ← read_page parent (λ pg, CellAt pg separatorIdx);
  allCells ← both_cells page sibling;
  _ ← change_page page clear_page;
  _ ← change_page sibling clear_page;
  _ ← for_each (insert_ignoring page) (take (Z.to_nat targetCells) allCells);
  _ ← for_each (insert_ignoring sibling) (drop (Z.to_nat targetCells) allCells);
  newSeparatorCell ← cell_or_panic sibling 0;
  _ ← (match separatorCell with Ok _ => mret tt | _ => lift Panic end);
  pageID ← read_page page pg_id;
  siblingID ← read_page sibling pg_id;
  parentID ← read_page parent pg_id;
  _ ← modify (MarkDirty pageID);
  _ ← modify (MarkDirty siblingID);
  modify (MarkDirty parentID).

Definition mergeLeafPages (parent page sibling : page_ptr) (separatorIdx : Z) : M Pager () :=
  allCells ← both_cells page sibling;
  _ ← change_page page clear_page;
  _ ← for_each (insert_ignoring page) allCells;
  siblingRight ← read_page sibling RightPtr;
  _ ← change_page page (SetRightPtr siblingRight);
  _ ← on_page parent (λ pg, DeleteCell pg separatorIdx);
  siblingID ← read_page sibling pg_id;
  _ ← modify (FreePage siblingID);
  pageID ← read_page page pg_id;
  parentID ← read_page parent pg_id;
  _ ← modify (MarkDirty pageID);
  modify (MarkDirty parentID).

(** Internal pages are left as they are. *)
Definition mergeInternalPages (parent page sibling : page_ptr) (separatorIdx : Z) : M Pager () := mret tt.

Definition mergePage (parent page sibling : page_ptr) (separatorIdx : Z) : M Pager () :=
  leaf ← read_page page IsLeaf;
  if leaf : bool then mergeLeafPages parent page sibling separatorIdx
  else mergeInternalPages parent page sibling separatorIdx.

Definition redistributeInternal (parent page sibling : page_ptr) (separatorIdx targetCells : Z) : M Pager () :=
  mergePage parent page sibling separatorIdx.

Definition redistribute (parent page sibling : page_ptr) (separatorIdx : Z) : M Pager () :=
  pageCells ← read_page page NumCells;
  siblingCells ← read_page sibling NumCells;
  let targetCells := u16 (pageCells + siblingCells) / 2 in
  leaf ← read_page page IsLeaf;
  if leaf : bool then redistributeLeaf parent page sibling separatorIdx targetCells
  else redistributeInternal parent page sibling separatorIdx targetCells.

Definition mergeOrRedistribute (fuel : nat) (pageID : Z) (key : bytes) : M Pager bool :=
  page ← GetPage pageID;
  merge ← gets (λ p, shouldMerge p page);
  if negb merge then mret false
  else
    r ← try_ (findSibling fuel pageID key);
    match r with
    | Ok (parentID, siblingID, separatorIdx) =>
        parent ← GetPage parentID;
        sibling ← GetPage siblingID;
        can ← gets (λ p, canRedistribute (deref p page) (deref p sibling));
        _ ← (if can : bool then redistribute parent page sibling separatorIdx
             else mergePage parent page sibling separatorIdx);
        mret true
    | _ => mret false
    end.
