(* ===== verification/BtTree.v ===== *)
(** The B-tree engine ([src/btree/btree.go]): opening with recovery from the log, reads,
    writes, deletes, syncing and closing, over the pager and the log. *)
From stdpp Require Import base gmap list strings numbers sorting.
From S2P Require Import Prelude GoLib GoState Common BtVarint BtPage BtNode BtWal BtPager BtSplit BtMerge.

Open Scope Z_scope.

Record BConfig := MkBConfig {
  cf_DataDir : string;
  cf_Order : Z;
  cf_CacheSize : Z;
}.

Definition DefaultConfig (dataDir : string) : BConfig := MkBConfig (dataDir +:+ "/btree.db") 128 50000.

(** [b.wal] is the log the pager points to, kept in [p_wal]; the latch manager is only used
    by the concurrent variants. *)
Record BTree := MkBTree {
  b_config : BConfig;
  b_pager : Pager;
  b_numKeys : Z;
  b_writeCount : Z;
  b_readCount : Z;
  b_userBytesWritten : Z;
  b_closed : bool;
}.

Definition set_pager (p : Pager) (b : BTree) : BTree :=
  MkBTree (b_config b) p (b_numKeys b) (b_writeCount b) (b_readCount b) (b_userBytesWritten b) (b_closed b).
Definition add_keys (n : Z) (b : BTree) : BTree :=
  MkBTree (b_config b) (b_pager b) (b_numKeys b + n) (b_writeCount b) (b_readCount b) (b_userBytesWritten b) (b_closed b).
Definition count_user_write (n : Z) (b : BTree) : BTree :=
  MkBTree (b_config b) (b_pager b) (b_numKeys b) (b_writeCount b + 1) (b_readCount b) (b_userBytesWritten b + n) (b_closed b).
Definition count_user_read (b : BTree) : BTree :=
  MkBTree (b_config b) (b_pager b) (b_numKeys b) (b_writeCount b) (b_readCount b + 1) (b_userBytesWritten b) (b_closed b).
Definition set_bclosed (c : bool) (b : BTree) : BTree :=
  MkBTree (b_config b) (b_pager b) (b_numKeys b) (b_writeCount b) (b_readCount b) (b_userBytesWritten b) c.

(** A method of the pager, and of the log. *)
Definition pager {A} (m : M Pager A) : M BTree A := zoom b_pager set_pager m.
Definition on_wal (f : BWAL → BWAL) : M BTree () := modify (λ b, set_pager (set_wal (f <$> p_wal (b_pager b)) (b_pager b)) b).

(** A path from the root visits no page twice, so the number of pages bounds its length. *)
Definition depth_fuel (p : Pager) : nat := S (Z.to_nat (NumPages p)).

(** ** Reading *)

(** The descent of [Get] and [Delete] from a page to the leaf for the key. *)
Fixpoint find_leaf (fuel : nat) (pageID : Z) (key : bytes) : M Pager page_ptr :=
  match fuel with
  | O => lift Panic
  | S fuel =>
      page ← GetPage pageID;
      leaf ← read_page page IsLeaf;
      if leaf : bool then mret page
      else
        child ← (r ← read_page page (λ pg, findChild pg key); lift r);
        find_leaf fuel child key
  end.

Definition leaf_for (key : bytes) : M Pager page_ptr :=
  rootID ← gets RootPageID;
  fuel ← gets depth_fuel;
  find_leaf fuel rootID key.

Definition BTree_Get (key : bytes) : M BTree bytes :=
  if len key =? 0 then throw ErrKeyEmpty
  else
    closed ← gets b_closed;
    if closed : bool then throw ErrClosed
    else
      _ ← modify count_user_read;
      page ← pager (leaf_for key);
      r ← pager (read_page page (λ pg, searchLeaf pg key));
      lift r.

(** ** Writing *)

Definition put_pages (key value : bytes) : M Pager () :=
  rootPageID ← gets RootPageID;
  fuel ← gets depth_fuel;
  split ← insertAndSplit fuel rootPageID key value;
  match split with
  | Some (splitKey, newPageID) => handleRootSplit rootPageID splitKey newPageID
  | None => mret tt
  end.

Definition BTree_Put (key value : bytes) : M BTree () :=
  if len key =? 0 then throw ErrKeyEmpty
  else
    closed ← gets b_closed;
    if closed : bool then throw ErrClosed
    else
      _ ← modify (count_user_write (len key + len value));
      _ ← pager (put_pages key value);
      modify (add_keys 1).

(** [deleteFromLeaf]; the result of the rebalancing is dropped. *)
Definition deleteFromLeaf (page : page_ptr) (key : bytes) : M BTree () :=
  _ ← pager (on_page page (λ pg, deleteCellFromLeaf pg key));
  id ← pager (read_page page pg_id);
  _ ← pager (modify (MarkDirty id));
  _ ← modify (add_keys (-1));
  fuel ← gets (λ b, depth_fuel (b_pager b));
  _ ← try_ (pager (mergeOrRedistribute fuel id key));
  mret tt.

Definition BTree_Delete (key : bytes) : M BTree () :=
  if len key =? 0 then throw ErrKeyEmpty
  else
    closed ← gets b_closed;
    if closed : bool then throw ErrClosed
    else
      page ← pager (leaf_for key);
      deleteFromLeaf page key.

(** ** Recovery *)

(** The blank page for a record whose page cannot be read is put in the cache, and in no
    other structure; its type stays a leaf whatever the record says. *)
Definition blank_page (pageID : Z) : M Pager page_ptr := λ p,
  let '(page, p) := alloc (NewPage pageID PageTypeLeaf) p in
  (set_cache (<[pageID := page]> (p_cache p)) p, Ok page).

(** The sum of offset and length is a [uint32]; the slice and the copy that follow it are
    inside the page unless the sum wraps. *)
Definition apply_record (page : page_ptr) (record : WALRecord) : M Pager () :=
  if u32 (r_Offset record + r_Length record) <=? PageSize then
    if (u32 (r_Offset record + r_Length record) <? r_Offset record) then lift Panic
    else
      _ ← change_page page (λ pg, with_data (copy_at (r_Offset record) (take (Z.to_nat (r_Length record)) (r_Data record)) (pg_data pg)) pg);
      _ ← change_page page (SetDirty true);
      modify (λ p, set_dirty ({[r_PageID record]} ∪ p_dirty p) p)
  else mret tt.

(** The log is detached from the pager while a record is applied. *)
Definition replay_record (record : WALRecord) : M Pager () :=
  if r_Type record =? WALRecordPageWrite then
    oldWAL ← gets p_wal;
    _ ← modify (set_wal None);
    r ← try_ (GetPage (r_PageID record));
    page ← (match r with Ok page => mret page | _ => blank_page (r_PageID record) end);
    _ ← apply_record page record;
    modify (set_wal oldWAL)
  else mret tt.

(** The largest key of the cache, if above the count. *)
Definition maxPageID (p : Pager) : Z :=
  map_fold (λ (pageID : Z) (_ : page_ptr) (m : Z), if m <? pageID then pageID else m) (NumPages p) (p_cache p).

Definition set_num_pages (n : Z) (p : Pager) : Pager :=
  let m := p_metadata p in set_metadata (MkMeta (md_Magic m) (md_RootPageID m) n (md_FreeListPtr m)) p.

Section engine.
Context `{!RangeOrder}.

Definition recover_pages (records : list WALRecord) : M Pager () :=
  _ ← for_each replay_record records;
  _ ← modify (λ p, set_num_pages (u32 (maxPageID p + 1)) p);
  r ← (λ p, let '(p, r) := Pager_Sync p in (p, Ok r));
  match r with
  | Ok _ => modify (λ p, set_wal (BWAL_Truncate <$> p_wal p) p)
  | Err _ => throw (Errorf "failed to flush recovered pages")
  | Panic => lift Panic
  end.

Definition recoverFromWAL : M BTree () :=
  w ← gets (λ b, p_wal (b_pager b));
  match BWAL_ReadAll <$> w with
  | Some (records, Ok _) => if len records =? 0 then mret tt else pager (recover_pages records)
  | Some (_, Err _) => throw (Errorf "failed to read WAL")
  | Some (_, Panic) => lift Panic
  | None => lift Panic
  end.

(** [New] on the files of the directory: the database file, absent or with its content, and
    the log, empty when absent. *)
Definition BTree_New (config : BConfig) (db : option bytes) (log : bytes) : res BTree :=
  p ← NewPager db (cf_CacheSize config);
  w ← BNewWAL log;
  let b := MkBTree config (SetWAL (Some w) p) 0 0 0 0 false in
  match recoverFromWAL b with
  | (b, Ok _) => Ok b
  | (_, Err e) => Err e
  | (_, Panic) => Panic
  end.

(** ** Sync and Close *)

Definition sync_pages : M BTree () :=
  r ← try_ (pager (λ p, Pager_Sync p));
  match r with
  | Ok _ => mret tt
  | _ => throw (Errorf "failed to sync pager")
  end.

Definition BTree_Close : M BTree () :=
  closed ← gets b_closed;
  _ ← modify (set_bclosed true);
  if closed : bool then mret tt
  else
    _ ← on_wal BWAL_Sync;
    _ ← sync_pages;
    _ ← on_wal LogCheckpoint;
    pager (λ p, Pager_Close p).

Definition BTree_Sync : M BTree () :=
  closed ← gets b_closed;
  if closed : bool then throw ErrClosed
  else
    _ ← on_wal BWAL_Sync;
    _ ← sync_pages;
    _ ← on_wal LogCheckpoint;
    _ ← on_wal BWAL_Sync;
    on_wal BWAL_Truncate.
End engine.

(** [Stats]; each amplification is the fraction whose [float64] quotient is reported, and 1
    before the first write. *)
Definition BTree_Stats (b : BTree) : Stats :=
  let numPages := NumPages (b_pager b) in
  let totalDiskSize := numPages * PageSize in
  let userBytes := b_userBytesWritten b in
  let logicalSize := if userBytes =? 0 then 1 else userBytes in
  let writeAmp := if 0 <? userBytes then (ps_bytesWritten (p_stats (b_pager b)), userBytes) else (1, 1) in
  MkStats (b_numKeys b) numPages 0 totalDiskSize (b_writeCount b) (b_readCount b) 0 writeAmp (totalDiskSize, logicalSize).

Definition BTree_Compact : M BTree () := mret tt.
