(* ===== verification/BtLeaf.v ===== *)
(** Leaves with small cells: what an insertion and a split do to one page.  With cells of at
    most 96 bytes of key and value, both halves of a full leaf fit in a page. *)
From stdpp Require Import base gmap list strings numbers sorting.
From S2P Require Import Prelude GoLib GoState BtVarint BtPage BtNode BtWal BtPager BtCache BtSplit.

Open Scope Z_scope.

(** The size of a key with its value that the theorems about the tree assume. *)
Definition max_entry : Z := 96.

Record small_cell (c : Cell) : Prop := {
  sc_key : 1 ≤ len (c_Key c);
  sc_size : len (c_Key c) + len (c_Value c) ≤ max_entry;
  sc_child : c_Child c = 0;
}.

(** The bytes of the cells, with their directory entries. *)
Definition leaf_bytes (c : Cell) : Z := len (cell_bytes true false c).
Fixpoint space (cells : list Cell) : Z :=
  match cells with
  | [] => 0
  | c :: cells => leaf_bytes c + 2 + space cells
  end.

Record leaf_page (pg : Page) (cells : list Cell) : Prop := {
  lp_rep : page_rep pg cells;
  lp_leaf : IsLeaf pg = true;
  lp_version : Version pg = PageFormatV2;
  lp_small : Forall small_cell cells;
  lp_used : space cells - 2 * len cells ≤ PageSize - freePtr pg;
  lp_right : 0 ≤ RightPtr pg < 2 ^ 32;
}.

Lemma small_typed c : small_cell c → cell_typed true c.
Proof. intros [Hk Hs Hc]. exact Hc. Qed.

Lemma varint_small x : 0 ≤ x < 128 → varintSize16 x = 1.
Proof. intros Hx. unfold varintSize16. case_cmp; [done|lia]. Qed.

Lemma leaf_bytes_small c : small_cell c → leaf_bytes c = 2 + len (c_Key c) + len (c_Value c) ∧ 3 ≤ leaf_bytes c ≤ 98.
Proof.
  intros [Hk Hs Hc]. pose proof (len_nonneg (c_Value c)). unfold leaf_bytes, cell_bytes, max_entry in *.
  rewrite !len_app, !len_varint, !varint_small by lia. lia.
Qed.

Lemma leaf_pbytes pg cells c : leaf_page pg cells → len (pbytes pg c) = leaf_bytes c.
Proof. intros H. unfold pbytes, isV1, leaf_bytes. by rewrite (lp_leaf _ _ H), (lp_version _ _ H). Qed.

Lemma leaf_free pg cells : leaf_page pg cells → NumCells pg = len cells ∧ 10 + 2 * len cells ≤ freePtr pg ≤ PageSize.
Proof.
  intros H. destruct (lp_rep _ _ H) as ([offs Hp] & _). split; [apply Hp|]. pose proof (ph_free _ _ _ Hp).
  unfold cellDirOffset, HeaderSize, CellDirEntrySize in *. lia.
Qed.

Lemma leaf_IsFull pg cells c :
  leaf_page pg cells → small_cell c →
  IsFull pg (len (c_Key c)) (len (c_Value c)) = (freePtr pg - (10 + 2 * (len cells + 1)) <? leaf_bytes c).
Proof.
  intros H Hc. pose proof (leaf_free pg cells H) as [Hn Hf]. unfold IsFull.
  pose proof (len_nonneg cells). pose proof (len_nonneg (c_Key c)). pose proof (len_nonneg (c_Value c)). destruct Hc as [Hk Hs Hch] eqn:E.
  pose proof (cellSize_bytes pg c) as Es. rewrite (lp_leaf _ _ H), (leaf_pbytes _ _ _ H) in Es.
  unfold max_entry in *. rewrite Es by lia. rewrite Hn, u16_small by (unfold PageSize in *; lia).
  unfold cellDirOffset, HeaderSize, CellDirEntrySize. do 2 f_equal. lia.
Qed.

Lemma space_app a b : space (a ++ b) = space a + space b.
Proof. induction a as [|c a IH]; simpl; lia. Qed.

Lemma space_bounds cells : Forall small_cell cells → 5 * len cells ≤ space cells ≤ 100 * len cells.
Proof.
  induction 1 as [|c cells Hc _ IH]; simpl; [done|]. rewrite len_cons. destruct (leaf_bytes_small c Hc). lia.
Qed.

Lemma len_put_cell c cells : len (put_cell c cells) ≤ len cells + 1 ∧ 1 ≤ len (put_cell c cells).
Proof.
  induction cells as [|x cells IH]; simpl; [done|]. pose proof (len_nonneg cells).
  destruct (bytes_compare _ _); rewrite !len_cons; lia.
Qed.

Lemma space_put_cell c cells :
  Forall small_cell cells → small_cell c →
  space (put_cell c cells) - 2 * len (put_cell c cells) ≤ space cells - 2 * len cells + leaf_bytes c.
Proof.
  intros Hs Hc. induction Hs as [|x cells Hx _ IH]; simpl; rewrite ?len_cons; [change (len (@nil Cell)) with 0; lia|].
  destruct (leaf_bytes_small c Hc), (leaf_bytes_small x Hx).
  destruct (bytes_compare _ _); simpl; rewrite !len_cons; lia.
Qed.

Lemma put_cell_Forall (P : Cell → Prop) c cells : P c → Forall P cells → Forall P (put_cell c cells).
Proof.
  intros Hc Hs. induction Hs as [|x cells Hx Hs IH]; simpl; [by constructor|].
  destruct (bytes_compare _ _); repeat (constructor; try done).
Qed.

(** Inserting into a leaf: refused when the free space is too small. *)
Lemma leaf_insert pg cells c :
  leaf_page pg cells → small_cell c →
  if decide (freePtr pg - (12 + 2 * len cells) < leaf_bytes c) then InsertCell pg c = (pg, Err ErrPageFull)
  else ∃ pg', InsertCell pg c = (pg', Ok tt) ∧ leaf_page pg' (put_cell c cells) ∧ same_page pg pg' ∧
         freePtr pg' = freePtr pg - leaf_bytes c.
Proof.
  intros H Hc. pose proof (leaf_IsFull pg cells c H Hc) as Hf. pose proof (lp_leaf _ _ H) as Hl.
  case_decide as Hd.
  - apply InsertCell_full. rewrite Hl, Hf. apply Z.ltb_lt. lia.
  - destruct (rep_insert pg cells c (lp_rep _ _ H)) as (pg' & E & Hp & Hsp & Ef).
    + rewrite Hl. by apply small_typed.
    + rewrite Hl, Hf. apply Z.ltb_ge. lia.
    + rewrite (leaf_pbytes _ _ _ H) in Ef. exists pg'. split; [done|]. split; [|done]. split; [done| | | | |].
      * by rewrite (same_page_leaf pg pg' Hsp).
      * destruct Hsp as (_ & _ & -> & _). apply H.
      * apply put_cell_Forall; [done|apply H].
      * pose proof (space_put_cell c cells (lp_small _ _ H) Hc). pose proof (lp_used _ _ H). lia.
      * destruct Hsp as (_ & _ & _ & -> & _). apply H.
Qed.

(** A cleared page. *)
Lemma clear_rep pg cells :
  page_rep pg cells →
  page_rep (clear_page pg) [] ∧ same_page pg (clear_page pg) ∧ freePtr (clear_page pg) = PageSize.
Proof.
  intros ([offs Hp] & _ & H0). unfold clear_page. pose proof (ph_len _ _ _ Hp) as Hl.
  destruct (setNumCells_spec 0 pg Hl) as (A1 & A2 & A3 & [A4 _]); [done|].
  assert (Hl' : len (pg_data (setNumCells 0 pg)) = PageSize) by (unfold len in *; by rewrite A4).
  destruct (setFreePtr_spec PageSize (setNumCells 0 pg) Hl') as (B1 & B2 & B3 & [B4 _]); [done|].
  assert (Hsp : same_page pg (setFreePtr PageSize (setNumCells 0 pg))) by (by eapply same_page_trans).
  split; [|done]. split; [exists []; split|].
  - unfold len in *. by rewrite B4.
  - by rewrite B2, A1.
  - rewrite B1. done.
  - constructor.
  - done.
  - split; [constructor|]. destruct Hsp as (_ & -> & _ & _ & ->). done.
Qed.

Lemma clear_leaf pg cells :
  leaf_page pg cells →
  leaf_page (clear_page pg) [] ∧ same_page pg (clear_page pg) ∧ freePtr (clear_page pg) = PageSize.
Proof.
  intros H. destruct (clear_rep pg cells (lp_rep _ _ H)) as (A1 & A2 & A3). split; [|done]. split; [done| | | | |].
  - by rewrite (same_page_leaf _ _ A2), (lp_leaf _ _ H).
  - destruct A2 as (_ & _ & -> & _). apply H.
  - constructor.
  - rewrite A3. done.
  - destruct A2 as (_ & _ & _ & -> & _). apply H.
Qed.

Lemma new_leaf id : leaf_page (NewPage id PageTypeLeaf) [] ∧ freePtr (NewPage id PageTypeLeaf) = PageSize.
Proof. destruct (NewPage_rep id PageTypeLeaf) as (A1 & A2 & A3 & A4). split; [|done]. by split. Qed.

(** ** Filling a page *)

Definition fill_page (pg : Page) (cells : list Cell) : Page * res unit :=
  foldl (λ acc c, match acc with (pg, Ok _) => InsertCell pg c | _ => acc end) (pg, Ok tt) cells.

Definition put_cells (cells : list Cell) (acc : list Cell) : list Cell := foldl (λ acc c, put_cell c acc) acc cells.

Lemma fill_ok cells : ∀ pg acc,
  leaf_page pg acc → Forall small_cell cells → space cells ≤ freePtr pg - (10 + 2 * len acc) →
  ∃ pg', fill_page pg cells = (pg', Ok tt) ∧ leaf_page pg' (put_cells cells acc) ∧ same_page pg pg' ∧
    freePtr pg' = freePtr pg - (space cells - 2 * len cells).
Proof.
  induction cells as [|c cells IH]; intros pg acc Hp Hs Hroom; cbn [fill_page put_cells foldl space].
  { exists pg. split; [done|]. split; [done|]. split; [apply same_page_refl|]. change (len (@nil Cell)) with 0. lia. }
  apply Forall_cons in Hs as [Hc Hs]. cbn [space] in Hroom. pose proof (space_bounds cells Hs). pose proof (len_nonneg cells).
  pose proof (leaf_insert pg acc c Hp Hc) as Hi. case_decide; [lia|]. destruct Hi as (pg1 & E & Hp1 & Hsp & Ef). rewrite E.
  pose proof (len_put_cell c acc) as [Hn _].
  destruct (IH pg1 (put_cell c acc) Hp1 Hs) as (pg' & E' & Hp' & Hsp' & Ef'); [lia|].
  exists pg'. split; [done|]. split; [done|]. split; [by eapply same_page_trans|]. rewrite len_cons. lia.
Qed.

(** What a filled page holds: of each key the last cell. *)
Lemma put_cells_sorted cells : ∀ acc,
  StronglySorted (key_lt c_Key) acc → StronglySorted (key_lt c_Key) (put_cells cells acc).
Proof. induction cells as [|c cells IH]; intros acc Hs; [done|]. apply IH. by apply put_cell_sorted. Qed.

Lemma entries_map_nil : entries_map c_Key [] = ∅.
Proof. done. Qed.

Lemma put_cells_map cells : ∀ acc,
  StronglySorted (key_lt c_Key) acc →
  entries_map c_Key (put_cells cells acc) = entries_map c_Key (reverse cells) ∪ entries_map c_Key acc.
Proof.
  induction cells as [|c cells IH]; intros acc Hs; cbn [put_cells foldl].
  - by rewrite reverse_nil, entries_map_nil, (left_id_L ∅ (∪)).
  - change (foldl _ (put_cell c acc) cells) with (put_cells cells (put_cell c acc)).
    rewrite IH by by apply put_cell_sorted. rewrite put_cell_map by done.
    rewrite reverse_cons, entries_map_app, entries_map_cons, <-(assoc_L (∪)), <-insert_union_l, entries_map_nil. by rewrite (left_id_L ∅ (∪)).
Qed.

Lemma put_cells_Forall (P : Cell → Prop) cells : ∀ acc, Forall P cells → Forall P acc → Forall P (put_cells cells acc).
Proof.
  induction cells as [|c cells IH]; intros acc Hc Ha; [done|]. apply Forall_cons in Hc as [Hc Hcs].
  apply IH; [done|]. by apply put_cell_Forall.
Qed.

(** The first cell is the smallest key. *)
Lemma put_cells_head cells : ∀ x acc,
  Forall (λ c, bytes_le (c_Key x) (c_Key c)) cells →
  ∃ y acc', put_cells cells (x :: acc) = y :: acc' ∧ c_Key y = c_Key x.
Proof.
  induction cells as [|c cells IH]; intros x acc Hc; [by eexists _, _|]. apply Forall_cons in Hc as [Hc Hcs].
  cbn [put_cells foldl put_cell]. apply bytes_le_lteq in Hc as [Hlt|Heq].
  - rewrite (bytes_gt _ _ Hlt). by apply IH.
  - rewrite Heq, bytes_compare_refl. destruct (IH c acc) as (y & acc' & E & Ey); [by rewrite <-Heq|]. exists y, acc'. split; [exact E|congruence].
Qed.

(** ** The cells of a split *)

Lemma add_cell_split c cells :
  StronglySorted (key_lt c_Key) cells →
  ∃ a b, cells = a ++ b ∧ add_cell c cells = a ++ c :: b ∧
    Forall (λ x, bytes_le (c_Key x) (c_Key c)) a ∧ Forall (λ x, bytes_lt (c_Key c) (c_Key x)) b.
Proof.
  intros Hs. unfold add_cell. exists (take (insert_pos (c_Key c) cells) cells), (drop (insert_pos (c_Key c) cells) cells).
  split; [by rewrite take_drop|]. split; [done|]. induction Hs as [|x cells Hs IH Hx]; [by repeat constructor|]. cbn [insert_pos].
  destruct (bytes_ltb (c_Key c) (c_Key x)) eqn:E.
  - apply bytes_ltb_lt in E. simpl. split; [constructor|]. constructor; [done|]. eapply Forall_impl; [exact Hx|].
    intros y Hy. unfold key_lt in Hy. by etrans.
  - apply bytes_ltb_nlt in E. simpl. destruct IH as [IH1 IH2]. split; [by constructor|done].
Qed.

Lemma entries_map_elem (cells : list Cell) k c : entries_map c_Key cells !! k = Some c → c ∈ cells ∧ c_Key c = k.
Proof.
  intros H. unfold entries_map in H. apply elem_of_list_to_map_2, list_elem_of_fmap in H as (x & [= -> ->] & Hx). done.
Qed.

(** The cells with the new one, in order; the key of the new one may occur twice. *)
Definition key_le (x y : Cell) : Prop := bytes_le (c_Key x) (c_Key y).

Lemma sorted_lt_le cells : StronglySorted (key_lt c_Key) cells → StronglySorted key_le cells.
Proof.
  induction 1 as [|x cells Hs IH Hx]; constructor; [done|]. eapply Forall_impl; [exact Hx|]. intros y Hy. by apply bytes_lt_le.
Qed.

Lemma add_cell_sorted c cells : StronglySorted (key_lt c_Key) cells → StronglySorted key_le (add_cell c cells).
Proof.
  intros Hs. destruct (add_cell_split c cells Hs) as (a & b & -> & -> & Ha & Hb). apply sorted_lt_le in Hs.
  induction a as [|x a IH]; simpl in *.
  - constructor; [done|]. eapply Forall_impl; [exact Hb|]. intros y Hy. by apply bytes_lt_le.
  - apply Forall_cons in Ha as [Hx Ha]. inversion_clear Hs as [|? ? Hs' Hxs]. constructor; [by apply IH|].
    apply Forall_app in Hxs as [H1 H2]. apply Forall_app. split; [done|]. by constructor.
Qed.

Lemma entries_map_reverse cells :
  StronglySorted (key_lt c_Key) cells → entries_map c_Key (reverse cells) = entries_map c_Key cells.
Proof.
  intros Hs. unfold entries_map. rewrite fmap_reverse. apply list_to_map_proper; [|by rewrite reverse_Permutation].
  rewrite fmap_reverse, reverse_Permutation, <-list_fmap_compose. cbn. induction Hs as [|x cells Hs IH Hx]; [constructor|].
  rewrite fmap_cons. constructor; [|done]. intros (y & Ey & Hy)%list_elem_of_fmap. rewrite Forall_forall in Hx.
  apply (bytes_lt_ne _ _ (Hx y Hy)). exact Ey.
Qed.

Lemma add_cell_map c cells :
  StronglySorted (key_lt c_Key) cells →
  entries_map c_Key (reverse (add_cell c cells)) = <[c_Key c := c]> (entries_map c_Key cells).
Proof.
  intros Hs. destruct (add_cell_split c cells Hs) as (a & b & -> & -> & Ha & Hb).
  apply sorted_app_inv in Hs as (Hsa & Hsb & Hab).
  assert (Hnb : entries_map c_Key b !! c_Key c = None).
  { apply entries_map_None. eapply Forall_impl; [exact Hb|]. intros x Hx E. symmetry in E. by apply (bytes_lt_ne _ _ Hx). }
  assert (Hd : entries_map c_Key a ##ₘ entries_map c_Key b).
  { apply map_disjoint_spec. intros k x y Hx Hy. apply entries_map_elem in Hx as [Hx <-], Hy as [Hy Ey].
    apply (bytes_lt_ne _ _ (Hab x y Hx Hy)). done. }
  rewrite reverse_app, reverse_cons, !entries_map_app, !entries_map_reverse, entries_map_cons by done.
  rewrite <-(assoc_L (∪)), <-insert_union_l, entries_map_nil, (left_id_L ∅ (∪)), <-insert_union_r by done. by rewrite map_union_comm.
Qed.

(** ** Both halves fit *)

Lemma half_bounds (n : nat) : (n / 2 * 2 ≤ n < n / 2 * 2 + 2)%nat.
Proof. pose proof (Nat.div_mod_eq n 2). pose proof (Nat.mod_upper_bound n 2). lia. Qed.

Lemma add_cell_Forall (P : Cell → Prop) c cells : P c → Forall P cells → Forall P (add_cell c cells).
Proof.
  intros Hc Hs. unfold add_cell. apply Forall_app. split; [by apply Forall_take|]. constructor; [done|by apply Forall_drop].
Qed.

Lemma space_add_cell c cells : space (add_cell c cells) = space cells + leaf_bytes c + 2.
Proof.
  unfold add_cell. rewrite space_app. cbn [space]. set (n := insert_pos _ _). rewrite <-(take_drop n cells) at 3. rewrite space_app. lia.
Qed.

Lemma length_add_cell c cells : length (add_cell c cells) = S (length cells).
Proof. unfold add_cell. rewrite length_app, length_take. simpl. rewrite length_drop. lia. Qed.

Lemma halves_fit l m :
  Forall small_cell l → space l ≤ 4186 → m = (length l / 2)%nat → space (take m l) ≤ 4086 ∧ space (drop m l) ≤ 4086.
Proof.
  intros Hs Hsp ->. set (m := (length l / 2)%nat). pose proof (half_bounds (length l)) as Hm. fold m in Hm.
  pose proof (space_bounds (take m l) (Forall_take _ _ _ Hs)) as H1. pose proof (space_bounds (drop m l) (Forall_drop _ _ _ Hs)) as H2.
  rewrite <-(take_drop m l), space_app in Hsp. unfold len in *. rewrite length_take in H1. rewrite length_drop in H2. lia.
Qed.

(** The first key of the second half separates the halves. *)
Lemma sorted_le_app a b : StronglySorted key_le (a ++ b) → ∀ x y, x ∈ a → y ∈ b → key_le x y.
Proof.
  induction a as [|z a IH]; simpl; intros Hs x y Hx Hy; [by apply elem_of_nil in Hx|]. inversion_clear Hs as [|? ? Hs' Hz].
  apply elem_of_cons in Hx as [->|Hx]; [|by apply IH]. rewrite Forall_forall in Hz. apply Hz. set_solver.
Qed.

Lemma halves_sep l m (Hs : StronglySorted key_le l) x r (Hd : drop m l = x :: r) :
  Forall (λ y, key_le y x) (take m l) ∧ Forall (λ y, key_le x y) (x :: r).
Proof.
  rewrite <-(take_drop m l), Hd in Hs. split.
  - apply Forall_forall. intros y Hy. apply (sorted_le_app _ _ Hs y x Hy). by left.
  - assert (Hs' : StronglySorted key_le (x :: r)).
    { clear Hd. induction (take m l) as [|z a IH]; [done|]. apply IH. by inversion_clear Hs. }
    inversion_clear Hs' as [|? ? _ Hx]. constructor; [apply bytes_le_refl|done].
Qed.

Lemma entries_map_halves l m x r k :
  StronglySorted key_le l → drop m l = x :: r →
  entries_map c_Key (reverse l) !! k =
    (if bytes_ltb k (c_Key x) then entries_map c_Key (reverse (take m l)) else entries_map c_Key (reverse (drop m l))) !! k.
Proof.
  intros Hs Hd. destruct (halves_sep l m Hs x r Hd) as [H1 H2]. rewrite <-Hd in H2.
  rewrite <-(take_drop m l) at 1. rewrite reverse_app, entries_map_app. destruct (bytes_ltb k (c_Key x)) eqn:E.
  - apply bytes_ltb_lt in E. rewrite lookup_union_r; [done|]. apply entries_map_None, Forall_reverse.
    eapply Forall_impl; [exact H2|]. intros y Hy Ey. unfold key_le in Hy. rewrite Ey in Hy. by apply bytes_nlt_le in Hy.
  - apply bytes_ltb_nlt in E. destruct (entries_map c_Key (reverse (drop m l)) !! k) as [c|] eqn:Ec.
    + by rewrite (lookup_union_Some_l _ _ _ _ Ec).
    + rewrite lookup_union_r by done. apply entries_map_None, Forall_reverse, Forall_forall. intros y Hy Ey.
      rewrite Forall_forall in H1. specialize (H1 y Hy). unfold key_le in H1. rewrite Ey in H1.
      assert (k = c_Key x) as ->.
      { apply bytes_le_lteq in H1 as [Hlt|?]; [|done]. apply bytes_nlt_le in E. done. }
      rewrite Hd, reverse_cons, entries_map_app, entries_map_cons in Ec. apply lookup_union_None in Ec as [_ Ec].
      by rewrite lookup_insert_eq in Ec.
Qed.

(** At most two of the cells have the same key, at most one if it is not the new one. *)
Lemma same_key_few l k : StronglySorted (key_lt c_Key) l → (length (filter (λ c, c_Key c = k) l) ≤ 1)%nat.
Proof.
  induction 1 as [|x l Hs IH Hx]; [simpl; lia|]. destruct (decide (c_Key x = k)) as [E|E].
  - rewrite filter_cons_True by done. assert (filter (λ c, c_Key c = k) l = []) as ->; [|simpl; lia].
    apply elem_of_nil_inv. intros y [Ey Hy]%list_elem_of_filter. rewrite Forall_forall in Hx.
    apply (bytes_lt_ne _ _ (Hx y Hy)). by rewrite E, Ey.
  - by rewrite filter_cons_False.
Qed.

Lemma same_key_half c cells l k (a b : list Cell) :
  StronglySorted (key_lt c_Key) cells → add_cell c cells = a ++ l ++ b → Forall (λ x, c_Key x = k) l →
  (length l ≤ if decide (c_Key c = k) then 2 else 1)%nat.
Proof.
  intros Hs E Hl. pose proof (same_key_few cells k Hs) as Hf.
  assert (Hlen : (length l ≤ length (filter (λ x, c_Key x = k) (add_cell c cells)))%nat).
  { rewrite E, !filter_app, !length_app. rewrite (filter_all _ l) by done. lia. }
  unfold add_cell in Hlen. rewrite filter_app, length_app in Hlen.
  rewrite <-(take_drop (insert_pos (c_Key c) cells) cells), filter_app, length_app in Hf.
  destruct (decide (c_Key c = k)).
  - rewrite filter_cons_True in Hlen by done. simpl in Hlen. lia.
  - rewrite filter_cons_False in Hlen by done. lia.
Qed.

(** ** Splitting a leaf *)

Definition key_below (hi : option bytes) (k : bytes) : Prop := match hi with Some h => bytes_lt k h | None => True end.
Definition key_upto (hi : option bytes) (k : bytes) : Prop := match hi with Some h => bytes_le k h | None => True end.
Definition key_from (lo : option bytes) (k : bytes) : Prop := match lo with Some l => bytes_le l k | None => True end.

Lemma key_below_lt hi x k : bytes_lt k x → key_below hi x → key_below hi k.
Proof. destruct hi as [h|]; simpl; [|done]. intros H1 H2. by etrans. Qed.

Lemma key_from_le lo x k : bytes_le x k → key_from lo x → key_from lo k.
Proof. destruct lo as [l|]; simpl; [|done]. intros H1 H2. by eapply bytes_le_trans. Qed.

(** A leaf may hold a stale cell for its upper bound; a leaf that holds nothing else has
    room. *)
Definition leaf_room (hi : option bytes) (pg : Page) (cells : list Cell) : Prop :=
  ∀ x, cells = [x] → hi = Some (c_Key x) → 3800 ≤ freePtr pg.

(** The separator is below the upper bound: a second half of stale cells only would need a
    leaf with one cell, and such a leaf has room. *)
Lemma sep_below pg hi cells c x r m :
  leaf_page pg cells → small_cell c → leaf_room hi pg cells → key_below hi (c_Key c) →
  freePtr pg - (12 + 2 * len cells) < leaf_bytes c →
  m = (length (add_cell c cells) / 2)%nat → drop m (add_cell c cells) = x :: r →
  Forall (λ y, key_le x y) (x :: r) → Forall (λ y, key_upto hi (c_Key y)) (add_cell c cells) →
  key_below hi (c_Key x).
Proof.
  intros Hp Hc Hroom Hhi Hfull Em Hd HsR Hup. destruct hi as [h|]; [|done]. cbn [key_below key_upto] in *.
  pose proof (lp_rep _ _ Hp) as (_ & Hsort & _). pose proof (length_add_cell c cells) as Hlen.
  pose proof (half_bounds (length (add_cell c cells))) as Hm. rewrite <-Em in Hm.
  assert (HupR : Forall (λ y, bytes_le (c_Key y) h) (x :: r)) by (rewrite <-Hd; by apply Forall_drop).
  apply Forall_cons in HupR as Hx. destruct Hx as [[Hx| Hx]%bytes_le_lteq _]; [done|]. exfalso.
  assert (Hall : Forall (λ y, c_Key y = h) (x :: r)).
  { apply Forall_forall. intros y Hy. rewrite Forall_forall in HsR, HupR. specialize (HsR y Hy). specialize (HupR y Hy).
    unfold key_le in HsR. rewrite Hx in HsR. apply bytes_le_lteq in HsR as [Hlt|?]; [|done]. by apply bytes_nlt_le in HupR. }
  pose proof (same_key_half c cells (x :: r) h (take m (add_cell c cells)) [] Hsort) as Hf.
  rewrite <-Hd, app_nil_r, take_drop in Hf. specialize (Hf eq_refl). rewrite Hd in Hf. specialize (Hf Hall).
  rewrite decide_False in Hf by (by apply bytes_lt_ne).
  assert (Hr : length (drop m (add_cell c cells)) = length (x :: r)) by by rewrite Hd. rewrite length_drop in Hr. simpl in *.
  assert (Hin : x ∈ add_cell c cells) by (rewrite <-(take_drop m (add_cell c cells)), Hd; set_solver).
  assert (Hin' : x ∈ cells).
  { destruct (add_cell_split c cells Hsort) as (a & b & -> & E & _). rewrite E in Hin. apply elem_of_app in Hin as [?|Hin]; [set_solver|].
    apply elem_of_cons in Hin as [->|?]; [|set_solver]. by destruct (bytes_lt_ne _ _ Hhi). }
  destruct cells as [|z [|? ?]]; [by apply elem_of_nil in Hin'| |simpl in *; lia]. apply list_elem_of_singleton in Hin' as ->.
  specialize (Hroom z eq_refl (f_equal Some (eq_sym Hx))). destruct (leaf_bytes_small c Hc). change (len [z]) with 1 in Hfull. lia.
Qed.

(** A half with one key was filled with at most two cells. *)
Lemma half_room pgL cells c m z :
  StronglySorted (key_lt c_Key) cells → Forall small_cell (add_cell c cells) →
  freePtr pgL = PageSize - (space (take m (add_cell c cells)) - 2 * len (take m (add_cell c cells))) →
  put_cells (take m (add_cell c cells)) [] = [z] → 3800 ≤ freePtr pgL.
Proof.
  intros Hsort Hsl Hf Ez. set (l := take m (add_cell c cells)) in *.
  assert (Hall : Forall (λ y, c_Key y = c_Key z) l).
  { apply Forall_forall. intros y Hy. pose proof (put_cells_map l [] ltac:(constructor)) as E.
    rewrite entries_map_nil, (right_id_L ∅ (∪)), Ez in E.
    destruct (decide (c_Key y = c_Key z)) as [|Hne]; [done|]. exfalso.
    assert (Hn : entries_map c_Key [z] !! c_Key y = None) by (apply entries_map_None; by constructor). rewrite E in Hn.
    unfold entries_map in Hn. apply not_elem_of_list_to_map in Hn. apply Hn. rewrite <-list_fmap_compose. apply list_elem_of_fmap.
    exists y. split; [done|]. by apply elem_of_reverse. }
  pose proof (same_key_half c cells l (c_Key z) [] (drop m (add_cell c cells)) Hsort) as Hf2.
  simpl in Hf2. unfold l at 1 in Hf2. rewrite take_drop in Hf2. specialize (Hf2 eq_refl Hall).
  pose proof (space_bounds l (Forall_take _ _ _ Hsl)). unfold len, PageSize in *. destruct (decide _); lia.
Qed.

Lemma put_cells_nonempty cells : (0 < length cells)%nat → put_cells cells [] ≠ [].
Proof.
  destruct cells as [|x cells] using rev_ind; simpl; [lia|]. intros _ E. unfold put_cells in E. rewrite foldl_snoc in E.
  pose proof (len_put_cell x (put_cells cells [])) as [_ H]. unfold put_cells in H. by rewrite E in H.
Qed.

(** A new key makes the halves disjoint. *)
Lemma halves_below c cells m x r :
  StronglySorted (key_lt c_Key) cells → leaf_map cells !! c_Key c = None → drop m (add_cell c cells) = x :: r →
  Forall (λ y, bytes_lt (c_Key y) (c_Key x)) (take m (add_cell c cells)).
Proof.
  intros Hs Hn Hd. destruct (add_cell_split c cells Hs) as (a & b & -> & E & Ha & Hb).
  assert (Ha' : Forall (λ y, bytes_lt (c_Key y) (c_Key c)) a).
  { apply Forall_forall. intros y Hy. rewrite Forall_forall in Ha. destruct (proj1 (bytes_le_lteq _ _) (Ha y Hy)) as [|Hk]; [done|]. exfalso.
    apply list_elem_of_split in Hy as (a1 & a2 & ->). unfold leaf_map in Hn. rewrite lookup_fmap, <-Hk, <-!app_assoc in Hn. simpl in Hn.
    rewrite entries_map_at in Hn; [done|]. by rewrite <-app_assoc in Hs. }
  assert (Hl : StronglySorted (key_lt c_Key) (add_cell c (a ++ b))).
  { rewrite E, <-(put_cell_new a b c Ha' Hb). by apply put_cell_sorted. }
  rewrite <-(take_drop m (add_cell c (a ++ b))), Hd in Hl. apply sorted_app_inv in Hl as (_ & _ & Hl).
  apply Forall_forall. intros y Hy. apply Hl; [done|by left].
Qed.

(** The leaf is full and is split: the halves, the separator and what each half holds. *)
Lemma split_leaf_pages pg pn lo hi cells c :
  leaf_page pg cells → leaf_page pn [] → freePtr pn = PageSize → small_cell c →
  Forall (λ x, key_from lo (c_Key x) ∧ key_upto hi (c_Key x)) cells → leaf_room hi pg cells →
  key_from lo (c_Key c) → key_below hi (c_Key c) → freePtr pg - (12 + 2 * len cells) < leaf_bytes c →
  let l := add_cell c cells in
  let m := (length l / 2)%nat in
  ∃ pgL pgR left x right,
    fill_page (clear_page pg) (take m l) = (pgL, Ok tt) ∧ fill_page pn (drop m l) = (pgR, Ok tt) ∧
    leaf_page pgL left ∧ leaf_page pgR (x :: right) ∧ same_page pg pgL ∧ same_page pn pgR ∧
    key_from lo (c_Key x) ∧ key_below hi (c_Key x) ∧ 1 ≤ len (c_Key x) ≤ max_entry ∧
    Forall (λ y, key_from lo (c_Key y) ∧ bytes_le (c_Key y) (c_Key x)) left ∧
    Forall (λ y, bytes_le (c_Key x) (c_Key y) ∧ key_upto hi (c_Key y)) (x :: right) ∧
    leaf_room (Some (c_Key x)) pgL left ∧
    (cells ≠ [] → left ≠ []) ∧
    (leaf_map cells !! c_Key c = None → Forall (λ y, bytes_lt (c_Key y) (c_Key x)) left) ∧
    (Forall (λ y, key_below hi (c_Key y)) cells → Forall (λ y, key_below hi (c_Key y)) (x :: right)) ∧
    (∀ k, (if bytes_ltb k (c_Key x) then leaf_map left else leaf_map (x :: right)) !! k =
            <[c_Key c := c_Value c]> (leaf_map cells) !! k).
Proof.
  intros Hp Hn Hfn Hc Hb Hroom Hlo Hhi Hfull l m. pose proof (lp_rep _ _ Hp) as (_ & Hsort & _).
  pose proof (add_cell_sorted c cells Hsort) as Hle. fold l in Hle. pose proof (leaf_free _ _ Hp) as [_ Hfree].
  pose proof (length_add_cell c cells) as Hlen. fold l in Hlen. pose proof (half_bounds (length l)) as Hm. fold m in Hm.
  assert (Hsl : Forall small_cell l) by (apply add_cell_Forall; [done|apply Hp]).
  assert (Hbl : Forall (λ x, key_from lo (c_Key x) ∧ key_upto hi (c_Key x)) l).
  { apply add_cell_Forall; [|done]. split; [done|]. destruct hi; [by apply bytes_lt_le|done]. }
  destruct (halves_fit l m Hsl) as [HfL HfR]; [|done|].
  { unfold l. rewrite space_add_cell. destruct (leaf_bytes_small c Hc). pose proof (lp_used _ _ Hp). unfold PageSize in *. lia. }
  destruct (clear_leaf pg cells Hp) as (Hcl & Hsp & Hfc).
  destruct (fill_ok (take m l) (clear_page pg) [] Hcl) as (pgL & EL & HpL & HspL & HfpL); [by apply Forall_take| |].
  { rewrite Hfc. change (len (@nil Cell)) with 0. unfold PageSize. lia. }
  destruct (fill_ok (drop m l) pn [] Hn) as (pgR & ER & HpR & HspR & HfpR); [by apply Forall_drop| |].
  { rewrite Hfn. change (len (@nil Cell)) with 0. unfold PageSize. lia. }
  destruct (drop m l) as [|x r] eqn:Hd; [apply (f_equal length) in Hd; rewrite length_drop in Hd; simpl in Hd; lia|].
  destruct (halves_sep l m Hle x r Hd) as [HsL HsR].
  assert (HsR' : Forall (λ c, bytes_le (c_Key x) (c_Key c)) r) by by apply Forall_cons in HsR as [_ ?].
  destruct (put_cells_head r x [] HsR') as (y & right & Ey & Eyx).
  assert (Eput : put_cells (x :: r) [] = y :: right) by exact Ey. rewrite Eput in HpR.
  exists pgL, pgR, (put_cells (take m l) []), y, right.
  split; [done|]. split; [done|]. split; [done|]. split; [done|]. split; [by eapply same_page_trans|]. split; [done|].
  rewrite Eyx, <-Eput.
  assert (Hx : x ∈ l) by (rewrite <-(take_drop m l), Hd; set_solver).
  pose proof (proj1 (Forall_forall _ _) Hbl x Hx) as [Hxlo Hxhi].
  split; [done|]. split.
  { eapply (sep_below pg hi cells c x r m); try done. eapply Forall_impl; [exact Hbl|]. by intros ? []. }
  split. { pose proof (proj1 (Forall_forall _ _) Hsl x Hx) as [? ? _]. pose proof (len_nonneg (c_Value x)). lia. }
  split. { apply put_cells_Forall; [|done]. apply Forall_and. split; [|exact HsL]. apply Forall_take. eapply Forall_impl; [exact Hbl|]. by intros ? []. }
  split. { apply put_cells_Forall; [|done]. apply Forall_and. split; [exact HsR|]. rewrite <-Hd. apply Forall_drop. eapply Forall_impl; [exact Hbl|]. by intros ? []. }
  split.
  { intros z Ez _. eapply (half_room pgL cells c m z Hsort Hsl); [|exact Ez]. rewrite HfpL, Hfc. done. }
  split.
  { intros Hne. assert (Hm1 : (0 < length (take m l))%nat) by (rewrite length_take; destruct cells; [done|simpl in Hlen; lia]).
    by apply put_cells_nonempty. }
  split.
  { intros Hnew. apply put_cells_Forall; [|done]. by apply (halves_below c cells m x r Hsort Hnew). }
  split.
  { intros Hbelow. apply put_cells_Forall; [|done]. rewrite <-Hd. by apply Forall_drop, add_cell_Forall. }
  intros k. unfold leaf_map. rewrite <-(fmap_insert c_Value _ (c_Key c) c), <-(add_cell_map c cells Hsort). fold l. rewrite (lookup_fmap c_Value (entries_map c_Key (reverse l)) k).
  rewrite (entries_map_halves l m x r k Hle Hd). rewrite Hd.
  pose proof (put_cells_map (take m l) [] ltac:(constructor)) as E1. pose proof (put_cells_map (x :: r) [] ltac:(constructor)) as E2.
  rewrite entries_map_nil, (right_id_L ∅ (∪)) in E1, E2. rewrite <-E1, <-E2. by destruct (bytes_ltb k (c_Key x)); rewrite lookup_fmap.
Qed.
