(* ===== verification/BtTreeInv.v ===== *)
(** The shape of a B-tree of height one or two, over the pages as the pager shows them: what
    each leaf holds between its bounds, and what inserting a separator does to the node. *)
From stdpp Require Import base gmap list strings numbers sorting.
From S2P Require Import Prelude GoLib GoState BtVarint BtPage BtNode BtWal BtPager BtCache BtSplit BtLeaf.

Open Scope Z_scope.

(** ** Leaves below a node *)

(** What a scan needs of a leaf besides: all cells are below the upper bound, the right
    pointer leads to the next leaf, and only the first leaf may be empty. *)
Record scannable (pg : Page) (cells : list Cell) (lo hi : option bytes) (next : Z) : Prop := {
  sn_below : Forall (λ x, key_below hi (c_Key x)) cells;
  sn_next : RightPtr pg = next;
  sn_cells : lo = None ∨ cells ≠ [];
}.

(** The page [id] is a leaf that agrees with the map [m] between the bounds; with [st] it can
    also be scanned. *)
Definition leaf_at (st : bool) (V : Z → option Page) (m : gmap bytes bytes) (id : Z) (lo hi : option bytes) (next : Z) : Prop :=
  ∃ pg cells, V id = Some pg ∧ leaf_page pg cells ∧
    Forall (λ x, key_from lo (c_Key x) ∧ key_upto hi (c_Key x)) cells ∧ leaf_room hi pg cells ∧
    (∀ k, key_from lo k → key_below hi k → leaf_map cells !! k = m !! k) ∧
    (st = true → scannable pg cells lo hi next).

(** The leaves of a node, from the child for the smallest keys on. *)
Fixpoint kids (st : bool) (V : Z → option Page) (m : gmap bytes bytes) (lo : option bytes) (child : Z) (seps : list Cell) : Prop :=
  match seps with
  | [] => leaf_at st V m child lo None 0
  | s :: seps => leaf_at st V m child lo (Some (c_Key s)) (c_Child s) ∧ kids st V m (Some (c_Key s)) (c_Child s) seps
  end.

Definition children (seps : list Cell) : list Z := c_Child <$> seps.

Lemma leaf_at_other st V V' m m' id lo hi next :
  leaf_at st V m id lo hi next → V' id = V id → (∀ k, key_from lo k → key_below hi k → m' !! k = m !! k) →
  leaf_at st V' m' id lo hi next.
Proof.
  intros (pg & cells & E & H1 & H2 & H3 & H4 & H5) HV Hm. exists pg, cells. split; [congruence|]. split_and!; try done.
  intros k Hlo Hhi. rewrite Hm by done. by apply H4.
Qed.

Lemma leaf_at_loose V m id lo hi next next' : leaf_at false V m id lo hi next → leaf_at false V m id lo hi next'.
Proof. intros (pg & cells & E & H1 & H2 & H3 & H4 & _). exists pg, cells. by split_and!. Qed.

Lemma kids_other st V V' m m' seps : ∀ lo child,
  StronglySorted (key_lt c_Key) seps → Forall (λ s, key_from lo (c_Key s)) seps →
  kids st V m lo child seps → (∀ id, id ∈ child :: children seps → V' id = V id) →
  (∀ k, key_from lo k → m' !! k = m !! k) → kids st V' m' lo child seps.
Proof.
  induction seps as [|s seps IH]; intros lo child Hs Hlo Hk HV Hm; cbn [kids] in *.
  - apply (leaf_at_other st V V' m m'); [done|apply HV; by left|]. intros k Hk' _. by apply Hm.
  - destruct Hk as [H1 H2]. apply Forall_cons in Hlo as [Hls Hlo]. split.
    + apply (leaf_at_other st V V' m m'); [done|apply HV; by left|]. intros k Hk' _. by apply Hm.
    + inversion_clear Hs as [|? ? Hs' Hsx]. apply IH; [done| |done|intros id Hid; apply HV; by right|].
      * eapply Forall_impl; [exact Hsx|]. intros x Hx. by apply bytes_lt_le.
      * intros k Hk. apply Hm. destruct lo; [|done]. by eapply bytes_le_trans.
Qed.

(** The leaf for a key, its bounds and the leaf after it. *)
Fixpoint route_bounds (lo : option bytes) (seps : list Cell) (key : bytes) : option bytes * option bytes :=
  match seps with
  | [] => (lo, None)
  | s :: seps => if key_ge key s then route_bounds (Some (c_Key s)) seps key else (lo, Some (c_Key s))
  end.

Fixpoint route_next (seps : list Cell) (key : bytes) : Z :=
  match seps with
  | [] => 0
  | s :: seps => if key_ge key s then route_next seps key else c_Child s
  end.

Definition leaf_in (st : bool) (V : Z → option Page) (m : gmap bytes bytes) (id : Z) (b : option bytes * option bytes) (next : Z) : Prop :=
  leaf_at st V m id b.1 b.2 next.

Lemma kids_route st V m key seps : ∀ lo child,
  kids st V m lo child seps → key_from lo key →
  let b := route_bounds lo seps key in
  key_from b.1 key ∧ key_below b.2 key ∧ leaf_in st V m (route child seps key) b (route_next seps key).
Proof.
  induction seps as [|s seps IH]; intros lo child Hk Hlo; cbn [kids route route_bounds route_next] in *; [done|].
  destruct Hk as [H1 H2]. destruct (key_ge key s) eqn:E.
  - apply (IH (Some (c_Key s))); [done|]. unfold key_ge in E. by apply bytes_leb_le in E.
  - apply key_ge_lt in E. done.
Qed.

Lemma route_in child seps key : route child seps key ∈ child :: children seps.
Proof.
  revert child. induction seps as [|s seps IH]; intros child; cbn [route]; [by left|].
  destruct (key_ge key s); [|by left]. right. apply IH.
Qed.

Section change.
Context (st : bool) (V V' : Z → option Page) (m m' : gmap bytes bytes) (key : bytes) (t : Z).
Context (HV : ∀ id, id ≠ t → is_Some (V id) → V' id = V id).
Context (Hm : ∀ k, k ≠ key → m' !! k = m !! k).

Lemma leaf_at_some id lo hi next : leaf_at st V m id lo hi next → is_Some (V id).
Proof using Type. intros (pg & cells & E & _). by eexists. Qed.

Lemma leaf_at_kept id lo hi next :
  leaf_at st V m id lo hi next → id ≠ t → ¬ (key_from lo key ∧ key_below hi key) → leaf_at st V' m' id lo hi next.
Proof using HV Hm.
  intros Hl Hid Hk. apply (leaf_at_other st V V' m m'); [done|apply HV; [done|by eapply leaf_at_some]|].
  intros k H1 H2. apply Hm. intros ->. by apply Hk.
Qed.

(** The leaves above the key. *)
Lemma kids_kept seps : ∀ lo child,
  StronglySorted (key_lt c_Key) seps → bytes_lt key lo → Forall (λ s, bytes_le lo (c_Key s)) seps →
  kids st V m (Some lo) child seps → t ∉ child :: children seps → kids st V' m' (Some lo) child seps.
Proof using HV Hm.
  induction seps as [|s seps IH]; intros lo child Hs Hkey Hlo Hk Ht; cbn [kids] in *.
  - apply leaf_at_kept; [done|set_solver|]. intros [H _]. simpl in H. by apply bytes_nlt_le in H.
  - destruct Hk as [H1 H2]. apply Forall_cons in Hlo as [Hls Hlo]. inversion_clear Hs as [|? ? Hs' Hsx]. split.
    + apply leaf_at_kept; [done|set_solver|]. intros [H _]. simpl in H. by apply bytes_nlt_le in H.
    + apply IH; [done|by eapply bytes_lt_le_trans| |done|].
      * eapply Forall_impl; [exact Hsx|]. intros x Hx. by apply bytes_lt_le.
      * intros Hin. apply Ht. by right.
Qed.

(** Changing the leaf for the key. *)
Lemma kids_replace seps : ∀ lo child,
  StronglySorted (key_lt c_Key) seps → kids st V m lo child seps → key_from lo key →
  NoDup (child :: children seps) → route child seps key = t →
  leaf_in st V' m' t (route_bounds lo seps key) (route_next seps key) → kids st V' m' lo child seps.
Proof using HV Hm.
  induction seps as [|s seps IH]; intros lo child Hs Hk Hlo Hnd Ht Hl; cbn [kids route route_bounds route_next] in *; [by subst child|].
  destruct Hk as [H1 H2]. inversion_clear Hs as [|? ? Hs' Hsx]. apply NoDup_cons in Hnd as [Hn Hnd].
  assert (Hsx' : Forall (λ x, bytes_le (c_Key s) (c_Key x)) seps).
  { eapply Forall_impl; [exact Hsx|]. intros x Hx. by apply bytes_lt_le. }
  destruct (key_ge key s) eqn:E.
  - unfold key_ge in E. apply bytes_leb_le in E. split.
    + apply leaf_at_kept; [done| |].
      * intros ->. apply Hn. rewrite <-Ht. apply route_in.
      * intros [_ H]. simpl in H. by apply bytes_nlt_le in E.
    + by apply IH.
  - apply key_ge_lt in E. subst child. split; [done|]. by apply kids_kept.
Qed.

(** Splitting the leaf for the key: the new page takes the keys from the separator on; when
    the separator is the lower bound of the leaf, the new page takes its place. *)
Context (new : Z) (sep : bytes).

Definition splits_leaf (lo hi : option bytes) (next : Z) : Prop :=
  key_from lo sep ∧ key_below hi sep ∧ leaf_at st V' m' t lo (Some sep) new ∧ leaf_at st V' m' new (Some sep) hi next.

(** The latter leaves stale cells behind that a scan would find. *)
Lemma split_proper lo hi next : splits_leaf lo hi next → st = true → lo ≠ Some sep.
Proof using Type.
  intros (_ & _ & (pg & cells & _ & _ & Hb & _ & _ & Hst) & _) E ->. destruct (Hst E) as [H1 _ [H3|H3]]; [done|].
  destruct cells as [|x cells]; [done|]. apply Forall_cons in Hb as [[Hb _] _]. apply Forall_cons in H1 as [H1 _].
  simpl in *. by apply bytes_nlt_le in Hb.
Qed.

Lemma kids_split seps : ∀ lo child,
  StronglySorted (key_lt c_Key) seps → kids st V m lo child seps → key_from lo key →
  match lo with Some l => Forall (λ s, bytes_lt l (c_Key s)) seps | None => True end →
  NoDup (child :: children seps) → route child seps key = t →
  splits_leaf (route_bounds lo seps key).1 (route_bounds lo seps key).2 (route_next seps key) →
  (if decide (lo = Some sep) then kids st V' m' lo new seps
   else kids st V' m' lo child (put_cell (MkCell sep [] new) seps)) ∧ key_from lo sep ∧ (st = true → lo ≠ Some sep).
Proof using HV Hm.
  induction seps as [|s seps IH]; intros lo child Hs Hk Hlo Hlos Hnd Ht Hl; cbn [kids route route_bounds route_next] in *.
  - subst child. pose proof (split_proper _ _ _ Hl) as Hprop. destruct Hl as (S1 & S2 & S3 & S4). split; [|done].
    case_decide as E; [by rewrite E|]. simpl. done.
  - destruct Hk as [H1 H2]. inversion_clear Hs as [|? ? Hs' Hsx]. apply NoDup_cons in Hnd as [Hn Hnd].
    assert (Hsx' : Forall (λ x, bytes_le (c_Key s) (c_Key x)) seps).
    { eapply Forall_impl; [exact Hsx|]. intros x Hx. by apply bytes_lt_le. }
    destruct (key_ge key s) eqn:E.
    + unfold key_ge in E. apply bytes_leb_le in E.
      assert (Hchild : leaf_at st V' m' child lo (Some (c_Key s)) (c_Child s)).
      { apply leaf_at_kept; [done| |].
        * intros ->. apply Hn. rewrite <-Ht. apply route_in.
        * intros [_ H]. simpl in H. by apply bytes_nlt_le in E. }
      destruct (IH (Some (c_Key s)) (c_Child s) Hs' H2 E Hsx Hnd Ht Hl) as (Hkids & Hfrom & Hprop). simpl in Hfrom.
      assert (Hls : match lo with Some l => bytes_lt l sep | None => True end).
      { destruct lo as [l|]; [|done]. apply Forall_cons in Hlos as [Hls _]. by eapply bytes_lt_le_trans. }
      assert (Hne : lo ≠ Some sep) by (intros ->; by apply bytes_lt_irrefl in Hls).
      split; [|split; [destruct lo; [by apply bytes_lt_le|done]|done]].
      rewrite decide_False by done. cbn [put_cell c_Key].
      case_decide as Es.
      * injection Es as Es. rewrite Es, bytes_compare_refl. cbn [kids c_Key c_Child]. rewrite <-Es.
        destruct st; [by destruct (Hprop eq_refl); rewrite Es|]. split; [by eapply leaf_at_loose|done].
      * apply bytes_le_lteq in Hfrom as [Hlt|Heq]; [|by rewrite Heq in Es]. rewrite (bytes_gt _ _ Hlt). cbn [kids]. done.
    + apply key_ge_lt in E. subst child. pose proof (split_proper _ _ _ Hl) as Hprop. destruct Hl as (S1 & S2 & S3 & S4). simpl in S2.
      split; [|done]. assert (Hrest : kids st V' m' (Some (c_Key s)) (c_Child s) seps) by by apply kids_kept.
      case_decide as Es; [by rewrite Es|]. cbn [put_cell c_Key]. unfold bytes_lt in S2. rewrite S2. cbn [kids c_Key c_Child]. done.
Qed.
End change.

(** ** Internal pages *)

Record sep_ok (s : Cell) : Prop := {
  so_key : 1 ≤ len (c_Key s) ≤ max_entry;
  so_value : c_Value s = [];
  so_child : 0 ≤ c_Child s < 2 ^ 32;
}.

Record inner_page (pg : Page) (seps : list Cell) : Prop := {
  ip_rep : page_rep pg seps;
  ip_inner : IsLeaf pg = false;
  ip_version : Version pg = PageFormatV2;
  ip_seps : Forall sep_ok seps;
}.

Lemma sep_bytes pg seps s : inner_page pg seps → sep_ok s → len (pbytes pg s) = 5 + len (c_Key s).
Proof.
  intros H [Hk Hv Hc]. unfold pbytes, isV1, cell_bytes. rewrite (ip_inner _ _ H), (ip_version _ _ H). cbn [Z.eqb].
  change (PageFormatV2 =? PageFormatV1) with false. cbv iota. unfold max_entry in *.
  rewrite !len_app, len_be_put4, len_varint, varint_small by lia. lia.
Qed.

(** A separator fits as long as the page took at most 38 of them. *)
Lemma inner_insert pg seps s n :
  inner_page pg seps → sep_ok s → PageSize - freePtr pg ≤ 101 * n → len seps ≤ n → n ≤ 38 →
  ∃ pg', InsertCell pg s = (pg', Ok tt) ∧ inner_page pg' (put_cell s seps) ∧ same_page pg pg' ∧
    PageSize - freePtr pg' ≤ 101 * (n + 1).
Proof.
  intros H Hs Hf Hl Hn. pose proof (sep_bytes pg seps s H Hs) as Hb. destruct Hs as [Hk Hv Hc] eqn:E. clear E.
  destruct (rep_num pg seps (ip_rep _ _ H)) as [En Hfew]. pose proof (len_nonneg seps). unfold max_entry in *.
  destruct (rep_insert pg seps s (ip_rep _ _ H)) as (pg' & Ei & Hp & Hsp & Ef).
  - rewrite (ip_inner _ _ H). done.
  - rewrite (ip_inner _ _ H). pose proof (cellSize_bytes pg s) as Es. rewrite (ip_inner _ _ H), Hb in Es. unfold IsFull.
    rewrite Es by (rewrite ?Hv, ?len_nil; lia). rewrite En, u16_small by lia. apply Z.ltb_ge.
    unfold cellDirOffset, HeaderSize, CellDirEntrySize, PageSize in *. lia.
  - exists pg'. split; [done|]. split; [|split; [done|lia]]. split; [done| | |].
    + by rewrite (same_page_leaf pg pg' Hsp), (ip_inner _ _ H).
    + destruct Hsp as (_ & _ & -> & _). apply H.
    + apply put_cell_Forall; [by split|apply H].
Qed.

(** ** The tree *)

(** A node took a separator for every page after the first three: itself and the two halves
    of the first leaf. *)
Definition node_at (V : Z → option Page) (np id : Z) (seps : list Cell) (right : Z) : Prop :=
  ∃ pg, V id = Some pg ∧ inner_page pg seps ∧ RightPtr pg = right ∧
    PageSize - freePtr pg ≤ 101 * (np - 3) ∧ len seps ≤ np - 3.

Inductive tree_ok (st : bool) (V : Z → option Page) (R : Z → Prop) (np root : Z) (m : gmap bytes bytes) : Prop :=
| tree_leaf : R root → leaf_at st V m root None None 0 → tree_ok st V R np root m
| tree_node seps right :
    node_at V np root seps right → NoDup (root :: right :: children seps) →
    Forall R (root :: right :: children seps) → kids st V m None right seps → tree_ok st V R np root m.

Lemma kids_some st V m seps : ∀ lo child, kids st V m lo child seps → ∀ id, id ∈ child :: children seps → is_Some (V id).
Proof.
  induction seps as [|s seps IH]; intros lo child Hk id Hid; cbn [kids] in Hk.
  - apply list_elem_of_singleton in Hid as ->. by eapply leaf_at_some.
  - destruct Hk as [H1 H2]. apply elem_of_cons in Hid as [->|Hid]; [by eapply leaf_at_some|by eapply IH].
Qed.

(** The tree only depends on its pages, which [R] contains. *)
Lemma tree_ok_ext st V V' (R R' : Z → Prop) np np' root m :
  tree_ok st V R np root m → np ≤ np' → (∀ id, R id → R' id ∧ V' id = V id) → tree_ok st V' R' np' root m.
Proof.
  intros Ht Hnp HV. destruct Ht as [Hr Hl|seps right (pg & E & H1 & H2 & H3 & H4) Hnd Hr Hk].
  - apply tree_leaf; [by apply HV|]. by apply (leaf_at_other st V V' m m); [|apply HV|].
  - rewrite Forall_forall in Hr. apply (tree_node _ _ _ _ _ _ seps right).
    + exists pg. destruct (HV root) as [_ ->]; [apply Hr; by left|]. split_and!; [done|done|done|lia|lia].
    + done.
    + apply Forall_forall. intros id Hid. by apply HV, Hr.
    + apply (kids_other st V V' m m); [apply H1|by apply Forall_true|done| |done].
      intros id Hid. apply HV, Hr. by right.
Qed.
