(* ===== verification/BtInsert.v ===== *)
(** Executing the tree operations on the pager: reading, inserting and splitting a leaf,
    with pages held across calls that may evict others. *)
From stdpp Require Import base gmap list strings numbers sorting.
From S2P Require Import Prelude GoLib GoState Common BtVarint BtPage BtNode BtWal BtPager BtCache BtSplit BtLeaf BtTreeInv.

Open Scope Z_scope.

Section insert.
Context {lv : Leftovers}.

(** ** Objects and views *)

Lemma SetDirty_rep b pg cells : page_rep pg cells → page_rep (SetDirty b pg) cells.
Proof. intros ([offs Hp] & Hs & H0). split; [exists offs; by destruct Hp|done]. Qed.

Lemma SetDirty_leaf b pg cells : leaf_page pg cells → leaf_page (SetDirty b pg) cells.
Proof. intros [? ? ? ? ? ?]. split; try done. by apply SetDirty_rep. Qed.

Lemma SetDirty_inner b pg seps : inner_page pg seps → inner_page (SetDirty b pg) seps.
Proof. intros [? ? ? ?]. split; try done. by apply SetDirty_rep. Qed.

Lemma rep_fits pg cells : page_rep pg cells → fits_page pg.
Proof. intros ([offs Hp] & _ & H0). split; [apply Hp|done]. Qed.

(** The object in the cache is the page the view shows, up to the dirty flag. *)
Lemma deref_view X p id ptr pg :
  pager_ok X p → p_cache p !! id = Some ptr → view p id = Some pg → ∃ b, deref p ptr = SetDirty b pg.
Proof.
  intros Hok Hc Hv. destruct (cached_fits X p id ptr Hok Hc) as (_ & Hid & Hfit & _).
  unfold view, page_image in Hv. rewrite Hc in Hv. injection Hv as <-. exists (pg_dirty (deref p ptr)).
  rewrite <-Hid at 1. rewrite as_page_fits by done. by destruct (deref p ptr).
Qed.

Lemma view_image p p' id : page_image p' id = page_image p id → view p' id = view p id.
Proof. unfold view. by intros ->. Qed.

Lemma view_set p id pg : page_image p id = Some (pg_data pg) → pg_id pg = id → fits_page pg → view p id = Some (SetDirty false pg).
Proof. intros E <- Hf. unfold view. rewrite E. simpl. by rewrite as_page_fits. Qed.

(** ** Composing changes of objects *)

Lemma upd_upd ptr f g p : upd ptr f (upd ptr g p) = upd ptr (f ∘ g) p.
Proof. unfold upd, set_store. cbn [p_store p_file p_cache p_lru p_lruMap p_cacheSize p_dirty p_metadata p_closed p_wal p_stats]. by rewrite list_alter_alter_eq. Qed.

Lemma upd_swap a b f g p : a ≠ b → upd a f (upd b g p) = upd b g (upd a f p).
Proof.
  intros H. unfold upd, set_store. cbn [p_store p_file p_cache p_lru p_lruMap p_cacheSize p_dirty p_metadata p_closed p_wal p_stats].
  by rewrite list_alter_alter_ne.
Qed.

Lemma upd_const ptr f p pg : p_store p !! ptr = Some pg → upd ptr f p = upd ptr (λ _, f pg) p.
Proof.
  intros H. unfold upd, set_store. f_equal. apply list_alter_ext; [|done]. intros x Hx. congruence.
Qed.

Lemma insert_cells_eq ptr cells : ∀ p pg pg',
  p_store p !! ptr = Some pg → fill_page pg cells = (pg', Ok tt) → insert_cells ptr cells p = (upd ptr (λ _, pg') p, Ok tt).
Proof.
  induction cells as [|c cells IH]; intros p pg pg' Hp Hf.
  - injection Hf as <-. cbn. unfold mret, M_ret. f_equal. unfold upd.
    rewrite (list_alter_ext _ id _ (p_store p)), list_alter_id; [by destruct p|done| |done]. intros x Hx. simpl. congruence.
  - unfold insert_cells. cbn [for_each]. unfold fill_page in Hf. cbn [foldl] in Hf.
    destruct (InsertCell pg c) as [pg1 r] eqn:E.
    assert (Hr : r = Ok tt).
    { destruct r as [[]| |]; [done| |]; exfalso; clear -Hf; revert Hf; induction cells as [|x l IHl]; simpl; intros; auto; congruence. }
    subst r. assert (E1 : on_page ptr (λ pg, InsertCell pg c) p = (upd ptr (λ _, pg1) p, Ok tt)).
    { unfold on_page. assert (deref p ptr = pg) as -> by (unfold deref; by rewrite Hp). by rewrite E. }
    go_step E1. specialize (IH (upd ptr (λ _, pg1) p) pg1 pg').
    unfold insert_cells in IH. rewrite IH; [|rewrite (lookup_upd p ptr _ ptr pg Hp); by rewrite decide_True|exact Hf].
    by rewrite upd_upd.
Qed.

(** Reading and changing an object, as equations. *)
Lemma read_page_eq {A} ptr (f : Page → A) p : read_page ptr f p = (p, Ok (f (deref p ptr))).
Proof. done. Qed.

Lemma change_page_eq ptr f p : change_page ptr f p = (upd ptr f p, Ok tt).
Proof. done. Qed.

Lemma on_page_eq {A} ptr (f : Page → Page * res A) p pg' r :
  f (deref p ptr) = (pg', r) → on_page ptr f p = (upd ptr (λ _, pg') p, r).
Proof. intros E. unfold on_page. by rewrite E. Qed.

Lemma bind_read {A B} ptr (f : Page → A) (k : A → M Pager B) p : (read_page ptr f ≫= k) p = k (f (deref p ptr)) p.
Proof. done. Qed.

Lemma bind_change {B} ptr f (k : () → M Pager B) p : (change_page ptr f ≫= k) p = k tt (upd ptr f p).
Proof. done. Qed.

Lemma bind_lift {S A B} (r : A) (k : A → M S B) s : (lift (Ok r) ≫= k) s = k r s.
Proof. done. Qed.

Lemma bind_read_lift {A B} ptr (f : Page → res A) (k : A → M Pager B) p a :
  f (deref p ptr) = Ok a → ((read_page ptr f ≫= lift) ≫= k) p = k a p.
Proof. intros E. unfold read_page, gets, lift, mbind, M_bind. by rewrite E. Qed.

Lemma collect_ok pg cells : page_rep pg cells → all_cells pg = Ok cells.
Proof.
  intros Hp. unfold all_cells. destruct (rep_num pg cells Hp) as [En _]. rewrite En.
  assert (H : ∀ b a, cells = a ++ b → collect_cells (length b) pg (len a) = Ok b).
  { induction b as [|c b IH]; intros a E; cbn [collect_cells length]; [done|].
    assert (Hc : CellAt pg (len a) = Ok c) by (apply (rep_CellAt pg cells (length a) c Hp); subst; by apply list_lookup_middle).
    rewrite Hc. cbn [mbind res_bind].
    replace (len a + 1) with (len (a ++ [c])) by (rewrite len_app; done). rewrite IH by (by rewrite <-app_assoc). cbn. by destruct c. }
  specialize (H cells [] eq_refl). replace (Z.to_nat (len cells)) with (length cells) by (unfold len; lia). exact H.
Qed.

(** ** Pages that stay in the cache *)

(** The page was used last, or no eviction finds it; and the same for the last two. *)
Definition recent (p : Pager) (id : Z) : Prop := head (lru_ids p) = Some id ∨ id ∈ unlisted.

Definition pinned (p : Pager) (id : Z) (ptr : page_ptr) : Prop :=
  p_cache p !! id = Some ptr ∧ (id ∈ take 2 (lru_ids p) ∨ id ∈ unlisted).

Lemma take2_add cs id i ids : 3 ≤ cs → i ∈ take 2 ids → i ∈ lru_add cs id ids.
Proof.
  intros Hcs Hi. unfold lru_add. right. destruct (Z.leb_spec cs (len ids)) as [H|H].
  - destruct ids as [|a [|b [|c ids]]]; try (unfold len in H; simpl in H; lia). simpl in Hi.
    change (removelast (a :: b :: c :: ids)) with (a :: b :: removelast (c :: ids)). set_solver.
  - rewrite <-(take_drop 2 ids). set_solver.
Qed.

Lemma head_get cs id h ids : 3 ≤ cs → h ≠ id → head ids = Some h → take 2 (lru_get cs id ids) = [id; h].
Proof.
  intros Hcs Hne Hh. destruct ids as [|x ids]; [done|]. injection Hh as ->. unfold lru_get. case_decide as Hin.
  - rewrite filter_cons_True by done. done.
  - unfold lru_add. destruct (Z.leb_spec cs (len (h :: ids))) as [H|H]; [|done].
    destruct ids as [|b [|c ids]]; try (unfold len in H; simpl in H; lia). done.
Qed.

Lemma head_get_first cs id ids : head (lru_get cs id ids) = Some id.
Proof. unfold lru_get. by case_decide. Qed.

Lemma take2_nin {A} (x : A) ids : head ids = Some x → x ∈ take 2 ids.
Proof. destruct ids as [|y ids]; [done|]. intros [= ->]. simpl. by left. Qed.

(** A page that was just read is recent, and the recent page before it is held for one more
    step. *)
Lemma get_recent p p' id ptr :
  pager_ok ∅ p' → p_cache p' !! id = Some ptr →
  lru_ids p' = (if decide (id ∈ unlisted) then lru_ids p else lru_get (p_cacheSize p) id (lru_ids p)) → recent p' id ∧ pinned p' id ptr.
Proof.
  intros Hok Hc El. unfold recent, pinned. case_decide as Hun; [auto|]. rewrite El.
  pose proof (head_get_first (p_cacheSize p) id (lru_ids p)) as Hh. split; [by left|]. split; [done|]. left. by apply take2_nin.
Qed.

Lemma get_pinned p p' id h q :
  3 ≤ p_cacheSize p → pager_ok ∅ p' → recent p h → p_cache p !! h = Some q → h ≠ id →
  lru_ids p' = (if decide (id ∈ unlisted) then lru_ids p else lru_get (p_cacheSize p) id (lru_ids p)) →
  (∀ i, is_Some (p_cache p' !! i) → i ≠ id → p_cache p' !! i = p_cache p !! i) → pinned p' h q.
Proof.
  intros Hcs Hok Hh Hq Hne El Hkeep. assert (Hin : h ∈ take 2 (lru_ids p') ∨ h ∈ unlisted).
  { destruct Hh as [Hh|?]; [left|by right]. rewrite El. case_decide; [by apply take2_nin|]. rewrite (head_get _ _ h) by done. set_solver. }
  split; [|done]. rewrite Hkeep; [done| |done]. apply (ok_keys _ _ Hok). destruct Hin as [Hin|?]; [left|by right].
  rewrite <-(take_drop 2 (lru_ids p')). set_solver.
Qed.

(** ** Splitting a leaf *)

(** What a tree operation keeps besides the pages it changes. *)
Record same_setup (p p' : Pager) : Prop := {
  ss_root : RootPageID p' = RootPageID p;
  ss_size : p_cacheSize p' = p_cacheSize p;
  ss_wal : is_Some (p_wal p') ↔ is_Some (p_wal p);
}.

#[global] Instance same_setup_pre : PreOrder same_setup.
Proof. split; [done|]. intros p q r [? ? ?] [? ? ?]. split; [congruence|congruence|tauto]. Qed.

Lemma frame_setup p p' : pager_frame p p' → same_setup p p'.
Proof. intros [Hm Hs Hw]. split; [unfold RootPageID; by rewrite Hm|done|by rewrite Hw]. Qed.

(** Marking a page that was changed. *)
Lemma mark_step X p id ptr :
  pager_ok X p → p_cache p !! id = Some ptr →
  let p' := MarkDirty id p in
  pager_ok (X ∖ {[id]}) p' ∧ (∀ i, view p' i = view p i) ∧ same_setup p p' ∧ NumPages p' = NumPages p ∧
  p_cache p' = p_cache p ∧ lru_ids p' = lru_ids p.
Proof.
  intros Hok Hc. cbn zeta. destruct (MarkDirty_ok X p id ptr Hok Hc) as (A1 & A2 & A3 & A4 & A5 & A6 & A7 & A8 & A9 & A10).
  split; [done|]. split; [intros i; by apply view_image|]. split; [|split; [unfold NumPages; by rewrite A3|done]].
  split; [unfold RootPageID; by rewrite A3|done|]. rewrite A9. by rewrite fmap_is_Some.
Qed.

(** Replacing the object of a page. *)
Lemma set_step X p id ptr pg :
  pager_ok X p → p_cache p !! id = Some ptr → fits_page pg → pg_id pg = id →
  let p' := upd ptr (λ _, pg) p in
  pager_ok ({[id]} ∪ X) p' ∧ deref p' ptr = pg ∧ view p' id = Some (SetDirty false pg) ∧
  (∀ i, i ≠ id → view p' i = view p i) ∧ same_setup p p' ∧ NumPages p' = NumPages p ∧ p_cache p' = p_cache p ∧
  lru_ids p' = lru_ids p.
Proof.
  intros Hok Hc Hf Hid p'. destruct (upd_ok X p id ptr (λ _, pg) Hok Hc Hf Hid) as (A1 & A2 & A3 & A4 & A5 & A6 & A7 & A8 & A9).
  split; [done|]. split; [done|]. split; [by apply view_set|]. split; [intros i Hi; by apply view_image, A5|].
  split; [by apply frame_setup|done].
Qed.

(** Changing an object and marking the page. *)
Lemma set_mark_in X p id ptr pg :
  X ⊆ {[id]} → pager_ok X p → p_cache p !! id = Some ptr → fits_page pg → pg_id pg = id →
  let p' := MarkDirty id (upd ptr (λ _, pg) p) in
  pager_ok ∅ p' ∧ view p' id = Some (SetDirty false pg) ∧
  (∀ i, i ≠ id → view p' i = view p i) ∧ same_setup p p' ∧ NumPages p' = NumPages p ∧ p_cache p' = p_cache p ∧
  lru_ids p' = lru_ids p.
Proof.
  intros HX Hok Hc Hf Hid. destruct (set_step X p id ptr pg Hok Hc Hf Hid) as (A1 & A2 & A3 & A4 & A5 & A6 & A7 & A8).
  rewrite <-A7 in Hc. destruct (mark_step _ _ id ptr A1 Hc) as (B1 & B2 & B3 & B4 & B5 & B6). cbn zeta.
  replace (({[id]} ∪ X) ∖ {[id]}) with (∅ : gset Z) in B1 by set_solver.
  split; [done|]. split; [by rewrite B2|]. split; [intros i Hi; by rewrite B2, A4|]. split; [by etrans|].
  split; [by rewrite B4|]. split; [by rewrite B5|by rewrite B6].
Qed.

Lemma set_mark p id ptr pg :
  pager_ok ∅ p → p_cache p !! id = Some ptr → fits_page pg → pg_id pg = id →
  let p' := MarkDirty id (upd ptr (λ _, pg) p) in
  pager_ok ∅ p' ∧ view p' id = Some (SetDirty false pg) ∧
  (∀ i, i ≠ id → view p' i = view p i) ∧ same_setup p p' ∧ NumPages p' = NumPages p ∧ p_cache p' = p_cache p ∧
  lru_ids p' = lru_ids p.
Proof. apply set_mark_in. set_solver. Qed.

(** The state after the two halves are in their pages, before they are marked. *)
Definition split_state (ptr np : page_ptr) (pgL pgR : Page) (right : Z) (p : Pager) : Pager :=
  upd np (λ _, SetRightPtr right pgR) (upd ptr (λ _, SetRightPtr (pg_id pgR) pgL) p).

Lemma splitLeaf_eq p p1 ptr np key value cells pgL pgR x :
  all_cells (deref p ptr) = Ok cells → Pager_NewPage PageTypeLeaf p = (p1, Ok np) → ptr ≠ np →
  is_Some (p_store p1 !! ptr) → is_Some (p_store p1 !! np) →
  let l := add_cell (MkCell key value 0) cells in
  fill_page (clear_page (deref p1 ptr)) (take (length l / 2) l) = (pgL, Ok tt) →
  fill_page (deref p1 np) (drop (length l / 2) l) = (pgR, Ok tt) →
  let p2 := MarkDirty (pg_id pgR) (MarkDirty (pg_id pgL) (split_state ptr np pgL pgR (RightPtr pgL) p1)) in
  CellAt (deref p2 np) 0 = Ok x →
  splitLeaf ptr key value p = (p2, Ok (MkSplit (c_Key x) (pg_id pgR) (pg_id pgL))).
Proof.
  intros Hall Hnew Hne [pg Hptr] [pn Hnp] l HL HR p2 Hx. unfold splitLeaf.
  rewrite (bind_read_lift ptr all_cells _ p cells Hall). fold l. go_step Hnew. rewrite bind_change.
  assert (E1 : p_store (upd ptr clear_page p1) !! ptr = Some (clear_page pg)) by (rewrite (lookup_upd _ _ _ _ _ Hptr); by rewrite decide_True).
  assert (Epg : deref p1 ptr = pg) by (unfold deref; by rewrite Hptr). rewrite Epg in HL.
  assert (Epn : deref p1 np = pn) by (unfold deref; by rewrite Hnp). rewrite Epn in HR.
  go_step (insert_cells_eq ptr _ _ _ _ E1 HL). rewrite upd_upd.
  assert (E2 : p_store (upd ptr ((λ _, pgL) ∘ clear_page) p1) !! np = Some pn).
  { rewrite (lookup_upd _ _ _ _ _ Hnp). by rewrite decide_False. }
  go_step (insert_cells_eq np _ _ _ _ E2 HR). rewrite !bind_read, !bind_change.
  assert (Es : upd np (SetRightPtr (RightPtr (deref (upd np (λ _, pgR) (upd ptr ((λ _, pgL) ∘ clear_page) p1)) ptr)))
      (upd ptr (SetRightPtr (pg_id (deref (upd np (λ _, pgR) (upd ptr ((λ _, pgL) ∘ clear_page) p1)) np)))
        (upd np (λ _, pgR) (upd ptr ((λ _, pgL) ∘ clear_page) p1))) = split_state ptr np pgL pgR (RightPtr pgL) p1).
  { rewrite (deref_upd_ne _ np ptr) by done. rewrite (deref_upd p1 ptr _ pg Hptr). rewrite (deref_upd _ np _ pn E2). cbn [compose].
    rewrite (upd_swap ptr np) by done. rewrite !upd_upd. done. }
  rewrite Es. rewrite bind_read, !modify_bind.
  assert (Ei : pg_id (deref (split_state ptr np pgL pgR (RightPtr pgL) p1) ptr) = pg_id pgL).
  { unfold split_state. rewrite deref_upd_ne by done. by rewrite (deref_upd p1 ptr _ pg Hptr). }
  assert (En : pg_id (deref (upd np (λ _, pgR) (upd ptr ((λ _, pgL) ∘ clear_page) p1)) np) = pg_id pgR) by by rewrite (deref_upd _ np _ pn E2).
  rewrite Ei, En. fold p2. by rewrite (bind_read_lift np (λ pg, CellAt pg 0) _ p2 x Hx).
Qed.

Lemma SetRight_leaf pg cells r : leaf_page pg cells → 0 ≤ r < 2 ^ 32 →
  leaf_page (SetRightPtr r pg) cells ∧ pg_id (SetRightPtr r pg) = pg_id pg ∧ freePtr (SetRightPtr r pg) = freePtr pg ∧
  RightPtr (SetRightPtr r pg) = r.
Proof.
  intros [H1 H2 H3 H4 H5 _] Hr. destruct (SetRightPtr_rep pg cells r H1 Hr) as (A1 & A2 & A3 & A4 & A5 & A6).
  split; [|done]. split; [done|by rewrite A4|by rewrite A5|done|by rewrite A6|by rewrite A2].
Qed.

Lemma SetDirty_scannable b pg cells lo hi next : scannable pg cells lo hi next → scannable (SetDirty b pg) cells lo hi next.
Proof. by intros []; split. Qed.

Lemma leaf_at_page st (V : Z → option Page) m id lo hi next pg cells b :
  V id = Some (SetDirty b pg) → leaf_page pg cells →
  Forall (λ x, key_from lo (c_Key x) ∧ key_upto hi (c_Key x)) cells → leaf_room hi pg cells →
  (∀ k, key_from lo k → key_below hi k → leaf_map cells !! k = m !! k) →
  (st = true → scannable pg cells lo hi next) → leaf_at st V m id lo hi next.
Proof.
  intros E H1 H2 H3 H4 H5. exists (SetDirty b pg), cells. split; [done|]. split; [by apply SetDirty_leaf|]. do 3 (split; [done|]).
  intros Hst. by apply SetDirty_scannable, H5.
Qed.

Lemma cached_some X p id ptr : pager_ok X p → p_cache p !! id = Some ptr → is_Some (p_store p !! ptr).
Proof. intros Hok Hc. destruct (cached_fits X p id ptr Hok Hc) as [-> _]. by eexists. Qed.

Lemma view_same p p' : (∀ i, in_range p i → page_image p' i = page_image p i) → ∀ i, in_range p i → view p' i = view p i.
Proof. intros H i Hi. by apply view_image, H. Qed.

Lemma splitLeaf_ok st p m id ptr pg lo hi next cells key value :
  pager_ok ∅ p → 3 ≤ p_cacheSize p → NumPages p + 1 < 2 ^ 32 → pinned p id ptr →
  view p id = Some pg → leaf_page pg cells → small_cell (MkCell key value 0) →
  Forall (λ x, key_from lo (c_Key x) ∧ key_upto hi (c_Key x)) cells → leaf_room hi pg cells →
  (∀ k, key_from lo k → key_below hi k → leaf_map cells !! k = m !! k) →
  (st = true → scannable pg cells lo hi next ∧ m !! key = None) →
  key_from lo key → key_below hi key → freePtr pg - (12 + 2 * len cells) < leaf_bytes (MkCell key value 0) →
  let new := NumPages p in
  ∃ p' sep, splitLeaf ptr key value p = (p', Ok (MkSplit sep new id)) ∧ pager_ok ∅ p' ∧
    splits_leaf st (view p') (<[key := value]> m) id new sep lo hi next ∧ 1 ≤ len sep ≤ max_entry ∧
    (∀ i, in_range p i → i ≠ id → view p' i = view p i) ∧ same_setup p p' ∧ NumPages p' = new + 1 ∧
    (∀ i q, pinned p i q → p_cache p' !! i = Some q).
Proof.
  intros Hok Hcs Hmax [Hc Hpin] Hv Hp Hsmall Hb Hroom Hm Hscan Hlo Hhi Hfull new.
  pose proof (eq_refl : new = NumPages p) as Hnd. clearbody new.
  destruct (deref_view _ _ _ _ _ Hok Hc Hv) as [b Hd]. destruct (cached_fits _ _ _ _ Hok Hc) as (_ & Hid & _ & Hr). pose proof Hr as [[Hr1 Hr2] _].
  destruct (NewPage_ok p PageTypeLeaf Hok Hmax) as (p1 & np & Enew & A1 & A2 & A3 & A4 & A5 & A6 & A7 & A8 & A9 & A10 & _); [lia|].
  rewrite <-Hnd in *.
  assert (Hkeep : ∀ i q, pinned p i q → p_cache p1 !! i = Some q ∧ i ≠ new).
  { intros i q [Hq Hi]. destruct (cached_fits _ _ _ _ Hok Hq) as (_ & _ & _ & [? ?]). assert (i ≠ new) by lia.
    split; [|done]. rewrite A10; [done| |done]. apply (ok_keys _ _ A1). destruct Hi as [Hi|?]; [left|by right].
    rewrite A9. by apply take2_add. }
  destruct (Hkeep id ptr) as [Hc1 Hnew]; [done|].
  assert (Hv1 : view p1 id = Some pg) by (rewrite <-Hv; apply view_image, A4; done).
  destruct (deref_view _ _ _ _ _ A1 Hc1 Hv1) as [b1 Hd1]. destruct (cached_fits _ _ _ _ A1 Hc1) as (_ & Hid1 & _ & _).
  assert (Hne : ptr ≠ np) by (intros ->; apply Hnew; by eapply cached_inj).
  destruct (new_leaf new) as [Hnl Hnf].
  assert (Hp1 : leaf_page (SetDirty b1 pg) cells) by by apply SetDirty_leaf.
  destruct (split_leaf_pages (SetDirty b1 pg) (NewPage new PageTypeLeaf) lo hi cells (MkCell key value 0))
    as (pgL & pgR & left & x & right & EL & ER & HL & HR & HspL & HspR & S1 & S2 & S3 & S4 & S5 & S6 & T1 & T2 & T3 & S7); try done.
  set (l := add_cell (MkCell key value 0) cells) in *. cbn [c_Key c_Value] in S7.
  assert (Hidl : pg_id pgL = id). { destruct HspL as [-> _]. by rewrite <-Hd1. }
  assert (Hidr : pg_id pgR = new) by by destruct HspR as [-> _].
  assert (HrL : RightPtr pgL = RightPtr pg) by (destruct HspL as (_ & _ & _ & -> & _); done).
  destruct (SetRight_leaf pgL left new HL) as (QL & QLi & QLf & QLr); [lia|].
  destruct (SetRight_leaf pgR (x :: right) (RightPtr pgL) HR) as (QR & QRi & QRf & QRr); [rewrite HrL; apply Hp|].
  (* the state before the marks *)
  destruct (set_step _ p1 id ptr (SetRightPtr new pgL) A1 Hc1) as (B1 & B2 & B3 & B4 & B5 & B6 & B7 & B8); [by eapply rep_fits, QL|by rewrite QLi|].
  set (p2 := upd ptr (λ _, SetRightPtr new pgL) p1) in *. rewrite <-B7 in A2.
  destruct (set_step _ p2 new np (SetRightPtr (RightPtr pgL) pgR) B1 A2) as (C1 & C2 & C3 & C4 & C5 & C6 & C7 & C8); [by eapply rep_fits, QR|by rewrite QRi|].
  set (p3 := upd np (λ _, SetRightPtr (RightPtr pgL) pgR) p2) in *.
  assert (Hs : split_state ptr np pgL pgR (RightPtr pgL) p1 = p3) by (unfold split_state; by rewrite Hidr).
  assert (Hc3 : p_cache p3 !! id = Some ptr) by by rewrite C7, B7. destruct (mark_step _ p3 id ptr C1 Hc3) as (D1 & D2 & D3 & D4 & D5 & D6).
  set (p4 := MarkDirty id p3) in *. assert (Hc4 : p_cache p4 !! new = Some np) by by rewrite D5, C7.
  destruct (mark_step _ p4 new np D1 Hc4) as (E1 & E2 & E3 & E4 & E5 & E6). set (p5 := MarkDirty new p4) in *.
  replace ((({[new]} ∪ ({[id]} ∪ {[new]})) ∖ {[id]}) ∖ {[new]}) with (∅ : gset Z) in E1 by set_solver.
  assert (HvR : view p5 new = Some (SetDirty false (SetRightPtr (RightPtr pgL) pgR))) by by rewrite E2, D2, C3.
  assert (HvL : view p5 id = Some (SetDirty false (SetRightPtr new pgL))) by (rewrite E2, D2, C4 by done; done).
  assert (Hc5 : p_cache p5 !! new = Some np) by by rewrite E5.
  destruct (deref_view _ _ _ _ _ E1 Hc5 HvR) as [b5 Hd5].
  exists p5, (c_Key x). split.
  { pose proof (splitLeaf_eq p p1 ptr np key value cells pgL pgR x) as E. rewrite Hidl, Hidr, Hs in E. apply E; try done.
    - apply collect_ok. rewrite Hd. by apply SetDirty_rep, Hp.
    - by eapply cached_some.
    - eapply cached_some; [exact A1|]. by rewrite B7 in A2.
    - by rewrite Hd1.
    - by rewrite A3.
    - fold p4. fold p5. rewrite Hd5. apply (rep_CellAt _ (x :: right) 0 x); [by apply SetDirty_rep, SetDirty_rep, QR|done]. }
  split; [done|]. split; [|split; [done|split; [|split; [|split]]]].
  - split; [done|]. split; [done|]. split.
    + eapply (leaf_at_page _ _ _ id lo (Some (c_Key x)) new (SetRightPtr new pgL) left); [exact HvL|done|done| | |].
      * intros z Ez Eh. rewrite QLf. by apply (S6 z).
      * intros k Hk1 Hk2. specialize (S7 k). rewrite (proj2 (bytes_ltb_lt _ _) Hk2) in S7. rewrite S7.
        assert (Hk3 : key_below hi k) by (by eapply key_below_lt).
        destruct (decide (k = key)) as [->|Hnk]; [by rewrite !lookup_insert_eq|]. rewrite !lookup_insert_ne by done. by apply Hm.
      * intros Hst. destruct (Hscan Hst) as [[N1 N2 N3] Hkey]. split; [|done|].
        -- apply T2. cbn [c_Key]. by rewrite Hm.
        -- destruct N3 as [?|?]; [by left|right; by apply T1].
    + eapply (leaf_at_page _ _ _ new (Some (c_Key x)) hi next (SetRightPtr (RightPtr pgL) pgR) (x :: right)); [exact HvR|done|done| | |].
      * intros z Ez Eh. exfalso. injection Ez as -> _. rewrite Eh in S2. simpl in S2. by apply bytes_lt_irrefl in S2.
      * intros k Hk1 Hk2. specialize (S7 k). rewrite (proj2 (bytes_ltb_nlt _ _) Hk1) in S7. rewrite S7.
        assert (Hk3 : key_from lo k) by (by eapply key_from_le).
        destruct (decide (k = key)) as [->|Hnk]; [by rewrite !lookup_insert_eq|]. rewrite !lookup_insert_ne by done. by apply Hm.
      * intros Hst. destruct (Hscan Hst) as [[N1 N2 N3] Hkey]. split; [by apply T3| |by right].
        by rewrite QRr, HrL.
  - intros i Hi Hni. rewrite E2, D2. assert (i ≠ new) by (destruct Hi; lia). rewrite C4, B4 by done. by apply view_image, A4.
  - assert (S0 : same_setup p p1) by (split; [done|done|by rewrite A8]).
    do 3 (etrans; [eassumption|]). etrans; eassumption.
  - by rewrite E4, D4, C6, B6.
  - intros i q Hq. destruct (Hkeep i q Hq) as [Hq1 _]. by rewrite E5, D5, C7, B7.
Qed.
End insert.
