(* ===== verification/BtRefine.v ===== *)
(** The engine refines a map: on a tree of height one or two, puts, gets and deletes that do
    not rebalance act on the pages as on a map from keys to values. *)
From stdpp Require Import base gmap list strings numbers sorting.
From S2P Require Import Prelude GoLib GoState Common BtVarint BtPage BtNode BtWal BtPager BtCache BtSplit BtMerge BtTree BtLeaf BtTreeInv BtInsert.

Open Scope Z_scope.

(** ** Inserting a cell into an object *)

Lemma upd_id ptr p pg : p_store p !! ptr = Some pg → upd ptr (λ _, pg) p = p.
Proof.
  intros H. unfold upd. rewrite (list_alter_ext _ id _ (p_store p)), list_alter_id; [by destruct p|done| |done].
  intros x Hx. simpl. congruence.
Qed.

Lemma try_insert_full p ptr c pg :
  p_store p !! ptr = Some pg → InsertCell pg c = (pg, Err ErrPageFull) → try_insert ptr c p = (p, Ok true).
Proof.
  intros Hp E. unfold try_insert, try_, on_page, mbind, M_bind.
  assert (deref p ptr = pg) as -> by (unfold deref; by rewrite Hp). rewrite E. cbn. by rewrite (upd_id ptr p pg Hp).
Qed.

Lemma try_insert_fits p ptr c pg pg' :
  p_store p !! ptr = Some pg → InsertCell pg c = (pg', Ok tt) → try_insert ptr c p = (upd ptr (λ _, pg') p, Ok false).
Proof.
  intros Hp E. unfold try_insert, try_, on_page, mbind, M_bind.
  assert (deref p ptr = pg) as -> by (unfold deref; by rewrite Hp). by rewrite E.
Qed.

Section refine.
Context {lv : Leftovers}.

(** ** Inserting into a leaf *)

Definition new_cell (key value : bytes) : Cell := MkCell key value 0.

(** What the insertion into the leaf [id] did: nothing else changed, or it was split. *)
Definition leaf_inserted (p p' : Pager) (st : bool) (m' : gmap bytes bytes) (id : Z) (lo hi : option bytes) (next : Z) (r : option (bytes * Z)) : Prop :=
  match r with
  | None => NumPages p' = NumPages p ∧ leaf_at st (view p') m' id lo hi next
  | Some (sep, new) => new = NumPages p ∧ NumPages p' = new + 1 ∧ 1 ≤ len sep ≤ max_entry ∧
      splits_leaf st (view p') m' id new sep lo hi next
  end.

Lemma leaf_map_put_cell cells key value :
  StronglySorted (key_lt c_Key) cells → leaf_map (put_cell (new_cell key value) cells) = <[key := value]> (leaf_map cells).
Proof. intros Hs. unfold leaf_map. rewrite put_cell_map by done. by rewrite fmap_insert. Qed.

Lemma put_cell_length c x cells z : put_cell c (x :: cells) = [z] → c_Key z = c_Key c.
Proof.
  simpl. destruct (bytes_compare _ _); [by intros [= <- _]|done|]. intros H. exfalso.
  apply (f_equal len) in H. rewrite len_cons in H. pose proof (len_put_cell c cells) as [_ ?]. change (len [z]) with 1 in H. lia.
Qed.

Lemma insert_leaf_ok st fuel p m id lo hi next key value :
  pager_ok ∅ p → 3 ≤ p_cacheSize p → NumPages p + 1 < 2 ^ 32 → in_range p id → leaf_at st (view p) m id lo hi next →
  small_cell (new_cell key value) → (st = true → m !! key = None) → key_from lo key → key_below hi key →
  ∃ p' r, insertAndSplit (S fuel) id key value p = (p', Ok r) ∧ pager_ok ∅ p' ∧ same_setup p p' ∧
    (∀ i, in_range p i → i ≠ id → view p' i = view p i) ∧
    (∀ h q, recent p h → p_cache p !! h = Some q → h ≠ id → p_cache p' !! h = Some q) ∧
    leaf_inserted p p' st (<[key := value]> m) id lo hi next r.
Proof.
  intros Hok Hcs Hmax Hr Hleaf Hsmall Hfresh Hlo Hhi. cbn [insertAndSplit].
  destruct (GetPage_ok p id Hok Hr) as (p1 & ptr & Eg & A1 & A2 & A3 & A4 & A5 & A6 & A7). go_step Eg.
  assert (Hv : ∀ i, in_range p i → view p1 i = view p i) by by apply view_same.
  destruct Hleaf as (pg & cells & HV & Hp & Hb & Hroom & Hm & Hscan). rewrite <-Hv in HV by done.
  destruct (deref_view _ _ _ _ _ A1 A2 HV) as [b Hd]. pose proof (SetDirty_leaf b pg cells Hp) as Hpb.
  rewrite bind_read, Hd, (lp_leaf _ _ Hpb). destruct (cached_fits _ _ _ _ A1 A2) as (Hst & Hid & _). rewrite Hd in Hst.
  assert (Hn1 : NumPages p1 = NumPages p) by (unfold NumPages; by rewrite (pf_metadata _ _ A4)).
  assert (Hparent : ∀ h q, recent p h → p_cache p !! h = Some q → h ≠ id → pinned p1 h q).
  { intros h q Hh Hq Hne. by apply (get_pinned p p1 id). }
  pose proof (leaf_insert _ _ (new_cell key value) Hpb Hsmall) as Hins.
  change (freePtr (SetDirty b pg)) with (freePtr pg) in Hins. case_decide as Hfull.
  - go_step (try_insert_full p1 ptr _ _ Hst Hins).
    destruct (get_recent p p1 id ptr A1 A2 A5) as [_ Hpin].
    destruct (splitLeaf_ok st p1 m id ptr pg lo hi next cells key value A1) as (p2 & sep & Es & B1 & B2 & B3 & B4 & B5 & B6 & B7); try done.
    { by rewrite (pf_size _ _ A4). }
    { by rewrite Hn1. }
    { intros Hstr. split; [by apply Hscan|by apply Hfresh]. }
    go_step Es. eexists p2, _. split; [done|]. split; [done|]. split; [etrans; [by apply frame_setup|exact B5]|]. split.
    { intros i Hi Hne. rewrite B4, Hv; [done|done| |done]. unfold in_range in *. by rewrite Hn1. }
    split; [intros h q Hh Hq Hne; apply B7; by apply Hparent|]. cbn [leaf_inserted sr_SplitKey sr_NewPageID].
    rewrite B6, Hn1 in *. done.
  - destruct Hins as (pg' & Ei & Hp' & Hsp & Ef). go_step (try_insert_fits p1 ptr _ _ _ Hst Ei).
    rewrite bind_read, modify_bind. rewrite (deref_upd p1 ptr _ _ Hst).
    assert (Hid' : pg_id pg' = id) by (destruct Hsp as [-> _]; by rewrite <-Hd). rewrite Hid'.
    destruct (set_mark p1 id ptr pg' A1 A2) as (B1 & B2 & B3 & B4 & B5 & B6 & B7); [by eapply rep_fits, Hp'|done|].
    eexists _, None. split; [done|]. split; [done|]. split; [etrans; [by apply frame_setup|exact B4]|]. split.
    { intros i Hi Hne. rewrite B3, Hv by done. done. }
    split; [intros h q Hh Hq Hne; rewrite B6; by apply Hparent|]. cbn [leaf_inserted]. split; [by rewrite B5|].
    pose proof (lp_rep _ _ Hp) as (_ & Hsort & _).
    eapply (leaf_at_page _ _ _ id lo hi next pg'); [exact B2|done| | | |].
    + apply put_cell_Forall; [|done]. split; [done|]. destruct hi; [by apply bytes_lt_le|done].
    + intros z Ez Eh. destruct cells as [|x cells].
      * injection Ez as <-. subst hi. simpl in Hhi. by apply bytes_lt_irrefl in Hhi.
      * apply put_cell_length in Ez. subst hi. simpl in Hhi. rewrite Ez in Hhi. by apply bytes_lt_irrefl in Hhi.
    + intros k H1 H2. rewrite leaf_map_put_cell by done. destruct (decide (k = key)) as [->|Hne]; [by rewrite !lookup_insert_eq|].
      rewrite !lookup_insert_ne by done. by apply Hm.
    + intros Hstr. destruct (Hscan Hstr) as [N1 N2 N3]. split; [by apply put_cell_Forall| |].
      * destruct Hsp as (_ & _ & _ & -> & _). exact N2.
      * right. pose proof (len_put_cell (new_cell key value) cells) as [_ H]. intros E. by rewrite E in H.
Qed.

(** ** Inserting below a node *)

(** The pages in range, and no others. *)
Definition range_view (p : Pager) (i : Z) : option Page := if decide (in_range p i) then view p i else None.

Lemma range_view_in p i : in_range p i → range_view p i = view p i.
Proof. intros H. unfold range_view. by rewrite decide_True. Qed.

Lemma range_view_some p i : is_Some (range_view p i) → in_range p i.
Proof. unfold range_view. case_decide; [done|by intros []]. Qed.

Lemma kids_range st p m lo child seps :
  StronglySorted (key_lt c_Key) seps → Forall (λ s, key_from lo (c_Key s)) seps →
  Forall (in_range p) (child :: children seps) → kids st (view p) m lo child seps → kids st (range_view p) m lo child seps.
Proof.
  intros Hs Hlo Hr Hk. apply (kids_other st (view p) (range_view p) m m); try done.
  intros id Hid. apply range_view_in. rewrite Forall_forall in Hr. by apply Hr.
Qed.

Lemma GetChild_ok pg seps key :
  inner_page pg seps → RightPtr pg ≠ 0 → GetChildPageID pg key = Ok (route (RightPtr pg) seps key).
Proof.
  intros Hp Hr. destruct (node_routes pg seps key (ip_rep _ _ Hp) (ip_inner _ _ Hp)) as [_ ->]. rewrite decide_False; [done|tauto].
Qed.

Lemma in_range_mono p p' i : NumPages p ≤ NumPages p' → in_range p i → in_range p' i.
Proof. intros H [? ?]. split; [lia|done]. Qed.

Lemma new_in_range X p p' : pager_ok X p → 1 ≤ NumPages p < NumPages p' → in_range p' (NumPages p).
Proof. intros Hok ?. split; [lia|]. intros Hg%(ok_gaps _ _ Hok). lia. Qed.

(** The result of an insertion below a node: the leaf for the key changed, and perhaps a
    page was added. *)
Section below.
Context (st : bool) (p p' : Pager) (m m' : gmap bytes bytes) (seps : list Cell) (right : Z) (key : bytes).
Context (Hm' : ∀ k, k ≠ key → m' !! k = m !! k).
Context (Hs : StronglySorted (key_lt c_Key) seps) (Hnd : NoDup (right :: children seps)).
Context (Hr : Forall (in_range p) (right :: children seps)) (Hk : kids st (view p) m None right seps).
Context (Hv : ∀ i, in_range p i → i ≠ route right seps key → view p' i = view p i).

Let b := route_bounds None seps key.

Lemma below_kids : kids st (range_view p) m None right seps.
Proof using Hs Hr Hk. apply kids_range; try done. by apply Forall_true. Qed.

Lemma below_same : ∀ i, i ≠ route right seps key → is_Some (range_view p i) → view p' i = range_view p i.
Proof using Hv. intros i Hne Hi. apply range_view_some in Hi. rewrite range_view_in by done. by apply Hv. Qed.

Lemma below_replace : leaf_in st (view p') m' (route right seps key) b (route_next seps key) → kids st (view p') m' None right seps.
Proof using Hs Hnd Hr Hk Hv Hm'.
  intros Hl. by apply (kids_replace st (range_view p) (view p') m m' key (route right seps key) below_same Hm' seps None right Hs below_kids I Hnd).
Qed.

Lemma below_split new sep :
  splits_leaf st (view p') m' (route right seps key) new sep b.1 b.2 (route_next seps key) →
  kids st (view p') m' None right (put_cell (MkCell sep [] new) seps).
Proof using Hs Hnd Hr Hk Hv Hm'.
  intros Hl. destruct (kids_split st (range_view p) (view p') m m' key (route right seps key) below_same Hm' new sep seps None right
    Hs below_kids I I Hnd eq_refl Hl) as [H _]. by rewrite decide_False in H.
Qed.
End below.

(** The bound on the size of the file under which a node never splits. *)
Definition max_pages : Z := 41.

Lemma children_put_cell sep new seps x : x ∈ children (put_cell (MkCell sep [] new) seps) → x = new ∨ x ∈ children seps.
Proof.
  induction seps as [|s seps IH]; cbn [put_cell c_Key]; unfold children in *.
  - intros ->%list_elem_of_singleton. by left.
  - destruct (bytes_compare sep (c_Key s)); cbn [fmap list_fmap c_Child]; rewrite !elem_of_cons; [tauto..|].
    intros [E|H]; [tauto|]. destruct (IH H); tauto.
Qed.

Lemma children_NoDup sep new seps :
  NoDup (children seps) → new ∉ children seps → NoDup (children (put_cell (MkCell sep [] new) seps)).
Proof.
  induction seps as [|s seps IH]; intros Hnd Hn; [by apply NoDup_singleton|]. unfold children in *. cbn [put_cell c_Key].
  rewrite fmap_cons in Hnd, Hn. apply NoDup_cons in Hnd as [Hs Hnd]. apply not_elem_of_cons in Hn as [Hn1 Hn2].
  destruct (bytes_compare sep (c_Key s)); rewrite !fmap_cons; cbn [c_Child].
  - by constructor.
  - constructor; [by rewrite not_elem_of_cons|]. by constructor.
  - constructor; [|by apply IH]. intros [E|H]%children_put_cell; [by rewrite E in Hn1|done].
Qed.

Lemma insert_node_ok st fuel p m root seps right key value :
  pager_ok ∅ p → 3 ≤ p_cacheSize p → NumPages p ≤ max_pages →
  node_at (view p) (NumPages p) root seps right → NoDup (root :: right :: children seps) →
  Forall (in_range p) (root :: right :: children seps) → kids st (view p) m None right seps →
  small_cell (new_cell key value) → (st = true → m !! key = None) →
  ∃ p', insertAndSplit (S (S fuel)) root key value p = (p', Ok None) ∧ pager_ok ∅ p' ∧ same_setup p p' ∧
    NumPages p ≤ NumPages p' ∧ tree_ok st (view p') (in_range p') (NumPages p') root (<[key := value]> m).
Proof.
  intros Hok Hcs Hnp (pg & HV & Hp & Hright & Hfree & Hlen) Hnd Hr Hk Hsmall Hfresh. set (m' := <[key := value]> m).
  pose proof (ip_rep _ _ Hp) as (_ & Hsort & _). apply Forall_cons in Hr as Hr'. destruct Hr' as [Hroot Hrk].
  apply NoDup_cons in Hnd as Hnd'. destruct Hnd' as [Hnr Hndk].
  assert (Hright0 : right ≠ 0) by (apply Forall_cons in Hrk as [[? _] _]; lia).
  cbn [insertAndSplit]. destruct (GetPage_ok p root Hok Hroot) as (p1 & ptr & Eg & A1 & A2 & A3 & A4 & A5 & A6 & A7). go_step Eg.
  assert (Hn1 : NumPages p1 = NumPages p) by (unfold NumPages; by rewrite (pf_metadata _ _ A4)).
  assert (Hv1 : ∀ i, in_range p i → view p1 i = view p i) by by apply view_same.
  assert (HV1 : view p1 root = Some pg) by by rewrite Hv1.
  destruct (deref_view _ _ _ _ _ A1 A2 HV1) as [b Hd]. pose proof (SetDirty_inner b pg seps Hp) as Hpb.
  rewrite bind_read, Hd, (ip_inner _ _ Hpb). set (t := route right seps key).
  rewrite (bind_read_lift ptr (λ pg, GetChildPageID pg key) _ p1 t).
  2:{ rewrite Hd, (GetChild_ok _ seps key Hpb) by (rewrite <-Hright in Hright0; exact Hright0). unfold t. by rewrite <-Hright. }
  assert (Hr1 : Forall (in_range p1) (right :: children seps)) by (eapply Forall_impl; [exact Hrk|]; intros i; unfold in_range; by rewrite Hn1).
  assert (Hk1 : kids st (view p1) m None right seps).
  { apply (kids_other st (view p) (view p1) m m); [done|by apply Forall_true|done| |done]. intros i Hi. apply Hv1. rewrite Forall_forall in Hrk. by apply Hrk. }
  destruct (kids_route st (view p1) m key seps None right Hk1 I) as (Hb1 & Hb2 & Hleaf). set (bnd := route_bounds None seps key) in *.
  assert (Ht : t ∈ right :: children seps) by apply route_in.
  assert (Htr : in_range p1 t) by (rewrite Forall_forall in Hr1; by apply Hr1). assert (Htn : root ≠ t) by (intros ->; done).
  destruct (insert_leaf_ok st fuel p1 m t bnd.1 bnd.2 (route_next seps key) key value A1) as (p2 & r & Ei & B1 & B2 & B3 & B4 & B5); try done.
  { by rewrite (pf_size _ _ A4). }
  { rewrite Hn1. unfold max_pages in Hnp. lia. }
  cbn [insertAndSplit] in Ei. go_step Ei. fold m' in B5. assert (Hm' : ∀ k, k ≠ key → m' !! k = m !! k) by (intros k Hne; by apply lookup_insert_ne).
  assert (Hroot1 : in_range p1 root) by (unfold in_range in *; by rewrite Hn1).
  assert (HV2 : view p2 root = Some pg) by by rewrite B3.
  assert (Hset : same_setup p p2) by (etrans; [by apply frame_setup|done]).
  destruct r as [[sep new]|].
  - destruct B5 as (C1 & C2 & C3 & C4). rewrite Hn1 in C1.
    assert (Hc2 : p_cache p2 !! root = Some ptr) by (apply B4; [apply (get_recent p p1 root ptr A1 A2 A5)|done|done]).
    destruct (deref_view _ _ _ _ _ B1 Hc2 HV2) as [b2 Hd2]. destruct (cached_fits _ _ _ _ B1 Hc2) as (Hst2 & Hid2 & _). rewrite Hd2 in Hst2.
    assert (Hnew1 : ¬ in_range p new) by (unfold in_range; lia).
    assert (Hso : sep_ok (MkCell sep [] new)).
    { split; [exact C3|done|]. cbn [c_Child]. pose proof Hroot as [? ?]. unfold max_pages in Hnp. lia. }
    destruct (inner_insert (SetDirty b2 pg) seps (MkCell sep [] new) (NumPages p - 3) (SetDirty_inner b2 pg seps Hp) Hso Hfree Hlen)
      as (pg' & Eins & D1 & D2 & D3); [unfold max_pages in Hnp; lia|].
    go_step (try_insert_fits p2 ptr _ _ _ Hst2 Eins). rewrite bind_read, modify_bind, (deref_upd p2 ptr _ _ Hst2).
    assert (Hid' : pg_id pg' = root) by (destruct D2 as [-> _]; by rewrite <-Hd2). rewrite Hid'.
    destruct (set_mark p2 root ptr pg' B1 Hc2) as (F1 & F2 & F3 & F4 & F5 & F6 & F7); [by eapply rep_fits, D1|done|].
    eexists. split; [done|]. split; [done|]. split; [by etrans|]. rewrite F5, C2, C1. split; [lia|].
    assert (Hnewr : new ∉ root :: right :: children seps).
    { intros Hin. rewrite Forall_forall in Hr. by apply Hnew1, Hr. }
    apply not_elem_of_cons in Hnewr as [Hn2 Hn3].
    apply (tree_node _ _ _ _ _ _ (put_cell (MkCell sep [] new) seps) right).
    + exists (SetDirty false pg'). split; [exact F2|]. split; [by apply SetDirty_inner|]. split.
      { destruct D2 as (_ & _ & _ & E & _). rewrite <-Hright. exact E. }
      pose proof (len_put_cell (MkCell sep [] new) seps) as [? _]. change (freePtr (SetDirty false pg')) with (freePtr pg'). lia.
    + apply NoDup_cons. split.
      { intros [->|[->|Hin]%children_put_cell]%elem_of_cons; [by apply Hnr; left|done|by apply Hnr; right]. }
      apply NoDup_cons in Hndk as [Hn4 Hn5]. apply not_elem_of_cons in Hn3 as [Hn6 Hn7]. apply NoDup_cons. split.
      { intros [->|Hin]%children_put_cell; done. }
      by apply children_NoDup.
    + apply Forall_forall. intros i Hi. pose proof Hroot as [? _].
      assert (i = new ∨ in_range p i) as [->|[? ?]]; [|rewrite C1; apply (new_in_range ∅); [done|rewrite F5; lia]|split; [rewrite F5; lia|done]].
      rewrite Forall_forall in Hr. apply elem_of_cons in Hi as [->|Hi]; [right; apply Hr; by left|].
      apply elem_of_cons in Hi as [->|Hi]; [right; apply Hr; right; by left|].
      apply children_put_cell in Hi as [->|Hi]; [by left|]. right. apply Hr. right. by right.
    + assert (Hk2 : kids st (view p2) m' None right (put_cell (MkCell sep [] new) seps)).
      { apply (below_split st p1 p2 m m' seps right key Hm'); try done. }
      eapply (kids_other st (view p2) _ m' m'); [by apply put_cell_sorted|by apply Forall_true|done| |done].
      intros i Hi. apply F3. intros ->. apply elem_of_cons in Hi as [->|[->|Hi]%children_put_cell]; [by apply Hnr; left|done|by apply Hnr; right].
  - destruct B5 as [C1 C2]. exists p2. split; [done|]. split; [done|]. split; [done|]. rewrite C1, Hn1. split; [lia|].
    apply (tree_node _ _ _ _ _ _ seps right); [by exists pg|done| |].
    { eapply Forall_impl; [exact Hr|]. intros i. apply in_range_mono. lia. }
    by apply (below_replace st p1 p2 m m' seps right key Hm').
Qed.

(** ** A new root *)

Lemma new_inner id : inner_page (NewPage id PageTypeInternal) [] ∧ freePtr (NewPage id PageTypeInternal) = PageSize.
Proof. destruct (NewPage_rep id PageTypeInternal) as (A1 & A2 & A3 & A4). split; [by split|done]. Qed.

Lemma SetRight_inner pg seps r : inner_page pg seps → 0 ≤ r < 2 ^ 32 →
  inner_page (SetRightPtr r pg) seps ∧ pg_id (SetRightPtr r pg) = pg_id pg ∧ freePtr (SetRightPtr r pg) = freePtr pg ∧
  RightPtr (SetRightPtr r pg) = r.
Proof.
  intros [H1 H2 H3 H4] Hr. destruct (SetRightPtr_rep pg seps r H1 Hr) as (A1 & A2 & A3 & A4 & A5 & A6).
  split; [|done]. split; [done|by rewrite A4|by rewrite A5|done].
Qed.

Lemma handleRootSplit_ok st p m root sep new :
  pager_ok ∅ p → 3 ≤ NumPages p ≤ max_pages + 1 → in_range p root → in_range p new → root ≠ new → 1 ≤ len sep ≤ max_entry →
  leaf_at st (view p) m root None (Some sep) new → leaf_at st (view p) m new (Some sep) None 0 →
  ∃ p', handleRootSplit root sep new p = (p', Ok tt) ∧ pager_ok ∅ p' ∧ p_cacheSize p' = p_cacheSize p ∧
    (is_Some (p_wal p') ↔ is_Some (p_wal p)) ∧ NumPages p' = NumPages p + 1 ∧
    tree_ok st (view p') (in_range p') (NumPages p') (RootPageID p') m.
Proof.
  intros Hok Hn Hroot Hnew Hne Hsep Hl1 Hl2. unfold handleRootSplit, max_pages in *.
  destruct (NewPage_ok p PageTypeInternal Hok) as (p1 & ptr & En & A1 & A2 & A3 & A4 & A5 & A6 & A7 & A8 & _); [lia|lia|].
  set (id := NumPages p) in *. go_step En. destruct (cached_fits _ _ _ _ A1 A2) as (Hst & _). rewrite A3 in Hst.
  destruct (new_inner id) as [Hin Hif]. assert (Hso : sep_ok (MkCell sep [] new)) by (split; [done|done|destruct Hnew; cbn; lia]).
  destruct (inner_insert _ [] (MkCell sep [] new) 0 Hin Hso) as (pg & Ei & B1 & B2 & B3); [rewrite Hif; lia|done|lia|].
  rewrite <-A3 in Ei at 1. go_step (on_page_eq ptr (λ pg, InsertCell pg (MkCell sep [] new)) p1 pg (Ok tt) Ei).
  rewrite bind_change, upd_upd, bind_read, modify_bind. rewrite (deref_upd p1 ptr _ _ Hst). cbn [compose].
  destruct (SetRight_inner pg _ root B1) as (C1 & C2 & C3 & C4); [destruct Hroot; lia|].
  rewrite C2. assert (Hid : pg_id pg = id) by by destruct B2 as [-> _]. rewrite Hid.
  change (upd ptr (SetRightPtr root ∘ (λ _, pg)) p1) with (upd ptr (λ _, SetRightPtr root pg) p1).
  destruct (set_mark_in {[id]} p1 id ptr (SetRightPtr root pg) (reflexivity _) A1 A2) as (D1 & D2 & D3 & D4 & D5 & D6 & D7); [by eapply rep_fits, C1|by rewrite C2|].
  set (p2 := MarkDirty id (upd ptr (λ _, SetRightPtr root pg) p1)) in *.
  assert (Hidr : 0 ≤ id < 2 ^ 32) by lia.
  destruct (SetRootPageID_ok ∅ p2 id D1 Hidr) as (E1 & E2 & E3 & E4 & E5 & E6 & _).
  set (p3 := SetRootPageID id p2) in *. exists p3. split; [done|]. split; [done|]. rewrite E5, (ss_size _ _ D4), A7.
  split; [done|]. rewrite E6, (ss_wal _ _ D4), A8. split; [done|]. rewrite E4, D5, A5, E3. split; [done|].
  assert (HN2 : NumPages p2 = id + 1) by by rewrite D5.
  assert (Hidin : in_range p2 id) by (apply (new_in_range ∅); [done|unfold id in *; lia]).
  assert (Hv : ∀ i, in_range p i → view p3 i = view p i).
  { intros i Hi. assert (i ≠ id) by (destruct Hi; unfold id; lia).
    rewrite (view_image p2 p3 i) by (apply E2, (in_range_mono p); [unfold id in *; lia|done]).
    rewrite D3 by done. by apply view_image, A4. }
  apply (tree_node _ _ _ _ _ _ [MkCell sep [] new] root).
  - exists (SetDirty false (SetRightPtr root pg)). split; [rewrite (view_image p2 p3 id); [done|apply E2, Hidin]|].
    split; [by apply SetDirty_inner|]. split; [exact C4|]. change (freePtr (SetDirty false ?x)) with (freePtr x).
    rewrite C3. change (len [MkCell sep [] new]) with 1. lia.
  - assert (root ≠ id ∧ new ≠ id) as [? ?] by (destruct Hroot, Hnew; unfold id; lia).
    repeat constructor; set_solver.
  - assert (Hle : NumPages p ≤ NumPages p3) by (rewrite E4; unfold id in *; lia). assert (Hid3 : in_range p3 id) by (by apply (in_range_mono p2); [rewrite E4|]).
    assert (Hroot3 : in_range p3 root) by by eapply in_range_mono. assert (Hnew3 : in_range p3 new) by by eapply in_range_mono.
    unfold children. cbn. repeat (apply Forall_cons; split; [done|]). by apply Forall_nil.
  - cbn [kids c_Key c_Child]. split.
    + apply (leaf_at_other st (view p) _ m m); [done|by apply Hv|done].
    + apply (leaf_at_other st (view p) _ m m); [done|by apply Hv|done].
Qed.

(** ** Put *)

Lemma tree_ok_pages st p m : tree_ok st (view p) (in_range p) (NumPages p) (RootPageID p) m → in_range p (RootPageID p) ∧ 2 ≤ NumPages p.
Proof.
  intros [Hr _|seps right _ _ Hr _]; [|apply Forall_cons in Hr as [Hr _]].
  all: split; [done|]; destruct Hr as [? _]; lia.
Qed.

Lemma put_pages_ok st p m key value :
  pager_ok ∅ p → 3 ≤ p_cacheSize p → NumPages p ≤ max_pages → tree_ok st (view p) (in_range p) (NumPages p) (RootPageID p) m →
  small_cell (new_cell key value) → (st = true → m !! key = None) →
  ∃ p', put_pages key value p = (p', Ok tt) ∧ pager_ok ∅ p' ∧ p_cacheSize p' = p_cacheSize p ∧
    (is_Some (p_wal p') ↔ is_Some (p_wal p)) ∧ NumPages p ≤ NumPages p' ∧
    tree_ok st (view p') (in_range p') (NumPages p') (RootPageID p') (<[key := value]> m).
Proof.
  intros Hok Hcs Hnp Ht Hsmall Hfresh. destruct (tree_ok_pages st p m Ht) as [Hroot H2]. unfold put_pages. rewrite !gets_bind.
  assert (Ef : ∃ n, depth_fuel p = S (S n)).
  { unfold depth_fuel. exists (Z.to_nat (NumPages p) - 1)%nat. lia. }
  destruct Ef as [n ->]. destruct Ht as [Hr Hl|seps right Hnode Hnd Hr Hk].
  - destruct (insert_leaf_ok st (S n) p m (RootPageID p) None None 0 key value Hok Hcs) as (p1 & r & E & A1 & A2 & A3 & A4 & A5);
      [unfold max_pages in Hnp; lia|done|done|done|done|done|done|]. go_step E. destruct r as [[sep new]|].
    + destruct A5 as (B1 & B2 & B3 & C1 & C2 & C3 & C4). pose proof Hroot as [Hroot1 _]. assert (RootPageID p ≠ new) by lia.
      destruct (handleRootSplit_ok st p1 (<[key := value]> m) (RootPageID p) sep new A1) as (p2 & E2 & D1 & D2 & D3 & D4 & D5);
        [lia|apply (in_range_mono p); [lia|done]|rewrite B1; apply (new_in_range ∅); [done|lia]|done|done|done|done|].
      exists p2. split; [done|]. split; [done|]. rewrite D2, (ss_size _ _ A2), D3, (ss_wal _ _ A2), D4. split_and!; [done..|lia|by rewrite <-D4].
    + destruct A5 as [B1 B2]. exists p1. split; [done|]. split; [done|]. split; [apply A2|]. split; [apply A2|]. split; [lia|].
      apply tree_leaf; rewrite (ss_root _ _ A2); [|done]. apply (in_range_mono p); [lia|done].
  - destruct (insert_node_ok st n p m (RootPageID p) seps right key value) as (p1 & E & A1 & A2 & A3 & A4); try done. go_step E.
    exists p1. split; [done|]. split; [done|]. split; [apply A2|]. split; [apply A2|]. split; [done|]. by rewrite (ss_root _ _ A2).
Qed.

(** ** The leaf for a key *)

Lemma find_child_ok pg seps key : inner_page pg seps → findChild pg key = Ok (route (RightPtr pg) seps key).
Proof. intros Hp. apply (node_routes pg seps key (ip_rep _ _ Hp) (ip_inner _ _ Hp)). Qed.

Lemma leaf_not_root st (V : Z → option Page) m id lo hi next pg : leaf_at st V m id lo hi next → V id = Some pg → IsLeaf pg = true.
Proof. intros (pg' & cells & E & Hp & _) E'. rewrite E in E'. injection E' as <-. apply Hp. Qed.

(** The descent ends in the leaf whose bounds enclose the key; a change of that leaf is a
    change of the tree. *)
Lemma leaf_for_ok st p m key :
  pager_ok ∅ p → tree_ok st (view p) (in_range p) (NumPages p) (RootPageID p) m →
  ∃ p' ptr id b next, leaf_for key p = (p', Ok ptr) ∧ pager_ok ∅ p' ∧ pager_frame p p' ∧ same_images p p' ∧
    p_cache p' !! id = Some ptr ∧ in_range p id ∧ key_from b.1 key ∧ key_below b.2 key ∧ leaf_in st (view p') m id b next ∧
    (id = RootPageID p → b = (None, None)) ∧
    (∀ p2 m', NumPages p2 = NumPages p → RootPageID p2 = RootPageID p → (∀ i, in_range p i → i ≠ id → view p2 i = view p i) →
       (∀ k, k ≠ key → m' !! k = m !! k) → leaf_in st (view p2) m' id b next → tree_ok st (view p2) (in_range p2) (NumPages p2) (RootPageID p2) m').
Proof.
  intros Hok Ht. destruct (tree_ok_pages st p m Ht) as [Hroot H2]. unfold leaf_for. rewrite !gets_bind.
  assert (Ef : ∃ n, depth_fuel p = S (S n)).
  { unfold depth_fuel. exists (Z.to_nat (NumPages p) - 1)%nat. lia. }
  destruct Ef as [n ->]. cbn [find_leaf].
  destruct (GetPage_ok p (RootPageID p) Hok Hroot) as (p1 & ptr & Eg & A1 & A2 & A3 & A4 & _). go_step Eg.
  assert (Hn1 : NumPages p1 = NumPages p) by (unfold NumPages; by rewrite (pf_metadata _ _ A4)).
  assert (Hv1 : ∀ i, in_range p i → view p1 i = view p i) by by apply view_same.
  destruct Ht as [Hr Hl|seps right (pg & HV & Hp & Hright & Hfree & Hlen) Hnd Hr Hk].
  - destruct Hl as (pg & cells & HV & Hp & Hrest). pose proof HV as HV1. rewrite <-Hv1 in HV1 by done.
    destruct (deref_view _ _ _ _ _ A1 A2 HV1) as [b Hd]. rewrite bind_read, Hd, (lp_leaf _ _ (SetDirty_leaf b pg cells Hp)).
    exists p1, ptr, (RootPageID p), (None, None), 0. split; [done|]. do 5 (split; [done|]). split; [done|]. split; [done|].
    split; [by exists pg, cells|]. split; [done|]. intros p2 m' E1 E2 Hv Hm Hl. apply tree_leaf; rewrite E2; [|done]. by apply (in_range_mono p); [rewrite E1|].
  - apply Forall_cons in Hr as Hr'. destruct Hr' as [_ Hrk]. apply NoDup_cons in Hnd as Hnd'. destruct Hnd' as [Hnr Hndk].
    pose proof (ip_rep _ _ Hp) as (_ & Hsort & _).
    pose proof HV as HV1. rewrite <-Hv1 in HV1 by done.
    destruct (deref_view _ _ _ _ _ A1 A2 HV1) as [bd Hd]. pose proof (SetDirty_inner bd pg seps Hp) as Hpb.
    rewrite bind_read, Hd, (ip_inner _ _ Hpb). set (t := route right seps key).
    rewrite (bind_read_lift ptr (λ pg, findChild pg key) _ p1 t) by (rewrite Hd, (find_child_ok _ seps key Hpb); unfold t; by rewrite <-Hright).
    destruct (kids_route st (view p) m key seps None right Hk I) as (Hb1 & Hb2 & Hleaf). set (bnd := route_bounds None seps key) in *. fold t in Hleaf.
    assert (Htin : t ∈ right :: children seps) by apply route_in.
    assert (Htr : in_range p t) by (rewrite Forall_forall in Hrk; by apply Hrk). assert (Htn : t ≠ RootPageID p) by (intros E; by rewrite <-E in Hnr).
    assert (Htr1 : in_range p1 t) by (unfold in_range in *; by rewrite Hn1).
    destruct (GetPage_ok p1 t A1 Htr1) as (p2 & q & Eg2 & B1 & B2 & B3 & B4 & _). go_step Eg2.
    assert (Hv2 : ∀ i, in_range p i → view p2 i = view p i).
    { intros i Hi. rewrite <-Hv1 by done. apply view_same; [done|]. unfold in_range in *. by rewrite Hn1. }
    assert (Hl2 : leaf_in st (view p2) m t bnd (route_next seps key)) by (apply (leaf_at_other st (view p) (view p2) m m); [done|by apply Hv2|done]).
    pose proof Hl2 as (pg2 & cells & HV2 & Hp2 & _). destruct (deref_view _ _ _ _ _ B1 B2 HV2) as [b2 Hd2].
    rewrite bind_read, Hd2, (lp_leaf _ _ (SetDirty_leaf b2 pg2 cells Hp2)).
    exists p2, q, t, bnd, (route_next seps key). split; [done|]. split; [done|]. split; [by etrans|]. split.
    { intros i Hi. rewrite B3; [by apply A3|]. unfold in_range in *. by rewrite Hn1. }
    do 5 (split; [done|]). split; [by intros ->|]. intros p3 m' E1 E2 Hv Hm Hl. rewrite E1, E2.
    apply (tree_node _ _ _ _ _ _ seps right); [|done| |].
    + exists pg. split; [by rewrite Hv|done].
    + eapply Forall_impl; [exact Hr|]. intros i. apply in_range_mono. by rewrite E1.
    + by apply (below_replace st p p3 m m' seps right key Hm).
Qed.

(** The tree does not see what the pager does between two operations. *)
Lemma tree_frame st p p' m :
  p_metadata p' = p_metadata p → same_images p p' → tree_ok st (view p) (in_range p) (NumPages p) (RootPageID p) m →
  tree_ok st (view p') (in_range p') (NumPages p') (RootPageID p') m.
Proof.
  intros Hm Hi Ht. assert (Hn : NumPages p' = NumPages p) by (unfold NumPages; by rewrite Hm).
  assert (Hr : RootPageID p' = RootPageID p) by (unfold RootPageID; by rewrite Hm).
  rewrite Hn, Hr. apply (tree_ok_ext st (view p) _ (in_range p) _ (NumPages p)); [done|done|].
  intros i Hid. split; [by apply (in_range_mono p); [rewrite Hn|]|]. by apply view_image, Hi.
Qed.

(** ** The engine *)

(** An open engine that stores [m], and can be scanned if [st]. *)
Record tree_of (st : bool) (b : BTree) (m : gmap bytes bytes) : Prop := {
  to_open : b_closed b = false;
  to_pager : pager_ok ∅ (b_pager b);
  to_cache : 3 ≤ p_cacheSize (b_pager b);
  to_wal : is_Some (p_wal (b_pager b));
  to_tree : tree_ok st (view (b_pager b)) (in_range (b_pager b)) (NumPages (b_pager b)) (RootPageID (b_pager b)) m;
}.

(** A delete triggers the rebalancing when it leaves a page that is not the root with fewer
    than [minCells] cells. *)
Definition rebalances (b : BTree) (key : bytes) : bool :=
  match leaf_for key (b_pager b) with
  | (p, Ok ptr) =>
      match deleteCellFromLeaf (deref p ptr) key with
      | (pg, Ok _) => negb (pg_id pg =? RootPageID p) && (NumCells pg <? minCells)
      | _ => false
      end
  | _ => false
  end.

(** The answers of the engine: unlike the other engines it refuses empty keys in every call
    and reports a delete of a missing key. *)
Definition tree_spec (m : gmap bytes bytes) (c : call) : gmap bytes bytes * answer :=
  match c with
  | CPut k v => if len k =? 0 then (m, ADone (Err ErrKeyEmpty)) else (<[k := v]> m, ADone (Ok tt))
  | CGet k => (m, AValue (if len k =? 0 then Err ErrKeyEmpty else store_Get m k))
  | CDelete k =>
      if len k =? 0 then (m, ADone (Err ErrKeyEmpty))
      else match m !! k with Some _ => (delete k m, ADone (Ok tt)) | None => (m, ADone (Err ErrKeyNotFound)) end
  | CSync => (m, ADone (Ok tt))
  end.

Section engine.
Context {ord : RangeOrder}.

Definition tree_call (b : BTree) (c : call) : BTree * answer :=
  match c with
  | CPut k v => let '(b, r) := BTree_Put k v b in (b, ADone r)
  | CGet k => let '(b, r) := BTree_Get k b in (b, AValue r)
  | CDelete k => let '(b, r) := BTree_Delete k b in (b, ADone r)
  | CSync => let '(b, r) := BTree_Sync b in (b, ADone r)
  end.

(** A session with small entries, without rebalancing, on a file that stays small. *)
Fixpoint in_scope (b : BTree) (cs : list call) : bool :=
  (NumPages (b_pager b) <=? max_pages) &&
  match cs with
  | [] => true
  | c :: cs =>
      match c with
      | CPut k v => len k + len v <=? max_entry
      | CDelete k => negb (rebalances b k)
      | _ => true
      end && in_scope (tree_call b c).1 cs
  end.

Lemma pager_eq {A B} (m : M Pager A) (k : A → M BTree B) b p' a :
  m (b_pager b) = (p', Ok a) → (pager m ≫= k) b = k a (set_pager p' b).
Proof using Type. intros E. unfold pager, zoom, mbind, M_bind. by rewrite E. Qed.

Lemma pager_err {A B} (m : M Pager A) (k : A → M BTree B) b p' e :
  m (b_pager b) = (p', Err e) → (pager m ≫= k) b = (set_pager p' b, Err e).
Proof using Type. intros E. unfold pager, zoom, mbind, M_bind. by rewrite E. Qed.

Lemma empty_key (k : bytes) : (len k =? 0) = true ↔ k = [].
Proof using Type. rewrite Z.eqb_eq. unfold len. split; [destruct k; [done|simpl; lia]|by intros ->]. Qed.

Lemma put_sim st b m k v :
  tree_of st b m → (st = true → k ≠ [] → m !! k = None) → len k + len v ≤ max_entry → NumPages (b_pager b) ≤ max_pages →
  (tree_call b (CPut k v)).2 = (tree_spec m (CPut k v)).2 ∧ tree_of st (tree_call b (CPut k v)).1 (tree_spec m (CPut k v)).1.
Proof using Type.
  intros [H1 H2 H3 H4 H5] Hfresh Hs Hn. cbn [tree_call tree_spec]. unfold BTree_Put. destruct (Z.eqb_spec (len k) 0) as [E|E]; [done|].
  rewrite gets_bind, H1. cbv iota. rewrite modify_bind.
  assert (Hsmall : small_cell (new_cell k v)) by (pose proof (len_nonneg k); split; cbn [new_cell c_Key c_Value c_Child]; done || lia).
  destruct (put_pages_ok st (b_pager b) m k v H2 H3 Hn H5 Hsmall) as (p' & Ep & A1 & A2 & A3 & A4 & A5).
  { intros Hst. apply Hfresh; [done|]. by intros ->. }
  rewrite (pager_eq _ _ (count_user_write _ b) p' tt Ep). split; [done|]. split; try done.
  - cbn. by rewrite A2.
  - cbn. by rewrite A3.
Qed.

Lemma get_sim st b m k :
  tree_of st b m → (tree_call b (CGet k)).2 = (tree_spec m (CGet k)).2 ∧ tree_of st (tree_call b (CGet k)).1 m.
Proof using Type.
  intros Hb. pose proof Hb as [H1 H2 H3 H4 H5]. cbn [tree_call tree_spec]. unfold BTree_Get.
  destruct (Z.eqb_spec (len k) 0) as [E|E]; [done|]. rewrite gets_bind, H1. cbv iota. rewrite modify_bind.
  destruct (leaf_for_ok st (b_pager b) m k H2 H5) as (p' & ptr & id & bd & next & El & A1 & A2 & A3 & A4 & A5 & A6 & A7 & A8 & _).
  rewrite (pager_eq _ _ (count_user_read b) p' ptr El).
  destruct A8 as (pg & cells & HV & Hp & Hb1 & Hroom & Hm & Hscan). destruct (deref_view _ _ _ _ _ A1 A4 HV) as [bd' Hd].
  rewrite (pager_eq (read_page ptr _) _ _ p' (store_Get m k)).
  - split; [done|]. destruct A2 as [Am As Aw]. split; cbn; try done; [by rewrite As|by rewrite Aw|].
    by apply (tree_frame st (b_pager b)).
  - cbn [set_pager b_pager]. unfold read_page, gets. rewrite Hd.
    rewrite (leaf_map_Get _ cells k) by (apply SetDirty_rep, Hp). unfold store_Get. by rewrite Hm.
Qed.

(** ** Delete *)

Lemma delete_cells pg cells k :
  leaf_page pg cells →
  match leaf_map cells !! k with
  | None => deleteCellFromLeaf pg k = (pg, Err ErrKeyNotFound)
  | Some _ => ∃ pg' a c b, cells = a ++ c :: b ∧ c_Key c = k ∧ deleteCellFromLeaf pg k = (pg', Ok tt) ∧
      leaf_page pg' (a ++ b) ∧ same_page pg pg' ∧ leaf_map (a ++ b) = delete k (leaf_map cells)
  end.
Proof using Type.
  intros [Hp Hl Hv Hs Hu Hr]. pose proof Hp as (_ & Hsort & _). unfold deleteCellFromLeaf, leaf_map. rewrite lookup_fmap.
  destruct (rep_search pg cells k Hp) as [(a & c & b & -> & <- & E)|(a & b & -> & Ha & Hb & E)]; rewrite E; pose proof (len_nonneg a).
  - rewrite entries_map_at by done. cbn [fmap option_fmap option_map]. destruct (Z.leb_spec 0 (- (len a + 1))); [lia|].
    replace (- - (len a + 1) - 1) with (len a) by lia. destruct (rep_num _ _ Hp) as [_ Hn]. rewrite len_app, len_cons in Hn.
    pose proof (len_nonneg b). rewrite u16_small by lia. destruct (rep_delete pg a c b Hp) as (pg' & Ed & Hp' & Hsp & Ef).
    exists pg', a, c, b. split; [done|]. split; [done|]. split; [done|]. split; [|split; [done|by rewrite (entries_map_remove a c b Hsort), fmap_delete]].
    apply Forall_app in Hs as Hs'. destruct Hs' as [Hsa Hsb]. apply Forall_cons in Hsb as [Hsc Hsb].
    split; [done|by rewrite (same_page_leaf pg pg' Hsp)|destruct Hsp as (_ & _ & -> & _); done|by apply Forall_app| |destruct Hsp as (_ & _ & _ & -> & _); done].
    rewrite Ef. rewrite space_app, len_app in *. cbn [space] in Hu. rewrite len_cons in Hu. destruct (leaf_bytes_small c Hsc). lia.
  - rewrite entries_map_absent by done. cbn. by destruct (Z.leb_spec 0 (len a)); [|lia].
Qed.

Lemma delete_sim st b m k :
  tree_of st b m → rebalances b k = false → NumPages (b_pager b) ≤ max_pages →
  (tree_call b (CDelete k)).2 = (tree_spec m (CDelete k)).2 ∧ tree_of st (tree_call b (CDelete k)).1 (tree_spec m (CDelete k)).1.
Proof using Type.
  intros Hb Hreb Hn. pose proof Hb as [H1 H2 H3 H4 H5]. cbn [tree_call tree_spec]. unfold BTree_Delete.
  destruct (Z.eqb_spec (len k) 0) as [E|E]; [done|]. rewrite gets_bind, H1. cbv iota.
  destruct (leaf_for_ok st (b_pager b) m k H2 H5) as (p' & ptr & id & bd & next & El & A1 & A2 & A3 & A4 & A5 & A6 & A7 & A8 & A9 & A10).
  rewrite (pager_eq _ _ b p' ptr El). unfold rebalances in Hreb. rewrite El in Hreb. destruct A2 as [Am As Aw].
  assert (HN : NumPages p' = NumPages (b_pager b)) by (unfold NumPages; by rewrite Am).
  assert (HR : RootPageID p' = RootPageID (b_pager b)) by (unfold RootPageID; by rewrite Am).
  assert (Hv : ∀ i, in_range (b_pager b) i → view p' i = view (b_pager b) i) by by apply view_same.
  destruct A8 as (pg & cells & HV & Hp & Hb1 & Hroom & Hm & Hscan). destruct (deref_view _ _ _ _ _ A1 A4 HV) as [bd' Hd].
  destruct (cached_fits _ _ _ _ A1 A4) as (Hst & Hid & _). rewrite Hd in Hst.
  pose proof (delete_cells _ cells k (SetDirty_leaf bd' pg cells Hp)) as Hdel. unfold deleteFromLeaf.
  rewrite <-Hm by done. destruct (leaf_map cells !! k) as [v|] eqn:Ek.
  2:{ rewrite <-Hd in Hdel at 1. rewrite (pager_err (on_page ptr _) _ _ (upd ptr (λ _, SetDirty bd' pg) p') ErrKeyNotFound).
      2:{ exact (on_page_eq ptr (λ pg, deleteCellFromLeaf pg k) p' _ _ Hdel). }
      rewrite (upd_id ptr p' _ Hst). split; [done|]. split; cbn; try done; [by rewrite As|by rewrite Aw|].
      apply (A10 p' m); [done|done|by intros i Hi _; apply Hv|done|by exists pg, cells]. }
  destruct Hdel as (pg' & a & c & b' & -> & Hck & Ed & Hp' & Hsp & Hmap). rewrite Hd, Ed in Hreb. rewrite <-Hd in Ed at 1.
  pose proof (on_page_eq ptr (λ pg, deleteCellFromLeaf pg k) p' pg' (Ok tt) Ed) as Eo.
  rewrite (pager_eq (on_page ptr (λ pg, deleteCellFromLeaf pg k)) _ (set_pager p' b) _ tt Eo).
  rewrite (pager_eq (read_page ptr pg_id) _ _ _ (pg_id pg') ) by (cbn; unfold read_page, gets; by rewrite (deref_upd p' ptr _ _ Hst)).
  assert (Hid' : pg_id pg' = id) by (destruct Hsp as [-> _]; by rewrite <-Hd). rewrite Hid' in *.
  destruct (set_mark p' id ptr pg' A1 A4) as (B1 & B2 & B3 & B4 & B5 & B6 & B7); [by eapply rep_fits, Hp'|done|].
  set (p2 := MarkDirty id (upd ptr (λ _, pg') p')) in *.
  rewrite (pager_eq (modify (MarkDirty id)) _ _ p2 tt) by done. rewrite modify_bind, gets_bind.
  assert (Hr2 : in_range p2 id) by (unfold in_range in *; by rewrite B5, HN).
  destruct (GetPage_ok p2 id B1 Hr2) as (p3 & q & Eg & C1 & C2 & C3 & C4 & _).
  assert (HV3 : view p3 id = Some (SetDirty false pg')) by (rewrite <-B2; by apply view_image, C3).
  destruct (deref_view _ _ _ _ _ C1 C2 HV3) as [b3 Hd3]. destruct (rep_num _ _ (lp_rep _ _ Hp')) as [Enum Hfew].
  assert (Hmerge : ∀ f, mergeOrRedistribute f id k p2 = (p3, Ok false)).
  { intros f. unfold mergeOrRedistribute. go_step Eg. rewrite gets_bind. unfold shouldMerge. rewrite Hd3.
    change (pg_id (SetDirty b3 (SetDirty false pg'))) with (pg_id pg'). change (NumCells (SetDirty b3 (SetDirty false pg'))) with (NumCells pg').
    replace (RootPageID p3) with (RootPageID p') by (unfold RootPageID; rewrite (pf_metadata _ _ C4); symmetry; apply B4).
    rewrite Hid'. destruct (id =? RootPageID p'); [done|]. cbn [negb andb] in Hreb. apply Z.ltb_ge in Hreb.
    by destruct (Z.leb_spec minCells (NumCells pg')); [|lia]. }
  set (b1 := add_keys _ _).
  assert (Et : ∀ f, try_ (pager (mergeOrRedistribute f id k)) b1 = (set_pager p3 b1, Ok (Ok false))).
  { intros f. unfold try_, pager, zoom. change (b_pager b1) with p2. by rewrite Hmerge. }
  go_step (Et (depth_fuel (b_pager b1))). split; [done|].
  destruct C4 as [Cm Cs Cw]. split; cbn; try done.
  - rewrite Cs, (ss_size _ _ B4), As. done.
  - rewrite Cw, (ss_wal _ _ B4), Aw. done.
  - assert (HN3 : NumPages p3 = NumPages (b_pager b)) by (unfold NumPages at 1; rewrite Cm; rewrite <-HN, <-B5; done).
    apply (A10 p3).
    + done.
    + unfold RootPageID at 1. rewrite Cm. rewrite <-HR. apply B4.
    + intros i Hi Hne. rewrite (view_image p2 p3 i), B3, Hv; [done|done|done|]. apply C3. unfold in_range in *. by rewrite B5, HN.
    + intros k' Hne. by rewrite lookup_delete_ne.
    + exists (SetDirty false pg'), (a ++ b'). split; [done|]. split; [by apply SetDirty_leaf|]. split.
      { apply Forall_app in Hb1 as [? Hb2]. apply Forall_cons in Hb2 as [_ ?]. by apply Forall_app. }
      split.
      { intros z Ez Eh. destruct (Z.eqb_spec id (RootPageID p')) as [Er|Er].
        - rewrite HR in Er. rewrite (A9 Er) in Eh. done.
        - cbn [negb andb] in Hreb. apply Z.ltb_ge in Hreb. rewrite Enum, Ez in Hreb. by vm_compute in Hreb. }
      split.
      { intros k' Hk1 Hk2. rewrite Hmap. destruct (decide (k' = k)) as [->|Hne]; [by rewrite !lookup_delete_eq|].
        rewrite !lookup_delete_ne by done. by apply Hm. }
      intros Hstr. destruct (Hscan Hstr) as [N1 N2 N3]. split.
      * apply Forall_app in N1 as [? N1]. apply Forall_cons in N1 as [_ ?]. by apply Forall_app.
      * destruct Hsp as (_ & _ & _ & E' & _). rewrite <-N2. exact E'.
      * destruct (Z.eqb_spec id (RootPageID p')) as [Er|Er]; [left; rewrite HR in Er; by rewrite (A9 Er)|right].
        intros Ez. cbn [negb andb] in Hreb. apply Z.ltb_ge in Hreb. rewrite Enum, Ez in Hreb. by vm_compute in Hreb.
Qed.

(** ** Sync and sessions *)

Lemma on_wal_eq {B} f (k : () → M BTree B) b : (on_wal f ≫= k) b = k tt (set_pager (set_wal (f <$> p_wal (b_pager b)) (b_pager b)) b).
Proof using Type. done. Qed.

Lemma sync_pages_ok st b m :
  tree_of st b m → ∃ p', sync_pages b = (set_pager p' b, Ok tt) ∧ tree_of st (set_pager p' b) m ∧ on_disk p' ∧
    p_wal p' = p_wal (b_pager b) ∧ p_metadata p' = p_metadata (b_pager b).
Proof using Type.
  intros [H1 H2 H3 H4 H5]. destruct (Pager_Sync_ok (b_pager b) H2) as (p' & E & A1 & A2 & [Am As Aw] & _ & _ & _ & A3 & _).
  exists p'. assert (Et : try_ (pager (λ p, Pager_Sync p)) b = (set_pager p' b, Ok (Ok tt))).
  { unfold try_, pager, zoom. by rewrite E. }
  unfold sync_pages. go_step Et. split; [done|]. split; [|done]. split; try done; cbn; [by rewrite As|by rewrite Aw|].
  by apply (tree_frame st (b_pager b)).
Qed.

Lemma tree_of_wal st b m w :
  tree_of st b m → logged ∅ (set_wal (Some w) (b_pager b)) → tree_of st (set_pager (set_wal (Some w) (b_pager b)) b) m.
Proof using Type. intros [H1 H2 H3 H4 H5] Hw. split; try done. by apply set_wal_ok. Qed.

(** A sync leaves the pages on the disk and an empty log. *)
Lemma sync_ok st b m :
  tree_of st b m → ∃ p' w, tree_call b CSync = (set_pager (set_wal (Some w) p') b, ADone (Ok tt)) ∧
    tree_of st (set_pager (set_wal (Some w) p') b) m ∧ pager_ok ∅ p' ∧ on_disk p' ∧ bw_file w = header_bytes ∧ p_metadata p' = p_metadata (b_pager b).
Proof using Type.
  intros Hb. destruct (to_wal _ _ _ Hb) as [w0 Hw0]. cbn [tree_call]. unfold BTree_Sync.
  rewrite gets_bind, (to_open _ _ _ Hb). cbv iota. rewrite on_wal_eq.
  assert (Hb0 : tree_of st (set_pager (set_wal (BWAL_Sync <$> p_wal (b_pager b)) (b_pager b)) b) m).
  { pose proof (logged_flush ∅ (b_pager b) (ok_logged _ _ (to_pager _ _ _ Hb))) as Hl. rewrite Hw0 in Hl |- *. by apply tree_of_wal. }
  destruct (sync_pages_ok st _ m Hb0) as (p' & Es & A1 & A2 & A3 & A4). go_step Es. rewrite !on_wal_eq.
  assert (Hp : pager_ok ∅ p') by apply (to_pager _ _ _ A1).
  cbn [set_pager b_pager set_wal p_wal p_metadata] in A3, A4. rewrite Hw0 in A3.
  exists p', (MkBWAL header_bytes WALHeaderSize WALHeaderSize). split; [|split; [|done]].
  - unfold on_wal, modify. cbn [set_pager b_pager set_wal p_wal]. by rewrite A3.
  - apply (tree_of_wal st _ m _ A1). by apply logged_empty.
Qed.

Lemma sync_sim st b m : tree_of st b m → (tree_call b CSync).2 = ADone (Ok tt) ∧ tree_of st (tree_call b CSync).1 m.
Proof using Type. intros Hb. by destruct (sync_ok st b m Hb) as (p' & w & -> & H & _). Qed.

(** No put replaces a value. *)
Fixpoint inserts_only (m : gmap bytes bytes) (cs : list call) : bool :=
  match cs with
  | [] => true
  | c :: cs =>
      match c with
      | CPut k _ => match m !! k with Some _ => false | None => true end
      | _ => true
      end && inserts_only (tree_spec m c).1 cs
  end.

Lemma tree_session st b m cs :
  tree_of st b m → in_scope b cs = true → (st = true → inserts_only m cs = true) →
  (session tree_call b cs).2 = (session tree_spec m cs).2 ∧
  tree_of st (session tree_call b cs).1 (session tree_spec m cs).1.
Proof using Type.
  revert b m. induction cs as [|c cs IH]; intros b m Hb Hsc Hins; [done|]. cbn [in_scope inserts_only] in Hsc, Hins.
  apply andb_prop in Hsc as [Hn Hsc]. apply andb_prop in Hsc as [Hc Hsc]. apply Z.leb_le in Hn.
  assert (H : (tree_call b c).2 = (tree_spec m c).2 ∧ tree_of st (tree_call b c).1 (tree_spec m c).1).
  { destruct c as [k v|k|k|].
    - apply Z.leb_le in Hc. apply put_sim; [done| |done|done]. intros Est _. specialize (Hins Est).
      apply andb_prop in Hins as [Hk _]. by destruct (m !! k).
    - by apply get_sim.
    - apply negb_true_iff in Hc. by apply delete_sim.
    - by apply sync_sim. }
  destruct H as [E H]. cbn [session]. destruct (tree_call b c) as [b1 a], (tree_spec m c) as [m1 a']. cbn [fst snd] in *. subst a'.
  assert (Hins1 : st = true → inserts_only m1 cs = true) by (intros Est; by apply andb_prop in Hins as [_ ?]).
  destruct (IH b1 m1 H Hsc Hins1) as [E2 H2]. destruct (session tree_call b1 cs), (session tree_spec m1 cs). cbn [fst snd] in *. by subst.
Qed.

End engine.
End refine.

(** ** A new database *)

Lemma new_tree_ok {lv : Leftovers} st p :
  1 ∉ gaps →
  page_image p 1 = Some (pg_data (NewPage 1 PageTypeLeaf)) → NumPages p = 2 → RootPageID p = 1 →
  tree_ok st (view p) (in_range p) (NumPages p) (RootPageID p) ∅.
Proof.
  intros Hg Hi Hn Hr. rewrite Hr. apply tree_leaf; [by split; [lia|]|]. destruct (new_leaf 1) as [Hl _].
  eapply (leaf_at_page _ _ _ 1 None None 0 (NewPage 1 PageTypeLeaf) []); [|done|apply Forall_nil; exact I|by intros z ? ?|done|split; [by apply Forall_nil|done|by left]].
  apply view_set; [done|done|]. by eapply rep_fits, Hl.
Qed.

(** Opening on a log without records: the tree on the pages is the tree of the engine. *)
Lemma open_ok {ord : RangeOrder} {lv : Leftovers} st config db log p m w :
  NewPager db (cf_CacheSize config) = Ok p → pager_ok ∅ p → 3 ≤ p_cacheSize p →
  tree_ok st (view p) (in_range p) (NumPages p) (RootPageID p) m → BNewWAL log = Ok w → BWAL_ReadAll w = ([], Ok tt) →
  logged ∅ (set_wal (Some w) p) →
  ∃ b, BTree_New config db log = Ok b ∧ tree_of st b m.
Proof.
  intros Ep Hok Hcs Ht Ew Er Hlog. unfold BTree_New. rewrite Ep. cbn [mbind res_bind]. rewrite Ew. cbn [mbind res_bind].
  unfold recoverFromWAL. rewrite gets_bind. cbn [b_pager SetWAL set_wal p_wal fmap option_fmap option_map]. rewrite Er.
  change (len [] =? 0) with true. cbv iota. eexists. split; [reflexivity|].
  split; [done|by apply set_wal_ok|done|by eexists|]. exact Ht.
Qed.

Lemma New_ok {ord : RangeOrder} st config :
  3 ≤ cf_CacheSize config → ∃ b, BTree_New config None [] = Ok b ∧ @tree_of no_leftovers st b ∅.
Proof.
  intros Hcs. destruct (createPager_ok (cf_CacheSize config)) as (A1 & A2 & A3 & A4 & A5 & A6 & _).
  set (p := createPager (cf_CacheSize config)) in *. assert (Ep : NewPager None (cf_CacheSize config) = Ok p) by done. clearbody p.
  set (w := MkBWAL header_bytes WALHeaderSize WALHeaderSize).
  apply (@open_ok ord no_leftovers st config None [] p ∅ w Ep A1 ltac:(by rewrite A4)); [|reflexivity| |by apply logged_empty].
  - apply new_tree_ok; [apply not_elem_of_empty|done|by unfold NumPages; rewrite A3|by unfold RootPageID; rewrite A3].
  - exact (read_log [] [] WALHeaderSize ltac:(constructor) (or_introl eq_refl)).
Qed.

(** C3: on a new database with room for three pages in the cache, along any session of puts
    of entries of at most 96 bytes, gets, syncs and deletes that do not rebalance, as long as
    the file has at most 41 pages, the engine answers as a map: every put succeeds (the
    leaves and the root split as they fill), every get returns the last value stored, a
    delete removes its key or reports it missing, empty keys are refused. *)
Theorem btree_session_refines_map (O : RangeOrder) config cs (Hcs : 3 ≤ cf_CacheSize config) :
  ∃ b, BTree_New config None [] = Ok b ∧
    (in_scope b cs = true → (session tree_call b cs).2 = (session tree_spec ∅ cs).2).
Proof.
  destruct (New_ok false config Hcs) as (b & E & Hb). exists b. split; [done|]. intros Hsc. by destruct (tree_session false b ∅ cs Hb Hsc ltac:(done)).
Qed.

Definition demo_config : BConfig := MkBConfig "d" 128 3.
Definition demo_fill : list call := (λ i, CPut [i; 0] (replicate 90 i)) <$> seqZ 0 50.
Definition demo_calls : list call := demo_fill ++ [CPut [5] [1; 2]; CPut [3] [9]; CPut [5] [4]; CDelete [3]; CSync; CGet [5]; CGet [3]; CDelete [3]; CPut [] [1]; CGet [49; 0]].

Lemma btree_session_refines_map_witness :
  match BTree_New demo_config None [] with
  | Ok b => in_scope b demo_calls = true ∧
      (session tree_call b demo_calls).2 =
        replicate 50 (ADone (Ok tt)) ++ [ADone (Ok tt); ADone (Ok tt); ADone (Ok tt); ADone (Ok tt); ADone (Ok tt); AValue (Ok [4]);
         AValue (Err ErrKeyNotFound); ADone (Err ErrKeyNotFound); ADone (Err ErrKeyEmpty); AValue (Ok (replicate 90 49))]
  | _ => False
  end.
Proof.
  assert (Hs : match BTree_New demo_config None [] with Ok b => in_scope b demo_calls | _ => false end = true) by (vm_compute; reflexivity).
  destruct (btree_session_refines_map elements_order demo_config demo_calls ltac:(done)) as (b & E & H).
  rewrite E in *. split; [exact Hs|]. rewrite (H Hs). reflexivity.
Defined.
