(* ===== verification/BtRecovery.v ===== *)
(** Recovery from the log ([recoverFromWAL] of [src/btree/btree.go]): opening the files of a
    process that died gives an engine of the same map, when every page in the log is on the
    disk with its type or is a new leaf. *)
From stdpp Require Import base gmap list strings numbers sorting.
From S2P Require Import Prelude GoLib GoState Common BtVarint BtPage BtNode BtWal BtPager BtRecency BtCache BtSplit BtMerge BtTree BtLeaf BtTreeInv BtInsert BtRefine.

Open Scope Z_scope.

(** ** The state after a crash *)

(** The page that recovery finds for a record: in a file of [known] pages the one on the
    disk, else a blank leaf. *)
Definition found_page (f : bytes) (known id : Z) : option bytes :=
  if id <? known then disk_page f id else Some (pg_data (NewPage id PageTypeLeaf)).

(** The object keeps the type of the page that was found. *)
Definition recovers (f : bytes) (known : Z) (r : WALRecord) : bool :=
  match found_page f known (r_PageID r) with
  | Some d => bool_decide (d !! 0%nat = r_Data r !! 0%nat)
  | None => false
  end.

Definition log_records (w : BWAL) : list WALRecord :=
  match BNewWAL (bw_file w) with Ok w => (BWAL_ReadAll w).1 | _ => [] end.

Definition recoverable (p : Pager) : bool :=
  match p_wal p, readMetadata (p_file p) with
  | Some w, Ok m => forallb (recovers (p_file p) (md_NumPages m)) (log_records w)
  | _, _ => false
  end.

(** The process dies and [New] runs on what the files hold. *)
Definition crash_reopen `{!RangeOrder} (config : BConfig) (b : BTree) : res BTree :=
  match p_wal (b_pager b) with
  | Some w => BTree_New config (Some (p_file (b_pager b))) (bw_file w)
  | None => Panic
  end.

(** ** Reading the log *)

Lemma until_images rs : Forall (λ r, ∃ id data, r = image_record id data) rs → until_checkpoint rs = rs.
Proof. induction 1 as [|r rs (id & data & ->) _ IH]; [done|]. cbn [until_checkpoint]. by rewrite IH. Qed.

Lemma last_image_in rs id d : last_image rs id = Some d → ∃ r, r ∈ rs ∧ r_PageID r = id ∧ r_Data r = d.
Proof.
  induction rs as [|r rs IH]; [done|]. cbn [last_image]. destruct (last_image rs id) as [d'|].
  - intros [= ->]. destruct (IH eq_refl) as (r' & ? & ? & ?). exists r'. split; [by right|done].
  - destruct (Z.eqb_spec (r_PageID r) id) as [E|]; [|done]. intros [= <-]. exists r. split; [by left|done].
Qed.

Lemma last_image_some rs id : is_Some (last_image rs id) ↔ id ∈ r_PageID <$> rs.
Proof.
  induction rs as [|r rs IH]; [cbn; rewrite elem_of_nil; split; [by intros []|done]|].
  cbn [last_image]. rewrite fmap_cons, elem_of_cons, <-IH. destruct (last_image rs id).
  - split; [by right|by eexists].
  - destruct (Z.eqb_spec (r_PageID r) id) as [<-|E]; [split; [by left|by eexists]|].
    split; [by intros []|]. by intros [->|[? ?]].
Qed.

Section read.
Context {lv : Leftovers}.

Lemma read_images X p w rs m :
  meta_ok (p_metadata p) → log_inv X p w rs m →
  ∃ w', BNewWAL (bw_file w) = Ok w' ∧ bw_file w' = log_file rs ∧ bw_offset w' = len (log_file rs) ∧
    BWAL_ReadAll w' = (rs, Ok tt) ∧ log_records w = rs.
Proof.
  intros [_ _ Hn _] [H1 _ H3 _ _ _ _ _ _].
  assert (Hok : Forall record_ok rs).
  { eapply Forall_impl; [exact H3|]. intros r (id & data & -> & [? _] & Hlen). apply logged_record_ok.
    unfold NumPages, PageSize in *. cbn. lia. }
  assert (Hu : until_checkpoint rs = rs).
  { apply until_images. eapply Forall_impl; [exact H3|]. intros r (id & data & -> & _). eauto. }
  assert (E : BNewWAL (bw_file w) = Ok (MkBWAL (log_file rs) (len (log_file rs)) (len (log_file rs)))).
  { assert (Hv : validateHeader (log_file rs) = Ok tt) by apply validate_log. rewrite H1. unfold BNewWAL. rewrite Hv.
    destruct (Z.eqb_spec (len (log_file rs)) 0) as [E|]; [|done]. unfold log_file in E. rewrite len_app in E.
    pose proof (len_nonneg (log_bytes rs)). change (len header_bytes) with 8 in E. lia. }
  pose proof (read_log rs [] (len (log_file rs)) Hok (or_introl eq_refl)) as R. rewrite app_nil_r, Hu in R.
  eexists. do 3 (split; [done|]). split; [exact R|]. unfold log_records. by rewrite E, R.
Qed.
End read.

(** ** Changes that do not look at the page numbers or the log *)

(** Reading a page below the number of pages does not depend on that number. *)
Lemma GetPage_less id n p p' r :
  GetPage id (set_num_pages n p) = (p', Ok r) → is_Some (p_cache p !! id) ∨ id < NumPages p →
  ∃ p0, GetPage id p = (p0, Ok r) ∧ p' = set_num_pages n p0 ∧ p_metadata p0 = p_metadata p.
Proof.
  intros E Hid. unfold GetPage in *. cbn [set_num_pages set_metadata p_closed p_cache] in E.
  destruct (p_closed p); [done|]. destruct (p_cache p !! id) as [q|] eqn:Ec.
  - injection E as <- <-. eexists. split; [done|]. unfold touch. cbn [set_num_pages set_metadata p_lruMap].
    by destruct (p_lruMap p !! id).
  - destruct Hid as [[? ?]|Hid]; [done|]. unfold readPage in *. change (NumPages (set_num_pages n p)) with n in E.
    cbn [set_num_pages set_metadata p_file] in E.
    destruct (Z.leb_spec (NumPages p) id); [lia|]. destruct (Z.leb_spec n id); [done|].
    destruct (ReadAt (p_file p) PageSize (id * PageSize)) as [d [e|]]; [done|].
    destruct (LoadPage id d) as [pg|e|]; [|done|done]. cbn [alloc] in *. injection E as <- <-. eexists. split; [done|].
    unfold addToCache, evictLRU. cbn.
    destruct (p_cacheSize p <=? _); [|done]. destruct (list_Back (p_lru p)) as [[e i]|]; [|done].
    destruct (decide (i ∈ p_dirty p)); [|done]. by destruct (p_cache p !! i).
Qed.

Lemma flush_set_wal b w p id : flush_page b (set_wal w p) id = set_wal w (flush_page b p id).
Proof. unfold flush_page. cbn [set_wal p_cache]. destruct (p_cache p !! id); [|done]. by destruct b. Qed.

Lemma Sync_set_wal `{!RangeOrder} w p p' :
  Pager_Sync p = (p', Ok tt) → Pager_Sync (set_wal w p) = (set_wal w p', Ok tt).
Proof.
  unfold Pager_Sync, Flush. cbn [set_wal p_closed p_dirty]. destruct (p_closed p); [done|].
  assert (E : ∀ l q, foldl (flush_page true) (set_wal w q) l = set_wal w (foldl (flush_page true) q l)).
  { induction l as [|x l IH]; intros q; [done|]. cbn [foldl]. by rewrite flush_set_wal, IH. }
  rewrite E. cbn [set_dirty set_wal p_closed]. by destruct (p_closed (foldl _ _ _)); [|intros [= <-]].
Qed.

(** ** Replaying a record *)

(** Marking the pages that were changed, without a log. *)
Lemma mark_dirty_ok {lv : Leftovers} X p :
  pager_ok X p → p_wal p = None → pager_ok ∅ (set_dirty (X ∪ p_dirty p) p).
Proof.
  intros Hok Hw. apply (unlogged_ok X); [|done|set_solver]. apply set_dirty_ok; [done| |set_solver].
  intros i Hi. apply (ok_dirty _ _ Hok). set_solver.
Qed.

(** The object of a page takes the bytes of a record. *)
Definition apply_image (id : Z) (ptr : page_ptr) (data : bytes) (p : Pager) : Pager :=
  set_dirty ({[id]} ∪ p_dirty p) (upd ptr (λ pg, SetDirty true (with_data data pg)) p).

Lemma apply_record_image id data ptr p pg :
  p_store p !! ptr = Some pg → len (pg_data pg) = PageSize → len data = PageSize →
  apply_record ptr (image_record id data) p = (apply_image id ptr data p, Ok tt).
Proof.
  intros Hp Hlen Hd. unfold apply_record, image_record, logged_record, with_checksum. cbn [r_Offset r_Length r_PageID r_Data].
  rewrite Hd. change (u32 (0 + u32 PageSize)) with PageSize. change (PageSize <=? PageSize) with true. change (PageSize <? 0) with false.
  cbv iota. rewrite !bind_change. unfold apply_image, modify. f_equal. rewrite upd_upd. f_equal.
  rewrite (upd_const ptr _ p pg Hp). rewrite (upd_const ptr (λ pg, SetDirty true (with_data data pg)) p pg Hp).
  cbn [compose]. change (u32 PageSize) with PageSize. rewrite take_ge by (unfold len, PageSize in *; lia).
  rewrite copy_at_full by (unfold len, PageSize in *; lia). change (Z.to_nat 0) with 0%nat.
  rewrite take_0, Nat.sub_0_r, take_ge; [done|]. unfold len, PageSize in *. lia.
Qed.

Lemma apply_image_ok {lv : Leftovers} X p id ptr data :
  X ⊆ {[id]} → pager_ok X p → p_wal p = None → p_cache p !! id = Some ptr → len data = PageSize →
  data !! 0%nat = pg_data (deref p ptr) !! 0%nat →
  let p' := apply_image id ptr data p in
  pager_ok ∅ p' ∧ page_image p' id = Some data ∧ (∀ i, i ≠ id → page_image p' i = page_image p i) ∧
  pager_frame p p' ∧ p_cache p' = p_cache p.
Proof.
  intros HX Hok Hw Hc Hlen Hty. destruct (cached_fits X p id ptr Hok Hc) as (_ & Hid & [_ Hf] & _).
  destruct (upd_ok X p id ptr (λ pg, SetDirty true (with_data data pg)) Hok Hc) as (A1 & A2 & A3 & A4 & A5 & A6 & A7 & A8 & A9).
  - split; [done|]. cbn. by rewrite Hty.
  - done.
  - replace ({[id]} ∪ X) with ({[id]} : gset Z) in A1 by set_solver. split; [|split; [exact A4|split; [exact A5|split; [|exact A8]]]].
    + exact (mark_dirty_ok {[id]} _ A1 Hw).
    + destruct A6. by split.
Qed.

(** A blank page goes to the cache and to no list. *)
Definition add_blank (id : Z) (p : Pager) : Pager :=
  set_cache (<[id := length (p_store p)]> (p_cache p)) (set_store (p_store p ++ [NewPage id PageTypeLeaf]) p).

Lemma blank_page_eq id p : blank_page id p = (add_blank id p, Ok (length (p_store p))).
Proof. done. Qed.

Definition with_blank (lv : Leftovers) (id : Z) : Leftovers := MkLeft (@gaps lv ∖ {[id]}) ({[id]} ∪ @unlisted lv).

Lemma add_blank_ok {lv : Leftovers} p id :
  pager_ok ∅ p → p_wal p = None → 1 ≤ id < NumPages p → p_cache p !! id = None → id ∈ gaps →
  let p' := add_blank id p in
  @pager_ok (with_blank lv id) {[id]} p' ∧ (∀ i, i ≠ id → page_image p' i = page_image p i) ∧
  p_store p' !! length (p_store p) = Some (NewPage id PageTypeLeaf).
Proof.
  intros Hok Hw Hr Hc Hg p'. destruct (alloc_ok ∅ p (NewPage id PageTypeLeaf) Hok) as (B1 & B2 & B3 & B4 & _).
  cbn [alloc snd] in *. set (p1 := set_store (p_store p ++ [NewPage id PageTypeLeaf]) p) in *.
  assert (Himg : ∀ i, i ≠ id → page_image p' i = page_image p i).
  { intros i Hne. rewrite <-B2. unfold page_image, p', add_blank. cbn. by rewrite lookup_insert_ne. }
  assert (Hnew : page_image p' id = Some (pg_data (NewPage id PageTypeLeaf))).
  { unfold page_image, p', add_blank. cbn [set_cache p_cache]. rewrite lookup_insert_eq. unfold deref. cbn [set_cache p_store]. fold p1. by rewrite B4. }
  assert (Hlru : id ∉ lru_ids p).
  { intros Hi. destruct (proj2 (ok_keys _ _ Hok id)) as [? ?]; [by left|congruence]. }
  split; [|done]. destruct B1 as [H1 H2 H3 H4 H5 H6 H7 H8 H9 H10 H11 H12]. split; try done.
  - intros i. change (p_cache p') with (<[id := length (p_store p)]> (p_cache p1)). rewrite lookup_insert_is_Some, H3.
    change (lru_ids p') with (lru_ids p1). cbn [with_blank unlisted].
    rewrite elem_of_union, elem_of_singleton. clear. destruct (decide (id = i)); naive_solver.
  - intros i q Hq. change (p_cache p') with (<[id := length (p_store p)]> (p_cache p1)) in Hq.
    apply lookup_insert_Some in Hq as [[<- <-]|[Hne Hq]].
    + exists (NewPage id PageTypeLeaf). split; [exact B4|]. split; [done|]. split; [apply NewPage_fits|]. split.
      * split; [exact Hr|]. apply not_elem_of_difference. right. by apply elem_of_singleton.
      * intros _ []. by apply elem_of_singleton.
    + destruct (H4 i q Hq) as (pg & ? & ? & ? & [? ?] & Hdk). exists pg. split_and!; try done; [split; [done|]|].
      { apply not_elem_of_difference. by left. }
      intros Hd _. by apply Hdk.
  - intros i Hi. change (p_cache p') with (<[id := length (p_store p)]> (p_cache p1)). apply lookup_insert_is_Some.
    destruct (decide (id = i)); [by left|right]. split; [done|]. apply H5. change (p_dirty p') with (p_dirty p1) in Hi.
    apply elem_of_union in Hi as [Hi|Hi%elem_of_singleton]; [by apply elem_of_union_l|congruence].
  - intros i [Hi Hgi]. destruct (decide (i = id)) as [->|Hne]; [rewrite Hnew; by eexists|]. rewrite Himg by done. rewrite <-B2.
    apply H6. split; [exact Hi|]. intros Hg'. apply Hgi, elem_of_difference. split; [exact Hg'|by rewrite elem_of_singleton].
  - intros i Hi. change (lru_ids p') with (lru_ids p1). cbn in Hi. apply elem_of_union in Hi as [->%elem_of_singleton|Hi]; [done|by apply H10].
  - intros i Hi. apply H11. by apply elem_of_difference in Hi as [Hi _].
  - unfold logged. change (p_wal p') with (p_wal p). by rewrite Hw.
Qed.

(** ** Replaying the log *)

Lemma set_wal_back x p : p_wal p = None → set_wal None (set_wal x p) = p.
Proof. destruct p. cbn. by intros ->. Qed.

Lemma maxPageID_spec q :
  NumPages q ≤ maxPageID q ∧ (∀ id, is_Some (p_cache q !! id) → id ≤ maxPageID q) ∧
  (maxPageID q = NumPages q ∨ is_Some (p_cache q !! maxPageID q)).
Proof.
  unfold maxPageID.
  apply (map_fold_weak_ind (λ M (c : gmap Z page_ptr), NumPages q ≤ M ∧ (∀ id, is_Some (c !! id) → id ≤ M) ∧ (M = NumPages q ∨ is_Some (c !! M)))).
  - split; [lia|]. split; [|by left]. intros id. rewrite lookup_empty. by intros [].
  - intros id x c M Hid (H1 & H2 & H3). assert (H4 : ∀ i, is_Some (<[id := x]> c !! i) → i = id ∨ i ≤ M).
    { intros i [<-|[_ Hi]]%lookup_insert_is_Some; [by left|right; by apply H2]. }
    destruct (Z.ltb_spec M id); (split; [lia|]); split.
    + intros i [->|?]%H4; lia.
    + right. by rewrite lookup_insert_eq.
    + intros i [->|?]%H4; lia.
    + destruct H3 as [?|[y Hy]]; [by left|]. right. apply lookup_insert_is_Some. destruct (decide (id = M)); [by left|right]. split; [done|by eexists].
Qed.

Section replay.
Context (lv : Leftovers) (m : Metadata) (N cs : Z) (f0 : bytes) (w : BWAL).
Context (Hone : 0 ≤ md_NumPages m) (HN : md_NumPages m ≤ N < 2 ^ 32) (Hgaps : ∀ i, i ∈ @gaps lv → i < md_NumPages m).

Let md := md_NumPages m.

Definition replayed_image (rs : list WALRecord) (id : Z) : option bytes :=
  match last_image rs id with Some d => Some d | None => disk_page f0 id end.

(** The pager after the records [rs], seen with the number of pages that recovery ends with:
    the new pages are those with a record. *)
Record replayed (lv' : Leftovers) (q : Pager) (rs : list WALRecord) : Prop := {
  rp_ok : @pager_ok lv' ∅ (set_num_pages N q);
  rp_wal : p_wal q = None;
  rp_meta : p_metadata q = m;
  rp_size : p_cacheSize q = cs;
  rp_unlisted : ∀ id, id ∈ @unlisted lv' ↔ md ≤ id ∧ id ∈ r_PageID <$> rs;
  rp_gaps : ∀ id, id ∈ @gaps lv' ↔ id ∈ @gaps lv ∨ (md ≤ id < N ∧ id ∉ r_PageID <$> rs);
  rp_image : ∀ id, @in_range lv' (set_num_pages N q) id → page_image q id = replayed_image rs id;
  rp_types : Forall (recovers f0 md) rs;
}.

(** A page that is there has the type of the page that recovery finds. *)
Lemma replayed_type lv' q rs id data :
  replayed lv' q rs → @in_range lv' (set_num_pages N q) id → recovers f0 md (image_record id data) →
  ∃ d, page_image q id = Some d ∧ data !! 0%nat = d !! 0%nat.
Proof using Type.
  intros Hq Hr Hrec. destruct (ok_images (lv := lv') _ _ (rp_ok _ _ _ Hq) id Hr) as [d Hd]. change (page_image q id = Some d) in Hd.
  exists d. split; [done|]. rewrite (rp_image _ _ _ Hq) in Hd by done. unfold replayed_image in Hd.
  unfold recovers in Hrec. cbn [image_record logged_record with_checksum r_PageID r_Data] in Hrec.
  destruct (found_page f0 md id) as [d0|] eqn:E0; [|done]. apply bool_decide_unpack in Hrec. rewrite <-Hrec.
  destruct (last_image rs id) as [d'|] eqn:El.
  - injection Hd as ->. apply last_image_in in El as (r & Hin & <- & <-). pose proof (rp_types _ _ _ Hq) as Ht.
    rewrite Forall_forall in Ht. specialize (Ht r Hin). unfold recovers in Ht. rewrite E0 in Ht. by apply bool_decide_unpack in Ht.
  - unfold found_page in E0. destruct (Z.ltb_spec id md); [congruence|]. exfalso. destruct Hr as [[? Hlt] Hg]. apply Hg.
    apply (rp_gaps _ _ _ Hq). right. split; [split; [lia|exact Hlt]|]. rewrite <-last_image_some, El. by intros [].
Qed.

Lemma replayed_apply lv' X p0 rs id ptr data :
  X ⊆ {[id]} → @pager_ok lv' X (set_num_pages N p0) → p_wal p0 = None → p_metadata p0 = m → p_cacheSize p0 = cs →
  p_cache p0 !! id = Some ptr → len data = PageSize → data !! 0%nat = pg_data (deref p0 ptr) !! 0%nat →
  (∀ i, i ∈ @unlisted lv' ↔ md ≤ i ∧ i ∈ r_PageID <$> rs ++ [image_record id data]) →
  (∀ i, i ∈ @gaps lv' ↔ i ∈ @gaps lv ∨ (md ≤ i < N ∧ i ∉ r_PageID <$> rs ++ [image_record id data])) →
  (∀ i, @in_range lv' (set_num_pages N p0) i → i ≠ id → page_image p0 i = replayed_image rs i) →
  Forall (recovers f0 md) (rs ++ [image_record id data]) →
  apply_record ptr (image_record id data) p0 = (apply_image id ptr data p0, Ok tt) ∧
  replayed lv' (apply_image id ptr data p0) (rs ++ [image_record id data]).
Proof using Type.
  intros HX Hok Hw Hm Hs Hc Hlen Hty Hun Hga Hi Hrec.
  destruct (cached_fits (lv := lv') X (set_num_pages N p0) id ptr Hok Hc) as (Hst & _ & [Hl _] & _).
  destruct (apply_image_ok (lv := lv') X (set_num_pages N p0) id ptr data HX Hok Hw Hc Hlen Hty) as (A1 & A2 & A3 & [A4 A5 A6] & A7).
  split; [by eapply apply_record_image|]. split; try done.
  intros i Hr. unfold replayed_image. rewrite last_image_app.
  change (r_PageID (image_record id data)) with id. change (r_Data (image_record id data)) with data.
  destruct (Z.eqb_spec id i) as [<-|Hne]; [exact A2|]. transitivity (page_image p0 i); [by apply A3|]. by apply Hi.
Qed.

(** A record of a page that recovery has or finds. *)
Lemma replay_step lv' q rs id data :
  replayed lv' q rs → 1 ≤ id < N → id ∉ @gaps lv → len data = PageSize → recovers f0 md (image_record id data) →
  ∃ q' lv'', replay_record (image_record id data) (set_wal (Some w) q) = (set_wal (Some w) q', Ok tt) ∧
    replayed lv'' q' (rs ++ [image_record id data]).
Proof using HN Hone Hgaps.
  intros Hq Hid Hgap Hlen Hrec. pose proof Hq as [H1 H2 H3 H4 H5 H6 H7 H8].
  assert (Hall : Forall (recovers f0 md) (rs ++ [image_record id data])) by (apply Forall_app; by repeat constructor).
  assert (Hids : r_PageID <$> rs ++ [image_record id data] = (r_PageID <$> rs) ++ [id]) by by rewrite fmap_app.
  unfold replay_record. change (r_Type (image_record id data) =? WALRecordPageWrite) with true. cbv iota.
  rewrite gets_bind, modify_bind, (set_wal_back (Some w) q H2). change (r_PageID (image_record id data)) with id.
  change (p_wal (set_wal (Some w) q)) with (Some w).
  destruct (decide (id < md ∨ id ∈ r_PageID <$> rs)) as [Hk|Hk].
  - assert (Hr : @in_range lv' (set_num_pages N q) id).
    { split; [done|]. rewrite H6. intros [?|[? ?]]; [done|]. destruct Hk; [lia|done]. }
    destruct (GetPage_ok (lv := lv') _ id H1 Hr) as (v' & ptr & E & A1 & A2 & A3 & [A4 A5 A6] & _).
    destruct (GetPage_less id N q v' ptr E) as (p0 & E0 & -> & Em).
    { destruct (decide (id < md)) as [?|Hge]; [right; unfold NumPages; by rewrite H3|left].
      apply (ok_keys (lv := lv') _ _ H1). right. apply H5. split; [lia|]. by destruct Hk. }
    assert (Et : try_ (GetPage id) q = (p0, Ok (Ok ptr))) by (unfold try_; by rewrite E0).
    go_step Et. assert (Er : (mret ptr : M Pager page_ptr) p0 = (p0, Ok ptr)) by done. go_step Er.
    destruct (replayed_type lv' q rs id data Hq Hr Hrec) as (d & Hd & Hty).
    assert (Hd' : pg_data (deref p0 ptr) = d).
    { pose proof (A3 id Hr) as Ei. change (page_image p0 id = page_image q id) in Ei. rewrite Hd in Ei. unfold page_image in Ei.
      change (p_cache p0 !! id = Some ptr) in A2. rewrite A2 in Ei. congruence. }
    destruct (replayed_apply lv' ∅ p0 rs id ptr data) as [Ea Hnew]; try done.
    + exact (eq_trans A6 H2).
    + by rewrite Em.
    + exact (eq_trans A5 H4).
    + by rewrite Hd'.
    + intros i. rewrite H5, Hids, elem_of_app, list_elem_of_singleton. destruct Hk; naive_solver lia.
    + intros i. rewrite H6, Hids, not_elem_of_app, list_elem_of_singleton. destruct Hk; naive_solver lia.
    + intros i Hi _. assert (Hi' : @in_range lv' (set_num_pages N q) i) by exact Hi. rewrite <-H7 by done. by apply A3.
    + exists (apply_image id ptr data p0), lv'. split; [|done]. go_step Ea. done.
  - assert (¬ id < md) as Hge by tauto. assert (id ∉ r_PageID <$> rs) as Hnew by tauto. clear Hk.
    assert (Hg : id ∈ @gaps lv') by (apply H6; right; split; [lia|done]).
    assert (Hc : p_cache q !! id = None).
    { destruct (p_cache q !! id) as [x|] eqn:E; [|done]. by destruct (cached_fits (lv := lv') ∅ _ id x H1 E) as (_ & _ & _ & [_ ?]). }
    assert (Et : try_ (GetPage id) q = (q, Ok (Err (Errorf "page ID out of bounds")))).
    { unfold try_, GetPage. rewrite Hc. change (p_closed q) with (p_closed (set_num_pages N q)). rewrite (ok_open (lv := lv') _ _ H1).
      unfold readPage, NumPages. rewrite H3. by destruct (Z.leb_spec (md_NumPages m) id). }
    go_step Et. rewrite (M_bind_Ok _ _ _ _ _ (blank_page_eq id q)).
    destruct (add_blank_ok (lv := lv') (set_num_pages N q) id H1 H2 Hid Hc Hg) as (A1 & A2 & A3).
    destruct (replayed_apply (with_blank lv' id) {[id]} (add_blank id q) rs id (length (p_store q)) data) as [Ea Hfin]; try done.
    + cbn. by rewrite lookup_insert_eq.
    + unfold deref. change (p_store (add_blank id q)) with (p_store (add_blank id (set_num_pages N q))).
      change (length (p_store q)) with (length (p_store (set_num_pages N q))). rewrite A3.
      unfold recovers, found_page in Hrec. cbn [image_record logged_record with_checksum r_PageID r_Data] in Hrec.
      destruct (Z.ltb_spec id md); [lia|]. by apply bool_decide_unpack in Hrec.
    + intros i. cbn [with_blank unlisted]. rewrite Hids, elem_of_union, elem_of_app, elem_of_singleton, list_elem_of_singleton, H5. naive_solver lia.
    + intros i. cbn [with_blank gaps]. rewrite Hids, elem_of_difference, not_elem_of_app, elem_of_singleton, list_elem_of_singleton, H6.
      destruct (decide (i = id)); naive_solver lia.
    + intros i [Hi Hgi] Hne. transitivity (page_image q i); [by apply A2|]. apply H7. split; [done|]. cbn [with_blank gaps] in Hgi. set_solver.
    + eexists _, (with_blank lv' id). split; [|exact Hfin]. go_step Ea. done.
Qed.

Definition page_images (rs : list WALRecord) : Prop :=
  Forall (λ r, ∃ id data, r = image_record id data ∧ (1 ≤ id < N ∧ id ∉ @gaps lv) ∧ len data = PageSize) rs.

Lemma replay_all rs : ∀ lv' q done_,
  replayed lv' q done_ → page_images rs → Forall (recovers f0 md) rs →
  ∃ q' lv'', for_each replay_record rs (set_wal (Some w) q) = (set_wal (Some w) q', Ok tt) ∧ replayed lv'' q' (done_ ++ rs).
Proof using HN Hone Hgaps.
  induction rs as [|r rs IH]; intros lv' q done_ Hq Him Hrec; [exists q, lv'; by rewrite app_nil_r|].
  apply Forall_cons in Him as [(id & data & -> & [Hid Hg] & Hlen) Him]. apply Forall_cons in Hrec as [Hr Hrec].
  destruct (replay_step lv' q done_ id data Hq Hid Hg Hlen Hr) as (q1 & lv1 & E1 & Hq1).
  destruct (IH lv1 q1 _ Hq1 Him Hrec) as (q2 & lv2 & E2 & Hq2). exists q2, lv2. rewrite <-app_assoc in Hq2. split; [|done].
  cbn [for_each]. by go_step E1.
Qed.

(** The number of pages that recovery ends with. *)
Definition last_number (rs : list WALRecord) : Z := foldr Z.max md (r_PageID <$> rs).

Lemma last_number_spec rs :
  md ≤ last_number rs ∧ (∀ id, id ∈ r_PageID <$> rs → id ≤ last_number rs) ∧
  (last_number rs = md ∨ last_number rs ∈ r_PageID <$> rs).
Proof using Type.
  unfold last_number. induction (r_PageID <$> rs) as [|id l (H1 & H2 & H3)]; cbn [foldr]; [split; [lia|split; [by intros ? ?%elem_of_nil|by left]]|].
  split; [lia|]. split; [intros i [->|Hi]%elem_of_cons; [lia|specialize (H2 i Hi); lia]|].
  destruct (Z.max_spec id (foldr Z.max md l)) as [[_ ->]|[_ ->]]; [|right; by left]. destruct H3; [by left|right; by right].
Qed.

Lemma replayed_max lv' q rs : N = last_number rs + 1 → replayed lv' q rs → maxPageID q = last_number rs.
Proof using Type.
  intros EN [H1 H2 H3 H4 H5 H6 H7 H8]. destruct (maxPageID_spec q) as (A1 & A2 & A3). destruct (last_number_spec rs) as (B1 & B2 & B3).
  assert (Hmd : NumPages q = md) by (unfold NumPages; by rewrite H3). apply Z.le_antisymm.
  - destruct A3 as [->|[x Hx]]; [by rewrite Hmd|]. destruct (cached_fits (lv := lv') ∅ _ _ x H1 Hx) as (_ & _ & _ & [[_ Hr] _]).
    change (NumPages (set_num_pages N q)) with N in Hr. lia.
  - destruct B3 as [->|Hin]; [by rewrite <-Hmd|]. destruct (decide (last_number rs = md)) as [->|]; [by rewrite <-Hmd|].
    apply A2, (ok_keys (lv := lv') _ _ H1). right. by apply H5.
Qed.

Context {ord : RangeOrder}.

(** The whole recovery, from a pager that was just opened. *)
Lemma recover_pages_ok lv0 q rs :
  N = last_number rs + 1 → replayed lv0 q [] → page_images rs → Forall (recovers f0 md) rs →
  ∃ p' lv', recover_pages rs (set_wal (Some w) q) = (set_wal (Some (BWAL_Truncate w)) p', Ok tt) ∧
    @pager_ok lv' ∅ p' ∧ @on_disk lv' p' ∧ p_cacheSize p' = cs ∧ NumPages p' = N ∧ RootPageID p' = md_RootPageID m ∧
    (∀ id, @in_range lv' p' id ↔ 1 ≤ id < N ∧ (id ∉ @gaps lv) ∧ (id < md ∨ id ∈ r_PageID <$> rs)) ∧
    (∀ id, @in_range lv' p' id → page_image p' id = replayed_image rs id).
Proof using HN Hone Hgaps.
  intros EN Hq Him Hrec. destruct (replay_all rs lv0 q [] Hq Him Hrec) as (q1 & lv' & E & H). cbn [app] in H.
  pose proof (replayed_max lv' q1 rs EN H) as Hmax. destruct H as [H1 H2 H3 H4 H5 H6 H7 H8].
  destruct (Pager_Sync_ok (lv := lv') (set_num_pages N q1) H1) as (p' & Es & A1 & A2 & [A3 A4 A5] & _ & _ & _ & A6 & _).
  exists p', lv'. split.
  { unfold recover_pages. go_step E. rewrite modify_bind.
    replace (set_num_pages _ (set_wal (Some w) q1)) with (set_wal (Some w) (set_num_pages N q1)).
    - unfold mbind at 1, M_bind at 1. rewrite (Sync_set_wal _ _ _ Es). done.
    - change (maxPageID (set_wal (Some w) q1)) with (maxPageID q1). rewrite Hmax, <-EN, u32_small by lia. done. }
  split; [done|]. split; [done|]. split; [by rewrite A4|].
  assert (Hn : NumPages p' = N) by (unfold NumPages; by rewrite A3).
  split; [done|]. split; [unfold RootPageID; rewrite A3; cbn; by rewrite H3|]. split.
  - intros id. unfold in_range. rewrite Hn, H6. destruct (decide (id < md)); destruct (decide (id ∈ r_PageID <$> rs)); naive_solver lia.
  - intros id Hid. rewrite A2; [apply H7|]; by destruct Hid; split; rewrite <-?Hn.
Qed.
End replay.

(** ** Opening the files of a crashed engine *)

Section crash.
Context {ord : RangeOrder} {lv : Leftovers}.
Context (p : Pager) (w : BWAL) (rs : list WALRecord) (m : Metadata).
Context (Hok : pager_ok ∅ p) (Hlog : log_inv ∅ p w rs m).

(** What the log and the disk hold of a page. *)
Lemma crash_image id : in_range p id → page_image p id = replayed_image (p_file p) rs id.
Proof using Hlog.
  intros Hid. pose proof (lg_covered _ _ _ _ _ Hlog id Hid (not_elem_of_empty id)) as Hc. unfold covered, replayed_image in *.
  destruct (last_image rs id); [done|]. by destruct Hc.
Qed.

(** A page that the metadata of the file do not know has a record. *)
Lemma crash_new id : in_range p id → id < md_NumPages m ∨ id ∈ r_PageID <$> rs.
Proof using Hlog.
  intros Hid. pose proof (lg_covered _ _ _ _ _ Hlog id Hid (not_elem_of_empty id)) as Hc. unfold covered in Hc.
  rewrite <-last_image_some. destruct (last_image rs id); [right; by eexists|left; apply Hc].
Qed.

(** The pages that the metadata know are on the disk. *)
Lemma crash_disk id :
  Forall (recovers (p_file p) (md_NumPages m)) rs → 1 ≤ id < md_NumPages m → id ∉ gaps → is_Some (disk_page (p_file p) id).
Proof using Hok Hlog.
  intros Hrec Hid Hg. assert (Hr : in_range p id) by (split; [pose proof (lg_pages _ _ _ _ _ Hlog); lia|done]).
  pose proof (lg_covered _ _ _ _ _ Hlog id Hr (not_elem_of_empty id)) as Hc. unfold covered in Hc.
  destruct (last_image rs id) as [d|] eqn:El.
  - apply last_image_in in El as (r & Hin & Hri & _). rewrite Forall_forall in Hrec. specialize (Hrec r Hin).
    unfold recovers, found_page in Hrec. rewrite Hri in Hrec. destruct (Z.ltb_spec id (md_NumPages m)); [|lia].
    by destruct (disk_page (p_file p) id).
  - destruct Hc as [-> _]. by apply (ok_images _ _ Hok).
Qed.

Lemma crash_replayed cs N :
  Forall (recovers (p_file p) (md_NumPages m)) rs → md_NumPages m ≤ N < 2 ^ 32 →
  ∃ lv0, replayed lv m N cs (p_file p) lv0 (empty_pager (p_file p) cs m) [].
Proof using Hok Hlog.
  intros Hrec HN. set (md := md_NumPages m) in *. destruct (lg_good _ _ _ _ _ Hlog) as [M1 M2 M3 M4].
  exists (MkLeft (gaps ∪ list_to_set (seqZ md (N - md))) ∅).
  assert (Hgap : ∀ i, i ∈ gaps ∪ list_to_set (C := gset Z) (seqZ md (N - md)) ↔ i ∈ gaps ∨ md ≤ i < N).
  { intros i. rewrite elem_of_union, elem_of_list_to_set, elem_of_seqZ. by replace (md + (N - md)) with N by lia. }
  set (lv0 := MkLeft _ ∅). set (m' := MkMeta (md_Magic m) (md_RootPageID m) N (md_FreeListPtr m)).
  destruct (@empty_pager_ok lv0 (p_file p) cs m') as [A B]; [done| |apply Hok|split; [done|done|cbn; lia|done]| |].
  - intros i [Hi|?]%Hgap; cbn; [|lia]. pose proof (lg_gaps _ _ _ _ _ Hlog i Hi). unfold md in *. lia.
  - intros i Hi Hg. cbn [lv0 gaps] in Hg. rewrite Hgap in Hg. cbn in Hi. apply crash_disk; [done| |tauto]. unfold md in *. lia.
  - split; try done.
    + intros i. cbn. rewrite elem_of_nil. set_solver.
    + intros i. cbn [lv0 gaps]. rewrite Hgap. cbn. rewrite elem_of_nil. unfold md. naive_solver.
Qed.

Lemma crash_page_images :
  page_images lv (last_number m rs + 1) rs.
Proof using Hlog.
  unfold page_images. rewrite Forall_forall. intros r Hr. pose proof (lg_records _ _ _ _ _ Hlog) as H. rewrite Forall_forall in H.
  destruct (H r Hr) as (id & data & -> & [Hid Hg] & Hlen). exists id, data. split; [done|]. split; [|done]. split; [|done].
  destruct (last_number_spec m rs) as (_ & H2 & _). specialize (H2 id). rewrite list_elem_of_fmap in H2.
  specialize (H2 ltac:(by exists (image_record id data))). lia.
Qed.

Lemma last_number_bound : last_number m rs ≤ NumPages p.
Proof using Hlog.
  destruct (last_number_spec m rs) as (_ & _ & [->|Hin]); [apply Hlog|].
  apply list_elem_of_fmap in Hin as (r & -> & Hr). pose proof (lg_records _ _ _ _ _ Hlog) as H. rewrite Forall_forall in H.
  destruct (H r Hr) as (id & data & -> & [Hid _] & _). cbn. lia.
Qed.
Lemma crash_last : 2 ≤ NumPages p → NumPages p - 1 < md_NumPages m ∨ NumPages p - 1 ∈ r_PageID <$> rs.
Proof using Hlog.
  intros Hn. destruct (decide (NumPages p - 1 ∈ gaps)) as [Hg|Hg]; [left; by apply Hlog|]. apply crash_new. split; [lia|done].
Qed.

(** The pager that an opening ends with shows the pages of [p]. *)
Record reopens (lv' : Leftovers) (cs : Z) (p' : Pager) : Prop := {
  re_ok : @pager_ok lv' ∅ p';
  re_wal : is_Some (p_wal p');
  re_size : p_cacheSize p' = cs;
  re_num : NumPages p ≤ NumPages p';
  re_root : RootPageID p' = RootPageID p;
  re_pages : ∀ id, @in_range lv p id → @in_range lv' p' id ∧ page_image p' id = page_image p id;
}.

(** A log without records: the pages are on the disk. *)
Lemma reopen_empty cs w' :
  rs = [] → bw_file w' = log_file [] → bw_offset w' = len (log_file []) → 2 ≤ NumPages p →
  reopens (reopened lv) cs (set_wal (Some w') (empty_pager (p_file p) cs m)).
Proof using Hok Hlog.
  intros Hrs Hf Ho Hn. assert (Hnew : ∀ id, in_range p id → id < md_NumPages m).
  { intros id Hid. destruct (crash_new id Hid) as [?|Hin]; [done|]. rewrite Hrs in Hin. by apply elem_of_nil in Hin. }
  destruct (@empty_pager_ok (reopened lv) (p_file p) cs m eq_refl (lg_gaps _ _ _ _ _ Hlog) (ok_disk _ _ Hok) (lg_good _ _ _ _ _ Hlog)) as [A B].
  { intros i Hi Hg. apply crash_disk; [by rewrite Hrs|done|done]. }
  split; try done.
  - apply (set_wal_ok (lv := reopened lv)); [done|]. apply (logged_empty (lv := reopened lv)); [done| |done|done].
    split; [apply Hlog|]. intros i _. symmetry. apply B.
  - change (NumPages p ≤ md_NumPages m). destruct crash_last as [?|Hin]; [done|lia|]. rewrite Hrs in Hin. by apply elem_of_nil in Hin.
  - apply Hlog.
  - intros id Hid. split; [split; [|apply Hid]|].
    + split; [apply Hid|]. by apply Hnew.
    + rewrite (crash_image id Hid), Hrs. apply B.
Qed.

Lemma reopen_records cs w' :
  rs ≠ [] → Forall (recovers (p_file p) (md_NumPages m)) rs → 2 ≤ NumPages p → NumPages p + 1 < 2 ^ 32 →
  ∃ lv' p', recover_pages rs (set_wal (Some w') (empty_pager (p_file p) cs m)) = (p', Ok tt) ∧ reopens lv' cs p'.
Proof using Hok Hlog.
  intros Hrs Hrec Hn Hmax. pose proof (lg_good _ _ _ _ _ Hlog) as [_ _ M3 _]. pose proof last_number_bound as Hb.
  destruct (last_number_spec m rs) as (B1 & B2 & _). set (N := last_number m rs + 1).
  assert (HN : md_NumPages m ≤ N < 2 ^ 32) by (unfold N; lia).
  destruct (crash_replayed cs N Hrec HN) as [lv0 Hq].
  destruct (recover_pages_ok lv m N cs (p_file p) w' (proj1 M3) HN (lg_gaps _ _ _ _ _ Hlog) lv0 _ rs eq_refl Hq crash_page_images Hrec)
    as (p' & lv' & E & A1 & A2 & A3 & A4 & A5 & A6 & A7).
  exists lv', (set_wal (Some (BWAL_Truncate w')) p'). split; [exact E|]. split; try done.
  - apply (set_wal_ok (lv := lv')); [done|]. by apply (logged_empty (lv := lv')).
  - change (NumPages p ≤ NumPages p'). rewrite A4. unfold N. destruct crash_last as [?|Hin]; [done|lia|]. specialize (B2 _ Hin). lia.
  - transitivity (md_RootPageID m); [done|apply Hlog].
  - intros id Hid. assert (Hin : @in_range lv' p' id).
    { apply A6. destruct Hid as [Hid Hg]. split; [|split; [done|exact (crash_new id (conj Hid Hg))]].
      destruct (crash_new id (conj Hid Hg)) as [?|Hin]; [unfold N; lia|]. specialize (B2 _ Hin). unfold N. lia. }
    split; [exact Hin|]. rewrite (crash_image id Hid). by apply A7.
Qed.
End crash.

(** Opening the files of an engine that died, without a last sync, gives an engine of the
    same map. *)
Lemma crash_reopen_ok {ord : RangeOrder} {lv : Leftovers} st b m config :
  tree_of st b m → recoverable (b_pager b) = true → 3 ≤ cf_CacheSize config → NumPages (b_pager b) + 1 < 2 ^ 32 →
  ∃ lv' b2, crash_reopen config b = Ok b2 ∧ @tree_of lv' st b2 m.
Proof.
  intros [H1 H2 H3 [w Hw] H5] Hrec Hcs Hmax. destruct (tree_ok_pages st _ m H5) as [_ Hn]. set (p := b_pager b) in *.
  pose proof (ok_logged _ _ H2) as Hl. unfold logged in Hl. rewrite Hw in Hl. destruct Hl as (rs & md & Hlog).
  destruct (read_images ∅ p w rs md (ok_meta _ _ H2) Hlog) as (w' & Ew & Ef & Eo & Er & Erec).
  assert (Hrs : Forall (recovers (p_file p) (md_NumPages md)) rs).
  { unfold recoverable in Hrec. rewrite Hw, (lg_meta _ _ _ _ _ Hlog), Erec in Hrec. apply Forall_forall. intros r Hr.
    rewrite forallb_forall in Hrec. apply Is_true_true_2. by apply Hrec, list_elem_of_In. }
  assert (Hfin : ∀ lv' p', reopens (lv := lv) p lv' (cf_CacheSize config) p' → @tree_of lv' st (MkBTree config p' 0 0 0 0 false) m).
  { intros lv' p' [R1 R2 R3 R4 R5 R6]. split; try done; cbn [b_pager]; [by rewrite R3|]. rewrite R5.
    apply (tree_ok_ext st (view p) _ (@in_range lv p) _ (NumPages p)); [done|done|]. intros id Hid. destruct (R6 id Hid) as [? ?].
    split; [done|]. by apply view_image. }
  unfold crash_reopen. fold p. rewrite Hw. unfold BTree_New. cbn [NewPager]. unfold loadPager. rewrite (lg_meta _ _ _ _ _ Hlog).
  cbn [mbind res_bind]. rewrite Ew. cbn [mbind res_bind]. unfold recoverFromWAL. rewrite gets_bind.
  cbn [b_pager SetWAL set_wal p_wal fmap option_fmap option_map]. rewrite Er.
  destruct (decide (rs = [])) as [->|Hne].
  - change (len [] =? 0) with true. cbv iota. exists (reopened lv). eexists. split; [reflexivity|]. apply Hfin.
    by apply (reopen_empty p w [] md).
  - destruct (Z.eqb_spec (len rs) 0) as [E|_]; [by destruct rs|].
    destruct (reopen_records p w rs md H2 Hlog (cf_CacheSize config) w' Hne Hrs Hn Hmax) as (lv' & p' & E & Hre).
    exists lv', (MkBTree config p' 0 0 0 0 false). split; [|by apply Hfin]. unfold pager, zoom.
    change (b_pager _) with (set_wal (Some w') (empty_pager (p_file p) (cf_CacheSize config) md)) at 1. by rewrite E.
Qed.
