(* ===== verification/BtDurable.v ===== *)
(** Durability of the B-tree engine: runs of sessions that end with a crash, with or without
    a [Sync] before it, after which the engine is opened on the database file and the log
    that are on disk. *)
From stdpp Require Import base gmap list strings numbers sorting.
From S2P Require Import Prelude GoLib GoState Common BtVarint BtPage BtNode BtWal BtPager BtRecency BtCache BtSplit BtMerge BtTree BtLeaf BtTreeInv BtInsert BtRefine BtRecovery.

Open Scope Z_scope.

(** Each round is a session, and a crash followed by a restart with the configuration of the
    round. *)
Abbreviation rounds := (list (list call * BConfig)).

(** The calls of a round, with the sync that ends it. *)
Definition round_calls (sync : bool) (cs : list call) : list call := if sync then cs ++ [CSync] else cs.

Section durable.
Context {ord : RangeOrder} (sync : bool).

Fixpoint run_rounds (b : BTree) (l : rounds) : res (list (list answer)) :=
  match l with
  | [] => Ok []
  | (cs, config) :: l =>
      let '(b, answers) := session tree_call b (round_calls sync cs) in
      b ← crash_reopen config b;
      rest ← run_rounds b l;
      Ok (answers :: rest)
  end.

(** What the rounds answer when no crash loses anything: the map goes on. *)
Fixpoint spec_rounds (m : gmap bytes bytes) (l : rounds) : list (list answer) :=
  match l with
  | [] => []
  | (cs, _) :: l => let '(m, answers) := session tree_spec m (round_calls sync cs) in answers :: spec_rounds m l
  end.

(** Every session stays in the scope of the model, every restart has room for three pages in
    its cache, and without a sync every page in the log can be recovered. *)
Fixpoint rounds_in_scope (b : BTree) (l : rounds) : bool :=
  match l with
  | [] => true
  | (cs, config) :: l =>
      let b1 := (session tree_call b (round_calls sync cs)).1 in
      in_scope b (round_calls sync cs) && (3 <=? cf_CacheSize config) && (sync || recoverable (b_pager b1)) &&
      match crash_reopen config b1 with
      | Ok b => rounds_in_scope b l
      | _ => true
      end
  end.

Lemma in_scope_app b cs cs' : in_scope b (cs ++ cs') = true → in_scope b cs = true ∧ in_scope (session tree_call b cs).1 cs' = true.
Proof using Type.
  revert b. induction cs as [|c cs IH]; intros b Hs.
  - cbn [app session fst in_scope] in *. split; [|done]. by destruct cs'; cbn [in_scope] in *; apply andb_prop in Hs as [-> _].
  - cbn [app in_scope session] in *. apply andb_prop in Hs as [-> Hs]. apply andb_prop in Hs as [-> Hs].
    destruct (IH _ Hs) as [-> H]. destruct (tree_call b c) as [b1 a]. cbn [fst] in *. by destruct (session tree_call b1 cs).
Qed.

Lemma in_scope_end b cs : in_scope b cs = true → NumPages (b_pager (session tree_call b cs).1) ≤ max_pages.
Proof using Type.
  intros Hs. rewrite <-(app_nil_r cs) in Hs. apply in_scope_app in Hs as [_ Hs]. cbn [in_scope] in Hs.
  rewrite andb_true_r in Hs. by apply Z.leb_le.
Qed.

(** After a sync the log is empty. *)
Lemma sync_recoverable {lv : Leftovers} st b m cs :
  tree_of st b m → st = false → in_scope b (cs ++ [CSync]) = true → recoverable (b_pager (session tree_call b (cs ++ [CSync])).1) = true.
Proof using Type.
  intros Hb -> Hs. apply in_scope_app in Hs as [Hs _]. destruct (tree_session false b m cs Hb Hs ltac:(done)) as [_ H1].
  assert (E : (session tree_call b (cs ++ [CSync])).1 = (tree_call (session tree_call b cs).1 CSync).1).
  { clear. revert b. induction cs as [|c cs IH]; intros b; cbn [app session].
    - cbn [fst]. by destruct (tree_call b CSync).
    - destruct (tree_call b c) as [b1 a]. specialize (IH b1).
      destruct (session tree_call b1 (cs ++ [CSync])), (session tree_call b1 cs). exact IH. }
  rewrite E. destruct (sync_ok false _ _ H1) as (p' & w & -> & _ & _ & [Hd _] & Hw & _). cbn [fst set_pager b_pager].
  unfold recoverable. cbn [set_wal p_wal p_file]. rewrite Hd. unfold log_records. by rewrite Hw.
Qed.

Lemma rounds_refine {lv : Leftovers} b m l :
  tree_of false b m → rounds_in_scope b l = true → run_rounds b l = Ok (spec_rounds m l).
Proof using Type.
  revert lv b m. induction l as [|[cs config] l IH]; intros lv b m Hb Hs; [done|]. cbn [rounds_in_scope run_rounds spec_rounds] in *.
  apply andb_prop in Hs as [Hs Hl]. apply andb_prop in Hs as [Hs Hrec]. apply andb_prop in Hs as [Hs Hc]. apply Z.leb_le in Hc.
  destruct (tree_session false b m _ Hb Hs ltac:(done)) as [Ha Hb1]. pose proof (in_scope_end b _ Hs) as Hn.
  assert (Hr : recoverable (b_pager (session tree_call b (round_calls sync cs)).1) = true).
  { apply orb_prop in Hrec as [Hsync|?]; [|done]. unfold round_calls in *. rewrite Hsync in *. by apply (sync_recoverable false b m). }
  destruct (session tree_call b (round_calls sync cs)) as [b1 answers], (session tree_spec m (round_calls sync cs)) as [m1 answers'].
  cbn [fst snd] in *. subst answers'.
  destruct (crash_reopen_ok false b1 m1 config Hb1 Hr Hc) as (lv' & b2 & E & Hb2); [unfold max_pages in Hn; lia|].
  rewrite E in *. cbn [mbind res_bind]. by rewrite (IH lv' b2 m1 Hb2 Hl).
Qed.
End durable.



(** Fifty keys fill several leaves; the sessions after the two crashes read and change them. *)
Definition demo_rounds : rounds :=
  [(demo_fill, demo_config); ([CGet [7; 0]; CPut [7; 0] [1]; CDelete [3; 0]], MkBConfig "d" 128 4);
   ([CGet [7; 0]; CGet [3; 0]; CGet [49; 0]], demo_config)].


(** No sync precedes the crashes: what the sessions wrote is in the log only. *)
Definition crash_rounds : rounds :=
  [([CPut [7] [1; 2]; CSync; CPut [3] [9]; CPut [7] [4]; CPut [5] [6]; CDelete [5]], demo_config);
   ([CGet [7]; CGet [5]; CPut [5] [8]; CDelete [3]], MkBConfig "d" 128 100);
   ([CGet [7]; CGet [5]; CGet [3]; CPut [] [1]], demo_config)].

