(* ===== verification/BtIterator.v ===== *)
(** Range scans ([src/btree/iterator.go]) and the walks to the edges of a subtree
    ([src/btree/node.go]): an iterator over linked leaves and what a scan returns. *)
From stdpp Require Import base gmap list strings numbers sorting.
From S2P Require Import Prelude GoLib GoState Common BtVarint BtPage BtNode BtWal BtPager BtCache BtSplit BtMerge BtTree BtLeaf BtTreeInv BtInsert BtRefine.

Open Scope Z_scope.

(** ** The edges of a subtree *)

(** The loops are bounded as the descents of the engine are. *)
Fixpoint min_leaf (fuel : nat) (page : page_ptr) : M Pager page_ptr :=
  match fuel with
  | O => lift Panic
  | S fuel =>
      leaf ← read_page page IsLeaf;
      if leaf : bool then mret page
      else
        numCells ← read_page page NumCells;
        if numCells =? 0 then throw ErrCellNotFound
        else
          cell ← (r ← read_page page (λ pg, CellAt pg 0); lift r);
          page ← GetPage (c_Child cell);
          min_leaf fuel page
  end.

Fixpoint max_leaf (fuel : nat) (page : page_ptr) : M Pager page_ptr :=
  match fuel with
  | O => lift Panic
  | S fuel =>
      leaf ← read_page page IsLeaf;
      if leaf : bool then mret page
      else
        rightPtr ← read_page page RightPtr;
        if rightPtr =? 0 then
          numCells ← read_page page NumCells;
          if numCells =? 0 then throw ErrCellNotFound
          else
            cell ← (r ← read_page page (λ pg, CellAt pg (u16 (numCells - 1))); lift r);
            page ← GetPage (c_Child cell);
            max_leaf fuel page
        else
          page ← GetPage rightPtr;
          max_leaf fuel page
  end.

Definition GetMinKey (pageID : Z) : M Pager bytes :=
  page ← GetPage pageID;
  fuel ← gets depth_fuel;
  page ← min_leaf fuel page;
  numCells ← read_page page NumCells;
  if numCells =? 0 then throw ErrCellNotFound
  else
    cell ← (r ← read_page page (λ pg, CellAt pg 0); lift r);
    mret (c_Key cell).

Definition GetMaxKey (pageID : Z) : M Pager bytes :=
  page ← GetPage pageID;
  fuel ← gets depth_fuel;
  page ← max_leaf fuel page;
  numCells ← read_page page NumCells;
  if numCells =? 0 then throw ErrCellNotFound
  else
    cell ← (r ← read_page page (λ pg, CellAt pg (u16 (numCells - 1))); lift r);
    mret (c_Key cell).

(** ** The iterator *)

(** [it_btree] is the tree the iterator points to; a [nil] end key means no bound. *)
Record Iterator := MkIter {
  it_btree : BTree;
  it_currentPage : option page_ptr;
  it_cellIndex : Z;
  it_endKey : option bytes;
  it_err : option error;
  it_started : bool;
  it_firstCall : bool;
}.

Definition set_btree (b : BTree) (it : Iterator) : Iterator :=
  MkIter b (it_currentPage it) (it_cellIndex it) (it_endKey it) (it_err it) (it_started it) (it_firstCall it).
Definition set_currentPage (page : option page_ptr) (it : Iterator) : Iterator :=
  MkIter (it_btree it) page (it_cellIndex it) (it_endKey it) (it_err it) (it_started it) (it_firstCall it).
Definition set_position (page : page_ptr) (index : Z) (it : Iterator) : Iterator :=
  MkIter (it_btree it) (Some page) index (it_endKey it) (it_err it) (it_started it) (it_firstCall it).
Definition set_err (e : error) (it : Iterator) : Iterator :=
  MkIter (it_btree it) (it_currentPage it) (it_cellIndex it) (it_endKey it) (Some e) (it_started it) (it_firstCall it).
Definition set_started (it : Iterator) : Iterator :=
  MkIter (it_btree it) (it_currentPage it) (it_cellIndex it) (it_endKey it) (it_err it) true true.

(** A method of the pager of the tree. *)
Definition of_pager {A} (m : M Pager A) : M Iterator A := zoom it_btree set_btree (pager m).

Definition NewIterator (startKey : bytes) (endKey : option bytes) (b : BTree) : Iterator :=
  MkIter b None 0 endKey None false false.

(** The walk of [seek] without a start key: an internal page without cells ends it. *)
Fixpoint leftmost (fuel : nat) (page : page_ptr) : M Pager (option page_ptr) :=
  match fuel with
  | O => lift Panic
  | S fuel =>
      leaf ← read_page page IsLeaf;
      if leaf : bool then mret (Some page)
      else
        numCells ← read_page page NumCells;
        if numCells =? 0 then mret None
        else
          cell ← (r ← read_page page (λ pg, CellAt pg 0); lift r);
          page ← GetPage (c_Child cell);
          leftmost fuel page
  end.

(** Its descent with one, which routes as insertions do. *)
Fixpoint seek_leaf (fuel : nat) (pageID : Z) (startKey : bytes) : M Pager page_ptr :=
  match fuel with
  | O => lift Panic
  | S fuel =>
      page ← GetPage pageID;
      leaf ← read_page page IsLeaf;
      if leaf : bool then mret page
      else
        childPageID ← (r ← read_page page (λ pg, GetChildPageID pg startKey); lift r);
        seek_leaf fuel childPageID startKey
  end.

Definition seek (startKey : bytes) : M Iterator () :=
  if len startKey =? 0 then
    pageID ← of_pager (gets RootPageID);
    page ← of_pager (GetPage pageID);
    fuel ← of_pager (gets depth_fuel);
    r ← of_pager (leftmost fuel page);
    match r with
    | None => modify (set_currentPage None)
    | Some page =>
        _ ← modify (set_position page 0);
        modify set_started
    end
  else
    pageID ← of_pager (gets RootPageID);
    fuel ← of_pager (gets depth_fuel);
    r ← try_ (of_pager (seek_leaf fuel pageID startKey));
    match r with
    | Ok page =>
        index ← (r ← of_pager (read_page page (λ pg, searchCell pg startKey)); lift r);
        _ ← modify (set_position page (u16 (if index <? 0 then - index - 1 else index)));
        modify set_started
    | Err e =>
        _ ← modify (set_err e);
        throw e
    | Panic => lift Panic
    end.

Definition BTree_Scan (startKey : bytes) (endKey : option bytes) : M BTree Iterator := λ b,
  match seek startKey (NewIterator startKey endKey b) with
  | (it, Ok _) => (it_btree it, Ok it)
  | (it, Err e) => (it_btree it, Err e)
  | (it, Panic) => (it_btree it, Panic)
  end.

(** The first call does not advance. *)
Definition step_cell (it : Iterator) : Iterator :=
  MkIter (it_btree it) (it_currentPage it)
    (if it_firstCall it then it_cellIndex it else u16 (it_cellIndex it + 1))
    (it_endKey it) (it_err it) (it_started it) false.

(** Past the last cell, move to the next leaf; [None] when [Next] returns false. *)
Definition turn_page (page : page_ptr) : M Iterator (option page_ptr) :=
  cellIndex ← gets it_cellIndex;
  numCells ← of_pager (read_page page NumCells);
  if numCells <=? cellIndex then
    rightPtr ← of_pager (read_page page RightPtr);
    if rightPtr =? 0 then
      _ ← modify (set_currentPage None);
      mret None
    else
      r ← try_ (of_pager (GetPage rightPtr));
      match r with
      | Ok nextPage =>
          _ ← modify (set_position nextPage 0);
          mret (Some nextPage)
      | Err e =>
          _ ← modify (set_err e);
          mret None
      | Panic => lift Panic
      end
  else mret (Some page).

(** Is the key at the position below the end key? *)
Definition below_end (page : page_ptr) : M Iterator bool :=
  endKey ← gets it_endKey;
  match endKey with
  | None => mret true
  | Some endKey =>
      cellIndex ← gets it_cellIndex;
      r ← of_pager (read_page page (λ pg, CellAt pg cellIndex));
      match r with
      | Ok cell =>
          if bytes_leb endKey (c_Key cell) then
            _ ← modify (set_currentPage None);
            mret false
          else mret true
      | Err e =>
          _ ← modify (set_err e);
          mret false
      | Panic => lift Panic
      end
  end.

Definition Iterator_Next : M Iterator bool :=
  err ← gets it_err;
  match err with
  | Some _ => mret false
  | None =>
      started ← gets it_started;
      if negb started then
        _ ← modify (set_err ErrClosed);
        mret false
      else
        currentPage ← gets it_currentPage;
        match currentPage with
        | None => mret false
        | Some page =>
            _ ← modify step_cell;
            r ← turn_page page;
            match r with
            | None => mret false
            | Some page => below_end page
            end
        end
  end.

(** The cell at the position; an error is kept and gives [nil]. *)
Definition current_cell : M Iterator (option Cell) :=
  currentPage ← gets it_currentPage;
  match currentPage with
  | None => mret None
  | Some page =>
      cellIndex ← gets it_cellIndex;
      r ← of_pager (read_page page (λ pg, CellAt pg cellIndex));
      match r with
      | Ok cell => mret (Some cell)
      | Err e =>
          _ ← modify (set_err e);
          mret None
      | Panic => lift Panic
      end
  end.

Definition Iterator_Key : M Iterator (option bytes) := cell ← current_cell; mret (c_Key <$> cell).
Definition Iterator_Value : M Iterator (option bytes) := cell ← current_cell; mret (c_Value <$> cell).
Definition Iterator_Error (it : Iterator) : option error := it_err it.
Definition Iterator_Close : M Iterator () := modify (set_currentPage None).
