(* ===== verification/BtScan.v ===== *)
(** What a scan returns: on a tree whose leaves are linked, the entries of the map from the
    start key on and below the end key, in order. *)
From stdpp Require Import base gmap list strings numbers sorting.
From S2P Require Import Prelude GoLib GoState Common BtVarint BtPage BtNode BtWal BtPager BtCache BtSplit BtMerge BtTree BtLeaf BtTreeInv BtInsert BtRefine BtIterator.

Open Scope Z_scope.

Section scan.
Context {lv : Leftovers}.

(** ** Linked leaves *)

(** The leaves from page [next] on, none empty; the last has no right pointer. *)
Fixpoint chain (p : Pager) (next : Z) (rest : list (list Cell)) : Prop :=
  match rest with
  | [] => next = 0
  | cells :: rest =>
      cells ≠ [] ∧ in_range p next ∧
      ∃ pg, view p next = Some pg ∧ leaf_page pg cells ∧ chain p (RightPtr pg) rest
  end.

Lemma chain_ext p p' next rest :
  chain p next rest → NumPages p' = NumPages p → (∀ i, in_range p i → view p' i = view p i) → chain p' next rest.
Proof.
  revert next. induction rest as [|cells rest IH]; intros next Hc Hn Hv; [done|].
  destruct Hc as (Hne & Hr & pg & HV & Hp & Hc). split; [done|]. split; [unfold in_range in *; by rewrite Hn|].
  exists pg. split; [by rewrite Hv|]. split; [done|]. by apply IH.
Qed.

(** ** Steps of the iterator *)

Definition it_pager (it : Iterator) : Pager := b_pager (it_btree it).
Definition with_pager (p : Pager) (it : Iterator) : Iterator := set_btree (set_pager p (it_btree it)) it.

Lemma of_pager_eq {A B} (m : M Pager A) (k : A → M Iterator B) it p' a :
  m (it_pager it) = (p', Ok a) → (of_pager m ≫= k) it = k a (with_pager p' it).
Proof. intros E. unfold of_pager, pager, zoom, mbind, M_bind. change (b_pager (it_btree it)) with (it_pager it). by rewrite E. Qed.

Lemma of_pager_same it : with_pager (it_pager it) it = it.
Proof. by destruct it as [[]]. Qed.

Lemma of_pager_gets {A B} (f : Pager → A) (k : A → M Iterator B) it : (of_pager (gets f) ≫= k) it = k (f (it_pager it)) it.
Proof. rewrite (of_pager_eq (gets f) k it (it_pager it) (f (it_pager it)) eq_refl). by rewrite of_pager_same. Qed.

Lemma of_pager_read {A B} ptr (f : Page → A) (k : A → M Iterator B) it :
  (of_pager (read_page ptr f) ≫= k) it = k (f (deref (it_pager it) ptr)) it.
Proof. apply of_pager_gets. Qed.

(** The iterator is on the leaf at [ptr], which holds [cells]; [rest] are the leaves after it. *)
Record on_leaf (it : Iterator) (ptr : page_ptr) (cells : list Cell) (rest : list (list Cell)) : Prop := {
  ol_pager : pager_ok ∅ (it_pager it);
  ol_err : it_err it = None;
  ol_started : it_started it = true;
  ol_page : it_currentPage it = Some ptr;
  ol_leaf : leaf_page (deref (it_pager it) ptr) cells;
  ol_chain : chain (it_pager it) (RightPtr (deref (it_pager it) ptr)) rest;
}.

Lemma on_leaf_ext it it' ptr cells rest :
  on_leaf it ptr cells rest → it_btree it' = it_btree it → it_err it' = it_err it → it_started it' = it_started it →
  it_currentPage it' = it_currentPage it → on_leaf it' ptr cells rest.
Proof.
  intros [H1 H2 H3 H4 H5 H6] E1 E2 E3 E4. unfold it_pager in *.
  split; unfold it_pager; rewrite ?E1; congruence.
Qed.

Definition ended (it : Iterator) : Prop := it_err it = None ∧ it_currentPage it = None.

Lemma turn_page_ok it ptr cells rest (i : nat) :
  on_leaf it ptr cells rest → it_cellIndex it = Z.of_nat i →
  match drop i cells ++ concat rest with
  | [] => ∃ it', turn_page ptr it = (it', Ok None) ∧ ended it'
  | c :: todo => ∃ it' ptr' cells' rest' j, turn_page ptr it = (it', Ok (Some ptr')) ∧ on_leaf it' ptr' cells' rest' ∧
      it_cellIndex it' = Z.of_nat j ∧ cells' !! j = Some c ∧ drop (S j) cells' ++ concat rest' = todo ∧
      it_endKey it' = it_endKey it ∧ it_firstCall it' = it_firstCall it
  end.
Proof.
  intros Hl Hi. pose proof Hl as [H1 H2 H3 H4 H5 H6]. destruct (rep_num _ _ (lp_rep _ _ H5)) as [Hn _].
  unfold turn_page. rewrite gets_bind, of_pager_read, Hi, Hn. unfold len. destruct (Z.leb_spec (Z.of_nat (length cells)) (Z.of_nat i)) as [Hle|Hlt].
  - rewrite of_pager_read, drop_ge by lia. cbn [app]. destruct rest as [|cells' rest].
    + cbn [chain] in H6. rewrite H6. cbn. by eexists.
    + destruct H6 as (Hne & Hr & pg & HV & Hp & Hc). destruct (Z.eqb_spec (RightPtr (deref (it_pager it) ptr)) 0) as [E|E].
      { destruct Hr. lia. }
      destruct (GetPage_ok (it_pager it) _ H1 Hr) as (p' & ptr' & Eg & A1 & A2 & A3 & A4 & _).
      assert (Et : try_ (of_pager (GetPage (RightPtr (deref (it_pager it) ptr)))) it = (with_pager p' it, Ok (Ok ptr'))).
      { unfold try_, of_pager, pager, zoom. change (b_pager (it_btree it)) with (it_pager it). by rewrite Eg. }
      go_step Et. cbn iota. rewrite modify_bind. destruct cells' as [|c cells']; [done|]. cbn [concat app].
      assert (Hv : ∀ i, in_range (it_pager it) i → view p' i = view (it_pager it) i) by by apply view_same.
      pose proof HV as HV'. rewrite <-Hv in HV' by done. destruct (deref_view _ _ _ _ _ A1 A2 HV') as [b Hd].
      exists (set_position ptr' 0 (with_pager p' it)), ptr', (c :: cells'), rest, 0%nat. split; [done|]. split; [|done].
      split; try done; change (it_pager (set_position ptr' 0 (with_pager p' it))) with p'; rewrite Hd.
      * by apply SetDirty_leaf.
      * apply (chain_ext (it_pager it)); [exact Hc| |done]. unfold NumPages. by rewrite (pf_metadata _ _ A4).
  - destruct (drop i cells) as [|c todo] eqn:Ed; [apply (f_equal length) in Ed; rewrite length_drop in Ed; simpl in Ed; lia|].
    cbn [app]. exists it, ptr, cells, rest, i. split; [done|]. split; [done|]. split; [done|].
    assert (Hc : cells !! i = Some c) by (rewrite <-(Nat.add_0_r i), <-lookup_drop, Ed; done).
    split; [done|]. split; [|done]. rewrite (drop_S cells c i Hc) in Ed. by injection Ed as <-.
Qed.

(** ** Next *)

Definition within (endKey : option bytes) (k : bytes) : bool :=
  match endKey with
  | None => true
  | Some e => bytes_ltb k e
  end.

(** The cells the next calls visit. *)
Definition next_index (it : Iterator) : Z := if it_firstCall it then it_cellIndex it else it_cellIndex it + 1.

Definition before (it : Iterator) (todo : list Cell) : Prop :=
  ∃ ptr cells rest (i : nat), on_leaf it ptr cells rest ∧ next_index it = Z.of_nat i ∧ 0 ≤ it_cellIndex it ≤ len cells ∧
    todo = drop i cells ++ concat rest.

Lemma below_end_ok it ptr cells rest j c :
  on_leaf it ptr cells rest → it_cellIndex it = Z.of_nat j → cells !! j = Some c →
  if within (it_endKey it) (c_Key c) then below_end ptr it = (it, Ok true)
  else ∃ it', below_end ptr it = (it', Ok false) ∧ ended it'.
Proof.
  intros [H1 H2 H3 H4 H5 H6] Hj Hc. unfold below_end, within. rewrite gets_bind. destruct (it_endKey it) as [e|]; [|done].
  rewrite gets_bind, of_pager_read, Hj, (rep_CellAt _ _ _ _ (lp_rep _ _ H5) Hc).
  destruct (bytes_ltb (c_Key c) e) eqn:E.
  - apply bytes_ltb_lt in E. destruct (bytes_leb e (c_Key c)) eqn:E'; [|done]. apply bytes_leb_le, bytes_nlt_le in E'. done.
  - apply bytes_ltb_nlt, bytes_leb_le in E. rewrite E. eexists. split; [done|]. by split.
Qed.

Lemma current_cell_ok it ptr cells rest j c :
  on_leaf it ptr cells rest → it_cellIndex it = Z.of_nat j → cells !! j = Some c → current_cell it = (it, Ok (Some c)).
Proof.
  intros [H1 H2 H3 H4 H5 H6] Hj Hc. unfold current_cell.
  rewrite gets_bind, H4, gets_bind, of_pager_read, Hj, (rep_CellAt _ _ _ _ (lp_rep _ _ H5) Hc). done.
Qed.

Lemma Next_ok it todo :
  before it todo →
  match todo with
  | [] => ∃ it', Iterator_Next it = (it', Ok false) ∧ ended it'
  | c :: todo =>
      if within (it_endKey it) (c_Key c) then
        ∃ it', Iterator_Next it = (it', Ok true) ∧ current_cell it' = (it', Ok (Some c)) ∧ before it' todo ∧
          it_endKey it' = it_endKey it
      else ∃ it', Iterator_Next it = (it', Ok false) ∧ ended it'
  end.
Proof.
  intros (ptr & cells & rest & i & Hl & Hi & Hb & ->). destruct (rep_num _ _ (lp_rep _ _ (ol_leaf _ _ _ _ Hl))) as [_ Hn].
  assert (Hl1 : on_leaf (step_cell it) ptr cells rest) by by apply (on_leaf_ext it).
  assert (Hi1 : it_cellIndex (step_cell it) = Z.of_nat i).
  { unfold step_cell, next_index in *. cbn [it_cellIndex]. destruct (it_firstCall it); [done|]. rewrite u16_small by lia. done. }
  assert (En : Iterator_Next it = (turn_page ptr ≫= λ r, match r with None => mret false | Some page => below_end page end) (step_cell it)).
  { unfold Iterator_Next. destruct Hl as [_ H2 H3 H4 _ _]. rewrite gets_bind, H2, gets_bind, H3. cbn [negb]. by rewrite gets_bind, H4, modify_bind. }
  rewrite En. pose proof (turn_page_ok _ ptr cells rest i Hl1 Hi1) as Ht. destruct (drop i cells ++ concat rest) as [|c todo].
  - destruct Ht as (it' & Et & He). go_step Et. by exists it'.
  - destruct Ht as (it' & ptr' & cells' & rest' & j & Et & Hl' & Hj & Hc & Htodo & Hend & Hf). go_step Et.
    pose proof (below_end_ok it' ptr' cells' rest' j c Hl' Hj Hc) as Hbe. rewrite Hend in Hbe. cbn [step_cell it_endKey] in Hbe.
    destruct (within (it_endKey it) (c_Key c)); [|done]. exists it'. split; [done|]. split; [by eapply current_cell_ok|]. split; [|done].
    exists ptr', cells', rest', (S j). split; [done|]. unfold next_index. rewrite Hf, Hj. cbn [step_cell it_firstCall].
    apply lookup_lt_Some in Hc. unfold len. split_and!; try lia. done.
Qed.

(** ** Draining an iterator *)

(** [for it.Next() { entries = append(entries, entry{it.Key(), it.Value()}) }]. *)
Fixpoint drain (fuel : nat) : M Iterator (list (bytes * bytes)) :=
  match fuel with
  | O => lift Panic
  | S fuel =>
      more ← Iterator_Next;
      if more : bool then
        k ← Iterator_Key;
        v ← Iterator_Value;
        entries ← drain fuel;
        mret ((default [] k, default [] v) :: entries)
      else mret []
  end.

Fixpoint take_within (endKey : option bytes) (cells : list Cell) : list (bytes * bytes) :=
  match cells with
  | [] => []
  | c :: cells => if within endKey (c_Key c) then (c_Key c, c_Value c) :: take_within endKey cells else []
  end.

Lemma drain_ok fuel it todo :
  before it todo → (length (take_within (it_endKey it) todo) < fuel)%nat →
  ∃ it', drain fuel it = (it', Ok (take_within (it_endKey it) todo)) ∧ ended it'.
Proof.
  revert it todo. induction fuel as [|fuel IH]; intros it todo Hb Hf; [lia|]. pose proof (Next_ok it todo Hb) as Hn.
  cbn [drain]. destruct todo as [|c todo]; cbn [take_within] in *.
  - destruct Hn as (it' & E & He). go_step E. by exists it'.
  - destruct (within (it_endKey it) (c_Key c)).
    + destruct Hn as (it1 & E & Ec & Hb1 & Hend). go_step E. cbn [length] in Hf.
      destruct (IH it1 todo Hb1) as (it' & Ed & He); [rewrite Hend; lia|]. exists it'. split; [|done].
      assert (Ek : Iterator_Key it1 = (it1, Ok (Some (c_Key c)))) by (unfold Iterator_Key; by rewrite (M_bind_Ok _ _ _ _ _ Ec)).
      assert (Ev : Iterator_Value it1 = (it1, Ok (Some (c_Value c)))) by (unfold Iterator_Value; by rewrite (M_bind_Ok _ _ _ _ _ Ec)).
      go_step Ek. go_step Ev. go_step Ed. by rewrite Hend.
    + destruct Hn as (it' & E & He). go_step E. by exists it'.
Qed.

(** ** The cells from a key on *)

(** Sorted cells that list the entries of [m] from [lo] on. *)
Record lists (m : gmap bytes bytes) (lo : option bytes) (cells : list Cell) : Prop := {
  ls_sorted : StronglySorted (key_lt c_Key) cells;
  ls_from : Forall (λ c, key_from lo (c_Key c)) cells;
  ls_map : ∀ k, key_from lo k → leaf_map cells !! k = m !! k;
}.

Lemma leaf_map_None cells k : Forall (λ c, c_Key c ≠ k) cells → leaf_map cells !! k = None.
Proof. intros H. unfold leaf_map. rewrite lookup_fmap, entries_map_None by done. done. Qed.

Lemma leaf_map_app a b k :
  leaf_map (a ++ b) !! k = match leaf_map a !! k with Some v => Some v | None => leaf_map b !! k end.
Proof.
  unfold leaf_map. rewrite entries_map_app, !lookup_fmap, lookup_union.
  destruct (entries_map c_Key a !! k), (entries_map c_Key b !! k); done.
Qed.

Lemma lists_app m lo s pg cells rest next :
  leaf_page pg cells → Forall (λ x, key_from lo (c_Key x) ∧ key_upto (Some s) (c_Key x)) cells →
  scannable pg cells lo (Some s) next → (∀ k, key_from lo k → key_below (Some s) k → leaf_map cells !! k = m !! k) →
  key_from lo s → lists m (Some s) rest → lists m lo (cells ++ rest).
Proof.
  intros Hp Hb [Hbelow _ _] Hm Hs [R1 R2 R3]. pose proof (lp_rep _ _ Hp) as (_ & Hsort & _). split.
  - apply sorted_app; [done|done|]. intros x y Hx Hy. rewrite Forall_forall in Hbelow, R2.
    eapply bytes_lt_le_trans; [by apply (Hbelow x)|by apply (R2 y)].
  - apply Forall_app. split; [eapply Forall_impl; [exact Hb|]; by intros ? []|]. eapply Forall_impl; [exact R2|].
    intros x Hx. destruct lo; [by eapply bytes_le_trans|done].
  - intros k Hk. rewrite leaf_map_app. destruct (bytes_ltb k s) eqn:E.
    + apply bytes_ltb_lt in E. rewrite (Hm k Hk E). rewrite (leaf_map_None rest k); [by destruct (m !! k)|].
      eapply Forall_impl; [exact R2|]. intros x Hx Ex. simpl in Hx. rewrite Ex in Hx. by apply bytes_nlt_le in Hx.
    + apply bytes_ltb_nlt in E. rewrite (leaf_map_None cells k); [by apply R3|].
      eapply Forall_impl; [exact Hbelow|]. intros x Hx Ex. simpl in Hx. rewrite Ex in Hx. by apply bytes_nlt_le in Hx.
Qed.

Lemma lists_last m lo pg cells :
  leaf_page pg cells → Forall (λ x, key_from lo (c_Key x) ∧ key_upto None (c_Key x)) cells →
  (∀ k, key_from lo k → key_below None k → leaf_map cells !! k = m !! k) → lists m lo cells.
Proof.
  intros Hp Hb Hm. pose proof (lp_rep _ _ Hp) as (_ & Hsort & _). split; [done| |intros k Hk; by apply Hm].
  eapply Forall_impl; [exact Hb|]. by intros ? [].
Qed.

Lemma kids_chain p m seps : ∀ lo child,
  Forall (in_range p) (child :: children seps) → StronglySorted (key_lt c_Key) seps →
  Forall (λ s, bytes_le lo (c_Key s)) seps → kids true (view p) m (Some lo) child seps →
  ∃ rest, chain p child rest ∧ lists m (Some lo) (concat rest).
Proof.
  induction seps as [|s seps IH]; intros lo child Hr Hs Hlo Hk; cbn [kids] in Hk.
  - apply Forall_cons in Hr as [Hr _]. destruct Hk as (pg & cells & HV & Hp & Hb & _ & Hm & Hsc).
    destruct (Hsc eq_refl) as [_ Hnext [?|Hne]]; [done|]. exists [cells]. split.
    + split; [done|]. split; [done|]. by exists pg.
    + simpl. rewrite app_nil_r. by eapply lists_last.
  - destruct Hk as [(pg & cells & HV & Hp & Hb & _ & Hm & Hsc) Hk]. destruct (Hsc eq_refl) as [Hbelow Hnext Hne].
    unfold children in Hr. rewrite fmap_cons in Hr. apply Forall_cons in Hr as [Hr Hrs].
    apply Forall_cons in Hlo as [Hls Hlo]. inversion_clear Hs as [|? ? Hs' Hsx].
    destruct (IH (c_Key s) (c_Child s) Hrs Hs') as (rest & Hc & Hl); [|done|].
    { eapply Forall_impl; [exact Hsx|]. intros x Hx. by apply bytes_lt_le. }
    destruct Hne as [?|Hne]; [done|]. exists (cells :: rest). split.
    + split; [done|]. split; [done|]. exists pg. by rewrite Hnext.
    + cbn [concat]. eapply (lists_app m (Some lo) (c_Key s) pg); try done. by split; [done|exact Hnext|right].
Qed.

(** The leaf for a key and the leaves after it list the entries from the key on. *)
Definition scan_from (p : Pager) (m : gmap bytes bytes) (key : bytes) (pg : Page) : Prop :=
  ∃ cells rest lo, leaf_page pg cells ∧ chain p (RightPtr pg) rest ∧ key_from lo key ∧ lists m lo (cells ++ concat rest) ∧
    Forall (λ c, bytes_le key (c_Key c)) (concat rest).

Lemma kids_scan p m key seps : ∀ lo child,
  Forall (in_range p) (child :: children seps) → StronglySorted (key_lt c_Key) seps →
  Forall (λ s, key_from lo (c_Key s)) seps → kids true (view p) m lo child seps → key_from lo key →
  ∃ pg, view p (route child seps key) = Some pg ∧ scan_from p m key pg.
Proof.
  induction seps as [|s seps IH]; intros lo child Hr Hs Hlo Hk Hkey; cbn [kids route] in *.
  - destruct Hk as (pg & cells & HV & Hp & Hb & _ & Hm & Hsc). exists pg. split; [done|].
    exists cells, [], lo. split; [done|]. split; [by apply (Hsc eq_refl)|]. split; [done|]. cbn [concat]. rewrite app_nil_r. split; [by eapply lists_last|constructor].
  - destruct Hk as [(pg & cells & HV & Hp & Hb & _ & Hm & Hsc) Hk]. destruct (Hsc eq_refl) as [Hbelow Hnext Hne].
    unfold children in Hr. rewrite fmap_cons in Hr. apply Forall_cons in Hr as [Hr Hrs].
    apply Forall_cons in Hlo as [Hls Hlo]. inversion_clear Hs as [|? ? Hs' Hsx].
    assert (Hsx' : Forall (λ x, bytes_le (c_Key s) (c_Key x)) seps).
    { eapply Forall_impl; [exact Hsx|]. intros x Hx. by apply bytes_lt_le. }
    destruct (key_ge key s) eqn:E.
    + apply (IH (Some (c_Key s))); try done. unfold key_ge in E. by apply bytes_leb_le in E.
    + exists pg. split; [done|]. destruct (kids_chain p m seps (c_Key s) (c_Child s) Hrs Hs' Hsx' Hk) as (rest & Hc & Hl).
      exists cells, rest, lo. split; [done|]. split; [by rewrite Hnext|]. split; [done|].
      split; [by eapply (lists_app m lo (c_Key s) pg)|]. eapply Forall_impl; [apply Hl|]. intros x Hx. simpl in Hx.
      apply key_ge_lt in E. by apply bytes_lt_le, (bytes_lt_le_trans _ (c_Key s)).
Qed.

(** ** Seek *)

Lemma scan_from_ext p p' m key pg b :
  scan_from p m key pg → NumPages p' = NumPages p → (∀ i, in_range p i → view p' i = view p i) →
  scan_from p' m key (SetDirty b pg).
Proof.
  intros (cells & rest & lo & H1 & H2 & H3) Hn Hv. exists cells, rest, lo. split; [by apply SetDirty_leaf|].
  split; [by apply (chain_ext p)|done].
Qed.

Lemma scan_from_leaf p m key pg : scan_from p m key pg → IsLeaf pg = true.
Proof. intros (cells & rest & lo & H & _). apply H. Qed.

Lemma seek_leaf_ok p m key :
  pager_ok ∅ p → tree_ok true (view p) (in_range p) (NumPages p) (RootPageID p) m →
  ∃ p' ptr, seek_leaf (depth_fuel p) (RootPageID p) key p = (p', Ok ptr) ∧ pager_ok ∅ p' ∧ scan_from p' m key (deref p' ptr).
Proof.
  intros Hok Ht. destruct (tree_ok_pages true p m Ht) as [Hroot H2].
  assert (Ef : ∃ n, depth_fuel p = S (S n)).
  { unfold depth_fuel. exists (Z.to_nat (NumPages p) - 1)%nat. lia. }
  destruct Ef as [n ->]. cbn [seek_leaf].
  destruct (GetPage_ok p (RootPageID p) Hok Hroot) as (p1 & ptr & Eg & A1 & A2 & A3 & A4 & _). go_step Eg.
  assert (Hn1 : NumPages p1 = NumPages p) by (unfold NumPages; by rewrite (pf_metadata _ _ A4)).
  assert (Hv1 : ∀ i, in_range p i → view p1 i = view p i) by by apply view_same.
  destruct Ht as [Hr Hl|seps right (pg & HV & Hp & Hright & Hfree & Hlen) Hnd Hr Hk].
  - assert (Hs : ∃ pg, view p (RootPageID p) = Some pg ∧ scan_from p m key pg).
    { apply (kids_scan p m key [] None (RootPageID p)); [by constructor|constructor|constructor|done|done]. }
    destruct Hs as (pg & HV & Hs). rewrite <-Hv1 in HV by done. destruct (deref_view _ _ _ _ _ A1 A2 HV) as [b Hd].
    pose proof (scan_from_ext p p1 m key pg b Hs Hn1 Hv1) as Hs1. rewrite <-Hd in Hs1.
    rewrite bind_read, (scan_from_leaf _ _ _ _ Hs1). by exists p1, ptr.
  - apply Forall_cons in Hr as [_ Hrk]. pose proof (ip_rep _ _ Hp) as (_ & Hsort & _).
    assert (Hright0 : right ≠ 0) by (apply Forall_cons in Hrk as [[? ?] _]; lia).
    pose proof HV as HV1. rewrite <-Hv1 in HV1 by done.
    destruct (deref_view _ _ _ _ _ A1 A2 HV1) as [bd Hd]. pose proof (SetDirty_inner bd pg seps Hp) as Hpb.
    rewrite bind_read, Hd, (ip_inner _ _ Hpb). set (t := route right seps key).
    rewrite (bind_read_lift ptr (λ pg, GetChildPageID pg key) _ p1 t).
    2:{ rewrite Hd, (GetChild_ok _ seps key Hpb) by (rewrite <-Hright in Hright0; exact Hright0). unfold t. by rewrite <-Hright. }
    destruct (kids_scan p m key seps None right Hrk Hsort) as (pg2 & HV2 & Hs); [by apply Forall_true|done|done|]. fold t in HV2.
    assert (Htr : in_range p t) by (rewrite Forall_forall in Hrk; apply Hrk, route_in).
    assert (Htr1 : in_range p1 t) by (unfold in_range in *; by rewrite Hn1).
    destruct (GetPage_ok p1 t A1 Htr1) as (p2 & q & Eg2 & B1 & B2 & B3 & B4 & _). go_step Eg2.
    assert (Hv2 : ∀ i, in_range p i → view p2 i = view p i).
    { intros i Hi. rewrite <-Hv1 by done. apply view_same; [done|]. unfold in_range in *. by rewrite Hn1. }
    assert (Hn2 : NumPages p2 = NumPages p) by (rewrite <-Hn1; unfold NumPages; by rewrite (pf_metadata _ _ B4)).
    rewrite <-Hv2 in HV2 by done. destruct (deref_view _ _ _ _ _ B1 B2 HV2) as [b2 Hd2].
    pose proof (scan_from_ext p p2 m key pg2 b2 Hs Hn2 Hv2) as Hs2. rewrite <-Hd2 in Hs2.
    rewrite bind_read, (scan_from_leaf _ _ _ _ Hs2). by exists p2, q.
Qed.

Lemma search_split pg cells key :
  page_rep pg cells →
  ∃ a b i, cells = a ++ b ∧ Forall (λ c, bytes_lt (c_Key c) key) a ∧ Forall (λ c, bytes_le key (c_Key c)) b ∧
    searchCell pg key = Ok i ∧ u16 (if i <? 0 then - i - 1 else i) = len a.
Proof.
  intros Hp. pose proof Hp as (_ & Hs & _). destruct (rep_num _ _ Hp) as [_ Hn].
  assert (Hu : ∀ a b, cells = a ++ b → u16 (len a) = len a).
  { intros a b ->. rewrite len_app in Hn. pose proof (len_nonneg a). pose proof (len_nonneg b). apply u16_small. lia. }
  destruct (rep_search pg cells key Hp) as [(a & c & b & -> & <- & E)|(a & b & -> & Ha & Hb & E)]; pose proof (len_nonneg a).
  - destruct (sorted_remove a c b Hs) as (_ & Ha & Hb). exists a, (c :: b), (- (len a + 1)). split; [done|]. split; [done|]. split.
    { constructor; [apply bytes_le_refl|]. eapply Forall_impl; [exact Hb|]. intros y Hy. by apply bytes_lt_le. }
    split; [done|]. destruct (Z.ltb_spec (- (len a + 1)) 0); [|lia]. transitivity (u16 (len a)); [f_equal; lia|by apply (Hu a (c :: b))].
  - exists a, b, (len a). split; [done|]. split; [done|]. split.
    { eapply Forall_impl; [exact Hb|]. intros y Hy. by apply bytes_lt_le. }
    split; [done|]. destruct (Z.ltb_spec (len a) 0); [lia|]. by eapply Hu.
Qed.

Lemma seek_ok b m key endKey :
  tree_of true b m → key ≠ [] →
  ∃ it cells lo, seek key (NewIterator key endKey b) = (it, Ok tt) ∧ it_endKey it = endKey ∧
    key_from lo key ∧ lists m lo cells ∧
    ∃ todo, before it todo ∧ ∃ a, cells = a ++ todo ∧ Forall (λ c, bytes_lt (c_Key c) key) a ∧
      Forall (λ c, bytes_le key (c_Key c)) todo.
Proof.
  intros [H1 H2 H3 H4 H5] Hkey. unfold seek. destruct (Z.eqb_spec (len key) 0) as [E|_].
  { destruct key; [done|]. rewrite len_cons in E. pose proof (len_nonneg key). lia. }
  rewrite !of_pager_gets. change (it_pager (NewIterator key endKey b)) with (b_pager b).
  destruct (seek_leaf_ok (b_pager b) m key H2 H5) as (p' & ptr & Es & A1 & (cells & rest & lo & B1 & B2 & B3 & B4 & B5)).
  assert (Et : try_ (of_pager (seek_leaf (depth_fuel (b_pager b)) (RootPageID (b_pager b)) key)) (NewIterator key endKey b)
      = (with_pager p' (NewIterator key endKey b), Ok (Ok ptr))).
  { unfold try_, of_pager, pager, zoom. change (b_pager (it_btree (NewIterator key endKey b))) with (b_pager b). by rewrite Es. }
  go_step Et. destruct (search_split _ cells key (lp_rep _ _ B1)) as (a & b' & i & -> & Ha & Hb & Ei & Ep).
  set (it1 := with_pager p' (NewIterator key endKey b)).
  assert (Er : (of_pager (read_page ptr (λ pg, searchCell pg key)) ≫= lift) it1 = (it1, Ok i)).
  { rewrite of_pager_read. change (it_pager it1) with p'. rewrite Ei. done. }
  go_step Er. rewrite Ep, modify_bind. eexists _, _, lo. split; [reflexivity|]. split; [done|]. split; [done|]. split; [done|].
  exists (b' ++ concat rest). split.
  - exists ptr, (a ++ b'), rest, (length a). split; [by split|]. split; [done|]. split.
    { cbn. rewrite len_app. pose proof (len_nonneg a). pose proof (len_nonneg b'). lia. }
    by rewrite drop_app_length.
  - exists a. rewrite app_assoc. split; [done|]. split; [done|]. by apply Forall_app.
Qed.

(** ** The entries of a scan *)

(** The entries of [m] from [start] on and below the end, in order. *)
Definition scan_result (m : gmap bytes bytes) (start : bytes) (endKey : option bytes) (es : list (bytes * bytes)) : Prop :=
  StronglySorted (λ x y, bytes_lt x.1 y.1) es ∧
  ∀ k v, (k, v) ∈ es ↔ m !! k = Some v ∧ bytes_le start k ∧ within endKey k = true.

Lemma leaf_map_elem cells k v :
  StronglySorted (key_lt c_Key) cells → leaf_map cells !! k = Some v ↔ ∃ c, c ∈ cells ∧ c_Key c = k ∧ c_Value c = v.
Proof.
  intros Hs. unfold leaf_map. rewrite lookup_fmap, fmap_Some. split.
  - intros (c & Hc & ->). apply entries_map_elem in Hc as [? ?]. by exists c.
  - intros (c & Hc & <- & <-). exists c. split; [|done]. apply list_elem_of_split in Hc as (a & b & ->). by apply entries_map_at.
Qed.

Lemma take_within_elem endKey cells k v :
  StronglySorted (key_lt c_Key) cells →
  (k, v) ∈ take_within endKey cells ↔ (∃ c, c ∈ cells ∧ c_Key c = k ∧ c_Value c = v) ∧ within endKey k = true.
Proof.
  induction 1 as [|x cells Hs IH Hx]; cbn [take_within].
  - split; [by intros ?%elem_of_nil|]. intros [(c & Hc & _) _]. by apply elem_of_nil in Hc.
  - destruct (within endKey (c_Key x)) eqn:Ew.
    + rewrite elem_of_cons, IH. split.
      * intros [[= -> ->]|[(c & Hc & Ek & Ev) Hw]]; [split; [exists x; split; [by left|done]|done]|].
        split; [|done]. exists c. split; [by right|done].
      * intros [(c & Hc & <- & <-) Hw]. apply elem_of_cons in Hc as [->|Hc]; [by left|]. right. split; [|done]. by exists c.
    + split; [by intros ?%elem_of_nil|]. intros [(c & Hc & <- & <-) Hw]. exfalso.
      apply elem_of_cons in Hc as [->|Hc]; [congruence|]. rewrite Forall_forall in Hx. specialize (Hx c Hc).
      destruct endKey as [e|]; [|done]. simpl in *. apply bytes_ltb_lt in Hw. unfold key_lt in Hx.
      assert (bytes_lt (c_Key x) e) as E%bytes_ltb_lt by (by etrans). congruence.
Qed.

Lemma take_within_sorted endKey cells :
  StronglySorted (key_lt c_Key) cells → StronglySorted (λ x y : bytes * bytes, bytes_lt x.1 y.1) (take_within endKey cells).
Proof.
  induction 1 as [|x cells Hs IH Hx]; cbn [take_within]; [constructor|]. destruct (within endKey (c_Key x)); [|constructor].
  constructor; [done|]. apply Forall_forall. intros [k v] Hin. apply take_within_elem in Hin as [(c & Hc & <- & <-) _]; [|done].
  rewrite Forall_forall in Hx. by apply Hx.
Qed.

Lemma scan_result_size m start endKey es : scan_result m start endKey es → (length es ≤ size m)%nat.
Proof.
  intros [Hs He]. assert (Hnd : NoDup es.*1).
  { clear He. induction Hs as [|x es Hs IH Hx]; [constructor|]. rewrite fmap_cons. constructor; [|done].
    intros (y & Ey & Hy)%list_elem_of_fmap. rewrite Forall_forall in Hx. specialize (Hx y Hy). rewrite Ey in Hx. by apply bytes_lt_irrefl in Hx. }
  rewrite <-(length_fmap fst), <-(size_list_to_set (C := gset bytes)), <-size_dom by done.
  apply subseteq_size. intros k Hk. apply elem_of_list_to_set, list_elem_of_fmap in Hk as ([k' v] & -> & Hin).
  apply He in Hin as [Hin _]. by apply elem_of_dom_2 in Hin.
Qed.

Lemma lists_scan m lo start endKey a todo :
  lists m lo (a ++ todo) → key_from lo start → Forall (λ c, bytes_lt (c_Key c) start) a →
  Forall (λ c, bytes_le start (c_Key c)) todo → scan_result m start endKey (take_within endKey todo).
Proof.
  intros [Hs Hf Hm] Hlo Ha Ht. pose proof (sorted_app_inv _ _ _ Hs) as (_ & Hst & _). split; [by apply take_within_sorted|].
  intros k v. rewrite take_within_elem by done. split.
  - intros [(c & Hc & <- & <-) Hw]. rewrite Forall_forall in Ht. split; [|by split; [apply Ht|]].
    rewrite <-Hm by (by eapply key_from_le; [apply Ht|]). apply leaf_map_elem; [done|]. exists c. split; [|done].
    apply elem_of_app. by right.
  - intros (Hk & Hle & Hw). split; [|done]. rewrite <-Hm in Hk by by eapply key_from_le.
    apply leaf_map_elem in Hk as (c & Hc & Ek & Ev); [|done]. exists c. split; [|done]. apply elem_of_app in Hc as [Hc|Hc]; [|done].
    rewrite Forall_forall in Ha. specialize (Ha c Hc). rewrite Ek in Ha. by apply bytes_nlt_le in Hle.
Qed.

(** The entries a client reads from a scan, and the error it finds at the end. *)
Definition scan_all (fuel : nat) (start : bytes) (endKey : option bytes) (b : BTree) : res (list (bytes * bytes) * option error) :=
  match BTree_Scan start endKey b with
  | (_, Ok it) =>
      match drain fuel it with
      | (it, Ok es) => Ok (es, Iterator_Error it)
      | (_, Err e) => Err e
      | (_, Panic) => Panic
      end
  | (_, Err e) => Err e
  | (_, Panic) => Panic
  end.

Lemma scan_all_ok b m start endKey :
  tree_of true b m → start ≠ [] →
  ∃ es, scan_all (S (size m)) start endKey b = Ok (es, None) ∧ scan_result m start endKey es.
Proof.
  intros Hb Hstart. destruct (seek_ok b m start endKey Hb Hstart) as (it & cells & lo & Es & He & Hlo & Hl & todo & Hbf & a & -> & Ha & Ht).
  pose proof (lists_scan m lo start endKey a todo Hl Hlo Ha Ht) as Hres. exists (take_within endKey todo). split; [|done].
  unfold scan_all, BTree_Scan. rewrite Es. rewrite <-He in Hres.
  destruct (drain_ok (S (size m)) it todo Hbf) as (it' & Ed & Hend & _).
  { pose proof (scan_result_size _ _ _ _ Hres). lia. }
  rewrite Ed, He. unfold Iterator_Error. by rewrite Hend.
Qed.

End scan.


Definition scan_calls : list call := demo_fill ++ [CDelete [12; 0]; CGet [3; 0]; CSync].

