(* ===== verification/BtLatch.v ===== *)
(** Page latches ([src/btree/latch.go]): the latch manager, latch coupling, and the
    concurrent variants of [Get] and [Put].  Alone they behave as [Get] and [Put]; any number
    of them together keep the latches exclusive and never block each other for ever. *)
From stdpp Require Import base gmap list strings numbers sorting.
From S2P Require Import Prelude GoLib GoState Common BtVarint BtPage BtNode BtWal BtPager BtSplit BtMerge BtTree.

Open Scope Z_scope.

(** ** sync.RWMutex *)

(** A writer first announces itself, which keeps new readers out, and enters when the
    readers have left.  Other writers wait for it to leave. *)
Inductive writer := WNone | WPending | WActive.

#[global] Instance writer_eq_dec : EqDecision writer.
Proof. solve_decision. Defined.

Record RWMutex := MkRW {
  rw_readers : nat;
  rw_writer : writer;
}.

Definition rw_new : RWMutex := MkRW 0 WNone.

(** [None] when the call blocks, [Panic] for the fatal errors of an unlocked mutex. *)
Definition rw_RLock (m : RWMutex) : option RWMutex :=
  match rw_writer m with WNone => Some (MkRW (S (rw_readers m)) WNone) | _ => None end.
Definition rw_announce (m : RWMutex) : option RWMutex :=
  match rw_writer m with WNone => Some (MkRW (rw_readers m) WPending) | _ => None end.
Definition rw_enter (m : RWMutex) : option RWMutex :=
  match rw_writer m, rw_readers m with WPending, O => Some (MkRW 0 WActive) | _, _ => None end.
Definition rw_Lock (m : RWMutex) : option RWMutex := rw_announce m ≫= rw_enter.
Definition rw_RUnlock (m : RWMutex) : res RWMutex :=
  match rw_readers m with S n => Ok (MkRW n (rw_writer m)) | O => Panic end.
Definition rw_Unlock (m : RWMutex) : res RWMutex :=
  match rw_writer m with WActive => Ok (MkRW (rw_readers m) WNone) | _ => Panic end.
Definition rw_TryRLock (m : RWMutex) : RWMutex * bool :=
  match rw_RLock m with Some m => (m, true) | None => (m, false) end.
Definition rw_TryLock (m : RWMutex) : RWMutex * bool :=
  match rw_Lock m with Some m => (m, true) | None => (m, false) end.

(** ** Latches *)

Inductive LatchMode := LatchRead | LatchWrite.

#[global] Instance LatchMode_eq_dec : EqDecision LatchMode.
Proof. solve_decision. Defined.

Record PageLatch := MkLatch { pl_mu : RWMutex }.

Definition PageLatch_Lock (mode : LatchMode) (l : PageLatch) : option PageLatch :=
  match mode with
  | LatchRead => MkLatch <$> rw_RLock (pl_mu l)
  | LatchWrite => MkLatch <$> rw_Lock (pl_mu l)
  end.

Definition PageLatch_Unlock (mode : LatchMode) (l : PageLatch) : res PageLatch :=
  match mode with
  | LatchRead => m ← rw_RUnlock (pl_mu l); Ok (MkLatch m)
  | LatchWrite => m ← rw_Unlock (pl_mu l); Ok (MkLatch m)
  end.

Definition TryLock (mode : LatchMode) (l : PageLatch) : PageLatch * bool :=
  match mode with
  | LatchRead => let '(m, ok) := rw_TryRLock (pl_mu l) in (MkLatch m, ok)
  | LatchWrite => let '(m, ok) := rw_TryLock (pl_mu l) in (MkLatch m, ok)
  end.

(** The map of the manager; a latch is changed in place. *)
Record LatchManager := MkManager { lm_latches : gmap Z PageLatch }.
Definition NewLatchManager : LatchManager := MkManager ∅.

Definition set_latch (pageID : Z) (latch : PageLatch) (lm : LatchManager) : LatchManager :=
  MkManager (<[pageID := latch]> (lm_latches lm)).

Definition GetLatch (pageID : Z) (lm : LatchManager) : LatchManager * PageLatch :=
  match lm_latches lm !! pageID with
  | Some latch => (lm, latch)
  | None => (set_latch pageID (MkLatch rw_new) lm, MkLatch rw_new)
  end.

(** [heldLatches] and [heldModes], which grow and shrink together, are one list. *)
Record LatchCoupling := MkCoupling { lc_held : list (Z * LatchMode) }.
Definition NewLatchCoupling : LatchCoupling := MkCoupling [].

Definition lock_page (pageID : Z) (lock : PageLatch → option PageLatch) (lm : LatchManager) : option LatchManager :=
  let '(lm, latch) := GetLatch pageID lm in
  latch ← lock latch; Some (set_latch pageID latch lm).

Definition track (pageID : Z) (mode : LatchMode) (lc : LatchCoupling) : LatchCoupling :=
  MkCoupling (lc_held lc ++ [(pageID, mode)]).

Definition AcquireLatch (pageID : Z) (mode : LatchMode) (lm : LatchManager) (lc : LatchCoupling) : option (LatchManager * LatchCoupling) :=
  lm ← lock_page pageID (PageLatch_Lock mode) lm; Some (lm, track pageID mode lc).

Definition unlock_page (lm : LatchManager) (held : Z * LatchMode) : res LatchManager :=
  let '(pageID, mode) := held in
  let '(lm, latch) := GetLatch pageID lm in
  latch ← PageLatch_Unlock mode latch; Ok (set_latch pageID latch lm).

Fixpoint unlock_all (held : list (Z * LatchMode)) (lm : LatchManager) : res LatchManager :=
  match held with
  | [] => Ok lm
  | h :: held => lm ← unlock_page lm h; unlock_all held lm
  end.

Definition ReleaseParent (lm : LatchManager) (lc : LatchCoupling) : res (LatchManager * LatchCoupling) :=
  if (length (lc_held lc) <? 2)%nat then Ok (lm, lc)
  else
    lm ← unlock_all (removelast (lc_held lc)) lm;
    Ok (lm, MkCoupling (drop (length (lc_held lc) - 1) (lc_held lc))).

(** The last latch is released first. *)
Definition ReleaseAll (lm : LatchManager) (lc : LatchCoupling) : res (LatchManager * LatchCoupling) :=
  lm ← unlock_all (reverse (lc_held lc)) lm; Ok (lm, MkCoupling []).

(** ** The concurrent calls *)

(** The tree and its latch manager. *)
Record Shared := MkShared {
  sh_tree : BTree;
  sh_latches : LatchManager;
}.

Definition set_tree (b : BTree) (s : Shared) : Shared := MkShared b (sh_latches s).
Definition on_tree {A} (m : M BTree A) : M Shared A := zoom sh_tree set_tree m.

(** A call that blocks while no other goroutine runs is a fatal error of the runtime. *)
Definition acquire (pageID : Z) (mode : LatchMode) (lc : LatchCoupling) : M Shared LatchCoupling := λ s,
  match AcquireLatch pageID mode (sh_latches s) lc with
  | Some (lm, lc) => (MkShared (sh_tree s) lm, Ok lc)
  | None => (s, Panic)
  end.

Definition release (f : LatchManager → LatchCoupling → res (LatchManager * LatchCoupling)) (lc : LatchCoupling) : M Shared LatchCoupling := λ s,
  match f (sh_latches s) lc with
  | Ok (lm, lc) => (MkShared (sh_tree s) lm, Ok lc)
  | Err e => (s, Err e)
  | Panic => (s, Panic)
  end.

(** The loop of [ConcurrentGet]: the latches it holds when it returns, and its result. *)
Fixpoint get_loop (fuel : nat) (pageID : Z) (key : bytes) (lc : LatchCoupling) : M Shared (LatchCoupling * res bytes) :=
  match fuel with
  | O => lift Panic
  | S fuel =>
      lc ← acquire pageID LatchRead lc;
      r ← try_ (on_tree (pager (GetPage pageID)));
      match r with
      | Err e => mret (lc, Err e)
      | Panic => lift Panic
      | Ok page =>
          leaf ← on_tree (pager (read_page page IsLeaf));
          if leaf : bool then
            value ← try_ (on_tree (pager (r ← read_page page (λ pg, searchLeaf pg key); lift r)));
            lc ← release ReleaseAll lc;
            mret (lc, value)
          else
            childPageID ← on_tree (pager (r ← read_page page (λ pg, findChild pg key); lift r));
            lc ← release ReleaseParent lc;
            get_loop fuel childPageID key lc
      end
  end.

(** The deferred [ReleaseAll] runs after the result is known. *)
Definition ConcurrentGet (key : bytes) : M Shared bytes :=
  if len key =? 0 then throw ErrKeyEmpty
  else
    closed ← on_tree (gets b_closed);
    if closed : bool then throw ErrClosed
    else
      _ ← on_tree (modify count_user_read);
      pageID ← on_tree (pager (gets RootPageID));
      fuel ← on_tree (pager (gets depth_fuel));
      '(lc, r) ← get_loop fuel pageID key NewLatchCoupling;
      _ ← release ReleaseAll lc;
      lift r.

Definition ConcurrentPut (key value : bytes) : M Shared () :=
  if len key =? 0 then throw ErrKeyEmpty
  else
    closed ← on_tree (gets b_closed);
    if closed : bool then throw ErrClosed
    else
      _ ← on_tree (modify (count_user_write (len key + len value)));
      rootPageID ← on_tree (pager (gets RootPageID));
      lc ← acquire rootPageID LatchWrite NewLatchCoupling;
      r ← try_ (
        fuel ← on_tree (pager (gets depth_fuel));
        split ← on_tree (pager (insertAndSplit fuel rootPageID key value));
        _ ← match split with
            | Some (splitKey, newPageID) => on_tree (pager (handleRootSplit rootPageID splitKey newPageID))
            | None => mret tt
            end;
        on_tree (modify (add_keys 1)));
      _ ← release ReleaseAll lc;
      lift r.

(** ** Latches page by page *)

Definition rw (lm : LatchManager) (id : Z) : RWMutex := default rw_new (pl_mu <$> lm_latches lm !! id).

Lemma GetLatch_rw id lm : (GetLatch id lm).2 = MkLatch (rw lm id) ∧ ∀ j, rw (GetLatch id lm).1 j = rw lm j.
Proof.
  unfold GetLatch, rw. destruct (lm_latches lm !! id) as [[m]|] eqn:E; [by split|]. split; [done|]. intros j. cbn [fst set_latch lm_latches].
  destruct (decide (j = id)) as [->|Hne]; [by rewrite lookup_insert_eq, E|by rewrite lookup_insert_ne].
Qed.

Lemma rw_insert id l lm j : rw (set_latch id l lm) j = if decide (j = id) then pl_mu l else rw lm j.
Proof. unfold rw. cbn [set_latch lm_latches]. case_decide as E; [subst; by rewrite lookup_insert_eq|by rewrite lookup_insert_ne]. Qed.

Lemma lock_page_ok id lock lm :
  match lock (MkLatch (rw lm id)) with
  | Some l => ∃ lm', lock_page id lock lm = Some lm' ∧ ∀ j, rw lm' j = if decide (j = id) then pl_mu l else rw lm j
  | None => lock_page id lock lm = None
  end.
Proof.
  destruct (GetLatch_rw id lm) as [E H]. unfold lock_page. destruct (GetLatch id lm) as [lm1 l1]. cbn [fst snd] in *. subst l1.
  destruct (lock (MkLatch (rw lm id))) as [l|]; [|done]. eexists. split; [done|]. intros j. rewrite rw_insert. case_decide; [done|apply H].
Qed.

Lemma unlock_page_ok id mode lm :
  match PageLatch_Unlock mode (MkLatch (rw lm id)) with
  | Ok l => ∃ lm', unlock_page lm (id, mode) = Ok lm' ∧ ∀ j, rw lm' j = if decide (j = id) then pl_mu l else rw lm j
  | _ => unlock_page lm (id, mode) = Panic
  end.
Proof.
  destruct (GetLatch_rw id lm) as [E H]. unfold unlock_page. destruct (GetLatch id lm) as [lm1 l1]. cbn [fst snd] in *. subst l1.
  destruct mode; cbn [PageLatch_Unlock pl_mu]; unfold rw_RUnlock, rw_Unlock;
    [destruct (rw_readers (rw lm id)) eqn:En|destruct (rw_writer (rw lm id)) eqn:En]; cbn;
    (done || (eexists; split; [done|]; intros j; rewrite rw_insert; case_decide; [done|apply H])).
Qed.

(** How often a page is held. *)
Definition count_page (id : Z) (held : list (Z * LatchMode)) : nat := length (filter (λ h, h.1 = id) held).

Lemma count_page_cons id h held : count_page id (h :: held) = ((if decide (h.1 = id) then 1 else 0) + count_page id held)%nat.
Proof. unfold count_page. rewrite filter_cons. by case_decide. Qed.

Lemma count_page_app id a b : count_page id (a ++ b) = (count_page id a + count_page id b)%nat.
Proof. unfold count_page. by rewrite filter_app, length_app. Qed.

Lemma count_page_reverse id held : count_page id (reverse held) = count_page id held.
Proof. unfold count_page. by rewrite (reverse_Permutation held). Qed.

Definition all_reads (held : list (Z * LatchMode)) : Prop := Forall (λ h, h.2 = LatchRead) held.

(** Releasing read latches that are held. *)
Lemma unlock_reads held lm :
  all_reads held → (∀ id, count_page id held ≤ rw_readers (rw lm id))%nat →
  ∃ lm', unlock_all held lm = Ok lm' ∧
    ∀ id, rw lm' id = MkRW (rw_readers (rw lm id) - count_page id held) (rw_writer (rw lm id)).
Proof.
  revert lm. induction held as [|[id mode] held IH]; intros lm Hr Hc.
  { exists lm. split; [done|]. intros id. rewrite Nat.sub_0_r. by destruct (rw lm id). }
  apply Forall_cons in Hr as [Hm Hr]. simpl in Hm. subst mode. cbn [unlock_all].
  pose proof (unlock_page_ok id LatchRead lm) as Hu. pose proof (Hc id) as Hid. rewrite count_page_cons in Hid. cbn [fst] in Hid.
  rewrite decide_True in Hid by done. cbn [PageLatch_Unlock pl_mu] in Hu. unfold rw_RUnlock in Hu.
  destruct (rw_readers (rw lm id)) as [|n] eqn:En; [lia|]. destruct Hu as (lm1 & -> & H1). cbn [mbind res_bind].
  destruct (IH lm1 Hr) as (lm' & E & H2).
  { intros j. specialize (Hc j). rewrite count_page_cons in Hc. cbn [fst] in Hc. rewrite H1.
    destruct (decide (j = id)) as [->|Hne]; [rewrite decide_True in Hc by done; cbn; lia|rewrite decide_False in Hc by congruence; lia]. }
  exists lm'. split; [done|]. intros j. rewrite H2, H1, count_page_cons. cbn [fst].
  destruct (decide (j = id)) as [->|Hne]; [rewrite decide_True by done; cbn; f_equal; lia|rewrite decide_False by congruence; done].
Qed.

(** ** Alone *)

(** The only goroutine holds read latches, and nothing else is locked. *)
Definition holds (lm : LatchManager) (held : list (Z * LatchMode)) : Prop :=
  all_reads held ∧ ∀ id, rw lm id = MkRW (count_page id held) WNone.

Definition idle (lm : LatchManager) : Prop := ∀ id, rw lm id = rw_new.

Lemma acquire_read s id lc :
  holds (sh_latches s) (lc_held lc) →
  ∃ lm, acquire id LatchRead lc s = (MkShared (sh_tree s) lm, Ok (track id LatchRead lc)) ∧ holds lm (lc_held lc ++ [(id, LatchRead)]).
Proof.
  intros [Ha Hh]. pose proof (lock_page_ok id (PageLatch_Lock LatchRead) (sh_latches s)) as Hl.
  cbn [PageLatch_Lock pl_mu] in Hl. rewrite Hh in Hl. cbn in Hl. destruct Hl as (lm & El & Hj).
  exists lm. unfold acquire, AcquireLatch. rewrite El. split; [done|]. split; [by apply Forall_app; split; [|constructor]|].
  intros j. rewrite Hj, count_page_app, count_page_cons. cbn [fst]. case_decide as E.
  - subst. rewrite decide_True by done. cbn. f_equal. unfold count_page. simpl. lia.
  - rewrite decide_False by congruence. rewrite Hh. f_equal. unfold count_page. simpl. lia.
Qed.

Lemma release_all_reads s lc :
  holds (sh_latches s) (lc_held lc) →
  ∃ lm, release ReleaseAll lc s = (MkShared (sh_tree s) lm, Ok (MkCoupling [])) ∧ holds lm [] .
Proof.
  intros [Ha Hh]. destruct (unlock_reads (reverse (lc_held lc)) (sh_latches s)) as (lm & E & H).
  - by apply Forall_reverse.
  - intros id. rewrite Hh, count_page_reverse. done.
  - exists lm. unfold release, ReleaseAll. rewrite E. split; [done|]. split; [constructor|].
    intros id. rewrite H, Hh, count_page_reverse. cbn. f_equal. lia.
Qed.

Lemma removelast_last' {A} (l : list A) x : removelast (l ++ [x]) = l.
Proof. induction l as [|y l IH]; [done|]. cbn [app removelast]. destruct (l ++ [x]) eqn:E; [by destruct l|]. by rewrite IH. Qed.

Lemma release_parent_reads s h x :
  holds (sh_latches s) (h ++ [x]) →
  ∃ lm, release ReleaseParent (MkCoupling (h ++ [x])) s = (MkShared (sh_tree s) lm, Ok (MkCoupling [x])) ∧ holds lm [x].
Proof.
  intros [Ha Hh]. unfold release, ReleaseParent. cbn [lc_held]. rewrite length_app, removelast_last'. cbn [length].
  replace (length h + 1 - 1)%nat with (length h) by lia. rewrite drop_app_length. destruct (Nat.ltb_spec (length h + 1) 2) as [Hl|Hl].
  { destruct h; [|simpl in Hl; lia]. exists (sh_latches s). split; [by destruct s|]. by split. }
  apply Forall_app in Ha as [Ha Hx]. destruct (unlock_reads h (sh_latches s) Ha) as (lm & E & H).
  - intros id. rewrite Hh, count_page_app. cbn. lia.
  - exists lm. rewrite E. split; [done|]. split; [done|]. intros id. rewrite H, Hh, count_page_app. cbn. f_equal. lia.
Qed.

Lemma on_pager_eq {A B} (m : M Pager A) (k : A → M Shared B) b lm p' a :
  m (b_pager b) = (p', Ok a) → (on_tree (pager m) ≫= k) (MkShared b lm) = k a (MkShared (set_pager p' b) lm).
Proof. intros E. unfold on_tree, pager, zoom, mbind, M_bind. cbn. by rewrite E. Qed.

Lemma on_pager_run {A} (m : M Pager A) b lm :
  on_tree (pager m) (MkShared b lm) = (MkShared (set_pager (m (b_pager b)).1 b) lm, (m (b_pager b)).2).
Proof. unfold on_tree, pager, zoom. cbn. by destruct (m (b_pager b)). Qed.

Lemma set_pager_same b : set_pager (b_pager b) b = b.
Proof. by destruct b. Qed.

Lemma on_pager_gets {A B} (f : Pager → A) (k : A → M Shared B) b lm :
  (on_tree (pager (gets f)) ≫= k) (MkShared b lm) = k (f (b_pager b)) (MkShared b lm).
Proof. rewrite (on_pager_eq (gets f) k b lm (b_pager b) (f (b_pager b)) eq_refl). by rewrite set_pager_same. Qed.

Lemma gets_lift {S A} (f : S → res A) s : (r ← gets f; lift r) s = (s, f s).
Proof. done. Qed.

(** What [Get] does with the pages. *)
Definition find_value (fuel : nat) (pageID : Z) (key : bytes) : M Pager bytes :=
  page ← find_leaf fuel pageID key;
  r ← read_page page (λ pg, searchLeaf pg key);
  lift r.

Lemma find_value_S fuel id key p :
  find_value (S fuel) id key p =
    match GetPage id p with
    | (p, Ok page) =>
        if IsLeaf (deref p page) then (p, searchLeaf (deref p page) key)
        else
          match findChild (deref p page) key with
          | Ok child => find_value fuel child key p
          | Err e => (p, Err e)
          | Panic => (p, Panic)
          end
    | (p, Err e) => (p, Err e)
    | (p, Panic) => (p, Panic)
    end.
Proof.
  unfold find_value. cbn [find_leaf]. unfold read_page, gets, lift, mbind, M_bind.
  destruct (GetPage id p) as [p1 [page|e|]]; [|done|done]. destruct (IsLeaf (deref p1 page)); [done|].
  by destruct (findChild (deref p1 page) key).
Qed.

Lemma findChild_no_err pg key e : findChild pg key ≠ Err e.
Proof.
  unfold findChild. assert (H : ∀ n i e, find_loop n pg (NumCells pg) i key ≠ Err e).
  { induction n as [|n IH]; intros i e'; [done|]. cbn [find_loop]. destruct (CellAt pg i); [|done|done].
    case_match; [|done]. unfold next_covers. case_match; [|done]. destruct (CellAt pg _); [|done|done].
    cbn [mbind res_bind]. by case_match. }
  specialize (H (Z.to_nat (NumCells pg)) 0). destruct (find_loop _ _ _ _ _); [done| |done]. intros _. by destruct (H e0).
Qed.

Lemma get_loop_alone fuel : ∀ id key lc b lm,
  holds lm (lc_held lc) →
  match find_value fuel id key (b_pager b) with
  | (_, Panic) => (get_loop fuel id key lc (MkShared b lm)).2 = Panic
  | (p', r) => ∃ lm' lc', get_loop fuel id key lc (MkShared b lm) = (MkShared (set_pager p' b) lm', Ok (lc', r)) ∧ holds lm' (lc_held lc')
  end.
Proof.
  induction fuel as [|fuel IH]; intros id key lc b lm Hh; [done|]. rewrite find_value_S. cbn [get_loop].
  destruct (acquire_read (MkShared b lm) id lc Hh) as (lm1 & Ea & H1). cbn [sh_tree] in Ea. go_step Ea.
  set (lc1 := track id LatchRead lc).
  assert (Et : (try_ (on_tree (pager (GetPage id)))) (MkShared b lm1) =
     match GetPage id (b_pager b) with
     | (p, Panic) => (MkShared (set_pager p b) lm1, Panic)
     | (p, r) => (MkShared (set_pager p b) lm1, Ok r)
     end).
  { unfold try_. rewrite on_pager_run. by destruct (GetPage id (b_pager b)) as [? []]. }
  destruct (GetPage id (b_pager b)) as [p [page|e|]].
  - go_step Et. unfold read_page. rewrite on_pager_gets. change (b_pager (set_pager p b)) with p.
    destruct (IsLeaf (deref p page)).
    + assert (Ev : try_ (on_tree (pager (r ← gets (λ p, searchLeaf (deref p page) key); lift r))) (MkShared (set_pager p b) lm1) =
        match searchLeaf (deref p page) key with
        | Panic => (MkShared (set_pager p b) lm1, Panic)
        | r => (MkShared (set_pager p b) lm1, Ok r)
        end).
      { unfold try_. rewrite on_pager_run, gets_lift. cbn [fst snd]. change (b_pager (set_pager p b)) with p.
        by destruct (searchLeaf (deref p page) key). }
      destruct (release_all_reads (MkShared (set_pager p b) lm1) lc1 H1) as (lm2 & Er & H2). cbn [sh_tree] in Er.
      destruct (searchLeaf (deref p page) key) as [v|e|]; [| |by rewrite (M_bind_Panic _ _ _ _ Ev)];
        (go_step Ev; go_step Er; exists lm2, (MkCoupling []); split; [reflexivity|exact H2]).
    + assert (Ec : on_tree (pager (r ← gets (λ p, findChild (deref p page) key); lift r)) (MkShared (set_pager p b) lm1) =
        (MkShared (set_pager p b) lm1, findChild (deref p page) key)).
      { rewrite on_pager_run. by rewrite gets_lift. }
      destruct (findChild (deref p page) key) as [child|e|] eqn:Ef.
      * go_step Ec. destruct (release_parent_reads (MkShared (set_pager p b) lm1) (lc_held lc) (id, LatchRead) H1) as (lm2 & Er & H2).
        go_step Er. cbn [sh_tree]. pose proof (IH child key (MkCoupling [(id, LatchRead)]) (set_pager p b) lm2 H2) as Hrec.
        change (b_pager (set_pager p b)) with p in Hrec. destruct (find_value fuel child key p) as [p2 [v|e|]]; exact Hrec.
      * by destruct (findChild_no_err _ _ _ Ef).
      * by rewrite (M_bind_Panic _ _ _ _ Ec).
  - go_step Et. by exists lm1, lc1.
  - by rewrite (M_bind_Panic _ _ _ _ Et).
Qed.

(** The same answer and tree, and all latches free again, unless the call crashes. *)
Definition same_call {A} (x : BTree * res A) (y : Shared * res A) : Prop :=
  match x with
  | (_, Panic) => y.2 = Panic
  | (b, r) => ∃ lm, y = (MkShared b lm, r) ∧ idle lm
  end.

Lemma BTree_Get_pages key b :
  len key ≠ 0 → b_closed b = false →
  BTree_Get key b = (set_pager (find_value (depth_fuel (b_pager b)) (RootPageID (b_pager b)) key (b_pager b)).1 (count_user_read b),
                     (find_value (depth_fuel (b_pager b)) (RootPageID (b_pager b)) key (b_pager b)).2).
Proof.
  intros Hk Hc. unfold BTree_Get. destruct (Z.eqb_spec (len key) 0); [done|]. rewrite gets_bind, Hc, modify_bind. unfold find_value, pager, zoom.
  unfold mbind, M_bind, leaf_for. rewrite gets_bind. cbn [b_pager count_user_read]. rewrite gets_bind.
  destruct (find_leaf _ _ key (b_pager b)) as [p [page|e|]]; [|done|done]. unfold read_page, gets, lift. done.
Qed.

Lemma idle_holds lm : idle lm → holds lm [].
Proof. intros H. split; [constructor|]. intros id. by rewrite H. Qed.

Lemma concurrent_get_alone key b lm : idle lm → same_call (BTree_Get key b) (ConcurrentGet key (MkShared b lm)).
Proof.
  intros Hidle. unfold ConcurrentGet. destruct (Z.eqb_spec (len key) 0) as [E|E].
  { unfold BTree_Get. rewrite E. cbn. by exists lm. }
  assert (Ec : on_tree (gets b_closed) (MkShared b lm) = (MkShared b lm, Ok (b_closed b))) by done. go_step Ec.
  destruct (b_closed b) eqn:Ecl.
  { unfold BTree_Get. destruct (Z.eqb_spec (len key) 0); [done|]. rewrite gets_bind, Ecl. by exists lm. }
  rewrite BTree_Get_pages by done.
  assert (Em : on_tree (modify count_user_read) (MkShared b lm) = (MkShared (count_user_read b) lm, Ok tt)) by done. go_step Em.
  rewrite !on_pager_gets. pose proof (get_loop_alone (depth_fuel (b_pager b)) (RootPageID (b_pager b)) key NewLatchCoupling
    (count_user_read b) lm (idle_holds _ Hidle)) as Hloop. change (b_pager (count_user_read b)) with (b_pager b) in *.
  destruct (find_value (depth_fuel (b_pager b)) (RootPageID (b_pager b)) key (b_pager b)) as [p r]. cbn [fst snd].
  set (loop := get_loop _ _ _ _) in *.
  assert (Hdone : ∀ r, (∃ lm' lc', loop (MkShared (count_user_read b) lm) = (MkShared (set_pager p (count_user_read b)) lm', Ok (lc', r)) ∧ holds lm' (lc_held lc')) →
    ∃ lm', (loop ≫= λ '(lc, r), _ ← release ReleaseAll lc; lift r) (MkShared (count_user_read b) lm) =
      (MkShared (set_pager p (count_user_read b)) lm', r) ∧ idle lm').
  { intros r' (lm1 & lc1 & El & H1). go_step El.
    destruct (release_all_reads (MkShared (set_pager p (count_user_read b)) lm1) lc1 H1) as (lm2 & Er & H2). go_step Er.
    exists lm2. split; [done|]. intros id. by rewrite (proj2 H2 id). }
  destruct r as [v|e|]; [by apply Hdone..|]. cbn [same_call]. destruct (loop _) as [s1 r1] eqn:El. cbn in Hloop. subst r1.
  by rewrite (M_bind_Panic _ _ _ _ El).
Qed.

Lemma acquire_write b lm id :
  idle lm → ∃ lm', acquire id LatchWrite NewLatchCoupling (MkShared b lm) = (MkShared b lm', Ok (MkCoupling [(id, LatchWrite)])) ∧
    ∀ b', ∃ lm2, release ReleaseAll (MkCoupling [(id, LatchWrite)]) (MkShared b' lm') = (MkShared b' lm2, Ok (MkCoupling [])) ∧ idle lm2.
Proof.
  intros Hidle. pose proof (lock_page_ok id (PageLatch_Lock LatchWrite) lm) as Hl. cbn [PageLatch_Lock pl_mu] in Hl.
  rewrite Hidle in Hl. cbn in Hl. destruct Hl as (lm1 & El & H1). exists lm1. unfold acquire, AcquireLatch. cbn [sh_latches sh_tree].
  rewrite El. split; [done|]. intros b'. pose proof (unlock_page_ok id LatchWrite lm1) as Hu. cbn [PageLatch_Unlock pl_mu] in Hu.
  rewrite H1, decide_True in Hu by done. cbn [rw_Unlock rw_writer rw_readers pl_mu mbind res_bind] in Hu. destruct Hu as (lm2 & Eu & H2). exists lm2. unfold release, ReleaseAll.
  cbn [sh_latches sh_tree lc_held reverse]. change (reverse [(id, LatchWrite)]) with [(id, LatchWrite)]. cbn [unlock_all].
  rewrite Eu. split; [done|]. intros j. rewrite H2, H1. case_decide; [done|apply Hidle].
Qed.

Lemma put_pages_run key value p :
  put_pages key value p =
    match insertAndSplit (depth_fuel p) (RootPageID p) key value p with
    | (p', Ok (Some (sep, new))) => handleRootSplit (RootPageID p) sep new p'
    | (p', Ok None) => (p', Ok tt)
    | (p', Err e) => (p', Err e)
    | (p', Panic) => (p', Panic)
    end.
Proof.
  unfold put_pages. rewrite !gets_bind. unfold mbind, M_bind.
  by destruct (insertAndSplit _ _ key value p) as [p' [[[sep new]|]|e|]].
Qed.

Lemma concurrent_put_alone key value b lm :
  idle lm → same_call (BTree_Put key value b) (ConcurrentPut key value (MkShared b lm)).
Proof.
  intros Hidle. unfold ConcurrentPut, BTree_Put. destruct (Z.eqb_spec (len key) 0) as [E|E]; [by exists lm|].
  assert (Ec : on_tree (gets b_closed) (MkShared b lm) = (MkShared b lm, Ok (b_closed b))) by done. go_step Ec. rewrite gets_bind.
  destruct (b_closed b) eqn:Ecl; [by exists lm|]. rewrite modify_bind.
  set (b1 := count_user_write (len key + len value) b).
  assert (Em : on_tree (modify (count_user_write (len key + len value))) (MkShared b lm) = (MkShared b1 lm, Ok tt)) by done.
  go_step Em. rewrite on_pager_gets. destruct (acquire_write b1 lm (RootPageID (b_pager b1)) Hidle) as (lm1 & Ea & Hrel). go_step Ea.
  match goal with |- context [try_ ?X] => set (body := X) end.
  assert (Hbody : body (MkShared b1 lm1) =
    let '(b2, r) := (_ ← pager (put_pages key value); modify (add_keys 1)) b1 in (MkShared b2 lm1, r)).
  { unfold body. rewrite on_pager_gets. unfold on_tree, pager, zoom, mbind, M_bind. rewrite put_pages_run. cbn [sh_tree].
    destruct (insertAndSplit (depth_fuel (b_pager b1)) (RootPageID (b_pager b1)) key value (b_pager b1)) as [p [[[sep new]|]|e|]]; [|done..].
    cbn [sh_tree set_tree sh_latches]. change (b_pager (set_pager p b1)) with p.
    destruct (handleRootSplit (RootPageID (b_pager b1)) sep new p) as [p2 [[]|e|]]; done. }
  set (seq := (_ ← pager (put_pages key value); modify (add_keys 1)) b1) in *.
  assert (Et : try_ body (MkShared b1 lm1) = let '(b2, r) := seq in match r with Panic => (MkShared b2 lm1, Panic) | _ => (MkShared b2 lm1, Ok r) end).
  { unfold try_. rewrite Hbody. by destruct seq as [b2 []]. }
  destruct seq as [b2 r]. destruct r as [v|e|]; [| |by cbn [same_call]; rewrite (M_bind_Panic _ _ _ _ Et)];
    (go_step Et; destruct (Hrel b2) as (lm2 & Er & H2); go_step Er; by exists lm2).
Qed.

(** ** Together *)

(** The latches of any number of concurrent calls.  A get waits for a page or is at it, with
    its latches in [th_lc]; a put waits for its root, has announced itself, or is inside. *)
Inductive call_state :=
| GWait (id : Z)
| GAt (id : Z)
| PWait (id : Z)
| PPending (id : Z)
| PAt (id : Z)
| CDone.

#[global] Instance call_state_eq_dec : EqDecision call_state.
Proof. solve_decision. Defined.

Record thread := MkThread {
  th_lc : LatchCoupling;
  th_state : call_state;
}.

Definition start_get (rootID : Z) : thread := MkThread NewLatchCoupling (GWait rootID).
Definition start_put (rootID : Z) : thread := MkThread NewLatchCoupling (PWait rootID).

Definition announce_latch (l : PageLatch) : option PageLatch := MkLatch <$> rw_announce (pl_mu l).
Definition enter_latch (l : PageLatch) : option PageLatch := MkLatch <$> rw_enter (pl_mu l).

(** The two halves of [Lock] for a writer. *)
Lemma lock_write_split l : PageLatch_Lock LatchWrite l = announce_latch l ≫= enter_latch.
Proof.
  unfold announce_latch, enter_latch. cbn [PageLatch_Lock]. unfold rw_Lock. by destruct (rw_announce (pl_mu l)).
Qed.

Section protocol.
(** The level of a page, which never changes: a child is below its parent. *)
Context (level : Z → nat).

(** One step of a call: [ConcurrentGet] latches the page, then goes on to some child after
    releasing what is above, or ends; [ConcurrentPut] latches its root and ends.  Which
    child a get finds is left open, whatever the puts do to the pages. *)
Inductive act : LatchManager → thread → LatchManager → thread → Prop :=
| act_get_latch lm lc id lm' lc' :
    AcquireLatch id LatchRead lm lc = Some (lm', lc') →
    act lm (MkThread lc (GWait id)) lm' (MkThread lc' (GAt id))
| act_get_descend lm lc id child lm' lc' :
    (level child < level id)%nat → ReleaseParent lm lc = Ok (lm', lc') →
    act lm (MkThread lc (GAt id)) lm' (MkThread lc' (GWait child))
| act_get_finish lm lc id lm' lc' :
    ReleaseAll lm lc = Ok (lm', lc') →
    act lm (MkThread lc (GAt id)) lm' (MkThread lc' CDone)
| act_put_announce lm lc id lm' :
    lock_page id announce_latch lm = Some lm' →
    act lm (MkThread lc (PWait id)) lm' (MkThread lc (PPending id))
| act_put_enter lm lc id lm' :
    lock_page id enter_latch lm = Some lm' →
    act lm (MkThread lc (PPending id)) lm' (MkThread (track id LatchWrite lc) (PAt id))
| act_put_finish lm lc id lm' lc' :
    ReleaseAll lm lc = Ok (lm', lc') →
    act lm (MkThread lc (PAt id)) lm' (MkThread lc' CDone).

Definition system : Type := LatchManager * list thread.

Inductive step : system → system → Prop :=
| step_thread lm lm' a t t' b : act lm t lm' t' → step (lm, a ++ t :: b) (lm', a ++ t' :: b).

(** *** Accounting *)

Definition reads (id : Z) (t : thread) : nat :=
  match th_state t with
  | GWait _ | GAt _ => count_page id (lc_held (th_lc t))
  | _ => 0
  end.

Definition writes (id : Z) (t : thread) : option writer :=
  match th_state t with
  | PPending j => if decide (j = id) then Some WPending else None
  | PAt j => if decide (j = id) then Some WActive else None
  | _ => None
  end.

Definition above (id : Z) (held : list (Z * LatchMode)) : Prop := Forall (λ h, (level id < level h.1)%nat) held.

Definition thread_ok (t : thread) : Prop :=
  let held := lc_held (th_lc t) in
  match th_state t with
  | GWait id => all_reads held ∧ above id held
  | GAt id => ∃ h, held = h ++ [(id, LatchRead)] ∧ all_reads h ∧ above id h
  | PAt id => held = [(id, LatchWrite)]
  | _ => held = []
  end.

Definition writer_list (w : writer) : list writer := match w with WNone => [] | w => [w] end.

Record page_ok (ts : list thread) (id : Z) (m : RWMutex) : Prop := {
  po_readers : rw_readers m = sum_list_with (reads id) ts;
  po_writer : omap (writes id) ts = writer_list (rw_writer m);
  po_excl : rw_writer m = WActive → rw_readers m = 0%nat;
}.

Definition latches_ok (s : system) : Prop := Forall thread_ok s.2 ∧ ∀ id, page_ok s.2 id (rw s.1 id).

Lemma sum_reads id a t b : sum_list_with (reads id) (a ++ t :: b) = (sum_list_with (reads id) (a ++ b) + reads id t)%nat.
Proof. rewrite !sum_list_with_app. simpl. lia. Qed.

(** A step that changes what one thread reads. *)
Lemma page_ok_reads a t t' b id m n :
  page_ok (a ++ t :: b) id m → writes id t' = writes id t →
  (n + reads id t = rw_readers m + reads id t')%nat → (rw_writer m = WActive → n = 0%nat) →
  page_ok (a ++ t' :: b) id (MkRW n (rw_writer m)).
Proof.
  intros [H1 H2 H3] Hw Hn Hx. rewrite sum_reads in H1. split; cbn [rw_readers rw_writer].
  - rewrite sum_reads. lia.
  - rewrite <-H2, !omap_app. simpl. by rewrite Hw.
  - done.
Qed.

Lemma held_le a t b id m : page_ok (a ++ t :: b) id m → (reads id t ≤ rw_readers m)%nat.
Proof. intros [-> _ _]. rewrite sum_reads. lia. Qed.

Lemma rw_eta m : MkRW (rw_readers m) (rw_writer m) = m.
Proof. by destruct m. Qed.

Lemma lock_page_inv id lock lm lm' :
  lock_page id lock lm = Some lm' → ∃ l, lock (MkLatch (rw lm id)) = Some l ∧ ∀ j, rw lm' j = if decide (j = id) then pl_mu l else rw lm j.
Proof.
  intros E. pose proof (lock_page_ok id lock lm) as H. destruct (lock _) as [l|]; [|congruence].
  destruct H as (lm1 & E1 & H). exists l. split; [done|]. rewrite E in E1. by injection E1 as <-.
Qed.

(** Releasing the read latches [held] of a thread that keeps [kept]. *)
Lemma release_reads_ok lm a t b held kept st :
  (∀ id, page_ok (a ++ t :: b) id (rw lm id)) → all_reads held → (∀ id, reads id t = (count_page id held + count_page id kept)%nat) →
  (∀ id, writes id t = None ∧ writes id (MkThread (MkCoupling kept) st) = None) →
  (∀ id, reads id (MkThread (MkCoupling kept) st) = count_page id kept) →
  ∃ lm', unlock_all held lm = Ok lm' ∧ ∀ id, page_ok (a ++ MkThread (MkCoupling kept) st :: b) id (rw lm' id).
Proof using Type.
  intros Hp Hr Hc Hw Hk. destruct (unlock_reads held lm Hr) as (lm' & E & H).
  { intros id. pose proof (held_le _ _ _ _ _ (Hp id)). rewrite Hc in *. lia. }
  exists lm'. split; [done|]. intros id. rewrite H. pose proof (held_le _ _ _ _ _ (Hp id)) as Hle. destruct (Hw id) as [W1 W2].
  apply (page_ok_reads a t); [done|by rewrite W1, W2|rewrite Hk; rewrite Hc in *; lia|]. intros Ew. rewrite (po_excl _ _ _ (Hp id) Ew). done.
Qed.

Lemma page_ok_same a t t' b id m :
  page_ok (a ++ t :: b) id m → writes id t' = writes id t → reads id t' = reads id t → page_ok (a ++ t' :: b) id m.
Proof using Type.
  intros Hp Hw Hr. rewrite <-(rw_eta m). apply (page_ok_reads a t); [done|done|lia|]. apply (po_excl _ _ _ Hp).
Qed.

Lemma omap_mid id a t b :
  omap (writes id) (a ++ t :: b) = omap (writes id) a ++ option_list (writes id t) ++ omap (writes id) b.
Proof using Type. rewrite omap_app. f_equal. simpl. by destruct (writes id t). Qed.

Lemma writer_list_mid w v l1 l2 : l1 ++ w :: l2 = writer_list v → v = w ∧ l1 = [] ∧ l2 = [].
Proof using Type.
  intros H. assert (E : writer_list v = [] ∨ writer_list v = [v]) by (destruct v; auto). destruct E as [E|E]; rewrite E in H.
  - by destruct l1.
  - destruct l1 as [|x l1]; injection H as -> H; [by rewrite H|]. by destruct l1.
Qed.

Lemma writes_in a t b id m w :
  page_ok (a ++ t :: b) id m → writes id t = Some w → rw_writer m = w ∧ omap (writes id) a = [] ∧ omap (writes id) b = [].
Proof using Type.
  intros [_ H _] Hw. rewrite omap_app in H. simpl in H. rewrite Hw in H. by apply writer_list_mid.
Qed.

Lemma writes_none a t b id m :
  page_ok (a ++ t :: b) id m → rw_writer m = WNone → omap (writes id) a = [] ∧ writes id t = None ∧ omap (writes id) b = [].
Proof using Type.
  intros [_ H _] Hw. rewrite omap_app, Hw in H. simpl in H. apply app_eq_nil in H as [H1 H2]. by destruct (writes id t).
Qed.

(** *** The steps of a call *)

Lemma finish_get lm a lc id b :
  (∀ j, page_ok (a ++ MkThread lc (GAt id) :: b) j (rw lm j)) → thread_ok (MkThread lc (GAt id)) →
  ∃ lm', ReleaseAll lm lc = Ok (lm', MkCoupling []) ∧ ∀ j, page_ok (a ++ MkThread (MkCoupling []) CDone :: b) j (rw lm' j).
Proof using Type.
  intros Hp (h & Eh & Hr & _). simpl in Eh. destruct (release_reads_ok lm a (MkThread lc (GAt id)) b (reverse (lc_held lc)) [] CDone) as (lm' & E & H).
  - done.
  - apply Forall_reverse. rewrite Eh. by apply Forall_app; split; [|constructor].
  - intros j. rewrite count_page_reverse. cbn. lia.
  - done.
  - done.
  - exists lm'. unfold ReleaseAll. by rewrite E.
Qed.

Lemma descend_get lm a lc id child b :
  (∀ j, page_ok (a ++ MkThread lc (GAt id) :: b) j (rw lm j)) → thread_ok (MkThread lc (GAt id)) →
  ∃ lm', ReleaseParent lm lc = Ok (lm', MkCoupling [(id, LatchRead)]) ∧
    ∀ j, page_ok (a ++ MkThread (MkCoupling [(id, LatchRead)]) (GWait child) :: b) j (rw lm' j).
Proof using Type.
  intros Hp (h & Eh & Hr & _). simpl in Eh.
  destruct (release_reads_ok lm a (MkThread lc (GAt id)) b h [(id, LatchRead)] (GWait child)) as (lm' & E & H).
  - done.
  - done.
  - intros j. unfold reads. cbn [th_state th_lc]. rewrite Eh. apply count_page_app.
  - done.
  - done.
  - exists lm'. split; [|done]. unfold ReleaseParent. rewrite Eh, length_app, removelast_last'. cbn [length].
    replace (length h + 1 - 1)%nat with (length h) by lia. rewrite drop_app_length. destruct (Nat.ltb_spec (length h + 1) 2) as [Hl|Hl].
    + destruct h; [|simpl in Hl; lia]. simpl in E. injection E as <-. by destruct lc as [l]; simpl in Eh; rewrite Eh.
    + by rewrite E.
Qed.

Lemma finish_put lm a lc id b :
  (∀ j, page_ok (a ++ MkThread lc (PAt id) :: b) j (rw lm j)) → thread_ok (MkThread lc (PAt id)) →
  ∃ lm', ReleaseAll lm lc = Ok (lm', MkCoupling []) ∧ ∀ j, page_ok (a ++ MkThread (MkCoupling []) CDone :: b) j (rw lm' j).
Proof using Type.
  intros Hp Eh. simpl in Eh. destruct (writes_in _ _ _ _ _ WActive (Hp id)) as (Ew & Ea & Eb).
  { unfold writes. simpl. by rewrite decide_True. }
  pose proof (unlock_page_ok id LatchWrite lm) as Hu. cbn [PageLatch_Unlock pl_mu] in Hu. unfold rw_Unlock in Hu. rewrite Ew in Hu.
  cbn [mbind res_bind] in Hu. destruct Hu as (lm' & E & H). exists lm'. split.
  { unfold ReleaseAll. rewrite Eh. change (reverse [(id, LatchWrite)]) with [(id, LatchWrite)]. cbn [unlock_all]. by rewrite E. }
  intros j. rewrite H. case_decide as Ej.
  - subst j. destruct (Hp id) as [H1 _ _]. split; cbn [pl_mu rw_readers rw_writer]; [|by rewrite omap_mid, Ea, Eb|done].
    rewrite H1, !sum_reads. done.
  - apply (page_ok_same a (MkThread lc (PAt id))); [done| |done]. unfold writes. simpl. by rewrite decide_False by done.
Qed.

Lemma latch_get lm a lc id b lm' lc' :
  (∀ j, page_ok (a ++ MkThread lc (GWait id) :: b) j (rw lm j)) → AcquireLatch id LatchRead lm lc = Some (lm', lc') →
  lc' = track id LatchRead lc ∧ ∀ j, page_ok (a ++ MkThread lc' (GAt id) :: b) j (rw lm' j).
Proof using Type.
  intros Hp E. unfold AcquireLatch in E. destruct (lock_page id (PageLatch_Lock LatchRead) lm) as [lm1|] eqn:El; [|done].
  injection E as <- <-. split; [done|]. destruct (lock_page_inv _ _ _ _ El) as (l & Hl & H). cbn [PageLatch_Lock pl_mu] in Hl.
  unfold rw_RLock in Hl. destruct (rw_writer (rw lm id)) eqn:Ew; try done. injection Hl as <-. intros j. rewrite H.
  assert (Hr : reads j (MkThread (track id LatchRead lc) (GAt id)) = (reads j (MkThread lc (GWait id)) + if decide (j = id) then 1 else 0)%nat).
  { unfold reads, track. cbn [th_state th_lc lc_held]. rewrite count_page_app, count_page_cons. cbn [fst]. unfold count_page at 2. simpl.
    destruct (decide (id = j)), (decide (j = id)); congruence || lia. }
  case_decide as Ej.
  - subst j. cbn [pl_mu]. rewrite <-Ew at 1. apply (page_ok_reads a (MkThread lc (GWait id))); [done|done|rewrite Hr; lia|by rewrite Ew].
  - apply (page_ok_same a (MkThread lc (GWait id))); [done|done|rewrite Hr; lia].
Qed.

Lemma announce_put lm a lc id b lm' :
  (∀ j, page_ok (a ++ MkThread lc (PWait id) :: b) j (rw lm j)) → lock_page id announce_latch lm = Some lm' →
  ∀ j, page_ok (a ++ MkThread lc (PPending id) :: b) j (rw lm' j).
Proof using Type.
  intros Hp E j. destruct (lock_page_inv _ _ _ _ E) as (l & Hl & H). unfold announce_latch, rw_announce in Hl. cbn [pl_mu] in Hl.
  destruct (rw_writer (rw lm id)) eqn:Ew; try done. injection Hl as <-. rewrite H. case_decide as Ej.
  - subst j. destruct (writes_none _ _ _ _ _ (Hp id) Ew) as (Ea & _ & Eb). destruct (Hp id) as [H1 _ _].
    split; cbn [pl_mu rw_readers rw_writer]; [|rewrite omap_mid, Ea, Eb; unfold writes; cbn [th_state]; by rewrite decide_True|done].
    rewrite H1, !sum_reads. done.
  - apply (page_ok_same a (MkThread lc (PWait id))); [done| |done]. unfold writes. simpl. by rewrite decide_False by done.
Qed.

Lemma enter_put lm a lc id b lm' :
  (∀ j, page_ok (a ++ MkThread lc (PPending id) :: b) j (rw lm j)) → lock_page id enter_latch lm = Some lm' →
  ∀ j, page_ok (a ++ MkThread (track id LatchWrite lc) (PAt id) :: b) j (rw lm' j).
Proof using Type.
  intros Hp E j. destruct (lock_page_inv _ _ _ _ E) as (l & Hl & H). unfold enter_latch, rw_enter in Hl. cbn [pl_mu] in Hl.
  destruct (rw_writer (rw lm id)) eqn:Ew; try done. destruct (rw_readers (rw lm id)) eqn:En; try done. injection Hl as <-. rewrite H. case_decide as Ej.
  - subst j. destruct (writes_in _ _ _ _ _ WPending (Hp id)) as (_ & Ea & Eb). { unfold writes. simpl. by rewrite decide_True. }
    destruct (Hp id) as [H1 _ _]. split; cbn [pl_mu rw_readers rw_writer]; [|rewrite omap_mid, Ea, Eb; unfold writes; cbn [th_state]; by rewrite decide_True|done].
    rewrite <-En, H1, !sum_reads. done.
  - apply (page_ok_same a (MkThread lc (PPending id))); [done| |done]. unfold writes. simpl. by rewrite !decide_False by done.
Qed.

Lemma step_ok s s' : step s s' → latches_ok s → latches_ok s'.
Proof using Type.
  intros [lm lm' a t t' b Ha] [Ht Hp]. cbn [fst snd] in *. apply Forall_app in Ht as Ht'. destruct Ht' as [Hta Htb]. apply Forall_cons in Htb as [Ht1 Htb].
  assert (H : thread_ok t' ∧ ∀ j, page_ok (a ++ t' :: b) j (rw lm' j)).
  { destruct Ha as [lm lc id lm' lc' E|lm lc id child lm' lc' Hlt E|lm lc id lm' lc' E|lm lc id lm' E|lm lc id lm' E|lm lc id lm' lc' E].
    - destruct (latch_get _ _ _ _ _ _ _ Hp E) as [-> H]. split; [|done]. destruct Ht1 as [? ?]. by exists (lc_held lc).
    - destruct (descend_get _ _ _ _ child _ Hp Ht1) as (lm1 & E1 & H). rewrite E in E1. injection E1 as -> ->. split; [|done].
      split; [by constructor|]. by constructor.
    - destruct (finish_get _ _ _ _ _ Hp Ht1) as (lm1 & E1 & H). rewrite E in E1. by injection E1 as -> ->.
    - split; [done|]. by eapply announce_put.
    - split; [|by eapply enter_put]. unfold thread_ok in *. cbn in *. by rewrite Ht1.
    - destruct (finish_put _ _ _ _ _ Hp Ht1) as (lm1 & E1 & H). rewrite E in E1. by injection E1 as -> ->. }
  destruct H as [H1 H2]. split; [|done]. apply Forall_app. split; [done|]. by constructor.
Qed.
(** *** Progress *)

Lemma thread_steps lm a t b lm' t' : act lm t lm' t' → ∃ s', step (lm, a ++ t :: b) s'.
Proof using Type. intros H. eexists. by apply step_thread. Qed.

Lemma inside_steps lm ts t id :
  latches_ok (lm, ts) → t ∈ ts → th_state t = GAt id ∨ th_state t = PAt id → ∃ s', step (lm, ts) s'.
Proof using Type.
  intros [Ht Hp] Hin Hs. cbn [fst snd] in *. rewrite Forall_forall in Ht. specialize (Ht t Hin).
  apply list_elem_of_split in Hin as (a & b & ->). destruct t as [lc st]. cbn [th_state] in Hs. destruct Hs as [->| ->].
  - destruct (finish_get lm a lc id b Hp Ht) as (lm' & E & _). by eapply thread_steps, act_get_finish.
  - destruct (finish_put lm a lc id b Hp Ht) as (lm' & E & _). by eapply thread_steps, act_put_finish.
Qed.

Lemma writer_thread lm ts id :
  latches_ok (lm, ts) → rw_writer (rw lm id) ≠ WNone →
  ∃ t, t ∈ ts ∧ th_state t = match rw_writer (rw lm id) with WActive => PAt id | _ => PPending id end.
Proof using Type.
  intros [_ Hp] Hw. destruct (Hp id) as [_ H _]. cbn [fst snd] in *.
  assert (Hin : rw_writer (rw lm id) ∈ omap (writes id) ts) by (rewrite H; destruct (rw_writer (rw lm id)); [done|by left..]).
  apply list_elem_of_omap in Hin as (t & Hin & E). exists t. split; [done|]. unfold writes in E.
  destruct (th_state t); try done; case_decide; try done; injection E as <-; by subst.
Qed.

Lemma lock_page_some id lock lm l : lock (MkLatch (rw lm id)) = Some l → ∃ lm', lock_page id lock lm = Some lm'.
Proof using Type. intros E. pose proof (lock_page_ok id lock lm) as H. rewrite E in H. destruct H as (lm' & H & _). by exists lm'. Qed.

(** A page with a waiting call: the call can latch it, or another call can move on. *)
Lemma waiting_steps lm ts t id :
  latches_ok (lm, ts) → t ∈ ts → th_state t = GWait id ∨ th_state t = PWait id →
  (∀ u, u ∈ ts → th_state u = PPending id → ∃ s', step (lm, ts) s') → ∃ s', step (lm, ts) s'.
Proof using Type.
  intros Hok Hin Hs Hpend. destruct (rw_writer (rw lm id)) eqn:Ew.
  - apply list_elem_of_split in Hin as (a & b & ->). destruct t as [lc st]. cbn [th_state] in Hs. destruct Hs as [->| ->].
    + destruct (lock_page_some id (PageLatch_Lock LatchRead) lm (MkLatch (MkRW (S (rw_readers (rw lm id))) WNone))) as (lm' & E).
      { cbn [PageLatch_Lock pl_mu]. unfold rw_RLock. by rewrite Ew. }
      eapply thread_steps, act_get_latch. unfold AcquireLatch. by rewrite E.
    + destruct (lock_page_some id announce_latch lm (MkLatch (MkRW (rw_readers (rw lm id)) WPending))) as (lm' & E).
      { unfold announce_latch, rw_announce. cbn [pl_mu]. by rewrite Ew. }
      by eapply thread_steps, act_put_announce.
  - destruct (writer_thread lm ts id Hok) as (u & Hu & Eu); [by rewrite Ew|]. rewrite Ew in Eu. by apply (Hpend u).
  - destruct (writer_thread lm ts id Hok) as (u & Hu & Eu); [by rewrite Ew|]. rewrite Ew in Eu. eapply inside_steps; [done|exact Hu|by right].
Qed.

Lemma held_reads t id : thread_ok t → (0 < reads id t)%nat →
  (∃ c, th_state t = GWait c ∧ (level c < level id)%nat) ∨ (∃ c, th_state t = GAt c).
Proof using Type.
  intros Ht Hr. unfold reads, thread_ok in *. destruct (th_state t) as [c|c|c|c|c|]; try lia; [left|right; by exists c].
  exists c. split; [done|]. destruct Ht as [_ Ha]. unfold count_page in Hr. destruct (filter _ _) as [|h l] eqn:E; [simpl in Hr; lia|].
  assert (Hin : h ∈ filter (λ h, h.1 = id) (lc_held (th_lc t))) by (rewrite E; by left).
  apply list_elem_of_filter in Hin as [<- Hin]. unfold above in Ha. rewrite Forall_forall in Ha. by apply Ha.
Qed.

Lemma sum_positive (f : thread → nat) ts : (0 < sum_list_with f ts)%nat → ∃ t, t ∈ ts ∧ (0 < f t)%nat.
Proof using Type.
  induction ts as [|t ts IH]; simpl; [lia|]. intros H. destruct (decide (0 < f t)%nat) as [Ht|Ht]; [exists t; split; [by left|done]|].
  destruct IH as (u & Hu & H'); [lia|]. exists u. split; [by right|done].
Qed.

(** A put that has announced itself waits for readers, whose own waits lead further down. *)
Lemma pending_steps lm ts n : latches_ok (lm, ts) → ∀ t id,
  (level id < n)%nat → t ∈ ts → th_state t = PPending id → ∃ s', step (lm, ts) s'.
Proof using Type.
  intros Hok. induction n as [|n IH]; intros t id Hn Hin Hs; [lia|]. pose proof Hok as [Ht Hp]. cbn [fst snd] in *.
  destruct (rw_readers (rw lm id)) as [|r] eqn:Er.
  - apply list_elem_of_split in Hin as (a & b & ->). destruct t as [lc st]. cbn [th_state] in Hs. subst st.
    destruct (writes_in _ _ _ _ _ WPending (Hp id)) as (Ew & _ & _). { unfold writes. simpl. by rewrite decide_True. }
    destruct (lock_page_some id enter_latch lm (MkLatch (MkRW 0 WActive))) as (lm' & E).
    { unfold enter_latch, rw_enter. cbn [pl_mu]. by rewrite Ew, Er. }
    by eapply thread_steps, act_put_enter.
  - destruct (sum_positive (reads id) ts) as (u & Hu & Hr); [rewrite <-(po_readers _ _ _ (Hp id)); lia|].
    rewrite Forall_forall in Ht. destruct (held_reads u id (Ht u Hu) Hr) as [(c & Ec & Hlt)|(c & Ec)].
    + apply (waiting_steps lm ts u c Hok Hu); [by left|]. intros v Hv Ev. apply (IH v c); [lia|done|done].
    + eapply inside_steps; [done|exact Hu|by left].
Qed.

Lemma busy_steps lm ts t : latches_ok (lm, ts) → t ∈ ts → th_state t ≠ CDone → ∃ s', step (lm, ts) s'.
Proof using Type.
  intros Hok Hin Hs.
  assert (Hpend : ∀ id u, u ∈ ts → th_state u = PPending id → ∃ s', step (lm, ts) s').
  { intros id u Hu Eu. apply (pending_steps lm ts (S (level id)) Hok u id); [lia|done|done]. }
  destruct (th_state t) as [id|id|id|id|id|] eqn:E; [| | | | |done].
  - apply (waiting_steps lm ts t id Hok Hin); [by left|apply Hpend].
  - eapply inside_steps; [done|exact Hin|by left].
  - apply (waiting_steps lm ts t id Hok Hin); [by right|apply Hpend].
  - by apply (Hpend id t).
  - eapply inside_steps; [done|exact Hin|by right].
Qed.

(** *** Termination *)

Definition weight (t : thread) : nat :=
  match th_state t with
  | GWait id => 2 * level id + 2
  | GAt id => 2 * level id + 1
  | PWait _ => 3
  | PPending _ => 2
  | PAt _ => 1
  | CDone => 0
  end.

Definition total (ts : list thread) : nat := sum_list_with weight ts.

Lemma step_total s s' : step s s' → (total s'.2 < total s.2)%nat.
Proof using Type.
  intros [lm lm' a t t' b Ha]. unfold total. cbn [snd]. rewrite !sum_list_with_app. simpl.
  assert (weight t' < weight t)%nat; [|lia]. destruct Ha; unfold weight; cbn [th_state]; lia.
Qed.

Lemma run_total n s s' : nsteps step n s s' → (n + total s'.2 ≤ total s.2)%nat.
Proof using Type. induction 1 as [s|n s s1 s2 H _ IH]; [lia|]. pose proof (step_total _ _ H). lia. Qed.

Lemma run_ok n s s' : nsteps step n s s' → latches_ok s → latches_ok s'.
Proof using Type. induction 1 as [s|n s s1 s2 H _ IH]; [done|]. intros Hs. by eapply IH, step_ok. Qed.

(** Calls that start on free latches. *)
Definition started (s : system) : Prop :=
  idle s.1 ∧ Forall (λ t, ∃ id, t = start_get id ∨ t = start_put id) s.2.

Lemma started_ok s : started s → latches_ok s.
Proof using Type.
  intros [Hi Hs]. split.
  - eapply Forall_impl; [exact Hs|]. intros t (id & [->| ->]); [|done]. split; constructor.
  - intros id. rewrite Hi. destruct s as [lm ts]. cbn [snd] in *. clear Hi. split; [| |done]; induction Hs as [|t ts (j & [->| ->]) _ IH]; simpl in *; done.
Qed.

Definition finished (s : system) : Prop := Forall (λ t, th_state t = CDone) s.2 ∧ idle s.1.

Lemma all_done lm ts : latches_ok (lm, ts) → Forall (λ t, th_state t = CDone) ts → finished (lm, ts).
Proof using Type.
  intros [_ Hp] Hd. split; [done|]. intros id. destruct (Hp id) as [H1 H2 _]. cbn [fst snd] in *. rewrite <-(rw_eta (rw lm id)).
  assert (E1 : sum_list_with (reads id) ts = 0%nat).
  { clear H1 H2 Hp. induction Hd as [|t ts Ht _ IH]; [done|]. simpl. unfold reads at 1. by rewrite Ht. }
  assert (E2 : omap (writes id) ts = []).
  { clear H1 H2 Hp E1. induction Hd as [|t ts Ht _ IH]; [done|]. simpl. unfold writes at 1. by rewrite Ht. }
  rewrite H1, E1. rewrite E2 in H2. by destruct (rw_writer (rw lm id)).
Qed.

(** *** Exclusion *)

Lemma holds_write t id : thread_ok t → (id, LatchWrite) ∈ lc_held (th_lc t) → th_state t = PAt id.
Proof using Type.
  unfold thread_ok. destruct (th_state t) as [c|c|c|c|c|].
  - intros [Hr _] Hin. unfold all_reads in Hr. rewrite Forall_forall in Hr. by specialize (Hr _ Hin).
  - intros (h & -> & Hr & _) Hin. apply elem_of_app in Hin as [Hin|Hin]; [|by apply list_elem_of_singleton in Hin].
    unfold all_reads in Hr. rewrite Forall_forall in Hr. by specialize (Hr _ Hin).
  - intros ->. by intros ?%elem_of_nil.
  - intros ->. by intros ?%elem_of_nil.
  - intros ->. by intros [= ->]%list_elem_of_singleton.
  - intros ->. by intros ?%elem_of_nil.
Qed.

Lemma holds_read t id : thread_ok t → (id, LatchRead) ∈ lc_held (th_lc t) → (0 < reads id t)%nat.
Proof using Type.
  intros Ht Hin.
  assert (Hc : (0 < count_page id (lc_held (th_lc t)))%nat).
  { unfold count_page. assert (Hf : (id, LatchRead) ∈ filter (λ h, h.1 = id) (lc_held (th_lc t))) by by apply list_elem_of_filter.
    destruct (filter _ _); [by apply elem_of_nil in Hf|simpl; lia]. }
  unfold reads, thread_ok in *. destruct (th_state t) as [c|c|c|c|c|]; [done|done|..]; exfalso; rewrite Ht in Hin.
  - by apply elem_of_nil in Hin.
  - by apply elem_of_nil in Hin.
  - by apply list_elem_of_singleton in Hin.
  - by apply elem_of_nil in Hin.
Qed.

Lemma write_excludes lm a t b u id m :
  latches_ok (lm, a ++ t :: b) → (id, LatchWrite) ∈ lc_held (th_lc t) → u ∈ a ++ b → (id, m) ∉ lc_held (th_lc u).
Proof using Type.
  intros [Ht Hp] Hw Hu Hm. cbn [fst snd] in *. apply Forall_app in Ht as [Hta Htb]. apply Forall_cons in Htb as [Ht1 Htb].
  assert (Hab : Forall thread_ok (a ++ b)) by by apply Forall_app. rewrite Forall_forall in Hab. specialize (Hab u Hu).
  pose proof (holds_write t id Ht1 Hw) as Es.
  destruct (writes_in _ _ _ _ _ WActive (Hp id)) as (Ew & Ea & Eb). { unfold writes. rewrite Es. by rewrite decide_True. }
  pose proof (po_excl _ _ _ (Hp id) Ew) as Er. destruct m.
  - pose proof (holds_read u id Hab Hm) as Hr. rewrite (po_readers _ _ _ (Hp id)), sum_reads in Er.
    apply list_elem_of_split in Hu as (a1 & b1 & Eab). rewrite Eab, sum_reads in Er. lia.
  - pose proof (holds_write u id Hab Hm) as Eu. assert (Hn : WActive ∈ omap (writes id) (a ++ b)).
    { apply list_elem_of_omap. exists u. split; [done|]. unfold writes. rewrite Eu. by rewrite decide_True. }
    rewrite omap_app, Ea, Eb in Hn. by apply elem_of_nil in Hn.
Qed.
End protocol.

(** C29: when no other call runs, [ConcurrentGet] and [ConcurrentPut] are [Get] and [Put]: the
    same answer, the same tree, and every latch is free again afterwards; where the
    sequential call crashes, the concurrent one does. *)
Theorem concurrent_calls_alone b lm (Hidle : idle lm) :
  (∀ key, same_call (BTree_Get key b) (ConcurrentGet key (MkShared b lm))) ∧
  (∀ key value, same_call (BTree_Put key value b) (ConcurrentPut key value (MkShared b lm))).
Proof.
  split.
  - intros key. by apply concurrent_get_alone.
  - intros key value. by apply concurrent_put_alone.
Qed.

Definition demo_tree : res (BTree * res unit) :=
  match BTree_New (MkBConfig "d" 128 3) None [] with
  | Ok b => Ok (BTree_Put [1] [2] b)
  | Err e => Err e
  | Panic => Panic
  end.

Lemma concurrent_calls_alone_witness :
  match demo_tree with
  | Ok (b, Ok _) =>
      idle NewLatchManager ∧ (BTree_Get [1] b).2 = Ok [2] ∧
      same_call (BTree_Get [1] b) (ConcurrentGet [1] (MkShared b NewLatchManager)) ∧
      same_call (BTree_Put [3] [4] b) (ConcurrentPut [3] [4] (MkShared b NewLatchManager))
  | _ => False
  end.
Proof.
  assert (Hi : idle NewLatchManager) by done.
  assert (Hd : match demo_tree with Ok (b, Ok _) => (BTree_Get [1] b).2 = Ok [2] | _ => False end) by (vm_compute; done).
  revert Hd. destruct demo_tree as [[b [u|e|]]|e|]; intros Hd; try (exact (False_ind _ Hd)).
  destruct (concurrent_calls_alone b NewLatchManager Hi) as [Hg Hp]. split; [exact Hi|]. split; [exact Hd|]. split; [apply Hg|apply Hp].
Defined.

(** C30: any number of gets and puts that start together on free latches run to the end: a
    run takes a bounded number of steps, in every state of it in which some call is not done
    a call can move, and when all are done all latches are free. *)
Theorem latches_live level n s0 s (Hstart : started s0) (Hrun : nsteps (step level) n s0 s) :
  (n ≤ total level s0.2)%nat ∧ (finished s ∨ ∃ s', step level s s').
Proof.
  pose proof (run_ok level n s0 s Hrun (started_ok level s0 Hstart)) as Hok. pose proof (run_total level n s0 s Hrun). split; [lia|].
  destruct s as [lm ts]. destruct (decide (Forall (λ t, th_state t = CDone) ts)) as [Hd|Hd]; [left; by apply (all_done level)|right].
  apply not_Forall_Exists in Hd; [|intros t; apply _].
  apply Exists_exists in Hd as (t & Hin & Ht). by apply (busy_steps level lm ts t).
Qed.

(** C31: in every state of such a run, a page that one call holds for writing is held by no
    other call; and a call that ends, or goes on to a child, can release its latches (the
    runtime never sees an unlock of an unlocked latch). *)
Theorem latches_exclusive level n s0 lm a t b (Hstart : started s0) (Hrun : nsteps (step level) n s0 (lm, a ++ t :: b)) :
  (∀ u id m, u ∈ a ++ b → (id, LatchWrite) ∈ lc_held (th_lc t) → (id, m) ∉ lc_held (th_lc u)) ∧
  (∀ id, th_state t = GAt id ∨ th_state t = PAt id → ∃ lm', ReleaseAll lm (th_lc t) = Ok (lm', NewLatchCoupling)) ∧
  (∀ id, th_state t = GAt id → ∃ lm', ReleaseParent lm (th_lc t) = Ok (lm', MkCoupling [(id, LatchRead)])).
Proof.
  pose proof (run_ok level n s0 _ Hrun (started_ok level s0 Hstart)) as Hok. pose proof Hok as [Ht Hp]. cbn [fst snd] in *.
  apply Forall_app in Ht as [_ Ht]. apply Forall_cons in Ht as [Ht _]. destruct t as [lc st]. cbn [th_state th_lc] in *. split; [|split].
  - intros u id m Hu Hw. by apply (write_excludes level lm a (MkThread lc st) b).
  - intros id [->| ->].
    + destruct (finish_get level lm a lc id b Hp Ht) as (lm' & E & _). by exists lm'.
    + destruct (finish_put level lm a lc id b Hp Ht) as (lm' & E & _). by exists lm'.
  - intros id ->. destruct (descend_get level lm a lc id id b Hp Ht) as (lm' & E & _). by exists lm'.
Qed.

(** A get and a put that meet at the root: the get is at the root while the put waits. *)
Definition demo_start : system := (NewLatchManager, [start_get 1; start_put 1]).
Definition demo_meet : system :=
  (MkManager {[1 := MkLatch (MkRW 1 WPending)]},
   [MkThread (MkCoupling [(1, LatchRead)]) (GAt 1); MkThread NewLatchCoupling (PPending 1)]).

Lemma demo_started : started demo_start.
Proof. split; [done|]. repeat constructor; exists 1; auto. Qed.

Lemma demo_run : nsteps (step (λ _, 0%nat)) 2 demo_start demo_meet.
Proof.
  apply (nsteps_l _ _ _ (MkManager {[1 := MkLatch (MkRW 1 WNone)]}, [MkThread (MkCoupling [(1, LatchRead)]) (GAt 1); start_put 1])).
  - by apply (step_thread _ _ _ [] _ _ [_]), act_get_latch.
  - apply (nsteps_l _ _ _ demo_meet); [|constructor]. by apply (step_thread _ _ _ [_] _ _ []), act_put_announce.
Qed.

Lemma latches_live_witness :
  (2 ≤ total (λ _, 0%nat) demo_start.2)%nat ∧ ∃ s', step (λ _, 0%nat) demo_meet s'.
Proof.
  destruct (latches_live (λ _, 0%nat) 2 demo_start demo_meet demo_started demo_run) as [H1 [[H2 _]|H2]].
  - exfalso. inversion H2 as [|? ? H3]. discriminate H3.
  - by split.
Defined.

Lemma latches_exclusive_witness :
  ∃ lm', ReleaseAll demo_meet.1 (MkCoupling [(1, LatchRead)]) = Ok (lm', NewLatchCoupling).
Proof.
  destruct (latches_exclusive (λ _, 0%nat) 2 demo_start demo_meet.1 [] (MkThread (MkCoupling [(1, LatchRead)]) (GAt 1))
    [MkThread NewLatchCoupling (PPending 1)] demo_started demo_run) as (_ & H & _).
  apply (H 1). left. reflexivity.
Defined.
