(* ===== verification/BtFindings.v ===== *)
(** Runs of the B-tree that go wrong, outside the scope of the refinement theorem: splits of
    internal pages, rebalancing, large entries, tiny caches, crashes after a root split, and
    scans after updates or without a start key. *)
From stdpp Require Import base gmap list strings numbers sorting.
From S2P Require Import Prelude GoLib GoState Common BtVarint BtPage BtNode BtWal BtPager BtSplit BtMerge BtTree BtRefine BtIterator BtScan BtLatch.

Open Scope Z_scope.

Definition run_tree (b : res BTree) (cs : list call) : res BTree * list answer :=
  match b with
  | Ok b => let '(b, l) := session tree_call b cs in (Ok b, l)
  | r => (r, [])
  end.

Definition fresh (cacheSize : Z) : res BTree := BTree_New (MkBConfig "d" 128 cacheSize) None [].

(** The process dies and the database is opened again from its two files. *)
Definition after_crash (b : res BTree) : res BTree :=
  match b with
  | Ok b =>
      BTree_New (b_config b) (Some (p_file (b_pager b)))
        (match p_wal (b_pager b) with Some w => bw_file w | None => [] end)
  | r => r
  end.

Definition big_key (n : nat) (i : Z) : bytes := replicate n i.
Definition big_puts (n : nat) (l : list Z) : list call := (λ i, CPut (big_key n i) [i]) <$> l.
Definition big_gets (n : nat) (l : list Z) : list call := (λ i, CGet (big_key n i)) <$> l.
Definition found (l : list answer) : list bool := (λ a, match a with AValue (Ok _) => true | _ => false end) <$> l.

(** Splitting an internal page exchanges the right pointers of its halves: ten of fourteen
    keys are left after the second level fills. *)
Example internal_split_loses_keys :
  let '(b, puts) := run_tree (fresh 100) (big_puts 1000 (seqZ 1 14)) in
  puts = replicate 14 (ADone (Ok tt)) ∧
  found (run_tree b (big_gets 1000 (seqZ 1 14))).2 =
    [false; false; true; true; true; true; false; false; true; true; true; true; true; true].
Proof. vm_compute. done. Qed.

(** Merging with the left sibling removes the sibling's separator: the keys of the sibling
    are no longer found. *)
Example merge_loses_keys :
  found (run_tree (fresh 100) (big_puts 1000 (seqZ 1 7) ++ [CDelete (big_key 1000 7); CDelete (big_key 1000 6)] ++ big_gets 1000 (seqZ 1 5))).2 =
    replicate 9 false ++ [true; true; false; false; true].
Proof. vm_compute. done. Qed.

(** Deleting the last cell of a leaf dereferences a missing first cell. *)
Example delete_panics :
  (run_tree (fresh 100) (((λ i, CPut [i] (replicate 1900 i)) <$> [1; 2; 3; 4; 5; 6]) ++ [CDelete [3]])).2 =
    replicate 6 (ADone (Ok tt)) ++ [ADone Panic].
Proof. vm_compute. done. Qed.

(** A leaf is split by the number of its cells: when a half is too large the put fails after
    the page was cleared, and stored keys are lost. *)
Example failed_split_loses_keys :
  let sizes := [(1, 10); (2, 10); (3, 10); (4, 1300); (5, 1300); (6, 1300); (7, 1400)] in
  let '(b, puts) := run_tree (fresh 100) ((λ x, CPut [x.1] (replicate (Z.to_nat x.2) x.1)) <$> sizes) in
  puts = replicate 6 (ADone (Ok tt)) ++ [ADone (Err ErrPageFull)] ∧
  found (run_tree b ((λ i, CGet [i]) <$> [1; 2; 3; 4; 5; 6])).2 = [true; true; true; false; false; false].
Proof. vm_compute. done. Qed.

(** Recovery gives a page that never reached the disk the type of a leaf: after a crash that
    follows a root split no key is found, until the database is opened once more. *)
Example recovered_root_is_a_leaf :
  let b := after_crash (run_tree (fresh 100) (big_puts 1000 (seqZ 1 5))).1 in
  found (run_tree b (big_gets 1000 (seqZ 1 5))).2 = replicate 5 false ∧
  found (run_tree (after_crash b) (big_gets 1000 (seqZ 1 5))).2 = replicate 5 true.
Proof. vm_compute. done. Qed.

(** With a cache of two pages the parent is evicted while its child is split, and the new
    separator is lost. *)
Example small_cache_loses_keys :
  let '(b, puts) := run_tree (fresh 2) (big_puts 1000 (seqZ 1 7)) in
  puts = replicate 7 (ADone (Ok tt)) ∧
  found (run_tree b (big_gets 1000 (seqZ 1 7))).2 = [true; true; true; true; false; false; false].
Proof. vm_compute. done. Qed.

(** Updates do not reuse the space of the old cell and count as new keys: five puts of one
    key split the root and are counted as five keys. *)
Example updates_split_and_count :
  match (run_tree (fresh 100) (replicate 5 (CPut [1] (replicate 1000 7)))).1 with
  | Ok b => NumPages (b_pager b) = 4 ∧ NumKeys (BTree_Stats b) = 5
  | _ => False
  end.
Proof. vm_compute. done. Qed.

(** Every recovery leaks a page number, even when only a checkpoint is in the log. *)
Example reopen_leaks_a_page :
  match (run_tree (fresh 100) [CPut [1] [2]]).1 with
  | Ok b =>
      let b := (BTree_Close b).1 in
      match after_crash (Ok b) with Ok b' => NumPages (b_pager b') = NumPages (b_pager b) + 1 | _ => False end
  | _ => False
  end.
Proof. vm_compute. done. Qed.

(** A torn record that is alone in the log stays there: recovery truncates the log only when
    it read a record.  What is logged next lies behind the torn bytes, and after another
    crash the database does not open any more. *)
Definition torn_record : bytes := take 40 (encodeRecord (logged_record (OWrite 1 0 (make_bytes PageSize)))).

Example torn_record_blocks_restart :
  match (run_tree (fresh 100) [CPut [1] [2]; CSync]).1 with
  | Ok b =>
      match BTree_New (b_config b) (Some (p_file (b_pager b))) (header_bytes ++ torn_record) with
      | Ok b => let '(b, l) := session tree_call b [CGet [1]; CPut [3] [4]] in
          l = [AValue (Ok [2]); ADone (Ok tt)] ∧ after_crash (Ok b) = Err (Errorf "failed to read WAL")
      | _ => False
      end
  | _ => False
  end.
Proof. vm_compute. done. Qed.

Definition thousand_puts (l : list (Z * Z)) : res BTree :=
  (run_tree (fresh 100) ((λ x, CPut [x.1] (replicate 1000 x.2)) <$> l)).1.
Definition scanned (start : bytes) (b : res BTree) : list (bytes * Z) :=
  match b with
  | Ok b => match scan_all 100 start None b with Ok (es, _) => (λ x, (x.1, default 0 (head x.2))) <$> es | _ => [] end
  | _ => []
  end.

(** An update that splits its leaf between the old and the new cell leaves the old one in
    the left half: a scan returns the key twice, with the old value first. *)
Example scan_returns_stale_value :
  scanned [1] (thousand_puts [(1, 1); (2, 2); (3, 3); (4, 4); (2, 9)]) =
    [([1], 1); ([2], 2); ([2], 9); ([3], 3); ([4], 4)].
Proof. vm_compute. done. Qed.

(** A scan without a start key begins at the first cell's child, which is the second leaf. *)
Example open_scan_skips_first_leaf :
  scanned [] (thousand_puts [(1, 1); (2, 2); (3, 3); (4, 4); (5, 5)]) = [([3], 3); ([4], 4); ([5], 5)].
Proof. vm_compute. done. Qed.

(** The smallest and the largest key of the same tree. *)
Example min_and_max_key_are_wrong :
  match thousand_puts [(1, 1); (2, 2); (3, 3); (4, 4); (5, 5)] with
  | Ok b => let p := b_pager b in (GetMinKey (RootPageID p) p).2 = Ok [3] ∧ (GetMaxKey (RootPageID p) p).2 = Ok [2]
  | _ => False
  end.
Proof. vm_compute. done. Qed.

(** A get that read the number of the root and then waits for its latch while a put splits
    the root goes on with the left half: it misses a key that was stored all the time. *)
Example waiting_get_misses_key :
  match thousand_puts [(1, 1); (2, 2); (3, 3); (4, 4)] with
  | Ok b =>
      let rootID := RootPageID (b_pager b) in
      let '(s, r) := ConcurrentPut [5] (replicate 1000 5) (MkShared b NewLatchManager) in
      r = Ok tt ∧ (ConcurrentGet [4] s).2 = Ok (replicate 1000 4) ∧
      snd <$> (get_loop 10 rootID [4] NewLatchCoupling s).2 = Ok (Err ErrKeyNotFound)
  | _ => False
  end.
Proof. vm_compute. done. Qed.
