(* ===== verification/BenchKeys.v ===== *)
(** The key generator and the latency histogram of the benchmark harness
    ([src/common/benchmark/keygen.go], [metrics.go]). *)
From stdpp Require Import base list strings numbers sorting.
From S2P Require Import Prelude GoLib Common.

Open Scope Z_scope.

(** ** Formatting keys *)

(** The decimal digits of a natural number; an [int] has at most 19. *)
Fixpoint digits (fuel : nat) (n : Z) : bytes :=
  match fuel with
  | O => []
  | S fuel => if n <? 10 then [48 + n] else digits fuel (n / 10) ++ [48 + n mod 10]
  end.

(** [fmt.Sprintf] with the verb [%010d]: zeros up to the width, after the sign. *)
Definition sprintf_010d (n : Z) : bytes :=
  if n <? 0 then let ds := digits 20 (- n) in 45 :: replicate (9 - length ds) 48 ++ ds
  else let ds := digits 20 n in replicate (10 - length ds) 48 ++ ds.

(** The bytes of [user]. *)
Definition user_prefix : bytes := [117; 115; 101; 114].

Definition key_padding (n size : Z) : bytes :=
  if 8 <=? size then copy_at 0 (le_put 8 (u64 n)) (make_bytes size)
  else (λ i, u8 (n + i)) <$> seqZ 0 size.

Definition formatKey (keySize n : Z) : res bytes :=
  let key := user_prefix ++ sprintf_010d n in
  if len key <? keySize then Ok (key ++ key_padding n (keySize - len key))
  else if keySize <? 0 then Panic
  else Ok (slice_to keySize key).

(** ** The generator *)

Definition DistUniform : string := "uniform".
Definition DistZipfian : string := "zipfian".
Definition DistSequential : string := "sequential".
Definition DistLatest : string := "latest".

(** What the generator draws from its source of random numbers for one key: [Intn], the next
    value of the Zipf distribution with the given largest value, and the distance
    [int(math.Abs(NormFloat64()) * float64(range))]. *)
Record Draw := MkDraw {
  d_Intn : Z → Z;
  d_Zipf : Z → Z;
  d_offset : Z → Z;
}.

(** The zipf field is the largest value of the distribution, when there is one. *)
Record KeyGenerator := MkKeyGenerator {
  kg_numKeys : Z;
  kg_keySize : Z;
  kg_distribution : string;
  kg_zipf : option Z;
  kg_seqCounter : Z;
}.

Definition NewKeyGenerator (numKeys keySize : Z) (distribution : string) : KeyGenerator :=
  MkKeyGenerator numKeys keySize distribution
    (if String.eqb distribution DistZipfian then Some (u64 numKeys) else None) 0.

(** The number of the next key. *)
Definition next_keyNum (kg : KeyGenerator) (d : Draw) : KeyGenerator * res Z :=
  let n := kg_numKeys kg in
  if String.eqb (kg_distribution kg) DistZipfian then
    match kg_zipf kg with
    | Some imax => (kg, Ok (i64 (d_Zipf d imax)))
    | None => (kg, Panic)
    end
  else if String.eqb (kg_distribution kg) DistSequential then
    let c := i64 (kg_seqCounter kg + 1) in
    (MkKeyGenerator n (kg_keySize kg) (kg_distribution kg) (kg_zipf kg) c,
     if n =? 0 then Panic else Ok (Z.rem c n))
  else if String.eqb (kg_distribution kg) DistLatest then
    let range := Z.quot n 10 in
    let range := if range <? 100 then 100 else range in
    let keyNum := i64 (n - 1 - d_offset d range) in
    (kg, Ok (if keyNum <? 0 then 0 else keyNum))
  else (kg, if n <=? 0 then Panic else Ok (d_Intn d n)).

Definition NextKey (kg : KeyGenerator) (d : Draw) : KeyGenerator * res bytes :=
  let '(kg, r) := next_keyNum kg d in (kg, keyNum ← r; formatKey (kg_keySize kg) keyNum).

Definition GenerateSequential (kg : KeyGenerator) (n : Z) : res bytes := formatKey (kg_keySize kg) n.

(** ** Latencies *)

Record LatencyStats := MkLatencyStats {
  ls_Min : Z;
  ls_Max : Z;
  ls_Mean : Z;
  ls_P50 : Z;
  ls_P95 : Z;
  ls_P99 : Z;
  ls_P999 : Z;
}.

Abbreviation LatencyHistogram := (list Z).
Definition NewLatencyHistogram : LatencyHistogram := [].
Definition Histogram_Record (h : LatencyHistogram) (d : Z) : LatencyHistogram := h ++ [d].

(** [copied[i]]. *)
Definition sample_at (copied : list Z) (i : Z) : res Z :=
  if i <? 0 then Panic else match copied !! Z.to_nat i with Some x => Ok x | None => Panic end.

(** [sum += d] over the samples, in 64 bits. *)
Definition sum_samples (copied : list Z) : Z := foldl (λ sum d, i64 (sum + d)) 0 copied.

(** [Stats]; sorting numbers has one result. *)
Definition Histogram_Stats (h : LatencyHistogram) : res LatencyStats :=
  if len h =? 0 then Ok (MkLatencyStats 0 0 0 0 0 0 0)
  else
    let copied := merge_sort Z.le h in
    let n := len copied in
    let mean := Z.quot (sum_samples copied) n in
    min ← sample_at copied 0;
    max ← sample_at copied (n - 1);
    p50 ← sample_at copied (Z.quot (i64 (n * 50)) 100);
    p95 ← sample_at copied (Z.quot (i64 (n * 95)) 100);
    p99 ← sample_at copied (Z.quot (i64 (n * 99)) 100);
    p999 ← sample_at copied (Z.quot (i64 (n * 999)) 1000);
    Ok (MkLatencyStats min max mean p50 p95 p99 p999).

(** ** Keys are numbers *)

(** Numerals of a fixed width. *)
Fixpoint numeral (w : nat) (n : Z) : bytes :=
  match w with
  | O => []
  | S w => numeral w (n / 10) ++ [48 + n mod 10]
  end.

Lemma length_numeral w n : length (numeral w n) = w.
Proof. revert n. induction w as [|w IH]; intros n; simpl; [done|]. rewrite length_app, IH. simpl. lia. Qed.

Lemma numeral_zero w : numeral w 0 = replicate w 48.
Proof. induction w as [|w IH]; [done|]. cbn [numeral]. rewrite Z.div_0_l, IH by lia. by rewrite <-replicate_S_end. Qed.

Lemma padded_numeral w n fuel :
  (0 < w ≤ fuel)%nat → 0 ≤ n < 10 ^ Z.of_nat w →
  replicate (w - length (digits fuel n)) 48 ++ digits fuel n = numeral w n.
Proof.
  revert w n. induction fuel as [|fuel IH]; intros w n Hw Hn; [lia|]. cbn [digits].
  destruct w as [|w]; [lia|]. cbn [numeral]. destruct (Z.ltb_spec n 10) as [Hlt|Hge].
  - rewrite Z.div_small, Z.mod_small by lia. rewrite numeral_zero. simpl. by rewrite Nat.sub_0_r.
  - assert (Hw0 : (0 < w)%nat). { destruct w; [|lia]. simpl in Hn. lia. }
    rewrite length_app, app_assoc. f_equal. simpl.
    replace (S w - (length (digits fuel (n / 10)) + 1))%nat with (w - length (digits fuel (n / 10)))%nat by lia.
    apply IH; [lia|]. rewrite Nat2Z.inj_succ, Z.pow_succ_r in Hn by lia.
    split; [apply Z.div_pos; lia|]. apply Z.div_lt_upper_bound; lia.
Qed.

Lemma sprintf_numeral n : 0 ≤ n < 10 ^ 10 → sprintf_010d n = numeral 10 n.
Proof.
  intros Hn. unfold sprintf_010d. destruct (Z.ltb_spec n 0); [lia|]. apply padded_numeral; [lia|done].
Qed.

Lemma bytes_lt_app_l a b c : bytes_lt (a ++ b) (a ++ c) ↔ bytes_lt b c.
Proof. unfold bytes_lt. induction a as [|x a IH]; simpl; [done|]. rewrite Z.compare_refl. exact IH. Qed.

Lemma bytes_lt_app a b c d : length a = length b → bytes_lt a b → bytes_lt (a ++ c) (b ++ d).
Proof.
  unfold bytes_lt. revert b. induction a as [|x a IH]; intros [|y b]; simpl; try done.
  intros [= Hl]. destruct (x ?= y); [by apply IH|done|done].
Qed.

Lemma numeral_lt w n m : 0 ≤ n → n < m → m < 10 ^ Z.of_nat w → bytes_lt (numeral w n) (numeral w m).
Proof.
  revert n m. induction w as [|w IH]; intros n m Hn Hlt Hm; [simpl in Hm; lia|]. cbn [numeral].
  rewrite Nat2Z.inj_succ, Z.pow_succ_r in Hm by lia.
  destruct (Z.eq_dec (n / 10) (m / 10)) as [E|E].
  - rewrite E, bytes_lt_app_l. unfold bytes_lt. simpl.
    assert (n mod 10 < m mod 10) by (rewrite (Z.mod_eq n), (Z.mod_eq m), E by lia; lia).
    destruct (Z.compare_spec (48 + n mod 10) (48 + m mod 10)); [lia|done|lia].
  - apply bytes_lt_app; [by rewrite !length_numeral|]. apply IH; [apply Z.div_pos; lia| |apply Z.div_lt_upper_bound; lia].
    assert (n / 10 ≤ m / 10) by (apply Z.div_le_mono; lia). lia.
Qed.

Lemma len_key_padding n size : 0 ≤ size → len (key_padding n size) = size.
Proof.
  intros Hs. unfold key_padding. destruct (Z.leb_spec 8 size).
  - unfold len. rewrite length_copy_at, length_make_bytes. lia.
  - unfold len. rewrite length_fmap, length_seqZ. lia.
Qed.

(** The key of a number of at most ten digits: prefix, numeral, padding. *)
Lemma formatKey_long keySize n :
  14 ≤ keySize → 0 ≤ n < 10 ^ 10 →
  ∃ pad, formatKey keySize n = Ok (user_prefix ++ numeral 10 n ++ pad) ∧ len pad = keySize - 14.
Proof.
  intros Hs Hn. unfold formatKey. rewrite sprintf_numeral by done.
  assert (Hl : len (user_prefix ++ numeral 10 n) = 14) by (unfold len; rewrite length_app, length_numeral; done).
  rewrite Hl. destruct (Z.ltb_spec 14 keySize) as [Hlt|Hge].
  - exists (key_padding n (keySize - 14)). rewrite <-app_assoc. split; [done|]. apply len_key_padding. lia.
  - destruct (Z.ltb_spec keySize 0); [lia|]. exists []. rewrite app_nil_r. split; [|rewrite len_nil; lia].
    f_equal. unfold slice_to. rewrite take_ge; [done|]. unfold len in Hl. lia.
Qed.



(** ** The keys drawn *)

(** What the sources of random numbers promise. *)
Record draw_ok (d : Draw) : Prop := {
  draw_Intn n : 0 < n → 0 ≤ d_Intn d n < n;
  draw_Zipf imax : 0 ≤ imax → 0 ≤ d_Zipf d imax ≤ imax;
  draw_offset range : 0 ≤ d_offset d range < 2 ^ 62;
}.

(** The keys of a sequence of draws. *)
Fixpoint next_keys (kg : KeyGenerator) (ds : list Draw) : list (res bytes) :=
  match ds with
  | [] => []
  | d :: ds => let '(kg, r) := NextKey kg d in r :: next_keys kg ds
  end.

(** One number more than [numKeys] for the Zipf distribution. *)
Definition key_numbers (numKeys : Z) (distribution : string) : Z :=
  if String.eqb distribution DistZipfian then numKeys + 1 else numKeys.

(** A generator after at most [budget] more keys. *)
Record kg_ok (numKeys keySize : Z) (distribution : string) (budget : Z) (kg : KeyGenerator) : Prop := {
  ko_numKeys : kg_numKeys kg = numKeys;
  ko_keySize : kg_keySize kg = keySize;
  ko_dist : kg_distribution kg = distribution;
  ko_zipf : String.eqb distribution DistZipfian = true → kg_zipf kg = Some numKeys;
  ko_counter : 0 ≤ kg_seqCounter kg ∧ kg_seqCounter kg + budget < 2 ^ 63;
}.

Lemma next_keyNum_ok numKeys keySize distribution budget kg d :
  0 < numKeys < 2 ^ 62 → draw_ok d → 1 ≤ budget → kg_ok numKeys keySize distribution budget kg →
  ∃ kg' n, next_keyNum kg d = (kg', Ok n) ∧ 0 ≤ n < key_numbers numKeys distribution ∧
           kg_ok numKeys keySize distribution (budget - 1) kg'.
Proof.
  intros Hn [D1 D2 D3] Hb Hok. pose proof Hok as [K1 K2 K3 K4 K5]. unfold next_keyNum, key_numbers.
  assert (Hkeep : kg_ok numKeys keySize distribution (budget - 1) kg) by (split; try done; lia).
  rewrite K1, K3. destruct (String.eqb distribution DistZipfian) eqn:Ez.
  - rewrite (K4 eq_refl). exists kg, (i64 (d_Zipf d numKeys)). split; [done|]. split; [|done].
    pose proof (D2 numKeys). rewrite i64_small; lia.
  - destruct (String.eqb distribution DistSequential).
    + rewrite i64_small by lia. destruct (Z.eqb_spec numKeys 0); [lia|]. do 2 eexists. split; [reflexivity|].
      split; [apply Z.rem_bound_pos; lia|]. split; cbn; try done; [by rewrite Ez|lia].
    + destruct (String.eqb distribution DistLatest).
      * set (range := if _ <? 100 then 100 else _). pose proof (D3 range). do 2 eexists. split; [reflexivity|].
        split; [|done]. rewrite i64_small by lia. destruct (Z.ltb_spec (numKeys - 1 - d_offset d range) 0); lia.
      * destruct (Z.leb_spec numKeys 0); [lia|]. do 2 eexists. split; [reflexivity|]. split; [|done]. apply D1. lia.
Qed.

(** Whatever is drawn, a new generator never fails to choose a key number, and every
    number lies in the key space; only the Zipf distribution may also draw the number of
    keys itself. *)
Theorem bench_keys_in_range (numKeys keySize : Z) (distribution : string) (ds : list Draw) :
  0 < numKeys < 2 ^ 62 → Forall draw_ok ds → len ds < 2 ^ 63 →
  Forall (λ r, ∃ n, r = formatKey keySize n ∧ 0 ≤ n < key_numbers numKeys distribution)
    (next_keys (NewKeyGenerator numKeys keySize distribution) ds).
Proof.
  intros Hn Hd Hl. set (kg := NewKeyGenerator _ _ _).
  assert (Hok : kg_ok numKeys keySize distribution (len ds) kg).
  { split; try done. intros E. simpl. rewrite E. by rewrite u64_small by lia. }
  clear Hl. clearbody kg. revert kg Hok. induction Hd as [|d ds Hd _ IH]; intros kg Hok; [constructor|]. cbn [next_keys]. unfold NextKey.
  destruct (next_keyNum_ok numKeys keySize distribution (len (d :: ds)) kg d) as (kg' & n & -> & Hr & Hok'); try done.
  { rewrite len_cons. pose proof (len_nonneg ds). lia. }
  cbn [mbind res_bind]. constructor.
  - exists n. by rewrite (ko_keySize _ _ _ _ _ Hok').
  - apply IH. rewrite len_cons in Hok'. by replace (1 + len ds - 1) with (len ds) in Hok' by lia.
Qed.

(** A source that draws the largest number it may. *)
Definition largest_draw : Draw := MkDraw (λ n, n - 1) (λ imax, imax) (λ range, 3).

Lemma largest_draw_ok : draw_ok largest_draw.
Proof. split; simpl; lia. Qed.

Lemma bench_keys_in_range_witness :
  Forall (λ r, ∃ n, r = formatKey 16 n ∧ 0 ≤ n < key_numbers 1000 DistUniform)
    (next_keys (NewKeyGenerator 1000 16 DistUniform) [largest_draw; largest_draw]).
Proof.
  apply (bench_keys_in_range 1000 16 DistUniform); [lia| |by vm_compute].
  apply Forall_cons; split; [apply largest_draw_ok|]. apply Forall_cons; split; [apply largest_draw_ok|done].
Defined.

(** The Zipf distribution includes its largest value, which is one past the last key. *)
Example zipf_draws_past_the_keys :
  next_keys (NewKeyGenerator 1000 16 DistZipfian) [largest_draw] = [formatKey 16 1000].
Proof. vm_compute. reflexivity. Qed.

(** Keys shorter than the prefix and the digits collide. *)
Example short_keys_collide : formatKey 12 100 = formatKey 12 101.
Proof. vm_compute. reflexivity. Qed.

(** ** Order statistics *)

(** [x] is the sample of rank [i]: at most [i] samples are below it, and more than [i] are
    not above it. *)
Definition has_rank (h : list Z) (i : Z) (x : Z) : Prop :=
  x ∈ h ∧ len (filter (λ y, y < x) h) ≤ i < len (filter (λ y, y ≤ x) h).

Lemma sorted_lookup l i j x y :
  StronglySorted Z.le l → l !! i = Some x → l !! j = Some y → (i ≤ j)%nat → x ≤ y.
Proof.
  intros Hs. revert i j. induction Hs as [|z l Hs IH Hf]; intros i j Hi Hj Hij; [done|].
  destruct j as [|j]; [destruct i; [simplify_eq/=; lia|lia]|]. destruct i as [|i]; simpl in *.
  - simplify_eq. rewrite Forall_forall in Hf. by eapply Hf, list_elem_of_lookup_2.
  - apply (IH i j); [done|done|lia].
Qed.

Lemma filter_none {A} (P : A → Prop) `{∀ x, Decision (P x)} l : Forall (λ x, ¬ P x) l → filter P l = [].
Proof. induction 1 as [|x l Hx Hl IH]; [done|]. by rewrite filter_cons_False. Qed.

Lemma sorted_rank l i x : StronglySorted Z.le l → l !! i = Some x → has_rank l (Z.of_nat i) x.
Proof.
  intros Hs Hi. split; [by eapply list_elem_of_lookup_2|]. unfold len. pose proof (lookup_lt_Some _ _ _ Hi) as Hlt.
  assert (Hd : filter (λ y, y < x) (drop i l) = []).
  { apply filter_none, Forall_forall. intros y Hy.
    apply list_elem_of_lookup in Hy as [j Hj]. rewrite lookup_drop in Hj. pose proof (sorted_lookup l i (i + j) x y Hs Hi Hj). lia. }
  assert (E1 : filter (λ y, y < x) l = filter (λ y, y < x) (take i l ++ drop i l)) by (by rewrite take_drop).
  assert (E2 : filter (λ y, y ≤ x) l = filter (λ y, y ≤ x) (take (S i) l ++ drop (S i) l)) by (by rewrite take_drop).
  rewrite E1, E2, !filter_app, !length_app, Hd. pose proof (length_filter (λ y, y < x) (take i l)) as H1. rewrite length_take in H1.
  rewrite (filter_all (λ y, y ≤ x) (take (S i) l)); [rewrite length_take; cbn [length]; lia|].
  apply Forall_forall. intros y Hy. apply list_elem_of_lookup in Hy as [j Hj]. apply lookup_take_Some in Hj as [Hj Hji].
  apply (sorted_lookup l j i y x Hs Hj Hi). lia.
Qed.

Lemma has_rank_perm l h i x : l ≡ₚ h → has_rank l i x → has_rank h i x.
Proof. intros Hp. unfold has_rank, len. by rewrite Hp. Qed.

Lemma sample_at_ok l i : 0 ≤ i < len l → ∃ x, sample_at l i = Ok x ∧ l !! Z.to_nat i = Some x.
Proof.
  intros Hi. unfold sample_at. destruct (Z.ltb_spec i 0); [lia|].
  destruct (lookup_lt_is_Some_2 l (Z.to_nat i)) as [x Hx]; [unfold len in Hi; lia|]. exists x. by rewrite Hx.
Qed.

(** Sums that fit in 64 bits. *)
Definition sum_of (l : list Z) : Z := foldr Z.add 0 l.

Lemma sum_of_perm l h : l ≡ₚ h → sum_of l = sum_of h.
Proof. unfold sum_of. induction 1; simpl; lia. Qed.

Lemma sum_of_nonneg l : Forall (Z.le 0) l → 0 ≤ sum_of l.
Proof. unfold sum_of. induction 1; simpl; lia. Qed.

Lemma sum_samples_from l s : Forall (Z.le 0) l → 0 ≤ s → s + sum_of l < 2 ^ 63 → foldl (λ sum d, i64 (sum + d)) s l = s + sum_of l.
Proof.
  intros Hf. revert s. induction Hf as [|d l Hd Hf IH]; intros s Hs Hlt; simpl in *; [lia|].
  pose proof (sum_of_nonneg l Hf). unfold sum_of in *. rewrite i64_small by lia. rewrite IH by lia. lia.
Qed.

Lemma sum_of_bounds l a b : Forall (λ x, a ≤ x ≤ b) l → len l * a ≤ sum_of l ≤ len l * b.
Proof. unfold sum_of. induction 1 as [|x l Hx Hf IH]; [unfold len; simpl; lia|]. rewrite len_cons. simpl. nia. Qed.

(** The statistics are samples at fixed places of the sorted latencies. *)
Lemma Histogram_Stats_samples (h : list Z) :
  h ≠ [] → len h < 2 ^ 50 →
  let l := merge_sort Z.le h in
  ∃ s, Histogram_Stats h = Ok s ∧ ls_Mean s = Z.quot (sum_samples l) (len h) ∧
    l !! Z.to_nat 0 = Some (ls_Min s) ∧ l !! Z.to_nat (len h - 1) = Some (ls_Max s) ∧
    l !! Z.to_nat (len h * 50 / 100) = Some (ls_P50 s) ∧ l !! Z.to_nat (len h * 95 / 100) = Some (ls_P95 s) ∧
    l !! Z.to_nat (len h * 99 / 100) = Some (ls_P99 s) ∧ l !! Z.to_nat (len h * 999 / 1000) = Some (ls_P999 s).
Proof.
  intros Hne Hlen l. unfold Histogram_Stats. fold l.
  assert (Hl : len l = len h) by (unfold l, len; by rewrite (merge_sort_Permutation Z.le h)).
  assert (Hpos : 0 < len h) by (destruct h; [done|rewrite len_cons; pose proof (len_nonneg h); lia]).
  destruct (Z.eqb_spec (len h) 0); [lia|]. rewrite Hl, !i64_small by lia.
  rewrite (Z.quot_div_nonneg (len h * 50)), (Z.quot_div_nonneg (len h * 95)), (Z.quot_div_nonneg (len h * 99)), (Z.quot_div_nonneg (len h * 999)) by lia.
  assert (Hidx : ∀ a b, 0 < b → 0 ≤ a < b → 0 ≤ len h * a / b < len l).
  { intros a b Hb Ha. rewrite Hl. split; [apply Z.div_pos; nia|]. apply Z.div_lt_upper_bound; nia. }
  destruct (sample_at_ok l 0) as (x0 & -> & H0); [lia|]. destruct (sample_at_ok l (len h - 1)) as (x1 & -> & H1); [lia|].
  destruct (sample_at_ok l (len h * 50 / 100)) as (x50 & -> & H50); [apply Hidx; lia|].
  destruct (sample_at_ok l (len h * 95 / 100)) as (x95 & -> & H95); [apply Hidx; lia|].
  destruct (sample_at_ok l (len h * 99 / 100)) as (x99 & -> & H99); [apply Hidx; lia|].
  destruct (sample_at_ok l (len h * 999 / 1000)) as (x999 & -> & H999); [apply Hidx; lia|].
  eexists. split; [reflexivity|]. done.
Qed.

Lemma Histogram_Stats_ok (h : list Z) : len h < 2 ^ 50 → ∃ s, Histogram_Stats h = Ok s.
Proof.
  intros Hl. destruct h as [|x h]; [by eexists|].
  destruct (Histogram_Stats_samples (x :: h)) as (s & E & _); [done|done|]. by exists s.
Qed.

(** C40: the statistics of any recorded latencies are computed without an index out of range,
    and each of them is the sample of its rank, so they are in order; when the latencies are
    not negative and their sum fits in 64 bits the mean lies between the smallest and the
    largest. *)
Theorem latency_stats_ranks (h : list Z) :
  h ≠ [] → len h < 2 ^ 50 →
  ∃ s, Histogram_Stats h = Ok s ∧
    has_rank h 0 (ls_Min s) ∧ has_rank h (len h - 1) (ls_Max s) ∧
    has_rank h (len h * 50 / 100) (ls_P50 s) ∧ has_rank h (len h * 95 / 100) (ls_P95 s) ∧
    has_rank h (len h * 99 / 100) (ls_P99 s) ∧ has_rank h (len h * 999 / 1000) (ls_P999 s) ∧
    ls_Min s ≤ ls_P50 s ≤ ls_P95 s ∧ ls_P95 s ≤ ls_P99 s ≤ ls_P999 s ∧ ls_P999 s ≤ ls_Max s ∧
    (Forall (Z.le 0) h → sum_of h < 2 ^ 63 → ls_Min s ≤ ls_Mean s ≤ ls_Max s).
Proof.
  intros Hne Hlen. destruct (Histogram_Stats_samples h Hne Hlen) as (s & E & Em & H0 & H1 & H50 & H95 & H99 & H999).
  exists s. split; [done|]. pose proof (merge_sort_Permutation Z.le h) as Hp.
  assert (Hs : StronglySorted Z.le (merge_sort Z.le h)) by (apply StronglySorted_merge_sort; apply _).
  set (l := merge_sort Z.le h) in *. assert (Hpos : 0 < len h) by (destruct h; [done|rewrite len_cons; pose proof (len_nonneg h); lia]).
  assert (Hrank : ∀ i x, 0 ≤ i → l !! Z.to_nat i = Some x → has_rank h i x).
  { intros i x Hi Hx. apply (has_rank_perm l); [done|]. rewrite <-(Z2Nat.id i) by lia. by apply sorted_rank. }
  assert (Hle : ∀ i j x y, 0 ≤ i → i ≤ j → l !! Z.to_nat i = Some x → l !! Z.to_nat j = Some y → x ≤ y).
  { intros i j x y Hi Hij Hx Hy. apply (sorted_lookup l _ _ x y Hs Hx Hy). lia. }
  assert (H5 : 0 ≤ len h * 50 / 100) by (apply Z.div_pos; lia).
  assert (H6 : len h * 50 / 100 ≤ len h * 95 / 100) by (apply Z.div_le_mono; lia).
  assert (H7 : len h * 95 / 100 ≤ len h * 99 / 100) by (apply Z.div_le_mono; lia).
  assert (H8 : len h * 99 / 100 ≤ len h * 999 / 1000).
  { rewrite <-(Z.div_mul_cancel_r (len h * 99) 100 10) by lia. apply Z.div_le_mono; lia. }
  assert (H9 : len h * 999 / 1000 ≤ len h - 1) by (apply Z.lt_le_pred, Z.div_lt_upper_bound; lia).
  split_and!; try (apply Hrank; [lia|done]); try (eapply Hle; [| |eassumption..]; lia).
  intros Hnn Hsum. rewrite Em. unfold sum_samples. rewrite sum_samples_from, (sum_of_perm l h), Z.add_0_l; [|done|by rewrite Hp|lia|by rewrite (sum_of_perm l h)].
  assert (Hb : Forall (λ x, ls_Min s ≤ x ≤ ls_Max s) h).
  { rewrite <-Hp. apply Forall_forall. intros x Hx. apply list_elem_of_lookup in Hx as [j Hj].
    pose proof (lookup_lt_Some _ _ _ Hj) as Hlt. rewrite Hp in Hlt. unfold len in *. split.
    - apply (sorted_lookup l _ _ _ _ Hs H0 Hj). lia.
    - apply (sorted_lookup l _ _ _ _ Hs Hj H1). lia. }
  apply sum_of_bounds in Hb. pose proof (sum_of_nonneg h Hnn). rewrite Z.quot_div_nonneg by lia.
  split; [apply Z.div_le_lower_bound; lia|apply Z.div_le_upper_bound; lia].
Qed.

Lemma latency_stats_ranks_witness :
  ∃ s, Histogram_Stats [30; 10; 20; 40] = Ok s ∧ ls_Min s = 10 ∧ ls_P50 s = 30 ∧ ls_P999 s = 40 ∧ ls_Min s ≤ ls_Mean s ≤ ls_Max s.
Proof.
  destruct (latency_stats_ranks [30; 10; 20; 40]) as (s & E & _ & _ & _ & _ & _ & _ & _ & _ & _ & Hm); [done|by vm_compute|].
  exists s. split; [exact E|]. vm_compute in E. injection E as <-. split_and!; try reflexivity; apply Hm; repeat constructor; done.
Defined.
