(* ===== verification/Bench.v ===== *)
(** The benchmark harness ([src/common/benchmark/framework.go], [compare.go]): a client of
    the engines, proved against their interface. *)
From stdpp Require Import base gmap list strings numbers sorting.
From S2P Require Import Prelude GoLib Common HashSegment HashIndex HashRecovery HashTheorems BenchKeys.

Open Scope Z_scope.

(** ** Configurations *)

Definition WorkloadWriteHeavy : string := "write-heavy".
Definition WorkloadReadHeavy : string := "read-heavy".
Definition WorkloadBalanced : string := "balanced".
Definition WorkloadReadOnly : string := "read-only".
Definition WorkloadWriteOnly : string := "write-only".

(** Durations are in nanoseconds. *)
Record BenchConfig := MkBenchConfig {
  bc_Name : string;
  bc_WorkloadType : string;
  bc_KeyDistribution : string;
  bc_NumKeys : Z;
  bc_KeySize : Z;
  bc_ValueSize : Z;
  bc_Duration : Z;
  bc_Concurrency : Z;
  bc_PreloadKeys : Z;
  bc_Seed : Z;
}.

Definition seconds (n : Z) : Z := n * 10 ^ 9.

Definition StandardWorkloads : list BenchConfig := [
  MkBenchConfig "write-heavy-uniform" WorkloadWriteHeavy DistUniform 1000000 16 100 (seconds 60) 8 100000 12345;
  MkBenchConfig "read-heavy-zipfian" WorkloadReadHeavy DistZipfian 1000000 16 100 (seconds 60) 8 500000 12345;
  MkBenchConfig "balanced-uniform" WorkloadBalanced DistUniform 1000000 16 100 (seconds 60) 8 100000 12345;
  MkBenchConfig "write-only-sequential" WorkloadWriteOnly DistSequential 1000000 16 1000 (seconds 30) 1 0 12345].

Definition QuickWorkloads : list BenchConfig := [
  MkBenchConfig "quick-write-heavy" WorkloadWriteHeavy DistUniform 50000 16 100 (seconds 15) 8 5000 12345;
  MkBenchConfig "quick-balanced" WorkloadBalanced DistUniform 50000 16 100 (seconds 15) 8 10000 12345;
  MkBenchConfig "quick-read-heavy" WorkloadReadHeavy DistZipfian 50000 16 100 (seconds 15) 8 30000 12345].

(** The workloads a comparison runs. *)
Record ComparisonSuite := MkSuite { cs_configs : list BenchConfig }.

Definition NewComparisonSuite : ComparisonSuite := MkSuite StandardWorkloads.
Definition SetWorkloads (configs : list BenchConfig) (cs : ComparisonSuite) : ComparisonSuite := MkSuite configs.

(** ** The mix of operations *)

(** [randFloat] counts; it is the quotient of its numerator by 10000. *)
Definition randFloat (randSeed : Z) : Z * Z :=
  let c := i64 (randSeed + 1) in (c, Z.rem c 10000).

(** The float comparisons with 0.95, 0.05 and 0.50 compare the numerators: the quotients are
    rounded correctly and the bounds are the roundings of 9500, 500 and 5000 ten-thousandths. *)
Definition shouldWrite (workloadType : string) (randSeed : Z) : Z * bool :=
  if String.eqb workloadType WorkloadWriteOnly then (randSeed, true)
  else if String.eqb workloadType WorkloadReadOnly then (randSeed, false)
  else
    let '(randSeed, r) := randFloat randSeed in
    if String.eqb workloadType WorkloadWriteHeavy then (randSeed, r <? 9500)
    else if String.eqb workloadType WorkloadReadHeavy then (randSeed, r <? 500)
    else (randSeed, r <? 5000).

(** ** The harness over an engine *)

(** [Stats] of the engine interface. *)
Class EngineStats (T : Type) := engine_Stats : T → Stats.

(** One operation of a worker: the worker's value, what the key generator draws, and how long
    the call takes. *)
Record Tick := MkTick {
  tk_value : bytes;
  tk_draw : Draw;
  tk_latency : Z;
}.

(** The results; a rate is a fraction (numerator, denominator). *)
Record Result := MkResult {
  rs_Config : BenchConfig;
  rs_TotalOps : Z;
  rs_WriteOps : Z;
  rs_ReadOps : Z;
  rs_Duration : Z;
  rs_OpsPerSec : Z * Z;
  rs_WriteLatency : LatencyStats;
  rs_ReadLatency : LatencyStats;
  rs_WriteAmplification : Z * Z;
  rs_SpaceAmplification : Z * Z;
  rs_TotalDiskMB : Z * Z;
  rs_EngineStats : Stats;
}.

Section harness.
Context {T : Type} `{!StorageEngine T, !EngineStats T}.

Record Benchmark := MkBenchmark {
  bm_engine : T;
  bm_config : BenchConfig;
  bm_writeLatencies : LatencyHistogram;
  bm_readLatencies : LatencyHistogram;
  bm_writeCount : Z;
  bm_readCount : Z;
  bm_errorCount : Z;
  bm_keyGen : KeyGenerator;
  bm_randSeed : Z;
}.

Definition NewBenchmark (engine : T) (config : BenchConfig) : Benchmark :=
  MkBenchmark engine config NewLatencyHistogram NewLatencyHistogram 0 0 0
    (NewKeyGenerator (bc_NumKeys config) (bc_KeySize config) (bc_KeyDistribution config)) 0.

Definition set_engine (s : T) (b : Benchmark) : Benchmark :=
  MkBenchmark s (bm_config b) (bm_writeLatencies b) (bm_readLatencies b) (bm_writeCount b) (bm_readCount b)
    (bm_errorCount b) (bm_keyGen b) (bm_randSeed b).
Definition set_keyGen (kg : KeyGenerator) (b : Benchmark) : Benchmark :=
  MkBenchmark (bm_engine b) (bm_config b) (bm_writeLatencies b) (bm_readLatencies b) (bm_writeCount b) (bm_readCount b)
    (bm_errorCount b) kg (bm_randSeed b).
Definition set_randSeed (c : Z) (b : Benchmark) : Benchmark :=
  MkBenchmark (bm_engine b) (bm_config b) (bm_writeLatencies b) (bm_readLatencies b) (bm_writeCount b) (bm_readCount b)
    (bm_errorCount b) (bm_keyGen b) c.
Definition tally_error (b : Benchmark) : Benchmark :=
  MkBenchmark (bm_engine b) (bm_config b) (bm_writeLatencies b) (bm_readLatencies b) (bm_writeCount b) (bm_readCount b)
    (i64 (bm_errorCount b + 1)) (bm_keyGen b) (bm_randSeed b).
Definition tally_write (latency : Z) (b : Benchmark) : Benchmark :=
  MkBenchmark (bm_engine b) (bm_config b) (Histogram_Record (bm_writeLatencies b) latency) (bm_readLatencies b)
    (i64 (bm_writeCount b + 1)) (bm_readCount b) (bm_errorCount b) (bm_keyGen b) (bm_randSeed b).
Definition tally_read (latency : Z) (b : Benchmark) : Benchmark :=
  MkBenchmark (bm_engine b) (bm_config b) (bm_writeLatencies b) (Histogram_Record (bm_readLatencies b) latency)
    (bm_writeCount b) (i64 (bm_readCount b + 1)) (bm_errorCount b) (bm_keyGen b) (bm_randSeed b).

Definition doWrite (b : Benchmark) (t : Tick) : res Benchmark :=
  let '(kg, r) := NextKey (bm_keyGen b) (tk_draw t) in
  key ← r;
  let '(s, r) := se_Put (bm_engine b) key (tk_value t) in
  let b := set_engine s (set_keyGen kg b) in
  match r with
  | Ok _ => Ok (tally_write (tk_latency t) b)
  | Err _ => Ok (tally_error b)
  | Panic => Panic
  end.

Definition doRead (b : Benchmark) (t : Tick) : res Benchmark :=
  let '(kg, r) := NextKey (bm_keyGen b) (tk_draw t) in
  key ← r;
  let '(s, r) := se_Get (bm_engine b) key in
  let b := set_engine s (set_keyGen kg b) in
  match r with
  | Ok _ => Ok (tally_read (tk_latency t) b)
  | Err e => Ok (if bool_decide (e = ErrKeyNotFound) then tally_read (tk_latency t) b else tally_error b)
  | Panic => Panic
  end.

(** One round of a worker's loop. *)
Definition work (b : Benchmark) (t : Tick) : res Benchmark :=
  let '(c, write) := shouldWrite (bc_WorkloadType (bm_config b)) (bm_randSeed b) in
  let b := set_randSeed c b in
  if write then doWrite b t else doRead b t.

(** The workers until they are stopped: their rounds in the order they happen. *)
Fixpoint runWorkload (b : Benchmark) (ts : list Tick) : res Benchmark :=
  match ts with
  | [] => Ok b
  | t :: ts => b ← work b t; runWorkload b ts
  end.

(** The loop of [preload] from key [i] on. *)
Fixpoint preload_from (b : Benchmark) (value : bytes) (i : Z) (n : nat) : Benchmark * res unit :=
  match n with
  | O => (b, se_Sync (bm_engine b))
  | S n =>
      match GenerateSequential (bm_keyGen b) i with
      | Ok key =>
          let '(s, r) := se_Put (bm_engine b) key value in
          let b := set_engine s b in
          match r with
          | Ok _ => preload_from b value (i + 1) n
          | r => (b, r)
          end
      | Err e => (b, Err e)
      | Panic => (b, Panic)
      end
  end.

Definition preload (b : Benchmark) (value : bytes) : Benchmark * res unit :=
  preload_from b value 0 (Z.to_nat (bc_PreloadKeys (bm_config b))).

Definition reset_metrics (b : Benchmark) : Benchmark :=
  MkBenchmark (bm_engine b) (bm_config b) NewLatencyHistogram NewLatencyHistogram 0 0 0 (bm_keyGen b) (bm_randSeed b).

Definition calculateResults (b : Benchmark) (duration : Z) (endStats : Stats) : res Result :=
  let totalOps := i64 (bm_writeCount b + bm_readCount b) in
  writeLatency ← Histogram_Stats (bm_writeLatencies b);
  readLatency ← Histogram_Stats (bm_readLatencies b);
  Ok (MkResult (bm_config b) totalOps (bm_writeCount b) (bm_readCount b) duration (totalOps * 10 ^ 9, duration)
        writeLatency readLatency (WriteAmp endStats) (SpaceAmp endStats) (TotalDiskSize endStats, 1024 * 1024) endStats).

(** [Run]: the value of the preload, the rounds of the warm-up and of the measured phase, and
    the time the latter takes. *)
Definition Run (b : Benchmark) (value : bytes) (warmup measured : list Tick) (duration : Z) : Benchmark * res Result :=
  let '(b, r) := if 0 <? bc_PreloadKeys (bm_config b) then preload b value else (b, Ok tt) in
  match r with
  | Err e => (b, Err e)
  | Panic => (b, Panic)
  | Ok _ =>
      match runWorkload b warmup with
      | Ok b1 =>
          match runWorkload (reset_metrics b1) measured with
          | Ok b2 => (b2, calculateResults b2 duration (engine_Stats (bm_engine b2)))
          | Err e => (b1, Err e)
          | Panic => (b1, Panic)
          end
      | Err e => (b, Err e)
      | Panic => (b, Panic)
      end
  end.

(** ** Comparing engines *)

(** What a run does not compute itself: the random value of the preload, the rounds of the
    workers and the time they take. *)
Record RunInputs := MkRunInputs {
  ri_value : bytes;
  ri_warmup : list Tick;
  ri_measured : list Tick;
  ri_duration : Z;
}.

(** The loop over the configurations, on one engine; a run that fails is left out. *)
Fixpoint run_configs (engine : T) (configs : list (BenchConfig * RunInputs)) : T * res (list Result) :=
  match configs with
  | [] => (engine, Ok [])
  | (config, i) :: configs =>
      let '(b, r) := Run (NewBenchmark engine config) (ri_value i) (ri_warmup i) (ri_measured i) (ri_duration i) in
      match r with
      | Panic => (bm_engine b, Panic)
      | _ =>
          let '(engine, results) := run_configs (bm_engine b) configs in
          (engine, (λ l, match r with Ok result => result :: l | _ => l end) <$> results)
      end
  end.

(** The engines in the order [range] visits their map; [inputs] are those of each run. *)
Fixpoint RunComparison (cs : ComparisonSuite) (inputs : string → nat → RunInputs) (engines : list (string * T))
    : res (gmap string (list Result)) :=
  match engines with
  | [] => Ok ∅
  | (name, engine) :: engines =>
      results ← (run_configs engine (imap (λ i config, (config, inputs name i)) (cs_configs cs))).2;
      rest ← RunComparison cs inputs engines;
      Ok (<[name := results]> rest)
  end.
End harness.
Arguments Benchmark : clear implicits.

(** ** The mix of operations is exact *)

(** The writes among [n] rounds, from a counter on. *)
Fixpoint count_writes (workloadType : string) (seed : Z) (n : nat) : Z :=
  match n with
  | O => 0
  | S n =>
      let '(seed, write) := shouldWrite workloadType seed in
      (if write then 1 else 0) + count_writes workloadType seed n
  end.

(** Writes among 10000 rounds. *)
Definition write_share (workloadType : string) : Z :=
  if String.eqb workloadType WorkloadWriteOnly then 10000
  else if String.eqb workloadType WorkloadReadOnly then 0
  else if String.eqb workloadType WorkloadWriteHeavy then 9500
  else if String.eqb workloadType WorkloadReadHeavy then 500
  else 5000.

(** The counter counts. *)
Definition counts (workloadType : string) : bool :=
  negb (String.eqb workloadType WorkloadWriteOnly) && negb (String.eqb workloadType WorkloadReadOnly).

Lemma shouldWrite_eq ty seed :
  0 ≤ seed → seed + 1 < 2 ^ 63 →
  shouldWrite ty seed = if counts ty then (seed + 1, (seed + 1) mod 10000 <? write_share ty) else (seed, 0 <? write_share ty).
Proof.
  intros H0 H1. unfold shouldWrite, counts, write_share, randFloat. rewrite i64_small, Z.rem_mod_nonneg by lia.
  destruct (String.eqb ty WorkloadWriteOnly); [done|]. destruct (String.eqb ty WorkloadReadOnly); [done|]. cbn [negb andb].
  destruct (String.eqb ty WorkloadWriteHeavy); [done|]. by destruct (String.eqb ty WorkloadReadHeavy).
Qed.

(** The numbers of [seed + 1 .. seed + n] whose residue is below a bound. *)
Fixpoint count_below (t seed : Z) (n : nat) : Z :=
  match n with
  | O => 0
  | S n => (if (seed + 1) mod 10000 <? t then 1 else 0) + count_below t (seed + 1) n
  end.

Lemma count_below_add t n : ∀ seed k, count_below t seed (n + k) = count_below t seed n + count_below t (seed + Z.of_nat n) k.
Proof.
  induction n as [|n IH]; intros seed k; cbn [count_below Nat.add]; [by rewrite Z.add_0_r|].
  rewrite IH. replace (seed + 1 + Z.of_nat n) with (seed + Z.of_nat (S n)) by lia. lia.
Qed.

Lemma count_below_one t seed : count_below t seed 1 = if (seed + 1) mod 10000 <? t then 1 else 0.
Proof. cbn [count_below]. lia. Qed.

(** A window of one period does not depend on where it starts. *)
Lemma count_below_shift t seed n : Z.of_nat n = 10000 → count_below t (seed + 1) n = count_below t seed n.
Proof.
  intros Hn. pose proof (count_below_add t 1 seed n) as H1. pose proof (count_below_add t n seed 1) as H2.
  rewrite Nat.add_comm in H2. rewrite H1, !count_below_one, Hn in H2. change (Z.of_nat 1) with 1 in H2.
  replace ((seed + 10000 + 1) mod 10000) with ((seed + 1) mod 10000) in H2; [lia|].
  replace (seed + 10000 + 1) with (seed + 1 + 1 * 10000) by lia. by rewrite Z.mod_add.
Qed.

Lemma count_below_start t seed n : 0 ≤ seed → Z.of_nat n = 10000 → count_below t seed n = count_below t 0 n.
Proof.
  intros Hs Hn. revert seed Hs. apply natlike_ind; [done|]. intros seed Hs IH. unfold Z.succ. by rewrite count_below_shift.
Qed.

Lemma count_below_period ty seed :
  0 ≤ seed → counts ty = true → count_below (write_share ty) seed (Z.to_nat 10000) = write_share ty.
Proof.
  intros Hs Hc. rewrite count_below_start by done. unfold write_share, counts in *.
  destruct (String.eqb ty WorkloadWriteOnly); [done|]. destruct (String.eqb ty WorkloadReadOnly); [done|].
  destruct (String.eqb ty WorkloadWriteHeavy); [by vm_compute|]. destruct (String.eqb ty WorkloadReadHeavy); by vm_compute.
Qed.

Lemma count_writes_below ty n : ∀ seed,
  0 ≤ seed → seed + Z.of_nat n < 2 ^ 63 → counts ty = true → count_writes ty seed n = count_below (write_share ty) seed n.
Proof.
  induction n as [|n IH]; intros seed Hs Hn Hc; [done|]. cbn [count_writes count_below].
  rewrite shouldWrite_eq, Hc by lia. rewrite IH; [done|lia..|done].
Qed.

Lemma count_writes_constant ty n : ∀ seed,
  0 ≤ seed → seed + 1 < 2 ^ 63 → counts ty = false → count_writes ty seed n = if 0 <? write_share ty then Z.of_nat n else 0.
Proof.
  induction n as [|n IH]; intros seed Hs Hn Hc; cbn [count_writes]; [by destruct (_ <? _)|].
  rewrite shouldWrite_eq, Hc, IH by done. destruct (0 <? write_share ty); lia.
Qed.

(** C38: over any [10000 q] consecutive rounds, wherever the counter stands, the operations
    are mixed exactly as the type of the workload says: 9500 writes in 10000 for write-heavy,
    500 for read-heavy, 5000 for balanced, all or none for write-only and read-only. *)
Theorem workload_mix_exact (workloadType : string) (seed q : Z) :
  0 ≤ seed → 0 ≤ q → seed + 10000 * q + 1 < 2 ^ 63 →
  count_writes workloadType seed (Z.to_nat (10000 * q)) = write_share workloadType * q.
Proof.
  intros Hs Hq Hlt. destruct (counts workloadType) eqn:Hc.
  - rewrite count_writes_below by (done || lia). clear Hlt. revert seed Hs. pattern q. apply natlike_ind; [intros; rewrite !Z.mul_0_r; done| |done].
    clear q Hq. intros q Hq IH seed Hs. replace (Z.to_nat (10000 * Z.succ q)) with (Z.to_nat 10000 + Z.to_nat (10000 * q))%nat by lia.
    rewrite count_below_add, count_below_period, IH by (done || lia). lia.
  - rewrite count_writes_constant by (done || lia). unfold counts, write_share in *.
    destruct (String.eqb workloadType WorkloadWriteOnly); [simpl; lia|].
    destruct (String.eqb workloadType WorkloadReadOnly); [simpl; lia|done].
Qed.

Lemma workload_mix_exact_witness : count_writes WorkloadReadHeavy 77 (Z.to_nat (10000 * 1)) = 500.
Proof. rewrite (workload_mix_exact WorkloadReadHeavy 77 1) by lia. reflexivity. Defined.

(** ** A run over an engine *)

(** A configuration whose keys are all different. *)
Definition valid_config (c : BenchConfig) : bool :=
  (14 <=? bc_KeySize c) && (0 <? bc_NumKeys c) && (bc_NumKeys c <? 10 ^ 10) && (0 <=? bc_PreloadKeys c) &&
  (bc_PreloadKeys c <=? bc_NumKeys c).

Lemma standard_configs_valid : forallb valid_config (StandardWorkloads ++ QuickWorkloads) = true.
Proof. reflexivity. Qed.

Section run.
Context {T : Type} `{!StorageEngine T, !EngineStats T} {P : policy}.
Context {fits : bytes → bytes → Prop} {R : T → gmap bytes bytes → Prop}.
Context `{!StoresMap T P fits R}.
Context (c : BenchConfig) (Hvalid : valid_config c = true).
Context (Hfits : ∀ k v, len k = bc_KeySize c → len v = bc_ValueSize c → fits k v).
Context (Hnorm : ∀ v, len v = bc_ValueSize c → is_Some (pol_norm P v)).

Implicit Types (b : Benchmark T) (m : gmap bytes bytes).

Lemma valid_bounds :
  14 ≤ bc_KeySize c ∧ 0 < bc_NumKeys c < 10 ^ 10 ∧ 0 ≤ bc_PreloadKeys c ≤ bc_NumKeys c.
Proof using Hvalid. unfold valid_config in Hvalid. rewrite !andb_true_iff in Hvalid. lia. Qed.

(** The keys the harness uses. *)
Definition bench_key (k : bytes) : Prop := ∃ n, 0 ≤ n ≤ bc_NumKeys c ∧ formatKey (bc_KeySize c) n = Ok k.

Lemma bench_key_exists n : 0 ≤ n ≤ bc_NumKeys c → ∃ k, formatKey (bc_KeySize c) n = Ok k ∧ bench_key k.
Proof using Hvalid.
  intros Hn. destruct valid_bounds as (Hk & Hnum & _). destruct (Z.eq_dec n (bc_NumKeys c)) as [->|Hne].
  - destruct (formatKey_long (bc_KeySize c) (bc_NumKeys c)) as (pad & E & _); [lia..|]. eexists. split; [exact E|]. eexists. split; [|exact E]. lia.
  - destruct (formatKey_long (bc_KeySize c) n) as (pad & E & _); [lia..|]. eexists. split; [exact E|]. by exists n.
Qed.

Lemma bench_key_ok k : bench_key k → len k = bc_KeySize c ∧ refused P k = false.
Proof using Hvalid.
  intros (n & Hn & E). destruct valid_bounds as (Hk & Hnum & _). destruct (formatKey_long (bc_KeySize c) n) as (pad & E' & Hp); [lia..|].
  assert (k = user_prefix ++ numeral 10 n ++ pad) as -> by congruence. split.
  - rewrite !len_app, Hp. unfold len. rewrite length_numeral. simpl. lia.
  - unfold refused. apply andb_false_intro2. done.
Qed.

(** What a put does to the map. *)
Lemma put_accepted s m k v :
  R s m → bench_key k → len v = bc_ValueSize c →
  ∃ s' x, se_Put s k v = (s', Ok tt) ∧ R s' (<[k := x]> m) ∧ pol_norm P v = Some x.
Proof using All.
  intros HR Hk Hv. destruct (bench_key_ok k Hk) as [Hl Hr]. destruct (stores_Put s m k v HR (Hfits k v Hl Hv)) as [E HR'].
  unfold store_Put, store_write in *. rewrite Hr in *. destruct (Hnorm v Hv) as [x Hx]. rewrite Hx in HR'.
  destruct (se_Put s k v) as [s' r]. simpl in *. subst r. by exists s', x.
Qed.

(** The preloaded keys up to [n] are bound. *)
Definition preloaded (n : Z) m : Prop :=
  ∀ i k, 0 ≤ i < n → formatKey (bc_KeySize c) i = Ok k → is_Some (m !! k).

Lemma preloaded_insert n m k v : preloaded n m → preloaded n (<[k := v]> m).
Proof using Type. intros Hp i k' Hi E. apply lookup_insert_is_Some'. right. by eapply Hp. Qed.

(** The state between two rounds. *)
Record running b m (w r budget : Z) : Prop := {
  rn_engine : R (bm_engine b) m;
  rn_config : bm_config b = c;
  rn_keys : kg_ok (bc_NumKeys c) (bc_KeySize c) (bc_KeyDistribution c) budget (bm_keyGen b);
  rn_writes : bm_writeCount b = w ∧ len (bm_writeLatencies b) = w;
  rn_reads : bm_readCount b = r ∧ len (bm_readLatencies b) = r;
  rn_errors : bm_errorCount b = 0;
  rn_bound : preloaded (bc_PreloadKeys c) m;
}.

Definition tick_ok (t : Tick) : Prop := len (tk_value t) = bc_ValueSize c ∧ draw_ok (tk_draw t).

Lemma NextKey_ok budget kg d :
  kg_ok (bc_NumKeys c) (bc_KeySize c) (bc_KeyDistribution c) budget kg → draw_ok d → 1 ≤ budget →
  ∃ kg' k, NextKey kg d = (kg', Ok k) ∧ bench_key k ∧
           kg_ok (bc_NumKeys c) (bc_KeySize c) (bc_KeyDistribution c) (budget - 1) kg'.
Proof using Hvalid.
  intros Hkg Hd Hb. destruct valid_bounds as (Hk & Hnum & _).
  destruct (next_keyNum_ok (bc_NumKeys c) (bc_KeySize c) (bc_KeyDistribution c) budget kg d) as (kg' & n & E & Hn & Hkg'); [lia|done..|].
  destruct (bench_key_exists n) as (k & Ek & Hk').
  { unfold key_numbers in Hn. destruct (String.eqb _ _); lia. }
  exists kg', k. unfold NextKey. rewrite E. cbn [mbind res_bind]. by rewrite (ko_keySize _ _ _ _ _ Hkg'), Ek.
Qed.

Lemma round_write_ok b m w r budget t :
  running b m w r budget → tick_ok t → 1 ≤ budget → 0 ≤ w < 2 ^ 62 →
  ∃ b' m', doWrite b t = Ok b' ∧ running b' m' (w + 1) r (budget - 1) ∧ bm_randSeed b' = bm_randSeed b.
Proof using All.
  intros [R1 R2 R3 [R4 R4'] R5 R6 R7] [Hv Hd] Hb Hw. unfold doWrite.
  destruct (NextKey_ok budget (bm_keyGen b) (tk_draw t) R3 Hd Hb) as (kg & k & -> & Hk & Hkg). cbn [mbind res_bind].
  destruct (put_accepted (bm_engine b) m k (tk_value t) R1 Hk Hv) as (s & x & -> & HR & _).
  do 2 eexists. split; [reflexivity|]. split; [|done]. split; cbn; try done.
  - rewrite R4, i64_small by lia. unfold Histogram_Record. rewrite len_app, R4'. done.
  - by apply preloaded_insert.
Qed.

Lemma round_read_ok b m w r budget t :
  running b m w r budget → tick_ok t → 1 ≤ budget → 0 ≤ r < 2 ^ 62 →
  ∃ b', doRead b t = Ok b' ∧ running b' m w (r + 1) (budget - 1) ∧ bm_randSeed b' = bm_randSeed b.
Proof using All.
  intros [R1 R2 R3 R4 [R5 R5'] R6 R7] [Hv Hd] Hb Hr. unfold doRead.
  destruct (NextKey_ok budget (bm_keyGen b) (tk_draw t) R3 Hd Hb) as (kg & k & -> & Hk & Hkg). cbn [mbind res_bind].
  destruct (stores_Get (bm_engine b) m k R1) as [E HR]. destruct (se_Get (bm_engine b) k) as [s a]. simpl in E, HR. subst a.
  assert (Hcount : running (tally_read (tk_latency t) (set_engine s (set_keyGen kg b))) m w (r + 1) (budget - 1)).
  { split; cbn; try done. rewrite R5, i64_small by lia. unfold Histogram_Record. by rewrite len_app, R5'. }
  unfold store_Get. destruct (m !! k); [by eexists|]. rewrite bool_decide_true by done. by eexists.
Qed.

Lemma work_ok b m w r budget t :
  running b m w r budget → tick_ok t → 1 ≤ budget → 0 ≤ w < 2 ^ 62 → 0 ≤ r < 2 ^ 62 →
  ∃ b' m', work b t = Ok b' ∧
    let '(seed, write) := shouldWrite (bc_WorkloadType c) (bm_randSeed b) in
    running b' m' (w + if write : bool then 1 else 0) (r + if write then 0 else 1) (budget - 1) ∧ bm_randSeed b' = seed.
Proof using All.
  intros Hb Ht Hbudget Hw Hr. unfold work. rewrite (rn_config _ _ _ _ _ Hb).
  destruct (shouldWrite (bc_WorkloadType c) (bm_randSeed b)) as [seed write].
  assert (Hb' : running (set_randSeed seed b) m w r budget) by (destruct Hb; by split).
  destruct write.
  - destruct (round_write_ok _ m w r budget t Hb' Ht Hbudget Hw) as (b' & m' & -> & H & E). exists b', m'. by rewrite Z.add_0_r.
  - destruct (round_read_ok _ m w r budget t Hb' Ht Hbudget Hr) as (b' & -> & H & E). exists b', m. by rewrite Z.add_0_r.
Qed.

(** The counter after some rounds. *)
Definition seed_after (seed n : Z) : Z := if counts (bc_WorkloadType c) then seed + n else seed.

Lemma runWorkload_ok ts : ∀ b m w r budget,
  running b m w r budget → Forall tick_ok ts → len ts ≤ budget →
  0 ≤ w → 0 ≤ r → w + r + len ts < 2 ^ 62 → 0 ≤ bm_randSeed b → bm_randSeed b + len ts + 1 < 2 ^ 63 →
  ∃ b' m', runWorkload b ts = Ok b' ∧
    let n := count_writes (bc_WorkloadType c) (bm_randSeed b) (length ts) in
    0 ≤ n ≤ len ts ∧ running b' m' (w + n) (r + (len ts - n)) (budget - len ts) ∧
    bm_randSeed b' = seed_after (bm_randSeed b) (len ts).
Proof using All.
  induction ts as [|t ts IH]; intros b m w r budget Hb Hts Hbudget Hw Hr Hwr Hs Hlt.
  { exists b, m. split; [done|]. cbn [length count_writes]. unfold seed_after. change (len []) with 0.
    replace (w + 0) with w by lia. replace (r + (0 - 0)) with r by lia. replace (budget - 0) with budget by lia.
    split; [lia|]. split; [done|]. destruct (counts _); lia. }
  apply Forall_cons in Hts as [Ht Hts]. rewrite len_cons in *. pose proof (len_nonneg ts). cbn [runWorkload length count_writes].
  destruct (work_ok b m w r budget t Hb Ht) as (b1 & m1 & -> & Hb1); [lia..|]. cbn [mbind res_bind].
  rewrite shouldWrite_eq in Hb1 |- * by lia.
  set (write := if counts _ then _ else _ : Z * bool) in *.
  assert (Hwrite : 0 ≤ write.1 ∧ write.1 ≤ bm_randSeed b + 1 ∧ write.1 = seed_after (bm_randSeed b) 1)
    by (unfold write, seed_after; destruct (counts _); simpl; lia).
  destruct write as [seed wr]. destruct Hb1 as [Hb1 Es]. simpl in Hwrite.
  destruct (IH b1 m1 _ _ _ Hb1 Hts) as (b2 & m2 & -> & Hn & Hb2 & Es2); rewrite ?Es; [destruct wr; lia..|].
  exists b2, m2. split; [done|]. cbv zeta. rewrite Es in *. set (n := count_writes _ _ _) in *. split; [destruct wr; lia|]. split.
  - replace (w + ((if wr then 1 else 0) + n)) with (w + (if wr then 1 else 0) + n) by lia.
    replace (r + (1 + len ts - ((if wr then 1 else 0) + n))) with (r + (if wr then 0 else 1) + (len ts - n)) by (destruct wr; lia).
    replace (budget - (1 + len ts)) with (budget - 1 - len ts) by lia. done.
  - rewrite Es2. destruct Hwrite as (_ & _ & ->). unfold seed_after. destruct (counts _); lia.
Qed.

(** Every key of the preload is put. *)
Lemma preload_ok value n : ∀ b m i,
  len value = bc_ValueSize c → R (bm_engine b) m → 0 ≤ i → i + Z.of_nat n = bc_PreloadKeys c →
  kg_keySize (bm_keyGen b) = bc_KeySize c → preloaded i m →
  ∃ s m', preload_from b value i n = (set_engine s b, Ok tt) ∧ R s m' ∧ preloaded (bc_PreloadKeys c) m'.
Proof using All.
  destruct valid_bounds as (Hk & Hnum & Hpre).
  induction n as [|n IH]; intros b m i Hv HR Hi Hin Hks Hp; cbn [preload_from].
  - exists (bm_engine b), m. rewrite (stores_Sync _ _ HR). split; [by destruct b|]. split; [done|].
    by replace (bc_PreloadKeys c) with i by lia.
  - destruct (bench_key_exists i) as (k & Ek & Hbk); [lia|]. unfold GenerateSequential. rewrite Hks, Ek.
    destruct (put_accepted (bm_engine b) m k value HR Hbk Hv) as (s & x & -> & HR' & _).
    destruct (IH (set_engine s b) (<[k := x]> m) (i + 1)) as (s' & m' & -> & HR2 & Hp2); [done|done|lia|lia|done| |].
    + intros j k' Hj Ek'. destruct (Z.eq_dec j i) as [->|Hne].
      * assert (k' = k) as -> by congruence. rewrite lookup_insert_eq. by eexists.
      * eapply preloaded_insert; [exact Hp| |exact Ek']. lia.
    + exists s', m'. done.
Qed.
End run.


(** ** A run over the hash engine *)

#[local] Hint Extern 0 (StorageEngine HashIndex) =>
  exact (hash_engine demo_time) : typeclass_instances.
#[local] Instance hash_stats : EngineStats HashIndex := HashIndex_Stats.

Definition tiny_config : BenchConfig := MkBenchConfig "tiny" WorkloadReadHeavy DistUniform 10 14 2 (seconds 1) 1 2 12345.
Definition tiny_tick : Tick := MkTick [7; 8] largest_draw 5.

Lemma tiny_tick_ok : tick_ok tiny_config tiny_tick.
Proof. split; [done|apply largest_draw_ok]. Qed.


(** A benchmark reads its mix off a counter: a read-heavy workload starts with 499 writes. *)
Example read_heavy_starts_with_writes : count_writes WorkloadReadHeavy 0 (Z.to_nat 499) = 499.
Proof. vm_compute. reflexivity. Qed.
