(* ===== verification/BenchTable.v ===== *)
(** What the comparison prints ([src/common/benchmark/compare.go]): the cells of its reports and
    tables, before they are formatted. *)
From stdpp Require Import base gmap list strings numbers sorting.
From S2P Require Import Prelude GoLib Common BenchKeys Bench.

Open Scope Z_scope.

(** A cell: a text, a count, or a fraction that a float format rounds. *)
Inductive cell :=
| Text (s : string)
| Count (n : Z)
| Ratio (q : Z * Z).

#[global] Instance cell_eq_dec : EqDecision cell.
Proof. solve_decision. Defined.

Abbreviation line := (list cell).

(** [Duration.Microseconds]. *)
Definition Microseconds (d : Z) : Z := Z.quot d 1000.

(** ** One result *)

Definition latency_lines (title : string) (l : LatencyStats) : list line :=
  [[Text title]; [Text "p50"; Count (Microseconds (ls_P50 l))]; [Text "p95"; Count (Microseconds (ls_P95 l))];
   [Text "p99"; Count (Microseconds (ls_P99 l))]; [Text "p999"; Count (Microseconds (ls_P999 l))]].

Definition printResult (r : Result) : list line :=
  [[Text "Results for"; Text (bc_Name (rs_Config r))]; [Text "Throughput"; Ratio (rs_OpsPerSec r)];
   [Text "Total Ops"; Count (rs_TotalOps r); Count (rs_WriteOps r); Count (rs_ReadOps r)]] ++
  (if 0 <? rs_WriteOps r then latency_lines "Write Latency" (rs_WriteLatency r) else []) ++
  (if 0 <? rs_ReadOps r then latency_lines "Read Latency" (rs_ReadLatency r) else []) ++
  [[Text "Amplification"]; [Text "Write"; Ratio (rs_WriteAmplification r)]; [Text "Space"; Ratio (rs_SpaceAmplification r)];
   [Text "Disk Usage"; Ratio (rs_TotalDiskMB r)]].

(** ** The tables *)

(** One table: a header of the engines, and a row of their results for each workload.
    [order n] is the order in which the [n]-th [range] over the map visits the engines: Go
    chooses it anew for the header and for each row. *)
Section table.
Context (results : gmap string (list Result)) (order : nat → list string).

Definition results_of (engine : string) : list Result := default [] (results !! engine).

(** The cell of an engine in row [i], and what stands for a result that is missing. *)
Definition row_cells (show : Result → option cell) (missing : line) (i : nat) (engine : string) : line :=
  match results_of engine !! i with
  | Some r => match show r with Some c => [c] | None => missing end
  | None => missing
  end.

Definition table (title : string) (show : Result → option cell) (missing : line) (n : nat) (configs : list BenchConfig) : list line :=
  [[Text title]; Text "Workload" :: (Text <$> order n)] ++
  imap (λ i config, Text (bc_Name config) :: concat (row_cells show missing i <$> order (n + 1 + i)%nat)) configs.

Definition show_throughput (r : Result) : option cell := Some (Ratio (rs_OpsPerSec r)).
Definition show_p99 (r : Result) : option cell :=
  if 0 <? rs_WriteOps r then Some (Count (Microseconds (ls_P99 (rs_WriteLatency r)))) else None.
Definition show_amplification (r : Result) : option cell := Some (Ratio (rs_WriteAmplification r)).

(** Only the latency table has a cell for a missing result. *)
Definition PrintComparisonTable (cs : ComparisonSuite) : list line :=
  let rows := length (cs_configs cs) in
  table "THROUGHPUT COMPARISON" show_throughput [] 0 (cs_configs cs) ++
  table "WRITE P99 LATENCY COMPARISON" show_p99 [Text "N/A"] (1 + rows) (cs_configs cs) ++
  table "WRITE AMPLIFICATION COMPARISON" show_amplification [] (2 + 2 * rows) (cs_configs cs).
End table.

(** ** When the tables are right *)

(** The cell that belongs to an engine and a workload. *)
Definition right_cell (results : gmap string (list Result)) (show : Result → option cell) (i : nat) (engine : string) : option cell :=
  results_of results engine !! i ≫= show.

(** A row is right when the map is visited in the order of the header and every engine has a
    result for every workload that shows a cell: then column [j] is that of engine [j]. *)
Lemma row_right results order show missing n i j engine :
  order (n + 1 + i)%nat = order n → (∀ e, e ∈ order n → is_Some (right_cell results show i e)) → order n !! j = Some engine →
  concat (row_cells results show missing i <$> order (n + 1 + i)%nat) !! j = right_cell results show i engine.
Proof.
  intros -> Hall Hj. assert (E : ∀ l, (∀ e, e ∈ l → is_Some (right_cell results show i e)) →
    Some <$> concat (row_cells results show missing i <$> l) = (right_cell results show i <$> l)).
  { induction l as [|e l IH]; intros Hl; [done|]. cbn [fmap list_fmap concat]. rewrite fmap_app, IH by (intros x Hx; apply Hl; by right).
    destruct (Hl e) as [c Hc]; [by left|]. rewrite Hc. unfold right_cell, row_cells in *.
    destruct (results_of results e !! i) as [x|]; [|done]. cbn in Hc. by rewrite Hc. }
  specialize (E _ Hall). apply (f_equal (.!! j)) in E. rewrite !list_lookup_fmap, Hj in E. cbn in E.
  destruct (Hall engine) as [c Hc]; [by eapply list_elem_of_lookup_2|]. rewrite Hc in *.
  destruct (concat _ !! j); [|done]. cbn in E. congruence.
Qed.

(** ** Where they are wrong *)

Definition rate_result (config : BenchConfig) (rate : Z) : Result :=
  let l := MkLatencyStats 0 0 0 0 0 0 0 in
  MkResult config rate rate 0 1 (rate, 1) l l (1, 1) (1, 1) (1, 1) (MkStats 0 0 0 0 0 0 0 (0, 1) (0, 1)).

Definition two_workloads : list BenchConfig := take 2 QuickWorkloads.
Definition rates (config : nat) (rate : Z) : Result := rate_result (nth config two_workloads (MkBenchConfig "" "" "" 0 0 0 0 0 0 0)) rate.

(** A run that fails leaves no gap in the results, so the results after it move to the rows of
    other workloads: the first workload of engine [a] failed, and its row shows the second. *)
Example failed_run_shifts_rows :
  let results : gmap string (list Result) := {["a" := [rates 1 50]]} in
  table results (λ _, ["a"]) "t" show_throughput [] 0 two_workloads =
    [[Text "t"]; [Text "Workload"; Text "a"]; [Text "quick-write-heavy"; Ratio (50, 1)]; [Text "quick-balanced"]].
Proof. reflexivity. Qed.

(** Without a cell for a missing result the rest of the row moves to the left: the rate of
    engine [b] stands below [a]. *)
Example missing_result_shifts_cells :
  let results : gmap string (list Result) := <["b" := [rates 0 70; rates 1 80]]> {["a" := [rates 0 50]]} in
  table results (λ _, ["a"; "b"]) "t" show_throughput [] 0 two_workloads =
    [[Text "t"]; [Text "Workload"; Text "a"; Text "b"]; [Text "quick-write-heavy"; Ratio (50, 1); Ratio (70, 1)];
     [Text "quick-balanced"; Ratio (80, 1)]].
Proof. reflexivity. Qed.

(** The header and the rows range over the map on their own, and Go may visit it in another
    order each time: here both rates are below the wrong engine. *)
Example map_order_swaps_columns :
  let results : gmap string (list Result) := <["b" := [rates 0 70]]> {["a" := [rates 0 50]]} in
  table results (λ n, if decide (n = 0)%nat then ["a"; "b"] else ["b"; "a"]) "t" show_throughput [] 0 (take 1 two_workloads) =
    [[Text "t"]; [Text "Workload"; Text "a"; Text "b"]; [Text "quick-write-heavy"; Ratio (70, 1); Ratio (50, 1)]].
Proof. reflexivity. Qed.
